(* ===== verification/_CoqProject ===== *)
-Q . S2P
Prelude.v
Strings.v
Utf8.v
Splitter.v
Guards.v
Transforms.v
FlatMap.v
FlatMapOps.v
BytesCell.v
Builder.v
Tags.v
Args.v
Source.v
Numeric.v
Msg.v
Codec.v
Ctcp.v
Mode.v
Names.v
Queue.v
Sink.v
Handlers.v
Oneshot.v
Parker.v
Channels.v
ThinArc.v
Layout.v
Memory.v
SecretBuf.v
OwnedBytes.v
State.v
Replies.v
Cap.v
Nick.v
Base64.v
Encoder.v
Rfc4648.v
BytesOps.v
Newtypes.v
Conversions.v
Mangle.v
Kinds.v
NameTypes.v
ModeOps.v
MsgIO.v
Ownership.v
MsgParts.v
Auth.v
Register.v
Failures.v
Logins.v
RegisterThms.v
Negotiate.v
Defaults.v
Time.v
Client.v
Link.v
ClientThms.v
Tokio.v
Stream.v
Conns.v
Setup.v
Tls.v
Boxed.v
Script.v
Parametric.v
Returns.v
System.v
Serde.v
UnitTests.v
RegisterTests.v
