(* ===== verification/Prelude.v ===== *)
(** * vinezombie

    A development on the IRC library vinezombie ([src/], in Rust).  It goes from
    the byte strings the library is built on to the loop that runs a client, and
    from there to a registration with a server seen from both ends.  This file
    has what all others share; this comment describes the whole.

    ** The program

    A client reads lines from a connection, parses each into a [ServerMsg], and
    gives it to its handlers, which change the state of the client, put messages
    into its queue and send values to whoever waits for them.  Messages leave the
    queue no faster than its rate limit and are written to the connection.
    Registration, authentication, tracking of the own nick and answering pings
    are such handlers.  All strings are byte strings of a hierarchy of types
    that rule out certain bytes, and share their memory where they can.

    ** Strings
    - [Strings] (src/string/subtypes.rs, subtypes/macros.rs, subtypes/impls.rs,
      src/error.rs): the types of strings as predicates on bytes, with the
      checks that decide them.  [Utf8]: what the standard library makes of UTF-8.
    - [BytesCell] and [BytesOps] (src/string/bytes.rs, src/owning.rs): what a
      [Bytes] is, with its flags, and all its methods and conversions.
      [Newtypes] (subtypes/macros.rs, impls.rs): the values of the string types
      over it, and everything safe code can do with them; [Conversions]: which
      type the source converts into which, and the marker traits.
    - [Memory] (src/util/ownedslice.rs), [OwnedBytes] (bytes.rs again),
      [SecretBuf] (src/string/secretbuf.rs): the same strings, and buffers for
      secrets, as blocks of a heap, where access to what is freed or was never
      written is undefined.  [OwnedBytes.bytes_refine] is the refinement of the
      one by the other.  [Layout] (src/util/dynsized.rs, thinarc.rs): where
      the fields of a shared allocation are.
    - [Splitter] and [Guards] (src/string/splitter.rs): taking strings apart,
      and the guards that give back what was taken.  [Transforms], [Builder]
      (src/string.rs, src/string/tf, src/string/builder.rs): mapping and
      joining them.  [Base64] (src/string/base64.rs): the chunks of
      [AUTHENTICATE]; [Rfc4648]: an engine for it.
    - [Serde] (src/string/serde.rs and the written [serde] implementations of
      other files).  [Mangle] (src/util/hash.rs): the hash of pings.

    ** Messages
    - [Tags], [Args], [Source], [Numeric] (src/ircmsg/tags.rs, args.rs,
      source.rs, numeric.rs, servermsgkind.rs): the parts of a message.  Tags
      are a [FlatMap] (src/util/flatmap.rs, with the rest of it in
      [FlatMapOps]).  [Kinds]: comparing and hashing numerics and kinds.
      [MsgParts]: changing parts in place.  [Ownership]: what [owning] makes of
      messages that borrow.
    - [Msg] (src/ircmsg/client.rs, server.rs, codec.rs): whole messages, parsed
      and written.  [Codec] (codec.rs): reading them from a stream of bytes;
      [MsgIO]: its instances for blocking and asynchronous readers and writers.
      [Ctcp] (ctcp.rs, targeted.rs).
    - [Names] and [NameTypes] (src/names.rs, src/names/, src/macros.rs), [Mode]
      and [ModeOps] (src/state/mode.rs): what the parameters of messages mean.

    ** Clients
    - [Queue] (src/client/queue.rs), [Sink] (sink.rs), [State] (state.rs, and
      [ClientState] of logic.rs), [Handlers] (handler.rs): the parts of a
      client.  [Setup]: how they are made and got at.  [Boxed]: handlers in
      boxes, with the senders of their values and the traits that make them.
    - [Channels] (handler/channel.rs): the channels values are sent over, with a
      heap that sender and receiver share.  [Oneshot], [Parker]
      (handler/channel/oneshot.rs, parker.rs), [ThinArc] (src/util/thinarc.rs):
      what is concurrent, as steps of threads that interleave in any order.
    - [Replies] (client/handlers.rs, client/handlers/), [Cap] (cap.rs), [Nick]
      (nick.rs, nick/suffix.rs), [Auth] (auth.rs, auth/), [Register] and
      [Defaults] (register.rs, register/): handlers and what they use.
      [Logins]: credentials and secrets in memory.  The handler of
      registration is a state machine; [RegisterThms] and [Negotiate] have the
      theorems on it.  [Failures]: errors as causes and as I/O errors.
    - [Time], [Client] (client/conn/time.rs, conn.rs, client.rs, logic.rs and the
      loop of conn/sync.rs): the loop over any connection.  [Link] has the
      abstract client; [ClientThms] shows that the loop refines it, [Tokio]
      (conn/tokio.rs and the rest of time.rs) that the asynchronous one does.
      [Stream] (conn/sync.rs) discharges what is asked of a connection for
      buffered sockets, [Conns] has the other kinds of connection.  [Tls]
      (tls.rs): the configuration of TLS.
    - [Script], [Returns]: how to reason about [run] against a server that sends
      given lines, and that it returns.  [Parametric]: a handler does the same
      with any sink.  [System] puts all of it together for registration.
    - [UnitTests], [RegisterTests] (the tests.rs files): the expectations of the
      unit tests, evaluated on the definitions.

    ** How the code is rendered

    A function that can fail returns a [result]; one that can panic or do
    something undefined an [option], whose [None] is that; a loop an [Outcome],
    which tells a panic from too little fuel.  One that changes something
    returns the new state with its result.  Strings of the types are their bytes,
    and [valid] is what their type says; that every operation keeps it is proved
    rather than built in.  Integers are [N] or [Z], with wrapping, saturation
    and overflow written out where the code can get there; machine words of
    modes are taken by their bits.  Traits are classes, whose laws are classes of
    their own ([SocketOk], [ReadUntilOk], [WorldOk], [SaslLogicOk], [Loads],
    [EngineOk]), so that a client of a trait is proved against its laws and an
    implementation discharges them.  What handlers share with the rest of the
    program, such as the cells of channels, is a type [W] that is passed along
    with the state of the client.  Concurrent code is a step relation of threads
    on shared memory.

    ** What is shown
    - Invariants and round trips: strings keep their types under every
      operation ([Newtypes.newtypes_sound], [Conversions.conversions_sound]),
      splitting never produces ill-formed text ([Splitter.splitter_sound], and
      with guards [Guards.guards_sound]), messages and tags are read back as
      they were written, also from a format.
    - Parsers: what they accept, on every line, and that they end
      ([Msg.server_parse_total]).  The one endless loop there is, in
      [Tags.parse_diverges], is characterised.
    - Reading is independent of how bytes arrive ([Time.recv_refines],
      [MsgIO.readers_agree]) and picks up where a timeout left it
      ([Codec.read_msg_resumable], [Time.recv_message]).
    - The run loops refine an abstract client, send in order and within the rate
      limit ([Queue.rate_limit], [Setup.default_schedule]) and return
      ([ClientThms.run_flushes], [System.registration_returns]).
    - Registration ends with a cooperating server, ends the negotiation once and
      never succeeds early; authentication falls back as it should; on a
      connection both happen as on messages ([System.registration_completes]).
    - Channels deliver a value once and wake their receiver; memory is freed
      once; of the credentials of a login only zeroes are left
      ([Logins.logins_refine]).
    - Where the code does something else than it means to, a lemma or theorem
      says exactly when, or shows it on an example.

    ** Fuel

    Loops that are not structural take fuel, and for each there is a theorem on
    how much is enough.  Parsers need the length of their input and one more;
    reading a message the length of a message and the number of interruptions
    ([Time.recv_message]); sending a turn for each message and two more
    ([ClientThms.run_flushes]).  [run] itself goes on for as long as messages
    arrive, so what is said of it is about every number of turns; against a
    script it is shown to return ([Returns]), on a connection whose interruptions
    and clock are bounded, which is what [Lasting] says.

    ** Not modelled
    - What is not in the repository is a parameter with the laws that are used:
      sockets, clocks, [rustls], [tokio] and its channels, random numbers,
      [TypeId]s, the allocator, what is known of the platform.  For [tokio] an
      await is one step; how it schedules tasks is its own.
    - Memory orders weaker than sequential consistency; capacities of vectors
      where nothing depends on them.
    - Implementations that a derive macro generates, such as most of [serde] and
      [Debug]; logging; the example programs, and tests that depend on threads
      or chance. *)

From stdpp Require Export base list numbers option sets.
From Stdlib Require Export Strings.Byte ZArith Lia.
From Stdlib Require String DecimalString.
Export String.StringSyntax.

(** ** Results *)

(** Rust's [Result<T, E>]. *)
Inductive result (T E : Type) : Type :=
| Ok (v : T)
| Err (e : E).
Arguments Ok {T E} v.
Arguments Err {T E} e.

Create HintDb vz.

Declare Scope vz_scope.
Delimit Scope vz_scope with vz.

(** Rust's [?] operator: continue on [Ok], return the error otherwise. *)
Notation "'let?' x ':=' e 'in' k" :=
  (match e with Ok x => k | Err err => Err err end)
  (at level 10, x name, e at level 200, k at level 200) : vz_scope.
Open Scope vz_scope.

(** [Result::map_err]. *)
Definition map_err {T E F} (f : E -> F) (r : result T E) : result T F :=
  match r with Ok v => Ok v | Err e => Err (f e) end.

(** [Result::unwrap_or]. *)
Definition unwrap_or {T E} (r : result T E) (d : T) : T :=
  match r with Ok v => v | Err _ => d end.

(** ** Bytes *)

#[global] Instance byte_eq_dec : EqDecision byte := Byte.byte_eq_dec.

(** A byte string literal. *)
Definition bs (s : String.string) : list byte := String.list_byte_of_string s.
Arguments bs s%_string_scope.

(** An integer in decimal. *)
Definition dec (n : N) : list byte :=
  String.list_byte_of_string (DecimalString.NilZero.string_of_uint (N.to_uint n)).

(** The numeric value of a byte. *)
Definition code (b : byte) : N := Byte.to_N b.

(** The byte of an integer, [as u8]. *)
Definition byte_of (n : N) : byte :=
  match Byte.of_N (n mod 256) with Some b => b | None => x00 end.

(** [u8::is_ascii] and its relatives. *)
Definition is_ascii (b : byte) : bool := (code b <? 128)%N.
Definition is_ascii_uppercase (b : byte) : bool := (65 <=? code b)%N && (code b <=? 90)%N.
Definition is_ascii_lowercase (b : byte) : bool := (97 <=? code b)%N && (code b <=? 122)%N.
Definition is_ascii_alphabetic (b : byte) : bool := is_ascii_uppercase b || is_ascii_lowercase b.
Definition is_ascii_digit (b : byte) : bool := (48 <=? code b)%N && (code b <=? 57)%N.
Definition is_ascii_graphic (b : byte) : bool := (33 <=? code b)%N && (code b <=? 126)%N.
(** Space, tab, line feed, form feed and carriage return; not vertical tab. *)
Definition is_ascii_whitespace (b : byte) : bool :=
  match b with x20 | x09 | x0a | x0c | x0d => true | _ => false end.
Definition to_ascii_uppercase (b : byte) : byte :=
  if is_ascii_lowercase b then byte_of (code b - 32) else b.
Definition to_ascii_lowercase (b : byte) : byte :=
  if is_ascii_uppercase b then byte_of (code b + 32) else b.

(** Case analysis over all 256 byte values. *)
Ltac byte_cases b := destruct b; try reflexivity; try discriminate; try congruence.

(** ** Boolean and byte equality *)

Lemma code_lt b : (code b < 256)%N.
Proof. unfold code. pose proof (Byte.to_N_bounded b). lia. Qed.

Lemma byte_eqb_spec (a b : byte) : reflect (a = b) (Byte.eqb a b).
Proof.
  destruct (Byte.eqb a b) eqn:E; constructor.
  - by apply Byte.byte_dec_bl.
  - intros ->. rewrite (Byte.byte_dec_lb eq_refl) in E. discriminate.
Qed.

Lemma byte_eqb_refl (a : byte) : Byte.eqb a a = true.
Proof. by destruct (byte_eqb_spec a a). Qed.

Lemma byte_eqb_neq (a b : byte) : a <> b -> Byte.eqb a b = false.
Proof. by destruct (byte_eqb_spec a b). Qed.

(** ** [Iterator::position] *)

Fixpoint position {A} (f : A -> bool) (l : list A) : option nat :=
  match l with
  | [] => None
  | x :: l => if f x then Some 0 else S <$> position f l
  end.

Section position.
Context {A : Type} (f : A -> bool).

Lemma position_None l : position f l = None <-> Forall (fun x => f x = false) l.
Proof.
  induction l as [|x l IH]; simpl; [by split; [constructor|]|].
  rewrite Forall_cons_iff. destruct (f x); simpl.
  - split; [done|by intros [? _]].
  - rewrite fmap_None, IH. tauto.
Qed.

Lemma position_Some l i :
  position f l = Some i ->
  i < length l /\ Forall (fun x => f x = false) (take i l) /\
  exists x, l !! i = Some x /\ f x = true.
Proof.
  revert i. induction l as [|y l IH]; intros i; simpl; [done|].
  destruct (f y) eqn:E.
  - intros [= <-]. split; [lia|]. split; [constructor|]. exists y. done.
  - destruct (position f l) as [j|] eqn:P; simpl; [|done]. intros [= <-].
    destruct (IH j eq_refl) as (? & ? & x & ? & ?).
    split; [lia|]. split; [by constructor|]. by exists x.
Qed.

Lemma position_stop l1 x l2 :
  Forall (fun x => f x = false) l1 -> f x = true ->
  position f (l1 ++ x :: l2) = Some (length l1).
Proof.
  induction 1 as [|y l1 Hy _ IH]; intros Hx; simpl.
  - by rewrite Hx.
  - rewrite Hy, (IH Hx). done.
Qed.

Lemma position_none_all l : Forall (fun x => f x = false) l -> position f l = None.
Proof. apply position_None. Qed.
End position.

(** [take_while]: the longest prefix on which [f] holds; a specification device. *)
Fixpoint take_while {A} (f : A -> bool) (l : list A) : list A :=
  match l with
  | [] => []
  | x :: l => if f x then x :: take_while f l else []
  end.

(** [drop_while]: what is left of [l] after [take_while]. *)
Fixpoint drop_while {A} (f : A -> bool) (l : list A) : list A :=
  match l with
  | [] => []
  | x :: l' => if f x then drop_while f l' else l
  end.

Section take_while.
Context {A : Type} (f : A -> bool).

Lemma take_drop_while l : take_while f l ++ drop_while f l = l.
Proof. induction l as [|x l IH]; simpl; [done|]. destruct (f x); simpl; congruence. Qed.

Lemma take_while_app l1 l2 :
  Forall (fun x => f x = true) l1 -> take_while f (l1 ++ l2) = l1 ++ take_while f l2.
Proof. induction 1 as [|x l1 Hx _ IH]; simpl; [done|]. by rewrite Hx, IH. Qed.

Lemma take_while_all l : Forall (fun x => f x = true) l -> take_while f l = l.
Proof. intros H. rewrite <- (app_nil_r l) at 1. rewrite take_while_app by done. apply app_nil_r. Qed.

Lemma drop_while_app l1 l2 :
  Forall (fun x => f x = true) l1 -> drop_while f (l1 ++ l2) = drop_while f l2.
Proof. induction 1 as [|x l1 Hx _ IH]; simpl; [done|]. by rewrite Hx. Qed.

Lemma take_while_Forall l : Forall (fun x => f x = true) (take_while f l).
Proof. induction l as [|x l IH]; simpl; [constructor|]. destruct (f x) eqn:E; by constructor. Qed.

Lemma drop_while_head l x l' : drop_while f l = x :: l' -> f x = false.
Proof.
  induction l as [|y l IH]; simpl; [done|]. destruct (f y) eqn:E; [done|]. by intros [= -> ->].
Qed.

Lemma length_take_while l : length (take_while f l) <= length l.
Proof. induction l as [|x l IH]; simpl; [done|]. destruct (f x); simpl; lia. Qed.

Lemma length_drop_while l : length (drop_while f l) = length l - length (take_while f l).
Proof. rewrite <- (take_drop_while l) at 2. rewrite length_app. lia. Qed.

(** [position] of the first failure splits the list exactly there. *)
Lemma position_take_while (g : A -> bool) l :
  (forall x, g x = negb (f x)) ->
  match position g l with Some i => i | None => length l end = length (take_while f l).
Proof.
  intros Hg. induction l as [|x l IH]; simpl; [done|]. rewrite Hg.
  destruct (f x); simpl; [|done]. rewrite <- IH. by destruct (position g l).
Qed.
End take_while.

Lemma take_length_take_while {A} (f : A -> bool) l :
  take (length (take_while f l)) l = take_while f l.
Proof. rewrite <- (take_drop_while f l) at 2. by rewrite take_app_length. Qed.

Lemma drop_length_take_while {A} (f : A -> bool) l :
  drop (length (take_while f l)) l = drop_while f l.
Proof. rewrite <- (take_drop_while f l) at 2. by rewrite drop_app_length. Qed.

Lemma take_while_ext {A} (f g : A -> bool) l :
  (forall x, f x = g x) -> take_while f l = take_while g l.
Proof. intros H. induction l as [|x l IH]; simpl; [done|]. rewrite H, IH. done. Qed.

(** The parts of [l] between occurrences of [x]; a specification device. *)
Fixpoint split_on (x : byte) (l : list byte) : list (list byte) :=
  match l with
  | [] => [[]]
  | y :: l =>
      if Byte.eqb y x then [] :: split_on x l
      else match split_on x l with
           | [] => [[y]]
           | seg :: segs => (y :: seg) :: segs
           end
  end.

Lemma split_on_cons x l :
  split_on x l =
  take_while (fun y => negb (Byte.eqb y x)) l ::
  match drop_while (fun y => negb (Byte.eqb y x)) l with
  | [] => []
  | _ :: r => split_on x r
  end.
Proof.
  induction l as [|y l IH]; simpl; [done|]. destruct (Byte.eqb y x); simpl; [done|].
  rewrite IH. done.
Qed.

Lemma split_on_app x a b :
  Forall (fun y => Byte.eqb y x = false) a -> split_on x (a ++ x :: b) = a :: split_on x b.
Proof.
  intros Ha. rewrite split_on_cons. rewrite take_while_app, drop_while_app.
  2, 3: eapply Forall_impl; [exact Ha|]; simpl; by intros y ->.
  simpl. rewrite byte_eqb_refl. simpl. by rewrite app_nil_r.
Qed.

Lemma split_on_none x a : Forall (fun y => Byte.eqb y x = false) a -> split_on x a = [a].
Proof.
  intros Ha. rewrite <- (app_nil_r a), split_on_cons. rewrite take_while_app, drop_while_app.
  2, 3: eapply Forall_impl; [exact Ha|]; simpl; by intros y ->.
  simpl. by rewrite !app_nil_r.
Qed.

(** A boolean predicate failing on every element of a list, as a boolean. *)
Lemma Forall_forallb {A} (f : A -> bool) l : Forall (fun x => f x = true) l <-> forallb f l = true.
Proof. rewrite List.forallb_forall, List.Forall_forall. done. Qed.

Lemma list_filter_nil {A} (P : A -> Prop) `{!forall x, Decision (P x)} (l : list A) :
  (forall x, x ∈ l -> ~ P x) -> filter P l = [].
Proof.
  intros Hn. destruct (filter P l) as [|x r] eqn:E; [done|].
  assert (Hx : x ∈ filter P l) by (rewrite E; by left).
  apply list_elem_of_filter in Hx as [? ?]. by destruct (Hn x).
Qed.

Lemma list_filter_ext_in {A} (P Q : A -> Prop) `{!forall x, Decision (P x), !forall x, Decision (Q x)}
    (l : list A) :
  (forall x, x ∈ l -> P x <-> Q x) -> filter P l = filter Q l.
Proof.
  induction l as [|x l IH]; intros Hx; [done|].
  rewrite !filter_cons, IH by (intros y ?; apply Hx; by right).
  apply decide_ext, Hx. by left.
Qed.

(** [Vec::swap_remove] takes out one element. *)
Lemma swap_remove_perm {A} (m : list A) (i : nat) (e l : A) :
  m !! i = Some e -> last m = Some l ->
  Permutation (e :: take (length m - 1) (<[i:=l]> m)) m.
Proof.
  intros Hi Hl. apply last_Some in Hl as [m' ->]. rewrite length_app. simpl.
  rewrite Nat.add_sub. pose proof (lookup_lt_Some _ _ _ Hi) as Hlt. rewrite length_app in Hlt. simpl in Hlt.
  destruct (decide (i = length m')) as [->|Hne].
  - rewrite list_lookup_middle in Hi by done. injection Hi as ->.
    rewrite insert_app_r_alt by lia. rewrite Nat.sub_diag. simpl. rewrite take_app_length.
    by rewrite Permutation_app_comm.
  - assert (Hi' : i < length m') by lia.
    rewrite lookup_app_l in Hi by done. rewrite insert_app_l by done.
    rewrite take_app_le by (rewrite length_insert; lia).
    rewrite take_ge by (rewrite length_insert; lia).
    rewrite insert_take_drop by done. rewrite <- (take_drop_middle m' i e Hi) at 3.
    rewrite Permutation_middle. rewrite <- !app_assoc. f_equiv.
    simpl. rewrite (Permutation_app_comm (drop (S i) m') [l]). simpl. done.
Qed.

(** ** Ordered keys *)

(** [Ord]: a three-way comparison that is a total order. *)
Class KeyOrd (K : Type) := {
  kcmp : K -> K -> comparison;
  kcmp_eq : forall a b, kcmp a b = Eq <-> a = b;
  kcmp_antisym : forall a b, kcmp b a = CompOpp (kcmp a b);
  kcmp_trans : forall a b c, kcmp a b = Lt -> kcmp b c = Lt -> kcmp a c = Lt;
}.

Section KeyOrd.
Context `{KeyOrd K}.

Lemma kcmp_refl a : kcmp a a = Eq.
Proof. by apply kcmp_eq. Qed.

Lemma kcmp_gt a b : kcmp a b = Gt <-> kcmp b a = Lt.
Proof. rewrite (kcmp_antisym a b). by destruct (kcmp a b). Qed.

Lemma kcmp_irrefl a : kcmp a a <> Lt.
Proof. by rewrite kcmp_refl. Qed.

#[export] Instance key_eq_dec : EqDecision K.
Proof.
  intros a b. destruct (kcmp a b) eqn:E; [left; by apply kcmp_eq|right|right];
    intros ->; rewrite kcmp_refl in E; discriminate.
Defined.
End KeyOrd.

(** The order of byte strings: lexicographic, bytes as unsigned integers. *)
Fixpoint bytes_cmp (a b : list byte) : comparison :=
  match a, b with
  | [], [] => Eq
  | [], _ => Lt
  | _, [] => Gt
  | x :: a, y :: b => match (code x ?= code y)%N with Eq => bytes_cmp a b | c => c end
  end.

Lemma code_inj a b : code a = code b -> a = b.
Proof.
  unfold code. intros E. apply (f_equal Byte.of_N) in E. rewrite !Byte.of_to_N in E. congruence.
Qed.

#[global] Program Instance bytes_key_ord : KeyOrd (list byte) := {| kcmp := bytes_cmp |}.
Next Obligation.
  intros a. induction a as [|x a IH]; intros [|y b]; simpl; try done.
  destruct (N.compare_spec (code x) (code y)) as [E|E|E].
  - apply code_inj in E as ->. rewrite IH. naive_solver.
  - split; [done|]. intros [= -> _]. lia.
  - split; [done|]. intros [= -> _]. lia.
Qed.
Next Obligation.
  intros a. induction a as [|x a IH]; intros [|y b]; simpl; try done.
  rewrite (N.compare_antisym (code x)). destruct (code x ?= code y)%N; simpl; auto.
Qed.
Next Obligation.
  intros a. induction a as [|x a IH]; intros [|y b] [|z c]; simpl; try done.
  destruct (N.compare_spec (code x) (code y)), (N.compare_spec (code y) (code z)),
    (N.compare_spec (code x) (code z)); try done; try lia; eauto.
Qed.

(** ** Counting threads *)

(** What [f] counts over a list of threads, of which one moves at a time. *)
Definition total {A} (f : A -> nat) (l : list A) : nat := sum_list_with f l.

Lemma total_insert {A} (f : A -> nat) l k x y :
  l !! k = Some x -> total f (<[k := y]> l) + f x = total f l + f y.
Proof.
  unfold total. intros Hk. pose proof (lookup_lt_Some _ _ _ Hk).
  rewrite insert_take_drop by done. rewrite <- (take_drop_middle l k x Hk) at 3.
  rewrite !sum_list_with_app. simpl. lia.
Qed.

Lemma total_app {A} (f : A -> nat) l x : total f (l ++ [x]) = total f l + f x.
Proof. unfold total. rewrite sum_list_with_app. simpl. lia. Qed.

Lemma total_le {A} (f : A -> nat) l k x : l !! k = Some x -> f x <= total f l.
Proof.
  intros Hk. unfold total. rewrite <- (take_drop_middle l k x Hk), sum_list_with_app. simpl. lia.
Qed.

Lemma total_pos {A} (f : A -> nat) l : 0 < total f l -> exists k x, l !! k = Some x /\ 0 < f x.
Proof.
  induction l as [|x l IH]; simpl; [lia|]. intros Hp. destruct (decide (0 < f x)) as [Hx|Hx]; [by exists 0, x|].
  destruct IH as (k & y & Hk & Hy); [unfold total in *; simpl in Hp; lia|]. by exists (S k), y.
Qed.

Lemma total_mono {A} (f g : A -> nat) l : (forall x, f x <= g x) -> total f l <= total g l.
Proof. intros Hfg. induction l as [|x l IH]; [done|]. unfold total in *. simpl. specialize (Hfg x). lia. Qed.

Lemma total_gap {A} (f g : A -> nat) l k x :
  (forall x, f x <= g x) -> l !! k = Some x -> total f l + g x <= total g l + f x.
Proof.
  intros Hfg Hk. pose proof (total_mono f g (take k l) Hfg) as Ht. pose proof (total_mono f g (drop (S k) l) Hfg) as Hd.
  unfold total in *. rewrite <- (take_drop_middle l k x Hk), !sum_list_with_app. simpl. lia.
Qed.
