(* ===== verification/Strings.v ===== *)
(** * The byte-string hierarchy

    [src/string/subtypes.rs], [subtypes/macros.rs], [subtypes/impls.rs] and
    [src/error.rs]: the newtypes [NoNul], [Line], [Word], [Arg], [Key], [Nick],
    [User] and [Cmd], each given by the bytes it rejects and a check on the
    whole string.  A value of one of these types is observed only through its
    bytes ([PartialEq], [Ord], [Hash] and [Deref] of [Bytes] all go to the
    [value] field), so it is a [list byte] here; the ownership, secrecy and
    UTF-8 cache of a [Bytes] are in [BytesCell]. *)

From S2P Require Import Prelude.

(** Error of a violated newtype invariant. *)
Inductive InvalidString :=
| ISEmpty
| ISColon
| ISByte (b : byte).

#[global] Instance InvalidString_eq_dec : EqDecision InvalidString.
Proof. solve_decision. Defined.

(** [ParseError]; the boxed cause of [InvalidField] is kept as its text. *)
Inductive ParseError :=
| TooLong
| MissingField (field : list byte)
| InvalidField (field : list byte) (cause : list byte)
| InvalidLine (e : InvalidString)
| InvalidNick (e : InvalidString)
| InvalidUser (e : InvalidString)
| InvalidHost (e : InvalidString)
| InvalidKind (e : InvalidString).

#[global] Instance ParseError_eq_dec : EqDecision ParseError.
Proof. solve_decision. Defined.

(** ** Checks *)

(** [check_bytes!]: the first byte satisfying [f], as an error. *)
Fixpoint check_bytes (f : byte -> bool) (bytes : list byte) : option InvalidString :=
  match bytes with
  | [] => None
  | b :: rest => if f b then Some (ISByte b) else check_bytes f rest
  end.

Definition return_none (_ : list byte) : option InvalidString := None.

Definition is_invalid_for_nonul (b : byte) : bool := Byte.eqb b x00.

Definition is_invalid_for_line (CHAIN : bool) (b : byte) : bool :=
  (Byte.eqb b "013" || Byte.eqb b "010") || (if CHAIN then is_invalid_for_nonul b else false).

Definition is_invalid_for_word (CHAIN : bool) (b : byte) : bool :=
  Byte.eqb b " " || (if CHAIN then is_invalid_for_line true b else false).

Definition arg_first_check (bytes : list byte) : option InvalidString :=
  match bytes with
  | [] => Some ISEmpty
  | ":"%byte :: _ => Some ISColon
  | _ => None
  end.

Definition is_invalid_for_key (CHAIN : bool) (b : byte) : bool :=
  (Byte.eqb b "=" || Byte.eqb b ";") || (if CHAIN then is_invalid_for_word true b else false).

Definition is_invalid_for_nick (CHAIN : bool) (b : byte) : bool :=
  (Byte.eqb b "!" || Byte.eqb b "@") || (if CHAIN then is_invalid_for_word true b else false).

Definition is_invalid_for_user (CHAIN : bool) (b : byte) : bool :=
  (Byte.eqb b "@" || Byte.eqb b "%") || (if CHAIN then is_invalid_for_word true b else false).

Definition cmd_byte_check (b : byte) : bool := negb (is_ascii_uppercase b).

(** ** The newtypes *)

(** [BytesNewtype]: the bytes a newtype rejects and its other checks. *)
Record BytesNewtype := {
  is_invalid : byte -> bool;
  check_others : list byte -> option InvalidString;
}.

Definition Bytes : BytesNewtype := {|
  is_invalid := fun _ => false;
  check_others := return_none |}.

Definition NoNul : BytesNewtype := {|
  is_invalid := is_invalid_for_nonul;
  check_others := return_none |}.

Definition Line : BytesNewtype := {|
  is_invalid := is_invalid_for_line true;
  check_others := return_none |}.

Definition Word : BytesNewtype := {|
  is_invalid := is_invalid_for_word true;
  check_others := return_none |}.

Definition Arg : BytesNewtype := {|
  is_invalid := is_invalid_for_word true;
  check_others := arg_first_check |}.

Definition Key : BytesNewtype := {|
  is_invalid := is_invalid_for_key true;
  check_others := arg_first_check |}.

Definition Nick : BytesNewtype := {|
  is_invalid := is_invalid_for_nick true;
  check_others := arg_first_check |}.

Definition User : BytesNewtype := {|
  is_invalid := is_invalid_for_user true;
  check_others := arg_first_check |}.

Definition Cmd : BytesNewtype := {|
  is_invalid := cmd_byte_check;
  check_others := arg_first_check |}.

(** The [$sname: $ssuper] pairs handed to [impl_subtype!] with a [from_super]
    body. *)
Record Subtype := {
  sname : BytesNewtype;
  ssuper : BytesNewtype;
  sbody : list byte -> option InvalidString;
}.

Definition SLine := {| sname := Line; ssuper := NoNul; sbody := check_bytes (is_invalid_for_line false) |}.
Definition SWord := {| sname := Word; ssuper := Line; sbody := check_bytes (is_invalid_for_word false) |}.
Definition SArg := {| sname := Arg; ssuper := Word; sbody := arg_first_check |}.
Definition SKey := {| sname := Key; ssuper := Arg; sbody := check_bytes (is_invalid_for_key false) |}.
Definition SNick := {| sname := Nick; ssuper := Arg; sbody := check_bytes (is_invalid_for_nick false) |}.
Definition SUser := {| sname := User; ssuper := Arg; sbody := check_bytes (is_invalid_for_user false) |}.
Definition SCmd := {| sname := Cmd; ssuper := Arg; sbody := check_bytes cmd_byte_check |}.

Definition subtypes : list Subtype := [SLine; SWord; SArg; SKey; SNick; SUser; SCmd].

(** [find_invalid]. *)
Definition find_invalid (U : BytesNewtype) (bytes : list byte) : option InvalidString :=
  match check_others U bytes with
  | Some e => Some e
  | None => check_bytes (is_invalid U) bytes
  end.

(** [from_bytes]. *)
Definition from_bytes (U : BytesNewtype) (bytes : list byte) : result (list byte) InvalidString :=
  match find_invalid U bytes with
  | Some e => Err e
  | None => Ok bytes
  end.

(** [from_super]. *)
Definition from_super (S : Subtype) (sup : list byte) : result (list byte) InvalidString :=
  match sbody S sup with
  | Some e => Err e
  | None => Ok sup
  end.

(** [const fn from_str]: [None] is the panic. *)
Definition from_str (U : BytesNewtype) (string : list byte) : option (list byte) :=
  match find_invalid U string with
  | Some _ => None
  | None => Some string
  end.

(** The invariant of a newtype. *)
Definition valid (U : BytesNewtype) (bytes : list byte) : Prop := find_invalid U bytes = None.

#[global] Instance valid_dec U bytes : Decision (valid U bytes) := decide (find_invalid U bytes = None).

(** ** [impls.rs] *)

Definition is_client_tag (k : list byte) : bool :=
  match k with b :: _ => Byte.eqb b "+" | [] => false end.

Definition no_tilde (u : list byte) : bool :=
  match u with b :: _ => negb (Byte.eqb b "~") | [] => true end.

Definition len_with_tilde (u : list byte) : nat := length u + (if no_tilde u then 1 else 0).

(** Lowercase hexadecimal digit. *)
Definition hex_digit (n : N) : byte :=
  if (n <? 10)%N then byte_of (48 + n) else byte_of (87 + n).

(** The [w] lowest digits of [n] in base [base], most significant first. *)
Fixpoint digits (base : N) (w : nat) (n : N) : list byte :=
  match w with
  | 0 => []
  | S w => digits base w (n / base) ++ [hex_digit (n mod base)]
  end.

(** [User::from_id]: [format!("i{id:08x}")] of a [u32]. *)
Definition from_id (id : N) : list byte := "i"%byte :: digits 16 8 id.

(** [User::from_id_short]: [format!("i{id:05}")] of a [u16]. *)
Definition from_id_short (id : N) : list byte := "i"%byte :: digits 10 5 id.

(** [Cmd::from_word]. *)
Definition from_word (word : list byte) : result (list byte) InvalidString :=
  match List.find (fun b => negb (is_ascii_alphabetic b)) word with
  | Some inval => Err (ISByte inval)
  | None => Ok (map to_ascii_uppercase word)
  end.

(** ** Lemmas *)

Lemma check_bytes_None f l : check_bytes f l = None <-> Forall (fun b => f b = false) l.
Proof.
  induction l as [|b l IH]; simpl; [by split; [constructor|]|].
  rewrite Forall_cons_iff. destruct (f b); [|by rewrite IH; tauto]. by split; [|intros [? _]].
Qed.

Lemma check_bytes_ext f g l :
  Forall (fun b => f b = g b) l -> check_bytes f l = check_bytes g l.
Proof. induction 1 as [|b l E _ IH]; simpl; [done|]. by rewrite E, IH. Qed.

Lemma valid_iff U l :
  valid U l <-> check_others U l = None /\ Forall (fun b => is_invalid U b = false) l.
Proof.
  unfold valid, find_invalid. rewrite <- check_bytes_None.
  destruct (check_others U l); naive_solver.
Qed.

Lemma from_bytes_Ok U l l' : from_bytes U l = Ok l' <-> l' = l /\ valid U l.
Proof. unfold from_bytes, valid. destruct (find_invalid U l); naive_solver. Qed.

Lemma arg_first_check_None l :
  arg_first_check l = None <-> exists b r, l = b :: r /\ b <> ":"%byte.
Proof.
  destruct l as [|b r]; simpl; [naive_solver|]. split.
  - intros H. exists b, r. split; [done|]. by intros ->.
  - intros (b' & r' & [= -> ->] & Hb). byte_cases b'.
Qed.

Ltac byte_valid :=
  repeat match goal with
         | |- Forall _ _ -> Forall _ _ => apply List.Forall_impl
         | |- forall _ : byte, _ => let b := fresh "b" in intros b; byte_cases b
         end.

(** Every newtype accepts what its subtype accepts. *)
Lemma subtype_valid S l : S ∈ subtypes -> valid (sname S) l -> valid (ssuper S) l.
Proof.
  intros HS. rewrite !valid_iff. unfold subtypes in HS.
  rewrite !elem_of_cons, elem_of_nil in HS.
  destruct HS as [->|[->|[->|[->|[->|[->|[->|[]]]]]]]]; simpl; intros [Hc HF];
    (split; [first [done|exact Hc]|]); revert HF; byte_valid.
Qed.

Lemma valid_Word_Line l : valid Word l -> valid Line l.
Proof. apply (subtype_valid SWord). by set_solver. Qed.
Lemma valid_Line_NoNul l : valid Line l -> valid NoNul l.
Proof. apply (subtype_valid SLine). by set_solver. Qed.
Lemma valid_Arg_Word l : valid Arg l -> valid Word l.
Proof. apply (subtype_valid SArg). by set_solver. Qed.
Lemma valid_Key_Arg l : valid Key l -> valid Arg l.
Proof. apply (subtype_valid SKey). by set_solver. Qed.
Lemma valid_Nick_Arg l : valid Nick l -> valid Arg l.
Proof. apply (subtype_valid SNick). by set_solver. Qed.
Lemma valid_User_Arg l : valid User l -> valid Arg l.
Proof. apply (subtype_valid SUser). by set_solver. Qed.
Lemma valid_Cmd_Arg l : valid Cmd l -> valid Arg l.
Proof. apply (subtype_valid SCmd). by set_solver. Qed.

#[export] Hint Resolve valid_Word_Line valid_Line_NoNul valid_Arg_Word valid_Key_Arg
  valid_Nick_Arg valid_User_Arg valid_Cmd_Arg : vz.

(** ** Theorems *)

(** [from_super] agrees with [from_bytes] on every string of the
    supertype, the error included, so the unchecked conversion it ends with
    only ever sees valid strings. *)
Theorem from_super_from_bytes S l :
  S ∈ subtypes -> valid (ssuper S) l -> from_super S l = from_bytes (sname S) l.
Proof.
  intros HS. rewrite valid_iff. unfold subtypes in HS.
  rewrite !elem_of_cons, elem_of_nil in HS.
  unfold from_super, from_bytes, find_invalid.
  destruct HS as [->|[->|[->|[->|[->|[->|[->|[]]]]]]]]; simpl; intros [Hc HF];
    rewrite ?Hc; try reflexivity;
    try (erewrite (check_bytes_ext _ _ l); [reflexivity|]; revert HF; byte_valid).
  apply check_bytes_None in HF. rewrite HF. by destruct (arg_first_check l).
Qed.

Lemma from_super_from_bytes_witness :
  valid Arg (bs "a=b") /\ from_super SKey (bs "a=b") = Err (ISByte "=").
Proof.
  split; [reflexivity|].
  refine (eq_trans (from_super_from_bytes SKey (bs "a=b") _ eq_refl) eq_refl). by set_solver.
Defined.

(** The safety condition of [BytesNewtype]: [is_invalid] rejects all
    non-ASCII bytes or none of them. *)
Definition ascii_uniform (U : BytesNewtype) : Prop :=
  (forall b, is_ascii b = false -> is_invalid U b = false) \/
  (forall b, is_ascii b = false -> is_invalid U b = true).

Class BytesNewtypeOk (U : BytesNewtype) : Prop := bytes_newtype_ok : ascii_uniform U.

Ltac ascii_uniform_tac :=
  first [left; intros b; destruct b; (reflexivity || discriminate)
        |right; intros b; destruct b; (reflexivity || discriminate)].

#[global] Instance Bytes_ok : BytesNewtypeOk Bytes. Proof. ascii_uniform_tac. Qed.
#[global] Instance NoNul_ok : BytesNewtypeOk NoNul. Proof. ascii_uniform_tac. Qed.
#[global] Instance Line_ok : BytesNewtypeOk Line. Proof. ascii_uniform_tac. Qed.
#[global] Instance Word_ok : BytesNewtypeOk Word. Proof. ascii_uniform_tac. Qed.
#[global] Instance Arg_ok : BytesNewtypeOk Arg. Proof. ascii_uniform_tac. Qed.
#[global] Instance Key_ok : BytesNewtypeOk Key. Proof. ascii_uniform_tac. Qed.
#[global] Instance Nick_ok : BytesNewtypeOk Nick. Proof. ascii_uniform_tac. Qed.
#[global] Instance User_ok : BytesNewtypeOk User. Proof. ascii_uniform_tac. Qed.
#[global] Instance Cmd_ok : BytesNewtypeOk Cmd. Proof. ascii_uniform_tac. Qed.

Lemma find_alphabetic_None w :
  List.find (fun b => negb (is_ascii_alphabetic b)) w = None ->
  Forall (fun b => is_ascii_alphabetic b = true) w.
Proof.
  intros H. apply List.Forall_forall. intros b Hb.
  pose proof (List.find_none _ _ H b Hb) as E; simpl in E. by destruct (is_ascii_alphabetic b).
Qed.

Lemma uppercase_alphabetic w :
  Forall (fun b => is_ascii_alphabetic b = true) w ->
  Forall (fun b => cmd_byte_check b = false) (map to_ascii_uppercase w).
Proof. induction 1 as [|b w Hb _ IH]; simpl; constructor; [byte_cases b|done]. Qed.

(** [from_word] yields a command exactly for non-empty alphabetic words. *)
Lemma from_word_valid w c : w <> [] -> from_word w = Ok c -> valid Cmd c.
Proof.
  unfold from_word. destruct (List.find _ _) eqn:E; [done|]. intros Hw [= <-].
  apply find_alphabetic_None, uppercase_alphabetic in E.
  apply valid_iff. split; [|done].
  destruct w as [|b w]; [done|]. simpl in *. inversion E as [|? ? Hb]; subst.
  destruct (to_ascii_uppercase b); by try discriminate Hb.
Qed.

Lemma from_word_cmd c : valid Cmd c -> from_word c = Ok c.
Proof.
  intros [_ HF]%valid_iff. unfold from_word.
  destruct (List.find _ c) as [b|] eqn:E.
  - apply List.find_some in E as [Hin Hb]. rewrite List.Forall_forall in HF.
    specialize (HF b Hin). exfalso. clear Hin. byte_cases b.
  - f_equal. clear E. induction HF as [|b c Hb _ IH]; simpl; [done|].
    rewrite IH. f_equal. byte_cases b.
Qed.
