(* ===== verification/Utf8.v ===== *)
(** * UTF-8 validity

    [std::str::from_utf8] as a boolean on bytes (the table of well-formed
    sequences of the Unicode standard), with the facts the string types rely
    on: validity is unaffected by ASCII prefixes and splits at ASCII bytes. *)

From S2P Require Import Prelude.

Definition in_range (lo hi : N) (b : byte) : bool := (lo <=? code b)%N && (code b <=? hi)%N.

Definition utf8_cont : byte -> bool := in_range 128 191.

(** The class of a leading byte: the number of continuation bytes that follow
    and the range allowed for the first of them; [None] for an illegal lead. *)
Definition utf8_lead (b : byte) : option (nat * (byte -> bool)) :=
  let n := code b in
  if in_range 194 223 b then Some (1, utf8_cont)
  else if (n =? 224)%N then Some (2, in_range 160 191)
  else if in_range 225 236 b || in_range 238 239 b then Some (2, utf8_cont)
  else if (n =? 237)%N then Some (2, in_range 128 159)
  else if (n =? 240)%N then Some (3, in_range 144 191)
  else if in_range 241 243 b then Some (3, utf8_cont)
  else if (n =? 244)%N then Some (3, in_range 128 143)
  else None.

Fixpoint utf8_valid (l : list byte) : bool :=
  match l with
  | [] => true
  | b :: r =>
      if is_ascii b then utf8_valid r
      else match utf8_lead b, r with
           | Some (1, f), c1 :: r' => f c1 && utf8_valid r'
           | Some (2, f), c1 :: c2 :: r' => f c1 && utf8_cont c2 && utf8_valid r'
           | Some (3, f), c1 :: c2 :: c3 :: r' =>
               f c1 && utf8_cont c2 && utf8_cont c3 && utf8_valid r'
           | _, _ => false
           end
  end.

(** [Utf8Error]: where validity ends, and the length of the offending
    sequence, [None] if the input ends too early. *)
Fixpoint utf8_error (idx : nat) (l : list byte) : option (nat * option nat) :=
  match l with
  | [] => None
  | b :: r =>
      if is_ascii b then utf8_error (idx + 1) r
      else match utf8_lead b with
           | None => Some (idx, Some 1)
           | Some (n, f) =>
               match r with
               | [] => Some (idx, None)
               | c1 :: r =>
                   if negb (f c1) then Some (idx, Some 1)
                   else if n =? 1 then utf8_error (idx + 2) r
                   else match r with
                        | [] => Some (idx, None)
                        | c2 :: r =>
                            if negb (utf8_cont c2) then Some (idx, Some 2)
                            else if n =? 2 then utf8_error (idx + 3) r
                            else match r with
                                 | [] => Some (idx, None)
                                 | c3 :: r =>
                                     if negb (utf8_cont c3) then Some (idx, Some 3)
                                     else utf8_error (idx + 4) r
                                 end
                        end
               end
           end
  end.

(** Its [Display]. *)
Definition utf8_error_fmt (e : nat * option nat) : list byte :=
  match e with
  | (i, Some n) =>
      bs "invalid utf-8 sequence of " ++ dec (N.of_nat n) ++ bs " bytes from index " ++ dec (N.of_nat i)
  | (i, None) => bs "incomplete utf-8 byte sequence from index " ++ dec (N.of_nat i)
  end.

Definition all_ascii (l : list byte) : bool := forallb is_ascii l.

Lemma utf8_app_ascii a b : all_ascii a = true -> utf8_valid (a ++ b) = utf8_valid b.
Proof.
  induction a as [|x a IH]; simpl; [done|].
  intros [-> Ha]%andb_prop. by apply IH.
Qed.

Lemma utf8_all_ascii l : all_ascii l = true -> utf8_valid l = true.
Proof. intros H. rewrite <- (app_nil_r l). by rewrite utf8_app_ascii. Qed.

Lemma cont_not_ascii f b n c :
  utf8_lead b = Some (n, f) -> f c = true -> is_ascii c = false.
Proof.
  unfold utf8_lead, utf8_cont, in_range, is_ascii. intros H Hf.
  repeat case_match; simplify_eq; apply N.ltb_ge;
    apply andb_prop in Hf as [Hf%N.leb_le _]; lia.
Qed.

Lemma utf8_cont_not_ascii c : utf8_cont c = true -> is_ascii c = false.
Proof.
  unfold utf8_cont, in_range, is_ascii. intros [Hf%N.leb_le _]%andb_prop. apply N.ltb_ge. lia.
Qed.

(** A valid string splits at any ASCII byte into two valid halves. *)
Lemma utf8_split a x b :
  is_ascii x = true -> utf8_valid (a ++ x :: b) = true ->
  utf8_valid a = true /\ utf8_valid (x :: b) = true.
Proof.
  intros Hx. remember (length a) as n eqn:Hn. revert a Hn.
  induction n as [n IH] using lt_wf_ind. intros a ->.
  destruct a as [|y a]; [done|]. simpl. destruct (is_ascii y) eqn:Hy.
  { intros H. apply (IH (length a)) in H; [done| |done]. simpl. lia. }
  destruct (utf8_lead y) as [[k f]|] eqn:L; [|done].
  destruct k as [|[|[|[|k]]]]; try done.
  - destruct a as [|c1 a]; simpl.
    + intros [Hf _]%andb_prop. by rewrite (cont_not_ascii _ _ _ _ L Hf) in Hx.
    + intros [-> H]%andb_prop. apply (IH (length a)) in H; [done| |done]. simpl. lia.
  - destruct a as [|c1 [|c2 a]]; simpl.
    + destruct b; [done|]. intros [[Hf _]%andb_prop _]%andb_prop.
      by rewrite (cont_not_ascii _ _ _ _ L Hf) in Hx.
    + intros [[_ Hc]%andb_prop _]%andb_prop. by rewrite (utf8_cont_not_ascii _ Hc) in Hx.
    + intros [-> H]%andb_prop. apply (IH (length a)) in H; [done| |done]. simpl. lia.
  - destruct a as [|c1 [|c2 [|c3 a]]]; simpl.
    + destruct b as [|? [|? b]]; try done. intros [[[Hf _]%andb_prop _]%andb_prop _]%andb_prop.
      by rewrite (cont_not_ascii _ _ _ _ L Hf) in Hx.
    + destruct b; [done|]. intros [[[_ Hc]%andb_prop _]%andb_prop _]%andb_prop.
      by rewrite (utf8_cont_not_ascii _ Hc) in Hx.
    + intros [[_ Hc]%andb_prop _]%andb_prop. by rewrite (utf8_cont_not_ascii _ Hc) in Hx.
    + intros [-> H]%andb_prop. apply (IH (length a)) in H; [done| |done]. simpl. lia.
Qed.

(** Concatenation preserves validity. *)
Lemma utf8_app a b : utf8_valid a = true -> utf8_valid b = true -> utf8_valid (a ++ b) = true.
Proof.
  intros Ha Hb. revert Ha. remember (length a) as n eqn:Hn. revert a Hn.
  induction n as [n IH] using lt_wf_ind. intros a ->.
  destruct a as [|y a]; [done|]. simpl. destruct (is_ascii y) eqn:Hy.
  { intros H. apply (IH (length a)); [simpl; lia|done..]. }
  destruct (utf8_lead y) as [[k f]|] eqn:L; [|done].
  destruct k as [|[|[|[|k]]]]; try done.
  - destruct a as [|c1 a]; try done; simpl. intros [-> H]%andb_prop.
    apply (IH (length a)); [simpl; lia|done..].
  - destruct a as [|c1 [|c2 a]]; try done; simpl. intros [-> H]%andb_prop.
    apply (IH (length a)); [simpl; lia|done..].
  - destruct a as [|c1 [|c2 [|c3 a]]]; try done; simpl. intros [-> H]%andb_prop.
    apply (IH (length a)); [simpl; lia|done..].
Qed.

(** There is an error exactly where the bytes are not valid. *)
Lemma utf8_error_valid idx l : utf8_error idx l = None <-> utf8_valid l = true.
Proof.
  remember (length l) as n eqn:Hn. revert idx l Hn.
  induction n as [n IH] using lt_wf_ind. intros idx l ->.
  destruct l as [|b l]; [done|]. simpl. destruct (is_ascii b).
  { apply (IH (length l)); [simpl; lia|done]. }
  destruct (utf8_lead b) as [[k f]|] eqn:Hl; [|done].
  assert (Hk : k = 1 \/ k = 2 \/ k = 3) by (unfold utf8_lead in Hl; repeat case_match; naive_solver).
  destruct Hk as [->|[->| ->]].
  - destruct l as [|c1 l]; [done|]. destruct (f c1); [|done]. cbn [negb Nat.eqb andb].
    apply (IH (length l)); [simpl; lia|done].
  - destruct l as [|c1 l]; [done|]. destruct (f c1); cbn [negb Nat.eqb andb].
    2: { destruct l; done. }
    destruct l as [|c2 l]; [done|]. destruct (utf8_cont c2); [|done]. cbn [negb Nat.eqb andb].
    apply (IH (length l)); [simpl; lia|done].
  - destruct l as [|c1 l]; [done|]. destruct (f c1); cbn [negb Nat.eqb andb].
    2: { destruct l as [|? [|??]]; done. }
    destruct l as [|c2 l]; [done|]. destruct (utf8_cont c2); cbn [negb Nat.eqb andb].
    2: { destruct l; done. }
    destruct l as [|c3 l]; [done|]. destruct (utf8_cont c3); [|done]. cbn [negb Nat.eqb andb].
    apply (IH (length l)); [simpl; lia|done].
Qed.
