(* ===== verification/Splitter.v ===== *)
(** * String splitter

    [src/string/splitter.rs]: [Splitter], its [Range] and the encoding hint it
    carries.  Definitions follow the methods; the lemmas [rem_*] show that
    each is a cursor operation on the bytes that remain. *)

From S2P Require Import Prelude Strings Utf8.

(** What a splitter uses of the string type it is built on: the bytes, the
    UTF-8 knowledge [is_utf8_lazy] returns, and [is_secret]. *)
Record Str := mkStr { value : list byte; su8 : bool; ssecret : bool }.

(** A string about which nothing is cached. *)
Definition plain (l : list byte) : Str := mkStr l false false.

Inductive Encoding := Unknown | Utf8 | Ascii.

#[global] Instance Encoding_eq_dec : EqDecision Encoding.
Proof. solve_decision. Defined.

(** The derived order [Unknown < Utf8 < Ascii]. *)
Definition enc_rank (e : Encoding) : nat := match e with Unknown => 0 | Utf8 => 1 | Ascii => 2 end.

Record Range := mkRange { start : nat; end_ : nat; encoding : Encoding }.

(** ** [Range] *)

Definition range_len (r : Range) : nat := end_ r - start r.

Definition range_consume (r : Range) (count : nat) (e : bool) : Range * nat :=
  let count := Nat.min count (range_len r) in
  let r := if e then mkRange (start r) (start r + count) (encoding r)
           else mkRange (start r + count) (end_ r) (encoding r) in
  (mkRange (start r) (end_ r)
     (if (0 <? count) && bool_decide (encoding r = Utf8) then Unknown else encoding r),
   count).

Definition range_restore (r saved : Range) (s e : bool) : Range :=
  mkRange (if s then start saved else start r) (if e then end_ saved else end_ r)
    (if s && e then encoding saved else encoding r).

Definition constrain (r : Range) (slice : list byte) : list byte :=
  take (end_ r - start r) (drop (start r) slice).

(** ** [Splitter] *)

Record Splitter := mkSplitter { inner : Str; range : Range }.

Definition new (s : Str) : Splitter :=
  mkSplitter s (mkRange 0 (length (value s)) (if su8 s then Utf8 else Unknown)).

Definition with_start (s : Splitter) (n : nat) : Splitter :=
  mkSplitter (inner s) (mkRange n (end_ (range s)) (encoding (range s))).
Definition with_encoding (s : Splitter) (e : Encoding) : Splitter :=
  mkSplitter (inner s) (mkRange (start (range s)) (end_ (range s)) e).

Definition is_utf8_lazy (s : Splitter) : bool := enc_rank Utf8 <=? enc_rank (encoding (range s)).
Definition is_empty (s : Splitter) : bool := range_len (range s) =? 0.
Definition len (s : Splitter) : nat := range_len (range s).
Definition is_secret (s : Splitter) : bool := ssecret (inner s).

(** [save]: run [f] on the splitter and restore the saved indices when the
    guard is dropped. *)
Definition save {A} (st e : bool) (f : Splitter -> A * Splitter) (s : Splitter) : A * Splitter :=
  let saved := range s in
  let (a, s') := f s in
  (a, mkSplitter (inner s') (range_restore (range s') saved st e)).

Definition save_end {A} (f : Splitter -> A * Splitter) (s : Splitter) : A * Splitter :=
  save false true f s.

(** [View the slice]: the bytes that remain. *)
Definition as_slice (s : Splitter) : list byte := constrain (range s) (value (inner s)).

(** [check_encoding]: [Err] is a UTF-8 error. *)
Definition check_encoding_inner (accept : Encoding) (s : Splitter) : result () () * Splitter :=
  if enc_rank (encoding (range s)) <? enc_rank accept then
    let slice := constrain (range s) (value (inner s)) in
    match position (fun c => negb (is_ascii c)) slice with
    | Some idx =>
        if utf8_valid (drop idx slice) then (Ok (), with_encoding s Utf8) else (Err (), s)
    | None => (Ok (), with_encoding s Ascii)
    end
  else (Ok (), s).

Definition check_encoding (s : Splitter) : result () () * Splitter := check_encoding_inner Ascii s.

Definition peek_byte (s : Splitter) : option byte := head (as_slice s).

Definition next_byte (s : Splitter) : option byte * Splitter :=
  let retval := peek_byte s in
  match retval with
  | Some b =>
      let s := with_start s (start (range s) + 1) in
      (retval, if is_ascii b then s else with_encoding s Unknown)
  | None => (retval, s)
  end.

Definition rpeek_byte (s : Splitter) : option byte := last (as_slice s).

Definition rnext_byte (s : Splitter) : option byte * Splitter :=
  let retval := rpeek_byte s in
  match retval with
  | Some b =>
      let s := mkSplitter (inner s)
                 (mkRange (start (range s)) (end_ (range s) - 1) (encoding (range s))) in
      (retval, if is_ascii b then s else with_encoding s Unknown)
  | None => (retval, s)
  end.

Definition consume_invalid (U : BytesNewtype) (s : Splitter) : Splitter :=
  match position (fun c => negb (is_invalid U c)) (as_slice s) with
  | Some idx => with_start s (start (range s) + idx)
  | None => with_start s (end_ (range s))
  end.

Definition consume_whitespace (s : Splitter) : Splitter :=
  match position (fun c => negb (is_ascii_whitespace c)) (as_slice s) with
  | Some idx => with_start s (start (range s) + idx)
  | None => with_start s (end_ (range s))
  end.

Definition until_byte (f : byte -> bool) (s : Splitter) : Splitter :=
  match position f (as_slice s) with
  | Some idx => mkSplitter (inner s) (range_consume (range s) idx true).1
  | None => s
  end.

Definition until_byte_eq (b : byte) (s : Splitter) : Splitter :=
  match position (fun x => Byte.eqb x b) (as_slice s) with
  | Some idx =>
      mkSplitter (inner s)
        (mkRange (start (range s)) (start (range s) + idx)
           (if bool_decide (encoding (range s) = Utf8) && negb (is_ascii b) then Unknown
            else encoding (range s)))
  | None => s
  end.

Definition until_count (n : nat) (s : Splitter) : Splitter :=
  mkSplitter (inner s) (range_consume (range s) n true).1.

(** The [using_value] call every extraction ends with. *)
Definition using_value (s : Splitter) (slice : list byte) : Str :=
  mkStr slice (is_utf8_lazy s) (ssecret (inner s)).

Definition peek_rest (U : BytesNewtype) (s : Splitter) : result Str InvalidString :=
  match check_others U (as_slice s) with
  | Some e => Err e
  | None => Ok (using_value s (as_slice s))
  end.

Definition peek_string (U : BytesNewtype) (require_rest : bool) (s : Splitter)
    : result Str InvalidString :=
  let slice := as_slice s in
  let finish slice :=
    match check_others U slice with
    | Some e => Err e
    | None => Ok (using_value s slice)
    end in
  match position (is_invalid U) slice with
  | Some idx =>
      if negb require_rest then finish (take idx slice)
      else Err (ISByte (nth idx slice x00))
  | None => finish slice
  end.

(** Advance past an extracted string. *)
Definition advance (s : Splitter) (w : Str) : Splitter :=
  with_start s (start (range s) + length (value w)).

Definition rest (U : BytesNewtype) (s : Splitter) : result Str InvalidString * Splitter :=
  match peek_rest U s with
  | Ok w => (Ok w, advance s w)
  | Err e => (Err e, s)
  end.

Definition rest_or_default (U : BytesNewtype) (s : Splitter) : Str * Splitter :=
  let w := unwrap_or (peek_rest U s) (plain []) in (w, advance s w).

Definition string (U : BytesNewtype) (require_rest : bool) (s : Splitter)
    : result Str InvalidString * Splitter :=
  match peek_string U require_rest s with
  | Ok w => (Ok w, advance s w)
  | Err e => (Err e, s)
  end.

Definition string_or_default (U : BytesNewtype) (require_rest : bool) (s : Splitter)
    : Str * Splitter :=
  let w := unwrap_or (peek_string U require_rest s) (plain []) in (w, advance s w).

(** ** The splitter as a cursor *)

(** The indices of a splitter stay within its string. *)
Definition wf (s : Splitter) : Prop :=
  start (range s) <= end_ (range s) <= length (value (inner s)).

Lemma constrain_start r n slice :
  constrain (mkRange (start r + n) (end_ r) (encoding r)) slice = drop n (constrain r slice).
Proof.
  unfold constrain; simpl. rewrite skipn_firstn_comm, drop_drop. f_equal. lia.
Qed.

Lemma constrain_end r n slice :
  n <= length (constrain r slice) ->
  forall e, constrain (mkRange (start r) (start r + n) e) slice = take n (constrain r slice).
Proof.
  unfold constrain; simpl. rewrite length_take. intros H e. rewrite take_take. f_equal. lia.
Qed.

Lemma rem_start s n : as_slice (with_start s (start (range s) + n)) = drop n (as_slice s).
Proof. apply constrain_start. Qed.

Lemma rem_encoding s e : as_slice (with_encoding s e) = as_slice s.
Proof. done. Qed.

Lemma rem_end s : as_slice (with_start s (end_ (range s))) = [].
Proof. unfold as_slice, constrain; simpl. by rewrite Nat.sub_diag. Qed.

Lemma rem_new s : as_slice (new s) = value s.
Proof. unfold as_slice, constrain; simpl. rewrite Nat.sub_0_r. by rewrite take_ge. Qed.

Lemma length_rem s : wf s -> length (as_slice s) = len s.
Proof.
  unfold wf, len, range_len, as_slice, constrain. rewrite length_take, length_drop. lia.
Qed.

Lemma is_empty_rem s : wf s -> is_empty s = bool_decide (as_slice s = []).
Proof.
  intros H. unfold is_empty. fold (len s). rewrite <- length_rem by done.
  destruct (as_slice s); simpl; done.
Qed.

Lemma rem_next_byte s :
  (next_byte s).1 = head (as_slice s) /\ as_slice (next_byte s).2 = tail (as_slice s).
Proof.
  unfold next_byte, peek_byte. destruct (as_slice s) as [|b l] eqn:E; simpl; [by rewrite E|].
  split; [done|]. destruct (is_ascii b); rewrite ?rem_encoding, rem_start, E; done.
Qed.

Lemma rem_position s (f : byte -> bool) :
  as_slice (match position (fun c => negb (f c)) (as_slice s) with
            | Some idx => with_start s (start (range s) + idx)
            | None => with_start s (end_ (range s))
            end) = drop_while f (as_slice s).
Proof.
  pose proof (position_take_while f (fun c => negb (f c)) (as_slice s) (fun _ => eq_refl)) as H.
  destruct (position _ _) as [i|].
  - rewrite rem_start, H. apply drop_length_take_while.
  - rewrite rem_end. rewrite <- drop_length_take_while, <- H. by rewrite drop_ge.
Qed.

Lemma rem_consume_invalid U s :
  as_slice (consume_invalid U s) = drop_while (is_invalid U) (as_slice s).
Proof. apply rem_position. Qed.

Lemma rem_consume_whitespace s :
  as_slice (consume_whitespace s) = drop_while is_ascii_whitespace (as_slice s).
Proof. apply rem_position. Qed.

Lemma rem_until s (f : byte -> bool) idx e :
  position f (as_slice s) = Some idx ->
  as_slice (mkSplitter (inner s) (mkRange (start (range s)) (start (range s) + idx) e))
  = take_while (fun b => negb (f b)) (as_slice s).
Proof.
  intros P. pose proof (position_Some _ _ _ P) as (Hi & _).
  pose proof (position_take_while (fun b => negb (f b)) f (as_slice s)) as H.
  rewrite P in H. rewrite <- take_length_take_while, <- H by (intros x; by destruct (f x)).
  apply constrain_end. unfold as_slice in Hi. simpl. lia.
Qed.

Lemma rem_until_none s (f : byte -> bool) :
  position f (as_slice s) = None ->
  as_slice s = take_while (fun b => negb (f b)) (as_slice s).
Proof.
  intros P%position_None. symmetry. apply take_while_all.
  eapply Forall_impl; [exact P|]. simpl. intros b ->. done.
Qed.

Lemma rem_until_byte f s :
  as_slice (until_byte f s) = take_while (fun b => negb (f b)) (as_slice s).
Proof.
  unfold until_byte. destruct (position f (as_slice s)) as [i|] eqn:P.
  - unfold range_consume; simpl. pose proof (position_Some _ _ _ P) as (Hi & _).
    rewrite Nat.min_l; [by apply rem_until|].
    revert Hi. unfold as_slice, constrain, range_len. rewrite length_take. lia.
  - by apply rem_until_none.
Qed.

Lemma rem_until_byte_eq b s :
  as_slice (until_byte_eq b s) = take_while (fun x => negb (Byte.eqb x b)) (as_slice s).
Proof.
  unfold until_byte_eq. destruct (position _ (as_slice s)) as [i|] eqn:P.
  - by apply rem_until.
  - by apply rem_until_none.
Qed.

Lemma rem_until_count n s : as_slice (until_count n s) = take n (as_slice s).
Proof.
  unfold until_count, range_consume, as_slice, constrain; simpl.
  rewrite take_take. f_equal. unfold range_len. lia.
Qed.

(** The specification of [peek_string] on the remaining bytes. *)
Definition cursor_string (U : BytesNewtype) (require_rest : bool) (l : list byte)
    : result (list byte) InvalidString :=
  let w := take_while (fun b => negb (is_invalid U b)) l in
  match drop (length w) l with
  | b :: _ => if require_rest then Err (ISByte b)
              else match check_others U w with Some e => Err e | None => Ok w end
  | [] => match check_others U w with Some e => Err e | None => Ok w end
  end.

Lemma peek_string_cursor U req s :
  peek_string U req s =
  match cursor_string U req (as_slice s) with
  | Ok w => Ok (using_value s w)
  | Err e => Err e
  end.
Proof.
  unfold peek_string, cursor_string. set (l := as_slice s).
  assert (H := position_take_while (fun b => negb (is_invalid U b)) (is_invalid U) l
    (fun x => eq_sym (Bool.negb_involutive _))).
  rewrite <- (take_length_take_while (fun b => negb (is_invalid U b)) l), <- H.
  destruct (position (is_invalid U) l) as [i|] eqn:P.
  - pose proof (position_Some _ _ _ P) as (Hi & _ & b & Hb & _).
    rewrite length_take_le by lia. rewrite (drop_S _ _ _ Hb).
    destruct req; simpl.
    + do 2 f_equal. by apply nth_lookup_Some.
    + by destruct (check_others U (take i l)).
  - rewrite firstn_all, drop_all. by destruct (check_others U l).
Qed.

Lemma rem_advance s w : as_slice (advance s w) = drop (length (value w)) (as_slice s).
Proof. apply rem_start. Qed.

Lemma string_cursor U req s :
  (string U req s).1 = match cursor_string U req (as_slice s) with
                       | Ok w => Ok (using_value s w) | Err e => Err e end /\
  as_slice (string U req s).2 = match cursor_string U req (as_slice s) with
                                | Ok w => drop (length w) (as_slice s)
                                | Err _ => as_slice s end.
Proof.
  unfold string. rewrite peek_string_cursor.
  destruct (cursor_string U req (as_slice s)); simpl; [|done].
  split; [done|]. by apply rem_advance.
Qed.

Lemma string_or_default_cursor U req s :
  value (string_or_default U req s).1 = unwrap_or (cursor_string U req (as_slice s)) [] /\
  as_slice (string_or_default U req s).2
  = drop (length (unwrap_or (cursor_string U req (as_slice s)) [])) (as_slice s).
Proof.
  unfold string_or_default. rewrite peek_string_cursor.
  destruct (cursor_string U req (as_slice s)); simpl; (split; [done|]); by apply rem_advance.
Qed.

Lemma rest_cursor U s :
  (rest U s).1 = match check_others U (as_slice s) with
                 | Some e => Err e | None => Ok (using_value s (as_slice s)) end /\
  as_slice (rest U s).2 = match check_others U (as_slice s) with
                          | Some e => as_slice s | None => [] end.
Proof.
  unfold rest, peek_rest. destruct (check_others U (as_slice s)); simpl; [done|].
  split; [done|]. rewrite rem_advance; simpl. by rewrite drop_all.
Qed.

Lemma rest_or_default_cursor U s :
  check_others U = return_none ->
  value (rest_or_default U s).1 = as_slice s /\ as_slice (rest_or_default U s).2 = [].
Proof.
  intros HU. unfold rest_or_default, peek_rest. rewrite HU; simpl.
  split; [done|]. rewrite rem_advance; simpl. by rewrite drop_all.
Qed.

(** A string extracted for [U] is valid for [U]. *)
Lemma cursor_string_valid U req l w : cursor_string U req l = Ok w -> valid U w.
Proof.
  intros H. apply valid_iff. revert H. unfold cursor_string.
  set (v := take_while _ l).
  assert (Hv : Forall (fun b => is_invalid U b = false) v).
  { eapply Forall_impl; [apply take_while_Forall|]. simpl. intros b. by destruct (is_invalid U b). }
  destruct (drop (length v) l), req; try done; destruct (check_others U v) eqn:E; naive_solver.
Qed.

(** ** Soundness of the encoding hint *)

(** The hint never claims more than the remaining bytes satisfy. *)
Definition enc_sound (s : Splitter) : Prop :=
  match encoding (range s) with
  | Unknown => True
  | Utf8 => utf8_valid (as_slice s) = true
  | Ascii => all_ascii (as_slice s) = true
  end.

(** The operations a caller can perform on a splitter, save guards aside. *)
Inductive Op :=
| OCheckEncoding
| ONextByte
| ORNextByte
| OConsumeInvalid (U : BytesNewtype)
| OConsumeWhitespace
| OUntilByte (f : byte -> bool)
| OUntilByteEq (b : byte)
| OUntilCount (n : nat)
| ORest (U : BytesNewtype)
| ORestOrDefault (U : BytesNewtype)
| OString (U : BytesNewtype) (req : bool)
| OStringOrDefault (U : BytesNewtype) (req : bool).

Definition run_op (o : Op) (s : Splitter) : Splitter :=
  match o with
  | OCheckEncoding => (check_encoding s).2
  | ONextByte => (next_byte s).2
  | ORNextByte => (rnext_byte s).2
  | OConsumeInvalid U => consume_invalid U s
  | OConsumeWhitespace => consume_whitespace s
  | OUntilByte f => until_byte f s
  | OUntilByteEq b => until_byte_eq b s
  | OUntilCount n => until_count n s
  | ORest U => (rest U s).2
  | ORestOrDefault U => (rest_or_default U s).2
  | OString U req => (string U req s).2
  | OStringOrDefault U req => (string_or_default U req s).2
  end.

(** The newtypes an operation is used at satisfy the trait's safety contract. *)
Definition op_ok (o : Op) : Prop :=
  match o with
  | OConsumeInvalid U | OString U _ | OStringOrDefault U _ => BytesNewtypeOk U
  | _ => True
  end.

Lemma all_ascii_app a b : all_ascii (a ++ b) = all_ascii a && all_ascii b.
Proof. apply forallb_app. Qed.

Lemma all_ascii_drop n l : all_ascii l = true -> all_ascii (drop n l) = true.
Proof. rewrite <- (take_drop n l) at 1. rewrite all_ascii_app. by intros [_ H]%andb_prop. Qed.

Lemma all_ascii_take n l : all_ascii l = true -> all_ascii (take n l) = true.
Proof. rewrite <- (take_drop n l) at 1. rewrite all_ascii_app. by intros [H _]%andb_prop. Qed.

(** Dropping an ASCII prefix, or everything up to an ASCII byte, keeps
    validity. *)
Lemma utf8_drop_while (f : byte -> bool) l :
  (forall b, f b = true -> is_ascii b = true) \/ (forall b, f b = false -> is_ascii b = true) ->
  utf8_valid l = true -> utf8_valid (drop_while f l) = true /\ utf8_valid (take_while f l) = true.
Proof.
  intros Hf Hl. rewrite <- (take_drop_while f l) in Hl. destruct Hf as [Hf|Hf].
  - assert (Ha : all_ascii (take_while f l) = true).
    { apply Forall_forallb. eapply Forall_impl; [apply take_while_Forall|]. simpl. auto. }
    rewrite utf8_app_ascii in Hl by done. split; [done|]. by apply utf8_all_ascii.
  - destruct (drop_while f l) as [|x r] eqn:E.
    + rewrite app_nil_r in Hl. done.
    + apply drop_while_head in E. apply utf8_split in Hl as [? ?]; auto.
Qed.

Lemma enc_sound_intro s e :
  (e = Unknown -> True) ->
  (e = Utf8 -> utf8_valid (as_slice s) = true) ->
  (e = Ascii -> all_ascii (as_slice s) = true) ->
  enc_sound (with_encoding s e).
Proof. unfold enc_sound; simpl. destruct e; auto. Qed.

Lemma enc_sound_drop s (f : byte -> bool) s' :
  (forall b, f b = true -> is_ascii b = true) \/ (forall b, f b = false -> is_ascii b = true) ->
  encoding (range s') = encoding (range s) -> as_slice s' = drop_while f (as_slice s) ->
  enc_sound s -> enc_sound s'.
Proof.
  unfold enc_sound. intros Hf -> ->. destruct (encoding (range s)); [done|..].
  - intros H. by apply utf8_drop_while.
  - rewrite <- drop_length_take_while. apply all_ascii_drop.
Qed.

Lemma length_rem_le s : length (as_slice s) <= end_ (range s) - start (range s).
Proof. unfold as_slice, constrain. rewrite length_take. lia. Qed.

Lemma cursor_string_take_while U req l w :
  cursor_string U req l = Ok w -> w = take_while (fun b => negb (is_invalid U b)) l.
Proof.
  unfold cursor_string. set (v := take_while _ l).
  destruct (drop (length v) l), req; try done; destruct (check_others U v); congruence.
Qed.

Lemma cursor_string_false U l :
  cursor_string U false l =
  let w := take_while (fun b => negb (is_invalid U b)) l in
  match check_others U w with Some e => Err e | None => Ok w end.
Proof.
  unfold cursor_string. by destruct (drop _ l).
Qed.

Lemma cursor_string_colon U l :
  check_others U = arg_first_check -> is_invalid U ":" = false ->
  cursor_string U false (":"%byte :: l) = Err ISColon.
Proof. intros HU Hc. rewrite cursor_string_false. cbn [take_while]. by rewrite Hc, HU. Qed.

Lemma length_cursor_string U req l w : cursor_string U req l = Ok w -> length w <= length l.
Proof. intros ->%cursor_string_take_while. apply length_take_while. Qed.

Lemma wf_advance s w : wf s -> length (value w) <= length (as_slice s) -> wf (advance s w).
Proof. pose proof (length_rem_le s). unfold wf, advance; simpl. lia. Qed.

Lemma wf_run_op o s : wf s -> wf (run_op o s).
Proof.
  intros Hs. pose proof (length_rem_le s) as HL.
  assert (Hpos : forall (f : byte -> bool) i, position f (as_slice s) = Some i ->
                 i < end_ (range s) - start (range s)).
  { intros f i P. apply position_Some in P as [? _]. lia. }
  destruct o; simpl.
  - unfold check_encoding, check_encoding_inner. repeat case_match; done.
  - unfold next_byte, peek_byte. destruct (as_slice s) as [|b l]; simpl; [done|].
    simpl in HL. unfold wf in *. destruct (is_ascii b); simpl; lia.
  - unfold rnext_byte, rpeek_byte. destruct (as_slice s) as [|b l]; [done|].
    destruct (last (b :: l)) as [x|] eqn:E; [|done]. simpl in HL. unfold wf in *.
    destruct (is_ascii x); simpl; lia.
  - unfold consume_invalid. destruct (position _ _) eqn:P; [apply Hpos in P|];
      unfold wf in *; simpl; lia.
  - unfold consume_whitespace. destruct (position _ _) eqn:P; [apply Hpos in P|];
      unfold wf in *; simpl; lia.
  - unfold until_byte. destruct (position _ _) eqn:P; [apply Hpos in P|];
      unfold wf, range_consume, range_len in *; simpl; lia.
  - unfold until_byte_eq. destruct (position _ _) eqn:P; [apply Hpos in P|];
      unfold wf in *; simpl; lia.
  - unfold wf, until_count, range_consume, range_len in *; simpl; lia.
  - unfold rest, peek_rest. destruct (check_others U (as_slice s)); simpl; [done|].
    by apply wf_advance.
  - unfold rest_or_default, peek_rest. apply wf_advance; [done|].
    destruct (check_others U (as_slice s)); simpl; lia.
  - unfold string. rewrite peek_string_cursor.
    destruct (cursor_string U req (as_slice s)) eqn:E; simpl; [|done].
    apply wf_advance; [done|]. by eapply length_cursor_string.
  - unfold string_or_default. rewrite peek_string_cursor. apply wf_advance; [done|].
    destruct (cursor_string U req (as_slice s)) eqn:E; simpl; [|lia].
    by eapply length_cursor_string.
Qed.

Lemma enc_sound_string U req s s' :
  BytesNewtypeOk U -> encoding (range s') = encoding (range s) ->
  as_slice s' = drop (length (unwrap_or (cursor_string U req (as_slice s)) [])) (as_slice s) ->
  enc_sound s -> enc_sound s'.
Proof.
  intros HU He Hr. destruct (cursor_string U req (as_slice s)) eqn:E; simpl in Hr.
  - apply cursor_string_take_while in E as ->. rewrite drop_length_take_while in Hr.
    revert He Hr. apply enc_sound_drop.
    destruct HU as [HU|HU]; [right|left]; intros b; specialize (HU b);
      destruct (is_ascii b), (is_invalid U b); naive_solver.
  - unfold enc_sound. rewrite He, Hr, drop_0. done.
Qed.

Lemma enc_sound_until_count n s : enc_sound s -> enc_sound (until_count n s).
Proof.
  intros Hs. unfold enc_sound. rewrite rem_until_count.
  unfold until_count, range_consume; simpl. unfold enc_sound in Hs.
  destruct (Nat.ltb_spec 0 (Nat.min n (range_len (range s)))) as [Hn|Hn]; simpl.
  - destruct (encoding (range s)); simpl; try done. by apply all_ascii_take.
  - replace (take n _) with (@nil byte); [by destruct (encoding (range s))|].
    symmetry. apply nil_length_inv. rewrite length_take.
    pose proof (length_rem_le s) as HL. unfold range_len in Hn. lia.
Qed.

Lemma enc_sound_check s : enc_sound s -> enc_sound (check_encoding s).2.
Proof.
  intros Hs. unfold check_encoding, check_encoding_inner. case_match; [|done].
  fold (as_slice s). set (l := as_slice s).
  destruct (position (fun c => negb (is_ascii c)) l) as [i|] eqn:P.
  - destruct (utf8_valid (drop i l)) eqn:Hv; [|done]. simpl.
    apply position_Some in P as (_ & Ha & _).
    unfold enc_sound; simpl. rewrite rem_encoding. fold l. rewrite <- (take_drop i l).
    rewrite utf8_app_ascii; [done|]. apply Forall_forallb.
    eapply Forall_impl; [exact Ha|]. simpl. intros b. by destruct (is_ascii b).
  - apply position_None in P. unfold enc_sound; simpl. rewrite rem_encoding. fold l.
    apply Forall_forallb. eapply Forall_impl; [exact P|]. simpl. intros b. by destruct (is_ascii b).
Qed.

Lemma rem_rnext_byte s :
  wf s -> as_slice (rnext_byte s).2 = take (length (as_slice s) - 1) (as_slice s).
Proof.
  intros Hs. unfold rnext_byte, rpeek_byte.
  destruct (last (as_slice s)) as [b|] eqn:E.
  - assert (Hl : as_slice s <> []) by (intros H; by rewrite H in E).
    rewrite length_rem by done.
    assert (Hg : as_slice (mkSplitter (inner s) (mkRange (start (range s))
      (end_ (range s) - 1) (encoding (range s)))) = take (len s - 1) (as_slice s)).
    { unfold as_slice, constrain, len, range_len; simpl. rewrite take_take. f_equal. lia. }
    destruct (is_ascii b); simpl; exact Hg.
  - apply last_None in E. simpl. by rewrite E.
Qed.

Lemma enc_sound_next_byte s : enc_sound s -> enc_sound (next_byte s).2.
Proof.
  intros Hs. destruct (rem_next_byte s) as [_ Hr]. revert Hr. unfold next_byte, peek_byte.
  destruct (as_slice s) as [|b l] eqn:E; simpl; [done|].
  destruct (is_ascii b) eqn:Hb; [|done]. intros Hr.
  unfold enc_sound in *. rewrite Hr. simpl. rewrite E in Hs.
  destruct (encoding (range s)); simpl in Hs; rewrite ?Hb in Hs; done.
Qed.

Lemma enc_sound_rnext_byte s : wf s -> enc_sound s -> enc_sound (rnext_byte s).2.
Proof.
  intros Hw Hs. pose proof (rem_rnext_byte s Hw) as Hr. revert Hr. unfold rnext_byte, rpeek_byte.
  destruct (last (as_slice s)) as [b|] eqn:E; [|done].
  destruct (is_ascii b) eqn:Hb; [|done]. intros Hr. simpl in Hr |- *.
  apply last_Some in E as [l E]. unfold enc_sound in *. rewrite Hr; simpl. rewrite E in *.
  rewrite length_app, Nat.add_sub, take_app_length.
  destruct (encoding (range s)); [done|by apply utf8_split in Hs as [? _]|].
  rewrite all_ascii_app in Hs. by apply andb_prop in Hs as [? _].
Qed.

Lemma enc_sound_until_byte_eq b s : enc_sound s -> enc_sound (until_byte_eq b s).
Proof.
  intros Hs. pose proof (rem_until_byte_eq b s) as Hr. revert Hr. unfold until_byte_eq.
  destruct (position _ _); [|done]. intros Hr. unfold enc_sound in *. rewrite Hr. simpl.
  destruct (encoding (range s)); simpl; [done| |].
  - destruct (is_ascii b) eqn:Hb; simpl; [|done]. apply utf8_drop_while; [|done].
    right. intros x Hx. destruct (byte_eqb_spec x b); naive_solver.
  - rewrite <- take_length_take_while. by apply all_ascii_take.
Qed.

Lemma enc_sound_run_op o s : wf s -> op_ok o -> enc_sound s -> enc_sound (run_op o s).
Proof.
  intros Hw Ho Hs. destruct o; simpl in *.
  - by apply enc_sound_check.
  - by apply enc_sound_next_byte.
  - by apply enc_sound_rnext_byte.
  - eapply (enc_sound_drop s (is_invalid U)); [| |by apply rem_consume_invalid|done].
    + destruct Ho as [HU|HU]; [left|right]; intros b; specialize (HU b);
        destruct (is_ascii b), (is_invalid U b); naive_solver.
    + unfold consume_invalid. by destruct (position _ _).
  - eapply (enc_sound_drop s is_ascii_whitespace);
      [left; intros b; by byte_cases b| |by apply rem_consume_whitespace|done].
    unfold consume_whitespace. by destruct (position _ _).
  - unfold until_byte. destruct (position _ _) as [i|]; [by apply (enc_sound_until_count i)|done].
  - by apply enc_sound_until_byte_eq.
  - by apply enc_sound_until_count.
  - pose proof (proj2 (rest_cursor U s)) as Hr. revert Hr. unfold rest, peek_rest.
    destruct (check_others U (as_slice s)); simpl; [done|]. intros Hr.
    unfold enc_sound. rewrite Hr. simpl. by destruct (encoding (range s)).
  - unfold rest_or_default, peek_rest. unfold enc_sound in *. rewrite rem_advance. simpl.
    destruct (check_others U (as_slice s)); simpl; [done|].
    rewrite drop_all. by destruct (encoding (range s)).
  - apply (enc_sound_string U req s); [done| | |done].
    + unfold string. by destruct (peek_string U req s).
    + rewrite (proj2 (string_cursor U req s)). by destruct (cursor_string U req (as_slice s)).
  - apply (enc_sound_string U req s); [done|done| |done].
    apply (proj2 (string_or_default_cursor U req s)).
Qed.

(** ** Guarded operations as cursor operations *)

(** What runs under a [save_end] guard only moves the start. *)
Lemma save_end_spec {A} (f : Splitter -> A * Splitter) s n :
  wf s -> n <= length (as_slice s) ->
  inner (f s).2 = inner s -> start (range (f s).2) = start (range s) + n ->
  (save_end f s).1 = (f s).1 /\ as_slice (save_end f s).2 = drop n (as_slice s) /\
  wf (save_end f s).2.
Proof.
  intros Hw Hn Hi Hst. unfold save_end, save. destruct (f s) as [a s'] eqn:E; simpl in *.
  split; [done|]. pose proof (length_rem_le s) as HL. unfold wf in *.
  split; [|simpl; rewrite ?Hi, Hst; lia].
  unfold as_slice at 1, constrain; simpl. rewrite Hi, Hst.
  exact (constrain_start (mkRange (start (range s)) (end_ (range s)) (encoding (range s))) n _).
Qed.

Lemma until_byte_eq_inner b s :
  inner (until_byte_eq b s) = inner s /\ start (range (until_byte_eq b s)) = start (range s).
Proof. unfold until_byte_eq. by destruct (position _ _). Qed.

Lemma until_count_inner n s :
  inner (until_count n s) = inner s /\ start (range (until_count n s)) = start (range s).
Proof. done. Qed.

Lemma save_end_rest U b s :
  wf s -> check_others U = return_none ->
  let w := take_while (fun x => negb (Byte.eqb x b)) (as_slice s) in
  let r := save_end (fun s => rest U (until_byte_eq b s)) s in
  (exists v, r.1 = Ok v /\ value v = w) /\
  as_slice r.2 = drop_while (fun x => negb (Byte.eqb x b)) (as_slice s) /\ wf r.2.
Proof.
  intros Hw HU w r. destruct (until_byte_eq_inner b s) as [Hi Hst].
  pose proof (rem_until_byte_eq b s) as Hr. fold w in Hr.
  assert (Hf : rest U (until_byte_eq b s) =
    (Ok (using_value (until_byte_eq b s) w), advance (until_byte_eq b s) (using_value (until_byte_eq b s) w))).
  { unfold rest, peek_rest. by rewrite HU, Hr. }
  destruct (save_end_spec (fun s => rest U (until_byte_eq b s)) s (length w)) as (H1 & H2 & H3).
  - done.
  - apply length_take_while.
  - by rewrite Hf.
  - rewrite Hf; simpl. by rewrite Hst.
  - fold r in H1, H2, H3. rewrite Hf in H1. split; [by eexists|]. split; [|done].
    rewrite H2. apply drop_length_take_while.
Qed.

Lemma save_end_string U req (narrow : Splitter -> Splitter) s :
  wf s -> inner (narrow s) = inner s -> start (range (narrow s)) = start (range s) ->
  length (as_slice (narrow s)) <= length (as_slice s) ->
  let r := save_end (fun s => string U req (narrow s)) s in
  match cursor_string U req (as_slice (narrow s)) with
  | Ok w => exists v, r.1 = Ok v /\ value v = w /\ as_slice r.2 = drop (length w) (as_slice s)
  | Err e => r.1 = Err e /\ as_slice r.2 = as_slice s
  end /\ wf r.2.
Proof.
  intros Hw Hi Hst Hl r.
  destruct (string_cursor U req (narrow s)) as [H1 _].
  assert (Hs2 : inner (string U req (narrow s)).2 = inner s).
  { unfold string. by destruct (peek_string U req (narrow s)). }
  assert (Hs3 : start (range (string U req (narrow s)).2) = start (range s) +
    match cursor_string U req (as_slice (narrow s)) with Ok w => length w | Err _ => 0 end).
  { unfold string. rewrite peek_string_cursor.
    destruct (cursor_string U req (as_slice (narrow s))); simpl; lia. }
  destruct (cursor_string U req (as_slice (narrow s))) as [w|e] eqn:E.
  - destruct (save_end_spec (fun s => string U req (narrow s)) s (length w)) as (G1 & G2 & G3);
      [done| |done|done|].
    { apply length_cursor_string in E. lia. }
    split; [|done]. rewrite H1 in G1. eexists. split; [exact G1|]. split; [done|exact G2].
  - destruct (save_end_spec (fun s => string U req (narrow s)) s 0) as (G1 & G2 & G3);
      [done|lia|done|done|].
    split; [|done]. rewrite H1 in G1. split; [exact G1|]. by rewrite drop_0 in G2.
Qed.

Lemma wf_new s : wf (new s).
Proof. unfold wf; simpl. lia. Qed.

Lemma wf_next_byte s : wf s -> wf (next_byte s).2.
Proof. apply (wf_run_op ONextByte). Qed.
Lemma wf_consume_invalid U s : wf s -> wf (consume_invalid U s).
Proof. apply (wf_run_op (OConsumeInvalid U)). Qed.
Lemma wf_consume_whitespace s : wf s -> wf (consume_whitespace s).
Proof. apply (wf_run_op OConsumeWhitespace). Qed.
Lemma wf_string U req s : wf s -> wf (string U req s).2.
Proof. apply (wf_run_op (OString U req)). Qed.
Lemma wf_string_or_default U req s : wf s -> wf (string_or_default U req s).2.
Proof. apply (wf_run_op (OStringOrDefault U req)). Qed.

#[export] Hint Resolve wf_new wf_next_byte wf_consume_invalid wf_consume_whitespace
  wf_string wf_string_or_default : vz.

(** ** Theorems *)

(** The splitter reached from a fresh one by a sequence of operations. *)
Definition run (ops : list Op) (s : Str) : Splitter := foldl (fun s o => run_op o s) (new s) ops.

Lemma run_sound ops s :
  (su8 s = true -> utf8_valid (value s) = true) -> Forall op_ok ops ->
  wf (run ops s) /\ enc_sound (run ops s).
Proof.
  intros Hu Hops. unfold run.
  assert (H : wf (new s) /\ enc_sound (new s)).
  { split; [unfold wf; simpl; lia|]. unfold enc_sound. rewrite rem_new. simpl.
    by destruct (su8 s); auto. }
  revert H. generalize (new s). induction Hops as [|o ops Ho _ IH]; intros sp [Hw He]; [done|].
  apply IH. split; [by apply wf_run_op|by apply enc_sound_run_op].
Qed.

(** What is extracted where the hint is right. *)
Lemma string_sound U req s w : enc_sound s -> BytesNewtypeOk U -> (string U req s).1 = Ok w ->
  valid U (value w) /\ ssecret w = ssecret (inner s) /\ (su8 w = true -> utf8_valid (value w) = true).
Proof.
  intros He HU Hw. rewrite (proj1 (string_cursor U req _)) in Hw.
  destruct (cursor_string U req _) as [v|] eqn:E; [|done]. injection Hw as <-. simpl.
  split; [by eapply cursor_string_valid|]. split; [done|]. intros Hz.
  apply cursor_string_take_while in E as ->. unfold is_utf8_lazy in Hz.
  unfold enc_sound in He. destruct (encoding (range s)); [done| |].
  - apply utf8_drop_while; [|done].
    destruct HU as [HU|HU]; [right|left]; intros b; specialize (HU b);
      destruct (is_ascii b), (is_invalid U b); naive_solver.
  - apply utf8_all_ascii. rewrite <- take_length_take_while. by apply all_ascii_take.
Qed.

(** C10: whatever sequence of operations is run on a splitter made from a
    string whose UTF-8 flag is right, a string it then extracts is valid for
    the requested newtype, keeps the secrecy of the source, and is flagged as
    UTF-8 only if it is UTF-8, so the unchecked [str] conversion is never
    applied to an invalid string. *)
Theorem splitter_sound ops s U req w :
  (su8 s = true -> utf8_valid (value s) = true) -> Forall op_ok ops -> BytesNewtypeOk U ->
  (string U req (run ops s)).1 = Ok w ->
  valid U (value w) /\ ssecret w = ssecret (inner (run ops s)) /\
  (su8 w = true -> utf8_valid (value w) = true).
Proof. intros Hu Hops HU Hw. destruct (run_sound ops s Hu Hops) as [_ He]. by eapply string_sound. Qed.

Lemma splitter_sound_witness :
  valid Word (bs "foo") /\
  (string Word false (run [ONextByte; OConsumeWhitespace] (mkStr (bs "x foo bar") true true))).1
  = Ok (mkStr (bs "foo") true true).
Proof.
  assert (H : (string Word false
    (run [ONextByte; OConsumeWhitespace] (mkStr (bs "x foo bar") true true))).1
    = Ok (mkStr (bs "foo") true true)) by reflexivity.
  split; [|exact H].
  refine (proj1 (splitter_sound [ONextByte; OConsumeWhitespace] (mkStr (bs "x foo bar") true true)
    Word false _ (fun _ => eq_refl) _ Word_ok H)).
  repeat constructor.
Defined.

(** Extracting a string takes the longest prefix of allowed bytes; with
    [require_rest] the first disallowed byte is an error, and on any error
    nothing is consumed. *)
Theorem string_refines_cursor U req s :
  let l := as_slice s in
  let w := take_while (fun b => negb (is_invalid U b)) l in
  match (string U req s).1 with
  | Ok v => value v = w /\ valid U w /\ as_slice (string U req s).2 = drop (length w) l /\
            (req = true -> w = l)
  | Err e => as_slice (string U req s).2 = l /\
             (check_others U w = Some e \/ exists b r, req = true /\ l = w ++ b :: r /\ e = ISByte b)
  end.
Proof.
  intros l w. destruct (string_cursor U req s) as [-> ->]. fold l.
  destruct (cursor_string U req l) as [v|e] eqn:E.
  - pose proof (cursor_string_take_while _ _ _ _ E) as ->. fold w in E |- *.
    split; [done|]. split; [by eapply cursor_string_valid|]. split; [done|]. intros ->.
    unfold cursor_string in E. fold w in E.
    destruct (drop (length w) l) eqn:D; [|done].
    rewrite <- (take_drop (length w) l), D, app_nil_r. subst w. by rewrite take_length_take_while.
  - split; [done|]. unfold cursor_string in E. fold w in E.
    destruct (drop (length w) l) as [|b r] eqn:D.
    + left. by destruct (check_others U w); naive_solver.
    + destruct req; [|left; by destruct (check_others U w); naive_solver].
      injection E as <-. right. exists b, r. split; [done|]. split; [|done].
      rewrite <- D. unfold w. rewrite drop_length_take_while. symmetry. apply take_drop_while.
Qed.

(** The unsound path: [check_encoding] through a [save_end] guard. *)
Definition check_under_guard (n : nat) (s : Splitter) : Splitter :=
  (save_end (fun s => check_encoding (until_count n s)) s).2.

(** A guard from [save_end] restores the end index but not the encoding,
    so checking the encoding of a truncated prefix leaves the whole string
    flagged as UTF-8: a splitter over [abc\xff] ends up claiming, and handing
    out, a "valid" UTF-8 string that is not. *)
Theorem save_end_check_encoding_unsound :
  let s := check_under_guard 3 (new (plain (bs "abc" ++ [xff]))) in
  is_utf8_lazy s = true /\ as_slice s = bs "abc" ++ [xff] /\ utf8_valid (as_slice s) = false /\
  exists w, (rest Line s).1 = Ok w /\ su8 w = true /\ utf8_valid (value w) = false.
Proof. split; [done|]. split; [done|]. split; [done|]. by eexists. Qed.
