(* ===== verification/Guards.v ===== *)
(** * Guards of a splitter

    [SavedIndices] of [src/string/splitter.rs] as the values they are: guards
    may be nested, are dropped innermost first, and whatever is done in between
    is done to the one splitter they refer to.  [Splitter.save] is the special
    case of one guard around a function.  Splitters and guards are iterators as
    well. *)

From S2P Require Import Prelude Strings Utf8 Splitter.

(** [SavedIndices]; the splitter it refers to is that of the state. *)
Record SavedIndices := mkSaved { saved_range : Range; preserve : bool * bool }.

(** A splitter and the guards that borrow it, innermost first. *)
Record Guarded := mkGuarded { target : Splitter; guards : list SavedIndices }.

Definition deref (g : Guarded) : Splitter := target g.
Definition deref_mut (f : Splitter -> Splitter) (g : Guarded) : Guarded := mkGuarded (f (target g)) (guards g).

Definition save (st e : bool) (g : Guarded) : Guarded :=
  mkGuarded (target g) (mkSaved (range (target g)) (st, e) :: guards g).

(** [Drop] of the innermost guard. *)
Definition restored (i : SavedIndices) (s : Splitter) : Splitter :=
  mkSplitter (inner s) (range_restore (range s) (saved_range i) (preserve i).1 (preserve i).2).
Definition drop_guard (g : Guarded) : Guarded :=
  match guards g with
  | [] => g
  | i :: l => mkGuarded (restored i (target g)) l
  end.

(** [AsRef] is the whole string, whatever was consumed. *)
Definition as_ref (s : Splitter) : list byte := value (inner s).
Definition guard_as_ref (g : Guarded) : list byte := as_ref (deref g).

Definition as_slice_unsafe (s : Splitter) : list byte := constrain (range s) (value (inner s)).

(** [Iterator]. *)
Definition next (s : Splitter) : option byte * Splitter := next_byte s.
Definition guard_next (g : Guarded) : option byte * Guarded :=
  let (b, s) := next_byte (deref g) in (b, deref_mut (fun _ => s) g).

Fixpoint collect {S} (next : S -> option byte * S) (fuel : nat) (s : S) : option (list byte * S) :=
  match fuel with
  | 0 => None
  | S fuel =>
      match next s with
      | (None, s) => Some ([], s)
      | (Some b, s) => match collect next fuel s with Some (l, s) => Some (b :: l, s) | None => None end
      end
  end.

(** ** Programs *)

Inductive Act := Do (o : Op) | Save (st e : bool) | Drop.

Definition act (a : Act) (g : Guarded) : Guarded :=
  match a with Do o => deref_mut (run_op o) g | Save st e => save st e g | Drop => drop_guard g end.

Definition both (i : SavedIndices) : bool := (preserve i).1 && (preserve i).2.

(** [check_encoding] is only called where the innermost guard, if any, restores
    both ends. *)
Definition careful (a : Act) (g : Guarded) : Prop :=
  match a with
  | Do OCheckEncoding => forall i, head (guards g) = Some i -> both i = true
  | Do o => op_ok o
  | _ => True
  end.

Fixpoint all_careful (l : list Act) (g : Guarded) : Prop :=
  match l with [] => True | a :: l => careful a g /\ all_careful l (act a g) end.

Definition acts (l : list Act) (g : Guarded) : Guarded := foldl (fun g a => act a g) g l.

(** ** What guards rely on *)

Definition ok (e : Encoding) (l : list byte) : Prop :=
  match e with Unknown => True | Utf8 => utf8_valid l = true | Ascii => all_ascii l = true end.

Definition part (s : Splitter) (a b : nat) : list byte := take (b - a) (drop a (value (inner s))).

(** [s'] is the same string cut at one or both ends, and what the hint says is
    also true of what was cut off. *)
Record narrows (s s' : Splitter) : Prop := mkNarrows {
  n_inner : inner s' = inner s;
  n_start : start (range s) <= start (range s');
  n_range : start (range s') <= end_ (range s');
  n_end : end_ (range s') <= end_ (range s);
  n_hint : encoding (range s') = Unknown \/ encoding (range s') = encoding (range s);
  n_left : ok (encoding (range s')) (part s (start (range s)) (start (range s')));
  n_mid : ok (encoding (range s')) (part s (start (range s')) (end_ (range s')));
  n_right : ok (encoding (range s')) (part s (end_ (range s')) (end_ (range s)));
}.

Lemma ok_nil e : ok e [].
Proof. by destruct e. Qed.

Lemma ok_app e a b : ok e a -> ok e b -> ok e (a ++ b).
Proof. destruct e; cbn; [done|apply utf8_app|]. intros Ha Hb. by rewrite all_ascii_app, Ha, Hb. Qed.

Lemma part_app s a b c : a <= b -> b <= c -> part s a c = part s a b ++ part s b c.
Proof.
  intros Hab Hbc. unfold part. rewrite <- (take_drop (b - a) (take (c - a) _)). rewrite take_take, Nat.min_l by lia. f_equal.
  rewrite skipn_firstn_comm, drop_drop. f_equal; [lia|f_equal; lia].
Qed.

Lemma part_nil s a : part s a a = [].
Proof. unfold part. by rewrite Nat.sub_diag. Qed.

Lemma part_inner s s' a b : inner s = inner s' -> part s a b = part s' a b.
Proof. unfold part. by intros ->. Qed.

Lemma enc_sound_ok s : enc_sound s <-> ok (encoding (range s)) (part s (start (range s)) (end_ (range s))).
Proof. done. Qed.

Lemma narrows_sound s s' : wf s -> narrows s s' -> wf s' /\ enc_sound s'.
Proof.
  intros Hw []. split; [unfold wf in *; rewrite n_inner0; lia|]. apply enc_sound_ok. by rewrite (part_inner s' s).
Qed.

Lemma narrows_refl s : wf s -> enc_sound s -> narrows s s.
Proof. intros [Hw _] He. constructor; rewrite ?part_nil; auto using ok_nil. Qed.

Lemma ok_weaken e e' l : e' = Unknown \/ e' = e -> ok e l -> ok e' l.
Proof. by intros [->| ->]. Qed.

Lemma narrows_trans s1 s2 s3 : narrows s1 s2 -> narrows s2 s3 -> narrows s1 s3.
Proof.
  intros [I1 S1 R1 E1 H1 L1 M1 G1] [I2 S2 R2 E2 H2 L2 M2 G2].
  rewrite (part_inner s2 s1) in L2, M2, G2 by done. constructor; try congruence; try lia; try done.
  - destruct H1 as [H1|H1], H2 as [H2|H2]; rewrite ?H1 in *; rewrite ?H2; auto.
  - rewrite (part_app _ _ (start (range s2))) by lia. apply ok_app; [by eapply ok_weaken|done].
  - rewrite (part_app _ _ (end_ (range s2))) by lia. apply ok_app; [done|by eapply ok_weaken].
Qed.

(** Restoring one end, or none, of what was narrowed. *)
Lemma narrows_restore s s' st e : st && e = false -> narrows s s' ->
  narrows s (mkSplitter (inner s') (range_restore (range s') (range s) st e)).
Proof.
  intros Hse [I S R E H L M G]. unfold range_restore. rewrite Hse. constructor; cbn [inner range start end_ encoding]; try done; try (destruct st, e; cbn; lia).
  - destruct st; [by rewrite part_nil; apply ok_nil|done].
  - destruct st, e; try done; [rewrite (part_app _ _ (start (range s'))) by lia; by apply ok_app|rewrite (part_app _ _ (end_ (range s'))) by lia; by apply ok_app].
  - destruct e; [by rewrite part_nil; apply ok_nil|done].
Qed.

(** What an operation takes from the front, and from the back. *)
Lemma narrows_front s n enc : wf s -> n <= length (as_slice s) -> enc = Unknown \/ enc = encoding (range s) ->
  ok enc (take n (as_slice s)) -> ok enc (drop n (as_slice s)) ->
  narrows s (mkSplitter (inner s) (mkRange (start (range s) + n) (end_ (range s)) enc)).
Proof.
  intros Hw Hn He Ht Hd. rewrite length_rem in Hn by done. unfold len, range_len, wf in *.
  constructor; cbn [inner range start end_ encoding]; try done; try lia.
  - unfold part. unfold as_slice, constrain in Ht. rewrite take_take in Ht. rewrite (Nat.add_comm _ n), Nat.add_sub. by rewrite Nat.min_l in Ht by lia.
  - unfold part. unfold as_slice, constrain in Hd. rewrite skipn_firstn_comm, drop_drop in Hd. by rewrite Nat.sub_add_distr.
  - rewrite part_nil. apply ok_nil.
Qed.

Lemma narrows_back s n enc : wf s -> n <= length (as_slice s) -> enc = Unknown \/ enc = encoding (range s) ->
  ok enc (take n (as_slice s)) -> ok enc (drop n (as_slice s)) ->
  narrows s (mkSplitter (inner s) (mkRange (start (range s)) (start (range s) + n) enc)).
Proof.
  intros Hw Hn He Ht Hd. rewrite length_rem in Hn by done. unfold len, range_len, wf in *.
  constructor; cbn [inner range start end_ encoding]; try done; try lia.
  - rewrite part_nil. apply ok_nil.
  - unfold part. unfold as_slice, constrain in Ht. rewrite take_take in Ht. rewrite (Nat.add_comm _ n), Nat.add_sub. by rewrite Nat.min_l in Ht by lia.
  - unfold part. unfold as_slice, constrain in Hd. rewrite skipn_firstn_comm, drop_drop in Hd. by rewrite Nat.sub_add_distr.
Qed.

Lemma ok_while (f : byte -> bool) e l :
  (forall b, f b = true -> is_ascii b = true) \/ (forall b, f b = false -> is_ascii b = true) ->
  ok e l -> ok e (take (length (take_while f l)) l) /\ ok e (drop (length (take_while f l)) l).
Proof.
  intros Hf. rewrite take_length_take_while, drop_length_take_while. destruct e; [done|..]; cbn [ok].
  - intros Hl. apply (utf8_drop_while f) in Hl; naive_solver.
  - rewrite <- (take_drop_while f l) at 1. by rewrite all_ascii_app, andb_true_iff.
Qed.

(** Taking from the front what passes a test. *)
Lemma narrows_while (f : byte -> bool) s :
  (forall b, f b = true -> is_ascii b = true) \/ (forall b, f b = false -> is_ascii b = true) ->
  wf s -> enc_sound s -> narrows s (with_start s (start (range s) + length (take_while f (as_slice s)))).
Proof.
  intros Hf Hw He. destruct (ok_while f _ _ Hf He). apply narrows_front; auto. apply length_take_while.
Qed.

Lemma narrows_position (f : byte -> bool) s :
  (forall b, f b = true -> is_ascii b = true) \/ (forall b, f b = false -> is_ascii b = true) ->
  wf s -> enc_sound s ->
  narrows s (match position (fun c => negb (f c)) (as_slice s) with
             | Some idx => with_start s (start (range s) + idx)
             | None => with_start s (end_ (range s))
             end).
Proof.
  intros Hf Hw He. pose proof (narrows_while f s Hf Hw He) as Hn.
  pose proof (position_take_while f (fun c => negb (f c)) (as_slice s) (fun _ => eq_refl)) as H.
  destruct (position _ _); rewrite <- H in Hn; [done|]. rewrite length_rem in Hn by done. unfold len, range_len, wf in *.
  by replace (start (range s) + (end_ (range s) - start (range s))) with (end_ (range s)) in Hn by lia.
Qed.

Lemma narrows_all s : wf s -> enc_sound s -> narrows s (with_start s (start (range s) + length (as_slice s))).
Proof.
  intros Hw He. apply narrows_front; auto; [by rewrite firstn_all|rewrite drop_all; apply ok_nil].
Qed.

Lemma narrows_none s : wf s -> enc_sound s -> narrows s (with_start s (start (range s) + 0)).
Proof. intros Hw He. apply narrows_front; auto; [lia|apply ok_nil]. Qed.

(** What an extraction takes. *)
Lemma narrows_cursor U req s : BytesNewtypeOk U -> wf s -> enc_sound s ->
  narrows s (with_start s (start (range s) + length (unwrap_or (cursor_string U req (as_slice s)) []))).
Proof.
  intros HU Hw He. destruct (cursor_string U req (as_slice s)) eqn:E; cbn [unwrap_or length]; [|by apply narrows_none].
  apply cursor_string_take_while in E as ->. apply narrows_while; [|done..].
  destruct HU as [HU|HU]; [right|left]; intros b; specialize (HU b); destruct (is_ascii b), (is_invalid U b); naive_solver.
Qed.

(** Cutting anywhere, which gives UTF-8 up. *)
Lemma ok_cut e m l : ok e l ->
  let e' := if (0 <? m) && bool_decide (e = Utf8) then Unknown else e in
  (e' = Unknown \/ e' = e) /\ ok e' (take m l) /\ ok e' (drop m l).
Proof.
  intros Hl. destruct e; cbn [ok] in Hl.
  - destruct (_ && _); auto.
  - destruct m; cbn -[take drop]; [rewrite firstn_O, drop_0|rewrite bool_decide_eq_true_2 by done]; cbn [ok]; auto.
  - rewrite bool_decide_eq_false_2, andb_false_r by done. split; [auto|]. split; [by apply all_ascii_take|by apply all_ascii_drop].
Qed.

Lemma narrows_consume m s : m <= length (as_slice s) -> wf s -> enc_sound s ->
  narrows s (mkSplitter (inner s) (range_consume (range s) m true).1).
Proof.
  intros Hm Hw He. unfold range_consume. cbn [fst start end_ encoding]. rewrite length_rem in Hm by done. unfold len in Hm. rewrite Nat.min_l by done.
  destruct (ok_cut _ m _ He) as (H1 & H2 & H3). apply narrows_back; [done| |done..]. by rewrite length_rem.
Qed.

Lemma narrows_until_count n s : wf s -> enc_sound s -> narrows s (until_count n s).
Proof.
  intros Hw He. pose proof (length_rem s Hw) as Hl. unfold len in Hl.
  assert (E : until_count n s = mkSplitter (inner s) (range_consume (range s) (Nat.min n (range_len (range s))) true).1).
  { unfold until_count, range_consume. by rewrite <- Nat.min_assoc, Nat.min_id. }
  rewrite E. apply narrows_consume; [lia|done..].
Qed.

(** Cutting before or after an ASCII byte. *)
Lemma ok_ascii e a b l : is_ascii b = true -> ok e (a ++ b :: l) -> ok e a /\ ok e (b :: l) /\ ok e (a ++ [b]) /\ ok e l.
Proof.
  intros Hb. destruct e; cbn; [done|..].
  - intros [Ha Hl]%utf8_split; [|done]. split; [done|]. split; [done|]. cbn in Hl. rewrite Hb in Hl. split; [|done].
    apply utf8_app; [done|]. cbn. by rewrite Hb.
  - rewrite !all_ascii_app. unfold all_ascii. cbn [forallb]. rewrite Hb. cbn [andb]. intros [-> Hl]%andb_true_iff. by repeat split.
Qed.

Lemma narrows_until_byte_eq b s : wf s -> enc_sound s -> narrows s (until_byte_eq b s).
Proof.
  intros Hw He. unfold until_byte_eq. destruct (position _ (as_slice s)) as [i|] eqn:P; [|by apply narrows_refl].
  apply position_Some in P as (Hi & _ & x & Hx & Hxb). destruct (byte_eqb_spec x b) as [->|]; [|done].
  set (e := if _ && _ then Unknown else _). assert (Hn : ok e (take i (as_slice s)) /\ ok e (drop i (as_slice s)) /\ (e = Unknown \/ e = encoding (range s))).
  { unfold e. rewrite enc_sound_ok in He. change (part _ _ _) with (as_slice s) in He. destruct (is_ascii b) eqn:Hb.
    - rewrite andb_false_r. rewrite <- (take_drop_middle _ _ _ Hx) in He. destruct (ok_ascii _ _ _ _ Hb He) as (H1 & H2 & _).
      rewrite (drop_S _ _ _ Hx). auto.
    - rewrite andb_true_r. destruct (encoding (range s)) eqn:E.
      + rewrite bool_decide_eq_false_2 by done. auto.
      + rewrite bool_decide_eq_true_2 by done. cbn [ok]. auto.
      + rewrite bool_decide_eq_false_2 by done. split; [by apply all_ascii_take|]. split; [by apply all_ascii_drop|auto]. }
  destruct Hn as (H1 & H2 & H3). apply narrows_back; [done|lia|done..].
Qed.

Lemma narrows_next_byte s : wf s -> enc_sound s -> narrows s (next_byte s).2.
Proof.
  intros Hw He. unfold next_byte, peek_byte. rewrite enc_sound_ok in He. change (part _ _ _) with (as_slice s) in He.
  destruct (as_slice s) as [|b l] eqn:E; cbn [head snd]; [by apply narrows_refl; [|apply enc_sound_ok; change (part _ _ _) with (as_slice s); rewrite E]|].
  unfold with_encoding, with_start. cbn [inner range start end_ encoding]. destruct (is_ascii b) eqn:Hb; (apply narrows_front; [done|rewrite E; simpl; lia|auto|rewrite E; cbn [take drop]..]); try done.
  - rewrite firstn_O. by apply (ok_ascii _ [] b l).
  - rewrite drop_0. by apply (ok_ascii _ [] b l).
Qed.

Lemma narrows_rnext_byte s : wf s -> enc_sound s -> narrows s (rnext_byte s).2.
Proof.
  intros Hw He. unfold rnext_byte, rpeek_byte. destruct (last (as_slice s)) as [b|] eqn:E; [|by apply narrows_refl]. cbn [snd].
  apply last_Some in E as [l E]. pose proof (length_rem s Hw) as Hlen. rewrite E, length_app in Hlen. cbn [length] in Hlen. unfold len, range_len in Hlen.
  replace (end_ (range s) - 1) with (start (range s) + length l) by (unfold wf in Hw; lia).
  rewrite enc_sound_ok in He. change (part _ _ _) with (as_slice s) in He. rewrite E in He.
  unfold with_encoding. cbn [inner range start end_ encoding]. destruct (is_ascii b) eqn:Hb; (apply narrows_back; [done|rewrite E, length_app; simpl; lia|auto|rewrite E..]); try done.
  - rewrite take_app_length. by destruct (ok_ascii _ _ _ _ Hb He).
  - rewrite drop_app_length. by destruct (ok_ascii _ _ _ _ Hb He) as (_ & ? & _).
Qed.

(** Everything but [check_encoding] narrows. *)
Lemma narrows_op o s : o <> OCheckEncoding -> op_ok o -> wf s -> enc_sound s -> narrows s (run_op o s).
Proof.
  intros Hc Ho Hw He. destruct o; cbn [run_op op_ok] in *.
  - done.
  - by apply narrows_next_byte.
  - by apply narrows_rnext_byte.
  - apply narrows_position; [|done..]. destruct Ho as [HU|HU]; [left|right]; intros b; specialize (HU b);
      destruct (is_ascii b), (is_invalid U b); naive_solver.
  - apply narrows_position; [|done..]. left. intros b. by byte_cases b.
  - unfold until_byte. destruct (position _ _) as [i|] eqn:P; [|by apply narrows_refl].
    apply position_Some in P as (Hi & _). apply narrows_consume; [lia|done..].
  - by apply narrows_until_byte_eq.
  - by apply narrows_until_count.
  - unfold rest, peek_rest. destruct (check_others U _); [by apply narrows_refl|]. by apply narrows_all.
  - unfold rest_or_default, peek_rest. destruct (check_others U _); [by apply narrows_none|by apply narrows_all].
  - pose proof (narrows_cursor U req s Ho Hw He) as Hn. unfold string. rewrite peek_string_cursor.
    destruct (cursor_string _ _ _); [exact Hn|by apply narrows_refl].
  - pose proof (narrows_cursor U req s Ho Hw He) as Hn. unfold string_or_default. rewrite peek_string_cursor.
    by destruct (cursor_string _ _ _).
Qed.

(** ** What holds at every point of a program *)

(** Each guard's range is sound, and one that restores a single end is only
    narrowed from there. *)
Fixpoint chained (l : list SavedIndices) (s : Splitter) : Prop :=
  match l with
  | [] => True
  | i :: l =>
      let s0 := mkSplitter (inner s) (saved_range i) in
      wf s0 /\ enc_sound s0 /\ (both i = false -> narrows s0 s) /\ chained l s0
  end.

Definition guarded_inv (g : Guarded) : Prop := wf (target g) /\ enc_sound (target g) /\ chained (guards g) (target g).

Lemma chained_narrows l s s' : narrows s s' -> chained l s -> chained l s'.
Proof.
  destruct l as [|i l]; [done|]. cbn [chained]. intros Hn. rewrite (n_inner _ _ Hn). intros (H1 & H2 & H3 & H4).
  split; [done|]. split; [done|]. split; [|done]. intros Hb. eapply narrows_trans; [by apply H3|done].
Qed.

Lemma check_encoding_inner_eq s : inner (check_encoding s).2 = inner s /\ start (range (check_encoding s).2) = start (range s) /\
  end_ (range (check_encoding s).2) = end_ (range s).
Proof. unfold check_encoding, check_encoding_inner. repeat case_match; done. Qed.

Lemma guarded_do o g : careful (Do o) g -> guarded_inv g -> guarded_inv (act (Do o) g).
Proof.
  destruct g as [t gs]. intros Hc (Hw & He & Hl). unfold guarded_inv, act, deref_mut. cbn [target guards] in *.
  assert (o = OCheckEncoding \/ o <> OCheckEncoding) as [->|Hne] by (destruct o; (by left) || (by right)).
  - cbn [careful guards] in Hc. split; [by apply (wf_run_op OCheckEncoding)|]. split; [by apply enc_sound_check|].
    destruct gs as [|i l]; [exact I|]. cbn [chained run_op] in *. rewrite (proj1 (check_encoding_inner_eq _)).
    destruct Hl as (H1 & H2 & _ & H4). split; [done|]. split; [done|]. split; [|done]. intros Hb. by rewrite (Hc i eq_refl) in Hb.
  - assert (Ho : op_ok o) by (by destruct o). pose proof (narrows_op o t Hne Ho Hw He) as Hn.
    destruct (narrows_sound _ _ Hw Hn). split; [done|]. split; [done|]. by eapply chained_narrows.
Qed.

Lemma guarded_act a g : careful a g -> guarded_inv g -> guarded_inv (act a g).
Proof.
  destruct a as [o|st e|]; [apply guarded_do|..]; intros _ (Hw & He & Hl).
  - destruct g as [[i r] l]. cbn in *. split; [done|]. split; [done|]. split; [done|]. split; [done|]. split; [|done]. intros _. by apply narrows_refl.
  - unfold act, drop_guard. destruct (guards g) as [|i l] eqn:E; [by split; [|split; [|rewrite E]]|].
    cbn [chained] in Hl. destruct Hl as (H1 & H2 & H3 & H4). set (s0 := mkSplitter _ _) in *. unfold guarded_inv. cbn [target guards].
    destruct (both i) eqn:Hb.
    + assert (Hr : restored i (target g) = s0).
      { unfold both in Hb. apply andb_true_iff in Hb as [Hb1 Hb2]. unfold restored, range_restore. rewrite Hb1, Hb2. cbn. unfold s0. by destruct (saved_range i). }
      by rewrite Hr.
    + assert (Hn : narrows s0 (restored i (target g))) by (apply (narrows_restore s0 (target g)); auto).
      destruct (narrows_sound _ _ H1 Hn). split; [done|]. split; [done|]. by eapply chained_narrows.
Qed.

Lemma guarded_acts l : forall g, all_careful l g -> guarded_inv g -> guarded_inv (acts l g).
Proof. induction l as [|a l IH]; intros g; [done|]. intros [Ha Hl] Hg. apply IH; [done|]. by apply guarded_act. Qed.

Lemma guarded_new s : (su8 s = true -> utf8_valid (value s) = true) -> guarded_inv (mkGuarded (new s) []).
Proof. intros Hu. destruct (run_sound [] s Hu) as [H1 H2]; [constructor|]. by split. Qed.

Lemma run_op_inner o s : inner (run_op o s) = inner s.
Proof.
  destruct o; cbn [run_op]; try exact (proj1 (check_encoding_inner_eq s)); try done; unfold next_byte, rnext_byte, consume_invalid, consume_whitespace,
    until_byte, until_byte_eq, rest, string; repeat case_match; done.
Qed.

Lemma acts_inner l : forall g, inner (target (acts l g)) = inner (target g).
Proof.
  induction l as [|a l IH]; intros g; [done|]. change (acts (a :: l) g) with (acts l (act a g)). rewrite IH. destruct a as [o|st e|]; [apply run_op_inner|done|].
  unfold act, drop_guard. by destruct (guards g).
Qed.

(** C11: However guards are nested and dropped between the operations, a string that is
    extracted at any point is valid for its type, as secret as the source, and
    marked UTF-8 only if it is: what the code relies on when it makes a [str]
    unchecked.  The encoding is only to be checked where no guard is about to give
    back a single end. *)
Theorem guards_sound l s U req w :
  (su8 s = true -> utf8_valid (value s) = true) -> all_careful l (mkGuarded (new s) []) -> BytesNewtypeOk U ->
  (string U req (deref (acts l (mkGuarded (new s) [])))).1 = Ok w ->
  valid U (value w) /\ ssecret w = ssecret s /\ (su8 w = true -> utf8_valid (value w) = true).
Proof.
  intros Hu Hc HU Hw. destruct (guarded_acts l _ Hc (guarded_new s Hu)) as (_ & He & _).
  pose proof (acts_inner l (mkGuarded (new s) [])) as Hi. cbn in Hi. rewrite <- Hi. by eapply string_sound.
Qed.

Lemma guards_sound_witness :
  let s := mkStr (bs "ab cd") true true in
  let l := [Save false true; Do (OUntilByteEq " "%byte); Save true true; Do OCheckEncoding; Do ONextByte; Drop; Drop] in
  (string Line true (deref (acts l (mkGuarded (new s) [])))).1 = Ok s /\ valid Line (bs "ab cd").
Proof.
  intros s l. assert (Hr : (string Line true (deref (acts l (mkGuarded (new s) [])))).1 = Ok s) by (vm_compute; reflexivity).
  split; [exact Hr|]. refine (proj1 (guards_sound l s Line true s (fun _ => eq_refl) _ Line_ok Hr)).
  cbn. repeat split; intros i [= <-]; reflexivity.
Defined.

(** Whether the guards a program drops are its own, and it drops them all. *)
Fixpoint balanced (depth : nat) (l : list Act) : bool :=
  match l with
  | [] => depth =? 0
  | Do _ :: l => balanced depth l
  | Save _ _ :: l => balanced (S depth) l
  | Drop :: l => match depth with 0 => false | S depth => balanced depth l end
  end.

Lemma balanced_guards l : forall depth g top below, balanced depth l = true -> length top = depth -> guards g = top ++ below -> guards (acts l g) = below.
Proof.
  induction l as [|a l IH]; intros depth g top below Hb Hl Hg; cbn in *.
  - apply Nat.eqb_eq in Hb. destruct top; [done|simpl in *; lia].
  - destruct a as [o|st e|].
    + by eapply (IH depth _ top).
    + eapply (IH (S depth) _ (_ :: top)); [done|by simpl; rewrite Hl|]. cbn. by rewrite Hg.
    + destruct depth as [|depth]; [done|]. destruct top as [|i top]; [done|]. eapply (IH depth _ top); [done|by injection Hl|].
      cbn. unfold drop_guard. by rewrite Hg.
Qed.

(** What is done under a guard that restores both ends leaves nothing behind,
    whatever it does, the check of the encoding included. *)
Theorem guard_restores l g :
  balanced 0 l = true -> acts (Save true true :: l ++ [Drop]) g = g.
Proof.
  intros Hb. unfold acts. cbn [foldl]. rewrite foldl_app. cbn [foldl]. fold (acts l (act (Save true true) g)).
  pose proof (balanced_guards l 0 (act (Save true true) g) [] _ Hb eq_refl eq_refl) as Hg.
  pose proof (acts_inner l (act (Save true true) g)) as Hi. cbn in Hi. cbn [act]. unfold drop_guard. cbn [act] in *. rewrite Hg. cbn [guards save].
  destruct g as [[i r] gs]. cbn in *. unfold restored. rewrite Hi. cbn. by destruct r.
Qed.

Lemma guard_restores_witness :
  acts [Save true true; Do ONextByte; Do OCheckEncoding; Drop] (mkGuarded (new (plain (bs "ab"))) []) = mkGuarded (new (plain (bs "ab"))) [].
Proof. exact (guard_restores [Do ONextByte; Do OCheckEncoding] (mkGuarded (new (plain (bs "ab"))) []) eq_refl). Defined.

(** ** Iterators *)

Lemma collect_S {S} (nx : S -> option byte * S) fuel s : collect nx (Datatypes.S fuel) s =
  match nx s with
  | (None, s) => Some ([], s)
  | (Some b, s) => match collect nx fuel s with Some (l, s) => Some (b :: l, s) | None => None end
  end.
Proof. done. Qed.

Lemma collect_next l : forall s, as_slice s = l ->
  exists s', collect next (S (length l)) s = Some (l, s') /\ as_slice s' = [] /\ next s' = (None, s') /\ inner s' = inner s.
Proof.
  induction l as [|b l IH]; intros s Hs; rewrite collect_S; destruct (rem_next_byte s) as [H1 H2]; rewrite Hs in H1, H2.
  - exists s. assert (Hn : next s = (None, s)) by (unfold next, next_byte, peek_byte; by rewrite Hs). by rewrite Hn.
  - pose proof (run_op_inner ONextByte s) as Hi. cbn [run_op] in Hi. unfold next at 1. destruct (next_byte s) as [o s1]. cbn in H1, H2, Hi. subst o.
    destruct (IH s1 H2) as (s' & Hc & Hr & Hn & Hi'). cbn [length]. rewrite Hc. exists s'. by rewrite Hi'.
Qed.

Lemma collect_guard fuel gs : forall s, collect guard_next fuel (mkGuarded s gs) =
  match collect next fuel s with Some (l, s) => Some (l, mkGuarded s gs) | None => None end.
Proof.
  induction fuel as [|fuel IH]; intros s; [done|]. rewrite !collect_S.
  assert (Hg : guard_next (mkGuarded s gs) = ((next s).1, mkGuarded (next s).2 gs)) by (unfold guard_next, next; cbn; by destruct (next_byte s)).
  rewrite Hg. destruct (next s) as [[b|] s1]; [|done]. cbn. rewrite IH. by destruct (collect next fuel s1) as [[l s']|].
Qed.

(** A splitter as an iterator gives what is left of it, byte by byte, and then
    nothing more; so does a guard, which gives it back. *)
Theorem splitter_iterates s : wf s ->
  (exists s', collect next (S (len s)) s = Some (as_slice s, s') /\ as_slice s' = [] /\ next s' = (None, s')) /\
  (forall gs, exists g, collect guard_next (S (len s)) (save true true (mkGuarded s gs)) = Some (as_slice s, g) /\ drop_guard g = mkGuarded s gs).
Proof.
  intros Hw. rewrite <- (length_rem s Hw). destruct (collect_next _ s eq_refl) as (s' & Hc & Hr & Hn & Hi). split; [by exists s'|].
  intros gs. unfold save. rewrite collect_guard. cbn [target]. rewrite Hc. eexists. split; [done|].
  unfold drop_guard, restored. cbn. rewrite Hi. destruct s as [i r]. by destruct r.
Qed.

Lemma splitter_iterates_witness : exists s', collect next 3 (new (plain (bs "hi"))) = Some (bs "hi", s').
Proof.
  destruct (proj1 (splitter_iterates (new (plain (bs "hi"))) (wf_new _))) as (s' & Hc & _). by exists s'.
Defined.
