(* ===== verification/Transforms.v ===== *)
(** * String transformations

    [src/string.rs] ([Transformation], [Utf8Policy]) and [src/string/tf]:
    [map_bytes], the casemaps, tag-value escaping and [TrimAscii]. *)

From S2P Require Import Prelude Strings Utf8.

(** [Cow<[u8]>]. *)
Inductive Cow := Borrowed (l : list byte) | Owned (l : list byte).
Definition cow_ref (c : Cow) : list byte := match c with Borrowed l | Owned l => l end.

Inductive Utf8Policy := PInvalid | PRecheck | PValid | PPreserve | PPreserveStrict.

(** [Transformation<'_, ()>]. *)
Record Transformation := mkTf { transformed : Cow; tf_utf8 : Utf8Policy }.

(** [Transformation::empty]. *)
Definition empty_tf : Transformation := mkTf (Borrowed []) PValid.

(** What a policy claims about the output given the input. *)
Definition policy_sound (p : Utf8Policy) (input output : list byte) : Prop :=
  match p with
  | PInvalid => utf8_valid output = false
  | PRecheck => True
  | PValid => utf8_valid output = true
  | PPreserve => utf8_valid input = true -> utf8_valid output = true
  | PPreserveStrict => utf8_valid output = utf8_valid input
  end.

(** ** [map_bytes] *)

(** The first loop of [map_bytes]: it stops at the first byte that changes.
    Returns the replacement, the index reached and whether all was ASCII. *)
Fixpoint map_bytes_scan (f : byte -> byte) (bytes : list byte) (idx : nat) (ascii : bool)
    : byte * nat * bool :=
  match bytes with
  | [] => (x00, idx, ascii)
  | b :: rest =>
      let mapped := f b in
      let ascii := ascii && (code mapped <? 128)%N in
      if Byte.eqb mapped b then map_bytes_scan f rest (idx + 1) ascii else (mapped, idx, ascii)
  end.

(** The second loop: map and push what is left. *)
Fixpoint map_bytes_rest (f : byte -> byte) (bytes : list byte) (new_bytes : list byte) (ascii : bool)
    : list byte * bool :=
  match bytes with
  | [] => (new_bytes, ascii)
  | b :: rest =>
      map_bytes_rest f rest (new_bytes ++ [f b]) (ascii && (code (f b) <? 128)%N)
  end.

Definition map_bytes (bytes : list byte) (utf8 : Utf8Policy) (f : byte -> byte) : Transformation :=
  let '(replace, idx, ascii_only) := map_bytes_scan f bytes 0 true in
  let '(tfed, ascii_only) :=
    if idx <? length bytes then
      let new_bytes := take idx bytes ++ [replace] in
      let '(new_bytes, ascii_only) := map_bytes_rest f (drop (idx + 1) bytes) new_bytes ascii_only in
      (Owned new_bytes, ascii_only)
    else (Borrowed bytes, ascii_only) in
  mkTf tfed (if ascii_only then PValid else utf8).

(** ** Casemaps *)

Definition AsciiCasemap (UPPERCASE : bool) (bytes : list byte) : Transformation :=
  if UPPERCASE then map_bytes bytes PPreserveStrict to_ascii_uppercase
  else map_bytes bytes PPreserveStrict to_ascii_lowercase.

Inductive IrcCasemap := CmAscii | CmRfc1459Strict | CmRfc1459.

Definition casemap_from_name (name : list byte) : option IrcCasemap :=
  if bool_decide (name = bs "ascii") then Some CmAscii
  else if bool_decide (name = bs "rfc1459") then Some CmRfc1459
  else if bool_decide (name = bs "rfc1459-strict") then Some CmRfc1459Strict
  else None.

Definition rfc1459_strict (b : byte) : byte :=
  if (code "[" <=? code b)%N && (code b <=? code "]")%N then byte_of (code b + 32)
  else to_ascii_lowercase b.

Definition rfc1459 (b : byte) : byte :=
  if Byte.eqb b "~" then "^"%byte else rfc1459_strict b.

Definition casemap_fn (c : IrcCasemap) : byte -> byte :=
  match c with
  | CmAscii => to_ascii_lowercase
  | CmRfc1459Strict => rfc1459_strict
  | CmRfc1459 => rfc1459
  end.

Definition irc_casemap (c : IrcCasemap) (bytes : list byte) : Transformation :=
  match c with
  | CmAscii => map_bytes bytes PPreserveStrict to_ascii_lowercase
  | CmRfc1459Strict => map_bytes bytes PPreserveStrict rfc1459_strict
  | CmRfc1459 => map_bytes bytes PPreserveStrict rfc1459
  end.

(** ** Escaping of tag values *)

Definition unescape_byte (b : byte) : byte :=
  match b with
  | ":" => ";"
  | "s" => " "
  | "r" => "013"
  | "n" => "010"
  | b => b
  end%byte.

Definition escape_byte (b : byte) : option byte :=
  match b with
  | ";" => Some ":"
  | " " => Some "s"
  | "013" => Some "r"
  | "010" => Some "n"
  | "\" => Some "\"
  | _ => None
  end%byte.

Definition needs_escape (b : byte) : bool :=
  match escape_byte b with Some _ => true | None => false end.

(** The final loop of [escape]. *)
Fixpoint escape_loop (rest new_bytes : list byte) : list byte :=
  match rest with
  | [] => new_bytes
  | b :: rest =>
      match escape_byte b with
      | Some esc => escape_loop rest (new_bytes ++ ["\"%byte; esc])
      | None => escape_loop rest (new_bytes ++ [b])
      end
  end.

Definition escape (tag_value : list byte) : list byte :=
  match position needs_escape tag_value with
  | None => tag_value
  | Some first_idx =>
      let no_escape := take first_idx tag_value in
      match drop first_idx tag_value with
      | first :: rest =>
          let esc := match escape_byte first with Some e => e | None => x00 end in
          escape_loop rest (no_escape ++ ["\"%byte] ++ [esc])
      | [] => tag_value
      end
  end.

(** The final loop of [unescape]. *)
Fixpoint unescape_loop (rest : list byte) (esc : bool) (new_bytes : list byte) : list byte :=
  match rest with
  | [] => new_bytes
  | b :: rest =>
      if esc then unescape_loop rest false (new_bytes ++ [unescape_byte b])
      else if Byte.eqb b "\" then unescape_loop rest true new_bytes
      else unescape_loop rest false (new_bytes ++ [b])
  end.

Definition unescape (tag_value : list byte) : list byte :=
  match position (fun c => Byte.eqb c "\") tag_value with
  | None => tag_value
  | Some first_idx =>
      let no_escape := take first_idx tag_value in
      match drop first_idx tag_value with
      | first :: rest => unescape_loop rest false (no_escape ++ [unescape_byte first])
      | [] => tag_value
      end
  end.

(** ** [TrimAscii] *)

Inductive StringSide := Start | End | StartFirst | EndFirst.

#[global] Instance StringSide_eq_dec : EqDecision StringSide.
Proof. solve_decision. Defined.

(** The [split_last] loop, on the reversed slice. *)
Fixpoint trim_end_rev (rslice : list byte) : list byte :=
  match rslice with
  | last :: rest => if is_ascii_whitespace last then trim_end_rev rest else rslice
  | [] => []
  end.

(** The [split_first] loop. *)
Fixpoint trim_start (slice : list byte) : list byte :=
  match slice with
  | first :: rest => if is_ascii_whitespace first then trim_start rest else slice
  | [] => []
  end.

Definition TrimAscii (side : StringSide) (bytes : list byte) : Transformation :=
  let slice := bytes in
  let slice := if bool_decide (side = Start) then slice else rev (trim_end_rev (rev slice)) in
  let slice := if bool_decide (side = End) then slice else trim_start slice in
  mkTf (Borrowed slice) PPreserveStrict.

(** ** Lemmas *)

Lemma map_bytes_scan_spec f l idx ascii :
  let '(r, i, a) := map_bytes_scan f l idx ascii in
  exists n, i = idx + n /\ n <= length l /\ take n (map f l) = take n l /\
    (n < length l -> exists b rest, drop n l = b :: rest /\ r = f b /\ r <> b /\
                     a = ascii && all_ascii (map f (take (S n) l))) /\
    (n = length l -> a = ascii && all_ascii (map f l)).
Proof.
  revert idx ascii. induction l as [|b l IH]; intros idx ascii; simpl.
  { exists 0. split; [lia|]. repeat split; try done; try lia. intros _. by rewrite andb_true_r. }
  destruct (byte_eqb_spec (f b) b) as [E|E].
  - specialize (IH (idx + 1) (ascii && (code (f b) <? 128)%N)).
    destruct (map_bytes_scan f l (idx + 1) _) as [[r i] a].
    destruct IH as (n & -> & Hn & Ht & Hlt & Heq). exists (S n).
    split; [lia|]. split; [simpl; lia|]. split; [simpl; by rewrite Ht, E|]. split.
    + intros Hl. destruct Hlt as (b' & rest & ? & ? & ? & ->); [simpl in *; lia|].
      exists b', rest. repeat split; try done. cbn [take map all_ascii forallb].
      by rewrite andb_assoc.
    + intros Hl. rewrite Heq by (simpl in *; lia). simpl. by rewrite andb_assoc.
  - exists 0. split; [lia|]. split; [simpl; lia|]. split; [done|]. split; [|simpl; lia].
    intros _. exists b, l. repeat split; [done|]. simpl. by rewrite andb_true_r.
Qed.

Lemma map_bytes_rest_spec f l acc a :
  map_bytes_rest f l acc a = (acc ++ map f l, a && all_ascii (map f l)).
Proof.
  revert acc a. induction l as [|b l IH]; intros acc a; simpl.
  - by rewrite app_nil_r, andb_true_r.
  - rewrite IH. rewrite <- app_assoc, andb_assoc. done.
Qed.

(** The output bytes of [map_bytes], and when it borrows. *)
Lemma map_bytes_spec bytes utf8 f :
  cow_ref (transformed (map_bytes bytes utf8 f)) = map f bytes /\
  tf_utf8 (map_bytes bytes utf8 f) = if all_ascii (map f bytes) then PValid else utf8.
Proof.
  unfold map_bytes. pose proof (map_bytes_scan_spec f bytes 0 true) as H.
  destruct (map_bytes_scan f bytes 0 true) as [[r i] a].
  destruct H as (n & -> & Hn & Ht & Hlt & Heq). simpl in *.
  destruct (Nat.ltb_spec n (length bytes)) as [Hl|Hl]; simpl.
  - destruct Hlt as (b & rest & Hd & -> & _ & ->); [done|].
    rewrite map_bytes_rest_spec. simpl.
    assert (Hb : bytes = take n bytes ++ b :: rest) by (by rewrite <- Hd, take_drop).
    assert (Hr : drop (n + 1) bytes = rest).
    { rewrite <- drop_drop, Hd. done. }
    assert (Hm : map f bytes = (take n bytes ++ [f b]) ++ map f rest).
    { rewrite <- (take_drop n (map f bytes)), Ht. rewrite List.skipn_map, Hd. simpl.
      by rewrite <- app_assoc. }
    rewrite Hr. split; [done|].
    replace (all_ascii (map f (take (S n) bytes)) && all_ascii (map f rest))
      with (all_ascii (map f bytes)); [done|].
    unfold all_ascii. rewrite <- forallb_app, <- map_app, <- Hr.
    do 2 f_equal. rewrite Nat.add_1_r. symmetry. apply take_drop.
  - assert (n = length bytes) as -> by lia. rewrite Heq by done. split; [|done].
    rewrite !take_ge in Ht by (rewrite ?length_map; lia). done.
Qed.

Lemma map_utf8 f l :
  (forall b, is_ascii b = true -> is_ascii (f b) = true) ->
  (forall b, is_ascii b = false -> f b = b) ->
  utf8_valid (map f l) = utf8_valid l.
Proof.
  intros Ha Hn.
  assert (Hf : forall b, is_ascii (f b) = is_ascii b).
  { intros b. destruct (is_ascii b) eqn:E; [by apply Ha|]. by rewrite Hn. }
  assert (Hc : forall c, utf8_cont (f c) = utf8_cont c).
  { intros c. destruct (is_ascii c) eqn:E; [|by rewrite Hn].
    destruct (utf8_cont (f c)) eqn:E1.
    - apply utf8_cont_not_ascii in E1. by rewrite Ha in E1.
    - destruct (utf8_cont c) eqn:E2; [|done]. apply utf8_cont_not_ascii in E2. congruence. }
  remember (length l) as n eqn:Hl. revert l Hl.
  induction n as [n IH] using lt_wf_ind. intros l ->.
  destruct l as [|b l]; [done|]. simpl. rewrite Hf.
  destruct (is_ascii b) eqn:Eb; [apply (IH (length l)); simpl; lia|].
  rewrite (Hn b Eb). destruct (utf8_lead b) as [[k g]|] eqn:L; [|done].
  assert (Hg : forall c, g (f c) = g c).
  { intros c. destruct (is_ascii c) eqn:E; [|by rewrite Hn].
    destruct (g (f c)) eqn:E1.
    - apply (cont_not_ascii _ _ _ _ L) in E1. by rewrite Ha in E1.
    - destruct (g c) eqn:E2; [|done]. apply (cont_not_ascii _ _ _ _ L) in E2. congruence. }
  destruct k as [|[|[|[|k]]]]; try done;
    [destruct l as [|c1 l]|destruct l as [|c1 [|c2 l]]|destruct l as [|c1 [|c2 [|c3 l]]]];
    try done; simpl; rewrite ?Hg, ?Hc; rewrite (IH (length l)); simpl; done || lia.
Qed.

(** Escaping one byte; a specification device. *)
Definition esc1 (b : byte) : list byte :=
  match escape_byte b with Some e => ["\"%byte; e] | None => [b] end.

Lemma escape_loop_spec l acc : escape_loop l acc = acc ++ flat_map esc1 l.
Proof.
  revert acc. induction l as [|b l IH]; intros acc; simpl; [by rewrite app_nil_r|].
  unfold esc1 at 1. destruct (escape_byte b); rewrite IH, <- app_assoc; done.
Qed.

Lemma flat_map_esc1_clean l :
  Forall (fun b => needs_escape b = false) l -> flat_map esc1 l = l.
Proof.
  induction 1 as [|b l Hb _ IH]; simpl; [done|]. rewrite IH.
  unfold needs_escape in Hb. unfold esc1. by destruct (escape_byte b).
Qed.

Lemma escape_spec l : escape l = flat_map esc1 l.
Proof.
  unfold escape. destruct (position needs_escape l) as [i|] eqn:P.
  - apply position_Some in P as (Hi & Hc & b & Hb & He).
    assert (Hl : flat_map esc1 l = take i l ++ esc1 b ++ flat_map esc1 (drop (S i) l)).
    { rewrite <- (take_drop i l) at 1. rewrite flat_map_app, flat_map_esc1_clean by done.
      by rewrite (drop_S _ _ _ Hb). }
    rewrite Hl, (drop_S _ _ _ Hb), escape_loop_spec. unfold needs_escape in He. unfold esc1 at 2.
    destruct (escape_byte b); [|done]. by rewrite <- !app_assoc.
  - apply position_None in P. by rewrite flat_map_esc1_clean.
Qed.

Lemma escape_no_semicolon l : Forall (fun b => Byte.eqb b ";" = false) (escape l).
Proof.
  rewrite escape_spec. apply List.Forall_flat_map, List.Forall_forall. intros b _.
  destruct b; repeat constructor.
Qed.

(** An escaped [NoNul] is a [Word]. *)
Lemma escape_valid l : valid NoNul l -> valid Word (escape l).
Proof.
  rewrite !valid_iff. intros [_ H]. split; [done|]. rewrite escape_spec.
  apply List.Forall_flat_map. revert H. apply List.Forall_impl. intros b.
  destruct b; try discriminate; intros _; repeat constructor.
Qed.

(** The escape flag after one byte of the [unescape] loop. *)
Definition esc_state (e : bool) (b : byte) : bool := if e then false else Byte.eqb b "\".

Lemma unescape_loop_app l1 l2 e acc :
  unescape_loop (l1 ++ l2) e acc =
  unescape_loop l2 (foldl esc_state e l1)
    (unescape_loop l1 e acc).
Proof.
  revert e acc. induction l1 as [|b l1 IH]; intros e acc; simpl; [done|].
  destruct e; [apply IH|]. change (esc_state false b) with (Byte.eqb b "\").
  destruct (Byte.eqb b "\"); apply IH.
Qed.

Lemma esc1_unescape b acc :
  foldl esc_state false (esc1 b) = false /\
  unescape_loop (esc1 b) false acc = acc ++ [b].
Proof. destruct b; split; reflexivity. Qed.

Lemma unescape_loop_escape l acc : unescape_loop (flat_map esc1 l) false acc = acc ++ l.
Proof.
  revert acc. induction l as [|b l IH]; intros acc; simpl; [by rewrite app_nil_r|].
  rewrite unescape_loop_app. destruct (esc1_unescape b acc) as [-> ->].
  rewrite IH, <- app_assoc. done.
Qed.

Lemma clean_no_backslash l :
  Forall (fun b => needs_escape b = false) l -> Forall (fun b => Byte.eqb b "\" = false) l.
Proof. apply List.Forall_impl. intros b. by destruct b. Qed.

Lemma escape_clean l : Forall (fun b => needs_escape b = false) l -> escape l = l.
Proof. intros H. by rewrite escape_spec, flat_map_esc1_clean. Qed.

Lemma unescape_clean l : Forall (fun b => Byte.eqb b "\" = false) l -> unescape l = l.
Proof. intros H. unfold unescape. by rewrite position_none_all. Qed.

Lemma map_valid U f l :
  check_others U = return_none \/ (check_others U = arg_first_check /\ forall b, f b = ":"%byte -> b = ":"%byte) ->
  (forall b, is_invalid U b = false -> is_invalid U (f b) = false) ->
  valid U l -> valid U (map f l).
Proof.
  intros Hc Hi. rewrite !valid_iff. intros [H1 H2]. split.
  - destruct Hc as [Hc|[Hc Hf]]; rewrite Hc in *; [done|]. destruct l as [|b l]; [done|].
    simpl in *. destruct (f b) eqn:E; try done. rewrite (Hf b E) in *. done.
  - clear H1. induction H2; simpl; constructor; auto.
Qed.

(** ** Theorems *)

(** The newtypes [IrcCasemap] is marked safe for. *)
Definition irc_casemap_safe : list BytesNewtype := [NoNul; Line; Word; Arg; Nick; User; Key].
(** The newtypes [AsciiCasemap] is marked safe for. *)
Definition ascii_casemap_safe (UPPERCASE : bool) : list BytesNewtype :=
  [NoNul; Line; Word; Arg; Key] ++ (if UPPERCASE then [Cmd] else []).

Ltac all_newtypes H :=
  repeat (rewrite elem_of_cons in H); rewrite elem_of_nil in H;
  repeat (destruct H as [->|H]); [..|destruct H].

Lemma casemap_fn_valid c U l : U ∈ irc_casemap_safe -> valid U l -> valid U (map (casemap_fn c) l).
Proof.
  intros HU. unfold irc_casemap_safe in HU. all_newtypes HU; apply map_valid;
    first [by left|right; split; [done|]; intros b; destruct c; by byte_cases b|
           intros b; destruct c; by byte_cases b].
Qed.

Lemma ascii_casemap_valid u U l :
  U ∈ ascii_casemap_safe u -> valid U l ->
  valid U (map (if u then to_ascii_uppercase else to_ascii_lowercase) l).
Proof.
  intros HU. unfold ascii_casemap_safe in HU.
  destruct u; simpl in HU; all_newtypes HU; apply map_valid;
    first [by left|right; split; [done|]; intros b; by byte_cases b|
           intros b; by byte_cases b].
Qed.

Lemma map_bytes_policy l f :
  (forall b, is_ascii (f b) = is_ascii b /\ (is_ascii b = false -> f b = b)) ->
  let t := map_bytes l PPreserveStrict f in
  policy_sound (tf_utf8 t) l (cow_ref (transformed t)).
Proof.
  intros Hf t. unfold t. destruct (map_bytes_spec l PPreserveStrict f) as [-> ->].
  destruct (all_ascii (map f l)) eqn:Ha; simpl; [by apply utf8_all_ascii|].
  apply map_utf8; intros b; destruct (Hf b) as [E1 E2]; [by rewrite E1|done].
Qed.

Lemma irc_casemap_policy c l :
  policy_sound (tf_utf8 (irc_casemap c l)) l (cow_ref (transformed (irc_casemap c l))).
Proof.
  assert (Hi : irc_casemap c l = map_bytes l PPreserveStrict (casemap_fn c)) by (by destruct c).
  rewrite Hi. apply map_bytes_policy. intros b. destruct c; by byte_cases b.
Qed.

Lemma ascii_casemap_policy u l :
  policy_sound (tf_utf8 (AsciiCasemap u l)) l (cow_ref (transformed (AsciiCasemap u l))).
Proof. destruct u; apply map_bytes_policy; intros b; by byte_cases b. Qed.

(** An IRC casemap maps every byte by its table whether or not it had to
    copy, maintains the invariant of every newtype it is marked safe for,
    reports a UTF-8 policy that is true of its output, and is idempotent. *)
Theorem irc_casemap_correct c U l :
  U ∈ irc_casemap_safe -> valid U l ->
  let t := irc_casemap c l in
  cow_ref (transformed t) = map (casemap_fn c) l /\
  valid U (cow_ref (transformed t)) /\
  policy_sound (tf_utf8 t) l (cow_ref (transformed t)) /\
  cow_ref (transformed (irc_casemap c (cow_ref (transformed t)))) = cow_ref (transformed t).
Proof.
  intros HU Hl t.
  assert (Ht : t = map_bytes l PPreserveStrict (casemap_fn c)) by (by destruct c).
  assert (Hi : forall l, irc_casemap c l = map_bytes l PPreserveStrict (casemap_fn c)) by (by destruct c).
  rewrite Hi, Ht. destruct (map_bytes_spec l PPreserveStrict (casemap_fn c)) as [-> ->].
  rewrite (proj1 (map_bytes_spec _ _ _)).
  split; [done|]. split; [by apply casemap_fn_valid|]. split.
  - destruct (all_ascii (map (casemap_fn c) l)) eqn:Ha; simpl; [by apply utf8_all_ascii|].
    apply map_utf8; intros b; destruct c; by byte_cases b.
  - rewrite map_map. apply map_ext. intros b. destruct c; by byte_cases b.
Qed.

Lemma irc_casemap_correct_witness :
  valid Nick (bs "Foo[~]") /\
  cow_ref (transformed (irc_casemap CmRfc1459 (bs "Foo[~]"))) = bs "foo{^}".
Proof.
  split; [reflexivity|].
  rewrite (proj1 (irc_casemap_correct CmRfc1459 Nick (bs "Foo[~]") ltac:(by set_solver) eq_refl)).
  reflexivity.
Defined.

(** [AsciiCasemap] likewise; in particular uppercasing, the only variant
    marked [CmdSafe], keeps commands commands. *)
Theorem ascii_casemap_correct u U l :
  U ∈ ascii_casemap_safe u -> valid U l ->
  let t := AsciiCasemap u l in
  cow_ref (transformed t) = map (if u then to_ascii_uppercase else to_ascii_lowercase) l /\
  valid U (cow_ref (transformed t)) /\ policy_sound (tf_utf8 t) l (cow_ref (transformed t)).
Proof.
  intros HU Hl t.
  assert (Ht : t = map_bytes l PPreserveStrict (if u then to_ascii_uppercase else to_ascii_lowercase))
    by (by destruct u).
  rewrite Ht. set (f := if u then to_ascii_uppercase else to_ascii_lowercase).
  destruct (map_bytes_spec l PPreserveStrict f) as [-> ->].
  split; [done|]. split; [by apply (ascii_casemap_valid u)|].
  destruct (all_ascii (map f l)) eqn:Ha; simpl; [by apply utf8_all_ascii|].
  apply map_utf8; intros b; unfold f; destruct u; by byte_cases b.
Qed.

Lemma ascii_casemap_correct_witness :
  valid Cmd (bs "PING") /\ cow_ref (transformed (AsciiCasemap true (bs "PING"))) = bs "PING".
Proof.
  split; [reflexivity|].
  rewrite (proj1 (ascii_casemap_correct true Cmd (bs "PING") ltac:(by set_solver) eq_refl)).
  reflexivity.
Defined.

(** The escaped form of a tag value is the concatenation of the escapes of
    its bytes; it is a [Word] without [;], so it can stand as a value in a tag
    list, and a value with nothing to escape comes back unchanged from both
    directions. *)
Theorem escape_correct v :
  valid NoNul v ->
  escape v = flat_map esc1 v /\ valid Word (escape v) /\
  Forall (fun b => Byte.eqb b ";" = false) (escape v) /\
  (Forall (fun b => needs_escape b = false) v -> escape v = v /\ unescape (escape v) = v).
Proof.
  intros Hv. split; [apply escape_spec|]. split; [by apply escape_valid|].
  split; [apply escape_no_semicolon|]. intros Hc. rewrite escape_clean by done.
  split; [done|]. by apply unescape_clean, clean_no_backslash.
Qed.

Lemma escape_correct_witness : valid NoNul (bs "a;b c") /\ valid Word (escape (bs "a;b c")).
Proof. split; [reflexivity|]. apply (escape_correct (bs "a;b c")). reflexivity. Defined.

(** [unescape] does not invert [escape] when something was escaped: the
    first escape sequence keeps its backslash, because the loop starts after
    the backslash with no escape pending.  Everything after it is restored. *)
Theorem unescape_escape_first p c e r :
  Forall (fun b => needs_escape b = false) p -> escape_byte c = Some e -> c <> "\"%byte ->
  unescape (escape (p ++ c :: r)) = p ++ "\"%byte :: e :: r.
Proof.
  intros Hp Hc Hb. rewrite escape_spec, flat_map_app, flat_map_esc1_clean by done.
  simpl. unfold esc1 at 1. rewrite Hc. simpl. unfold unescape.
  rewrite position_stop; [|by apply clean_no_backslash|done].
  rewrite take_app_length, drop_app_length. simpl.
  assert (He : Byte.eqb e "\" = false) by (destruct c; simpl in Hc; by simplify_eq).
  rewrite He, unescape_loop_escape, <- !app_assoc. done.
Qed.

Lemma unescape_escape_first_witness :
  escape_byte ";" = Some ":"%byte /\ unescape (escape (bs "a;b;c")) = bs "a\:b;c".
Proof.
  split; [reflexivity|].
  apply (unescape_escape_first (bs "a") ";" ":" (bs "b;c"));
    [repeat constructor|reflexivity|discriminate].
Defined.

Lemma trim_end_rev_spec l : trim_end_rev l = drop_while is_ascii_whitespace l.
Proof. induction l as [|b l IH]; simpl; [done|]. by destruct (is_ascii_whitespace b). Qed.

Lemma trim_start_spec l : trim_start l = drop_while is_ascii_whitespace l.
Proof. induction l as [|b l IH]; simpl; [done|]. by destruct (is_ascii_whitespace b). Qed.

Lemma trim_ascii_parts side l :
  exists pre post, l = pre ++ cow_ref (transformed (TrimAscii side l)) ++ post /\
    Forall (fun b => is_ascii_whitespace b = true) pre /\
    Forall (fun b => is_ascii_whitespace b = true) post /\
    (side = Start -> post = []) /\ (side = End -> pre = []) /\
    (side <> End -> forall b, head (cow_ref (transformed (TrimAscii side l))) = Some b ->
       is_ascii_whitespace b = false) /\
    (side <> Start -> forall b, last (cow_ref (transformed (TrimAscii side l))) = Some b ->
       is_ascii_whitespace b = false).
Proof.
  unfold TrimAscii; simpl. rewrite trim_start_spec, trim_end_rev_spec.
  set (m := if bool_decide (side = Start) then l else rev (drop_while is_ascii_whitespace (rev l))).
  set (post := if bool_decide (side = Start) then []
               else rev (take_while is_ascii_whitespace (rev l))).
  assert (Hl : l = m ++ post).
  { unfold m, post. case_bool_decide; [by rewrite app_nil_r|].
    rewrite <- rev_app_distr, take_drop_while. by rewrite rev_involutive. }
  assert (Hpost : Forall (fun b => is_ascii_whitespace b = true) post).
  { unfold post. case_bool_decide; [constructor|]. apply List.Forall_rev, take_while_Forall. }
  assert (Hm : side <> Start -> forall b, last m = Some b -> is_ascii_whitespace b = false).
  { unfold m. intros Hs b. rewrite bool_decide_eq_false_2 by done.
    destruct (drop_while is_ascii_whitespace (rev l)) as [|x r] eqn:E; [done|].
    simpl. rewrite last_snoc. intros [= <-]. by apply drop_while_head in E. }
  case_bool_decide as He.
  - exists [], post. split_and!; try done. intros Hs. by rewrite He in Hs.
  - exists (take_while is_ascii_whitespace m), post.
    assert (Hlast : forall b, last (drop_while is_ascii_whitespace m) = Some b -> last m = Some b).
    { intros b Hb. rewrite <- (take_drop_while is_ascii_whitespace m). rewrite last_app.
      by rewrite Hb. }
    rewrite app_assoc, take_drop_while. split_and!; try done.
    + apply take_while_Forall.
    + intros ->. unfold post. by rewrite bool_decide_eq_true_2.
    + intros _ b Hb. destruct (drop_while _ m) eqn:E; [done|]. injection Hb as ->.
      by apply drop_while_head in E.
    + intros Hs b Hb. eauto.
Qed.

Lemma trim_ascii_policy side l :
  policy_sound PPreserveStrict l (cow_ref (transformed (TrimAscii side l))).
Proof.
  destruct (trim_ascii_parts side l) as (pre & post & Hl & H1 & H2 & _).
  assert (Hws : forall l', Forall (fun b => is_ascii_whitespace b = true) l' -> all_ascii l' = true).
  { intros l' Hf. apply Forall_forallb. eapply Forall_impl; [exact Hf|].
    cbv beta. intros b. by byte_cases b. }
  cbn [policy_sound]. revert Hl. generalize (cow_ref (transformed (TrimAscii side l))) as t.
  intros t ->. rewrite utf8_app_ascii by auto.
  destruct post as [|x post]; [by rewrite app_nil_r|].
  inversion H2 as [|? ? Hx H2']; subst.
  assert (Hxa : is_ascii x = true) by (clear - Hx; by byte_cases x).
  destruct (utf8_valid (t ++ x :: post)) eqn:E.
  - by apply utf8_split in E as [? _].
  - destruct (utf8_valid t) eqn:Et; [|done].
    rewrite utf8_app in E; [done|done|]. apply utf8_all_ascii. by apply Hws.
Qed.

(** [TrimAscii] removes whitespace from the requested sides only: the
    result is a contiguous part of the input, the parts removed are all
    whitespace, a trimmed side has none left and an untrimmed side is
    untouched; and its claim that the result is UTF-8 exactly when the input
    was is true. *)
Theorem trim_ascii_correct side l :
  exists pre post, l = pre ++ cow_ref (transformed (TrimAscii side l)) ++ post /\
    Forall (fun b => is_ascii_whitespace b = true) pre /\
    Forall (fun b => is_ascii_whitespace b = true) post /\
    (side = Start -> post = []) /\ (side = End -> pre = []) /\
    (side <> End -> forall b, head (cow_ref (transformed (TrimAscii side l))) = Some b ->
       is_ascii_whitespace b = false) /\
    (side <> Start -> forall b, last (cow_ref (transformed (TrimAscii side l))) = Some b ->
       is_ascii_whitespace b = false) /\
  policy_sound (tf_utf8 (TrimAscii side l)) l (cow_ref (transformed (TrimAscii side l))).
Proof.
  destruct (trim_ascii_parts side l) as (pre & post & Hl). exists pre, post.
  split_and!; try apply Hl. apply trim_ascii_policy.
Qed.
