(* ===== verification/FlatMap.v ===== *)
(** * FlatMap

    [src/util/flatmap.rs]: the sorted-vector map behind [Tags], [NameMap] and
    [ClientState], with its edit guard.  Elements carry their key
    ([KeyExtractor]); a map is the vector.  The guard keeps the vector with its
    length set to the end of the sorted part ([sorted_until], the [Vec] length)
    and the real length apart; elements past [sorted_until] are unsorted. *)

From S2P Require Import Prelude.
From Stdlib Require Import Sorting.Sorted Sorting.Permutation.

Section FlatMap.
Context {E K : Type} `{KeyOrd K} (extract_key : E -> K).

(** ** Definitions *)

Definition ecmp (l r : E) : comparison := kcmp (extract_key l) (extract_key r).

(** [slice::sort_by], a stable sort. *)
Fixpoint sort_insert (x : E) (l : list E) : list E :=
  match l with
  | [] => [x]
  | y :: l' => match ecmp x y with Gt => y :: sort_insert x l' | _ => x :: l end
  end.

Definition sort_by (l : list E) : list E := foldr sort_insert [] l.

(** The pointer loop of [do_dedup]: [done] is what lies before [ptr1],
    [cur] the element at [ptr1]; on equal keys the newer element replaces it. *)
Fixpoint do_dedup_loop (done : list E) (cur : E) (rest : list E) : list E :=
  match rest with
  | [] => done ++ [cur]
  | e :: rest =>
      if bool_decide (extract_key cur <> extract_key e) then do_dedup_loop (done ++ [cur]) e rest
      else do_dedup_loop done e rest
  end.

Definition do_dedup (vec : list E) : list E :=
  match vec with
  | [] => vec
  | e :: rest => if length vec <? 2 then vec else do_dedup_loop [] e rest
  end.

Definition from_vec (vec : list E) : list E := do_dedup (sort_by vec).

Definition singleton (e : E) : list E := [e].

(** [slice::binary_search_by] on the range [left, right): [inl] is [Ok]. *)
Fixpoint bsearch (fuel : nat) (cmp : E -> comparison) (l : list E) (left right : nat) : nat + nat :=
  match fuel with
  | 0 => inr left
  | S fuel =>
      if left <? right then
        let mid := left + (right - left) / 2 in
        match l !! mid with
        | Some e =>
            match cmp e with
            | Lt => bsearch fuel cmp l (mid + 1) right
            | Gt => bsearch fuel cmp l left mid
            | Eq => inl mid
            end
        | None => inr left
        end
      else inr left
  end.

Definition binary_search_by (cmp : E -> comparison) (l : list E) : nat + nat :=
  bsearch (length l) cmp l 0 (length l).

(** [get_impl]. *)
Definition get_impl (pairs : list E) (sorted_until : nat) (key : K) : option nat :=
  let sorted := take sorted_until pairs in
  let unsorted := drop sorted_until pairs in
  match binary_search_by (fun v => kcmp (extract_key v) key) sorted with
  | inl i => Some i
  | inr v =>
      if v <? sorted_until then None
      else (fun idx => idx + sorted_until) <$>
             position (fun v => bool_decide (extract_key v = key)) unsorted
  end.

Definition get (m : list E) (key : K) : option E :=
  match get_impl m (length m) key with
  | Some idx => m !! idx
  | None => None
  end.

(** ** The edit guard *)

Record EditGuard := mkGuard { src : list E; sorted_until : nat }.

Definition edit (m : list E) : EditGuard := mkGuard m (length m).

(** [Drop]: sort if an unsorted element was pushed.  [sort_unstable_by] leaves
    the order of equal keys open; nothing below depends on it. *)
Definition guard_drop (g : EditGuard) : list E :=
  if sorted_until g <? length (src g) then sort_by (src g) else src g.

Definition guard_len (g : EditGuard) : nat := sorted_until g.

Definition get_idx (g : EditGuard) (key : K) : option nat :=
  get_impl (src g) (sorted_until g) key.

Definition guard_get (g : EditGuard) (key : K) : option E :=
  match get_idx g key with
  | Some idx => src g !! idx
  | None => None
  end.

(** [push]; the [nat] is the index of the returned reference,
    [ptr.add(real_len)] after [real_len] was incremented. *)
Definition push (g : EditGuard) (elem : E) : nat * EditGuard :=
  let key := extract_key elem in
  let is_sorted :=
    (sorted_until g =? length (src g)) &&
    match last (src g) with
    | Some e => match kcmp key (extract_key e) with Gt => true | _ => false end
    | None => true
    end in
  let src' := src g ++ [elem] in
  (length src', mkGuard src' (sorted_until g + (if is_sorted then 1 else 0))).

Definition insert (g : EditGuard) (elem : E) : option E * EditGuard :=
  match get_idx g (extract_key elem) with
  | Some idx => (src g !! idx, mkGuard (<[idx := elem]> (src g)) (sorted_until g))
  | None => (None, (push g elem).2)
  end.

Definition try_insert (g : EditGuard) (elem : E) : option E * EditGuard :=
  match get_idx g (extract_key elem) with
  | Some _ => (Some elem, g)
  | None => (None, (push g elem).2)
  end.

(** [get_or_insert]: the index of the reference and the rejected element. *)
Definition get_or_insert (g : EditGuard) (elem : E) : nat * option E * EditGuard :=
  match get_idx g (extract_key elem) with
  | Some idx => (idx, Some elem, g)
  | None => let (i, g') := push g elem in (i, None, g')
  end.

(** [remove]; the outer [None] is the panic of [Vec::swap_remove] when the
    index is not below the [Vec] length, which is [sorted_until].  Otherwise
    the element at the end of the sorted part is copied over the removed one,
    [real_len] shrinks by one and the sorted part ends at the hole. *)
Definition remove (g : EditGuard) (key : K) : option (option E * EditGuard) :=
  match get_idx g key with
  | None => Some (None, g)
  | Some idx =>
      if idx <? sorted_until g then
        match src g !! idx, src g !! (sorted_until g - 1) with
        | Some retval, Some l =>
            Some (Some retval,
                  mkGuard (take (length (src g) - 1) (<[idx := l]> (src g))) idx)
        | _, _ => None
        end
      else None
  end.

Definition guard_clear (g : EditGuard) : EditGuard := mkGuard [] 0.

(** Strict key order: the invariant of a [FlatMap]. *)
Definition klt (a b : E) : Prop := kcmp (extract_key a) (extract_key b) = Lt.
Definition kle (a b : E) : Prop := kcmp (extract_key a) (extract_key b) <> Gt.
Definition sorted (m : list E) : Prop := StronglySorted klt m.

(** ** Order lemmas *)

Lemma klt_trans a b c : klt a b -> klt b c -> klt a c.
Proof. apply kcmp_trans. Qed.

Lemma klt_irrefl a : ~ klt a a.
Proof. apply kcmp_irrefl. Qed.

Lemma klt_neq a b : klt a b -> extract_key a <> extract_key b.
Proof. unfold klt. intros Hl Heq. rewrite Heq, kcmp_refl in Hl. discriminate. Qed.

Lemma kle_cases a b : kle a b <-> klt a b \/ extract_key a = extract_key b.
Proof. unfold kle, klt. rewrite <- kcmp_eq. destruct (kcmp _ _); naive_solver. Qed.

Lemma kle_trans a b c : kle a b -> kle b c -> kle a c.
Proof.
  rewrite !kle_cases. unfold klt. intros [?|Ha] [?|Hb]; [left; by eapply kcmp_trans|..].
  - left. by rewrite <- Hb.
  - left. by rewrite Ha.
  - right. congruence.
Qed.

Lemma not_kle a b : ~ kle a b -> klt b a.
Proof. unfold kle, klt. rewrite <- kcmp_gt. destruct (kcmp _ _); naive_solver. Qed.

Lemma sort_insert_perm x l : Permutation (sort_insert x l) (x :: l).
Proof.
  induction l as [|y l IH]; simpl; [done|]. destruct (ecmp x y); [done..|].
  rewrite IH. apply perm_swap.
Qed.

Lemma sort_by_perm l : Permutation (sort_by l) l.
Proof. induction l as [|x l IH]; simpl; [done|]. by rewrite sort_insert_perm, IH. Qed.

Lemma sort_insert_sorted x l : StronglySorted kle l -> StronglySorted kle (sort_insert x l).
Proof.
  induction 1 as [|y l Hs IH Hf]; simpl; [by repeat constructor|].
  assert (Hx : kle x y -> StronglySorted kle (x :: y :: l)).
  { intros Hxy. constructor; [by constructor|]. constructor; [done|].
    eapply Forall_impl; [exact Hf|]. intros z. by apply kle_trans. }
  unfold ecmp. destruct (kcmp _ _) eqn:Ec; [by apply Hx; unfold kle; rewrite Ec..|].
  constructor; [done|]. rewrite sort_insert_perm. constructor; [|done].
  unfold kle. apply kcmp_gt in Ec. by rewrite Ec.
Qed.

Lemma sort_by_sorted l : StronglySorted kle (sort_by l).
Proof. induction l; simpl; [constructor|]. by apply sort_insert_sorted. Qed.

(** ** Binary search *)

Lemma bsearch_spec cmp l fuel left right :
  right - left <= fuel -> left <= right <= length l ->
  (forall i e, i < left -> l !! i = Some e -> cmp e = Lt) ->
  (forall i e, right <= i -> l !! i = Some e -> cmp e = Gt) ->
  (forall i j a b, i < j -> l !! i = Some a -> l !! j = Some b ->
     (cmp b = Lt -> cmp a = Lt) /\ (cmp a = Gt -> cmp b = Gt)) ->
  match bsearch fuel cmp l left right with
  | inl i => exists e, l !! i = Some e /\ cmp e = Eq
  | inr i => i <= length l /\ (forall j e, j < i -> l !! j = Some e -> cmp e = Lt) /\
             (forall j e, i <= j -> l !! j = Some e -> cmp e = Gt)
  end.
Proof.
  revert left right. induction fuel as [|fuel IH]; intros left right Hf Hr Hlo Hhi Hm;
    cbn [bsearch].
  { assert (left = right) as -> by lia. split; [lia|done]. }
  destruct (Nat.ltb_spec left right) as [Hlt|Hlt]; [|assert (left = right) as -> by lia; split; [lia|done]].
  assert (Hd : (right - left) / 2 < right - left) by (apply Nat.div_lt; lia).
  set (mid := left + (right - left) / 2).
  destruct (lookup_lt_is_Some_2 l mid) as [e He]; [unfold mid; lia|]. rewrite He.
  destruct (cmp e) eqn:Ec.
  - by exists e.
  - apply IH; [unfold mid; lia..| |done|done].
    intros i a Hi Ha. destruct (decide (i = mid)) as [->|]; [congruence|].
    destruct (Hm i mid a e) as [H1 _]; [unfold mid in *; lia|done..|]. auto.
  - apply IH; [unfold mid; lia..|done| |done].
    intros i a Hi Ha. destruct (decide (i = mid)) as [->|]; [congruence|].
    destruct (Hm mid i e a) as [_ H1]; [unfold mid in *; lia|done..|]. auto.
Qed.

Lemma sorted_lookup_lt m i j a b :
  sorted m -> i < j -> m !! i = Some a -> m !! j = Some b -> klt a b.
Proof.
  intros Hs. revert i j. induction Hs as [|x m Hs IH Hf]; intros i j Hij Ha Hb; [done|].
  destruct j as [|j]; [lia|]. simpl in Hb. destruct i as [|i]; simpl in Ha.
  - injection Ha as ->. rewrite List.Forall_forall in Hf. apply Hf, list_elem_of_In.
    by eapply list_elem_of_lookup_2.
  - apply (IH i j); [lia|done..].
Qed.

(** Monotonicity of the search comparison on a sorted vector. *)
Lemma sorted_cmp_mono m key i j a b :
  sorted m -> i < j -> m !! i = Some a -> m !! j = Some b ->
  (kcmp (extract_key b) key = Lt -> kcmp (extract_key a) key = Lt) /\
  (kcmp (extract_key a) key = Gt -> kcmp (extract_key b) key = Gt).
Proof.
  intros Hs Hij Ha Hb. pose proof (sorted_lookup_lt _ _ _ _ _ Hs Hij Ha Hb) as Hl.
  unfold klt in Hl. split; [by apply kcmp_trans|].
  rewrite !kcmp_gt. intros Hg. by eapply kcmp_trans.
Qed.

Lemma binary_search_sorted m key :
  sorted m ->
  match binary_search_by (fun v => kcmp (extract_key v) key) m with
  | inl i => exists e, m !! i = Some e /\ extract_key e = key
  | inr i => i <= length m /\
             (forall j e, j < i -> m !! j = Some e -> kcmp (extract_key e) key = Lt) /\
             (forall j e, i <= j -> m !! j = Some e -> kcmp (extract_key e) key = Gt)
  end.
Proof.
  intros Hs.
  pose proof (bsearch_spec (fun v => kcmp (extract_key v) key) m (length m) 0 (length m)) as Hb.
  unfold binary_search_by. revert Hb.
  destruct (bsearch _ _ _ _ _) as [i|i]; intros Hb.
  - destruct Hb as (e & He & Hk); [lia..| | | |]; try (intros; lia).
    + intros i' e Hge He. by rewrite lookup_ge_None_2 in He.
    + intros ?????? Ha. by eapply sorted_cmp_mono.
    + exists e. split; [done|]. by apply kcmp_eq.
  - apply Hb; [lia..| | |]; try (intros; lia).
    + intros i' e Hge He. by rewrite lookup_ge_None_2 in He.
    + intros ?????? Ha. by eapply sorted_cmp_mono.
Qed.

Lemma sorted_app m1 m2 : sorted (m1 ++ m2) <->
  sorted m1 /\ sorted m2 /\ (forall a b, a ∈ m1 -> b ∈ m2 -> klt a b).
Proof.
  unfold sorted. induction m1 as [|x m1 IH]; simpl.
  - split; [|tauto]. intros Hs. split; [constructor|]. split; [done|]. intros a b Ha. by apply elem_of_nil in Ha.
  - split.
    + intros Hs. inversion Hs as [|? ? Hs' Hf]; subst. apply IH in Hs' as (H1 & H2 & H3).
      apply List.Forall_app in Hf as [Hf1 Hf2].
      split; [by constructor|]. split; [done|]. intros a b [->|Ha]%elem_of_cons Hb; [|auto].
      rewrite List.Forall_forall in Hf2. by apply Hf2, list_elem_of_In.
    + intros (H1 & H2 & H3). inversion H1 as [|? ? H1' Hf]; subst. constructor.
      * apply IH. split; [done|]. split; [done|]. intros a b Ha Hb. apply H3; [by right|done].
      * apply List.Forall_app. split; [done|]. apply List.Forall_forall. intros b Hb.
        apply H3; [by left|by apply list_elem_of_In].
Qed.

Lemma sorted_take_drop m n : sorted m -> sorted (take n m) /\ sorted (drop n m).
Proof. rewrite <- (take_drop n m) at 1. rewrite sorted_app. tauto. Qed.

Lemma sorted_key_inj m a b : sorted m -> a ∈ m -> b ∈ m -> extract_key a = extract_key b -> a = b.
Proof.
  intros Hs [i Hi]%list_elem_of_lookup [j Hj]%list_elem_of_lookup Hk.
  destruct (Nat.lt_trichotomy i j) as [Hij|[->|Hij]]; [|congruence|].
  - by destruct (klt_neq _ _ (sorted_lookup_lt _ _ _ _ _ Hs Hij Hi Hj)).
  - by destruct (klt_neq _ _ (sorted_lookup_lt _ _ _ _ _ Hs Hij Hj Hi)).
Qed.

(** ** Lookup on a whole map *)

(** [get_impl] on a vector that is entirely sorted. *)
Lemma get_impl_sorted m key :
  sorted m ->
  match get_impl m (length m) key with
  | Some i => exists e, m !! i = Some e /\ extract_key e = key
  | None => forall e, e ∈ m -> extract_key e <> key
  end.
Proof.
  intros Hs. unfold get_impl. rewrite firstn_all, drop_all. simpl.
  pose proof (binary_search_sorted m key Hs) as Hb.
  destruct (binary_search_by _ m) as [i|i]; [done|].
  destruct Hb as (Hi & Hlo & Hhi).
  assert (Hn : forall e, e ∈ m -> extract_key e <> key).
  { intros e [j Hj]%list_elem_of_lookup <-.
    destruct (Nat.lt_ge_cases j i) as [Hc|Hc]; [apply (Hlo _ _ Hc) in Hj|apply (Hhi _ _ Hc) in Hj];
      by rewrite kcmp_refl in Hj. }
  by destruct (i <? length m).
Qed.

Lemma get_sorted m key e : sorted m -> get m key = Some e <-> e ∈ m /\ extract_key e = key.
Proof.
  intros Hs. unfold get. pose proof (get_impl_sorted m key Hs) as Hg.
  destruct (get_impl m (length m) key) as [i|].
  - destruct Hg as (e' & He' & Hk). rewrite He'. split.
    + intros [= <-]. split; [by eapply list_elem_of_lookup_2|done].
    + intros [He Hk']. f_equal. apply (sorted_key_inj m); [done| |done|congruence].
      by eapply list_elem_of_lookup_2.
  - split; [done|]. intros [He Hk]. by apply Hg in He.
Qed.

Lemma get_None m key : sorted m -> get m key = None <-> forall e, e ∈ m -> extract_key e <> key.
Proof.
  intros Hs. split.
  - intros Hg e He Hk. assert (Hg' : get m key = Some e) by (by apply get_sorted). congruence.
  - intros Hn. destruct (get m key) as [e|] eqn:Hg; [|done].
    apply get_sorted in Hg as [He Hk]; [|done]. by apply Hn in He.
Qed.

(** ** Edits *)

Lemma guard_drop_sorted_id g : sorted_until g = length (src g) -> guard_drop g = src g.
Proof. intros Hg. unfold guard_drop. rewrite Hg, Nat.ltb_irrefl. done. Qed.

Lemma kle_nodup_sorted m : NoDup (extract_key <$> m) -> StronglySorted kle m -> sorted m.
Proof.
  intros Hn Hs. revert Hn. induction Hs as [|x m Hs IH Hf]; [constructor|].
  cbn. intros [Hx Hn]%NoDup_cons. constructor; [by apply IH|].
  apply List.Forall_forall. intros y Hy. rewrite List.Forall_forall in Hf.
  destruct (proj1 (kle_cases x y) (Hf y Hy)) as [|Hk]; [done|].
  destruct Hx. rewrite Hk. apply list_elem_of_fmap. exists y. split; [done|]. by apply list_elem_of_In.
Qed.

Lemma sorted_nodup m : sorted m -> NoDup (extract_key <$> m).
Proof.
  induction 1 as [|x m Hs IH Hf]; cbn; constructor; [|done].
  intros (y & Hk & Hy)%list_elem_of_fmap. rewrite List.Forall_forall in Hf.
  apply list_elem_of_In in Hy. by apply (klt_neq x y (Hf y Hy)).
Qed.

(** Sorting a vector without duplicate keys establishes the invariant. *)
Lemma sort_by_nodup m : NoDup (extract_key <$> m) -> sorted (sort_by m).
Proof.
  intros Hn. apply kle_nodup_sorted; [|apply sort_by_sorted]. by rewrite sort_by_perm.
Qed.

Lemma guard_drop_perm g : Permutation (guard_drop g) (src g).
Proof. unfold guard_drop. case_match; [apply sort_by_perm|done]. Qed.

(** Dropping a guard over distinct keys restores the invariant, provided the
    sorted part is all there is or the vector gets sorted. *)
Lemma guard_drop_sorted g :
  NoDup (extract_key <$> src g) -> sorted (take (sorted_until g) (src g)) ->
  sorted (guard_drop g).
Proof.
  intros Hn Hs. unfold guard_drop. destruct (Nat.ltb_spec (sorted_until g) (length (src g))).
  - by apply sort_by_nodup.
  - by rewrite take_ge in Hs.
Qed.

Lemma insert_replaced_sorted m i e e' :
  sorted m -> m !! i = Some e -> extract_key e' = extract_key e -> sorted (<[i:=e']> m).
Proof.
  intros Hs Hi Hk. pose proof (lookup_lt_Some _ _ _ Hi) as Hl.
  rewrite insert_take_drop by done. rewrite <- (take_drop_middle m i e Hi) in Hs.
  apply sorted_app in Hs as (H1 & H2 & H3). apply sorted_app.
  split; [done|]. inversion H2 as [|? ? H2' Hf]; subst. split.
  - constructor; [done|]. eapply Forall_impl; [exact Hf|]. unfold klt. by rewrite Hk.
  - intros a b Ha [->|Hb]%elem_of_cons.
    + unfold klt. rewrite Hk. apply H3; [done|by left].
    + apply H3; [done|by right].
Qed.

Lemma push_sorted m elem :
  sorted m -> (forall e, e ∈ m -> extract_key e <> extract_key elem) ->
  let g := (push (edit m) elem).2 in
  src g = m ++ [elem] /\ NoDup (extract_key <$> src g) /\ sorted (take (sorted_until g) (src g)).
Proof.
  intros Hs Hn. unfold push; simpl. split; [done|]. split.
  - rewrite fmap_app. apply NoDup_app. split; [by apply sorted_nodup|]. split; [|by apply NoDup_singleton].
    intros k (e & -> & He)%list_elem_of_fmap Hk%list_elem_of_singleton. by apply (Hn e).
  - rewrite Nat.eqb_refl. simpl. destruct (last m) as [e|] eqn:Hl.
    + apply last_Some in Hl as [m' ->]. set (m := m' ++ [e]) in *.
      destruct (kcmp (extract_key elem) (extract_key e)) eqn:Ec;
        rewrite ?Nat.add_0_r, ?take_app_length; try done.
      rewrite Nat.add_1_r. replace (S (length m)) with (length (m ++ [elem])) by (rewrite length_app; simpl; lia).
      rewrite firstn_all. apply sorted_app. split; [done|]. split; [repeat constructor|].
      intros a b Ha Hb%list_elem_of_singleton. subst b. apply kcmp_gt in Ec.
      unfold m in Ha, Hs. apply sorted_app in Hs as (_ & _ & H3).
      apply elem_of_app in Ha as [Ha|Ha%list_elem_of_singleton]; [|by subst].
      eapply klt_trans; [apply H3; [done|by left]|done].
    + apply last_None in Hl as ->. simpl. repeat constructor.
Qed.

(** ** Deduplication *)

(** The elements with key [k], in order. *)
Definition with_key (k : K) (l : list E) : list E := filter (fun e => extract_key e = k) l.

Lemma with_key_sort_insert k x l :
  with_key k (sort_insert x l) = with_key k (x :: l).
Proof.
  induction l as [|y l IH]; [done|]. simpl. unfold ecmp.
  destruct (kcmp (extract_key x) (extract_key y)) eqn:Ec; [done..|].
  unfold with_key in *. rewrite filter_cons, IH, !filter_cons.
  destruct (decide (extract_key x = k)) as [Hx|], (decide (extract_key y = k)) as [Hy|]; try done.
  by rewrite Hx, Hy, kcmp_refl in Ec.
Qed.

(** The sort is stable. *)
Lemma with_key_sort_by k l : with_key k (sort_by l) = with_key k l.
Proof.
  induction l as [|x l IH]; [done|]. simpl. rewrite with_key_sort_insert.
  unfold with_key in *. by rewrite !filter_cons, IH.
Qed.

Lemma do_dedup_loop_app done cur rest :
  do_dedup_loop done cur rest = done ++ do_dedup_loop [] cur rest.
Proof.
  revert done cur. induction rest as [|e rest IH]; intros d cur; simpl; [done|].
  case_bool_decide; [|apply IH]. rewrite IH, (IH [cur]). by rewrite <- app_assoc.
Qed.

Lemma do_dedup_loop_spec cur rest :
  StronglySorted kle (cur :: rest) ->
  let r := do_dedup_loop [] cur rest in
  sorted r /\ (forall e, e ∈ r -> kle cur e) /\
  forall k, with_key k r = option_list (last (with_key k (cur :: rest))).
Proof.
  revert cur. induction rest as [|e rest IH]; intros cur Hs; cbn [do_dedup_loop].
  - split; [repeat constructor|]. split.
    + intros e He%list_elem_of_singleton. subst e. unfold kle. by rewrite kcmp_refl.
    + intros k. unfold with_key. cbn [app]. rewrite filter_cons, filter_nil.
      by destruct (decide (extract_key cur = k)).
  - inversion Hs as [|? ? Hs' Hf]; subst. destruct (IH e Hs') as (Hr & Hle & Hk).
    inversion Hf as [|? ? Hce Hf']; subst. case_bool_decide as Hc.
    + cbn [app]. rewrite do_dedup_loop_app. set (r := do_dedup_loop [] e rest) in *.
      assert (Hlt : klt cur e) by (apply kle_cases in Hce as [?|?]; done).
      assert (Hlr : forall x, x ∈ r -> klt cur x).
      { intros x Hx. destruct (proj1 (kle_cases e x) (Hle x Hx)) as [Hex|Hex];
          [by eapply klt_trans|]. unfold klt in *. by rewrite <- Hex. }
      split; [|split].
      * apply sorted_app. split; [repeat constructor|]. split; [done|].
        intros a b Ha%list_elem_of_singleton Hb. subst a. by apply Hlr.
      * intros x [Hx%list_elem_of_singleton|Hx]%elem_of_app; [subst; unfold kle; by rewrite kcmp_refl|].
        apply kle_cases. left. by apply Hlr.
      * intros k. unfold with_key in *. rewrite filter_app, Hk, filter_cons.
        rewrite (filter_cons _ cur). destruct (decide (extract_key cur = k)) as [Hck|Hck]; [|done].
        assert (Hno : filter (fun e0 => extract_key e0 = k) (e :: rest) = []).
        { apply list_filter_nil. intros x Hx Hxk.
          assert (klt cur x) as Hcx.
          { apply elem_of_cons in Hx as [->|Hx]; [done|].
            destruct (proj1 (kle_cases cur x)) as [|Heq]; [|done|].
            { rewrite List.Forall_forall in Hf'. by apply Hf', list_elem_of_In. }
            inversion Hs' as [|? ? _ Hf2]; subst. rewrite List.Forall_forall in Hf2.
            apply list_elem_of_In in Hx. apply Hf2 in Hx.
            destruct (proj1 (kle_cases e x) Hx) as [Hex|Hex].
            - by eapply klt_trans.
            - congruence. }
          apply (klt_neq _ _ Hcx). congruence. }
        rewrite Hno. done.
    + split; [done|]. split.
      * intros x Hx. unfold kle in *. rewrite Hc. by apply Hle.
      * intros k. rewrite Hk. unfold with_key. rewrite !filter_cons, Hc.
        by destruct (decide (extract_key e = k)).
Qed.

Lemma from_vec_spec v :
  sorted (from_vec v) /\
  forall k, with_key k (from_vec v) = option_list (last (with_key k v)).
Proof.
  unfold from_vec, do_dedup. pose proof (sort_by_sorted v) as Hs.
  pose proof (fun k => with_key_sort_by k v) as Hk.
  destruct (sort_by v) as [|e l] eqn:El.
  { split; [constructor|]. intros k. by rewrite <- Hk. }
  destruct l as [|e' l].
  { simpl. split; [repeat constructor|]. intros k. rewrite <- Hk. unfold with_key.
    rewrite filter_cons, filter_nil. by destruct (decide (extract_key e = k)). }
  cbn [length Nat.ltb Nat.leb]. destruct (do_dedup_loop_spec e (e' :: l) Hs) as (H1 & _ & H2).
  split; [done|]. intros k. by rewrite H2, Hk.
Qed.

Lemma elem_of_with_key k e l : e ∈ with_key k l <-> e ∈ l /\ extract_key e = k.
Proof. unfold with_key. rewrite list_elem_of_filter. tauto. Qed.

(** A key of the result is looked up as the last element pushed for it. *)
Lemma get_from_vec v k : get (from_vec v) k = last (with_key k v).
Proof.
  destruct (from_vec_spec v) as [Hs Hk]. specialize (Hk k).
  destruct (last (with_key k v)) as [e|]; simpl in Hk.
  - apply get_sorted; [done|]. apply elem_of_with_key. rewrite Hk. by left.
  - apply get_None; [done|]. intros e He Hke.
    assert (Hw : e ∈ with_key k (from_vec v)) by (by apply elem_of_with_key).
    rewrite Hk in Hw. by apply elem_of_nil in Hw.
Qed.

(** A sorted vector of pairwise distinct keys is already what [from_vec]
    would make of it. *)
Lemma do_dedup_loop_sorted cur rest : sorted (cur :: rest) -> do_dedup_loop [] cur rest = cur :: rest.
Proof.
  revert cur. induction rest as [|e rest IH]; intros cur Hs; cbn [do_dedup_loop]; [done|].
  inversion Hs as [|? ? Hs' Hf]; subst. inversion Hf as [|? ? Hce _]; subst.
  rewrite bool_decide_eq_true_2 by (by apply klt_neq).
  rewrite do_dedup_loop_app. cbn [app]. by rewrite IH.
Qed.

Lemma sort_insert_lt x l : sorted (x :: l) -> sort_insert x l = x :: l.
Proof.
  intros Hs. destruct l as [|y l]; [done|]. cbn. inversion Hs as [|? ? _ Hf]; subst.
  inversion Hf as [|? ? Hxy _]; subst. unfold ecmp. unfold klt in Hxy. by rewrite Hxy.
Qed.

Lemma sort_by_id l : sorted l -> sort_by l = l.
Proof.
  induction l as [|x l IH]; intros Hs; [done|].
  change (sort_by (x :: l)) with (sort_insert x (sort_by l)).
  inversion Hs as [|? ? Hs' _]; subst. rewrite IH by done. by apply sort_insert_lt.
Qed.

Lemma from_vec_sorted l : sorted l -> from_vec l = l.
Proof.
  intros Hs. unfold from_vec. rewrite sort_by_id by done. unfold do_dedup.
  destruct l as [|e [|e' l]]; [done..|]. cbn [length Nat.ltb Nat.leb]. by apply do_dedup_loop_sorted.
Qed.

(** ** Theorems *)

Lemma get_ext m m' k :
  sorted m -> sorted m' -> (forall x, extract_key x = k -> (x ∈ m <-> x ∈ m')) ->
  get m k = get m' k.
Proof.
  intros Hs Hs' Hx. destruct (get m k) as [e|] eqn:E1.
  - apply get_sorted in E1 as [He Hk]; [|done]. symmetry. apply get_sorted; [done|].
    split; [by apply Hx|done].
  - symmetry. apply get_None; [done|]. intros e He Hk. rewrite get_None in E1 by done.
    apply (E1 e); [by apply Hx|done].
Qed.

Lemma elem_of_insert_replaced m i e e' x :
  sorted m -> m !! i = Some e -> extract_key e' = extract_key e ->
  x ∈ <[i:=e']> m <-> x = e' \/ (x ∈ m /\ extract_key x <> extract_key e).
Proof.
  intros Hs Hi Hk. pose proof (lookup_lt_Some _ _ _ Hi) as Hl.
  rewrite insert_take_drop by done.
  pose proof (take_drop_middle m i e Hi) as Hm.
  assert (Hs' := Hs). rewrite <- Hm in Hs'. apply sorted_app in Hs' as (_ & H2 & H3).
  inversion H2 as [|? ? _ Hf]; subst. rewrite elem_of_app, elem_of_cons. split.
  - intros [Hx|[->|Hx]]; [right|by left|right].
    + split; [rewrite <- Hm; apply elem_of_app; by left|].
      apply klt_neq, H3; [done|by left].
    + split; [rewrite <- Hm; apply elem_of_app; right; by right|].
      rewrite List.Forall_forall in Hf. apply list_elem_of_In in Hx. apply Hf in Hx.
      intros Heq. apply klt_neq in Hx. congruence.
  - intros [->|[Hx Hn]]; [by right; left|]. rewrite <- Hm in Hx.
    apply elem_of_app in Hx as [Hx|Hx]; [by left|].
    apply elem_of_cons in Hx as [->|Hx]; [done|]. by right; right.
Qed.

(** A map built from a vector is sorted by key without duplicates, and a
    key maps to the last element given for it, as a repeated tag must. *)
Theorem from_vec_correct v :
  sorted (from_vec v) /\ forall k, get (from_vec v) k = last (with_key k v).
Proof. split; [apply from_vec_spec|]. intros k. apply get_from_vec. Qed.

Lemma get_idx_edit m k :
  sorted m ->
  match get_idx (edit m) k with
  | Some i => exists e, m !! i = Some e /\ extract_key e = k /\ get m k = Some e
  | None => get m k = None /\ forall e, e ∈ m -> extract_key e <> k
  end.
Proof.
  intros Hs. unfold get_idx, edit, get; simpl. pose proof (get_impl_sorted m k Hs) as Hg.
  destruct (get_impl m (length m) k) as [i|]; [|done].
  destruct Hg as (e & He & Hk). by exists e.
Qed.

Lemma edit_insert_spec m e :
  sorted m ->
  let '(old, g) := insert (edit m) e in
  sorted (guard_drop g) /\ old = get m (extract_key e) /\
  get (guard_drop g) (extract_key e) = Some e /\
  forall k, k <> extract_key e -> get (guard_drop g) k = get m k.
Proof.
  intros Hs. unfold insert. pose proof (get_idx_edit m (extract_key e) Hs) as Hg.
  destruct (get_idx (edit m) (extract_key e)) as [i|].
  - destruct Hg as (e0 & Hi & Hk & Hg). simpl. rewrite Hg.
    rewrite guard_drop_sorted_id by (simpl; by rewrite length_insert). simpl.
    assert (Hs' : sorted (<[i:=e]> m)) by (by eapply insert_replaced_sorted).
    split; [done|]. split; [done|]. split.
    + apply get_sorted; [done|]. split; [|done]. eapply elem_of_insert_replaced; eauto.
    + intros k Hne. apply get_ext; [done..|]. intros x Hx.
      rewrite (elem_of_insert_replaced m i e0 e x) by done. rewrite Hk. split.
      * intros [->|[? _]]; [congruence|done].
      * intros Hm. right. split; [done|]. congruence.
  - destruct Hg as [Hg Hn]. destruct (push_sorted m e Hs Hn) as (Hsrc & Hnd & Hst).
    destruct (push (edit m) e) as [i g]. simpl in *.
    assert (Hs' : sorted (guard_drop g)) by (by apply guard_drop_sorted).
    assert (Hin : forall x, x ∈ guard_drop g <-> x ∈ m \/ x = e).
    { intros x. rewrite guard_drop_perm, Hsrc, elem_of_app, list_elem_of_singleton. done. }
    split; [done|]. split; [done|]. split.
    + apply get_sorted; [done|]. split; [|done]. apply Hin. by right.
    + intros k Hne. apply get_ext; [done..|]. intros x Hx. rewrite Hin.
      split; [intros [?| ->]; [done|congruence]|by left].
Qed.

(** C29: one insertion through an edit guard, then dropping the guard: the
    invariant holds again, the old value of the key is returned, the key maps
    to the new element and every other key is untouched. *)
Theorem edit_insert_correct m e :
  sorted m ->
  let '(old, g) := insert (edit m) e in
  sorted (guard_drop g) /\ old = get m (extract_key e) /\
  get (guard_drop g) (extract_key e) = Some e /\
  forall k, k <> extract_key e -> get (guard_drop g) k = get m k.
Proof. apply edit_insert_spec. Qed.

Lemma edit_remove_spec m k :
  sorted m ->
  exists old g, remove (edit m) k = Some (old, g) /\ old = get m k /\
    sorted (guard_drop g) /\ get (guard_drop g) k = None /\
    forall k', k' <> k -> get (guard_drop g) k' = get m k'.
Proof.
  intros Hs. unfold remove. pose proof (get_idx_edit m k Hs) as Hg.
  destruct (get_idx (edit m) k) as [i|].
  - destruct Hg as (e & Hi & Hk & Hg). simpl. pose proof (lookup_lt_Some _ _ _ Hi) as Hlt.
    rewrite (proj2 (Nat.ltb_lt _ _) Hlt), Hi.
    destruct (lookup_lt_is_Some_2 m (length m - 1)) as [l Hl]; [lia|].
    assert (Hlast : last m = Some l) by (rewrite last_lookup, <- Hl; f_equal; lia).
    rewrite Hl. eexists _, _. split; [done|]. split; [done|].
    set (r := take (length m - 1) (<[i:=l]> m)).
    pose proof (swap_remove_perm m i e l Hi Hlast) as Hp. fold r in Hp.
    assert (Hnd : NoDup (extract_key <$> e :: r)) by (rewrite Hp; by apply sorted_nodup).
    cbn in Hnd. apply NoDup_cons in Hnd as [Hne Hnd].
    assert (Hin : forall x, x ∈ guard_drop (mkGuard r i) <-> x ∈ m /\ extract_key x <> k).
    { intros x. rewrite guard_drop_perm. simpl. rewrite <- Hp, elem_of_cons. split.
      - intros Hx. split; [by right|]. intros Hxk. apply Hne.
        rewrite Hk, <- Hxk. apply list_elem_of_fmap. by exists x.
      - intros [[->|Hx] Hxk]; [done|done]. }
    assert (Hsd : sorted (guard_drop (mkGuard r i))).
    { apply guard_drop_sorted; [done|]. simpl. unfold r.
      rewrite take_take, Nat.min_l by lia. rewrite take_insert_ge by lia.
      by apply sorted_take_drop. }
    split; [done|]. split.
    + apply get_None; [done|]. intros x Hx. by apply Hin in Hx as [_ ?].
    + intros k' Hk'. apply get_ext; [done..|]. intros x Hx. rewrite Hin. naive_solver.
  - destruct Hg as [Hg Hn]. eexists _, _. split; [done|]. split; [done|].
    rewrite guard_drop_sorted_id by done. simpl. done.
Qed.

(** C30: one removal through an edit guard never panics, returns the element
    of the key, and leaves a sorted map without the key and with every other
    element. *)
Theorem edit_remove_correct m k :
  sorted m ->
  exists old g, remove (edit m) k = Some (old, g) /\ old = get m k /\
    sorted (guard_drop g) /\ get (guard_drop g) k = None /\
    forall k', k' <> k -> get (guard_drop g) k' = get m k'.
Proof. apply edit_remove_spec. Qed.

Lemma binary_search_all_lt m k :
  sorted m -> (forall e, e ∈ m -> kcmp (extract_key e) k = Lt) ->
  binary_search_by (fun v => kcmp (extract_key v) k) m = inr (length m).
Proof.
  intros Hs Hlt. pose proof (binary_search_sorted m k Hs) as Hb.
  destruct (binary_search_by _ m) as [i|i].
  - destruct Hb as (e & He & Hk). apply list_elem_of_lookup_2, Hlt in He.
    by rewrite Hk, kcmp_refl in He.
  - destruct Hb as (Hi & _ & Hhi). f_equal. destruct (decide (i = length m)) as [|Hne]; [done|].
    destruct (lookup_lt_is_Some_2 m i) as [e He]; [lia|].
    pose proof (Hhi i e ltac:(lia) He) as Hg. apply list_elem_of_lookup_2, Hlt in He. congruence.
Qed.

(** The unsorted part is searched for keys above the sorted part. *)
Lemma get_impl_unsorted l n k :
  sorted (take n l) -> n <= length l -> (forall e, e ∈ take n l -> kcmp (extract_key e) k = Lt) ->
  get_impl l n k =
  (fun idx => idx + n) <$> position (fun v => bool_decide (extract_key v = k)) (drop n l).
Proof.
  intros Hs Hn Hlt. unfold get_impl. rewrite binary_search_all_lt by done.
  rewrite length_take, Nat.min_l, Nat.ltb_irrefl by done. done.
Qed.

Lemma position_key_Some k l e :
  e ∈ l -> extract_key e = k ->
  exists i, position (fun v => bool_decide (extract_key v = k)) l = Some i.
Proof.
  intros He Hk. destruct (position _ l) as [i|] eqn:P; [by exists i|].
  apply position_None in P. rewrite List.Forall_forall in P.
  apply list_elem_of_In, P in He. by rewrite bool_decide_eq_false in He.
Qed.

(** Removing two present keys in ascending order through the same guard
    panics: the first removal shortens the vector to the hole, and the second
    index is then out of the range [swap_remove] accepts. *)
Theorem remove_twice_panics m k1 k2 e1 e2 :
  sorted m -> get m k1 = Some e1 -> get m k2 = Some e2 -> kcmp k1 k2 = Lt ->
  exists g, remove (edit m) k1 = Some (Some e1, g) /\ remove g k2 = None.
Proof.
  intros Hs Hg1 Hg2 Hlt. pose proof (get_idx_edit m k1 Hs) as Hi.
  apply get_sorted in Hg2 as [He2 Hk2]; [|done]. unfold remove at 1.
  destruct (get_idx (edit m) k1) as [i|]; [|destruct Hi; congruence].
  destruct Hi as (e & Hi & Hk & Hg). rewrite Hg1 in Hg. injection Hg as ->.
  pose proof (lookup_lt_Some _ _ _ Hi) as Hl. simpl.
  rewrite (proj2 (Nat.ltb_lt _ _) Hl), Hi.
  destruct (lookup_lt_is_Some_2 m (length m - 1)) as [l Hlst]; [lia|].
  assert (Hlast : last m = Some l) by (rewrite last_lookup, <- Hlst; f_equal; lia).
  rewrite Hlst. eexists. split; [done|].
  set (r := take (length m - 1) (<[i:=l]> m)).
  pose proof (swap_remove_perm m i e l Hi Hlast) as Hp. fold r in Hp.
  assert (Ht : take i r = take i m).
  { unfold r. rewrite take_take, Nat.min_l by lia. by rewrite take_insert_ge by lia. }
  assert (Hlt' : forall x, x ∈ take i r -> kcmp (extract_key x) k2 = Lt).
  { intros x Hx. rewrite Ht in Hx. rewrite <- (take_drop_middle m i e Hi) in Hs.
    apply sorted_app in Hs as (_ & _ & H3). eapply kcmp_trans; [|exact Hlt].
    rewrite <- Hk. apply H3; [done|by left]. }
  destruct (position_key_Some k2 (drop i r) e2) as [p Hpos]; [|done|].
  - rewrite <- Hp in He2. apply elem_of_cons in He2 as [->|He2].
    { rewrite <- Hk2, Hk, kcmp_refl in Hlt. discriminate. }
    rewrite <- (take_drop i r) in He2. apply elem_of_app in He2 as [He2|]; [|done].
    apply Hlt' in He2. by rewrite Hk2, kcmp_refl in He2.
  - unfold remove, get_idx; simpl. rewrite get_impl_unsorted, Hpos.
    + simpl. destruct (Nat.ltb_spec (p + i) i); [lia|done].
    + rewrite Ht. by apply sorted_take_drop.
    + unfold r. rewrite length_take, length_insert. lia.
    + done.
Qed.

(** An element pushed below the largest key of the map cannot be seen by
    the same guard: inserting its key again reports no old value, and the
    finished map holds the key twice. *)
Theorem insert_hidden_duplicate m l e e' :
  sorted m -> last m = Some l -> kcmp (extract_key e) (extract_key l) = Lt ->
  get m (extract_key e) = None -> extract_key e' = extract_key e ->
  let '(old, g) := insert (edit m) e in
  let '(old', g') := insert g e' in
  old = None /\ old' = None /\ Permutation (guard_drop g') (m ++ [e; e']) /\ ~ sorted (guard_drop g').
Proof.
  intros Hs Hl Hlt Hn Hk. pose proof (get_idx_edit m (extract_key e) Hs) as Hi.
  unfold insert at 1. destruct (get_idx (edit m) (extract_key e)) as [i|].
  { destruct Hi as (? & _ & _ & Hc). congruence. }
  destruct Hi as [_ Hno]. unfold push; simpl. rewrite Nat.eqb_refl, Hl, Hlt. simpl.
  rewrite Nat.add_0_r. unfold insert. simpl.
  assert (Hidx : get_idx (mkGuard (m ++ [e]) (length m)) (extract_key e') = None).
  { unfold get_idx, get_impl; simpl. rewrite take_app_length, drop_app_length.
    pose proof (binary_search_sorted m (extract_key e') Hs) as Hb. rewrite Hk in *.
    destruct (binary_search_by _ m) as [i|i].
    - destruct Hb as (x & Hx & Hxk). apply list_elem_of_lookup_2, Hno in Hx. done.
    - destruct Hb as (Hle & Hlo & _). destruct (Nat.ltb_spec i (length m)) as [|Hge]; [done|].
      rewrite last_lookup in Hl.
      assert (0 < length m) by (destruct m; simpl in *; [done|lia]).
      exfalso. pose proof (Hlo (Nat.pred (length m)) l ltac:(lia) Hl) as Hc.
      apply kcmp_gt in Hc. congruence. }
  rewrite Hidx. split; [done|]. split; [done|]. unfold push; simpl.
  assert (Hp : Permutation (guard_drop (push (mkGuard (m ++ [e]) (length m)) e').2) (m ++ [e; e'])).
  { rewrite guard_drop_perm. simpl. by rewrite <- app_assoc. }
  split; [exact Hp|]. intros Hsd%sorted_nodup.
  change (NoDup (extract_key <$> guard_drop (push (mkGuard (m ++ [e]) (length m)) e').2)) in Hsd.
  rewrite Hp, fmap_app in Hsd. apply NoDup_app in Hsd as (_ & _ & Hsd). cbn in Hsd.
  apply NoDup_cons in Hsd as [Hsd _]. apply Hsd. rewrite Hk. by left.
Qed.
End FlatMap.

(** ** Witnesses *)

(** A map of tags keyed by their first component. *)
Definition sample : list (list byte * list byte) :=
  [(bs "a", bs "1"); (bs "c", bs "2"); (bs "e", bs "3")].

Lemma sample_sorted : sorted fst sample.
Proof. repeat constructor. Qed.

Lemma edit_insert_correct_witness :
  let '(old, g) := insert fst (edit sample) (bs "b", bs "9") in
  sorted fst (guard_drop fst g) /\ old = None.
Proof.
  pose proof (edit_insert_correct fst sample (bs "b", bs "9") sample_sorted) as H.
  destruct (insert fst (edit sample) (bs "b", bs "9")) as [old g].
  destruct H as (H1 & H2 & _). split; [exact H1|exact H2].
Defined.

Lemma edit_remove_correct_witness :
  exists old g, remove fst (edit sample) (bs "a") = Some (old, g) /\ sorted fst (guard_drop fst g) /\ old = Some (bs "a", bs "1").
Proof.
  destruct (edit_remove_correct fst sample (bs "a") sample_sorted) as (old & g & H1 & H2 & H3 & _).
  exists old, g. split; [exact H1|]. split; [exact H3|exact H2].
Defined.

Lemma remove_twice_panics_witness :
  exists g, remove fst (edit sample) (bs "a") = Some (Some (bs "a", bs "1"), g) /\ remove fst g (bs "c") = None.
Proof.
  exact (remove_twice_panics fst sample (bs "a") (bs "c") _ (bs "c", bs "2") sample_sorted
    eq_refl eq_refl eq_refl).
Defined.

Lemma insert_hidden_duplicate_witness :
  let '(_, g) := insert fst (edit sample) (bs "b", bs "9") in
  let '(old', g') := insert fst g (bs "b", bs "8") in
  old' = None /\ ~ sorted fst (guard_drop fst g').
Proof.
  pose proof (insert_hidden_duplicate fst sample (bs "e", bs "3") (bs "b", bs "9") (bs "b", bs "8")
    sample_sorted eq_refl eq_refl eq_refl eq_refl) as H.
  destruct (insert fst (edit sample) (bs "b", bs "9")) as [old g].
  destruct (insert fst g (bs "b", bs "8")) as [old' g'] eqn:E2.
  destruct H as (_ & H2 & _ & H4). split; [exact H2|exact H4].
Defined.
