(* ===== verification/FlatMapOps.v ===== *)
(** * More of [FlatMap]

    [src/util/flatmap.rs], [src/macros.rs]: what [FlatMap] leaves out, the views of
    a map and of its edit guard, updates through references, the traits that go
    to the vector; and what [remove] does to a guard that has unsorted
    elements. *)

From S2P Require Import Prelude FlatMap.

Section FlatMapOps.
Context {E K : Type} `{KeyOrd K} (extract_key : E -> K).

(** [KeyExtractor] for pairs. *)
Definition extract_pair {A B : Type} (elem : A * B) : A := elem.1.

(** ** The map *)

Definition new : list E := [].
Definition default : list E := new.
Definition clone (m : list E) : list E := m.
Definition len (m : list E) : nat := length m.
Definition is_empty (m : list E) : bool := match m with [] => true | _ => false end.
Definition as_slice (m : list E) : list E := m.
(** With what is done to the slice. *)
Definition as_slice_mut (m : list E) (f : list E -> list E) : list E := f m.
Definition clear (m : list E) : list E := [].
Definition from_iter (iter : list E) : list E := from_vec extract_key iter.

(** [get_mut], with what is done to the element. *)
Definition get_mut (m : list E) (key : K) (f : E -> E) : list E :=
  match get_impl extract_key m (length m) key with
  | Some idx => alter f idx m
  | None => m
  end.

(** Elements in turn, by their own equality and order. *)
Fixpoint eq (eq_elem : E -> E -> bool) (a b : list E) : bool :=
  match a, b with
  | [], [] => true
  | x :: a, y :: b => eq_elem x y && eq eq_elem a b
  | _, _ => false
  end.

Fixpoint cmp (cmp_elem : E -> E -> comparison) (a b : list E) : comparison :=
  match a, b with
  | [], [] => Eq
  | [], _ :: _ => Lt
  | _ :: _, [] => Gt
  | x :: a, y :: b => match cmp_elem x y with Eq => cmp cmp_elem a b | c => c end
  end.

Fixpoint partial_cmp (cmp_elem : E -> E -> option comparison) (a b : list E) : option comparison :=
  match a, b with
  | [], [] => Some Eq
  | [], _ :: _ => Some Lt
  | _ :: _, [] => Some Gt
  | x :: a, y :: b => match cmp_elem x y with Some Eq => partial_cmp cmp_elem a b | c => c end
  end.

Definition hash {S : Type} (hash_vec : list E -> S -> S) (m : list E) (state : S) : S := hash_vec m state.

(** ** The guard *)

Notation EditGuard := (@EditGuard E).

(** [collection_methods!(src)]: the vector's own length. *)
Definition guard_len (g : EditGuard) : nat := sorted_until g.
Definition guard_is_empty (g : EditGuard) : bool := sorted_until g =? 0.
Definition guard_as_slice (g : EditGuard) : list E := src g.

Definition guard_get_mut (g : EditGuard) (key : K) (f : E -> E) : EditGuard :=
  match get_idx extract_key g key with
  | Some idx => mkGuard (alter f idx (src g)) (sorted_until g)
  | None => g
  end.

(** ** Theorems *)

Lemma alter_lookup_insert (l : list E) i x f : l !! i = Some x -> alter f i l = <[i := f x]> l.
Proof. revert i. induction l as [|y l IH]; intros [|i] Hi; simplify_eq/=; [done|]. by rewrite IH. Qed.

(** Changing an element through [get_mut], of a map or of its guard,
    keeps the map sorted as long as its key stays, is what [get] sees
    afterwards, and leaves the others alone; a key that is not there changes
    nothing. *)
Theorem get_mut_correct m k f :
  sorted extract_key m -> (forall e, extract_key (f e) = extract_key e) ->
  let m' := get_mut m k f in
  sorted extract_key m' /\ get extract_key m' k = f <$> get extract_key m k /\
  (forall k', k' <> k -> get extract_key m' k' = get extract_key m k') /\
  guard_drop extract_key (guard_get_mut (edit m) k f) = m' /\
  length m' = length m /\ (get extract_key m k = None -> m' = m).
Proof.
  intros Hs Hf. cbv zeta. pose proof (get_idx_edit extract_key m k Hs) as Hg.
  assert (Hd : guard_drop extract_key (guard_get_mut (edit m) k f) = get_mut m k f).
  { unfold guard_get_mut, get_mut, get_idx, edit. cbn [src sorted_until].
    destruct (get_impl _ _ _ _); [|apply guard_drop_sorted_id; done].
    rewrite guard_drop_sorted_id; [done|]. cbn. by rewrite length_alter. }
  rewrite Hd. unfold get_mut. change (get_impl extract_key m (length m) k) with (get_idx extract_key (edit m) k).
  destruct (get_idx extract_key (edit m) k) as [i|]; [|destruct Hg as [-> _]; done].
  destruct Hg as (e & Hi & Hk & Hget). rewrite (alter_lookup_insert m i e f Hi), Hget.
  assert (Hs' : sorted extract_key (<[i := f e]> m)) by (eapply insert_replaced_sorted; eauto).
  split_and!; [done|..|done|by rewrite length_insert|done].
  - apply get_sorted; [done|]. split; [|by rewrite Hf]. eapply elem_of_insert_replaced; eauto.
  - intros k' Hne. apply get_ext; [done..|]. intros x Hx. rewrite (elem_of_insert_replaced extract_key m i e) by eauto. split.
    + intros [->|[? _]]; [|done]. rewrite Hf, Hk in Hx. by destruct Hne.
    + intros Hm. right. split; [done|]. congruence.
Qed.

(** What a guard counts is the sorted part: all of the map until
    something is pushed out of order or removed. *)
Lemma guard_len_sorted m : guard_len (edit m) = len m /\ guard_is_empty (edit m) = is_empty m.
Proof. split; [done|]. by destruct m. Qed.

(** After the smallest key is removed the guard says it is empty. *)
Theorem guard_len_after_remove m e :
  sorted extract_key (e :: m) ->
  exists g, remove extract_key (edit (e :: m)) (extract_key e) = Some (Some e, g) /\
    guard_len g = 0 /\ guard_is_empty g = true /\
    length (guard_as_slice g) = length m /\ Permutation (guard_drop extract_key g) m.
Proof.
  intros Hs. pose proof (get_idx_edit extract_key (e :: m) (extract_key e) Hs) as Hg.
  destruct (edit_remove_spec extract_key (e :: m) (extract_key e) Hs) as (old & g & Hr & _).
  unfold remove in *. destruct (get_idx extract_key (edit (e :: m)) (extract_key e)) as [i|].
  2:{ destruct Hg as [_ Hg]. by destruct (Hg e); [left|]. }
  destruct Hg as (e' & Hi & Hk & _). assert (e' = e) as ->.
  { apply (sorted_key_inj extract_key (e :: m)); [done|by eapply list_elem_of_lookup_2|by left|done]. }
  assert (i = 0) as ->.
  { apply sorted_nodup in Hs. apply (NoDup_lookup _ i 0 (extract_key e) Hs); [by rewrite list_lookup_fmap, Hi|done]. }
  clear Hr. cbn [src sorted_until edit length Nat.ltb Nat.leb lookup list_lookup].
  destruct (lookup_lt_is_Some_2 (e :: m) (S (length m) - 1)) as [l Hl]; [simpl; lia|]. rewrite Hl.
  eexists. split; [done|]. split; [done|]. split; [done|].
  assert (Hlast : last (e :: m) = Some l) by (rewrite last_lookup, <- Hl; f_equal; simpl; lia).
  pose proof (swap_remove_perm (e :: m) 0 e l eq_refl Hlast) as Hp. cbn [length] in Hp. apply Permutation_cons_inv in Hp.
  split.
  - exact (Permutation_length Hp).
  - rewrite guard_drop_perm. exact Hp.
Qed.

(** Removing through a guard that has elements out of order: the vector
    is taken to end where the sorted part does, so the element pushed last is
    lost, while the last sorted element is in the map twice, or, if it is the
    one removed, still in the map. *)
Theorem remove_with_pending g k idx e x :
  get_idx extract_key g k = Some idx -> src g !! idx = Some e ->
  idx < sorted_until g -> src g !! (sorted_until g - 1) = Some x ->
  forall pending, src g = pending ++ [List.last (src g) x] -> sorted_until g <= length pending ->
  exists g', remove extract_key g k = Some (Some e, g') /\
    guard_as_slice g' = <[idx := x]> pending /\
    guard_as_slice g' !! (sorted_until g - 1) = Some x /\ guard_as_slice g' !! idx = Some x.
Proof.
  intros Hk He Hlt Hx pending Hsrc Hlen. unfold remove. rewrite Hk, (proj2 (Nat.ltb_lt _ _)), He, Hx by done.
  eexists. split; [done|]. unfold guard_as_slice. cbn [src].
  assert (Ht : take (length (src g) - 1) (<[idx:=x]> (src g)) = <[idx := x]> pending).
  { rewrite Hsrc at 2. rewrite insert_app_l by lia.
    rewrite Hsrc, length_app, Nat.add_sub. by rewrite take_app_length' by (by rewrite length_insert). }
  rewrite Ht. split; [done|].
  assert (Hp : pending !! (sorted_until g - 1) = Some x).
  { rewrite Hsrc in Hx. by rewrite lookup_app_l in Hx by lia. }
  split; [|by rewrite list_lookup_insert_eq by lia].
  destruct (decide (idx = sorted_until g - 1)) as [->|Hne]; [by rewrite list_lookup_insert_eq by lia|].
  by rewrite list_lookup_insert_ne by done.
Qed.
End FlatMapOps.

(** ** Witnesses *)

Lemma get_mut_correct_witness :
  get fst (get_mut fst sample (bs "c") (fun e => (e.1, bs "x"))) (bs "c") = Some (bs "c", bs "x").
Proof.
  exact (proj1 (proj2 (get_mut_correct fst sample (bs "c") (fun e => (e.1, bs "x")) sample_sorted (fun _ => eq_refl)))).
Defined.

Lemma guard_len_after_remove_witness :
  exists g, remove fst (edit sample) (bs "a") = Some (Some (bs "a", bs "1"), g) /\ guard_len g = 0 /\ length (guard_as_slice g) = 2.
Proof.
  destruct (guard_len_after_remove fst [(bs "c", bs "2"); (bs "e", bs "3")] (bs "a", bs "1") sample_sorted)
    as (g & Hr & Hl & _ & Hn & _).
  exists g. split; [exact Hr|]. split; [exact Hl|exact Hn].
Defined.

(** Inserting [b] and then removing [c] loses [b] and leaves [e] twice. *)
Lemma remove_with_pending_witness :
  exists g', remove fst (insert fst (edit sample) (bs "b", bs "9")).2 (bs "c") = Some (Some (bs "c", bs "2"), g') /\
    guard_as_slice g' = [(bs "a", bs "1"); (bs "e", bs "3"); (bs "e", bs "3")].
Proof.
  assert (Hi : get_idx fst (insert fst (edit sample) (bs "b", bs "9")).2 (bs "c") = Some 1) by by vm_compute.
  assert (Hsrc : src (insert fst (edit sample) (bs "b", bs "9")).2 = sample ++ [(bs "b", bs "9")]) by by vm_compute.
  assert (Hn : sorted_until (insert fst (edit sample) (bs "b", bs "9")).2 = 3) by by vm_compute.
  destruct (remove_with_pending fst (insert fst (edit sample) (bs "b", bs "9")).2 (bs "c") 1 (bs "c", bs "2") (bs "e", bs "3") Hi)
    with (pending := sample) as (g' & Hr & Hs & _); try (rewrite ?Hsrc, ?Hn; done || (simpl; lia)).
  exists g'. split; [exact Hr|exact Hs].
Defined.
