(* ===== verification/BytesCell.v ===== *)
(** * Bytes

    [src/string/bytes.rs]: [Bytes], the borrowing or shared-owning byte string
    under every newtype, with the result of its UTF-8 check cached in an
    [AtomicI8] and its secrecy flag.  Whether the value is owned is a flag
    here; the reference-counted buffer an owned value points into is the
    subject of [OwnedBytes].  [&self] methods that update the cache return the
    updated string. *)

From S2P Require Import Prelude Strings Utf8 Transforms.

(** [Bytes]; [utf8] is 1 for UTF-8, -1 for not UTF-8, 0 for unknown. *)
Record Cell := mkCell {
  cvalue : list byte;
  ownership : bool;
  cutf8 : Z;
  secret_ : bool;
}.

Definition DISPLAY_PLACEHOLDER : list byte := bs "<?>".

(** [OwnedBytes::from_vec]: nothing is owned for an empty vector. *)
Definition owned_from_vec (v : list byte) : bool := match v with [] => false | _ => true end.

(** ** Constructors *)

Definition empty : Cell := mkCell [] false 1 false.
Definition from_bytes (value : list byte) : Cell := mkCell value false 0 false.
Definition from_str (value : list byte) : Cell := mkCell value false 1 false.
Definition from_secret (value : list byte) : Cell := mkCell value (owned_from_vec value) 0 true.
Definition from_vec (value : list byte) : Cell := mkCell value (owned_from_vec value) 0 false.
Definition from_string (value : list byte) : Cell := mkCell value (owned_from_vec value) 1 false.

(** ** Ownership and secrecy *)

Definition is_owning (c : Cell) : bool := ownership c.
Definition is_secret (c : Cell) : bool := secret_ c.

Definition owning_force (secret : bool) (c : Cell) : Cell :=
  mkCell (cvalue c) (owned_from_vec (cvalue c)) (cutf8 c) secret.

(** [MakeOwning::make_owning]. *)
Definition make_owning (c : Cell) : Cell := if is_owning c then c else owning_force false c.

Definition owning (c : Cell) : Cell := if is_owning c then c else owning_force (secret_ c) c.

Definition secret (c : Cell) : Cell :=
  if negb (secret_ c) && is_owning c then owning_force true c
  else mkCell (cvalue c) (ownership c) (cutf8 c) true.

(** ** UTF-8 *)

Definition is_utf8_lazy (c : Cell) : option bool :=
  if (cutf8 c =? 1)%Z then Some true else if (cutf8 c =? -1)%Z then Some false else None.

Definition store_utf8 (c : Cell) (u : Z) : Cell := mkCell (cvalue c) (ownership c) u (secret_ c).

Definition to_utf8 (c : Cell) : option (list byte) * Cell :=
  match is_utf8_lazy c with
  | Some true => (Some (cvalue c), c)
  | Some false => (None, c)
  | None =>
      if utf8_valid (cvalue c) then (Some (cvalue c), store_utf8 c 1)
      else (None, store_utf8 c (-1))
  end.

(** [U+FFFD] in UTF-8. *)
Definition REPLACEMENT : list byte := [xef; xbf; xbd].

(** [String::from_utf8_lossy]: every maximal ill-formed part is replaced. *)
Fixpoint from_utf8_lossy (l : list byte) : list byte :=
  match l with
  | [] => []
  | b :: r =>
      if is_ascii b then b :: from_utf8_lossy r
      else match utf8_lead b with
           | None => REPLACEMENT ++ from_utf8_lossy r
           | Some (n, f) =>
               match r with
               | [] => REPLACEMENT
               | c1 :: r1 =>
                   if negb (f c1) then REPLACEMENT ++ from_utf8_lossy r
                   else if n =? 1 then b :: c1 :: from_utf8_lossy r1
                   else match r1 with
                        | [] => REPLACEMENT
                        | c2 :: r2 =>
                            if negb (utf8_cont c2) then REPLACEMENT ++ from_utf8_lossy r1
                            else if n =? 2 then b :: c1 :: c2 :: from_utf8_lossy r2
                            else match r2 with
                                 | [] => REPLACEMENT
                                 | c3 :: r3 =>
                                     if negb (utf8_cont c3) then REPLACEMENT ++ from_utf8_lossy r2
                                     else b :: c1 :: c2 :: c3 :: from_utf8_lossy r3
                                 end
                        end
               end
           end
  end.

(** [from_utf8_lossy] borrows exactly when its input is valid. *)
Definition lossy_cow (l : list byte) : Cow :=
  if utf8_valid l then Borrowed l else Owned (from_utf8_lossy l).

Definition utf8_cow (c : Cell) : Cow * Cell :=
  match is_utf8_lazy c with
  | Some true => (Borrowed (cvalue c), c)
  | Some false => (lossy_cow (cvalue c), c)
  | None =>
      let sl := lossy_cow (cvalue c) in
      (sl, store_utf8 c (match sl with Borrowed _ => 1 | Owned _ => -1 end))
  end.

Definition to_utf8_lossy (c : Cell) : Cow * Cell := utf8_cow c.

(** [to_utf8_lossy_static]: owned whenever the string is. *)
Definition to_utf8_lossy_static (c : Cell) : Cow * Cell :=
  let (s, c') := utf8_cow c in
  ((if is_owning c then Owned (cow_ref s) else s), c').

Definition into_utf8_lossy (c : Cell) : Cell :=
  match utf8_cow c with
  | (Borrowed s, c) => mkCell s (ownership c) 1 (secret_ c)
  | (Owned o, _) => from_string o
  end.

(** The discriminant of a policy, [utf8 as i8]. *)
Definition policy_i8 (p : Utf8Policy) : Z :=
  match p with
  | PInvalid => -1 | PRecheck => 0 | PValid => 1 | PPreserve => 2 | PPreserveStrict => 3
  end.

Definition utf8_for_policy (c : Cell) (p : Utf8Policy) : Z :=
  match p with
  | PPreserveStrict => cutf8 c
  | PPreserve => if (cutf8 c =? 1)%Z then 1 else 0
  | _ => policy_i8 p
  end.

(** [using_value]. *)
Definition using_value (c : Cell) (value : list byte) (utf8 : Utf8Policy) : Cell :=
  mkCell value (if match value with [] => true | _ => false end then false else ownership c)
    (utf8_for_policy c utf8) (secret_ c).

(** [transform], given what the [Transform] returned. *)
Definition transform (c : Cell) (tf : list byte -> Transformation) : Cell :=
  let tfed := tf (cvalue c) in
  match cow_ref (transformed tfed) with
  | [] => empty
  | _ =>
      match transformed tfed with
      | Borrowed s =>
          let u := match tf_utf8 tfed with
                   | PPreserveStrict => cutf8 c
                   | PPreserve => if (cutf8 c =? -1)%Z then 0 else cutf8 c
                   | p => policy_i8 p
                   end in
          mkCell s (ownership c) u (secret_ c)
      | Owned o =>
          mkCell o (owned_from_vec o) (utf8_for_policy c (tf_utf8 tfed)) (secret_ c)
      end
  end%Z.

(** [into_vec], [clone]. *)
Definition into_vec (c : Cell) : list byte := cvalue c.
Definition clone (c : Cell) : Cell := mkCell (cvalue c) (ownership c) (cutf8 c) (secret_ c).

(** [PartialEq], [Ord] and comparison with a [str]. *)
Definition eq (a b : Cell) : bool := bool_decide (cvalue a = cvalue b).
Definition cmp (a b : Cell) : comparison := bytes_cmp (cvalue a) (cvalue b).
Definition eq_str (a : Cell) (other : list byte) : bool :=
  negb (cutf8 a =? -1)%Z && bool_decide (cvalue a = other).

(** [Display::fmt]. *)
Definition fmt (c : Cell) : list byte * Cell :=
  if is_secret c then (DISPLAY_PLACEHOLDER, c)
  else match to_utf8 c with
       | (Some s, c) => (s, c)
       | (None, c) => (DISPLAY_PLACEHOLDER, c)
       end.

(** ** Invariant *)

(** The cache is right: 1 only for valid UTF-8, -1 only for invalid. *)
Definition utf8_ok (c : Cell) : Prop :=
  (cutf8 c = 1%Z -> utf8_valid (cvalue c) = true) /\
  (cutf8 c = (-1)%Z -> utf8_valid (cvalue c) = false) /\
  (cutf8 c = 1 \/ cutf8 c = 0 \/ cutf8 c = -1)%Z.

(** An owned string is not empty. *)
Definition cell_inv (c : Cell) : Prop := utf8_ok c /\ (ownership c = true -> cvalue c <> []).

(** The operations on an existing string; those that return a value besides
    the string are taken for their effect. *)
Inductive CellOp :=
| CMakeOwning | COwning | CSecret | CToUtf8 | CToUtf8Lossy | CIntoUtf8Lossy | CClone | CFmt
| CUsingValue (v : list byte) (p : Utf8Policy)
| CTransform (tf : list byte -> Transformation).

Definition run_cell (o : CellOp) (c : Cell) : Cell :=
  match o with
  | CMakeOwning => make_owning c
  | COwning => owning c
  | CSecret => secret c
  | CToUtf8 => (to_utf8 c).2
  | CToUtf8Lossy => (to_utf8_lossy c).2
  | CIntoUtf8Lossy => into_utf8_lossy c
  | CClone => clone c
  | CFmt => (fmt c).2
  | CUsingValue v p => using_value c v p
  | CTransform tf => transform c tf
  end.

(** The obligations of the unsafe operations: policies must be true. *)
Definition cell_op_ok (c : Cell) (o : CellOp) : Prop :=
  match o with
  | CUsingValue v p => policy_sound p (cvalue c) v
  | CTransform tf =>
      forall l, policy_sound (tf_utf8 (tf l)) l (cow_ref (transformed (tf l)))
  | _ => True
  end.

(** ** Lemmas *)

Lemma utf8_app_char h t :
  utf8_valid h = true -> utf8_valid (h ++ t) = utf8_valid t ->
  utf8_valid t = true -> utf8_valid (h ++ t) = true.
Proof. intros _ -> ?. done. Qed.

Lemma from_utf8_lossy_valid l : utf8_valid (from_utf8_lossy l) = true.
Proof.
  remember (length l) as n eqn:Hn. revert l Hn.
  induction n as [n IH] using lt_wf_ind. intros l ->.
  assert (IHr : forall r, length r < length l -> utf8_valid (from_utf8_lossy r) = true)
    by (intros r Hr; by apply (IH (length r))).
  clear IH. destruct l as [|b r]; [done|]. cbn [from_utf8_lossy].
  destruct (is_ascii b) eqn:Hb; [cbn; rewrite Hb; apply IHr; simpl; lia|].
  assert (HR : forall r', length r' < length (b :: r) ->
            utf8_valid (REPLACEMENT ++ from_utf8_lossy r') = true).
  { intros r' Hr. by apply utf8_app; [|by apply IHr]. }
  destruct (utf8_lead b) as [[n f]|] eqn:L; [|apply HR; simpl; lia].
  destruct r as [|c1 r1]; [done|].
  destruct (f c1) eqn:F1; cbn [negb]; [|apply HR; simpl; lia].
  assert (Hn : n = 1 \/ n = 2 \/ n = 3).
  { unfold utf8_lead in L. repeat case_match; simplify_eq; auto. }
  destruct Hn as [->|[->| ->]]; cbn [Nat.eqb].
  - cbn [utf8_valid]. rewrite Hb, L, F1. apply IHr. simpl; lia.
  - destruct r1 as [|c2 r2]; [done|].
    destruct (utf8_cont c2) eqn:F2; cbn [negb]; [|apply HR; simpl; lia].
    cbn [utf8_valid]. rewrite Hb, L, F1, F2. apply IHr. simpl; lia.
  - destruct r1 as [|c2 r2]; [done|].
    destruct (utf8_cont c2) eqn:F2; cbn [negb]; [|apply HR; simpl; lia].
    destruct r2 as [|c3 r3]; [done|].
    destruct (utf8_cont c3) eqn:F3; cbn [negb]; [|apply HR; simpl; lia].
    cbn [utf8_valid]. rewrite Hb, L, F1, F2, F3. apply IHr. simpl; lia.
Qed.

Lemma owned_from_vec_nonempty v : owned_from_vec v = true -> v <> [].
Proof. by destruct v. Qed.

#[export] Hint Resolve owned_from_vec_nonempty : vz.

Lemma utf8_ok_store_valid c :
  utf8_valid (cvalue c) = true -> utf8_ok (store_utf8 c 1).
Proof. unfold utf8_ok; simpl. split; [done|split; [done|by left]]. Qed.

Lemma utf8_ok_store_invalid c :
  utf8_valid (cvalue c) = false -> utf8_ok (store_utf8 c (-1)).
Proof. unfold utf8_ok; simpl. split; [done|split; [done|by right; right]]. Qed.

Lemma to_utf8_inv c : cell_inv c -> cell_inv (to_utf8 c).2.
Proof.
  intros [Hu Ho]. unfold to_utf8. destruct (is_utf8_lazy c) as [[]|]; [done..|].
  destruct (utf8_valid (cvalue c)) eqn:E; (split; [simpl|done]);
    auto using utf8_ok_store_valid, utf8_ok_store_invalid.
Qed.

Lemma utf8_cow_inv c : cell_inv c -> cell_inv (utf8_cow c).2.
Proof.
  intros [Hu Ho]. unfold utf8_cow, lossy_cow. destruct (is_utf8_lazy c) as [[]|]; [done..|].
  destruct (utf8_valid (cvalue c)) eqn:E; (split; [simpl|done]);
    auto using utf8_ok_store_valid, utf8_ok_store_invalid.
Qed.

(** The UTF-8 string a [Bytes] hands out really is UTF-8. *)
Lemma utf8_cow_valid c : utf8_ok c -> utf8_valid (cow_ref (utf8_cow c).1) = true.
Proof.
  intros (Hv & Hi & _). unfold utf8_cow, lossy_cow, is_utf8_lazy.
  destruct (Z.eqb_spec (cutf8 c) 1); simpl; [auto|].
  destruct (utf8_valid (cvalue c)) eqn:E; destruct (Z.eqb_spec (cutf8 c) (-1)); simpl;
    auto using from_utf8_lossy_valid.
Qed.

Lemma utf8_cow_value c : utf8_ok c ->
  (utf8_cow c).1 = lossy_cow (cvalue c) /\ cvalue (utf8_cow c).2 = cvalue c /\
  ownership (utf8_cow c).2 = ownership c /\ secret_ (utf8_cow c).2 = secret_ c.
Proof.
  intros (Hv & Hi & _). unfold utf8_cow, is_utf8_lazy.
  destruct (Z.eqb_spec (cutf8 c) 1); simpl.
  - unfold lossy_cow. by rewrite Hv.
  - destruct (Z.eqb_spec (cutf8 c) (-1)); done.
Qed.

Lemma utf8_policy_ok c v p :
  utf8_ok c -> policy_sound p (cvalue c) v ->
  utf8_ok (mkCell v (ownership c) (utf8_for_policy c p) (secret_ c)).
Proof.
  intros (Hv & Hi & Hr) Hp. unfold utf8_ok; simpl. destruct p; simpl in *.
  - split_and!; [done|done|lia].
  - split_and!; [done|done|lia].
  - split_and!; [done|done|lia].
  - destruct (Z.eqb_spec (cutf8 c) 1); split_and!; try done; try lia; auto.
  - split_and!; [rewrite Hp; auto|rewrite Hp; auto|lia].
Qed.

Lemma transform_inv c tf :
  cell_inv c -> cell_op_ok c (CTransform tf) -> cell_inv (transform c tf).
Proof.
  intros [Hu Ho] Hp. specialize (Hp (cvalue c)). unfold transform.
  destruct (cow_ref (transformed (tf (cvalue c)))) as [|b l] eqn:E.
  { split; [|done]. unfold utf8_ok; simpl. split; [done|split; [done|by left]]. }
  destruct (transformed (tf (cvalue c))) as [s|o]; simpl in E; subst.
  - split; [|done]. pose proof (utf8_policy_ok c (b :: l) _ Hu Hp) as Hk.
    destruct (tf_utf8 (tf (cvalue c))); try exact Hk.
    destruct Hu as (Hv & Hi & Hr). unfold utf8_ok; simpl in *.
    destruct (Z.eqb_spec (cutf8 c) (-1)); split_and!; try done; try lia; auto.
  - split; [|done]. apply (utf8_policy_ok c (b :: l) _ Hu Hp).
Qed.

Lemma run_cell_inv c o : cell_inv c -> cell_op_ok c o -> cell_inv (run_cell o c).
Proof.
  intros Hc Hop. pose proof Hc as [Hu Ho]. destruct o; simpl in *.
  - unfold make_owning. destruct (is_owning c); [done|]. split; [exact Hu|simpl; auto with vz].
  - unfold owning. destruct (is_owning c); [done|]. split; [exact Hu|simpl; auto with vz].
  - unfold secret. destruct (negb _ && _); (split; [exact Hu|simpl; auto with vz]).
  - by apply to_utf8_inv.
  - by apply utf8_cow_inv.
  - unfold into_utf8_lossy. destruct (utf8_cow_value c Hu) as (H1 & H2 & H3 & H4).
    destruct (utf8_cow c) as [s c'] eqn:E; simpl in *. subst s. unfold lossy_cow.
    destruct (utf8_valid (cvalue c)) eqn:Ev; (split; [|simpl; rewrite ?H3; auto with vz]);
      unfold utf8_ok; simpl; (split_and!; [|done|by left]); [done|].
    intros _. apply from_utf8_lossy_valid.
  - done.
  - unfold fmt. destruct (is_secret c); [done|].
    pose proof (to_utf8_inv c Hc) as Hi. by destruct (to_utf8 c) as [[s|] c'].
  - split; [by apply (utf8_policy_ok c v p)|]. simpl. by destruct v.
  - by apply transform_inv.
Qed.

(** The transforms of the library meet [cell_op_ok]. *)
Lemma transforms_ok c tf :
  tf = TrimAscii Start \/ tf = TrimAscii End \/ tf = TrimAscii StartFirst \/ tf = TrimAscii EndFirst \/
  (exists u, tf = AsciiCasemap u) \/ (exists m, tf = irc_casemap m) ->
  cell_op_ok c (CTransform tf).
Proof.
  intros Hc l. destruct Hc as [->|[->|[->|[->|[[u ->]|[m ->]]]]]];
    try apply trim_ascii_policy.
  - apply ascii_casemap_policy.
  - apply irc_casemap_policy.
Qed.

(** ** Theorems *)

(** C27: every sequence of operations on a well-formed [Bytes] keeps the UTF-8
    cache right, so [to_utf8] answers exactly [str::from_utf8], and what
    [to_utf8_lossy] hands out as a [str] is always valid UTF-8. *)
Theorem bytes_ops_utf8 c ops :
  cell_inv c ->
  (forall c' o, o ∈ ops -> cell_op_ok c' o) ->
  let c' := foldl (fun c o => run_cell o c) c ops in
  cell_inv c' /\
  (to_utf8 c').1 = (if utf8_valid (cvalue c') then Some (cvalue c') else None) /\
  utf8_valid (cow_ref (to_utf8_lossy c').1) = true.
Proof.
  intros Hc Hops. assert (Hi : cell_inv (foldl (fun c o => run_cell o c) c ops)).
  { revert c Hc. induction ops as [|o ops IH]; intros c Hc; [done|]. simpl. apply IH.
    - intros c' o' Ho. apply Hops. by right.
    - apply run_cell_inv; [done|]. apply Hops. by left. }
  intros c'. fold c' in Hi. split; [done|]. destruct Hi as [Hu _]. split.
  - destruct Hu as (Hv & Hn & _). unfold to_utf8, is_utf8_lazy.
    destruct (Z.eqb_spec (cutf8 c') 1); [by rewrite Hv|].
    destruct (Z.eqb_spec (cutf8 c') (-1)); [by rewrite Hn|]. by destruct (utf8_valid (cvalue c')).
  - by apply utf8_cow_valid.
Qed.

Lemma bytes_ops_utf8_witness :
  cell_inv (from_vec (bs " Foo ")) /\
  (to_utf8 (foldl (fun c o => run_cell o c) (from_vec (bs " Foo "))
     [CToUtf8; CTransform (TrimAscii Start); CTransform (AsciiCasemap true)])).1
  = Some (bs "FOO ").
Proof.
  assert (Hi : cell_inv (from_vec (bs " Foo "))) by (split; [split; [done|split; [done|by right; left]]|done]).
  split; [exact Hi|].
  refine (eq_trans (proj1 (proj2 (bytes_ops_utf8 (from_vec (bs " Foo "))
    [CToUtf8; CTransform (TrimAscii Start); CTransform (AsciiCasemap true)] Hi _))) eq_refl).
  intros c' o Ho. repeat (apply elem_of_cons in Ho as [->|Ho]); [done|..|by apply elem_of_nil in Ho];
    apply transforms_ok; eauto 10.
Defined.

(** Secrecy survives cloning, [owning], [secret], slicing with
    [using_value] and every transform with a non-empty result, and a secret is
    never displayed. *)
Theorem secrecy_kept c v p tf :
  secret_ c = true ->
  secret_ (clone c) = true /\ secret_ (owning c) = true /\ secret_ (secret c) = true /\
  secret_ (using_value c v p) = true /\
  (cow_ref (transformed (tf (cvalue c))) <> [] -> secret_ (transform c tf) = true) /\
  (fmt c).1 = DISPLAY_PLACEHOLDER.
Proof.
  intros Hs. split_and!; try done.
  - unfold owning. by destruct (is_owning c).
  - unfold secret. by destruct (negb _ && _).
  - intros Hn. unfold transform. destruct (cow_ref _); [done|].
    by destruct (transformed (tf (cvalue c))).
  - unfold fmt, is_secret. by rewrite Hs.
Qed.

Lemma secrecy_kept_witness :
  secret_ (from_secret (bs "hunter2")) = true /\
  (fmt (from_secret (bs "hunter2"))).1 = bs "<?>".
Proof.
  split; [reflexivity|].
  apply (secrecy_kept (from_secret (bs "hunter2")) [] PValid (TrimAscii End)). reflexivity.
Defined.

(** [make_owning], unlike [owning], forgets that a borrowed string is
    secret, as does [into_utf8_lossy] on a secret that is not UTF-8: the result
    is displayed, and its buffer is not zeroed. *)
Theorem make_owning_loses_secrecy v :
  utf8_valid v = true ->
  let c := secret (from_str v) in
  secret_ c = true /\ secret_ (owning c) = true /\
  secret_ (make_owning c) = false /\ (fmt (make_owning c)).1 = v /\
  forall w, utf8_valid w = false ->
    secret_ (from_secret w) = true /\ secret_ (into_utf8_lossy (from_secret w)) = false.
Proof.
  intros Hv c. split_and!; [done..|]. intros w Hw. split; [done|].
  unfold into_utf8_lossy, utf8_cow, lossy_cow. simpl. by rewrite Hw.
Qed.

Lemma make_owning_loses_secrecy_witness :
  (fmt (make_owning (secret (from_str (bs "hunter2"))))).1 = bs "hunter2".
Proof. exact (proj1 (proj2 (proj2 (proj2 (make_owning_loses_secrecy (bs "hunter2") eq_refl))))). Defined.

(** What [Display] prints for a string that is not secret. *)
Definition show (v : list byte) : list byte := (fmt (from_bytes v)).1.

Lemma show_utf8 v : utf8_valid v = true -> show v = v.
Proof. intros Hv. unfold show, fmt, to_utf8. simpl. by rewrite Hv. Qed.
