(* ===== verification/Builder.v ===== *)
(** * Builder

    [src/string/builder.rs]: building a newtype string by concatenation, with
    a running UTF-8 flag.  The capacity methods have no observable effect and
    are left out. *)

From S2P Require Import Prelude Strings Utf8 Splitter.

Record Builder := mkBuilder { bytes : list byte; butf8 : bool }.

(** [new], from an initial string of the newtype. *)
Definition new (init : Str) : Builder := mkBuilder (value init) (su8 init).

Definition default_builder : Builder := new (plain []).

(** [Deref] and [AsRef]. *)
Definition deref (b : Builder) : list byte := bytes b.
Definition as_ref (b : Builder) : list byte := bytes b.

Definition check_utf8 (b : Builder) : result () () * Builder :=
  if negb (butf8 b) then
    if utf8_valid (bytes b) then (Ok (), mkBuilder (bytes b) true) else (Err (), b)
  else (Ok (), b).

(** [build]: through a [String] if the flag is set, else through a [Vec];
    neither is secret. *)
Definition build (b : Builder) : Str := mkStr (bytes b) (butf8 b) false.

Definition append_unchecked (string : list byte) (utf8 : bool) (b : Builder) : Builder :=
  mkBuilder (bytes b ++ string) (butf8 b && utf8).

Definition append (string : Str) (b : Builder) : Builder :=
  append_unchecked (value string) (su8 string) b.

(** The loop of [try_append]. *)
Fixpoint try_append_loop (T : BytesNewtype) (string : list byte) (ascii : bool) : result bool InvalidString :=
  match string with
  | [] => Ok ascii
  | byte :: rest =>
      if is_invalid T byte then Err (ISByte byte)
      else try_append_loop T rest (ascii && is_ascii byte)
  end.

Definition try_append (T : BytesNewtype) (string : list byte) (b : Builder)
    : result () InvalidString * Builder :=
  match try_append_loop T string true with
  | Err e => (Err e, b)
  | Ok ascii => (Ok (), mkBuilder (bytes b ++ string) (butf8 b && ascii))
  end.

(** [try_append_str]; the argument is a [str]. *)
Definition try_append_str (T : BytesNewtype) (string : list byte) (b : Builder)
    : result () InvalidString * Builder :=
  match check_bytes (is_invalid T) string with
  | Some e => (Err e, b)
  | None => (Ok (), mkBuilder (bytes b ++ string) (butf8 b))
  end.

Definition try_push (T : BytesNewtype) (byte : byte) (b : Builder) : result () InvalidString * Builder :=
  if is_invalid T byte then (Err (ISByte byte), b)
  else (Ok (), mkBuilder (bytes b ++ [byte]) (butf8 b && is_ascii byte)).

(** [try_push_char], given the UTF-8 encoding of the [char]. *)
Definition try_push_char (T : BytesNewtype) (c : list byte) (b : Builder)
    : result () InvalidString * Builder :=
  try_append_str T c b.

(** ** Invariant *)

Definition builder_inv (T : BytesNewtype) (b : Builder) : Prop :=
  valid T (bytes b) /\ (butf8 b = true -> utf8_valid (bytes b) = true).

Inductive BuilderOp :=
| BCheckUtf8
| BAppend (s : Str)
| BTryAppend (s : list byte)
| BTryAppendStr (s : list byte)
| BTryPush (c : byte)
| BTryPushChar (c : list byte).

Definition run_builder (T : BytesNewtype) (o : BuilderOp) (b : Builder) : Builder :=
  match o with
  | BCheckUtf8 => (check_utf8 b).2
  | BAppend s => append s b
  | BTryAppend s => (try_append T s b).2
  | BTryAppendStr s => (try_append_str T s b).2
  | BTryPush c => (try_push T c b).2
  | BTryPushChar c => (try_push_char T c b).2
  end.

(** What the types of the arguments guarantee. *)
Definition builder_op_ok (T : BytesNewtype) (o : BuilderOp) : Prop :=
  match o with
  | BAppend s => valid T (value s) /\ (su8 s = true -> utf8_valid (value s) = true)
  | BTryAppendStr s | BTryPushChar s => utf8_valid s = true
  | _ => True
  end.

(** The checks on the whole string that the newtypes make survive appending. *)
Definition check_monotone (T : BytesNewtype) : Prop :=
  forall a b, check_others T a = None -> check_others T (a ++ b) = None.

(** ** Lemmas *)

Lemma newtypes_monotone T :
  T ∈ [Bytes; NoNul; Line; Word; Arg; Key; Nick; User; Cmd] -> check_monotone T.
Proof.
  intros HT a b. repeat (apply elem_of_cons in HT as [->|HT]); simpl; try done;
    try (rewrite !arg_first_check_None; intros (x & r & -> & Hx); by exists x, (r ++ b)).
  by apply elem_of_nil in HT.
Qed.

Lemma try_append_loop_spec T s ascii :
  try_append_loop T s ascii =
  match check_bytes (is_invalid T) s with Some e => Err e | None => Ok (ascii && all_ascii s) end.
Proof.
  revert ascii. induction s as [|x s IH]; intros ascii; simpl; [by rewrite andb_true_r|].
  destruct (is_invalid T x); [done|]. rewrite IH. by rewrite andb_assoc.
Qed.

Lemma builder_inv_app T b s u :
  check_monotone T -> builder_inv T b -> Forall (fun x => is_invalid T x = false) s ->
  (u = true -> utf8_valid s = true) ->
  builder_inv T (mkBuilder (bytes b ++ s) (butf8 b && u)).
Proof.
  intros Hm [Hv Hu] Hs Hsu. split; simpl.
  - apply valid_iff in Hv as [H1 H2]. apply valid_iff. split; [by apply Hm|].
    by apply Forall_app.
  - intros [? ?]%andb_prop. apply utf8_app; auto.
Qed.

Lemma run_builder_inv T o b :
  check_monotone T -> builder_op_ok T o -> builder_inv T b -> builder_inv T (run_builder T o b).
Proof.
  intros Hm Ho Hb. pose proof Hb as [Hv Hu]. destruct o as [|s|s|s|c|c]; simpl in *.
  - unfold check_utf8. destruct (butf8 b); simpl; [done|].
    destruct (utf8_valid (bytes b)) eqn:E; [by split|done].
  - unfold append, append_unchecked. destruct Ho as [Hs Hsu].
    apply builder_inv_app; try done. by apply valid_iff in Hs as [_ ?].
  - unfold try_append. rewrite try_append_loop_spec.
    destruct (check_bytes (is_invalid T) s) eqn:E; [done|]. apply check_bytes_None in E.
    apply builder_inv_app; try done. apply utf8_all_ascii.
  - unfold try_append_str. destruct (check_bytes (is_invalid T) s) eqn:E; [done|].
    apply check_bytes_None in E. rewrite <- (andb_true_r (butf8 b)). by apply builder_inv_app.
  - unfold try_push. destruct (is_invalid T c) eqn:E; [done|]. simpl.
    apply builder_inv_app; try done; [by repeat constructor|].
    intros Hc. by apply utf8_all_ascii; simpl; rewrite Hc.
  - unfold try_push_char, try_append_str. destruct (check_bytes (is_invalid T) c) eqn:E; [done|].
    apply check_bytes_None in E. rewrite <- (andb_true_r (butf8 b)). by apply builder_inv_app.
Qed.

(** ** Theorems *)

(** Whatever is appended, and whether or not it is accepted, what a builder
    builds satisfies the newtype it was started with and is flagged as UTF-8
    only when it is. *)
Theorem builder_sound T init ops :
  T ∈ [Bytes; NoNul; Line; Word; Arg; Key; Nick; User; Cmd] ->
  valid T (value init) -> (su8 init = true -> utf8_valid (value init) = true) ->
  Forall (builder_op_ok T) ops ->
  let s := build (foldl (fun b o => run_builder T o b) (new init) ops) in
  valid T (value s) /\ (su8 s = true -> utf8_valid (value s) = true).
Proof.
  intros HT Hv Hu Hops. apply newtypes_monotone in HT.
  assert (H : builder_inv T (new init)) by done. revert H. generalize (new init). simpl.
  induction Hops as [|o ops Ho _ IH]; intros b Hb; [exact Hb|]. simpl. apply IH.
  by apply run_builder_inv.
Qed.

Lemma builder_sound_witness :
  valid Word (bs "a") /\
  value (build (foldl (fun b o => run_builder Word o b) (new (plain (bs "a")))
    [BTryPush " "; BTryPushChar [xc3; xa9]; BAppend (plain (bs "b"))])) = [x61; xc3; xa9; x62] /\
  valid Word [x61; xc3; xa9; x62].
Proof.
  split; [reflexivity|]. split; [reflexivity|].
  refine (proj1 (builder_sound Word (plain (bs "a"))
    [BTryPush " "; BTryPushChar [xc3; xa9]; BAppend (plain (bs "b"))] _ _ _ _)).
  - by set_solver.
  - reflexivity.
  - discriminate.
  - repeat constructor; discriminate.
Defined.
