(* ===== verification/Tags.v ===== *)
(** * Message tags

    [src/ircmsg/tags.rs]: the tag map of a message, its wire form and its
    parser.  Keys are [Key] strings and values [NoNul] strings, both kept as
    their bytes.  The parser's loop takes fuel; [parse_segments] shows when
    [S (length w)] is enough and [parse_diverges] when nothing is. *)

From S2P Require Import Prelude Strings Splitter Transforms FlatMap.

(** [((Key, NoNul), ())]. *)
Abbreviation Tag := (list byte * list byte)%type.
Abbreviation Tags := (list Tag).

Definition new : Tags := [].

Definition get (t : Tags) (key : list byte) : option (list byte) :=
  match from_bytes Key key with
  | Ok key => snd <$> FlatMap.get fst t key
  | Err _ => None
  end.

(** The loop of [write_to]; [prefix] starts as [@] and becomes [;]. *)
Fixpoint write_loop (prefix : byte) (pairs : Tags) : list byte :=
  match pairs with
  | [] => []
  | (key, value) :: pairs =>
      prefix :: key ++ (match value with [] => [] | _ => "="%byte :: escape value end)
        ++ write_loop ";" pairs
  end.

Definition write_to (t : Tags) : list byte := write_loop "@" t.

(** The loop of [parse]. *)
Fixpoint parse_loop (fuel : nat) (splitter : Splitter) (tags : Tags) : option Tags :=
  match fuel with
  | 0 => None
  | S fuel =>
      if Splitter.is_empty splitter then Some tags
      else match string Key false splitter with
           | (Err _, splitter) => parse_loop fuel (consume_invalid Key splitter) tags
           | (Ok key, splitter) =>
               match next_byte splitter with
               | (Some "="%byte, splitter) =>
                   match save_end (fun s => rest NoNul (until_byte_eq ";" s)) splitter with
                   | (Ok v, splitter) =>
                       parse_loop fuel (next_byte splitter).2
                         (tags ++ [(value key, unescape (value v))])
                   | (Err _, _) => None
                   end
               | (_, splitter) => parse_loop fuel splitter (tags ++ [(value key, [])])
               end
           end
  end.

Definition parse (fuel : nat) (word : list byte) : option Tags :=
  match word with
  | [] => Some new
  | _ => from_vec fst <$> parse_loop fuel (Splitter.new (plain word)) []
  end.

(** ** Editing *)

Abbreviation TagsEditGuard := (EditGuard (E := Tag)).

Definition edit (t : Tags) : TagsEditGuard := FlatMap.edit t.
Definition edit_drop (g : TagsEditGuard) : Tags := guard_drop fst g.

Definition edit_get (g : TagsEditGuard) (key : list byte) : option (list byte) :=
  match from_bytes Key key with
  | Ok key => snd <$> guard_get fst g key
  | Err _ => None
  end.

Definition insert_pair (g : TagsEditGuard) (key value : list byte) : option (list byte) * TagsEditGuard :=
  let (old, g) := FlatMap.insert fst g (key, value) in (snd <$> old, g).

Definition insert_key (g : TagsEditGuard) (key : list byte) : option (list byte) * TagsEditGuard :=
  insert_pair g key [].

(** [remove]; the outer [None] is a panic. *)
Definition remove (g : TagsEditGuard) (key : list byte) : option (option (list byte) * TagsEditGuard) :=
  match FlatMap.remove fst g key with
  | Some (old, g) => Some (snd <$> old, g)
  | None => None
  end.

Definition clear (g : TagsEditGuard) : TagsEditGuard := guard_clear g.

(** [FromIterator]. *)
Definition from_iter (l : list Tag) : Tags :=
  edit_drop (foldl (fun g kv => (insert_pair g kv.1 kv.2).2) (edit new) l).

(** The invariant of a tag map. *)
Definition tags_wf (t : Tags) : Prop :=
  sorted fst t /\ Forall (fun kv => valid Key kv.1 /\ valid NoNul kv.2) t.

(** ** The parser on segments *)

(** What one semicolon-delimited part of a tag list means to the parser. *)
Definition parse_segment (seg : list byte) : option Tag :=
  let seg := drop_while (fun b => Byte.eqb b "=") seg in
  match seg with
  | [] => None
  | _ =>
      Some (take_while (fun b => negb (Byte.eqb b "=")) seg,
            match drop_while (fun b => negb (Byte.eqb b "=")) seg with
            | [] => []
            | _ :: v => unescape v
            end)
  end.

(** A segment that does not have a colon where a key should start. *)
Definition segment_ok (seg : list byte) : bool :=
  match drop_while (fun b => Byte.eqb b "=") seg with
  | b :: _ => negb (Byte.eqb b ":")
  | [] => true
  end.

Abbreviation segments := (split_on ";").

(** [parse_loop] on the bytes that remain. *)
Fixpoint tags_cursor (fuel : nat) (l : list byte) (tags : Tags) : option Tags :=
  match fuel with
  | 0 => None
  | S fuel =>
      match l with
      | [] => Some tags
      | _ =>
          match cursor_string Key false l with
          | Err _ => tags_cursor fuel (drop_while (is_invalid Key) l) tags
          | Ok key =>
              match drop (length key) l with
              | "="%byte :: l =>
                  tags_cursor fuel (tail (drop_while (fun x => negb (Byte.eqb x ";")) l))
                    (tags ++ [(key, unescape (take_while (fun x => negb (Byte.eqb x ";")) l))])
              | l => tags_cursor fuel (tail l) (tags ++ [(key, [])])
              end
          end
      end
  end.

Lemma parse_loop_cursor fuel s tags :
  wf s -> parse_loop fuel s tags = tags_cursor fuel (as_slice s) tags.
Proof.
  revert s tags. induction fuel as [|fuel IH]; intros s tags Hw; [done|]. cbn [parse_loop tags_cursor].
  rewrite is_empty_rem by done. destruct (as_slice s) as [|b0 l0] eqn:E.
  { by rewrite bool_decide_eq_true_2. }
  rewrite bool_decide_eq_false_2 by done. rewrite <- E.
  pose proof (wf_string Key false s Hw) as Hw'.
  destruct (string_cursor Key false s) as [H1 H2].
  destruct (string Key false s) as [r s'] eqn:Es. simpl in H1, H2, Hw'. subst r.
  destruct (cursor_string Key false (as_slice s)) as [key|e].
  2: { rewrite IH by auto with vz. by rewrite rem_consume_invalid, H2. }
  destruct (rem_next_byte s') as [N1 N2]. pose proof (wf_next_byte s' Hw') as Hw2.
  rewrite H2 in N1, N2. destruct (next_byte s') as [c s2] eqn:En. simpl in N1, N2, Hw2. subst c.
  set (l := drop (length key) (as_slice s)) in *.
  assert (Hv : parse_loop fuel s2 (tags ++ [(key, [])]) = tags_cursor fuel (tail l) (tags ++ [(key, [])])).
  { rewrite IH by done. by rewrite N2. }
  destruct l as [|c l]; [exact Hv|]. cbn [head tail] in N2, Hv |- *. destruct c; try exact Hv. clear Hv.
  destruct (save_end_rest NoNul ";" s2 Hw2 eq_refl) as ((v & V1 & V2) & R1 & R2).
  destruct (save_end _ s2) as [rv s3]. cbn [fst snd] in *. subst rv.
  rewrite IH by auto with vz.
  rewrite (proj2 (rem_next_byte s3)), R1, N2, V2, N2. done.
Qed.

Lemma is_invalid_key_word b :
  is_invalid Word b = false -> is_invalid Key b = Byte.eqb b "=" || Byte.eqb b ";".
Proof. by byte_cases b. Qed.

Abbreviation word_bytes l := (Forall (fun b => is_invalid Word b = false) l).

Lemma segments_skip l :
  omap parse_segment (segments l) =
    omap parse_segment (segments (drop_while (fun b => Byte.eqb b "=" || Byte.eqb b ";") l)) /\
  forallb segment_ok (segments l) =
    forallb segment_ok (segments (drop_while (fun b => Byte.eqb b "=" || Byte.eqb b ";") l)).
Proof.
  induction l as [|b l [IH1 IH2]]; [done|]. cbn [drop_while].
  destruct (byte_eqb_spec b "=") as [->|Hne]; cbn [orb].
  - rewrite <- IH1, <- IH2. cbn. rewrite !(split_on_cons ";" l). done.
  - destruct (byte_eqb_spec b ";") as [->|Hne2]; [|done]. split; [exact IH1|exact IH2].
Qed.

Lemma drop_while_ext_Forall (f g : byte -> bool) l :
  Forall (fun b => f b = g b) l -> drop_while f l = drop_while g l.
Proof. induction 1 as [|b l Hb _ IH]; simpl; [done|]. rewrite Hb. by destruct (g b). Qed.

Lemma take_while_ext_Forall (f g : byte -> bool) l :
  Forall (fun b => f b = g b) l -> take_while f l = take_while g l.
Proof. induction 1 as [|b l Hb _ IH]; simpl; [done|]. rewrite Hb. by destruct (g b); f_equal. Qed.

Lemma word_bytes_app a b : word_bytes (a ++ b) <-> word_bytes a /\ word_bytes b.
Proof. apply Forall_app. Qed.

Lemma parse_segment_pair key v :
  key <> [] -> Forall (fun x => Byte.eqb x "=" = false) key ->
  parse_segment (key ++ "="%byte :: v) = Some (key, unescape v) /\
  parse_segment key = Some (key, []).
Proof.
  intros Hne Hk. unfold parse_segment.
  assert (Hd : forall t, drop_while (fun b => Byte.eqb b "=") (key ++ t) = key ++ t).
  { intros t. destruct key as [|b k]; [done|]. simpl. apply Forall_cons_iff in Hk as [-> _]. done. }
  assert (Hk' : Forall (fun x => negb (Byte.eqb x "=") = true) key)
    by (eapply Forall_impl; [exact Hk|]; by intros x ->).
  assert (Hm : forall (t : list byte) (A : Type) (x y : A),
    match key ++ t with [] => x | _ => y end = y) by (by destruct key).
  split.
  - rewrite Hd, Hm, take_while_app, drop_while_app by done. simpl. by rewrite app_nil_r.
  - pose proof (Hd []) as Hd0. rewrite app_nil_r in Hd0. rewrite Hd0.
    pose proof (Hm []) as Hm0. rewrite app_nil_r in Hm0. rewrite Hm0.
    rewrite take_while_all by done. rewrite <- (app_nil_r key), drop_while_app by done. simpl.
    by rewrite app_nil_r.
Qed.

Lemma segment_ok_head b l : b <> "="%byte -> b <> ":"%byte -> segment_ok (b :: l) = true.
Proof.
  intros H1 H2. unfold segment_ok. simpl. rewrite byte_eqb_neq by done. by rewrite byte_eqb_neq.
Qed.

(** What a key is followed by: the end, another segment or a value. *)
Section Key.
Context (key : list byte) (b : byte) (r : list byte) (Hkey : key = b :: r) (Hcolon : b <> ":"%byte).
Hypothesis Hk1 : Forall (fun x => Byte.eqb x ";" = false) key.
Hypothesis Hk2 : Forall (fun x => Byte.eqb x "=" = false) key.

Lemma key_not_nil : key <> [].
Proof. by rewrite Hkey. Qed.

Lemma key_ok t : segment_ok (key ++ t) = true.
Proof.
  assert (b <> "="%byte) by (intros ->; rewrite Hkey in Hk2; inversion Hk2; done). rewrite Hkey. by apply segment_ok_head.
Qed.

Lemma segments_key_end : omap parse_segment (segments key) = [(key, [])] /\ forallb segment_ok (segments key) = true.
Proof.
  rewrite (split_on_none ";" key) by done. cbn [omap list_omap forallb].
  rewrite (proj2 (parse_segment_pair key [] key_not_nil Hk2)). by rewrite <- (app_nil_r key), key_ok.
Qed.

Lemma segments_key_next l1 :
  omap parse_segment (segments (key ++ ";"%byte :: l1)) = [(key, [])] ++ omap parse_segment (segments l1) /\
  forallb segment_ok (segments (key ++ ";"%byte :: l1)) = forallb segment_ok (segments l1).
Proof.
  rewrite split_on_app by done. cbn [omap list_omap forallb].
  rewrite (proj2 (parse_segment_pair key [] key_not_nil Hk2)). by rewrite <- (app_nil_r key), key_ok.
Qed.

Lemma segments_key_value l1 :
  let v := take_while (fun x => negb (Byte.eqb x ";")) l1 in
  let r1 := drop_while (fun x => negb (Byte.eqb x ";")) l1 in
  omap parse_segment (segments (key ++ "="%byte :: l1)) = [(key, unescape v)] ++ omap parse_segment (segments (tail r1)) /\
  forallb segment_ok (segments (key ++ "="%byte :: l1)) = forallb segment_ok (segments (tail r1)).
Proof.
  intros v r1. rewrite split_on_cons.
  rewrite take_while_app, drop_while_app by (eapply Forall_impl; [exact Hk1|]; by intros x ->).
  cbn [take_while drop_while]. change (Byte.eqb "=" ";") with false. cbn [negb]. fold v r1.
  cbn [omap list_omap forallb]. rewrite (proj1 (parse_segment_pair key v key_not_nil Hk2)), key_ok. by destruct r1.
Qed.
End Key.

(** One turn of the loop at a key position. *)
Lemma tags_step fuel l tags b r :
  l = b :: r -> word_bytes l ->
  if Byte.eqb b ":" then tags_cursor (S fuel) l tags = tags_cursor fuel l tags
  else exists l' new,
    tags_cursor (S fuel) l tags = tags_cursor fuel l' (tags ++ new) /\
    length l' < length l /\ word_bytes l' /\
    omap parse_segment (segments l) = new ++ omap parse_segment (segments l') /\
    forallb segment_ok (segments l) = forallb segment_ok (segments l').
Proof.
  intros Hl Hw. cbn [tags_cursor]. rewrite cursor_string_false. subst l.
  set (l := b :: r) in *. set (K := fun x => Byte.eqb x "=" || Byte.eqb x ";").
  assert (HK : Forall (fun x => is_invalid Key x = K x) l).
  { eapply Forall_impl; [exact Hw|]. apply is_invalid_key_word. }
  rewrite (drop_while_ext_Forall _ K) by done.
  rewrite (take_while_ext_Forall (fun x => negb (is_invalid Key x)) (fun x => negb (K x)))
    by (eapply Forall_impl; [exact HK|]; simpl; by intros x ->).
  destruct (byte_eqb_spec b ":") as [->|Hb]; [done|].
  destruct (K b) eqn:Kb; cbv zeta.
  - exists (drop_while K l), []. rewrite app_nil_r.
    assert (Hd : drop_while K l = drop_while K r) by (unfold l; cbn; by rewrite Kb).
    split; [unfold l at 1 2; cbn; by rewrite Kb|]. split.
    { rewrite Hd, length_drop_while. unfold l; simpl. lia. }
    split; [|apply segments_skip]. rewrite <- (take_drop_while K l), word_bytes_app in Hw. by destruct Hw.
  - set (key := take_while (fun x => negb (K x)) l).
    assert (Hkey : key = b :: take_while (fun x => negb (K x)) r) by (unfold key, l; simpl; by rewrite Kb).
    assert (Hc : check_others Key key = None) by (apply arg_first_check_None; eauto).
    rewrite Hc. unfold key at 1. rewrite drop_length_take_while.
    pose proof (take_drop_while (fun x => negb (K x)) l) as Htd. fold key in Htd.
    assert (Hk12 : Forall (fun x => Byte.eqb x ";" = false) key /\ Forall (fun x => Byte.eqb x "=" = false) key).
    { split; (eapply Forall_impl; [apply take_while_Forall|]); simpl; intros x [? ?]%negb_true_iff%orb_false_iff; done. }
    destruct Hk12 as [Hk1 Hk2]. assert (Hlen : length key <> 0) by (rewrite Hkey; simpl; lia).
    destruct (drop_while (fun x => negb (K x)) l) as [|c l1] eqn:Ed.
    + rewrite app_nil_r in Htd. exists [], [(key, [])]. rewrite <- Htd.
      split; [done|]. split; [simpl; lia|]. split; [constructor|]. eapply segments_key_end; eauto.
    + pose proof (drop_while_head _ _ _ _ Ed) as Hc1. apply negb_false_iff in Hc1.
      rewrite <- Htd, word_bytes_app in Hw. destruct Hw as [_ [_ Hw]%Forall_cons_iff].
      destruct (byte_eqb_spec c ";") as [->|Hc2].
      * exists l1, [(key, [])]. rewrite <- Htd. split; [done|].
        split; [rewrite length_app; simpl; lia|]. split; [done|]. eapply segments_key_next; eauto.
      * unfold K in Hc1. apply byte_eqb_neq in Hc2. rewrite Hc2, orb_false_r in Hc1.
        destruct (byte_eqb_spec c "=") as [->|]; [|done].
        eexists _, [(key, _)]. split; [reflexivity|]. rewrite <- Htd. pose proof (length_drop_while (fun x => negb (Byte.eqb x ";")) l1).
        split; [rewrite length_app, length_tl; simpl; lia|]. split; [|by eapply segments_key_value; eauto].
        rewrite <- (take_drop_while (fun x => negb (Byte.eqb x ";")) l1) in Hw.
        apply word_bytes_app in Hw as [_ Hw]. destruct (drop_while _ l1); [done|]. by apply Forall_cons_iff in Hw as [_ ?].
Qed.

Lemma tags_cursor_ok fuel l tags :
  length l < fuel -> word_bytes l -> forallb segment_ok (segments l) = true ->
  tags_cursor fuel l tags = Some (tags ++ omap parse_segment (segments l)).
Proof.
  revert l tags. induction fuel as [|fuel IH]; intros l tags Hf Hw Hok; [lia|].
  destruct l as [|b r]; [cbn; by rewrite app_nil_r|].
  pose proof (tags_step fuel (b :: r) tags b r eq_refl Hw) as Hs.
  destruct (byte_eqb_spec b ":") as [->|Hb].
  - rewrite split_on_cons in Hok. cbn in Hok. done.
  - destruct Hs as (l' & nw & -> & Hl & Hw' & Ho & Hk). rewrite IH by (try done; try lia; congruence).
    rewrite Ho. by rewrite app_assoc.
Qed.

Lemma tags_cursor_diverges fuel l tags :
  word_bytes l -> forallb segment_ok (segments l) = false -> tags_cursor fuel l tags = None.
Proof.
  revert l tags. induction fuel as [|fuel IH]; intros l tags Hw Hok; [done|].
  destruct l as [|b r]; [done|].
  pose proof (tags_step fuel (b :: r) tags b r eq_refl Hw) as Hs.
  destruct (Byte.eqb b ":").
  - rewrite Hs. by apply IH.
  - destruct Hs as (l' & nw & -> & _ & Hw' & _ & Hk). apply IH; [done|congruence].
Qed.

Lemma parse_cursor fuel w :
  w <> [] -> parse fuel w = from_vec fst <$> tags_cursor fuel w [].
Proof.
  intros Hw. unfold parse. rewrite parse_loop_cursor by apply wf_new.
  rewrite rem_new. by destruct w.
Qed.

Lemma parse_diverges_loop w :
  valid Word w -> forallb segment_ok (segments w) = false -> forall fuel, parse fuel w = None.
Proof.
  intros [_ Hw]%valid_iff Hok fuel. rewrite parse_cursor by (by intros ->).
  by rewrite tags_cursor_diverges.
Qed.

Lemma unescape_loop_nonul l e acc :
  Forall (fun b => is_invalid NoNul b = false) acc -> Forall (fun b => is_invalid NoNul b = false) l ->
  Forall (fun b => is_invalid NoNul b = false) (unescape_loop l e acc).
Proof.
  intros Ha Hl. revert e acc Ha. induction Hl as [|b l Hb _ IH]; intros e acc Ha; simpl; [done|].
  destruct e; [apply IH; apply Forall_app; split; [done|]; repeat constructor; by byte_cases b|].
  destruct (Byte.eqb b "\"); apply IH; [done|]. apply Forall_app. split; [done|]. by repeat constructor.
Qed.

Lemma unescape_nonul l : valid NoNul l -> valid NoNul (unescape l).
Proof.
  rewrite !valid_iff. intros [_ Hl]. split; [done|]. unfold unescape.
  destruct (position _ l) as [i|]; [|done]. rewrite <- (take_drop i l) in Hl.
  apply Forall_app in Hl as [H1 H2]. destruct (drop i l) as [|b r] eqn:Ed.
  - rewrite <- (take_drop i l), Ed, app_nil_r. done.
  - apply Forall_cons_iff in H2 as [Hb Hr]. apply unescape_loop_nonul; [|done].
    apply Forall_app. split; [done|]. repeat constructor. by byte_cases b.
Qed.

Lemma word_take_drop (f : byte -> bool) l :
  word_bytes l -> word_bytes (take_while f l) /\ word_bytes (drop_while f l).
Proof. intros H. rewrite <- (take_drop_while f l) in H. by apply word_bytes_app in H. Qed.

Lemma segments_word l : word_bytes l ->
  Forall (fun seg => word_bytes seg /\ Forall (fun b => Byte.eqb b ";" = false) seg) (segments l).
Proof.
  remember (length l) as n eqn:Hn. revert l Hn. induction n as [n IH] using lt_wf_ind.
  intros l -> Hl. rewrite split_on_cons. pose proof (word_take_drop (fun y => negb (Byte.eqb y ";")) l Hl) as [H1 H2].
  constructor.
  - split; [done|]. eapply Forall_impl; [apply take_while_Forall|]. simpl. intros b. by destruct (Byte.eqb b ";").
  - destruct (drop_while _ l) as [|b r] eqn:Ed; [constructor|]. apply Forall_cons_iff in H2 as [_ H2].
    apply (IH (length r)); [|done..]. pose proof (length_drop_while (fun y => negb (Byte.eqb y ";")) l) as Hd.
    rewrite Ed in Hd. simpl in Hd. lia.
Qed.

Lemma word_nonul l : word_bytes l -> valid NoNul l.
Proof.
  intros H. apply valid_iff. split; [done|]. eapply Forall_impl; [exact H|]. intros b. by byte_cases b.
Qed.

Lemma key_bytes t :
  word_bytes t -> Forall (fun b => Byte.eqb b ";" = false) t ->
  Forall (fun b => negb (Byte.eqb b "=") = true) t -> Forall (fun b => is_invalid Key b = false) t.
Proof.
  intros H1 H2 H3. induction t as [|x t IH]; [constructor|].
  apply Forall_cons_iff in H1 as [? ?], H2 as [? ?], H3 as [? ?].
  constructor; [by byte_cases x|auto].
Qed.

(** Keys and values of parsed segments are what their types say. *)
Lemma parse_segment_valid seg kv :
  word_bytes seg -> Forall (fun b => Byte.eqb b ";" = false) seg -> segment_ok seg = true ->
  parse_segment seg = Some kv -> valid Key kv.1 /\ valid NoNul kv.2.
Proof.
  intros Hw Hs Hok. unfold parse_segment, segment_ok in *.
  destruct (word_take_drop (fun b => Byte.eqb b "=") seg Hw) as [_ Hw1].
  assert (Hs1 : Forall (fun b => Byte.eqb b ";" = false) (drop_while (fun b => Byte.eqb b "=") seg)).
  { rewrite <- (take_drop_while (fun b => Byte.eqb b "=") seg) in Hs. by apply Forall_app in Hs as [_ ?]. }
  destruct (drop_while (fun b => Byte.eqb b "=") seg) as [|b r] eqn:Ed; [done|].
  apply drop_while_head in Ed. intros Hkv%(inj Some). subst kv. cbn [fst snd].
  apply negb_true_iff in Hok. split.
  - apply valid_iff. split.
    + cbn [take_while]. rewrite Ed. cbn [negb]. apply arg_first_check_None. eexists _, _. split; [done|].
      intros ->. done.
    + destruct (word_take_drop (fun b => negb (Byte.eqb b "=")) (b :: r) Hw1) as [H1 _].
      rewrite <- (take_drop_while (fun b => negb (Byte.eqb b "=")) (b :: r)) in Hs1.
      apply Forall_app in Hs1 as [H2 _].
      apply key_bytes; [done|done|]. exact (take_while_Forall (fun b => negb (Byte.eqb b "=")) (b :: r)).
  - destruct (word_take_drop (fun b => negb (Byte.eqb b "=")) (b :: r) Hw1) as [_ H1].
    destruct (drop_while (fun b => negb (Byte.eqb b "=")) (b :: r)); [done|].
    apply Forall_cons_iff in H1 as [_ H1]. apply unescape_nonul, word_nonul, H1.
Qed.

Lemma word_bytes_valid l : valid Word l -> word_bytes l.
Proof. by intros [_ ?]%valid_iff. Qed.

Lemma parse_segments_wf w fuel :
  valid Word w -> forallb segment_ok (segments w) = true -> length w < fuel ->
  parse fuel w = Some (from_vec fst (omap parse_segment (segments w))) /\
  tags_wf (from_vec fst (omap parse_segment (segments w))).
Proof.
  intros Hw Hok Hf. apply word_bytes_valid in Hw.
  set (v := omap parse_segment (segments w)).
  assert (Hp : parse fuel w = Some (from_vec fst v)).
  { destruct w as [|b w]; [done|]. rewrite parse_cursor by done.
    rewrite tags_cursor_ok by done. done. }
  destruct (from_vec_spec fst v) as [Hs Hk]. split; [done|]. split; [done|].
  assert (Hv : Forall (fun kv => valid Key kv.1 /\ valid NoNul kv.2) v).
  { apply List.Forall_forall. intros kv Hin. apply list_elem_of_In, list_elem_of_omap in Hin as (seg & Hin & Hps).
    pose proof (segments_word w Hw) as Hsw. rewrite List.Forall_forall in Hsw.
    apply list_elem_of_In in Hin. destruct (Hsw _ Hin) as [H1 H2].
    rewrite forallb_forall in Hok. eapply parse_segment_valid; eauto. }
  apply List.Forall_forall. intros kv Hin. apply list_elem_of_In in Hin.
  assert (Hw' : kv ∈ with_key fst kv.1 (from_vec fst v)) by (by apply elem_of_with_key).
  rewrite Hk in Hw'. destruct (last (with_key fst kv.1 v)) as [e|] eqn:El; [|by apply elem_of_nil in Hw'].
  apply list_elem_of_singleton in Hw'. subst e.
  apply last_Some in El as [l' El]. rewrite List.Forall_forall in Hv. apply Hv, list_elem_of_In.
  assert (Hin' : kv ∈ with_key fst kv.1 v) by (rewrite El; apply elem_of_app; right; by left).
  by apply elem_of_with_key in Hin' as [? _].
Qed.

(** ** Theorems *)

(** C31: parsing a tag list finishes with the map of its semicolon-delimited
    parts, each part's key up to [=] and its value unescaped, later duplicates
    winning and empty parts skipped; the map is sorted and holds only valid
    keys and values.  This for every word in which no part has a colon where
    its key should start. *)
Theorem parse_segments w fuel :
  valid Word w -> forallb segment_ok (segments w) = true -> length w < fuel ->
  exists t, parse fuel w = Some t /\ tags_wf t /\
    t = from_vec fst (omap parse_segment (segments w)) /\
    forall k, FlatMap.get fst t k = last (with_key fst k (omap parse_segment (segments w))).
Proof.
  intros Hw Hok Hf. destruct (parse_segments_wf w fuel Hw Hok Hf) as [H1 H2].
  eexists. split; [exact H1|]. split; [exact H2|]. split; [done|]. intros k. apply get_from_vec.
Qed.

Lemma parse_segments_witness :
  valid Word (bs "b=2;;a;b=3") /\
  exists t, parse 11 (bs "b=2;;a;b=3") = Some t /\ t = [(bs "a", []); (bs "b", bs "3")].
Proof.
  split; [reflexivity|].
  destruct (parse_segments (bs "b=2;;a;b=3") 11 eq_refl eq_refl ltac:(simpl; lia)) as (t & H1 & _ & H2 & _).
  exists t. split; [exact H1|]. rewrite H2. reflexivity.
Defined.

(** On any other word the parser never returns: no amount of fuel ends the
    loop, which reaches a colon that starts no key and that
    [consume_invalid] does not skip. *)
Theorem parse_diverges w :
  valid Word w -> forallb segment_ok (segments w) = false -> forall fuel, parse fuel w = None.
Proof. apply parse_diverges_loop. Qed.

Lemma parse_diverges_witness :
  valid Word (bs "a=1;:b") /\ forall fuel, parse fuel (bs "a=1;:b") = None.
Proof. split; [reflexivity|]. exact (parse_diverges (bs "a=1;:b") eq_refl eq_refl). Defined.

(** ** Round trip *)

(** A tag on the wire. *)
Definition tag_segment (kv : Tag) : list byte :=
  kv.1 ++ match kv.2 with [] => [] | _ => "="%byte :: escape kv.2 end.

Lemma key_not_semicolon k : valid Key k ->
  Forall (fun b => Byte.eqb b ";" = false) k /\ Forall (fun b => Byte.eqb b "=" = false) k /\
  exists b r, k = b :: r /\ b <> ":"%byte /\ b <> "="%byte.
Proof.
  intros [Hc Hf]%valid_iff. split_and!.
  - eapply Forall_impl; [exact Hf|]. intros b. by byte_cases b.
  - eapply Forall_impl; [exact Hf|]. intros b. by byte_cases b.
  - apply arg_first_check_None in Hc as (b & r & -> & Hb). exists b, r. split; [done|]. split; [done|].
    intros ->. by inversion Hf.
Qed.

Lemma tag_segment_semicolon kv :
  valid Key kv.1 -> Forall (fun b => Byte.eqb b ";" = false) (tag_segment kv).
Proof.
  intros Hk. unfold tag_segment. apply Forall_app. split; [by apply key_not_semicolon|].
  destruct kv.2; constructor; [done|]. apply escape_no_semicolon.
Qed.

Lemma parse_tag_segment kv :
  valid Key kv.1 ->
  parse_segment (tag_segment kv) = Some (kv.1, unescape (escape kv.2)) /\
  segment_ok (tag_segment kv) = true.
Proof.
  intros Hk. destruct (key_not_semicolon _ Hk) as (_ & He & b & r & Hkr & H1 & H2).
  assert (Hne : kv.1 <> []) by (by rewrite Hkr). split.
  - unfold tag_segment. destruct kv.2 as [|x v] eqn:Ev.
    + rewrite app_nil_r. rewrite (proj2 (parse_segment_pair _ [] Hne He)). done.
    + by rewrite (proj1 (parse_segment_pair _ _ Hne He)).
  - unfold tag_segment. rewrite Hkr. by apply segment_ok_head.
Qed.

Lemma write_loop_segments p t :
  Forall (fun kv => valid Key kv.1) t -> t <> [] ->
  exists r, write_loop p t = p :: r /\ segments r = tag_segment <$> t.
Proof.
  intros Ht. revert p. induction Ht as [|[k v] t Hk Ht IH]; intros p Hne; [done|].
  pose proof (tag_segment_semicolon (k, v) Hk) as Hs. unfold tag_segment in Hs. simpl in Hs.
  cbn [write_loop]. eexists. split; [reflexivity|]. cbn [fmap list_fmap]. rewrite app_assoc.
  destruct t as [|kv t].
  - cbn [write_loop]. rewrite app_nil_r. by rewrite split_on_none.
  - destruct (IH ";"%byte) as (r & Hr & Hs'); [done|]. rewrite Hr. rewrite split_on_app by done.
    by rewrite Hs'.
Qed.

Lemma tags_write_word t :
  Forall (fun kv => valid Key kv.1 /\ valid NoNul kv.2) t -> valid Word (write_to t).
Proof.
  intros Ht. apply valid_iff. split; [done|]. unfold write_to.
  assert (Hp : forall p, is_invalid Word p = false -> word_bytes (write_loop p t)); [|by apply Hp].
  induction Ht as [|[k v] t [Hk Hv] Ht IH]; intros p Hp; [constructor|]. cbn [write_loop].
  constructor; [done|]. apply word_bytes_app. split; [apply word_bytes_valid; simpl in Hk; auto with vz|].
  apply word_bytes_app. split; [|by apply IH]. destruct v as [|x v]; constructor; [done|].
  by apply word_bytes_valid, escape_valid.
Qed.

Lemma tags_rt_fmap t :
  sorted fst t -> sorted fst ((fun kv : Tag => (kv.1, unescape (escape kv.2))) <$> t).
Proof.
  unfold sorted. induction 1 as [|x t Hs IH Hf]; cbn; constructor; [done|].
  apply List.Forall_map. eapply Forall_impl; [exact Hf|]. done.
Qed.

Lemma tags_write_parse t fuel :
  tags_wf t -> t <> [] -> length (write_to t) <= fuel ->
  exists r, write_to t = "@"%byte :: r /\
    parse fuel r = Some ((fun kv => (kv.1, unescape (escape kv.2))) <$> t).
Proof.
  intros [Hs Hv] Hne Hf. pose proof (tags_write_word t Hv) as Hw.
  destruct (write_loop_segments "@" t) as (r & Hr & Hseg);
    [eapply Forall_impl; [exact Hv|]; by intros kv [? _]|done|].
  exists r. split; [done|]. unfold write_to in *. rewrite Hr in *.
  apply word_bytes_valid in Hw. apply Forall_cons_iff in Hw as [_ Hw].
  assert (Hr0 : r <> []).
  { intros ->. destruct t as [|kv t]; [done|]. cbn in Hseg. injection Hseg as Hk _.
    apply Forall_cons_iff in Hv as [[Hv _] _].
    destruct (key_not_semicolon _ Hv) as (_ & _ & b & r & E & _). unfold tag_segment in Hk. by rewrite E in Hk. }
  rewrite parse_cursor by done. simpl in Hf.
  assert (Hps : omap parse_segment (tag_segment <$> t) = (fun kv : Tag => (kv.1, unescape (escape kv.2))) <$> t /\
                forallb segment_ok (tag_segment <$> t) = true).
  { clear -Hv. induction Hv as [|kv t [Hk _] _ [IH1 IH2]]; [done|]. cbn.
    destruct (parse_tag_segment kv Hk) as [-> ->]. rewrite IH2. split; [|done]. f_equal. exact IH1. }
  rewrite tags_cursor_ok; [|simpl; lia|done|rewrite Hseg; apply Hps]. rewrite Hseg, (proj1 Hps). cbn [app fmap option_fmap option_map].
  rewrite from_vec_sorted; [done|]. by apply tags_rt_fmap.
Qed.

(** No value contains a byte that has to be escaped. *)
Definition tags_clean (t : Tags) : Prop :=
  Forall (fun kv => Forall (fun b => needs_escape b = false) kv.2) t.

Lemma tags_clean_rt t :
  tags_clean t -> ((fun kv : Tag => (kv.1, unescape (escape kv.2))) <$> t) = t.
Proof.
  induction 1 as [|[k v] t Hv _ IH]; [done|]. cbn. rewrite IH. simpl in Hv.
  rewrite escape_clean by done. rewrite unescape_clean by (by apply clean_no_backslash). done.
Qed.

(** C32: a well-formed tag map written out, its leading [@] taken off and parsed
    again is the same map, provided no value needs escaping; in any case the
    same keys come back, each value as [unescape (escape value)]. *)
Theorem tags_roundtrip t fuel :
  tags_wf t -> t <> [] -> length (write_to t) <= fuel ->
  exists r, write_to t = "@"%byte :: r /\ valid Word r /\
    parse fuel r = Some ((fun kv => (kv.1, unescape (escape kv.2))) <$> t) /\
    (tags_clean t -> parse fuel r = Some t).
Proof.
  intros Ht Hne Hf. destruct (tags_write_parse t fuel Ht Hne Hf) as (r & Hr & Hp).
  exists r. split; [done|]. split.
  - pose proof (tags_write_word t (proj2 Ht)) as Hw. rewrite Hr in Hw. apply valid_iff in Hw as [_ Hw].
    apply valid_iff. split; [done|]. by apply Forall_cons_iff in Hw as [_ ?].
  - split; [done|]. intros Hc. by rewrite Hp, tags_clean_rt.
Qed.

Lemma tags_roundtrip_witness :
  tags_wf [(bs "+a", []); (bs "id", bs "9")] /\ parse 9 (bs "+a;id=9") = Some [(bs "+a", []); (bs "id", bs "9")].
Proof.
  assert (H : tags_wf [(bs "+a", []); (bs "id", bs "9")]) by (split; repeat constructor).
  split; [exact H|].
  destruct (tags_roundtrip [(bs "+a", []); (bs "id", bs "9")] 9 H) as (r & Hr & _ & _ & Hp).
  - discriminate.
  - simpl. lia.
  - injection Hr as <-. apply Hp. repeat constructor.
Defined.

(** [FromIterator] inserts through one edit guard, so a repeated key below
    the largest key is not found again: the collected map has it twice. *)
Theorem from_iter_duplicates a b v w x :
  kcmp a b = Lt ->
  Permutation (from_iter [(b, x); (a, v); (a, w)]) [(b, x); (a, v); (a, w)] /\
  ~ sorted fst (from_iter [(b, x); (a, v); (a, w)]).
Proof.
  intros Hlt. assert (Hgt : kcmp b a = Gt) by (by apply kcmp_gt).
  assert (Hp : Permutation (from_iter [(b, x); (a, v); (a, w)]) [(b, x); (a, v); (a, w)]).
  { unfold from_iter, edit_drop. rewrite guard_drop_perm. cbn [foldl fst snd].
    assert (H1 : (insert_pair (edit new) b x).2 = mkGuard [(b, x)] 1) by done.
    assert (H2 : forall l, get_idx fst (mkGuard ((b, x) :: l) 1) a = None).
    { intros l. unfold get_idx, get_impl. cbn [src sorted_until].
      change (take 1 ((b, x) :: l)) with [(b, x)]. cbn. cbn in Hgt. by rewrite Hgt. }
    rewrite H1. unfold insert_pair, FlatMap.insert. cbn [fst]. rewrite H2. unfold push at 2. cbn.
    cbn in Hlt. rewrite Hlt. cbn. rewrite H2. done. }
  split; [done|]. intros Hs%sorted_nodup. rewrite Hp in Hs. cbn in Hs.
  apply NoDup_cons in Hs as [_ Hs]. apply NoDup_cons in Hs as [Hs _]. apply Hs. by left.
Qed.

Lemma from_iter_duplicates_witness :
  Permutation (from_iter [(bs "b", []); (bs "a", bs "1"); (bs "a", bs "2")])
    [(bs "b", []); (bs "a", bs "1"); (bs "a", bs "2")].
Proof.
  exact (proj1 (from_iter_duplicates (bs "a") (bs "b") (bs "1") (bs "2") [] eq_refl)).
Defined.
