(* ===== verification/Args.v ===== *)
(** * Message arguments

    [src/ircmsg/args.rs]: the argument list of a message, where only the last
    argument may be something other than a single word.  Arguments are kept as
    their bytes. *)

From S2P Require Import Prelude BytesCell Strings Utf8 Splitter.

(** [Args]; [words] hold [Arg]s and [long] a [Line]. *)
Record Args := mkArgs { words : list (list byte); long : option (list byte) }.

Definition empty : Args := mkArgs [] None.

(** [add_impl]: the updated list and the long argument it displaced. *)
Definition add_impl (a : Args) (s : list byte) : option (list byte) * Args :=
  let is_long := match find_invalid Arg s with Some _ => true | None => false end in
  if is_long then (long a, mkArgs (words a) (Some s))
  else (long a, mkArgs (words a ++ [s]) None).

Definition new (words : list (list byte)) (last : option (list byte)) : Args :=
  match last with
  | Some last => (add_impl (mkArgs words None) last).2
  | None => mkArgs words None
  end.

(** ** The edit guard *)

Definition add_word (a : Args) (w : list byte) : Args := mkArgs (words a ++ [w]) (long a).

Definition add_before_last (a : Args) (w : list byte) : Args :=
  match long a, last (words a) with
  | None, Some l => mkArgs (take (length (words a) - 1) (words a) ++ [w] ++ [l]) (long a)
  | _, _ => mkArgs (words a ++ [w]) (long a)
  end.

Definition add (a : Args) (s : list byte) : option (list byte) * Args := add_impl a s.

(** [add_literal]; [None] is the panic of [Line::from_str]. *)
Definition add_literal (a : Args) (s : list byte) : option Args :=
  match from_str Line s with
  | Some s => Some (add a s).2
  | None => None
  end.

Definition args_left (a : Args) : Z := 15 - Z.of_nat (length (words a)).

Definition clear (a : Args) : Args := mkArgs [] None.

(** ** Queries *)

Definition is_empty (a : Args) : bool :=
  match words a, long a with [], None => true | _, _ => false end.

Definition len (a : Args) : nat :=
  length (words a) + match long a with Some _ => 1 | None => 0 end.

Definition len_bytes (a : Args) : nat :=
  foldl (fun count arg => count + (length arg + 1)) 0 (words a) +
  match long a with Some long => length long + 1 | None => 0 end.

Definition is_last_long (a : Args) : bool := match long a with Some _ => true | None => false end.

Definition all (a : Args) : option (list (list byte)) :=
  match long a with None => Some (words a) | Some _ => None end.

Definition split_last (a : Args) : list (list byte) * option (list byte) :=
  match long a with
  | Some long => (words a, Some long)
  | None =>
      match last (words a) with
      | Some l => (take (length (words a) - 1) (words a), Some l)
      | None => ([], None)
      end
  end.

(** [set]. *)
Definition set (args : list (list byte)) (last : option (list byte)) : Args :=
  match last with
  | Some last =>
      match from_bytes Arg last with
      | Ok word => mkArgs (args ++ [word]) None
      | Err _ => mkArgs args (Some last)
      end
  | None => mkArgs args None
  end.

(** ** Parsing and printing *)

(** The loop of [parse]. *)
Fixpoint parse_loop (fuel : nat) (line : Splitter) (a : Args) : option Args :=
  match fuel with
  | 0 => None
  | S fuel =>
      let line := consume_whitespace line in
      match string Arg false line with
      | (Ok arg, line) => parse_loop fuel line (mkArgs (words a ++ [value arg]) (long a))
      | (Err ISColon, line) =>
          let line := (next_byte line).2 in
          Some (add_impl a (value (rest_or_default Line line).1)).2
      | (Err _, _) => Some a
      end
  end.

(** Every turn but the last takes a byte of the line. *)
Definition parse (line : list byte) : option Args :=
  parse_loop (S (length line)) (Splitter.new (plain line)) empty.

(** [Display]. *)
Definition fmt (a : Args) : list byte :=
  match long a with
  | Some long => flat_map (fun arg => show arg ++ bs " ") (words a) ++ bs ":" ++ show long
  | None =>
      match last (words a) with
      | Some l =>
          flat_map (fun arg => show arg ++ bs " ") (take (length (words a) - 1) (words a)) ++ show l
      | None => []
      end
  end.

(** The invariant. *)
Definition args_wf (a : Args) : Prop :=
  Forall (valid Arg) (words a) /\
  (forall l, long a = Some l -> valid Line l /\ find_invalid Arg l <> None).

(** ** Invariant preservation *)

Inductive ArgsOp :=
| AAddWord (w : list byte)
| AAddBeforeLast (w : list byte)
| AAdd (s : list byte)
| AClear
| ASet (args : list (list byte)) (last : option (list byte)).

Definition run_args (o : ArgsOp) (a : Args) : Args :=
  match o with
  | AAddWord w => add_word a w
  | AAddBeforeLast w => add_before_last a w
  | AAdd s => (add a s).2
  | AClear => clear a
  | ASet args last => set args last
  end.

(** What the argument types guarantee. *)
Definition args_op_ok (o : ArgsOp) : Prop :=
  match o with
  | AAddWord w | AAddBeforeLast w => valid Arg w
  | AAdd s => valid Line s
  | AClear => True
  | ASet args last => Forall (valid Arg) args /\ forall l, last = Some l -> valid Line l
  end.

Lemma add_impl_wf a s : args_wf a -> valid Line s -> args_wf (add_impl a s).2.
Proof.
  intros [Hw Hl] Hs. unfold add_impl. destruct (find_invalid Arg s) eqn:E; simpl.
  - split; simpl; [done|]. intros l [= <-]. split; [done|]. by rewrite E.
  - split; simpl; [|done]. apply Forall_app. split; [done|]. by repeat constructor.
Qed.

Lemma run_args_wf o a : args_op_ok o -> args_wf a -> args_wf (run_args o a).
Proof.
  intros Ho Ha. pose proof Ha as [Hw Hl]. destruct o as [w|w|s| |args lst]; simpl in *.
  - split; simpl; [|done]. apply Forall_app. split; [done|]. by repeat constructor.
  - unfold add_before_last. destruct (long a) as [g|] eqn:Eg.
    + split; simpl; [|by rewrite ?Eg]. apply Forall_app. split; [done|]. by repeat constructor.
    + destruct (last (words a)) as [l|] eqn:El; (split; simpl; [|by rewrite ?Eg]).
      * apply last_Some in El as [ws El]. rewrite El in *. rewrite length_app. simpl.
        rewrite Nat.add_sub, take_app_length. apply Forall_app in Hw as [H1 H2].
        apply Forall_app. split; [done|]. constructor; [done|]. done.
      * apply Forall_app. split; [done|]. by repeat constructor.
  - by apply add_impl_wf.
  - by split.
  - destruct Ho as [H1 H2]. unfold set. destruct lst as [l|]; [|by split].
    destruct (from_bytes Arg l) eqn:E.
    + apply from_bytes_Ok in E as [-> ?]. split; simpl; [|done].
      apply Forall_app. split; [done|]. by repeat constructor.
    + split; simpl; [done|]. intros l' [= <-]. split; [auto|].
      unfold from_bytes in E. by destruct (find_invalid Arg l).
Qed.

(** ** The parser on bytes *)

Fixpoint args_cursor (fuel : nat) (l : list byte) (a : Args) : option Args :=
  match fuel with
  | 0 => None
  | S fuel =>
      let l := drop_while is_ascii_whitespace l in
      match cursor_string Arg false l with
      | Ok arg => args_cursor fuel (drop (length arg) l) (mkArgs (words a ++ [arg]) (long a))
      | Err ISColon => Some (add_impl a (tail l)).2
      | Err _ => Some a
      end
  end.

Lemma args_parse_loop_cursor fuel s a : parse_loop fuel s a = args_cursor fuel (as_slice s) a.
Proof.
  revert s a. induction fuel as [|fuel IH]; intros s a; [done|]. cbn [parse_loop args_cursor].
  set (s1 := consume_whitespace s). pose proof (rem_consume_whitespace s) as H1. fold s1 in H1.
  destruct (string_cursor Arg false s1) as [S1 S2]. rewrite H1 in S1, S2.
  destruct (string Arg false s1) as [r s2]. simpl in S1, S2. subst r.
  destruct (cursor_string Arg false _) as [w|e] eqn:E.
  - rewrite IH, S2. done.
  - destruct e; try done. destruct (rest_or_default_cursor Line (next_byte s2).2 eq_refl) as [-> _].
    by rewrite (proj2 (rem_next_byte s2)), S2.
Qed.

Lemma args_parse_cursor line : parse line = args_cursor (S (length line)) line empty.
Proof. unfold parse. by rewrite args_parse_loop_cursor, rem_new. Qed.

Lemma line_tail_valid l : valid Line l -> valid Line (tail l).
Proof.
  rewrite !valid_iff. intros [_ H]. split; [done|]. destruct l; [done|]. by apply Forall_cons_iff in H as [_ ?].
Qed.

Lemma line_drop_while_valid f l : valid Line l -> valid Line (drop_while f l).
Proof.
  rewrite !valid_iff. intros [_ H]. split; [done|]. rewrite <- (take_drop_while f l) in H.
  by apply Forall_app in H as [_ ?].
Qed.

Lemma line_drop_valid n l : valid Line l -> valid Line (drop n l).
Proof.
  rewrite !valid_iff. intros [_ H]. split; [done|]. rewrite <- (take_drop n l) in H.
  by apply Forall_app in H as [_ ?].
Qed.

(** The parser returns a well-formed list on every line. *)
Lemma args_cursor_total fuel l a :
  length l < fuel -> valid Line l -> args_wf a -> exists a', args_cursor fuel l a = Some a' /\ args_wf a'.
Proof.
  revert l a. induction fuel as [|fuel IH]; intros l a Hf Hl Ha; [lia|]. cbn [args_cursor].
  pose proof (line_drop_while_valid is_ascii_whitespace l Hl) as Hl'.
  pose proof (length_drop_while is_ascii_whitespace l) as Hd.
  destruct (cursor_string Arg false _) as [w|e] eqn:E.
  - pose proof (cursor_string_valid _ _ _ _ E) as Hv.
    pose proof (length_cursor_string _ _ _ _ E) as Hlen.
    assert (length w <> 0).
    { pose proof Hv as Hv'. apply valid_iff in Hv' as [Hc _]. by destruct w. }
    apply IH; [rewrite length_drop; lia|by apply line_drop_valid|].
    destruct Ha as [Hw Hlg]. split; simpl; [|done]. apply Forall_app. split; [done|]. by repeat constructor.
  - destruct e; eauto. eexists. split; [done|]. apply add_impl_wf; [done|]. by apply line_tail_valid.
Qed.

(** ** Writing *)

(** The arguments as [write_to] of a message writes them. *)
Definition write_args (a : Args) : list byte :=
  flat_map (fun w => " "%byte :: w) (words a) ++
  match long a with Some l => bs " :" ++ l | None => [] end.

(** A word the parser's whitespace skipping leaves alone. *)
Definition no_leading_ws (w : list byte) : Prop :=
  forall b, head w = Some b -> is_ascii_whitespace b = false.

Lemma cursor_string_word U w r :
  valid U w -> (r = [] \/ exists b r', r = b :: r' /\ is_invalid U b = true) ->
  cursor_string U false (w ++ r) = Ok w.
Proof.
  intros [Hc Hf]%valid_iff Hr. unfold cursor_string.
  assert (Ht : take_while (fun b => negb (is_invalid U b)) (w ++ r) = w).
  { rewrite take_while_app by (eapply Forall_impl; [exact Hf|]; simpl; by intros b ->).
    destruct Hr as [->|(b & r' & -> & Hb)]; simpl; [by rewrite app_nil_r|]. rewrite Hb. simpl. by rewrite app_nil_r. }
  rewrite Ht, Hc. by destruct (drop (length w) (w ++ r)).
Qed.

Lemma args_cursor_words ws fuel r a :
  Forall (valid Arg) ws -> Forall no_leading_ws ws -> (r = [] \/ exists r', r = " "%byte :: r') ->
  length ws <= fuel ->
  args_cursor fuel (flat_map (fun w => " "%byte :: w) ws ++ r) a =
  args_cursor (fuel - length ws) r (mkArgs (words a ++ ws) (long a)).
Proof.
  intros Hv. revert fuel a. induction Hv as [|w ws Hw _ IH]; intros fuel a Hn Hr Hf.
  - simpl. rewrite Nat.sub_0_r, app_nil_r. by destruct a.
  - apply Forall_cons_iff in Hn as [Hn1 Hn2]. simpl in Hf. destruct fuel as [|fuel]; [lia|].
    cbn [flat_map app]. rewrite <- app_assoc. set (t := flat_map _ ws ++ r).
    cbn [args_cursor drop_while]. change (is_ascii_whitespace " ") with true.
    assert (Hd : drop_while is_ascii_whitespace (w ++ t) = w ++ t).
    { destruct w as [|b w]; [by apply valid_iff in Hw as [? _]|]. simpl. by rewrite (Hn1 b). }
    cbv iota. rewrite Hd. rewrite cursor_string_word.
    + rewrite drop_app_length. unfold t. rewrite IH by (done || lia). simpl.
      by rewrite <- app_assoc.
    + done.
    + unfold t. destruct ws as [|w' ws]; [|right; by eexists _, _].
      destruct Hr as [->|[r' ->]]; [by left|right; by eexists _, _].
Qed.

Lemma args_write_parse a :
  args_wf a -> Forall no_leading_ws (words a) -> parse (write_args a) = Some a.
Proof.
  intros [Hw Hl] Hn. rewrite args_parse_cursor. unfold write_args.
  assert (Hlen : forall ws : list (list byte), length ws <= length (flat_map (fun w => " "%byte :: w) ws)).
  { induction ws as [|w ws IH]; simpl; [lia|]. rewrite length_app. lia. }
  rewrite args_cursor_words; [|done|done| |].
  - rewrite length_app. specialize (Hlen (words a)). destruct a as [ws [l|]]; simpl in *.
    + destruct (Hl l eq_refl) as [_ Hi]. 
      replace (S (_ + S (S (length l))) - length ws) with (S (length (flat_map (fun w => " "%byte :: w) ws) + S (S (length l)) - length ws)) by lia.
      cbn. rewrite cursor_string_colon by done. unfold add_impl. by destruct (find_invalid Arg l).
    + replace (S _ - length ws) with (S (length (flat_map (fun w => " "%byte :: w) ws) + 0 - length ws)) by lia. done.
  - destruct (long a); [right; by eexists|by left].
  - specialize (Hlen (words a)). rewrite length_app. lia.
Qed.

Lemma split_last_write a :
  write_args a =
  flat_map (fun w => " "%byte :: w) (split_last a).1 ++
  match (split_last a).2 with
  | Some l => (if is_last_long a then bs " :" else bs " ") ++ l
  | None => []
  end.
Proof.
  unfold write_args, split_last, is_last_long. destruct (long a) as [l|]; [done|]. rewrite app_nil_r.
  destruct (last (words a)) as [l|] eqn:E; simpl; [|by apply last_None in E as ->].
  apply last_Some in E as [ws ->]. rewrite length_app, Nat.add_sub, take_app_length, flat_map_app. simpl.
  by rewrite app_nil_r.
Qed.

Lemma write_args_line a : args_wf a -> valid Line (write_args a).
Proof.
  intros [Hw Hl]. apply valid_iff. split; [done|]. unfold write_args. apply Forall_app. split.
  - induction Hw as [|w ws Hw _ IH]; [constructor|]. simpl. constructor; [done|].
    apply Forall_app. split; [|done]. assert (Hv : valid Line w) by auto with vz. by apply valid_iff in Hv as [_ ?].
  - destruct (long a) as [l|]; [|done]. destruct (Hl l eq_refl) as [Hv _].
    apply valid_iff in Hv as [_ Hv]. by repeat constructor.
Qed.

(** ** Theorems *)

(** Every operation keeps the invariant that only the last argument may be
    something other than a single valid [Arg], and adding a string in any way
    but [add_before_last] leaves it last. *)
Theorem args_ops_wf a ops :
  args_wf a -> Forall args_op_ok ops ->
  args_wf (foldl (fun a o => run_args o a) a ops) /\
  forall s, valid Line s ->
    (split_last (add (foldl (fun a o => run_args o a) a ops) s).2).2 = Some s.
Proof.
  intros Ha Hops. split.
  - revert a Ha. induction Hops as [|o ops Ho _ IH]; intros a Ha; [done|]. simpl. apply IH. by apply run_args_wf.
  - intros s _. unfold add, add_impl. destruct (find_invalid Arg s); unfold split_last; simpl; [done|].
    by rewrite last_snoc.
Qed.

Lemma args_ops_wf_witness :
  args_wf empty /\
  args_wf (foldl (fun a o => run_args o a) empty [AAddWord (bs "a"); AAdd (bs "b c"); AAdd (bs "d")]).
Proof.
  assert (H : args_wf empty) by (split; [constructor|discriminate]).
  split; [exact H|].
  refine (proj1 (args_ops_wf empty [AAddWord (bs "a"); AAdd (bs "b c"); AAdd (bs "d")] H _)).
  repeat constructor.
Defined.

(** The argument parser returns on every line, its result satisfies the
    invariant, and a well-formed list comes back from its wire form exactly,
    provided no word starts with a tab or form feed, which the parser would
    take for separators. *)
Theorem args_parse_correct line a :
  (valid Line line -> exists a', parse line = Some a' /\ args_wf a') /\
  (args_wf a -> Forall no_leading_ws (words a) ->
     valid Line (write_args a) /\ parse (write_args a) = Some a).
Proof.
  split.
  - intros Hl. rewrite args_parse_cursor. apply args_cursor_total; [lia|done|]. by split.
  - intros Ha Hn. split; [by apply write_args_line|by apply args_write_parse].
Qed.

Lemma args_parse_correct_witness :
  parse (write_args (mkArgs [bs "#chan"] (Some (bs "hi there")))) =
  Some (mkArgs [bs "#chan"] (Some (bs "hi there"))).
Proof.
  refine (proj2 (proj2 (args_parse_correct [] (mkArgs [bs "#chan"] (Some (bs "hi there")))) _ _)).
  - split; [by repeat constructor|]. intros l [= <-]. split; [reflexivity|discriminate].
  - repeat constructor. intros b [= <-]. reflexivity.
Defined.

(** Without that proviso the round trip fails: a word may contain a tab,
    and a leading one is lost, or with it the whole argument. *)
Theorem args_leading_tab_lost w :
  valid Arg w -> no_leading_ws w ->
  valid Arg ("009"%byte :: w) /\ args_wf (mkArgs ["009"%byte :: w] None) /\
  parse (write_args (mkArgs ["009"%byte :: w] None)) = Some (mkArgs [w] None).
Proof.
  intros Hw Hn. assert (Ht : valid Arg ("009"%byte :: w)).
  { apply valid_iff in Hw as [_ Hw]. apply valid_iff. split; [done|]. by constructor. }
  split; [done|]. split; [split; simpl; [by repeat constructor|done]|].
  pose proof (args_write_parse (mkArgs [w] None)) as Hp. rewrite args_parse_cursor in *.
  unfold write_args in *. cbn [words long flat_map] in *. rewrite !app_nil_r in *.
  cbn [length] in Hp |- *. rewrite <- (Hp ltac:(split; simpl; [by repeat constructor|done]) ltac:(by repeat constructor)).
  cbn [args_cursor drop_while]. change (is_ascii_whitespace " ") with true.
  change (is_ascii_whitespace "009") with true. cbv iota.
  assert (Hd : drop_while is_ascii_whitespace w = w).
  { destruct w as [|b w']; [done|]. simpl. by rewrite (Hn b). }
  rewrite Hd. rewrite <- (app_nil_r w), cursor_string_word by (done || by left).
  rewrite drop_app_length. done.
Qed.

Lemma args_leading_tab_lost_witness :
  valid Arg (bs "x") /\
  parse (write_args (mkArgs ["009"%byte :: bs "x"] None)) = Some (mkArgs [bs "x"] None).
Proof.
  split; [reflexivity|].
  apply (args_leading_tab_lost (bs "x")); [reflexivity|]. intros b [= <-]. reflexivity.
Defined.
