(* ===== verification/Source.v ===== *)
(** * Message sources

    [src/ircmsg/source.rs]: [Source] and [UserHost], their wire form, parser,
    length, and the merging of their strings into one buffer. *)

From S2P Require Import Prelude BytesCell Builder Strings Utf8 Splitter.

Record UserHost := mkUserHost { user : option (list byte); host : list byte }.

Record Source := mkSource { nick : list byte; userhost : option UserHost }.

#[global] Instance UserHost_eq_dec : EqDecision UserHost.
Proof. solve_decision. Defined.
#[global] Instance Source_eq_dec : EqDecision Source.
Proof. solve_decision. Defined.

Definition new_server (server_name : list byte) : Source := mkSource server_name None.

Definition new_user (nick user host : list byte) : Source :=
  mkSource nick (Some (mkUserHost (Some user) host)).

Definition source_user (s : Source) : option (list byte) :=
  match userhost s with Some uh => user uh | None => None end.

Definition source_host (s : Source) : option (list byte) :=
  match userhost s with Some uh => Some (host uh) | None => None end.

(** ** [UserHost] *)

Definition userhost_len (uh : UserHost) : nat :=
  match user uh with
  | Some u => length u + 1 + length (host uh)
  | None => length (host uh)
  end.

Definition userhost_write (uh : UserHost) : list byte :=
  match user uh with Some u => u ++ bs "@" | None => [] end ++ host uh.

(** [has_ident]. *)
Definition has_ident (uh : UserHost) : bool :=
  match user uh with Some ("~"%byte :: _) => false | _ => true end.

Definition userhost_parse (string_ : list byte) : result UserHost ParseError :=
  let splitter := Splitter.new (plain string_) in
  let (u, splitter) := save_end (fun s => string User true (until_byte_eq "@" s)) splitter in
  let? u := map_err InvalidUser u in
  let splitter := (next_byte splitter).2 in
  let h := value (rest_or_default Word splitter).1 in
  match h with
  | [] => Err (InvalidHost ISEmpty)
  | _ => Ok (mkUserHost (Some (value u)) h)
  end.

(** ** [Source] *)

(** [len]; the saturating additions cannot saturate for strings in memory. *)
Definition source_len (s : Source) : nat :=
  match userhost s with
  | Some address => length (nick s) + 1 + userhost_len address
  | None => length (nick s)
  end.

Definition source_write (s : Source) : list byte :=
  match userhost s with
  | Some address =>
      nick s ++ match user address with Some u => bs "!" ++ u | None => [] end ++ bs "@" ++ host address
  | None => nick s
  end.

Definition parse (word : list byte) : result Source ParseError :=
  let word := Splitter.new (plain word) in
  let (n, word) := string Nick false word in
  let? n := map_err InvalidNick n in
  match next_byte word with
  | (Some "!"%byte, word) =>
      let? uh := userhost_parse (value (rest_or_default Word word).1) in
      Ok (mkSource (value n) (Some uh))
  | (Some "@"%byte, word) =>
      match value (rest_or_default Word word).1 with
      | [] => Err (InvalidHost ISEmpty)
      | h => Ok (mkSource (value n) (Some (mkUserHost None h)))
      end
  | _ => Ok (mkSource (value n) None)
  end.

(** [owning_merged]; [None] is a panic of one of the [unwrap]s. *)
Definition take_string (U : BytesNewtype) (n : nat) (s : Splitter) : option (list byte * Splitter) :=
  match save_end (fun s => string U true (until_count n s)) s with
  | (Ok w, s) => Some (value w, s)
  | (Err _, _) => None
  end.

Definition owning_merged (s : Source) : option Source :=
  let len_nick := length (nick s) in
  let concat := Builder.new (plain (nick s)) in
  let concat := match userhost s with
                | Some uh =>
                    let concat := match user uh with Some u => append (plain u) concat | None => concat end in
                    append (plain (host uh)) concat
                | None => concat
                end in
  let splitter := Splitter.new (build concat) in
  match take_string Nick len_nick splitter with
  | None => None
  | Some (n, splitter) =>
      match userhost s with
      | None => Some (mkSource n None)
      | Some uh =>
          match user uh with
          | Some u =>
              match take_string User (length u) splitter with
              | None => None
              | Some (u, splitter) =>
                  match take_string Word (length (host uh)) splitter with
                  | None => None
                  | Some (h, _) => Some (mkSource n (Some (mkUserHost (Some u) h)))
                  end
              end
          | None =>
              match take_string Word (length (host uh)) splitter with
              | None => None
              | Some (h, _) => Some (mkSource n (Some (mkUserHost None h)))
              end
          end
      end
  end.

(** [Display]. *)
Definition userhost_fmt (uh : UserHost) : list byte :=
  match user uh with Some u => show u ++ bs "@" ++ show (host uh) | None => show (host uh) end.

Definition fmt (s : Source) : list byte :=
  match userhost s with
  | Some address =>
      match user address with
      | Some u => show (nick s) ++ bs "!" ++ show u ++ bs "@" ++ show (host address)
      | None => show (nick s) ++ bs "@" ++ show (host address)
      end
  | None => show (nick s)
  end.

(** The invariant of the field types; parsed hosts are also not empty. *)
Definition userhost_wf (uh : UserHost) : Prop :=
  (forall u, user uh = Some u -> valid User u) /\ valid Word (host uh) /\ host uh <> [].

Definition source_wf (s : Source) : Prop :=
  valid Nick (nick s) /\ forall uh, userhost s = Some uh -> userhost_wf uh.

(** ** Lemmas *)

Lemma cursor_string_rest U w : valid U w -> cursor_string U true w = Ok w.
Proof.
  intros [Hc Hf]%valid_iff. unfold cursor_string. rewrite take_while_all
    by (eapply Forall_impl; [exact Hf|]; simpl; by intros b ->).
  by rewrite drop_all, Hc.
Qed.

Lemma cursor_string_true_Ok U l w : cursor_string U true l = Ok w -> w = l /\ valid U l.
Proof.
  intros H. pose proof (cursor_string_valid _ _ _ _ H) as Hv. pose proof (cursor_string_take_while _ _ _ _ H) as Hw.
  unfold cursor_string in H. destruct (drop _ l) eqn:Ed; [|done].
  assert (Hl : w = l).
  { rewrite <- (take_drop_while (fun b => negb (is_invalid U b)) l), <- drop_length_take_while, Ed. by rewrite app_nil_r. }
  split; [done|by rewrite <- Hl].
Qed.

(** The host part of a word is a word. *)
Lemma word_part a b : valid Word (a ++ b) -> valid Word a /\ valid Word b.
Proof. rewrite !valid_iff, Forall_app. naive_solver. Qed.

Definition not_at (x : byte) : bool := negb (Byte.eqb x "@").

(** [userhost_parse] on the bytes. *)
Lemma userhost_parse_spec l :
  userhost_parse l =
  match cursor_string User true (take_while not_at l) with
  | Err e => Err (InvalidUser e)
  | Ok u => match tail (drop_while not_at l) with
            | [] => Err (InvalidHost ISEmpty)
            | h => Ok (mkUserHost (Some u) h)
            end
  end.
Proof.
  unfold userhost_parse. set (s := Splitter.new (plain l)).
  assert (Hs : as_slice s = l) by apply rem_new.
  destruct (until_byte_eq_inner "@" s) as [Hi Hst].
  pose proof (rem_until_byte_eq "@" s) as Hr. rewrite Hs in Hr.
  destruct (save_end_string User true (until_byte_eq "@") s) as [H _];
    [apply wf_new|done|done| |].
  { rewrite Hr, Hs. apply length_take_while. }
  rewrite Hr in H. change (fun x => negb (Byte.eqb x "@")) with not_at in H.
  destruct (save_end _ s) as [r s']. cbn [fst snd] in H.
  destruct (cursor_string User true (take_while not_at l)) as [u|e] eqn:E.
  - destruct H as (v & -> & Hv & Hd). cbn [map_err]. apply cursor_string_true_Ok in E as [Hu _].
    rewrite Hs, Hu, drop_length_take_while in Hd.
    rewrite (proj1 (rest_or_default_cursor Word (next_byte s').2 eq_refl)).
    rewrite (proj2 (rem_next_byte s')), Hd, Hv. by destruct (tail (drop_while not_at l)).
  - destruct H as [-> _]. done.
Qed.

Lemma parse_spec l :
  parse l =
  match cursor_string Nick false l with
  | Err e => Err (InvalidNick e)
  | Ok n =>
      match drop (length n) l with
      | "!"%byte :: r => let? uh := userhost_parse r in Ok (mkSource n (Some uh))
      | "@"%byte :: r =>
          match r with
          | [] => Err (InvalidHost ISEmpty)
          | h => Ok (mkSource n (Some (mkUserHost None h)))
          end
      | _ => Ok (mkSource n None)
      end
  end.
Proof.
  unfold parse. set (s := Splitter.new (plain l)). assert (Hs : as_slice s = l) by apply rem_new.
  destruct (string_cursor Nick false s) as [H1 H2]. rewrite Hs in H1, H2.
  destruct (string Nick false s) as [r s']. cbn [fst snd] in H1, H2. subst r.
  destruct (cursor_string Nick false l) as [n|e]; [|done]. cbn [map_err].
  destruct (rem_next_byte s') as [N1 N2]. destruct (next_byte s') as [c s2]. cbn [fst snd] in N1, N2. subst c.
  rewrite H2 in *. destruct (drop (length n) l) as [|c r]; [done|]. cbn [head tail] in *.
  pose proof (proj1 (rest_or_default_cursor Word s2 eq_refl)) as Hr. rewrite N2 in Hr.
  destruct c; try done; rewrite Hr; by destruct r.
Qed.

Lemma nick_stop u : valid Nick u -> Forall (fun b => is_invalid Nick b = false) u.
Proof. by intros [_ ?]%valid_iff. Qed.

Lemma user_not_at u : valid User u -> Forall (fun b => not_at b = true) u.
Proof. intros [_ H]%valid_iff. eapply Forall_impl; [exact H|]. intros b. by byte_cases b. Qed.

Lemma userhost_write_parse u h :
  valid User u -> h <> [] -> userhost_parse (u ++ "@"%byte :: h) = Ok (mkUserHost (Some u) h).
Proof.
  intros Hu Hh. rewrite userhost_parse_spec. rewrite take_while_app, drop_while_app by by apply user_not_at.
  simpl. rewrite app_nil_r, cursor_string_rest by done. by destruct h.
Qed.

Lemma cursor_string_stop U w r :
  valid U w -> (r = [] \/ exists b r', r = b :: r' /\ is_invalid U b = true) ->
  cursor_string U false (w ++ r) = Ok w.
Proof.
  intros [Hc Hf]%valid_iff Hr. rewrite cursor_string_false.
  assert (Ht : take_while (fun b => negb (is_invalid U b)) (w ++ r) = w).
  { rewrite take_while_app by (eapply Forall_impl; [exact Hf|]; simpl; by intros b ->).
    destruct Hr as [->|(b & r' & -> & Hb)]; simpl; [by rewrite app_nil_r|]. rewrite Hb. simpl. by rewrite app_nil_r. }
  cbv zeta. by rewrite Ht, Hc.
Qed.

Lemma source_write_parse s : source_wf s -> parse (source_write s) = Ok s.
Proof.
  destruct s as [n [[u h]|]]; intros [Hn Hu]; simpl in *; rewrite parse_spec; unfold source_write; simpl.
  - destruct (Hu _ eq_refl) as (H1 & H2 & H3). simpl in *. destruct u as [u|]; simpl.
    + rewrite cursor_string_stop by (try done; right; by eexists _, _).
      rewrite drop_app_length. rewrite userhost_write_parse by auto. done.
    + rewrite cursor_string_stop by (try done; right; by eexists _, _).
      rewrite drop_app_length. by destruct h.
  - rewrite <- (app_nil_r n) at 1. rewrite cursor_string_stop by (try done; by left).
    by rewrite drop_all.
Qed.

Lemma parse_wf l s : valid Word l -> parse l = Ok s -> source_wf s /\ source_write s = l \/
  (source_wf s /\ exists n, s = mkSource n None).
Proof.
  intros Hl. rewrite parse_spec. destruct (cursor_string Nick false l) as [n|e] eqn:E; [|done].
  pose proof (cursor_string_valid _ _ _ _ E) as Hn. pose proof (cursor_string_take_while _ _ _ _ E) as Hw.
  assert (Hsplit : l = n ++ drop (length n) l).
  { rewrite Hw at 1 2. rewrite drop_length_take_while. symmetry. apply take_drop_while. }
  destruct (drop (length n) l) as [|c r] eqn:Ed.
  { intros [= <-]. right. split; [by split|]. by eexists. }
  assert (Hr : valid Word r).
  { rewrite Hsplit in Hl. apply word_part in Hl as [_ Hl]. change (c :: r) with ([c] ++ r) in Hl. by apply word_part in Hl as [_ ?]. }
  assert (Hd : Ok (mkSource n None) = Ok s (E := ParseError) -> source_wf s /\ exists n', s = mkSource n' None)
    by (intros [= <-]; split; [by split|by eexists]).
  destruct c; try (intros Hs; right; by apply Hd); clear Hd.
  - rewrite userhost_parse_spec. destruct (cursor_string User true _) as [u|e] eqn:Eu; [|done].
    apply cursor_string_true_Ok in Eu as [-> Hu].
    pose proof (take_drop_while not_at r) as Htd.
    destruct (drop_while not_at r) as [|x h] eqn:Ex; [done|]. simpl.
    assert (Hx : x = "@"%byte).
    { apply drop_while_head in Ex. unfold not_at in Ex. by destruct (byte_eqb_spec x "@"). }
    destruct h as [|y h]; [done|]. intros [= <-]. left. split.
    + split; simpl; [done|]. intros uh [= <-]. split_and!; simpl; [by intros ? [= <-]| |done].
      rewrite <- Htd in Hr. apply word_part in Hr as [_ Hr]. change (x :: y :: h) with ([x] ++ y :: h) in Hr.
      by apply word_part in Hr as [_ ?].
    + unfold source_write. simpl. rewrite Hsplit. f_equal. f_equal. rewrite <- Hx. exact Htd.
  - destruct r as [|y h]; [done|]. intros [= <-]. left. split.
    + split; simpl; [done|]. intros uh [= <-]. by split_and!.
    + unfold source_write. simpl. by rewrite Hsplit.
Qed.

Lemma source_write_word s : source_wf s -> valid Word (source_write s).
Proof.
  intros [Hn Hu]. assert (Hn' : valid Word (nick s)) by auto with vz. unfold source_write.
  destruct s as [n [[u h]|]]; simpl in *; [|done].
  destruct (Hu _ eq_refl) as (H1 & H2 & _). simpl in *.
  apply valid_iff in Hn' as [_ Hn'], H2 as [_ H2].
  apply valid_iff. split; [done|]. apply Forall_app. split; [done|]. apply Forall_app. split.
  - destruct u as [u|]; [|constructor]. constructor; [done|].
    assert (Hu' : valid Word u) by (specialize (H1 u eq_refl); auto with vz). by apply valid_iff in Hu' as [_ ?].
  - by constructor.
Qed.

Lemma length_source_write s : length (source_write s) = source_len s.
Proof.
  unfold source_write, source_len, userhost_len.
  destruct s as [n [[[u|] h]|]]; simpl; rewrite ?length_app; simpl; rewrite ?length_app; simpl; lia.
Qed.

Lemma source_parse_wf l s : valid Word l -> parse l = Ok s -> source_wf s /\ (userhost s <> None -> source_write s = l).
Proof. intros Hl Hs. by destruct (parse_wf l s Hl Hs) as [[? ?]|[? [n ->]]]. Qed.

(** ** Theorems *)

(** A source and its wire form determine each other: writing and parsing
    gives the source back, its length is the length [source_len] reports, it is
    a [Word], and a parsed source is well-formed and, when it has a host,
    writes back to the very input. *)
Theorem source_roundtrip :
  (forall s, source_wf s ->
     parse (source_write s) = Ok s /\ length (source_write s) = source_len s /\
     valid Word (source_write s)) /\
  (forall w s, valid Word w -> parse w = Ok s ->
     source_wf s /\ (userhost s <> None -> source_write s = w)).
Proof.
  split.
  - intros s Hs. split; [by apply source_write_parse|].
    split; [apply length_source_write|by apply source_write_word].
  - intros w s. apply source_parse_wf.
Qed.

Lemma source_roundtrip_witness :
  parse (bs "nick!user@host") = Ok (mkSource (bs "nick") (Some (mkUserHost (Some (bs "user")) (bs "host")))).
Proof.
  refine (proj1 (proj1 source_roundtrip (mkSource (bs "nick") (Some (mkUserHost (Some (bs "user")) (bs "host")))) _)).
  split; [reflexivity|]. intros uh [= <-]. split; [intros u [= <-]; reflexivity|]. split; [reflexivity|discriminate].
Defined.

Lemma take_string_spec U n s w r :
  wf s -> as_slice s = w ++ r -> length w = n -> valid U w ->
  exists s', take_string U n s = Some (w, s') /\ wf s' /\ as_slice s' = r.
Proof.
  intros Hw Hs Hn Hv. unfold take_string.
  assert (Hc : as_slice (until_count n s) = w) by (rewrite rem_until_count, Hs; subst n; by rewrite take_app_length).
  destruct (save_end_string U true (until_count n) s) as [H Hwf]; [done|done|done| |].
  { rewrite Hc, Hs, length_app. lia. }
  rewrite Hc, cursor_string_rest in H by done. destruct H as (v & Hv1 & Hv2 & Hv3).
  destruct (save_end _ s) as [rv s']. cbn [fst snd] in *. subst rv. exists s'. rewrite Hv2. split; [done|].
  split; [done|]. by rewrite Hv3, Hs, drop_app_length.
Qed.

(** Merging the strings of a source into one buffer and cutting it up again
    never panics and gives the same source. *)
Lemma owning_merged_id s : source_wf s -> owning_merged s = Some s.
Proof.
  intros [Hn Hu]. unfold owning_merged. destruct s as [n [[u h]|]]; simpl in *.
  - destruct (Hu _ eq_refl) as (H1 & H2 & _). simpl in *. set (c := build _).
    assert (Hc : value c = n ++ match u with Some u => u | None => [] end ++ h).
    { unfold c, append, append_unchecked, build. destruct u; simpl; rewrite <- ?app_assoc; done. }
    destruct (take_string_spec Nick (length n) (Splitter.new c) n (match u with Some u => u | None => [] end ++ h))
      as (s1 & -> & W1 & R1); [apply wf_new|by rewrite rem_new|done|done|].
    destruct u as [u|].
    + destruct (take_string_spec User (length u) s1 u h) as (s2 & -> & W2 & R2); [done..|by apply H1|].
      destruct (take_string_spec Word (length h) s2 h []) as (s3 & -> & _); [done|by rewrite app_nil_r|done..].
    + destruct (take_string_spec Word (length h) s1 h []) as (s3 & -> & _); [done|by rewrite app_nil_r|done..].
  - destruct (take_string_spec Nick (length n) (Splitter.new (build (Builder.new (plain n)))) n [])
      as (s1 & -> & W1 & R1); [apply wf_new|rewrite rem_new; simpl; by rewrite app_nil_r|done|done|done].
Qed.
