(* ===== verification/Numeric.v ===== *)
(** * Numeric replies and message kinds

    [src/ircmsg/numeric.rs] and [src/ircmsg/servermsgkind.rs]. *)

From S2P Require Import Prelude Strings.

(** [Numeric]: three bytes. *)
Record Numeric := mkNumeric { n0 : byte; n1 : byte; n2 : byte }.

#[global] Instance Numeric_eq_dec : EqDecision Numeric.
Proof. solve_decision. Defined.

Definition as_bytes (n : Numeric) : list byte := [n0 n; n1 n; n2 n].

Definition from_bytes (bytes : list byte) : option Numeric :=
  match bytes with
  | [a; b; c] =>
      if is_ascii_digit a && is_ascii_digit b && is_ascii_digit c then Some (mkNumeric a b c) else None
  | _ => None
  end.

(** [from_int_unchecked] on a [u16]; the [u8] addition cannot wrap below 1000. *)
Definition from_int_unchecked (int : N) : Numeric :=
  mkNumeric (byte_of (int / 100 mod 256 + 48)) (byte_of (int / 10 mod 10 + 48)) (byte_of (int mod 10 + 48)).

Definition from_int (int : N) : option Numeric :=
  if (int <? 1000)%N then Some (from_int_unchecked int) else None.

(** [u8::wrapping_sub(b'0')]. *)
Definition digit_value (b : byte) : N := (code b + 208) mod 256.

Definition into_int (n : Numeric) : N :=
  digit_value (n0 n) * 100 + digit_value (n1 n) * 10 + digit_value (n2 n).

Definition numeric_is_error (n : Numeric) : option bool :=
  let num := into_int n in
  if (num <? 400)%N then Some false
  else if (num <? 569)%N then Some true
  else match num with
       | 670 | 671 => Some false
       | 691 | 696 => Some true
       | 704 | 705 | 706 => Some false
       | 723 => Some true
       | 740 | 741 | 900 | 901 => Some false
       | 902 => Some true
       | 903 => Some false
       | 904 | 905 | 906 | 907 => Some true
       | 908 => Some false
       | _ => None
       end%N.

(** [ServerMsgKindRaw]. *)
Inductive ServerMsgKindRaw :=
| KNumeric (n : Numeric)
| KCmd (c : list byte).

#[global] Instance ServerMsgKindRaw_eq_dec : EqDecision ServerMsgKindRaw.
Proof. solve_decision. Defined.

(** [as_arg], [as_str] and [Borrow<[u8]>] all give these bytes. *)
Definition as_arg (k : ServerMsgKindRaw) : list byte :=
  match k with KNumeric n => as_bytes n | KCmd c => c end.

Definition kind_len (k : ServerMsgKindRaw) : nat :=
  match k with KNumeric _ => 3 | KCmd c => length c end.

Definition is_error (k : ServerMsgKindRaw) : option bool :=
  match k with
  | KNumeric n => numeric_is_error n
  | KCmd c => Some (bool_decide (c = bs "FAIL") || bool_decide (c = bs "ERROR"))
  end.

(** The invariant: digits, or a command. *)
Definition numeric_wf (n : Numeric) : Prop :=
  is_ascii_digit (n0 n) = true /\ is_ascii_digit (n1 n) = true /\ is_ascii_digit (n2 n) = true.

Definition kind_wf (k : ServerMsgKindRaw) : Prop :=
  match k with KNumeric n => numeric_wf n | KCmd c => valid Cmd c end.

(** ** Lemmas *)

Lemma from_bytes_wf n : numeric_wf n <-> from_bytes (as_bytes n) = Some n.
Proof.
  destruct n as [a b c]. unfold numeric_wf; simpl.
  destruct (is_ascii_digit a), (is_ascii_digit b), (is_ascii_digit c); simpl; naive_solver.
Qed.

Lemma from_bytes_Some l n : from_bytes l = Some n -> l = as_bytes n /\ numeric_wf n.
Proof.
  unfold from_bytes. destruct l as [|a [|b [|c [|]]]]; try done.
  destruct (is_ascii_digit a) eqn:Ea, (is_ascii_digit b) eqn:Eb, (is_ascii_digit c) eqn:Ec; try done.
  simpl. intros [= <-]. done.
Qed.

(** A command is never taken for a numeric. *)
Lemma from_bytes_cmd c : valid Cmd c -> from_bytes c = None.
Proof.
  intros [_ Hf]%valid_iff. unfold from_bytes. destruct c as [|a [|b [|d [|]]]]; try done.
  apply Forall_cons_iff in Hf as [Ha _]. assert (Hd : is_ascii_digit a = false) by (clear -Ha; by byte_cases a).
  by rewrite Hd.
Qed.

(** [from_int] and [into_int] on all thousand numerics. *)
Lemma numeric_table :
  forallb (fun i => let n := from_int_unchecked (N.of_nat i) in
                    (into_int n =? N.of_nat i)%N && is_ascii_digit (n0 n) &&
                    is_ascii_digit (n1 n) && is_ascii_digit (n2 n)) (seq 0 1000) = true.
Proof. vm_compute. reflexivity. Qed.

Lemma into_int_digits a b c :
  is_ascii_digit a = true -> is_ascii_digit b = true -> is_ascii_digit c = true ->
  (into_int (mkNumeric a b c) < 1000)%N /\ from_int_unchecked (into_int (mkNumeric a b c)) = mkNumeric a b c.
Proof.
  assert (Hd : forall x, is_ascii_digit x = true -> digit_value x = (code x - 48)%N /\ (48 <= code x <= 57)%N).
  { intros x Hx. unfold is_ascii_digit in Hx. apply andb_prop in Hx as [H1%N.leb_le H2%N.leb_le]. split; [|lia].
    unfold digit_value. replace (code x + 208)%N with (code x - 48 + 1 * 256)%N by lia.
    rewrite N.Div0.mod_add. apply N.mod_small. lia. }
  assert (Hb : forall x, (48 <= code x <= 57)%N -> byte_of (code x - 48 + 48) = x).
  { intros x Hx. replace (code x - 48 + 48)%N with (code x) by lia. unfold byte_of, code.
    rewrite N.mod_small by (unfold code in Hx; lia). by rewrite Byte.of_to_N. }
  intros Ha%Hd Hb'%Hd Hc%Hd. destruct Ha as [Ha1 Ha2], Hb' as [Hb1 Hb2], Hc as [Hc1 Hc2].
  unfold into_int, from_int_unchecked. simpl. rewrite Ha1, Hb1, Hc1.
  set (x := (code a - 48)%N). set (y := (code b - 48)%N). set (z := (code c - 48)%N).
  assert (x <= 9 /\ y <= 9 /\ z <= 9)%N as (Hx & Hy & Hz) by (unfold x, y, z; lia).
  split; [lia|].
  assert (E1 : ((x * 100 + y * 10 + z) / 100 = x)%N)
    by (symmetry; apply (N.div_unique _ _ _ (y * 10 + z)); lia).
  assert (E2 : ((x * 100 + y * 10 + z) / 10 = x * 10 + y)%N)
    by (symmetry; apply (N.div_unique _ _ _ z); lia).
  assert (E3 : ((x * 100 + y * 10 + z) mod 10 = z)%N)
    by (symmetry; apply (N.mod_unique _ _ (x * 10 + y)); lia).
  assert (E4 : ((x * 10 + y) mod 10 = y)%N) by (symmetry; apply (N.mod_unique _ _ x); lia).
  rewrite E1, E2, E3, E4. rewrite (N.mod_small x) by lia. unfold x, y, z. by rewrite !Hb.
Qed.

(** ** Theorems *)

(** Three-digit replies and integers below a thousand are in bijection:
    [from_int] and [into_int] are inverse, and [from_bytes] accepts exactly the
    three-digit strings and keeps them. *)
Theorem numeric_bijection :
  (forall i, (i < 1000)%N -> exists n, from_int i = Some n /\ into_int n = i /\ numeric_wf n) /\
  (forall i, (1000 <= i)%N -> from_int i = None) /\
  (forall n, numeric_wf n -> from_int (into_int n) = Some n /\ from_bytes (as_bytes n) = Some n) /\
  (forall l n, from_bytes l = Some n -> as_bytes n = l /\ numeric_wf n).
Proof.
  split_and!.
  - intros i Hi. pose proof numeric_table as Ht. rewrite forallb_forall in Ht.
    specialize (Ht (N.to_nat i)). rewrite N2Nat.id in Ht. unfold from_int.
    rewrite (proj2 (N.ltb_lt _ _) Hi). eexists. split; [done|].
    assert (Hin : In (N.to_nat i) (seq 0 1000)) by (apply List.in_seq; lia).
    apply Ht in Hin. rewrite !andb_true_iff, N.eqb_eq in Hin. unfold numeric_wf. tauto.
  - intros i Hi. unfold from_int. by rewrite (proj2 (N.ltb_ge _ _) Hi).
  - intros [a b c] Hn. split; [|by apply from_bytes_wf]. destruct Hn as (H1 & H2 & H3). simpl in *.
    destruct (into_int_digits a b c H1 H2 H3) as [Hlt Heq]. unfold from_int.
    by rewrite (proj2 (N.ltb_lt _ _) Hlt), Heq.
  - intros l n Hn. apply from_bytes_Some in Hn as [-> ?]. done.
Qed.
