(* ===== verification/Msg.v ===== *)
(** * Messages

    [src/ircmsg/client.rs], [src/ircmsg/server.rs] and the message half of
    [src/ircmsg/codec.rs]: [ClientMsg] and [ServerMsg], the parser they share,
    the wire form, the length estimate and [Display].  [None] of the parsers is
    the endless loop of [Tags::parse]. *)

From S2P Require Import Prelude Args BytesCell Tags Numeric Source Strings Utf8 Splitter Transforms.

(** ** The shared parser *)

Section parse.
Context {S K : Type} (parse_source : list byte -> result S ParseError)
  (parse_kind : list byte -> result K ParseError).

(** The loop over the words before the arguments; [break word] returns the
    word and the splitter after it. *)
Fixpoint parse_words (fuel : nat) (msg : Splitter) (tags : Tags) (source : option S)
    (expect_tags expect_source : bool)
    : option (result (Tags * option S * list byte * Splitter) ParseError) :=
  match fuel with
  | 0 => None
  | Datatypes.S fuel =>
      let msg := consume_whitespace msg in
      let (word, msg) := string_or_default Word false msg in
      match value word with
      | [] => Some (Err (InvalidKind ISEmpty))
      | b :: _ =>
          if Byte.eqb b "@" && expect_tags then
            let word := (next_byte (Splitter.new word)).2 in
            let w := value (rest_or_default Word word).1 in
            match Tags.parse (Datatypes.S (length w)) w with
            | Some tags => parse_words fuel msg tags source false expect_source
            | None => None
            end
          else if Byte.eqb b ":" && expect_source then
            let word := (next_byte (Splitter.new word)).2 in
            match parse_source (value (rest_or_default Word word).1) with
            | Ok s => parse_words fuel msg tags (Some s) false false
            | Err e => Some (Err e)
            end
          else Some (Ok (tags, source, value word, msg))
      end
  end.

(** Tags and source are each taken once, so three turns are enough. *)
Definition parse (msg : list byte) : option (result (Tags * option S * K * Args) ParseError) :=
  match parse_words 3 (Splitter.new (plain msg)) Tags.new None true true with
  | None => None
  | Some (Err e) => Some (Err e)
  | Some (Ok (tags, source, kind, msg)) =>
      match parse_kind kind with
      | Err e => Some (Err e)
      | Ok kind =>
          match Args.parse (value (rest_or_default Line msg).1) with
          | Some args => Some (Ok (tags, source, kind, args))
          | None => None
          end
      end
  end.
End parse.

(** ** Writing *)

Definition write_to (tags : Tags) (source : option Source) (kind : list byte) (args : Args) : list byte :=
  (match tags with [] => [] | _ => Tags.write_to tags ++ bs " " end) ++
  (match source with Some s => bs ":" ++ source_write s ++ bs " " | None => [] end) ++
  kind ++
  (let (words, last) := split_last args in
   flat_map (fun w => " "%byte :: w) words ++
   match last with
   | Some last => (if is_last_long args then bs " :" else bs " ") ++ last
   | None => []
   end).

Definition ISIZE_MAX : Z := 2 ^ 63 - 1.

Definition bytes_left (kind : list byte) (source : option nat) (args : Args) : Z :=
  let size := Z.of_nat (length kind) in
  let size := match source with Some src => size + (2 + Z.of_nat src) | None => size end%Z in
  let size := if negb (Args.is_empty args) then (size + (Z.of_nat (len_bytes args) + 1))%Z else size in
  let size := if (size <=? ISIZE_MAX)%Z then size else ISIZE_MAX in
  510 - size.

(** ** [ClientMsg] *)

Record ClientMsg := mkClientMsg { ctags : Tags; cmd : list byte; cargs : Args }.

Definition client_new_cmd (cmd : list byte) : ClientMsg := mkClientMsg Tags.new cmd Args.empty.

Definition client_with_args (m : ClientMsg) (args : list (list byte)) (last : option (list byte)) : ClientMsg :=
  mkClientMsg (ctags m) (cmd m) (set args last).

Definition client_parse (msg : list byte) : option (result ClientMsg ParseError) :=
  match from_bytes Line msg with
  | Err e => Some (Err (InvalidLine e))
  | Ok msg =>
      match parse (fun _ => Ok ()) (fun kind => map_err InvalidKind (from_word kind)) msg with
      | None => None
      | Some (Err e) => Some (Err e)
      | Some (Ok (tags, _, cmd, args)) => Some (Ok (mkClientMsg tags cmd args))
      end
  end.

Definition client_bytes_left (m : ClientMsg) (source : option Source) : Z :=
  bytes_left (cmd m) (source_len <$> source) (cargs m).

Definition client_write_to (m : ClientMsg) : list byte :=
  write_to (ctags m) None (cmd m) (cargs m).

(** ** [ServerMsg] *)

Record ServerMsg := mkServerMsg {
  stags : Tags;
  source : option Source;
  kind : ServerMsgKindRaw;
  sargs : Args;
}.

Definition server_new (kind : ServerMsgKindRaw) (source : Source) : ServerMsg :=
  mkServerMsg Tags.new (Some source) kind Args.empty.

Definition server_new_num (num : Numeric) (source : Source) (target : list byte) : ServerMsg :=
  mkServerMsg Tags.new (Some source) (KNumeric num) (Args.new [target] None).

Definition server_new_cmd (cmd : list byte) : ServerMsg :=
  mkServerMsg Tags.new None (KCmd cmd) Args.empty.

Definition server_with_args (m : ServerMsg) (args : list (list byte)) (last : option (list byte)) : ServerMsg :=
  mkServerMsg (stags m) (source m) (kind m) (set args last).

(** The [parse_kind] closure of [ServerMsg::parse]. *)
Definition server_kind (kind : list byte) : result ServerMsgKindRaw ParseError :=
  match Numeric.from_bytes kind with
  | Some num => Ok (KNumeric num)
  | None => let? c := map_err InvalidKind (from_word kind) in Ok (KCmd c)
  end.

Definition server_parse (msg : list byte) : option (result ServerMsg ParseError) :=
  match from_bytes Line msg with
  | Err e => Some (Err (InvalidLine e))
  | Ok msg =>
      match parse Source.parse server_kind msg with
      | None => None
      | Some (Err e) => Some (Err e)
      | Some (Ok (tags, source, kind, args)) => Some (Ok (mkServerMsg tags source kind args))
      end
  end.

Definition server_bytes_left (m : ServerMsg) : Z :=
  bytes_left (as_arg (kind m)) (source_len <$> source m) (sargs m).

Definition server_write_to (m : ServerMsg) : list byte :=
  write_to (stags m) (source m) (as_arg (kind m)) (sargs m).

(** ** [Display] *)

Fixpoint tags_fmt_loop (prefix : byte) (pairs : Tags) : list byte :=
  match pairs with
  | [] => []
  | (key, value) :: pairs =>
      prefix :: show key ++ (match value with [] => [] | _ => bs "=" ++ show (escape value) end)
        ++ tags_fmt_loop ";" pairs
  end.

Definition tags_fmt (t : Tags) : list byte := tags_fmt_loop "@" t.

Definition client_fmt (m : ClientMsg) : list byte :=
  (match ctags m with [] => [] | _ => tags_fmt (ctags m) ++ bs " " end) ++
  show (cmd m) ++ (if negb (Args.is_empty (cargs m)) then bs " " ++ Args.fmt (cargs m) else []).

Definition server_fmt (m : ServerMsg) : list byte :=
  (match stags m with [] => [] | _ => tags_fmt (stags m) ++ bs " " end) ++
  (match source m with Some src => bs ":" ++ Source.fmt src ++ bs " " | None => [] end) ++
  show (as_arg (kind m)) ++
  (if negb (Args.is_empty (sargs m)) then bs " " ++ Args.fmt (sargs m) else []).

(** ** Well-formed messages *)

Definition client_wf (m : ClientMsg) : Prop :=
  tags_wf (ctags m) /\ valid Cmd (cmd m) /\ args_wf (cargs m).

Definition server_wf (m : ServerMsg) : Prop :=
  tags_wf (stags m) /\ (forall s, source m = Some s -> source_wf s) /\ kind_wf (kind m) /\
  args_wf (sargs m).

(** What the wire format additionally needs to be faithful: no tag value with
    bytes to escape and no argument starting with a tab or form feed. *)
Definition wire_ok (tags : Tags) (args : Args) : Prop :=
  tags_clean tags /\ Forall no_leading_ws (words args).

(** ** The parser on bytes *)

Abbreviation ws := is_ascii_whitespace.
Abbreviation word_byte := (fun b => negb (is_invalid Word b)).

Section parse_lemmas.
Context {S K : Type} (parse_source : list byte -> result S ParseError)
  (parse_kind : list byte -> result K ParseError).

Lemma word_tail w : value (rest_or_default Word (next_byte (Splitter.new w)).2).1 = tail (value w).
Proof.
  rewrite (proj1 (rest_or_default_cursor Word _ eq_refl)).
  by rewrite (proj2 (rem_next_byte _)), rem_new.
Qed.

(** One turn of the loop: [w] is the next word and [r] what follows it. *)
Lemma parse_words_step fuel s tags src et es :
  let l := drop_while ws (as_slice s) in
  let w := take_while word_byte l in
  exists s', as_slice s' = drop_while word_byte l /\
  parse_words parse_source (Datatypes.S fuel) s tags src et es =
  match w with
  | [] => Some (Err (InvalidKind ISEmpty))
  | b :: t =>
      if Byte.eqb b "@" && et then
        match Tags.parse (Datatypes.S (length t)) t with
        | Some tags => parse_words parse_source fuel s' tags src false es
        | None => None
        end
      else if Byte.eqb b ":" && es then
        match parse_source t with
        | Ok x => parse_words parse_source fuel s' tags (Some x) false false
        | Err e => Some (Err e)
        end
      else Some (Ok (tags, src, w, s'))
  end.
Proof.
  intros l w. set (s1 := consume_whitespace s). pose proof (rem_consume_whitespace s) as H1.
  fold s1 l in H1. destruct (string_or_default_cursor Word false s1) as [S1 S2].
  assert (Hc : cursor_string Word false l = Ok w) by (by rewrite cursor_string_false).
  rewrite H1, Hc in S1, S2. cbn [unwrap_or] in S1, S2. unfold w in S2.
  rewrite drop_length_take_while in S2.
  cbn [parse_words]. fold s1. destruct (string_or_default Word false s1) as [wd s2].
  cbn [fst snd] in S1, S2. exists s2. split; [done|].
  rewrite word_tail, S1. by destruct w.
Qed.

(** The word the parser would read tags from. *)
Definition tag_word (l : list byte) : list byte :=
  match take_while word_byte (drop_while ws l) with
  | "@"%byte :: t => t
  | _ => []
  end.

Lemma line_bytes_split f l : valid Line l -> valid Line (take_while f l) /\ valid Line (drop_while f l).
Proof. rewrite !valid_iff. intros [_ H]. rewrite <- (take_drop_while f l), Forall_app in H. tauto. Qed.

Lemma take_word_valid l : valid Word (take_while word_byte l).
Proof.
  apply valid_iff. split; [done|]. eapply Forall_impl; [apply take_while_Forall|].
  cbv beta. intros b. by destruct (is_invalid Word b).
Qed.

Lemma word_cons b t : valid Word (b :: t) -> valid Word t.
Proof. rewrite !valid_iff. intros [_ H]. by apply Forall_cons_iff in H as [_ ?]. Qed.

(** What the loop over the leading words can return. *)
Definition words_post (P : S -> Prop) (r : result (Tags * option S * list byte * Splitter) ParseError) : Prop :=
  match r with
  | Ok (tags, src, w, s') =>
      tags_wf tags /\ (forall x, src = Some x -> P x) /\ valid Word w /\ w <> [] /\ valid Line (as_slice s')
  | Err _ => True
  end.

Lemma parse_words_total (P : S -> Prop) fuel s tags src et es :
  (forall w x, valid Word w -> parse_source w = Ok x -> P x) ->
  valid Line (as_slice s) -> tags_wf tags -> (forall x, src = Some x -> P x) ->
  (et = true -> es = true /\ forallb segment_ok (segments (tag_word (as_slice s))) = true) ->
  (if et then 1 else 0) + (if es then 1 else 0) < fuel ->
  exists r, parse_words parse_source fuel s tags src et es = Some r /\ words_post P r.
Proof.
  intros HP. revert s tags src et es.
  induction fuel as [|fuel IH]; intros s tags src et es Hs Ht Hsrc Het Hf; [lia|].
  destruct (parse_words_step fuel s tags src et es) as (s' & Hs' & ->).
  set (l := drop_while ws (as_slice s)) in *. set (w := take_while word_byte l) in *.
  assert (Hl : valid Line l) by (by apply (line_bytes_split ws)).
  assert (Hs1 : valid Line (as_slice s')) by (rewrite Hs'; by apply line_bytes_split).
  assert (Hw : valid Word w) by apply take_word_valid.
  assert (Htw : forall t, w = "@"%byte :: t -> tag_word (as_slice s) = t).
  { intros t E. unfold tag_word. fold l. by change (take_while word_byte l) with w; rewrite E. }
  destruct w as [|b t] eqn:Ew; [by eexists|].
  assert (Hwt : valid Word t) by (by apply word_cons in Hw).
  destruct (byte_eqb_spec b "@") as [->|Hb]; cbn [andb].
  - destruct et; cbn [andb].
    + destruct (Het eq_refl) as [-> Hok]. rewrite (Htw t eq_refl) in Hok.
      destruct (parse_segments_wf t (Datatypes.S (length t)) Hwt Hok) as [-> Htg]; [lia|].
      apply IH; try done. simpl in *. lia.
    + eexists. split; [done|]. by split_and!.
  - destruct (Byte.eqb b ":" && es) eqn:Eb.
    + apply andb_prop in Eb as [_ ->]. destruct (parse_source t) as [x|e] eqn:Ep; [|by eexists].
      apply IH; try done; [|destruct et; simpl in *; lia]. intros y [= <-]. by eapply HP.
    + eexists. split; [done|]. by split_and!.
Qed.

(** Reading back one written word. *)
Lemma parse_words_word fuel s p w r tags src et es b t :
  as_slice s = p ++ w ++ r -> p = [] \/ p = bs " " -> w = b :: t -> valid Word w -> ws b = false ->
  (r = [] \/ exists r', r = " "%byte :: r') ->
  exists s', as_slice s' = r /\
  parse_words parse_source (Datatypes.S fuel) s tags src et es =
      if Byte.eqb b "@" && et then
        match Tags.parse (Datatypes.S (length t)) t with
        | Some tags => parse_words parse_source fuel s' tags src false es
        | None => None
        end
      else if Byte.eqb b ":" && es then
        match parse_source t with
        | Ok x => parse_words parse_source fuel s' tags (Some x) false false
        | Err e => Some (Err e)
        end
      else Some (Ok (tags, src, w, s')).
Proof.
  intros Hs Hp Hw Hv Hb Hr. destruct (parse_words_step fuel s tags src et es) as (s' & Hs' & ->).
  assert (Hd : drop_while ws (as_slice s) = w ++ r).
  { rewrite Hs, Hw. destruct Hp as [->| ->]; simpl; by rewrite Hb. }
  rewrite Hd in *. apply valid_iff in Hv as [_ Hv].
  assert (Hv' : Forall (fun b => word_byte b = true) w)
    by (eapply Forall_impl; [exact Hv|]; cbv beta; by intros x ->).
  rewrite take_while_app, drop_while_app in * by done. exists s'.
  assert (Ht : take_while word_byte r = [] /\ drop_while word_byte r = r) by (destruct Hr as [->|[r' ->]]; done).
  destruct Ht as [-> Ht]. rewrite Ht in Hs'. rewrite app_nil_r. split; [done|]. by rewrite Hw.
Qed.

Section write_parse.
Context (kind : list byte) (args : Args) (src : option Source) (psrc : option S).
Context (Hkind : exists b t, kind = b :: t /\ b <> "@"%byte /\ b <> ":"%byte /\ ws b = false)
  (Hkv : valid Word kind) (Hargs : args_wf args) (Hns : Forall no_leading_ws (words args)).
Context (Hsrc : match src with
                | Some s => source_wf s /\ exists x, parse_source (source_write s) = Ok x /\ psrc = Some x
                | None => psrc = None
                end).

Let A := write_args args.
Let Sx := match src with Some s => bs ":" ++ source_write s ++ bs " " | None => [] end.

Lemma write_args_head : A = [] \/ exists r, A = " "%byte :: r.
Proof.
  unfold A, write_args. destruct (words args) as [|w l]; [|right; by eexists].
  destruct (long args); [right; by eexists|by left].
Qed.

Lemma stage_kind fuel s p tags src' et es :
  as_slice s = p ++ kind ++ A -> p = [] \/ p = bs " " ->
  exists s', as_slice s' = A /\
  parse_words parse_source (Datatypes.S fuel) s tags src' et es = Some (Ok (tags, src', kind, s')).
Proof.
  intros Hs Hp. destruct Hkind as (b & t & Hk & Hb1 & Hb2 & Hb3).
  destruct (parse_words_word fuel s p kind A tags src' et es b t) as (s' & Hs' & ->);
    [done..|apply write_args_head|].
  exists s'. split; [done|]. by rewrite !byte_eqb_neq.
Qed.

Lemma source_colon_word s : source_wf s -> valid Word (":"%byte :: source_write s).
Proof.
  intros Hs. assert (Hw : valid Word (source_write s)).
  { by apply source_write_word. }
  apply valid_iff in Hw as [_ Hw]. apply valid_iff. split; [done|]. by constructor.
Qed.

Lemma stage_source fuel s p tags et :
  as_slice s = p ++ Sx ++ kind ++ A -> p = [] \/ p = bs " " ->
  exists s', as_slice s' = A /\
  parse_words parse_source (Datatypes.S (Datatypes.S fuel)) s tags None et true = Some (Ok (tags, psrc, kind, s')).
Proof.
  intros Hs Hp. unfold Sx in Hs. destruct src as [sc|].
  - destruct Hsrc as (Hwf & x & Hx & ->).
    destruct (parse_words_word (Datatypes.S fuel) s p (":"%byte :: source_write sc) (" "%byte :: kind ++ A)
      tags None et true ":" (source_write sc)) as (s' & Hs' & ->).
    + rewrite Hs. simpl. by rewrite <- !app_assoc.
    + done.
    + done.
    + by apply source_colon_word.
    + done.
    + right. by eexists.
    + cbn [andb Byte.eqb]. change (Byte.eqb ":" "@") with false. change (Byte.eqb ":" ":") with true.
      cbn [andb]. rewrite Hx. apply (stage_kind fuel s' (bs " ")); [done|by right].
  - subst psrc. by apply (stage_kind (Datatypes.S fuel) s p).
Qed.

Lemma write_to_split tags :
  write_to tags src kind args =
  (match tags with [] => [] | _ => Tags.write_to tags ++ bs " " end) ++ Sx ++ kind ++ A.
Proof.
  unfold write_to, A, Sx. rewrite split_last_write. by destruct (split_last args).
Qed.

Lemma parse_write tags k :
  tags_wf tags -> parse_kind kind = Ok k ->
  parse parse_source parse_kind (write_to tags src kind args) =
  Some (Ok ((fun kv => (kv.1, unescape (escape kv.2))) <$> tags, psrc, k, args)).
Proof.
  intros Ht Hk. unfold parse. rewrite write_to_split.
  set (s := Splitter.new _). assert (Hs : as_slice s = (match tags with [] => [] | _ => Tags.write_to tags ++ bs " " end) ++ Sx ++ kind ++ A)
    by apply rem_new.
  assert (Hp : exists s', as_slice s' = A /\ parse_words parse_source 3 s Tags.new None true true =
    Some (Ok ((fun kv => (kv.1, unescape (escape kv.2))) <$> tags, psrc, kind, s'))).
  { destruct tags as [|kv tags]; [apply (stage_source 1 s []); [done|by left]|].
    set (tg := kv :: tags) in *. assert (Hne : tg <> []) by done.
    destruct (tags_write_parse tg (length (Tags.write_to tg)) Ht Hne) as (r & Hr & Hpr); [done|].
    destruct (parse_words_word 2 s [] (Tags.write_to tg) (" "%byte :: Sx ++ kind ++ A)
      Tags.new None true true "@" r) as (s' & Hs' & ->).
    - rewrite Hs. simpl. by rewrite <- !app_assoc.
    - by left.
    - done.
    - apply tags_write_word, Ht.
    - done.
    - right. by eexists.
    - change (Byte.eqb "@" "@" && true) with true. cbv iota. rewrite Hr in Hpr. simpl in Hpr. rewrite Hpr.
      apply (stage_source 0 s' (bs " ")); [done|by right]. }
  destruct Hp as (s' & Hs' & ->). rewrite Hk.
  rewrite (proj1 (rest_or_default_cursor Line s' eq_refl)), Hs'. unfold A.
  by rewrite args_write_parse.
Qed.
End write_parse.
End parse_lemmas.

Lemma write_to_line tags src kind args :
  tags_wf tags -> (forall s, src = Some s -> source_wf s) -> valid Word kind -> args_wf args ->
  valid Line (write_to tags src kind args).
Proof.
  intros Ht Hs Hk Ha. rewrite write_to_split. apply valid_iff. split; [done|].
  assert (Hw : forall w, valid Word w -> Forall (fun b => is_invalid Line b = false) w).
  { intros w Hw. assert (Hl : valid Line w) by auto with vz. by apply valid_iff in Hl as [_ ?]. }
  apply Forall_app. split.
  { destruct tags; [constructor|]. apply Forall_app. split; [apply Hw, tags_write_word, Ht|by constructor]. }
  apply Forall_app. split.
  { destruct src as [s|]; [|constructor]. apply Forall_app. split; [by constructor|].
    apply Forall_app. split; [apply Hw, source_write_word; auto|by constructor]. }
  apply Forall_app. split; [by apply Hw|]. by apply valid_iff, write_args_line.
Qed.

Lemma cmd_head c : valid Cmd c -> exists b t, c = b :: t /\ b <> "@"%byte /\ b <> ":"%byte /\ ws b = false.
Proof.
  intros [Hc Hf]%valid_iff. destruct c as [|b t]; [done|]. exists b, t. split; [done|].
  apply Forall_cons_iff in Hf as [Hb _]. clear Hc. by byte_cases b.
Qed.

Lemma kind_head k : kind_wf k ->
  (exists b t, as_arg k = b :: t /\ b <> "@"%byte /\ b <> ":"%byte /\ ws b = false) /\
  valid Word (as_arg k) /\ server_kind (as_arg k) = Ok k.
Proof.
  destruct k as [n|c]; simpl.
  - intros Hn. split_and!.
    + eexists _, _. split; [done|]. destruct Hn as [Hn _]. destruct (n0 n); try discriminate Hn; done.
    + destruct n as [a b c], Hn as (Ha & Hb & Hc). simpl in *. apply valid_iff. split; [done|].
      assert (Hd : forall x, is_ascii_digit x = true -> is_invalid Word x = false) by (intros x; by byte_cases x).
      repeat constructor; by apply Hd.
    + unfold server_kind. by rewrite (proj1 (from_bytes_wf n) Hn).
  - intros Hc. split; [by apply cmd_head|]. split; [auto with vz|].
    unfold server_kind. rewrite from_bytes_cmd by done. by rewrite from_word_cmd.
Qed.

(** ** Theorems *)

(** C9: a well-formed server message is written as a [Line], and parsing that
    line ends and gives the same message back, up to the tag values that
    contain bytes to escape. *)
Theorem server_roundtrip m :
  server_wf m -> Forall no_leading_ws (words (sargs m)) ->
  valid Line (server_write_to m) /\
  server_parse (server_write_to m) =
    Some (Ok (mkServerMsg ((fun kv => (kv.1, unescape (escape kv.2))) <$> stags m) (source m) (kind m) (sargs m))) /\
  (tags_clean (stags m) -> server_parse (server_write_to m) = Some (Ok m)).
Proof.
  intros (Ht & Hs & Hk & Ha) Hns. destruct (kind_head _ Hk) as (Hh & Hw & Hsk).
  assert (Hl : valid Line (server_write_to m)) by (by apply write_to_line). split; [done|].
  assert (Hp : server_parse (server_write_to m) = Some (Ok (mkServerMsg
    ((fun kv => (kv.1, unescape (escape kv.2))) <$> stags m) (source m) (kind m) (sargs m)))).
  { unfold server_parse. rewrite (proj2 (from_bytes_Ok Line _ _) (conj eq_refl Hl)).
    unfold server_write_to. rewrite (parse_write _ _ _ _ _ (source m) Hh Hw Ha Hns) with (k := kind m); [done| |done|done].
    destruct (source m) as [s|]; [|done]. split; [auto|]. exists s. split; [|done]. by apply source_write_parse, Hs. }
  split; [done|]. intros Hc. rewrite Hp, tags_clean_rt by done. by destruct m.
Qed.

Definition sample_server : ServerMsg :=
  mkServerMsg [(bs "id", bs "7")] (Some (new_user (bs "nick") (bs "user") (bs "host"))) (KCmd (bs "PRIVMSG"))
    (mkArgs [bs "#chan"] (Some (bs "hello world"))).

Lemma sample_args_wf : args_wf (mkArgs [bs "#chan"] (Some (bs "hello world"))).
Proof. split; [by repeat constructor|]. intros l [= <-]. split; [reflexivity|discriminate]. Qed.

Lemma sample_args_ws : Forall no_leading_ws [bs "#chan"].
Proof. repeat constructor. intros b [= <-]. reflexivity. Qed.

Lemma sample_server_wf : server_wf sample_server.
Proof.
  split; [split; repeat constructor|]. split.
  - intros s [= <-]. split; [reflexivity|]. intros uh [= <-].
    split; [intros u [= <-]; reflexivity|]. split; [reflexivity|discriminate].
  - split; [reflexivity|exact sample_args_wf].
Qed.

Lemma server_roundtrip_witness :
  server_parse (bs "@id=7 :nick!user@host PRIVMSG #chan :hello world") = Some (Ok sample_server).
Proof.
  refine (proj2 (proj2 (server_roundtrip sample_server sample_server_wf sample_args_ws)) _).
  repeat constructor.
Defined.

Lemma client_wire m :
  client_wf m -> Forall no_leading_ws (words (cargs m)) ->
  valid Line (client_write_to m) /\
  client_parse (client_write_to m) =
    Some (Ok (mkClientMsg ((fun kv => (kv.1, unescape (escape kv.2))) <$> ctags m) (cmd m) (cargs m))).
Proof.
  intros (Ht & Hk & Ha) Hns.
  assert (Hl : valid Line (client_write_to m)) by (apply write_to_line; [done|done|auto with vz|done]).
  split; [done|]. unfold client_parse. rewrite (proj2 (from_bytes_Ok Line _ _) (conj eq_refl Hl)).
  unfold client_write_to.
  rewrite (parse_write _ _ _ _ None None (cmd_head _ Hk) ltac:(auto with vz) Ha Hns eq_refl) with (k := cmd m);
    [done|done|]. by rewrite from_word_cmd.
Qed.

Lemma client_roundtrip_wire m :
  client_wf m -> Forall no_leading_ws (words (cargs m)) ->
  valid Line (client_write_to m) /\
  (tags_clean (ctags m) -> client_parse (client_write_to m) = Some (Ok m)).
Proof.
  intros Hm Hns. destruct (client_wire m Hm Hns) as [Hl Hp]. split; [done|].
  intros Hc. rewrite Hp, tags_clean_rt by done. by destruct m.
Qed.

Lemma client_wire_nonempty m : client_wf m -> client_write_to m <> [].
Proof.
  intros (_ & Hk & _). destruct (cmd_head _ Hk) as (b & t & E & _).
  unfold client_write_to. rewrite write_to_split, E. by destruct (match ctags m with [] => [] | _ => _ end).
Qed.

(** Likewise for client messages, which have no source. *)
Theorem client_roundtrip m :
  client_wf m -> Forall no_leading_ws (words (cargs m)) ->
  valid Line (client_write_to m) /\
  client_parse (client_write_to m) =
    Some (Ok (mkClientMsg ((fun kv => (kv.1, unescape (escape kv.2))) <$> ctags m) (cmd m) (cargs m))) /\
  (tags_clean (ctags m) -> client_parse (client_write_to m) = Some (Ok m)).
Proof.
  intros Hm Hns. destruct (client_wire m Hm Hns) as [Hl Hp].
  split; [done|]. split; [done|]. by apply client_roundtrip_wire.
Qed.

Definition sample_client : ClientMsg :=
  mkClientMsg [(bs "+x", [])] (bs "PRIVMSG") (mkArgs [bs "#chan"] (Some (bs "hello world"))).

Lemma sample_client_wf : client_wf sample_client.
Proof. split; [split; repeat constructor|]. split; [reflexivity|exact sample_args_wf]. Qed.

Lemma client_roundtrip_witness :
  client_parse (bs "@+x PRIVMSG #chan :hello world") = Some (Ok sample_client).
Proof.
  refine (proj2 (proj2 (client_roundtrip sample_client sample_client_wf sample_args_ws)) _).
  repeat constructor.
Defined.

(** The tags of a message are ones the tag parser returns on. *)
Definition tags_parseable (msg : list byte) : bool := forallb segment_ok (segments (tag_word msg)).

Section parse_total.
Context {S K : Type} (parse_source : list byte -> result S ParseError)
  (parse_kind : list byte -> result K ParseError) (P : S -> Prop) (Q : K -> Prop).
Context (HP : forall w x, valid Word w -> parse_source w = Ok x -> P x)
  (HQ : forall w k, valid Word w -> w <> [] -> parse_kind w = Ok k -> Q k).

Lemma parse_total msg :
  valid Line msg -> tags_parseable msg = true ->
  exists r, parse parse_source parse_kind msg = Some r /\
  match r with
  | Ok (tags, src, k, args) =>
      tags_wf tags /\ (forall x, src = Some x -> P x) /\ Q k /\ args_wf args
  | Err _ => True
  end.
Proof.
  intros Hl Ht. unfold parse. set (s := Splitter.new (plain msg)).
  assert (Hs : as_slice s = msg) by apply rem_new.
  destruct (parse_words_total parse_source parse_kind P 3 s Tags.new None true true HP) as (r & -> & Hr).
  - by rewrite Hs.
  - split; constructor.
  - done.
  - by rewrite Hs.
  - simpl. lia.
  - destruct r as [[[[tags src] w] s']|e]; [|by eexists]. destruct Hr as (Htg & Hsrc & Hw & Hne & Hs').
    destruct (parse_kind w) as [k|e] eqn:Ek; [|by eexists].
    rewrite (proj1 (rest_or_default_cursor Line s' eq_refl)).
    destruct (args_cursor_total (Datatypes.S (length (as_slice s'))) (as_slice s') Args.empty) as (a & Ha & Hwf);
      [lia|done|by split|].
    rewrite Args.args_parse_cursor, Ha. eexists. split; [done|]. split_and!; try done. by eapply HQ.
Qed.

Lemma parse_loops msg :
  tags_parseable msg = false -> parse parse_source parse_kind msg = None.
Proof.
  intros Ht. unfold parse. set (s := Splitter.new (plain msg)).
  assert (Hs : as_slice s = msg) by apply rem_new.
  destruct (parse_words_step parse_source 2 s Tags.new None true true) as (s' & _ & ->).
  rewrite Hs. unfold tags_parseable, tag_word in Ht.
  pose proof (take_word_valid (drop_while ws msg)) as Hw.
  destruct (take_while _ _) as [|b t]; [done|].
  assert (Hb : b = "@"%byte) by (by destruct b). subst b.
  change (Byte.eqb "@" "@" && true) with true. cbv iota.
  rewrite parse_diverges_loop; [done| |done]. by apply word_cons in Hw.
Qed.
End parse_total.

Lemma server_kind_wf w k : w <> [] -> server_kind w = Ok k -> kind_wf k.
Proof.
  intros Hw. unfold server_kind. destruct (Numeric.from_bytes w) as [n|] eqn:En.
  - intros [= <-]. by apply from_bytes_Some in En as [_ ?].
  - destruct (from_word w) as [c|e] eqn:Ec; [|done]. intros [= <-]. by eapply from_word_valid.
Qed.

(** C26: on arbitrary bytes the server-message parser returns exactly when the
    tags it would read, if any, have no part starting with a colon; whatever
    message it returns is well-formed, and bytes that are not a [Line] are
    reported as such. *)
Theorem server_parse_total msg :
  (valid Line msg -> tags_parseable msg = true ->
     exists r, server_parse msg = Some r /\ forall m, r = Ok m -> server_wf m) /\
  (valid Line msg -> tags_parseable msg = false -> server_parse msg = None) /\
  (forall e, find_invalid Line msg = Some e -> server_parse msg = Some (Err (InvalidLine e))).
Proof.
  unfold server_parse. split_and!.
  - intros Hl Ht. rewrite (proj2 (from_bytes_Ok Line _ _) (conj eq_refl Hl)).
    destruct (parse_total Source.parse server_kind source_wf kind_wf) with (msg := msg) as (r & -> & Hr); try done.
    + intros w x Hw Hx. by destruct (source_parse_wf w x Hw Hx).
    + intros w k _. by apply server_kind_wf.
    + destruct r as [[[[tags src] k] a]|e]; [|by eexists]. eexists. split; [done|]. intros m [= <-].
      destruct Hr as (H1 & H2 & H3 & H4). by split_and!.
  - intros Hl Ht. rewrite (proj2 (from_bytes_Ok Line _ _) (conj eq_refl Hl)). by rewrite parse_loops.
  - intros e He. unfold from_bytes. by rewrite He.
Qed.

Lemma server_parse_total_witness :
  (exists r, server_parse (bs ":irc.example 001 me :Welcome") = Some r) /\
  server_parse (bs "@:x PING") = None.
Proof.
  split.
  - destruct (proj1 (server_parse_total (bs ":irc.example 001 me :Welcome")) eq_refl eq_refl) as (r & H & _).
    by exists r.
  - exact (proj1 (proj2 (server_parse_total (bs "@:x PING"))) eq_refl eq_refl).
Defined.

(** ** Length *)

Lemma len_bytes_write a :
  len_bytes a + (match long a with Some _ => 1 | None => 0 end) = length (write_args a).
Proof.
  unfold len_bytes, write_args. rewrite length_app.
  assert (Hf : forall (ws : list (list byte)) n,
    foldl (fun count arg => count + (length arg + 1)) n ws = n + length (flat_map (fun w => " "%byte :: w) ws)).
  { induction ws as [|w ws IH]; intros n; simpl; [lia|]. rewrite IH, length_app. lia. }
  rewrite Hf. destruct (long a); simpl; lia.
Qed.

Lemma write_to_length tags src kind args :
  length (write_to tags src kind args) =
  match tags with [] => 0 | _ => length (Tags.write_to tags) + 1 end +
  match src with Some s => source_len s + 2 | None => 0 end + length kind + length (write_args args).
Proof.
  rewrite write_to_split, !length_app.
  destruct tags, src; rewrite ?length_app, ?length_source_write; cbn [length bs]; rewrite ?length_app;
    rewrite ?length_source_write; simpl; lia.
Qed.

(** [bytes_left] is what is left of 510 bytes after the untagged message,
    less one when the last argument is written without the colon it is counted
    with; so a message with no bytes missing fits in 512 with its line ending. *)
Theorem bytes_left_exact src kind args :
  let n := length (write_to [] src kind args) in
  (Z.of_nat n < ISIZE_MAX)%Z ->
  bytes_left kind (source_len <$> src) args =
    (510 - Z.of_nat n - (if negb (Args.is_empty args) && negb (is_last_long args) then 1 else 0))%Z /\
  ((0 <= bytes_left kind (source_len <$> src) args)%Z -> n + 2 <= 512).
Proof.
  intros n Hn. pose proof (write_to_length [] src kind args) as Hl. fold n in Hl.
  pose proof (len_bytes_write args) as Hb.
  assert (He : bytes_left kind (source_len <$> src) args =
    (510 - Z.of_nat n - (if negb (Args.is_empty args) && negb (is_last_long args) then 1 else 0))%Z).
  { unfold bytes_left. revert Hb. unfold Args.is_empty, is_last_long.
    destruct args as [[|w ws'] [l|]], src as [s|]; cbn [words long fmap option_fmap option_map negb andb];
      intros Hb; cbn [length] in *; try (replace (length (write_args _)) with 0 in * by reflexivity);
      match goal with |- context [(?a <=? ISIZE_MAX)%Z] => destruct (Z.leb_spec a ISIZE_MAX) end; simpl in *; lia. }
  split; [done|]. rewrite He. destruct (_ && _); lia.
Qed.

Lemma bytes_left_exact_witness :
  client_bytes_left sample_client None = 484%Z.
Proof.
  refine (eq_trans (proj1 (bytes_left_exact None (cmd sample_client) (cargs sample_client) _)) _); reflexivity.
Defined.

(** ** Display *)

Definition args_utf8 (a : Args) : Prop :=
  Forall (fun w => utf8_valid w = true) (words a) /\ forall l, long a = Some l -> utf8_valid l = true.
Definition tags_utf8 (t : Tags) : Prop :=
  Forall (fun kv => utf8_valid kv.1 = true /\ utf8_valid (escape kv.2) = true) t.
Definition source_utf8 (s : Source) : Prop :=
  utf8_valid (nick s) = true /\
  forall uh, userhost s = Some uh ->
    utf8_valid (host uh) = true /\ forall u, user uh = Some u -> utf8_valid u = true.

Lemma flat_map_shift (l : list (list byte)) (r : list byte) :
  bs " " ++ flat_map (fun w => w ++ bs " ") l ++ r = flat_map (fun w => " "%byte :: w) l ++ " "%byte :: r.
Proof. induction l as [|w l IH]; [done|]. cbn [flat_map]. rewrite <- !app_assoc. by rewrite IH. Qed.

Lemma args_fmt_write a :
  args_utf8 a -> (if negb (Args.is_empty a) then bs " " ++ Args.fmt a else []) = write_args a.
Proof.
  intros [Hw Hl]. unfold Args.fmt, write_args, Args.is_empty.
  assert (Hf : forall l, Forall (fun w => utf8_valid w = true) l ->
    flat_map (fun arg => show arg ++ bs " ") l = flat_map (fun w => w ++ bs " ") l).
  { induction 1 as [|w l Hu _ IH]; [done|]. simpl. by rewrite show_utf8, IH. }
  destruct a as [ws [l|]]; cbn [words long] in *.
  - replace (negb _) with true by (by destruct ws). rewrite Hf, (show_utf8 l) by auto.
    rewrite flat_map_shift. done.
  - destruct (last ws) as [w|] eqn:E.
    + apply last_Some in E as [ws' ->]. replace (negb _) with true by (by destruct ws').
      rewrite length_app, Nat.add_sub, take_app_length. apply Forall_app in Hw as [H1 H2].
      rewrite Hf, show_utf8 by (try done; by inversion H2). rewrite flat_map_shift, flat_map_app. simpl.
      by rewrite !app_nil_r.
    + by apply last_None in E as ->.
Qed.

Lemma tags_fmt_write t p : tags_utf8 t -> tags_fmt_loop p t = write_loop p t.
Proof.
  intros Ht. revert p. induction Ht as [|[k v] t [Hk Hv] _ IH]; intros p; [done|]. cbn in Hk, Hv.
  cbn [tags_fmt_loop write_loop]. rewrite IH, !show_utf8 by done. by destruct v.
Qed.

Lemma source_fmt_write s : source_utf8 s -> Source.fmt s = source_write s.
Proof.
  destruct s as [n [[[u|] h]|]]; intros [Hn Hu]; unfold Source.fmt, source_write; simpl in *;
    try destruct (Hu _ eq_refl) as [Hh Hu']; simpl in *; rewrite ?show_utf8; auto.
Qed.

(** A server message whose parts are all UTF-8 is displayed exactly as it is
    written to the wire. *)
Theorem server_display m :
  tags_utf8 (stags m) -> (forall s, source m = Some s -> source_utf8 s) -> args_utf8 (sargs m) ->
  kind_wf (kind m) -> server_fmt m = server_write_to m.
Proof.
  intros Ht Hs Ha Hk. unfold server_fmt, server_write_to. rewrite write_to_split.
  rewrite args_fmt_write by done. unfold tags_fmt, Tags.write_to. rewrite tags_fmt_write by done.
  rewrite (show_utf8 (as_arg (kind m))).
  - destruct (source m) as [s|]; [|done]. by rewrite source_fmt_write by auto.
  - apply utf8_all_ascii. destruct (kind m) as [[a b c]|c]; simpl in *.
    + destruct Hk as (Ha' & Hb & Hc). simpl in *.
      assert (Hd : forall x, is_ascii_digit x = true -> is_ascii x = true) by (intros x; by byte_cases x).
      by rewrite !Hd.
    + apply valid_iff in Hk as [_ Hk]. apply Forall_forallb. eapply Forall_impl; [exact Hk|].
      intros x. by byte_cases x.
Qed.

Lemma server_display_witness :
  server_fmt sample_server = bs "@id=7 :nick!user@host PRIVMSG #chan :hello world".
Proof.
  refine (server_display sample_server _ _ _ _).
  - repeat constructor.
  - intros s [= <-]. split; [reflexivity|]. intros uh [= <-]. split; [reflexivity|]. intros u [= <-]. reflexivity.
  - split; [by repeat constructor|]. intros l [= <-]. reflexivity.
  - reflexivity.
Defined.
