(* ===== verification/Codec.v ===== *)
(** * Reading and writing messages

    [src/ircmsg/codec.rs]: the [read_msg!] and [read_buf!] macros behind every
    [read_*_from], [send_to], and the tokio [Decoder] and [Encoder].  A reader
    is the list of what it will deliver: [Some b] a byte, [None] an I/O error
    such as [WouldBlock] at that point, the end of the list the end of file.
    Messages are read with fuel: every turn of the loop but the last consumes a
    newline. *)

From S2P Require Import Prelude Args Tags Msg Strings.

Abbreviation Reader := (list (option byte)).

Inductive IoError :=
| UnexpectedEof
| ReadError
| ParseFailed (e : ParseError).

Definition CLIENT_MAX_LEN : nat := N.to_nat 4608.
Definition SERVER_MAX_LEN : nat := N.to_nat 8703.

(** [BufRead::read_until(b'\n')] on [Take] with the given limit: bytes are
    appended to [buf] as they come, and stay there when the reader fails. *)
Fixpoint read_until (limit : nat) (read : Reader) (buf : list byte) (count : nat)
    : result nat () * Reader * list byte :=
  match limit with
  | 0 => (Ok count, read, buf)
  | S limit =>
      match read with
      | [] => (Ok count, read, buf)
      | None :: read => (Err (), read, buf)
      | Some b :: read =>
          if Byte.eqb b "010" then (Ok (count + 1), read, buf ++ [b])
          else read_until limit read (buf ++ [b]) (count + 1)
      end
  end.

(** What [read_buf!] decides about the buffer. *)
Inductive RbResult :=
| RbAgain
| RbError (e : ParseError) (buf : list byte)
| RbLine (buf : list byte).

(** The loop of [read_buf!] on the buffer read from its end. *)
Fixpoint read_buf_loop (rbuf : list byte) (found_newline : bool) : RbResult :=
  match rbuf with
  | [] => RbAgain
  | c :: rest =>
      if Byte.eqb c "010" then read_buf_loop rest true
      else if Byte.eqb c "013" && found_newline then read_buf_loop rest found_newline
      else if Byte.eqb c "013" || Byte.eqb c "000" then
        RbError (InvalidLine (ISByte c)) (rev rbuf)
      else if found_newline then RbLine (rev rbuf)
      else RbError TooLong (rev rbuf)
  end.

Definition read_buf (buf : list byte) : RbResult := read_buf_loop (rev buf) false.

Section read_msg.
Context {M : Type} (limit : nat) (parse : list byte -> option (result M ParseError)).

(** [read_msg!].  [owning] tells the parser given [mem::take(buf)] from the one
    given the buffer itself. *)
Fixpoint read_msg (owning : bool) (fuel : nat) (read : Reader) (buf : list byte)
    : option (result M IoError * Reader * list byte) :=
  match fuel with
  | 0 => None
  | S fuel =>
      let finish read buf :=
        match read_buf buf with
        | RbAgain => read_msg owning fuel read []
        | RbError e buf => Some (Err (ParseFailed e), read, buf)
        | RbLine buf =>
            match parse buf with
            | None => None
            | Some r => Some (map_err ParseFailed r, read, if owning then [] else buf)
            end
        end in
      if length buf <? limit then
        match read_until (limit - length buf) read buf 0 with
        | (Err _, read, buf) => Some (Err ReadError, read, buf)
        | (Ok 0, read, buf) => Some (Err UnexpectedEof, read, buf)
        | (Ok _, read, buf) => finish read buf
        end
      else finish read buf
  end.
End read_msg.

(** [ClientCodec] reads server messages, [ServerCodec] client messages. *)
Definition client_codec_read := read_msg SERVER_MAX_LEN server_parse.
Definition server_codec_read := read_msg CLIENT_MAX_LEN client_parse.

(** ** Writing *)

Definition CRLF : list byte := ["013"; "010"]%byte.

(** [Write::write_all] on a sink that fails, if at all, after [k] bytes. *)
Definition write_all (fails : option nat) (out data : list byte) : result () () * list byte :=
  match fails with
  | None => (Ok (), out ++ data)
  | Some k => (Err (), out ++ take k data)
  end.

(** [send_to]: the outcome, the sink and the buffer. *)
Definition send_to (fails : option nat) (wire out buf : list byte)
    : result () () * list byte * list byte :=
  let buf := buf ++ wire ++ CRLF in
  match write_all fails out buf with
  | (Ok _, out) => (Ok (), out, [])
  | (Err e, out) => (Err e, out, buf)
  end.

Definition client_send_to (fails : option nat) (m : ClientMsg) (out buf : list byte) :=
  send_to fails (client_write_to m) out buf.
Definition server_send_to (fails : option nat) (m : ServerMsg) (out buf : list byte) :=
  send_to fails (server_write_to m) out buf.

(** ** The tokio codec *)

(** [Encoder::encode]. *)
Definition client_encode (item : ClientMsg) (dst : list byte) : list byte := dst ++ client_write_to item ++ CRLF.
Definition server_encode (item : ServerMsg) (dst : list byte) : list byte := dst ++ server_write_to item ++ CRLF.

(** The loop of [scroll_buf]: the whitespace to trim and the end of the line. *)
Fixpoint scroll_loop (limit : nat) (buf : list byte) (leading_ws : bool) (trimmed_ws end_idx : nat)
    : nat * option nat :=
  match buf with
  | [] => (trimmed_ws, None)
  | byte :: buf =>
      if leading_ws && is_ascii_whitespace byte then scroll_loop limit buf leading_ws (trimmed_ws + 1) end_idx
      else
        let end_idx := end_idx + 1 in
        if (limit <=? end_idx) || Byte.eqb byte "010" || Byte.eqb byte "000" then (trimmed_ws, Some end_idx)
        else scroll_loop limit buf false trimmed_ws end_idx
  end.

(** [scroll_buf]: the line length and the advanced buffer. *)
Definition scroll_buf (buf : list byte) (limit : nat) : option nat * list byte :=
  let (trimmed_ws, e) := scroll_loop limit buf true 0 0 in (e, drop trimmed_ws buf).

(** [Decoder::decode]; the outer [None] is the endless loop of the parser. *)
Definition decode {M} (limit : nat) (parse : list byte -> option (result M ParseError)) (src : list byte)
    : option (result (option M) ParseError * list byte) :=
  match scroll_buf src limit with
  | (None, src) => Some (Ok None, src)
  | (Some split_at, src) =>
      let line_raw := take split_at src in
      let src := drop split_at src in
      match from_bytes Line line_raw with
      | Err e => Some (Err (InvalidLine e), src)
      | Ok line =>
          match parse line with
          | None => None
          | Some (Ok m) => Some (Ok (Some m), src)
          | Some (Err e) => Some (Err e, src)
          end
      end
  end.

Definition client_codec_decode := decode SERVER_MAX_LEN server_parse.
Definition server_codec_decode := decode CLIENT_MAX_LEN client_parse.

(** ** Lemmas *)

Abbreviation no_nl := (Forall (fun b => Byte.eqb b "010" = false)).

Lemma read_until_line n q rest buf c :
  no_nl q -> length q < n ->
  read_until n ((Some <$> (q ++ ["010"%byte])) ++ rest) buf c = (Ok (c + length q + 1), rest, buf ++ q ++ ["010"%byte]).
Proof.
  intros Hq. revert n buf c. induction Hq as [|b q Hb _ IH]; intros n buf c Hn; (destruct n as [|n]; [simpl in Hn; lia|]).
  - cbn. do 3 f_equal. lia.
  - cbn [app fmap list_fmap read_until]. rewrite Hb. rewrite IH by (simpl in Hn; lia).
    rewrite <- app_assoc. simpl. do 3 f_equal. lia.
Qed.

Lemma read_until_interrupt n q rest buf c :
  no_nl q -> length q < n ->
  read_until n ((Some <$> q) ++ None :: rest) buf c = (Err (), rest, buf ++ q).
Proof.
  intros Hq. revert n buf c. induction Hq as [|b q Hb _ IH]; intros n buf c Hn; (destruct n as [|n]; [simpl in Hn; lia|]).
  - cbn. by rewrite app_nil_r.
  - cbn [app fmap list_fmap read_until]. rewrite Hb. rewrite IH by (simpl in Hn; lia). by rewrite <- app_assoc.
Qed.

Lemma line_no_nl l : valid Line l -> no_nl l.
Proof. intros [_ H]%valid_iff. eapply Forall_impl; [exact H|]. intros b. by byte_cases b. Qed.

Lemma read_buf_line l : valid Line l -> l <> [] -> read_buf (l ++ CRLF) = RbLine l.
Proof.
  intros Hv Hne. unfold read_buf. rewrite rev_app_distr. cbn [CRLF rev app read_buf_loop].
  change (Byte.eqb "010" "010") with true. change (Byte.eqb "013" "010") with false.
  change (Byte.eqb "013" "013" && true) with true. cbv iota.
  destruct (rev l) as [|b r] eqn:E.
  { apply (f_equal (@rev _)) in E. by rewrite rev_involutive in E. }
  assert (Hb : is_invalid Line b = false).
  { apply valid_iff in Hv as [_ Hv]. rewrite List.Forall_forall in Hv. apply Hv.
    rewrite List.in_rev, E. by left. }
  assert (Hl : l = rev (b :: r)) by (by rewrite <- E, rev_involutive).
  cbn [read_buf_loop]. rewrite Hl. clear -Hb. byte_cases b.
Qed.

Section read_lemmas.
Context {M : Type} (limit : nat) (parse : list byte -> option (result M ParseError)).

(** A line arriving whole, or completing what an earlier call left behind. *)
Lemma read_msg_line owning fuel p q l rest :
  p ++ q = l ++ CRLF -> q <> [] -> valid Line l -> l <> [] -> length l + 2 <= limit ->
  read_msg limit parse owning (S fuel) ((Some <$> q) ++ rest) p =
  match parse l with
  | None => None
  | Some r => Some (map_err ParseFailed r, rest, if owning then [] else l)
  end.
Proof.
  intros Hpq Hq Hv Hne Hlen. destruct q as [|x q' _] using rev_ind; [done|].
  assert (Hl : l ++ CRLF = (l ++ ["013"%byte]) ++ ["010"%byte]) by (by rewrite <- app_assoc).
  rewrite Hl, app_assoc in Hpq. apply app_inj_tail in Hpq as [Hpq ->].
  assert (Hnl : no_nl q').
  { assert (Hn : no_nl (p ++ q')) by (rewrite Hpq; apply Forall_app; split; [by apply line_no_nl|by constructor]).
    by apply Forall_app in Hn as [_ ?]. }
  assert (Hlq : length p + length q' = length l + 1).
  { rewrite <- length_app, Hpq, length_app. done. }
  cbn [read_msg]. rewrite (proj2 (Nat.ltb_lt _ _)) by lia. rewrite read_until_line by (done || lia).
  replace (0 + length q' + 1) with (S (length q')) by lia. rewrite app_assoc, Hpq, <- Hl, read_buf_line by done.
  done.
Qed.

(** A reader failing inside a line: the part read so far is in the buffer. *)
Lemma read_msg_interrupted owning fuel p q1 q2 l rest :
  p ++ q1 ++ q2 = l ++ CRLF -> q2 <> [] -> valid Line l -> length l + 2 <= limit ->
  read_msg limit parse owning (S fuel) ((Some <$> q1) ++ None :: rest) p =
  Some (Err ReadError, rest, p ++ q1).
Proof.
  intros Hpq Hq Hv Hlen. destruct q2 as [|x q2 _] using rev_ind; [done|].
  assert (Hl : l ++ CRLF = (l ++ ["013"%byte]) ++ ["010"%byte]) by (by rewrite <- app_assoc).
  rewrite Hl, !app_assoc in Hpq. apply app_inj_tail in Hpq as [Hpq ->].
  assert (Hnl : no_nl q1).
  { assert (Hn : no_nl ((p ++ q1) ++ q2)) by (rewrite Hpq; apply Forall_app; split; [by apply line_no_nl|by constructor]).
    apply Forall_app in Hn as [Hn _]. by apply Forall_app in Hn as [_ ?]. }
  assert (Hlq : length p + length q1 + length q2 = length l + 1).
  { rewrite <- !length_app, Hpq, length_app. done. }
  cbn [read_msg]. rewrite (proj2 (Nat.ltb_lt _ _)) by lia. by rewrite read_until_interrupt by (done || lia).
Qed.

(** Blank lines are skipped. *)
Lemma read_msg_blank owning fuel rest :
  2 <= limit ->
  read_msg limit parse owning (S fuel) ((Some <$> CRLF) ++ rest) [] = read_msg limit parse owning fuel rest [].
Proof.
  intros Hlim. cbn [read_msg length]. rewrite (proj2 (Nat.ltb_lt _ _)) by lia.
  change ((Some <$> CRLF) ++ rest) with ((Some <$> (["013"%byte] ++ ["010"%byte])) ++ rest).
  rewrite read_until_line; [done|by repeat constructor|simpl; lia].
Qed.

(** [n] messages read one after the other with the same buffer. *)
Fixpoint read_many (n : nat) (read : Reader) (buf : list byte) : option (list M * Reader * list byte) :=
  match n with
  | 0 => Some ([], read, buf)
  | S n =>
      match read_msg limit parse true (S (length read)) read buf with
      | Some (Ok m, read, buf) =>
          match read_many n read buf with
          | Some (ms, read, buf) => Some (m :: ms, read, buf)
          | None => None
          end
      | _ => None
      end
  end.

Lemma read_many_lines (wire : M -> list byte) ms rest :
  Forall (fun m => valid Line (wire m) /\ wire m <> [] /\ length (wire m) + 2 <= limit /\
                   parse (wire m) = Some (Ok m)) ms ->
  read_many (length ms) ((Some <$> flat_map (fun m => wire m ++ CRLF) ms) ++ rest) [] = Some (ms, rest, []).
Proof.
  induction 1 as [|m ms (Hv & Hne & Hlen & Hp) _ IH]; [done|]. cbn [flat_map length read_many].
  rewrite fmap_app, <- app_assoc.
  rewrite (read_msg_line true _ [] (wire m ++ CRLF) (wire m)) by (try done; by destruct (wire m)).
  rewrite Hp. cbn [map_err]. by rewrite IH.
Qed.
End read_lemmas.

(** What a sender's buffer and sink hold after sending messages in turn. *)
Lemma send_all_wire {M} (wire : M -> list byte) ms out :
  foldl (fun st m => let '(_, out, buf) := send_to None (wire m) st.1 st.2 in (out, buf)) (out, []) ms =
  (out ++ flat_map (fun m => wire m ++ CRLF) ms, []).
Proof.
  revert out. induction ms as [|m ms IH]; intros out; simpl; [by rewrite app_nil_r|].
  rewrite IH. by rewrite <- !app_assoc.
Qed.

Lemma scroll_loop_spec limit buf lw t e t' e' :
  scroll_loop limit buf lw t e = (t', Some e') ->
  t <= t' /\ e < e' /\ (t' - t) + (e' - e) <= length buf /\
  (limit <= e' \/
   exists b, (b = "010"%byte \/ b = "000"%byte) /\ (drop (t' - t) buf) !! (e' - e - 1) = Some b).
Proof.
  revert lw t e. induction buf as [|b buf IH]; intros lw t e; simpl; [done|].
  destruct (lw && is_ascii_whitespace b) eqn:Ew.
  - intros H%IH. destruct H as (H1 & H2 & H4 & H3). split; [lia|]. split; [done|]. split; [lia|].
    replace (t' - t) with (S (t' - (t + 1))) by lia. exact H3.
  - destruct (_ || Byte.eqb b "000") eqn:Ec.
    + intros [= <- <-]. split; [lia|]. split; [lia|]. split; [lia|]. rewrite Nat.sub_diag.
      replace (e + 1 - e - 1) with 0 by lia.
      apply orb_prop in Ec as [Ec|Ec]; [apply orb_prop in Ec as [Ec|Ec]|].
      * left. by apply Nat.leb_le in Ec.
      * right. exists b. split; [left; by destruct (byte_eqb_spec b "010")|done].
      * right. exists b. split; [right; by destruct (byte_eqb_spec b "000")|done].
    + intros H. assert (Ht : t' = t).
      { revert H. clear. generalize (e + 1). induction buf as [|c buf IH]; intros n; simpl; [done|].
        destruct (_ || Byte.eqb c "000"); [by intros [= <- _]|by apply IH]. }
      apply IH in H as (H1 & H2 & H4 & H3). split; [lia|]. split; [lia|]. split; [lia|]. subst t'.
      rewrite Nat.sub_diag in *.
      destruct H3 as [H3|(x & Hx & H3)]; [by left|right]. exists x. split; [done|].
      replace (e' - e - 1) with (S (e' - (e + 1) - 1)) by lia. done.
Qed.

(** A line without a newline or NUL is scrolled over up to its terminator. *)
Lemma scroll_loop_line limit l rest t e :
  valid Line l -> e + length l + 2 <= limit ->
  scroll_loop limit (l ++ CRLF ++ rest) false t e = (t, Some (e + length l + 2)).
Proof.
  intros [_ Hl]%valid_iff. revert e. induction Hl as [|b l Hb _ IH]; intros e Hlen; simpl in Hlen.
  - cbn [app CRLF scroll_loop]. change (false && _) with false. cbn [andb].
    rewrite (proj2 (Nat.leb_gt _ _)) by lia.
    change (Byte.eqb "013" "010") with false. change (Byte.eqb "013" "000") with false.
    change (Byte.eqb "010" "010") with true. cbn [orb]. rewrite orb_true_r. cbn [orb length].
    do 2 f_equal. lia.
  - cbn [app scroll_loop andb]. rewrite (proj2 (Nat.leb_gt _ _)) by lia.
    assert (Hc : Byte.eqb b "010" = false /\ Byte.eqb b "000" = false) by (clear -Hb; byte_cases b; by split).
    destruct Hc as [-> ->]. cbn [orb]. rewrite IH by lia. do 2 f_equal. simpl. lia.
Qed.

(** ** Theorems *)

(** C12: client messages sent one after the other over a connection are read
    back by the server codec as the same messages in the same order, with
    nothing left over, provided each is faithful on the wire and fits. *)
Theorem client_stream_roundtrip ms rest :
  Forall (fun m => client_wf m /\ wire_ok (ctags m) (cargs m) /\
                   length (client_write_to m) + 2 <= CLIENT_MAX_LEN) ms ->
  let '(out, buf) :=
    foldl (fun st m => let '(_, out, buf) := client_send_to None m st.1 st.2 in (out, buf)) ([], []) ms in
  buf = [] /\
  read_many CLIENT_MAX_LEN client_parse (length ms) ((Some <$> out) ++ rest) [] = Some (ms, rest, []).
Proof.
  intros Hms. unfold client_send_to. rewrite send_all_wire. split; [done|]. cbn [app].
  apply read_many_lines. eapply Forall_impl; [exact Hms|]. cbv beta. intros m (Hwf & [Hc Hn] & Hlen).
  destruct (client_roundtrip_wire m Hwf Hn) as [Hl Hp]. split_and!; auto. apply client_wire_nonempty, Hwf.
Qed.

Lemma client_stream_roundtrip_witness :
  read_many CLIENT_MAX_LEN client_parse 2
    ((Some <$> (bs "@+x PRIVMSG #chan :hello world" ++ CRLF ++ bs "@+x PRIVMSG #chan :hello world" ++ CRLF)) ++ []) []
  = Some ([sample_client; sample_client], [], []).
Proof.
  refine (proj2 (client_stream_roundtrip [sample_client; sample_client] [] _)).
  assert (H : client_wf sample_client /\ wire_ok (ctags sample_client) (cargs sample_client) /\
    length (client_write_to sample_client) + 2 <= CLIENT_MAX_LEN).
  { split; [exact sample_client_wf|]. split; [split; [by repeat constructor|exact sample_args_ws]|].
    apply Nat.leb_le. vm_compute. reflexivity. }
  constructor; [exact H|]. constructor; [exact H|constructor].
Defined.

(** *** Reading again after an error *)

(** What a reader delivers, and how often it fails. *)
Definition bytes_in (read : Reader) : list byte := omap id read.
Definition failures (read : Reader) : nat := length (List.filter (fun x => match x with None => true | _ => false end) read).

(** A reader whose last line is complete. *)
Definition terminated (q : list byte) : Prop := q = [] \/ list.last q = Some "010"%byte.

(** [read_msg!] called again, with the same buffer, as long as the reader fails. *)
Fixpoint read_again {M} limit (parse : list byte -> option (result M ParseError)) (owning : bool) (calls fuel : nat) (read : Reader) (buf : list byte)
    : option (result M IoError * Reader * list byte) :=
  match calls with
  | 0 => None
  | S calls =>
      match read_msg limit parse owning fuel read buf with
      | Some (Err ReadError, read, buf) => read_again limit parse owning calls fuel read buf
      | r => r
      end
  end.

Lemma terminated_suffix a b : terminated (a ++ b) -> terminated b.
Proof.
  intros [Ht|Ht]; [apply app_eq_nil in Ht as [_ ->]; by left|]. destruct b as [|x b]; [by left|right].
  by rewrite last_app_cons in Ht.
Qed.

Lemma terminated_more l q : terminated (l ++ q) -> no_nl l -> q = [] -> l = [].
Proof.
  intros [Ht|Ht] Hl ->; rewrite app_nil_r in Ht; [done|]. apply last_Some in Ht as [l' ->].
  apply Forall_app in Hl as [_ Hl]. by inversion Hl.
Qed.

(** A read that fails, and one that does not, against the same without errors. *)
Lemma read_until_clean limit read buf c :
  match read_until limit read buf c with
  | (Ok n, read', buf') =>
      read_until limit (Some <$> bytes_in read) buf c = (Ok n, Some <$> bytes_in read', buf') /\
      (exists l, bytes_in read = l ++ bytes_in read' /\ n = c + length l) /\ failures read' = failures read
  | (Err _, read', buf') =>
      exists l, bytes_in read = l ++ bytes_in read' /\ buf' = buf ++ l /\ no_nl l /\ length l < limit /\
        failures read = S (failures read') /\
        read_until limit (Some <$> bytes_in read) buf c =
          read_until (limit - length l) (Some <$> bytes_in read') buf' (c + length l)
  end.
Proof.
  revert read buf c. induction limit as [|limit IH]; intros read buf c; cbn [read_until].
  { split; [done|]. split; [|done]. exists []. split; [done|cbn; lia]. }
  destruct read as [|[b|] read]; cbn [bytes_in omap list_omap id fmap list_fmap].
  - split; [done|]. split; [|done]. exists []. split; [done|cbn; lia].
  - fold (bytes_in read). destruct (Byte.eqb b "010") eqn:Hb.
    { split; [done|]. split; [|done]. exists [b]. split; [done|cbn; lia]. }
    specialize (IH read (buf ++ [b]) (c + 1)).
    destruct (read_until limit read (buf ++ [b]) (c + 1)) as [[[n|u] read'] buf'].
    + destruct IH as (K1 & (l & Hl & ->) & K2). split; [done|]. split; [|done]. exists (b :: l). rewrite Hl. split; [done|cbn; lia].
    + destruct IH as (l & Hb' & -> & Hl & Hlen & Hf & Hr). exists (b :: l). split; [by rewrite Hb'|]. split; [by rewrite <- app_assoc|]. split; [by constructor|]. split; [cbn; lia|]. split; [done|]. rewrite Hr. rewrite <- app_assoc. cbn [length Nat.sub app].
      by replace (c + 1 + length l) with (c + S (length l)) by lia.
  - fold (bytes_in read). exists []. cbn [length]. rewrite Nat.sub_0_r, Nat.add_0_r.
    split; [done|]. split; [by rewrite app_nil_r|]. split; [constructor|]. split; [lia|]. done.
Qed.

Lemma read_until_le limit read buf c n read' buf' : read_until limit read buf c = (Ok n, read', buf') -> c <= n.
Proof.
  revert read buf c. induction limit as [|limit IH]; intros read buf c; cbn [read_until]; [intros [= <- _ _]; lia|].
  destruct read as [|[b|] read]; [intros [= <- _ _]; lia| |done]. destruct (Byte.eqb b "010"); [intros [= <- _ _]; lia|].
  intros Hr%IH. lia.
Qed.

(** Nothing is read only at the end. *)
Lemma read_until_zero limit q buf read' buf' :
  0 < limit -> read_until limit (Some <$> q) buf 0 = (Ok 0, read', buf') -> q = [].
Proof.
  destruct limit as [|limit]; [lia|]. intros _. destruct q as [|b q]; [done|]. cbn. destruct (Byte.eqb b "010"); [done|].
  intros Hr%read_until_le. lia.
Qed.

Lemma bytes_in_clean q : bytes_in (Some <$> q) = q.
Proof. induction q as [|x q IH]; [done|]. cbn. by f_equal. Qed.

Lemma read_until_clean_reader limit q buf c :
  match read_until limit (Some <$> q) buf c with
  | (Ok _, read', _) => exists q', read' = Some <$> q' /\ exists l, q = l ++ q'
  | (Err _, _, _) => False
  end.
Proof.
  revert q buf c. induction limit as [|limit IH]; intros q buf c; cbn [read_until]; [by exists q; split; [|exists []]|].
  destruct q as [|b q]; cbn [fmap list_fmap]; [by exists []; split; [|exists []]|].
  destruct (Byte.eqb b "010"); [by exists q; split; [|exists [b]]|]. specialize (IH q (buf ++ [b]) (c + 1)).
  destruct (read_until _ _ _ _) as [[[n|u] read'] buf']; [|done]. destruct IH as (q' & -> & l & ->). by exists q'; split; [|exists (b :: l)].
Qed.

(** The count only is counted on. *)
Lemma read_until_count limit read buf c d :
  match read_until limit read buf c, read_until limit read buf d with
  | (Ok n, read1, buf1), (Ok m, read2, buf2) => n + d = m + c /\ read1 = read2 /\ buf1 = buf2
  | (Err _, read1, buf1), (Err _, read2, buf2) => read1 = read2 /\ buf1 = buf2
  | _, _ => False
  end.
Proof.
  revert read buf c d. induction limit as [|limit IH]; intros read buf c d; cbn [read_until]; [by split; [lia|]|].
  destruct read as [|[b|] read]; [by split; [lia|]| |done]. destruct (Byte.eqb b "010"); [by split; [lia|]|].
  specialize (IH read (buf ++ [b]) (c + 1) (d + 1)). destruct (read_until limit read _ (c + 1)) as [[[?|?] ?] ?], (read_until limit read _ (d + 1)) as [[[?|?] ?] ?]; try done.
  by destruct IH as (? & ? & ?); split; [lia|].
Qed.

Section again.
Context {M : Type} (limit : nat) (parse : list byte -> option (result M ParseError)) (owning : bool).
#[local] Abbreviation read_msg := (read_msg limit parse owning).

(** What [read_msg!] goes on with once [read_until] has read something. *)
Definition go_on (fuel : nat) (read : Reader) (buf : list byte) : option (result M IoError * Reader * list byte) :=
  match read_buf buf with
  | RbAgain => read_msg fuel read []
  | RbError e buf => Some (Err (ParseFailed e), read, buf)
  | RbLine buf => match parse buf with None => None | Some r => Some (map_err ParseFailed r, read, if owning then [] else buf) end
  end.

Lemma read_msg_S fuel read buf :
  read_msg (S fuel) read buf =
    if length buf <? limit then
      match read_until (limit - length buf) read buf 0 with
      | (Err _, read, buf) => Some (Err ReadError, read, buf)
      | (Ok 0, read, buf) => Some (Err UnexpectedEof, read, buf)
      | (Ok _, read, buf) => go_on fuel read buf
      end
    else go_on fuel read buf.
Proof. reflexivity. Qed.

Lemma read_msg_more f F read buf x : read_msg f read buf = Some x -> f <= F -> read_msg F read buf = Some x.
Proof.
  revert F read buf. induction f as [|f IH]; intros [|F] read buf; [done|done|lia|]. rewrite !read_msg_S. intros Hr HF.
  assert (Hg : forall read buf, go_on f read buf = Some x -> go_on F read buf = Some x).
  { intros read0 buf0. unfold go_on. destruct (read_buf buf0); [|done..]. intros Hg. apply IH; [done|lia]. }
  destruct (_ <? _); [|by apply Hg]. destruct (read_until _ _ _ _) as [[[[|n]|u] read1] buf1]; [done|by apply Hg|done].
Qed.

(** A call that succeeds without errors, against one that may fail: it does the
    same, or fails so that going on from there without errors does the same. *)
Lemma read_msg_clean f read buf r cr p :
  terminated (bytes_in read) -> read_msg f (Some <$> bytes_in read) buf = Some (r, cr, p) ->
  r <> Err ReadError /\
  ((exists read', read_msg f read buf = Some (r, read', p) /\ cr = Some <$> bytes_in read') \/
   (exists read' buf', read_msg f read buf = Some (Err ReadError, read', buf') /\ failures read' < failures read /\
      terminated (bytes_in read') /\ read_msg f (Some <$> bytes_in read') buf' = Some (r, cr, p))).
Proof.
  revert read buf. induction f as [|f IH]; intros read buf Ht; [done|]. rewrite !read_msg_S.
  assert (Hgo : forall read buf, terminated (bytes_in read) -> go_on f (Some <$> bytes_in read) buf = Some (r, cr, p) ->
    r <> Err ReadError /\
    ((exists read', go_on f read buf = Some (r, read', p) /\ cr = Some <$> bytes_in read') \/
     (exists read' buf', go_on f read buf = Some (Err ReadError, read', buf') /\ failures read' < failures read /\
        terminated (bytes_in read') /\ read_msg f (Some <$> bytes_in read') buf' = Some (r, cr, p)))).
  { clear read buf Ht. intros read buf Ht. unfold go_on. destruct (read_buf buf) as [|e b|b]; [by apply IH| |].
    - intros [= <- <- <-]. split; [done|]. left. by eexists.
    - destruct (parse b) as [r0|]; [|done]. intros [= <- <- <-]. split; [by destruct r0|]. left. by eexists. }
  assert (Hlift : forall read buf, terminated (bytes_in read) -> go_on f (Some <$> bytes_in read) buf = Some (r, cr, p) ->
    r <> Err ReadError /\
    ((exists read', go_on f read buf = Some (r, read', p) /\ cr = Some <$> bytes_in read') \/
     (exists read' buf', go_on f read buf = Some (Err ReadError, read', buf') /\ failures read' < failures read /\
        terminated (bytes_in read') /\ read_msg (S f) (Some <$> bytes_in read') buf' = Some (r, cr, p)))).
  { intros read0 buf0 Ht0 Hg. destruct (Hgo read0 buf0 Ht0 Hg) as [Hne [Hl|(read' & buf' & K1 & K2 & K3 & K4)]]; (split; [done|]); [by left|right].
    exists read', buf'. do 3 (split; [done|]). apply (read_msg_more f); [done|lia]. }
  destruct (length buf <? limit) eqn:Hlen; [|by apply Hlift]. apply Nat.ltb_lt in Hlen.
  pose proof (read_until_clean (limit - length buf) read buf 0) as Hc.
  destruct (read_until (limit - length buf) read buf 0) as [[[n|u] read1] buf1].
  - destruct Hc as (-> & (l & Hb & _) & Hfl). rewrite Hb in Ht. apply terminated_suffix in Ht. destruct n as [|n].
    + intros [= <- <- <-]. split; [done|]. left. by eexists.
    + intros Hg. destruct (Hlift read1 buf1 Ht Hg) as [Hne [Hl|(read' & buf' & K1 & K2 & K3 & K4)]]; (split; [done|]); [by left|right].
      exists read', buf'. split; [done|]. split; [lia|done].
  - destruct Hc as (l & Hb & -> & Hl & Hll & Hfl & ->). intros Hr.
    pose proof (read_until_count (limit - length buf - length l) (Some <$> bytes_in read1) (buf ++ l) (0 + length l) 0) as Hcount.
    assert (Ht1 : terminated (bytes_in read1)) by (rewrite Hb in Ht; by apply terminated_suffix in Ht).
    assert (Hrl : read_msg (S f) (Some <$> bytes_in read1) (buf ++ l) = Some (r, cr, p) /\ r <> Err ReadError).
    { rewrite read_msg_S, length_app. rewrite (proj2 (Nat.ltb_lt _ _)) by lia. replace (limit - (length buf + length l)) with (limit - length buf - length l) by lia.
      destruct (read_until _ _ (buf ++ l) (0 + length l)) as [[[n|u1] read2] buf2] eqn:E1, (read_until _ _ (buf ++ l) 0) as [[[m|u2] read3] buf3] eqn:E2; try done.
      - destruct Hcount as (Hn & -> & ->). destruct m as [|m].
        + assert (Hpos : 0 < limit - length buf - length l) by lia. pose proof (read_until_zero _ _ _ _ _ Hpos E2) as Hz. rewrite Hb in Ht. pose proof (terminated_more l _ Ht Hl Hz) as ->.
          simpl in Hn. assert (n = 0) as -> by lia. injection Hr as <- <- <-. done.
        + destruct n as [|n]; [lia|]. split; [done|].
          pose proof (read_until_clean_reader (limit - length buf - length l) (bytes_in read1) (buf ++ l) 0) as Hk. rewrite E2 in Hk.
          destruct Hk as (q & -> & Hq). assert (Htq : terminated q) by (destruct Hq as (k & Hq); rewrite Hq in Ht1; by apply terminated_suffix in Ht1).
          pose proof (Hgo (Some <$> q) buf3) as Hg. rewrite bytes_in_clean in Hg. by destruct (Hg Htq Hr).
      - exfalso. pose proof (read_until_clean_reader (limit - length buf - length l) (bytes_in read1) (buf ++ l) 0) as Hk. by rewrite E2 in Hk. }
    destruct Hrl as [Hrl Hne]. split; [done|]. right. exists read1, (buf ++ l). split; [done|]. split; [lia|]. done.
Qed.

Lemma read_again_clean F calls read buf r cr p :
  failures read < calls -> terminated (bytes_in read) -> read_msg F (Some <$> bytes_in read) buf = Some (r, cr, p) ->
  exists read', read_again limit parse owning calls F read buf = Some (r, read', p) /\ cr = Some <$> bytes_in read'.
Proof.
  revert read buf. induction calls as [|calls IH]; intros read buf Hc Ht Hr; [lia|]. cbn [read_again].
  destruct (read_msg_clean F read buf r cr p Ht Hr) as [Hne [(read' & -> & Hcr)|(read' & buf' & -> & Hf & Ht' & Hr')]].
  - exists read'. split; [|done]. destruct r as [|[]]; done.
  - by apply (IH read' buf'); [lia|..].
Qed.

(** C33: Reading is resumable: on a reader that fails in between, any number of
    times, and whose last line is complete, calls with the same buffer, repeated
    as long as the reader fails, come to what one call comes to on a reader that
    never fails: the same message or error, the same buffer, and the same bytes
    left; whatever the buffer holds at first and whether or not the parser takes
    it over.  (After a failure in a line that the end of the file cuts short the
    call reports the end, and an uninterrupted one the part of the line.) *)
Theorem read_msg_resumable f F read buf r cr p :
  terminated (bytes_in read) -> read_msg f (Some <$> bytes_in read) buf = Some (r, cr, p) -> f <= F ->
  exists read', read_again limit parse owning (S (failures read)) F read buf = Some (r, read', p) /\
    cr = Some <$> bytes_in read'.
Proof.
  intros Ht Hr HF. apply read_again_clean; [lia|done|]. by apply (read_msg_more f).
Qed.
End again.

(** Two failures in a line, after a part of it that is in the buffer already. *)
Lemma read_msg_resumable_witness :
  exists read', read_again CLIENT_MAX_LEN client_parse true 3 1
    ((Some <$> bs "NG") ++ None :: None :: (Some <$> (bs " x" ++ CRLF ++ bs "QUIT" ++ CRLF))) (bs "PI") =
      Some (Ok (mkClientMsg [] (bs "PING") (mkArgs [bs "x"] None)), read', []) /\
    (Some <$> (bs "QUIT" ++ CRLF)) = Some <$> bytes_in read'.
Proof.
  refine (read_msg_resumable CLIENT_MAX_LEN client_parse true 1 1
    ((Some <$> bs "NG") ++ None :: None :: (Some <$> (bs " x" ++ CRLF ++ bs "QUIT" ++ CRLF))) (bs "PI") _ _ _ _ _ _).
  - right. reflexivity.
  - vm_compute. reflexivity.
  - apply Nat.leb_le. reflexivity.
Defined.

(** A line without an end. *)
Example partial_line_at_end :
  read_msg CLIENT_MAX_LEN client_parse true 1 (Some <$> bs "PING x") [] = Some (Err (ParseFailed TooLong), [], bs "PING x") /\
  read_again CLIENT_MAX_LEN client_parse true 2 1 ((Some <$> bs "PING") ++ [None] ++ (Some <$> bs " x")) [] =
    Some (Err (ParseFailed TooLong), [], bs "PING x") /\
  read_again CLIENT_MAX_LEN client_parse true 2 1 ((Some <$> bs "PING x") ++ [None]) [] =
    Some (Err UnexpectedEof, [], bs "PING x").
Proof. vm_compute. done. Qed.

(** The tokio decoder never decodes a terminated line: the piece it hands to
    [Line::from_bytes] ends with the line ending, which a [Line] may not
    contain, so every line that fits is reported as invalid.  Whenever the
    decoder does return a message, the piece was cut at the length limit. *)
Theorem decode_needs_limit {M} limit (parse : list byte -> option (result M ParseError)) :
  (forall src m src', decode limit parse src = Some (Ok (Some m), src') -> limit <= length src - length src') /\
  (forall b l rest, valid Line (b :: l) -> is_ascii_whitespace b = false -> length (b :: l) + 2 < limit ->
     decode limit parse ((b :: l) ++ CRLF ++ rest) = Some (Err (InvalidLine (ISByte "013")), rest)).
Proof.
  split.
  - intros src m src'. unfold decode, scroll_buf.
    destruct (scroll_loop limit src true 0 0) as [t [e|]] eqn:Es; [|done].
    apply scroll_loop_spec in Es as (_ & He & Hlen & Hs). rewrite !Nat.sub_0_r in *.
    destruct (from_bytes Line (take e (drop t src))) as [l|er] eqn:El; [|done].
    apply from_bytes_Ok in El as [-> Hv].
    destruct (parse _) as [[m'|er]|]; try done. intros [= -> <-]. rewrite !length_drop.
    destruct Hs as [Hs|(b & Hb & Hlk)]; [lia|]. exfalso.
    apply valid_iff in Hv as [_ Hv]. rewrite List.Forall_forall in Hv.
    assert (Hin : In b (take e (drop t src))).
    { apply list_elem_of_In, list_elem_of_lookup. exists (e - 1). by rewrite lookup_take_lt by lia. }
    apply Hv in Hin. destruct Hb as [->| ->]; discriminate Hin.
  - intros b l rest Hv Hb Hlen. unfold decode, scroll_buf.
    assert (Hsc : scroll_loop limit ((b :: l) ++ CRLF ++ rest) true 0 0 = (0, Some (length (b :: l) + 2))).
    { transitivity (scroll_loop limit ((b :: l) ++ CRLF ++ rest) false 0 0);
        [cbn [app scroll_loop]; by rewrite Hb|apply (scroll_loop_line limit (b :: l) rest 0 0); [done|lia]]. }
    rewrite Hsc, drop_0. rewrite app_assoc.
    replace (length (b :: l) + 2) with (length ((b :: l) ++ CRLF)) by (by rewrite length_app).
    rewrite take_app_length, drop_app_length.
    assert (Hf : find_invalid Line ((b :: l) ++ CRLF) = Some (ISByte "013")).
    { unfold find_invalid. cbn [check_others Line return_none]. apply valid_iff in Hv as [_ Hv].
      clear -Hv. induction Hv as [|x r Hx _ IH]; [done|]. cbn [app check_bytes]. by rewrite Hx, IH. }
    unfold from_bytes. by rewrite Hf.
Qed.

Lemma decode_needs_limit_witness :
  server_codec_decode (bs "PING x" ++ CRLF ++ []) = Some (Err (InvalidLine (ISByte "013")), []).
Proof.
  refine (proj2 (decode_needs_limit CLIENT_MAX_LEN client_parse) "P"%byte (bs "ING x") [] eq_refl eq_refl _).
  apply Nat.ltb_lt. vm_compute. reflexivity.
Defined.
