(* ===== verification/Ctcp.v ===== *)
(** * CTCP and targeted messages

    [src/ircmsg/ctcp.rs] and [src/ircmsg/targeted.rs]. *)

From S2P Require Import Prelude Builder Tags Source Strings Transforms Splitter.

(** [MaybeCtcp]. *)
Record MaybeCtcp (T : Type) := mkCtcp { ccmd : list byte; body : T }.
Arguments mkCtcp {T} ccmd body.
Arguments ccmd {T} m : rename.
Arguments body {T} m : rename.

Definition is_ctcp {T} (m : MaybeCtcp T) : bool := match ccmd m with [] => false | _ => true end.

Definition parse (v : list byte) : MaybeCtcp (list byte) :=
  match next_byte (Splitter.new (plain v)) with
  | (Some "001"%byte, splitter) =>
      let splitter := until_byte_eq "001" splitter in
      let (cmd, splitter) := string_or_default Word false splitter in
      let cmd := cow_ref (transformed (AsciiCasemap true (value cmd))) in
      let splitter := (next_byte splitter).2 in
      mkCtcp cmd (value (rest_or_default Line splitter).1)
  | _ => mkCtcp [] v
  end.

(** [into_line]; failed pushes are ignored. *)
Definition into_line (m : MaybeCtcp (list byte)) : list byte :=
  if is_ctcp m then
    let builder := Builder.new (plain []) in
    let builder := (try_push_char Line ["001"%byte] builder).2 in
    let builder := append (plain (ccmd m)) builder in
    let builder := (try_push_char Line [" "%byte] builder).2 in
    let builder := append (plain (body m)) builder in
    let builder := (try_push_char Line ["001"%byte] builder).2 in
    value (build builder)
  else body m.

Definition is_empty (m : MaybeCtcp (list byte)) : bool :=
  match ccmd m, body m with [], [] => true | _, _ => false end.

Definition len (m : MaybeCtcp (list byte)) : nat :=
  match ccmd m with
  | [] => length (body m)
  | _ => length (ccmd m) + 3 + length (body m)
  end.

Definition map {T U} (f : T -> U) (m : MaybeCtcp T) : MaybeCtcp U := mkCtcp (ccmd m) (f (body m)).

Definition map_result {T U E} (f : T -> result U E) (m : MaybeCtcp T) : result (MaybeCtcp U) E :=
  match f (body m) with Ok b => Ok (mkCtcp (ccmd m) b) | Err e => Err e end.

(** [map_iter], as the list of what the iterator yields. *)
Definition map_iter {T U} (f : T -> list U) (m : MaybeCtcp T) : list (MaybeCtcp U) :=
  List.map (mkCtcp (ccmd m)) (f (body m)).

(** ** [TargetedMsg] *)

Record TargetedMsg (T : Type) := mkTargeted {
  ttags : Tags;
  tsource : option Source;
  target : list byte;
  tvalue : T;
}.
Arguments mkTargeted {T} ttags tsource target tvalue.
Arguments ttags {T} m : rename.
Arguments tsource {T} m : rename.
Arguments target {T} m : rename.
Arguments tvalue {T} m : rename.

Definition targeted_new {T} (target : list byte) (value : T) : TargetedMsg T :=
  mkTargeted Tags.new None target value.

Definition targeted_map {T U} (f : T -> U) (m : TargetedMsg T) : TargetedMsg U :=
  mkTargeted (ttags m) (tsource m) (target m) (f (tvalue m)).

Definition targeted_map_result {T U E} (f : T -> result U E) (m : TargetedMsg T)
    : result (TargetedMsg U) E :=
  match f (tvalue m) with
  | Ok v => Ok (mkTargeted (ttags m) (tsource m) (target m) v)
  | Err e => Err e
  end.

Definition targeted_map_iter {T U} (f : T -> list U) (m : TargetedMsg T) : list (TargetedMsg U) :=
  List.map (mkTargeted (ttags m) (tsource m) (target m)) (f (tvalue m)).

(** ** Lemmas *)

(** A CTCP message as the code means it: an uppercase command without the
    delimiter, or none, and a body the delimiter cannot be confused with. *)
Definition ctcp_wf (m : MaybeCtcp (list byte)) : Prop :=
  valid Word (ccmd m) /\ valid Line (body m) /\ List.map to_ascii_uppercase (ccmd m) = ccmd m /\
  match ccmd m with
  | [] => head (body m) <> Some "001"%byte
  | _ => Forall (fun b => Byte.eqb b "001" = false) (ccmd m) /\
         Forall (fun b => Byte.eqb b "001" = false) (body m)
  end.

Lemma into_line_ctcp m : is_ctcp m = true ->
  into_line m = "001"%byte :: ccmd m ++ " "%byte :: body m ++ ["001"%byte].
Proof.
  intros Hc. unfold into_line. rewrite Hc. unfold try_push_char, try_append_str, append, append_unchecked. simpl.
  by rewrite <- !app_assoc.
Qed.

Lemma ascii_uppercase_value l : cow_ref (transformed (AsciiCasemap true l)) = List.map to_ascii_uppercase l.
Proof. apply (map_bytes_spec l PPreserveStrict to_ascii_uppercase). Qed.

(** [parse] on bytes. *)
Lemma parse_ctcp r :
  parse ("001"%byte :: r) =
  let t := take_while (fun b => negb (Byte.eqb b "001")) r in
  let c := take_while (fun b => negb (is_invalid Word b)) t in
  mkCtcp (List.map to_ascii_uppercase c) (tail (drop_while (fun b => negb (is_invalid Word b)) t)).
Proof.
  unfold parse. set (s := Splitter.new _).
  assert (Hs : as_slice s = "001"%byte :: r) by apply rem_new.
  destruct (rem_next_byte s) as [N1 N2]. rewrite Hs in N1, N2.
  destruct (next_byte s) as [c0 s1]. cbn [fst snd head tail] in N1, N2. subst c0.
  set (s2 := until_byte_eq "001" s1). pose proof (rem_until_byte_eq "001" s1) as H2. fold s2 in H2. rewrite N2 in H2.
  destruct (string_or_default_cursor Word false s2) as [S1 S2]. rewrite H2, cursor_string_false in S1, S2.
  cbn [check_others Word return_none unwrap_or] in S1, S2. cbv zeta in S1, S2. cbn [unwrap_or] in S1, S2.
  destruct (string_or_default Word false s2) as [w s3]. cbn [fst snd] in S1, S2.
  rewrite drop_length_take_while in S2. cbv zeta. rewrite ascii_uppercase_value, S1.
  rewrite (proj1 (rest_or_default_cursor Line _ eq_refl)). by rewrite (proj2 (rem_next_byte s3)), S2.
Qed.

(** ** Theorems *)

Lemma ctcp_trip m :
  ctcp_wf m ->
  parse (into_line m) = m /\ length (into_line m) = len m /\ valid Line (into_line m).
Proof.
  intros (Hw & Hb & Hu & Hc). destruct (is_ctcp m) eqn:Ei.
  - rewrite into_line_ctcp by done. destruct m as [c b]. cbn [ccmd body] in *.
    assert (Hc' : Forall (fun x => Byte.eqb x "001" = false) c /\ Forall (fun x => Byte.eqb x "001" = false) b)
      by (by destruct c). destruct Hc' as [Hc1 Hc2]. split.
    + rewrite parse_ctcp. cbv zeta.
      assert (Ht : take_while (fun x => negb (Byte.eqb x "001")) (c ++ " "%byte :: b ++ ["001"%byte]) = c ++ " "%byte :: b).
      { change (c ++ " "%byte :: b ++ ["001"%byte]) with (c ++ ([" "%byte] ++ b) ++ ["001"%byte]).
        rewrite app_assoc, take_while_app; [simpl; by rewrite app_nil_r|].
        apply Forall_app. split; [eapply Forall_impl; [exact Hc1|]; cbv beta; by intros x ->|].
        constructor; [done|]. eapply Forall_impl; [exact Hc2|]. cbv beta. by intros x ->. }
      rewrite Ht. apply valid_iff in Hw as [_ Hw].
      rewrite take_while_app, drop_while_app by (eapply Forall_impl; [exact Hw|]; cbv beta; by intros x ->).
      simpl. by rewrite app_nil_r, Hu.
    + split.
      * unfold len. simpl. rewrite length_app. simpl. rewrite length_app. simpl. destruct c; simpl in *; [done|lia].
      * assert (Hwl : valid Line c) by auto with vz. apply valid_iff in Hwl as [_ Hwl], Hb as [_ Hb].
        apply valid_iff. split; [done|]. constructor; [done|]. apply Forall_app. split; [done|].
        constructor; [done|]. apply Forall_app. split; [done|by constructor].
  - unfold into_line. rewrite Ei. unfold is_ctcp in Ei. destruct m as [c b]. cbn [ccmd body] in *.
    destruct c; [|done]. split; [|done]. unfold parse. set (s := Splitter.new _).
    assert (Hs : as_slice s = b) by apply rem_new. pose proof (proj1 (rem_next_byte s)) as N. rewrite Hs in N.
    destruct (next_byte s) as [x s1]. cbn [fst] in N. subst x. destruct (head b) as [x|]; [|done].
    by destruct x.
Qed.

(** A CTCP query or reply survives the trip through a message body, a plain
    message comes back as itself, and [len] is the length of the line made. *)
Theorem ctcp_roundtrip m :
  ctcp_wf m ->
  parse (into_line m) = m /\ length (into_line m) = len m /\ valid Line (into_line m).
Proof. apply ctcp_trip. Qed.

Lemma ctcp_roundtrip_witness :
  parse ("001"%byte :: bs "PING 123" ++ ["001"%byte]) = mkCtcp (bs "PING") (bs "123").
Proof.
  refine (proj1 (ctcp_roundtrip (mkCtcp (bs "PING") (bs "123")) _)).
  split; [reflexivity|]. split; [reflexivity|]. split; [reflexivity|]. split; repeat constructor.
Defined.
