(* ===== verification/Mode.v ===== *)
(** * Modes

    [src/state/mode.rs]: mode letters, sets of them as 64-bit words, the
    [CHANMODES] and [PREFIX] parsers and the channel modes of a server. *)

From S2P Require Import Prelude Strings FlatMap.
From Stdlib Require Import Sorting.Sorted.

(** ** [Mode] *)

(** A [Mode] is its letter. *)
Definition new (letter : byte) : option byte :=
  if is_ascii_lowercase letter || is_ascii_uppercase letter then Some letter else None.

Definition index (m : byte) : N :=
  let raw := code m in
  let letter_id := (26 - N.land raw 31)%N in
  let case := if (97 <=? raw)%N then 1%N else 0%N in
  N.shiftl letter_id 1 + case.

Definition cmp (a b : byte) : comparison := (index b ?= index a)%N.

Definition new_from_index (index : N) : byte :=
  let basis := (65 + N.shiftl (N.land index 1) 5)%N in
  byte_of (basis + (25 - N.shiftr index 1)).

Definition mask (m : byte) : N := N.shiftl 1 (index m).

(** ** [ModeSet] *)

Abbreviation ModeSet := N.

(** [!x] on a [u64]. *)
Definition not64 (x : N) : N := N.ldiff (2 ^ 64 - 1) x.

(** [u64::count_ones] and [trailing_zeros] of a non-zero word. *)
Definition bits : list N := N.of_nat <$> seq 0 64.
Definition count_ones (x : N) : nat := length (filter (fun i => N.testbit x i = true) bits).
Fixpoint pos_trailing_zeros (p : positive) : N :=
  match p with xO p => pos_trailing_zeros p + 1 | _ => 0 end.
Definition trailing_zeros (x : N) : N := match x with N0 => 64 | Npos p => pos_trailing_zeros p end.

Definition empty : ModeSet := 0%N.
Definition with_ (s : ModeSet) (m : byte) : ModeSet := N.lor s (mask m).
Definition set (s : ModeSet) (m : byte) : bool * ModeSet :=
  let s' := N.lor s (mask m) in (negb (s =? s')%N, s').
Definition unset (s : ModeSet) (m : byte) : bool * ModeSet :=
  let s' := N.land s (not64 (mask m)) in (negb (s =? s')%N, s').
Definition contains (s : ModeSet) (m : byte) : bool := negb (N.land s (mask m) =? 0)%N.
Definition is_empty (s : ModeSet) : bool := (s =? 0)%N.
Definition len (s : ModeSet) : nat := count_ones s.
Definition union (a b : ModeSet) : ModeSet := N.lor a b.
Definition intersection (a b : ModeSet) : ModeSet := N.land a b.
Definition difference (a b : ModeSet) : ModeSet := N.land a (not64 b).

Definition partial_cmp (a b : ModeSet) : option comparison :=
  let intersect := intersection a b in
  match (intersect =? a)%N, (intersect =? b)%N with
  | true, false => Some Lt
  | false, true => Some Gt
  | true, true => Some Eq
  | false, false => None
  end.

Definition from_iter (l : list byte) : ModeSet := foldl (fun s m => (set s m).2) empty l.

(** [ModeSetIter]. *)
Definition next (it : N) : option (byte * N) :=
  if (it =? 0)%N then None
  else let mode := new_from_index (N.log2 it) in Some (mode, N.land it (not64 (mask mode))).

Definition next_back (it : N) : option (byte * N) :=
  if (it =? 0)%N then None
  else let mode := new_from_index (trailing_zeros it) in Some (mode, N.land it (not64 (mask mode))).

(** What is left of an iterator, front to back; 64 turns empty any word. *)
Fixpoint collect (fuel : nat) (it : N) : list byte :=
  match fuel with
  | 0 => []
  | S fuel => match next it with Some (m, it) => m :: collect fuel it | None => [] end
  end.

Definition to_list (s : ModeSet) : list byte := collect 64 s.

(** [Display]. *)
Definition fmt (s : ModeSet) : list byte := to_list s.

(** ** [ModeTypes] *)

Inductive ModeType := TypeA | TypeB | TypeC | TypeD | Status.

#[global] Instance ModeType_eq_dec : EqDecision ModeType.
Proof. solve_decision. Defined.

Definition is_listlike (t : ModeType) : bool := match t with TypeA | Status => true | _ => false end.
Definition needs_arg_to_set (t : ModeType) : bool := match t with TypeD => false | _ => true end.
Definition needs_arg_to_unset (t : ModeType) : bool :=
  match t with TypeA | TypeB | Status => true | _ => false end.

Record ModeTypes := mkModeTypes { type_a : ModeSet; type_b : ModeSet; type_c : ModeSet; type_d : ModeSet }.

Definition types_new : ModeTypes := mkModeTypes empty empty empty empty.

Definition from_set (s : ModeSet) (t : ModeType) : ModeTypes :=
  match t with
  | TypeA => mkModeTypes s empty empty empty
  | TypeB => mkModeTypes empty s empty empty
  | TypeC => mkModeTypes empty empty s empty
  | TypeD => mkModeTypes empty empty empty s
  | Status => types_new
  end.

Definition from_sets (a b c d : ModeSet) : ModeTypes * ModeSet :=
  let overlap := intersection a b in
  let overlap := union overlap (intersection b c) in
  let overlap := union overlap (intersection c d) in
  let overlap := union overlap (intersection b d) in
  let overlap := union overlap (intersection c d) in
  (mkModeTypes (difference a overlap) (difference b overlap) (difference c overlap) (difference d overlap),
   overlap).

(** The loop of [ModeTypes::parse]: the set being filled and those after it. *)
Fixpoint types_parse_loop (bytes : list byte) (done : list ModeSet) (s : ModeSet) (more : nat)
    : list ModeSet * list byte :=
  match bytes with
  | [] => (done ++ [s] ++ replicate more empty, [])
  | byte :: rest =>
      if Byte.eqb byte "," then
        match more with
        | 0 => (done ++ [s], rest)
        | S more => types_parse_loop rest (done ++ [s]) empty more
        end
      else match new byte with
           | Some mode => types_parse_loop rest done (set s mode).2 more
           | None => types_parse_loop rest done s more
           end
  end.

Definition types_parse (bytes : list byte) : ModeTypes * ModeSet * list byte :=
  match types_parse_loop bytes [] empty 3 with
  | ([a; b; c; d], bytes) => (from_sets a b c d, bytes)
  | (_, bytes) => (types_new, empty, bytes)
  end.

Definition types_get (t : ModeTypes) (m : byte) : option ModeType :=
  if contains (type_d t) m then Some TypeD
  else if contains (type_a t) m then Some TypeA
  else if contains (type_b t) m then Some TypeB
  else if contains (type_c t) m then Some TypeC
  else None.

Definition upd (here : bool) (s : ModeSet) (m : byte) : ModeSet := if here then (set s m).2 else (unset s m).2.

Definition types_insert (t : ModeTypes) (m : byte) (ty : ModeType) : ModeTypes :=
  mkModeTypes (upd (bool_decide (ty = TypeA)) (type_a t) m) (upd (bool_decide (ty = TypeB)) (type_b t) m)
    (upd (bool_decide (ty = TypeC)) (type_c t) m) (upd (bool_decide (ty = TypeD)) (type_d t) m).

Definition upd_set (here : bool) (s ms : ModeSet) : ModeSet := if here then union s ms else difference s ms.

Definition insert_set (t : ModeTypes) (ms : ModeSet) (ty : ModeType) : ModeTypes :=
  mkModeTypes (upd_set (bool_decide (ty = TypeA)) (type_a t) ms) (upd_set (bool_decide (ty = TypeB)) (type_b t) ms)
    (upd_set (bool_decide (ty = TypeC)) (type_c t) ms) (upd_set (bool_decide (ty = TypeD)) (type_d t) ms).

Definition types_fmt (t : ModeTypes) : list byte :=
  fmt (type_a t) ++ bs "," ++ fmt (type_b t) ++ bs "," ++ fmt (type_c t) ++ bs "," ++ fmt (type_d t).

(** ** [StatusModes] *)

Abbreviation StatusModes := (list (byte * byte)).

(** [u8::escape_ascii]. *)
Definition escape_ascii (b : byte) : list byte :=
  match b with
  | x09 => bs "\t"
  | x0d => bs "\r"
  | x0a => bs "\n"
  | "'"%byte => bs "\'"
  | x22 => ["\"%byte; x22]
  | "\"%byte => bs "\\"
  | _ => if (32 <=? code b)%N && (code b <=? 126)%N then [b] else bs "\x" ++ digits 16 2 (code b)
  end.

Definition prefix_value : list byte := bs "PREFIX value".
Definition backtick : byte := x60.

(** The scan of earlier pairs for the mode and the prefix. *)
Fixpoint status_check (map : StatusModes) (mode prefix : byte) : option ParseError :=
  match map with
  | [] => None
  | (mode_b, prefix_b) :: map =>
      if Byte.eqb mode mode_b then
        Some (InvalidField prefix_value (bs "duplicate mode " ++ [backtick; mode; backtick]))
      else if Byte.eqb prefix prefix_b then
        Some (InvalidField prefix_value (bs "duplicate prefix " ++ [backtick] ++ escape_ascii prefix ++ [backtick]))
      else status_check map mode prefix
  end.

(** The loop of [StatusModes::parse]. *)
Fixpoint status_loop (modes prefixes : list byte) (skip_prefixes : bool) (map : StatusModes)
    : result StatusModes ParseError :=
  let '(prefix, prefixes, skip_prefixes) :=
    if negb skip_prefixes then
      match prefixes with
      | p :: ps => if is_ascii p then (p, ps, false) else (x00, ps, true)
      | [] => (x00, [], true)
      end
    else (x00, prefixes, true) in
  match modes with
  | [] => Ok map
  | mode :: modes =>
      match new mode with
      | None => status_loop modes prefixes skip_prefixes map
      | Some mode =>
          match status_check map mode prefix with
          | Some e => Err e
          | None => status_loop modes prefixes skip_prefixes (map ++ [(mode, prefix)])
          end
      end
  end.

Definition status_parse (arg : list byte) : result StatusModes ParseError :=
  match arg with
  | "("%byte :: arg =>
      let modes := take_while (fun c => negb (Byte.eqb c ")")) arg in
      match drop_while (fun c => negb (Byte.eqb c ")")) arg with
      | [] => Err (InvalidField prefix_value (bs "missing closing ')'"))
      | _ :: prefixes => status_loop modes prefixes false []
      end
  | _ => Err (InvalidField prefix_value (bs "missing leading '('"))
  end.

Definition status_contains (s : StatusModes) (m : byte) : bool := existsb (fun p => Byte.eqb p.1 m) s.

Definition get_prefix (s : StatusModes) (m : byte) : option byte :=
  match List.find (fun p => Byte.eqb p.1 m) s with
  | Some (_, p) => if Byte.eqb p x00 then None else Some p
  | None => None
  end.

(** [get_mode]; the argument is a [NonZeroU8]. *)
Definition get_mode (s : StatusModes) (prefix : byte) : option byte :=
  fst <$> List.find (fun p => Byte.eqb p.2 prefix) s.

(** ** [ServerChanModes] *)

Record ServerChanModes := mkServerChanModes {
  nonstatus : ModeTypes;
  status : StatusModes;
  overlap_ : ModeSet;
  extra : list ModeSet;
}.

(** The loop over the mode types beyond the four. *)
Fixpoint extra_loop (bytes : list byte) (s : ModeSet) (extra : list ModeSet) : list ModeSet :=
  match bytes with
  | [] => if is_empty s then extra else extra ++ [s]
  | byte :: rest =>
      if Byte.eqb byte "," then extra_loop rest empty (extra ++ [s])
      else match new byte with
           | Some mode => extra_loop rest (set s mode).2 extra
           | None => extra_loop rest s extra
           end
  end.

(** [from_isupport], given the values of the two tokens. *)
Definition from_isupport_values (chanmodes prefix : option (list byte)) : ServerChanModes :=
  let '(nonstatus, overlap, extra) :=
    match chanmodes with
    | Some raw =>
        let '(nonstatus, overlap, extra_raw) := types_parse raw in
        (nonstatus, overlap, extra_loop extra_raw empty [])
    | None => (types_new, empty, [])
    end in
  let status := match prefix with Some raw => unwrap_or (status_parse raw) [] | None => [] end in
  mkServerChanModes nonstatus status overlap extra.

(** [from_isupport] on a [NameMap]. *)
Definition from_isupport {V} (isupport : list ((list byte * list byte) * V)) : ServerChanModes :=
  let get key := (fun e => e.1.2) <$> FlatMap.get (fun e => e.1.1) isupport key in
  from_isupport_values (get (bs "CHANMODES")) (get (bs "PREFIX")).

Definition chan_get (s : ServerChanModes) (m : byte) : option ModeType :=
  if status_contains (status s) m then Some Status else types_get (nonstatus s) m.

(** ** Letters and bits *)

(** A [Mode] holds an ASCII letter, a [ModeSet] bits of modes only. *)
Definition is_mode (m : byte) : bool := is_ascii_alphabetic m.
Definition set_wf (s : ModeSet) : Prop := (s < 2 ^ 52)%N.

Lemma new_Some letter m : new letter = Some m <-> m = letter /\ is_mode m = true.
Proof.
  unfold new, is_mode, is_ascii_alphabetic. rewrite orb_comm. destruct (_ || _) eqn:Hl.
  - split; [by intros [= <-]|by intros [-> _]].
  - split; [done|]. intros [-> ?]. congruence.
Qed.

Lemma index_mode m : is_mode m = true -> (index m < 52)%N /\ new_from_index (index m) = m.
Proof. by destruct m. Qed.

Lemma mode_index_check :
  forallb (fun i => is_mode (new_from_index i) && (index (new_from_index i) =? i)%N)
    (N.of_nat <$> seq 0 52) = true.
Proof. vm_compute. done. Qed.

Lemma mode_index i :
  (i < 52)%N -> is_mode (new_from_index i) = true /\ index (new_from_index i) = i.
Proof.
  intros Hi. pose proof mode_index_check as Hc. rewrite List.forallb_forall in Hc.
  destruct (proj1 (andb_true_iff _ _) (Hc i ltac:(
    apply list_elem_of_In, list_elem_of_fmap; exists (N.to_nat i); split; [lia|];
    apply elem_of_seq; lia))) as [? Heq].
  split; [done|]. by apply N.eqb_eq.
Qed.

Lemma index_inj m n : is_mode m = true -> is_mode n = true -> index m = index n -> m = n.
Proof.
  intros [_ Hm]%index_mode [_ Hn]%index_mode Heq. by rewrite <- Hm, Heq.
Qed.

Lemma mask_pow m : mask m = (2 ^ index m)%N.
Proof. unfold mask. by rewrite N.shiftl_1_l. Qed.

Lemma mask_spec m i : N.testbit (mask m) i = (index m =? i)%N.
Proof. rewrite mask_pow. apply N.pow2_bits_eqb. Qed.

Lemma contains_testbit s m : contains s m = N.testbit s (index m).
Proof.
  unfold contains. destruct (N.testbit s (index m)) eqn:Ht.
  - apply negb_true_iff, N.eqb_neq. intros Hz.
    assert (Hb : N.testbit (N.land s (mask m)) (index m) = true)
      by (rewrite N.land_spec, mask_spec, N.eqb_refl, Ht; done).
    by rewrite Hz, N.bits_0 in Hb.
  - apply negb_false_iff, N.eqb_eq, N.bits_inj_0. intros i. rewrite N.land_spec, mask_spec.
    destruct (N.eqb_spec (index m) i) as [<-|]; [by rewrite Ht|by rewrite andb_false_r].
Qed.

(** Bits at or above 52 of a well-formed set are clear, and conversely. *)
Lemma set_wf_bits s k : (s < 2 ^ k)%N <-> forall i, (k <= i)%N -> N.testbit s i = false.
Proof.
  split.
  - intros Hs i Hi. destruct (N.eq_dec s 0) as [->|]; [apply N.bits_0|].
    apply N.bits_above_log2. apply N.log2_lt_pow2 in Hs; lia.
  - intros Hb. destruct (N.eq_dec s 0) as [->|Hnz].
    + pose proof (N.pow_nonzero 2 k). lia.
    + apply N.log2_lt_pow2; [lia|]. destruct (N.lt_ge_cases (N.log2 s) k) as [|Hge]; [done|].
      pose proof (N.bit_log2 s Hnz) as Ht. by rewrite Hb in Ht.
Qed.

Lemma not64_spec x i : (i < 64)%N -> N.testbit (not64 x) i = negb (N.testbit x i).
Proof.
  intros Hi. unfold not64. rewrite N.ldiff_spec.
  replace (2 ^ 64 - 1)%N with (N.ones 64) by done. by rewrite N.ones_spec_low.
Qed.

(** Masking with a complement clears bits, in a 64-bit word. *)
Lemma land_not64_spec s x i :
  set_wf s -> N.testbit (N.land s (not64 x)) i = N.testbit s i && negb (N.testbit x i).
Proof.
  intros Hs. rewrite N.land_spec. destruct (N.lt_ge_cases i 64).
  - by rewrite not64_spec.
  - rewrite (proj1 (set_wf_bits s 52) Hs i) by lia. done.
Qed.

Lemma set_ext s t :
  set_wf s -> set_wf t -> (forall m, is_mode m = true -> contains s m = contains t m) -> s = t.
Proof.
  intros Hs Ht Hc. apply N.bits_inj. intros i. destruct (N.lt_ge_cases i 52) as [Hi|Hi].
  - destruct (mode_index i Hi) as [Hm Hix]. specialize (Hc _ Hm).
    by rewrite !contains_testbit, Hix in Hc.
  - by rewrite (proj1 (set_wf_bits s 52) Hs), (proj1 (set_wf_bits t 52) Ht).
Qed.

Section modes.
Context (s t : ModeSet) (Hs : set_wf s) (Ht : set_wf t).

Lemma empty_wf : set_wf empty.
Proof. done. Qed.

Lemma contains_empty n : contains empty n = false.
Proof. done. Qed.

Lemma union_wf : set_wf (union s t).
Proof.
  apply set_wf_bits. intros i Hi. unfold union. rewrite N.lor_spec.
  by rewrite (proj1 (set_wf_bits s 52) Hs), (proj1 (set_wf_bits t 52) Ht).
Qed.

Lemma intersection_wf : set_wf (intersection s t).
Proof.
  apply set_wf_bits. intros i Hi. unfold intersection. rewrite N.land_spec.
  by rewrite (proj1 (set_wf_bits s 52) Hs).
Qed.

Lemma land_not64_wf x : set_wf (N.land s (not64 x)).
Proof.
  apply set_wf_bits. intros i Hi. rewrite N.land_spec. by rewrite (proj1 (set_wf_bits s 52) Hs).
Qed.

Lemma mask_wf m : is_mode m = true -> set_wf (mask m).
Proof.
  intros [Hi _]%index_mode. unfold set_wf. rewrite mask_pow. by apply N.pow_lt_mono_r.
Qed.

Lemma contains_union n : contains (union s t) n = contains s n || contains t n.
Proof. rewrite !contains_testbit. apply N.lor_spec. Qed.

Lemma contains_intersection n : contains (intersection s t) n = contains s n && contains t n.
Proof. rewrite !contains_testbit. apply N.land_spec. Qed.

Lemma contains_difference n : contains (difference s t) n = contains s n && negb (contains t n).
Proof. rewrite !contains_testbit. by apply land_not64_spec. Qed.

Lemma contains_mask m n :
  is_mode m = true -> is_mode n = true -> contains (mask m) n = bool_decide (m = n).
Proof.
  intros Hm Hn. rewrite contains_testbit, mask_spec. case_bool_decide as Hd.
  - subst. apply N.eqb_refl.
  - apply N.eqb_neq. intros Heq. by apply Hd, index_inj.
Qed.

(** Whether a set changed shows at the mode changed. *)
Lemma changed_flag u m :
  is_mode m = true -> set_wf u ->
  (forall n, is_mode n = true -> m <> n -> contains u n = contains s n) ->
  negb (s =? u)%N = xorb (contains u m) (contains s m).
Proof.
  intros Hm Hu Hn. destruct (N.eqb_spec s u) as [->|Hne]; simpl; [by rewrite xorb_nilpotent|].
  symmetry. apply not_false_is_true. intros Hx%xorb_eq. apply Hne, set_ext; [done..|].
  intros n Hm'. destruct (decide (m = n)) as [<-|]; [done|]. by rewrite Hn.
Qed.
End modes.

#[export] Hint Resolve empty_wf union_wf intersection_wf land_not64_wf mask_wf : vz.

Lemma set_spec s m n :
  set_wf s -> is_mode m = true -> is_mode n = true ->
  contains (set s m).2 n = bool_decide (m = n) || contains s n.
Proof.
  intros Hs Hm Hn. cbn [set snd].
  rewrite (contains_union s (mask m)), contains_mask by done. apply orb_comm.
Qed.

Lemma unset_spec s m n :
  set_wf s -> is_mode m = true -> is_mode n = true ->
  contains (unset s m).2 n = negb (bool_decide (m = n)) && contains s n.
Proof.
  intros Hs Hm Hn. cbn [unset snd]. change (N.land s _) with (difference s (mask m)).
  rewrite (contains_difference s), contains_mask by auto with vz. apply andb_comm.
Qed.

Lemma set_set_wf s m : set_wf s -> is_mode m = true -> set_wf (set s m).2.
Proof. intros. apply (union_wf s (mask m)); auto with vz. Qed.

Lemma unset_wf s m : set_wf s -> set_wf (unset s m).2.
Proof. intros. by apply land_not64_wf. Qed.

#[export] Hint Resolve set_set_wf unset_wf : vz.

(** Mode sets behave as sets of letters: [contains] after [set], [unset],
    [union], [intersection] and [difference] is what set theory says, [set] and
    [unset] report exactly whether the set changed, and bits stand for letters
    only. *)
Theorem modeset_laws s t m :
  set_wf s -> set_wf t -> is_mode m = true ->
  (set s m).1 = negb (contains s m) /\ (unset s m).1 = contains s m /\
  set_wf (set s m).2 /\ set_wf (unset s m).2 /\ with_ s m = (set s m).2 /\
  set_wf (union s t) /\ set_wf (intersection s t) /\ set_wf (difference s t) /\
  (is_empty s = true <-> forall n, is_mode n = true -> contains s n = false) /\
  forall n, is_mode n = true ->
    contains (set s m).2 n = bool_decide (m = n) || contains s n /\
    contains (unset s m).2 n = negb (bool_decide (m = n)) && contains s n /\
    contains (union s t) n = contains s n || contains t n /\
    contains (intersection s t) n = contains s n && contains t n /\
    contains (difference s t) n = contains s n && negb (contains t n).
Proof.
  intros Hs Ht Hm. split; [|split].
  - change ((set s m).1) with (negb (s =? (set s m).2)%N).
    rewrite (changed_flag s Hs (set s m).2 m), set_spec by
      (auto with vz; intros; rewrite set_spec, bool_decide_false by done; done).
    rewrite bool_decide_true by done. by destruct (contains s m).
  - change ((unset s m).1) with (negb (s =? (unset s m).2)%N).
    rewrite (changed_flag s Hs (unset s m).2 m), unset_spec by
      (auto with vz; intros; rewrite unset_spec, bool_decide_false by done; done).
    rewrite bool_decide_true by done. by destruct (contains s m).
  - repeat apply conj; auto with vz.
    + by apply land_not64_wf.
    + intros Hz%N.eqb_eq n _. by rewrite Hz.
    + intros Hn. apply N.eqb_eq, set_ext; [done..|]. intros n Hm'. by rewrite Hn.
    + intros n Hn. rewrite set_spec, unset_spec, contains_union, contains_intersection,
        contains_difference by done. done.
Qed.

Lemma modeset_laws_witness :
  set_wf 6 /\ set_wf 5 /\ is_mode "a" = true /\ (set 6 "a").1 = true.
Proof.
  split; [done|]. split; [done|]. split; [done|].
  apply (proj1 (modeset_laws 6 5 "a" eq_refl eq_refl eq_refl)).
Defined.

(** ** Iteration *)

(** The modes of the bits below [k], from the highest. *)
Definition modes_below (k : nat) : list byte := (fun i => new_from_index (N.of_nat i)) <$> reverse (seq 0 k).

(** All modes, in the order of [Mode]. *)
Definition all_modes : list byte := modes_below 52.

Lemma modes_below_S k : modes_below (S k) = new_from_index (N.of_nat k) :: modes_below k.
Proof. unfold modes_below. by rewrite seq_S, reverse_snoc. Qed.

Lemma all_modes_NoDup : NoDup all_modes.
Proof. by apply (bool_decide_unpack _). Qed.

Lemma elem_of_all_modes m : m ∈ all_modes <-> is_mode m = true.
Proof.
  unfold all_modes, modes_below. rewrite list_elem_of_fmap. split.
  - intros (i & -> & Hi%elem_of_reverse%elem_of_seq). apply mode_index. lia.
  - intros [Hi Hm]%index_mode. exists (N.to_nat (index m)). rewrite N2Nat.id. split; [done|].
    apply elem_of_reverse, elem_of_seq. lia.
Qed.

Lemma modes_below_mode k m : k <= 52 -> m ∈ modes_below k -> is_mode m = true /\ (index m < N.of_nat k)%N.
Proof.
  intros Hk. unfold modes_below. rewrite list_elem_of_fmap.
  intros (i & -> & Hi%elem_of_reverse%elem_of_seq).
  destruct (mode_index (N.of_nat i)) as [? ->]; [lia|]. split; [done|lia].
Qed.

Abbreviation members s := (filter (fun m => contains s m = true)).

(** Clearing the highest mode. *)
Lemma clear_high s k :
  k < 52 -> (s < 2 ^ N.of_nat (S k))%N -> N.testbit s (N.of_nat k) = true ->
  let s' := N.land s (not64 (mask (new_from_index (N.of_nat k)))) in
  N.log2 s = N.of_nat k /\ (s' < 2 ^ N.of_nat k)%N /\
  forall i, (i < N.of_nat k)%N -> N.testbit s' i = N.testbit s i.
Proof.
  intros Hk Hs Ht s'. destruct (mode_index (N.of_nat k)) as [_ Hx]; [lia|].
  assert (Hwf : set_wf s). { unfold set_wf. eapply N.lt_le_trans; [exact Hs|]. apply N.pow_le_mono_r; lia. }
  assert (Hs' : forall i, N.testbit s' i = N.testbit s i && negb (N.of_nat k =? i)%N).
  { intros i. unfold s'. by rewrite land_not64_spec, mask_spec, Hx. }
  split; [|split].
  - apply N.log2_unique; [lia|]. split; [|by replace (N.succ _) with (N.of_nat (S k)) by lia].
    destruct (N.le_gt_cases (2 ^ N.of_nat k) s) as [|Hlt]; [done|].
    by rewrite (proj1 (set_wf_bits _ _) Hlt) in Ht.
  - apply set_wf_bits. intros i Hi. rewrite Hs'. destruct (N.eqb_spec (N.of_nat k) i); simpl.
    + by rewrite andb_false_r.
    + rewrite (proj1 (set_wf_bits _ _) Hs) by lia. done.
  - intros i Hi. rewrite Hs'. rewrite (proj2 (N.eqb_neq _ _)) by lia. apply andb_true_r.
Qed.

Lemma collect_members k s fuel :
  k <= 52 -> k <= fuel -> (s < 2 ^ N.of_nat k)%N -> collect fuel s = members s (modes_below k).
Proof.
  revert s fuel. induction k as [|k IH]; intros s fuel Hk Hf Hs.
  { assert (s = 0%N) as -> by (change (2 ^ N.of_nat 0)%N with 1%N in Hs; lia). by destruct fuel. }
  rewrite modes_below_S. rewrite filter_cons.
  destruct (mode_index (N.of_nat k)) as [Hm Hx]; [lia|].
  rewrite contains_testbit, Hx. destruct (N.testbit s (N.of_nat k)) eqn:Ht.
  - rewrite decide_True by done. destruct (clear_high s k) as (Hl & Hs' & Hb); [lia|done..|].
    destruct fuel as [|fuel]; [lia|]. cbn [collect]. unfold next.
    destruct (N.eqb_spec s 0) as [->|_]; [done|]. rewrite Hl. f_equal.
    rewrite IH by (done || lia). apply list_filter_ext_in.
    intros m Hin. apply modes_below_mode in Hin as [_ Hi]; [|lia].
    by rewrite !contains_testbit, Hb.
  - rewrite decide_False by done. apply IH; [lia..|]. apply set_wf_bits. intros i Hi.
    destruct (N.eq_dec i (N.of_nat k)) as [->|]; [done|].
    apply (proj1 (set_wf_bits _ _) Hs). lia.
Qed.

Lemma to_list_members s : set_wf s -> to_list s = members s all_modes.
Proof. intros Hs. apply collect_members; [lia..|done]. Qed.

Lemma count_ones_members s : set_wf s -> count_ones s = length (members s all_modes).
Proof.
  intros Hs. unfold count_ones, bits, all_modes.
  replace (seq 0 64) with (seq 0 52 ++ seq 52 12) by done.
  rewrite fmap_app, filter_app, length_app, (list_filter_nil _ (N.of_nat <$> seq 52 12)), Nat.add_0_r.
  2: { intros i (j & -> & Hj%elem_of_seq)%list_elem_of_fmap.
       rewrite (proj1 (set_wf_bits s 52) Hs) by lia. done. }
  assert (Hk : forall k, k <= 52 -> length (filter (fun i => N.testbit s i = true) (N.of_nat <$> seq 0 k))
    = length (members s (modes_below k))); [|by apply Hk].
  induction k as [|k IH]; intros Hk; [done|].
  rewrite modes_below_S, seq_S, fmap_app, filter_app, length_app, IH by lia. cbn [fmap list_fmap plus].
  rewrite !filter_cons, contains_testbit. destruct (mode_index (N.of_nat k)) as [_ ->]; [lia|].
  destruct (decide _); simpl; lia.
Qed.

(** The lowest bit. *)
Lemma pos_trailing_zeros_spec p :
  N.testbit (Npos p) (pos_trailing_zeros p) = true /\
  forall i, (i < pos_trailing_zeros p)%N -> N.testbit (Npos p) i = false.
Proof.
  induction p as [p _|p [IH1 IH2]|]; cbn [pos_trailing_zeros]; [split; [done|lia]| |split; [done|lia]].
  change (N.pos p~0) with (2 * N.pos p)%N. rewrite N.add_1_r. split.
  - by rewrite N.double_bits_succ.
  - intros i Hi. destruct (N.eq_0_gt_0_cases i) as [->|Hp]; [by rewrite N.testbit_even_0|].
    replace i with (N.succ (N.pred i)) by lia. rewrite N.double_bits_succ. apply IH2. lia.
Qed.

Lemma all_modes_split t :
  (t < 52)%N ->
  exists hi lo, all_modes = hi ++ new_from_index t :: lo /\ Forall (fun n => (index n < t)%N) lo.
Proof.
  intros Ht. destruct (mode_index t Ht) as [Hm Hx].
  exists ((fun i => new_from_index (N.of_nat i)) <$> reverse (seq (S (N.to_nat t)) (51 - N.to_nat t))),
    (modes_below (N.to_nat t)). split.
  - unfold all_modes, modes_below.
    replace (seq 0 52) with (seq 0 (N.to_nat t) ++ seq (N.to_nat t) (52 - N.to_nat t))
      by (rewrite <- seq_app; f_equal; lia).
    replace (52 - N.to_nat t) with (S (51 - N.to_nat t)) by lia. cbn [seq].
    rewrite reverse_app, reverse_cons, !fmap_app, <- app_assoc. simpl. by rewrite N2Nat.id.
  - apply List.Forall_forall. intros n Hn%list_elem_of_In%modes_below_mode; lia.
Qed.

(** [next_back] takes the last member. *)
Lemma next_back_last s :
  set_wf s -> s <> 0%N ->
  exists m s', next_back s = Some (m, s') /\ set_wf s' /\ to_list s = to_list s' ++ [m].
Proof.
  intros Hs Hnz. unfold next_back. rewrite (proj2 (N.eqb_neq s 0)) by done.
  destruct s as [|p]; [done|]. cbn [trailing_zeros].
  destruct (pos_trailing_zeros_spec p) as [Ht Hlow]. set (t := pos_trailing_zeros p) in *.
  assert (Hlt : (t < 52)%N).
  { destruct (N.lt_ge_cases t 52) as [|Hge]; [done|].
    by rewrite (proj1 (set_wf_bits _ 52) Hs) in Ht. }
  destruct (mode_index t Hlt) as [Hm Hx]. destruct (all_modes_split t Hlt) as (hi & lo & Hall & Hlo).
  assert (Hs' : set_wf (N.land (N.pos p) (not64 (mask (new_from_index t))))) by by apply land_not64_wf.
  eexists _, _. split; [done|]. split; [done|].
  assert (Hnin : forall n, n ∈ all_modes -> is_mode n = true) by (intros; by apply elem_of_all_modes).
  rewrite !to_list_members by done. pose proof all_modes_NoDup as Hnd. rewrite Hall in *.
  rewrite !filter_app, !filter_cons.
  rewrite (decide_True (P := contains (N.pos p) (new_from_index t) = true))
    by (rewrite contains_testbit, Hx; done).
  rewrite (decide_False (P := contains (N.land _ _) (new_from_index t) = true)).
  2: { rewrite contains_testbit, land_not64_spec, mask_spec, !Hx, N.eqb_refl, andb_false_r by done. done. }
  assert (Hnil : forall u, (forall i, (i < t)%N -> N.testbit u i = false) -> members u lo = []).
  { intros u Hu. apply list_filter_nil. intros n Hn. rewrite contains_testbit.
    rewrite List.Forall_forall in Hlo. rewrite Hu; [done|]. by apply Hlo, list_elem_of_In. }
  rewrite !Hnil; [|intros i Hi; rewrite land_not64_spec, Hlow by done; done|done].
  rewrite app_nil_r. f_equal. apply list_filter_ext_in. intros n Hn.
  rewrite !contains_testbit, land_not64_spec, mask_spec, Hx by done.
  rewrite (proj2 (N.eqb_neq _ _)), andb_true_r; [done|]. intros Heq.
  apply NoDup_app in Hnd as (_ & Hd & _). apply (Hd n Hn).
  assert (new_from_index t = n) as ->; [|by left].
  rewrite Heq. apply index_mode, Hnin, elem_of_app. by left.
Qed.

Lemma all_modes_sorted : StronglySorted (fun a b => cmp a b = Lt) all_modes.
Proof.
  assert (Hb : forallb (fun '(a, b) => match cmp a b with Lt => true | _ => false end)
    (zip all_modes (tail all_modes)) = true) by (vm_compute; done).
  apply Sorted_StronglySorted.
  - intros a b c. unfold cmp. rewrite !N.compare_lt_iff. lia.
  - revert Hb. generalize all_modes. intros l. induction l as [|a [|b l] IH]; [by constructor..|].
    cbn [tail zip zip_with forallb]. intros [Hc Hb]%andb_true_iff.
    constructor; [by apply IH|]. constructor. by destruct (cmp a b).
Qed.

Lemma StronglySorted_filter {A} (R : A -> A -> Prop) (P : A -> Prop) `{!forall x, Decision (P x)} l :
  StronglySorted R l -> StronglySorted R (filter P l).
Proof.
  induction 1 as [|x l Hl IH Hx]; [constructor|]. rewrite filter_cons. destruct (decide (P x)); [|done].
  constructor; [done|]. rewrite List.Forall_forall in *. intros y Hy%list_elem_of_In.
  apply list_elem_of_filter in Hy as [_ ?]. by apply Hx, list_elem_of_In.
Qed.

Lemma foldl_set_spec l s n :
  Forall (fun m => is_mode m = true) l -> set_wf s -> is_mode n = true ->
  set_wf (foldl (fun s m => (set s m).2) s l) /\
  contains (foldl (fun s m => (set s m).2) s l) n = contains s n || bool_decide (n ∈ l).
Proof.
  intros Hl. revert s. induction Hl as [|m l Hm Hl IH]; intros s Hs Hn; cbn [foldl].
  - split; [done|]. rewrite bool_decide_false by set_solver. by rewrite orb_false_r.
  - destruct (IH (set s m).2) as [? ->]; [auto with vz..|]. split; [done|].
    rewrite set_spec by done. rewrite (orb_comm (bool_decide _)), <- orb_assoc. f_equal.
    rewrite <- bool_decide_or. apply bool_decide_ext. rewrite elem_of_cons. naive_solver.
Qed.

Lemma from_iter_spec l n :
  Forall (fun m => is_mode m = true) l -> is_mode n = true ->
  set_wf (from_iter l) /\ contains (from_iter l) n = bool_decide (n ∈ l).
Proof. intros Hl Hn. apply (foldl_set_spec l empty n); auto with vz. Qed.

Lemma to_list_modes s : set_wf s -> Forall (fun m => is_mode m = true) (to_list s).
Proof.
  intros Hs. rewrite to_list_members by done. apply List.Forall_forall.
  intros n Hn%list_elem_of_In%list_elem_of_filter. by apply elem_of_all_modes, Hn.
Qed.

Lemma elem_of_to_list s m : set_wf s -> m ∈ to_list s <-> is_mode m = true /\ contains s m = true.
Proof.
  intros Hs. rewrite to_list_members, list_elem_of_filter, elem_of_all_modes by done. tauto.
Qed.

Lemma from_iter_to_list s : set_wf s -> from_iter (to_list s) = s.
Proof.
  intros Hs. pose proof (to_list_modes s Hs) as Hl. apply set_ext; [|done|].
  - by apply (from_iter_spec _ "a").
  - intros m Hm. destruct (from_iter_spec (to_list s) m) as [_ ->]; [done..|].
    pose proof (elem_of_to_list s m Hs) as He. case_bool_decide as Hin.
    + symmetry. by apply He.
    + destruct (contains s m) eqn:Hc; [|done]. destruct Hin. by apply He.
Qed.

(** Iterating a mode set yields each of its letters once, in the order of
    [Mode] (alphabetically, the lower-case letter first); [len] is how many
    there are, [next_back] takes them from the other end, and collecting them
    gives the set back. *)
Theorem modeset_iter s :
  set_wf s ->
  StronglySorted (fun a b => cmp a b = Lt) (to_list s) /\
  (forall m, m ∈ to_list s <-> is_mode m = true /\ contains s m = true) /\
  len s = length (to_list s) /\
  from_iter (to_list s) = s /\
  (s = empty -> next_back s = None) /\
  (s <> empty -> exists m s', next_back s = Some (m, s') /\ set_wf s' /\ to_list s = to_list s' ++ [m]).
Proof.
  intros Hs. repeat apply conj.
  - rewrite to_list_members by done. apply StronglySorted_filter, all_modes_sorted.
  - intros m. by apply elem_of_to_list.
  - unfold len. by rewrite count_ones_members, to_list_members.
  - by apply from_iter_to_list.
  - by intros ->.
  - by apply next_back_last.
Qed.

(** The set of r, R and s. *)
Definition sample_set : ModeSet := from_iter (bs "sRr").

Lemma modeset_iter_witness :
  set_wf sample_set /\ to_list sample_set = bs "rRs" /\
  StronglySorted (fun a b => cmp a b = Lt) (to_list sample_set).
Proof.
  split; [done|]. split; [vm_compute; done|]. apply (modeset_iter sample_set). done.
Defined.

(** ** Mode types *)

Record types_wf (t : ModeTypes) : Prop := {
  wf_a : set_wf (type_a t); wf_b : set_wf (type_b t); wf_c : set_wf (type_c t); wf_d : set_wf (type_d t);
}.

(** No mode has two types. *)
Definition coherent (t : ModeTypes) : Prop :=
  intersection (type_a t) (type_b t) = empty /\ intersection (type_a t) (type_c t) = empty /\
  intersection (type_a t) (type_d t) = empty /\ intersection (type_b t) (type_c t) = empty /\
  intersection (type_b t) (type_d t) = empty /\ intersection (type_c t) (type_d t) = empty.

Lemma upd_spec here s m n :
  set_wf s -> is_mode m = true -> is_mode n = true ->
  set_wf (upd here s m) /\
  contains (upd here s m) n = if bool_decide (m = n) then here else contains s n.
Proof.
  intros Hs Hm Hn. destruct here; unfold upd.
  - rewrite set_spec by done. split; [auto with vz|]. by case_bool_decide.
  - rewrite unset_spec by done. split; [auto with vz|]. by case_bool_decide.
Qed.

Lemma upd_set_spec here s ms n :
  set_wf s -> set_wf ms ->
  set_wf (upd_set here s ms) /\
  contains (upd_set here s ms) n = if contains ms n then here else contains s n.
Proof.
  intros Hs Hms. destruct here; unfold upd_set.
  - rewrite contains_union. split; [auto with vz|]. destruct (contains ms n); [apply orb_true_r|apply orb_false_r].
  - rewrite contains_difference by done. split; [by apply land_not64_wf|].
    destruct (contains ms n); [apply andb_false_r|apply andb_true_r].
Qed.

(** The type a mode has after being given one: [Status] has no set. *)
Definition given (ty : ModeType) : option ModeType := if decide (ty = Status) then None else Some ty.

(** Giving a mode, or a set of modes, a type makes that the type [get]
    returns for it ([Status] removes it) and leaves every other mode's alone;
    sets stay well-formed. *)
Theorem types_insert_get t m ms ty n :
  types_wf t -> is_mode m = true -> set_wf ms -> is_mode n = true ->
  types_wf (types_insert t m ty) /\ types_wf (insert_set t ms ty) /\
  types_get (types_insert t m ty) n = (if decide (m = n) then given ty else types_get t n) /\
  types_get (insert_set t ms ty) n = (if contains ms n then given ty else types_get t n).
Proof.
  intros [Ha Hb Hc Hd] Hm Hms Hn.
  pose proof (fun h s Hs => proj2 (upd_spec h s m n Hs Hm Hn)) as Hu.
  pose proof (fun h s Hs => proj2 (upd_set_spec h s ms n Hs Hms)) as Hv.
  split; [|split; [|split]].
  - split; by apply (upd_spec _ _ m n).
  - split; by apply (upd_set_spec _ _ ms n).
  - unfold types_get, types_insert. cbn [type_a type_b type_c type_d].
    rewrite !Hu by done. destruct (decide (m = n)) as [->|Hne].
    + rewrite bool_decide_true by done. by destruct ty.
    + by rewrite bool_decide_false by done.
  - unfold types_get, insert_set. cbn [type_a type_b type_c type_d].
    rewrite !Hv by done. destruct (contains ms n); [|done]. by destruct ty.
Qed.

Lemma types_insert_get_witness :
  types_wf types_new /\ types_get (types_insert types_new "o" TypeB) "o" = Some TypeB.
Proof.
  assert (Hw : types_wf types_new) by by split. split; [exact Hw|].
  apply (types_insert_get types_new "o" sample_set TypeB "o" Hw eq_refl eq_refl eq_refl).
Defined.

(** [from_sets] drops from each set the modes two sets share, except for those
    the first set shares with the last two, which its comparisons leave out. *)
Lemma from_sets_spec a b c d n :
  set_wf a -> set_wf b -> set_wf c -> set_wf d ->
  let ab := contains a n && contains b n in
  let bc := contains b n && contains c n in
  let cd := contains c n && contains d n in
  let bd := contains b n && contains d n in
  let '(t, over) := from_sets a b c d in
  types_wf t /\ set_wf over /\ contains over n = ab || bc || cd || bd /\
  contains (type_a t) n = contains a n && negb (contains over n) /\
  contains (type_b t) n = contains b n && negb (contains over n) /\
  contains (type_c t) n = contains c n && negb (contains over n) /\
  contains (type_d t) n = contains d n && negb (contains over n).
Proof.
  intros Ha Hb Hc Hd. cbn [from_sets type_a type_b type_c type_d]. rewrite !contains_difference by done.
  rewrite !contains_union, !contains_intersection.
  split; [split; by apply land_not64_wf|]. split; [auto 10 with vz|]. split; [|done].
  destruct (contains a n), (contains b n), (contains c n), (contains d n); done.
Qed.

(** A mode listed as type A and as type D is kept in both sets and not
    reported as an overlap. *)
Theorem from_sets_missed_overlap :
  let s := from_iter (bs "n") in
  from_sets s empty empty s = (mkModeTypes s empty empty s, empty) /\
  from_sets s empty s empty = (mkModeTypes s empty s empty, empty) /\
  ~ coherent (from_sets s empty empty s).1.
Proof. split; [vm_compute; done|]. split; [vm_compute; done|]. intros (_ & _ & Had & _). vm_compute in Had. done. Qed.

Lemma difference_empty s : set_wf s -> difference s empty = s.
Proof.
  intros Hs. apply set_ext; [by apply land_not64_wf|done|]. intros m _.
  by rewrite contains_difference, contains_empty, andb_true_r by done.
Qed.

Lemma from_sets_coherent t :
  types_wf t -> coherent t -> from_sets (type_a t) (type_b t) (type_c t) (type_d t) = (t, empty).
Proof.
  destruct t as [a b c d]. intros [Ha Hb Hc Hd] (Hab & _ & _ & Hbc & Hbd & Hcd).
  unfold from_sets. simpl in *. rewrite Hab, Hbc, Hbd, Hcd.
  change (union (union (union (union empty empty) empty) empty) empty) with empty.
  by rewrite !difference_empty.
Qed.

(** What follows the first [k] commas, and the modes up to the next comma. *)
Definition not_comma (b : byte) : bool := negb (Byte.eqb b ",").
Fixpoint after_commas (k : nat) (l : list byte) : list byte :=
  match k with 0 => l | S k => after_commas k (tail (drop_while not_comma l)) end.
Definition letters (l : list byte) : list byte := filter (fun b => is_mode b = true) l.
Definition segment (k : nat) (l : list byte) : ModeSet :=
  from_iter (letters (take_while not_comma (after_commas k l))).

Lemma types_parse_loop_spec l done s more :
  types_parse_loop l done s more =
  let s' := foldl (fun s m => (set s m).2) s (letters (take_while not_comma l)) in
  match drop_while not_comma l, more with
  | [], _ => (done ++ [s'] ++ replicate more empty, [])
  | _ :: r, 0 => (done ++ [s'], r)
  | _ :: r, S more => types_parse_loop r (done ++ [s']) empty more
  end.
Proof.
  revert s. induction l as [|b l IH]; intros s; [done|]. cbn [types_parse_loop take_while drop_while].
  assert (not_comma b = negb (Byte.eqb b ",")) as -> by done. destruct (Byte.eqb b ","); cbn [negb]; [done|].
  unfold letters. rewrite filter_cons. destruct (new b) as [m|] eqn:Hn.
  - apply new_Some in Hn as [-> Hb]. by rewrite decide_True, IH.
  - rewrite decide_False, IH; [done|]. intros Hb.
    by rewrite (proj2 (new_Some b b)) in Hn.
Qed.

Lemma after_commas_nil k : after_commas k [] = [].
Proof. by induction k. Qed.

Lemma segment_nil k : segment k [] = empty.
Proof. unfold segment. by rewrite after_commas_nil. Qed.

Lemma types_parse_spec l :
  types_parse l = (from_sets (segment 0 l) (segment 1 l) (segment 2 l) (segment 3 l), after_commas 4 l).
Proof.
  unfold types_parse, segment. cbn [after_commas]. do 3 (rewrite types_parse_loop_spec; cbn zeta;
    destruct (drop_while not_comma _) as [|? ?]; [done|cbn [tail]]).
  rewrite types_parse_loop_spec. cbn zeta. by destruct (drop_while not_comma _).
Qed.

Lemma is_mode_not_comma m : is_mode m = true -> not_comma m = true.
Proof. by destruct m. Qed.

Lemma letters_all l : Forall (fun m => is_mode m = true) l -> letters l = l.
Proof.
  unfold letters. induction 1 as [|m l Hm _ IH]; [done|]. rewrite filter_cons, decide_True by done.
  by rewrite IH.
Qed.

Section fmt.
Context (s : ModeSet) (Hs : set_wf s).

Lemma fmt_not_comma : Forall (fun b => not_comma b = true) (fmt s).
Proof. eapply Forall_impl; [by apply to_list_modes|]. apply is_mode_not_comma. Qed.

Lemma letters_fmt : from_iter (letters (fmt s)) = s.
Proof. rewrite letters_all by by apply to_list_modes. by apply from_iter_to_list. Qed.

Lemma segment_fmt_0 r : segment 0 (fmt s ++ "," :: r)%byte = s.
Proof.
  unfold segment. cbn [after_commas]. rewrite take_while_app by apply fmt_not_comma.
  cbn [take_while not_comma]. rewrite app_nil_r. apply letters_fmt.
Qed.

Lemma segment_fmt_last : segment 0 (fmt s) = s.
Proof.
  unfold segment. cbn [after_commas]. rewrite take_while_all by apply fmt_not_comma. apply letters_fmt.
Qed.

Lemma after_commas_fmt k r : after_commas (S k) (fmt s ++ "," :: r)%byte = after_commas k r.
Proof. cbn [after_commas]. by rewrite drop_while_app by apply fmt_not_comma. Qed.

Lemma after_commas_fmt_last k : after_commas (S k) (fmt s) = [].
Proof.
  cbn [after_commas]. rewrite <- (app_nil_r (fmt s)), drop_while_app by apply fmt_not_comma.
  apply after_commas_nil.
Qed.
End fmt.

(** [ModeTypes::parse] takes the letters of the first four
    comma-separated parts as the four sets, ignoring other bytes, and returns
    what follows the fourth comma; printing coherent mode types and parsing them
    gives them back with no overlap and nothing left. *)
Theorem types_parse_correct l t :
  types_wf t -> coherent t ->
  types_parse l = (from_sets (segment 0 l) (segment 1 l) (segment 2 l) (segment 3 l), after_commas 4 l) /\
  types_parse (types_fmt t) = (t, empty, []).
Proof.
  intros Hwf Hc. split; [apply types_parse_spec|]. rewrite types_parse_spec.
  rewrite <- (from_sets_coherent t) by done. destruct Hwf as [Ha Hb Hcs Hd].
  unfold types_fmt. change (bs ",") with [","%byte]. cbn [app].
  unfold segment at 2 3 4. rewrite !after_commas_fmt, after_commas_fmt_last by done.
  repeat change (from_iter (letters (take_while not_comma (after_commas 0 ?x)))) with (segment 0 x).
  by rewrite !segment_fmt_0, segment_fmt_last by done.
Qed.

Definition sample_types : ModeTypes :=
  mkModeTypes (from_iter (bs "beI")) (from_iter (bs "k")) (from_iter (bs "l")) (from_iter (bs "imnpst")).

Lemma types_parse_correct_witness :
  types_wf sample_types /\ coherent sample_types /\ types_fmt sample_types = bs "beI,k,l,imnpst" /\
  types_parse (types_fmt sample_types) = (sample_types, empty, []).
Proof.
  assert (Hw : types_wf sample_types) by (split; done).
  assert (Hc : coherent sample_types) by (repeat apply conj; vm_compute; done).
  split; [exact Hw|]. split; [exact Hc|]. split; [vm_compute; done|].
  apply (types_parse_correct [] sample_types Hw Hc).
Defined.

(** ** Status modes *)

(** The modes of the list are letters, pairwise distinct, and so are the
    prefixes, each an ASCII byte or NUL for none. *)
Definition status_wf (s : StatusModes) : Prop :=
  Forall (fun p => is_mode p.1 = true /\ is_ascii p.2 = true) s /\ NoDup s.*1 /\ NoDup s.*2.

Lemma status_check_None map mode prefix :
  status_check map mode prefix = None <-> (mode ∉ map.*1) /\ (prefix ∉ map.*2).
Proof.
  induction map as [|[m p] map IH]; simpl; [set_solver|]. rewrite !not_elem_of_cons.
  destruct (byte_eqb_spec mode m), (byte_eqb_spec prefix p); naive_solver.
Qed.

Lemma status_loop_wf modes prefixes skip map s :
  status_wf map -> status_loop modes prefixes skip map = Ok s -> status_wf s.
Proof.
  revert prefixes skip map. induction modes as [|m modes IH]; intros prefixes skip map Hwf;
    cbn [status_loop].
  - destruct (if negb skip then _ else _) as [[??]?]. by intros [= <-].
  - assert (Hp : is_ascii (if negb skip then match prefixes with
        | p :: ps => if is_ascii p then (p, ps, false) else (x00, ps, true)
        | [] => (x00, [], true) end else (x00, prefixes, true)).1.1 = true).
    { destruct skip, prefixes as [|p ps]; [done..|]. simpl. by destruct (is_ascii p) eqn:?. }
    destruct (if negb skip then _ else _) as [[p ps] sk]. simpl in Hp.
    destruct (new m) as [m'|] eqn:Hm; [|by apply IH]. apply new_Some in Hm as [-> Hm].
    destruct (status_check map m p) eqn:Hc; [done|]. apply IH.
    apply status_check_None in Hc as [Hc1 Hc2]. destruct Hwf as (Hf & H1 & H2).
    split; [|split].
    + apply Forall_app. split; [done|]. by constructor.
    + rewrite fmap_app. apply NoDup_app. split; [done|]. split; [set_solver|apply NoDup_singleton].
    + rewrite fmap_app. apply NoDup_app. split; [done|]. split; [set_solver|apply NoDup_singleton].
Qed.

Lemma find_fst_Some (s : StatusModes) m p :
  NoDup s.*1 -> List.find (fun q => Byte.eqb q.1 m) s = Some (m, p) <-> (m, p) ∈ s.
Proof.
  induction s as [|[m' p'] s IH]; simpl; [set_solver|]. rewrite NoDup_cons. intros [Hn Hd].
  destruct (byte_eqb_spec m' m) as [->|Hne].
  - rewrite elem_of_cons. split; [intros [= ->]; by left|]. intros [[= ->]|Hin]; [done|].
    destruct Hn. apply list_elem_of_fmap. by exists (m, p).
  - rewrite IH, elem_of_cons by done. naive_solver.
Qed.

Lemma find_snd_Some (s : StatusModes) m p :
  NoDup s.*2 -> List.find (fun q => Byte.eqb q.2 p) s = Some (m, p) <-> (m, p) ∈ s.
Proof.
  induction s as [|[m' p'] s IH]; simpl; [set_solver|]. rewrite NoDup_cons. intros [Hn Hd].
  destruct (byte_eqb_spec p' p) as [->|Hne].
  - rewrite elem_of_cons. split; [intros [= ->]; by left|]. intros [[= ->]|Hin]; [done|].
    destruct Hn. apply list_elem_of_fmap. by exists (m, p).
  - rewrite IH, elem_of_cons by done. naive_solver.
Qed.

Lemma get_prefix_Some s m p :
  NoDup s.*1 -> get_prefix s m = Some p <-> (m, p) ∈ s /\ p <> x00.
Proof.
  intros Hd. unfold get_prefix. destruct (List.find _ s) as [[m' p']|] eqn:Hf.
  - destruct (List.find_some _ _ Hf) as [_ Heq]. simpl in Heq. apply Byte.byte_dec_bl in Heq as ->.
    apply find_fst_Some in Hf; [|done]. destruct (byte_eqb_spec p' x00) as [->|Hne].
    + split; [done|]. intros [Hin Hnz]. apply find_fst_Some in Hf, Hin; [|done..]. congruence.
    + split; [by intros [= ->]|]. intros [Hin _]. apply find_fst_Some in Hf, Hin; [|done..]. congruence.
  - split; [done|]. intros [Hin _]. apply find_fst_Some in Hin; [|done]. congruence.
Qed.

Lemma get_mode_Some s m p : NoDup s.*2 -> get_mode s p = Some m <-> (m, p) ∈ s.
Proof.
  intros Hd. unfold get_mode. destruct (List.find _ s) as [[m' p']|] eqn:Hf; simpl.
  - destruct (List.find_some _ _ Hf) as [_ Heq]. simpl in Heq. apply Byte.byte_dec_bl in Heq as ->.
    apply find_snd_Some in Hf; [|done].
    split; [by intros [= ->]|]. intros Hin. apply find_snd_Some in Hf, Hin; [|done..]. congruence.
  - split; [done|]. intros Hin. apply find_snd_Some in Hin; [|done]. congruence.
Qed.

Definition dup_nul : ParseError :=
  InvalidField prefix_value (bs "duplicate prefix " ++ [backtick] ++ bs "\x00" ++ [backtick]).

(** The loop over distinct modes and distinct prefixes. *)
Lemma status_loop_zip ms ps map :
  Forall (fun m => is_mode m = true) ms ->
  Forall (fun p => is_ascii p = true /\ p <> x00) ps ->
  NoDup (map.*1 ++ ms) -> NoDup (map.*2 ++ ps) ->
  status_loop ms ps false map =
  if length ms <=? length ps then Ok (map ++ zip ms ps)
  else status_loop (drop (length ps) ms) [] false (map ++ zip ms ps).
Proof.
  intros Hms. revert ps map. induction Hms as [|m ms Hm Hms IH]; intros ps map Hps H1 H2.
  { cbn [status_loop length Nat.leb zip zip_with]. rewrite app_nil_r.
    by destruct (if negb false then _ else _) as [[??]?]. }
  destruct ps as [|p ps]. { by rewrite app_nil_r. }
  apply Forall_cons_iff in Hps as [[Hp Hnz] Hps].
  cbn [status_loop negb]. rewrite Hp, (proj2 (new_Some m m)) by done.
  rewrite (proj2 (status_check_None map m p)).
  2: { apply NoDup_app in H1 as (_ & H1 & _), H2 as (_ & H2 & _). set_solver. }
  rewrite IH; [|done|by rewrite fmap_app, <- app_assoc..].
  cbn [length Nat.leb zip zip_with drop]. by rewrite <- app_assoc.
Qed.

(** Modes beyond the prefixes: the first gets NUL, a second is refused. *)
Lemma status_loop_rest m ms map :
  Forall (fun m => is_mode m = true) (m :: ms) -> NoDup (map.*1 ++ m :: ms) -> x00 ∉ map.*2 ->
  status_loop (m :: ms) [] false map =
  match ms with [] => Ok (map ++ [(m, x00)]) | _ :: _ => Err dup_nul end.
Proof.
  intros [Hm Hms]%Forall_cons_iff Hd Hz. cbn [status_loop negb].
  rewrite (proj2 (new_Some m m)) by done.
  rewrite (proj2 (status_check_None map m x00)).
  2: { apply NoDup_app in Hd as (_ & Hd & _). set_solver. }
  destruct ms as [|m2 ms]; [done|]. apply Forall_cons_iff in Hms as [Hm2 _].
  cbn [status_loop negb]. rewrite (proj2 (new_Some m2 m2)) by done.
  assert (status_check (map ++ [(m, x00)]) m2 x00 = Some dup_nul) as ->; [|done].
  assert (Hm' : (m2 ∉ map.*1) /\ m2 <> m).
  { apply NoDup_app in Hd as (_ & Hd & Hd'). split; [set_solver|].
    apply NoDup_cons in Hd' as [Hd' _]. set_solver. }
  destruct Hm' as [Hm1 Hm3]. clear Hd. induction map as [|[m' p'] map IH]; cbn [app status_check].
  - by rewrite byte_eqb_neq.
  - rewrite !fmap_cons, !not_elem_of_cons in *. simpl in Hz, Hm1. rewrite !byte_eqb_neq by naive_solver.
    apply IH; naive_solver.
Qed.

(** Parsing [(modes)prefixes] with distinct modes and prefixes pairs them up
    in order, ignoring surplus prefixes; one mode without a prefix is kept with
    none, but a second mode without a prefix is refused as a duplicate prefix. *)
Theorem status_parse_correct ms ps :
  Forall (fun m => is_mode m = true) ms ->
  Forall (fun p => is_ascii p = true /\ p <> x00) ps ->
  NoDup ms -> NoDup ps ->
  status_parse ("(" :: ms ++ ")" :: ps)%byte =
  if length ms <=? length ps then Ok (zip ms ps)
  else if length ms =? S (length ps) then Ok (zip ms (ps ++ [x00]))
  else Err dup_nul.
Proof.
  intros Hms Hps Hd1 Hd2. unfold status_parse.
  assert (Hnp : Forall (fun c => negb (Byte.eqb c ")") = true) ms)
    by (eapply Forall_impl; [exact Hms|]; intros m Hm; by destruct m).
  rewrite drop_while_app, take_while_app by done. cbn [drop_while take_while Byte.eqb negb].
  change (Byte.eqb ")" ")") with true. cbn [negb]. rewrite app_nil_r.
  rewrite status_loop_zip by done. cbn [app]. destruct (Nat.leb_spec (length ms) (length ps)); [done|].
  rewrite <- (take_drop (length ps) ms) in Hms, Hd1 |- * at 1.
  assert (Hlen : length (drop (length ps) ms) = length ms - length ps) by apply length_drop.
  assert (Hz : zip ms ps = zip (take (length ps) ms) ps).
  { transitivity (zip (take (length ps) ms ++ drop (length ps) ms) (ps ++ []));
      [by rewrite take_drop, app_nil_r|].
    rewrite zip_with_app by (rewrite length_take; lia). by rewrite zip_with_nil_r, app_nil_r. }
  rewrite (take_drop (length ps) ms).
  destruct (drop (length ps) ms) as [|m rest] eqn:Hdr; [simpl in Hlen; lia|].
  apply Forall_app in Hms as [_ Hms]. rewrite status_loop_rest; [|done|..].
  - simpl in Hlen. destruct rest as [|m2 rest]; simpl in Hlen.
    + rewrite (proj2 (Nat.eqb_eq _ _)) by lia. rewrite Hz.
      rewrite <- (take_drop (length ps) ms) at 2. rewrite Hdr.
      by rewrite zip_with_app by (rewrite length_take; lia).
    + by rewrite (proj2 (Nat.eqb_neq _ _)) by lia.
  - rewrite Hz, fst_zip by (rewrite length_take; lia). done.
  - intros Hin%list_elem_of_fmap. destruct Hin as ([m' p'] & Heq & Hin).
    apply list_elem_of_In, List.in_combine_r in Hin. simpl in Heq. subst p'.
    rewrite List.Forall_forall in Hps. by apply (Hps x00).
Qed.

Lemma status_parse_correct_witness :
  status_parse (bs "(ov)@+") = Ok [("o", "@"); ("v", "+")]%byte /\
  status_parse (bs "(ovh)@") = Err dup_nul.
Proof.
  split.
  - apply (status_parse_correct (bs "ov") (bs "@+")); [repeat constructor..| |];
      by apply (bool_decide_unpack _).
  - apply (status_parse_correct (bs "ovh") (bs "@")); [repeat constructor..| |];
      by apply (bool_decide_unpack _).
Defined.

(** Whatever [PREFIX] value is accepted, the status modes are a
    bidirectional map: modes and prefixes determine each other, all modes are
    letters, and [get_prefix] answers for a subset of what [contains] accepts. *)
Theorem status_bijection arg s m p :
  status_parse arg = Ok s -> p <> x00 ->
  (get_prefix s m = Some p <-> get_mode s p = Some m) /\
  (get_prefix s m = Some p -> status_contains s m = true /\ is_mode m = true /\ is_ascii p = true).
Proof.
  intros Hs Hp. assert (Hwf : status_wf s).
  { assert (Hnil : status_wf []) by (repeat split; constructor).
    unfold status_parse in Hs. destruct arg as [|b arg]; [done|].
    destruct (byte_eqb_spec b "(") as [->|Hb]; [|by destruct b].
    destruct (drop_while _ arg); [done|]. by eapply status_loop_wf. }
  destruct Hwf as (Hf & H1 & H2). rewrite get_prefix_Some, get_mode_Some by done.
  split; [tauto|]. intros [Hin _]. rewrite List.Forall_forall in Hf.
  apply list_elem_of_In in Hin. destruct (Hf _ Hin) as [??]. split; [|done].
  apply List.existsb_exists. exists (m, p). split; [done|]. apply byte_eqb_refl.
Qed.

Lemma status_bijection_witness :
  status_parse (bs "(ov)@+") = Ok [("o", "@"); ("v", "+")]%byte /\
  (get_prefix [("o", "@"); ("v", "+")]%byte "v" = Some "+"%byte <->
   get_mode [("o", "@"); ("v", "+")]%byte "+" = Some "v"%byte).
Proof. split; [done|]. by apply (status_bijection (bs "(ov)@+")). Defined.
