(* ===== verification/Names.v ===== *)
(** * Names

    [src/names.rs], [src/names/]: name classes, the name map, and the values
    parsed out of messages, [ISUPPORT] tokens and capabilities; with
    [src/error.rs], whose texts these parsers produce. *)

From S2P Require Import Prelude Args Tags Numeric Source Ctcp Strings Utf8 Splitter Transforms FlatMap Msg.
From S2P Require Mode.
From Stdlib Require Import Sorting.Sorted.

(** ** Errors *)

Definition invalid_string_fmt (e : InvalidString) : list byte :=
  match e with
  | ISEmpty => bs "empty substring"
  | ISColon => bs "substring begins with colon"
  | ISByte b => bs "invalid byte '" ++ Mode.escape_ascii b ++ bs "'"
  end.

Definition parse_error_fmt (e : ParseError) : list byte :=
  match e with
  | TooLong => bs "message is too long"
  | MissingField f => bs "missing field " ++ f
  | InvalidField f e => bs "invalid field " ++ f ++ bs ": " ++ e
  | InvalidLine e => bs "invalid line: " ++ invalid_string_fmt e
  | InvalidNick e => bs "invalid source nickname: " ++ invalid_string_fmt e
  | InvalidUser e => bs "invalid source username: " ++ invalid_string_fmt e
  | InvalidHost e => bs "invalid source hostname: " ++ invalid_string_fmt e
  | InvalidKind e => bs "invalid message kind: " ++ invalid_string_fmt e
  end.

(** ** Classes *)

(** [NameClass]: a union type and the bytes of its tag.  The tags of every
    class are compared as their bytes. *)
Class NameClass (U : Type) := { get_tag : U -> list byte }.

Definition ClientMsgKind : NameClass ClientMsg := {| get_tag := cmd |}.
#[global] Existing Instance ClientMsgKind.
Definition ServerMsgKind : NameClass ServerMsg := {| get_tag m := as_arg (kind m) |}.
#[global] Existing Instance ServerMsgKind.

(** The classes of [ISUPPORT] tokens, tags and capabilities: a key and a value. *)
Definition KeyValue : NameClass (list byte * list byte) := {| get_tag := fst |}.
#[global] Existing Instance KeyValue.

(** [NameValued]: a name and how its value is parsed. *)
Record NameValued (U V : Type) := mkName { as_raw : list byte; from_union : U -> result V ParseError }.
Arguments mkName {U V} as_raw from_union.
Arguments as_raw {U V} n : rename.
Arguments from_union {U V} n u : rename.

(** ** [NameMap] *)

Section NameMap.
Context {U : Type} `{NameClass U} {V : Type}.

Definition NameMap : Type := list (U * V).

(** [NameExtractor]. *)
Definition extract_key (e : U * V) : list byte := get_tag e.1.

Definition new : NameMap := [].

Definition get_union_raw (m : NameMap) (tag : list byte) : option U := fst <$> FlatMap.get extract_key m tag.
Definition get_extra_raw (m : NameMap) (tag : list byte) : option V := snd <$> FlatMap.get extract_key m tag.

(** [get_extra_raw_mut], with what is done through the reference. *)
Definition update_extra_raw (m : NameMap) (tag : list byte) (f : V -> V) : NameMap :=
  match get_impl extract_key m (length m) tag with
  | Some idx => alter (fun e => (e.1, f e.2)) idx m
  | None => m
  end.

Definition get_parsed {T} (m : NameMap) (name : NameValued U T) : option (result T ParseError) :=
  (fun e => from_union name e.1) <$> FlatMap.get extract_key m (as_raw name).

Definition get_both {T} (m : NameMap) (name : NameValued U T) : option (result T ParseError * V) :=
  (fun e => (from_union name e.1, e.2)) <$> FlatMap.get extract_key m (as_raw name).

Definition clear (_ : NameMap) : NameMap := [].
Definition len (m : NameMap) : nat := length m.
Definition is_empty (m : NameMap) : bool := match m with [] => true | _ => false end.
Definition edit (m : NameMap) : EditGuard := FlatMap.edit m.

(** What the iterator of [keys] yields. *)
Definition keys (m : NameMap) : list (list byte) := (fun e => get_tag e.1) <$> m.

Definition insert (g : EditGuard) (elem : U) (extra : V) : option (U * V) * EditGuard :=
  FlatMap.insert extract_key g (elem, extra).

Definition insert_or_update (g : EditGuard) (elem : U) (extra : V) : option U * EditGuard :=
  match get_or_insert extract_key g (elem, extra) with
  | (idx, Some (elem, extra), g) =>
      (Some elem, mkGuard (alter (fun e => (e.1, extra)) idx (src g)) (sorted_until g))
  | (_, None, g) => (None, g)
  end.

Definition try_insert (g : EditGuard) (elem : U) (extra : V) : option (U * V) * EditGuard :=
  FlatMap.try_insert extract_key g (elem, extra).

(** [remove_raw]; [None] is the panic of [FlatMapEditGuard::remove]. *)
Definition remove_raw (g : EditGuard) (tag : list byte) : option (option (U * V) * EditGuard) :=
  FlatMap.remove extract_key g tag.
End NameMap.
Arguments NameMap U V : clear implicits.

(** ** Commands *)

Definition STAR : list byte := bs "*".
Definition PLUS : list byte := bs "+".

Definition client_cmds : list (list byte) :=
  [bs "ACCEPT"; bs "ADMIN"; bs "CHALLENGE"; bs "CHATHISTORY"; bs "HELP"; bs "INFO"; bs "KILL";
   bs "KNOCK"; bs "LINKS"; bs "LIST"; bs "LUSERS"; bs "MONITOR"; bs "MAP"; bs "MOTD"; bs "NAMES";
   bs "OPER"; bs "PASS"; bs "STATS"; bs "TIME"; bs "USER"; bs "USERHOST"; bs "VERSION"; bs "WEBIRC";
   bs "WHO"; bs "WHOIS"; bs "WHOWAS"].

Definition server_cmds : list (list byte) :=
  [bs "ACCOUNT"; bs "CHGHOST"; bs "ERROR"; bs "FAIL"; bs "NOTE"; bs "WARN"].

Definition both_cmds : list (list byte) :=
  [bs "AUTHENTICATE"; bs "AWAY"; bs "BATCH"; bs "CAP"; bs "INVITE"; bs "JOIN"; bs "KICK"; bs "MODE";
   bs "NICK"; bs "NOTICE"; bs "PART"; bs "PING"; bs "PONG"; bs "PRIVMSG"; bs "QUIT"; bs "REGISTER";
   bs "SETNAME"; bs "TAGMSG"; bs "TOPIC"; bs "VERIFY"; bs "WALLOPS"].

(** [basic_unary!]: what the last argument is, and the argument list before it. *)
Definition invalid_args (name : list byte) : ParseError :=
  InvalidField (name ++ bs " args") (bs "invalid arguments").

(** The pattern of a [basic_unary!]: [[target]] or [[]]. *)
Inductive TargetPat := PTarget | PNone.

Definition match_target (p : TargetPat) (args : list (list byte)) : option (list byte) :=
  match p, args with
  | PTarget, [target] => Some target
  | PNone, [] => Some STAR
  | _, _ => None
  end.

Definition basic_unary_server (name : list byte) (pat : TargetPat)
    : NameValued ServerMsg (TargetedMsg (list byte)) :=
  mkName name (fun input =>
    match split_last (sargs input) with
    | (args, Some value) =>
        match match_target pat args with
        | Some target => Ok (mkTargeted (stags input) (source input) target value)
        | None => Err (invalid_args name)
        end
    | _ => Err (invalid_args name)
    end).

Definition basic_unary_client (name : list byte) (pat : TargetPat)
    : NameValued ClientMsg (TargetedMsg (list byte)) :=
  mkName name (fun input =>
    match split_last (cargs input) with
    | (args, Some value) =>
        match match_target pat args with
        | Some target => Ok (mkTargeted (ctags input) None target value)
        | None => Err (invalid_args name)
        end
    | _ => Err (invalid_args name)
    end).

Definition basic_unaries : list (list byte * TargetPat) :=
  [(bs "NOTICE", PTarget); (bs "PART", PTarget); (bs "PRIVMSG", PTarget); (bs "QUIT", PNone);
   (bs "TOPIC", PTarget); (bs "WALLOPS", PNone)].

(** [JOIN]; the error names the macro variable, which is not substituted here. *)
Definition JOIN : NameValued ServerMsg (TargetedMsg ()) :=
  mkName (bs "JOIN") (fun input =>
    match all (sargs input) with
    | Some [target] => Ok (mkTargeted (stags input) (source input) target ())
    | _ => Err (invalid_args (bs "$name"))
    end).

(** ** [ISUPPORT] tokens *)

(** [defn_isupport!]: run [do_parse] and wrap its error; [$name] is not a
    variable of the macro and stays as it is. *)
Definition defn_isupport {V} (key : list byte) (do_parse : list byte -> result V (list byte))
    : NameValued (list byte * list byte) V :=
  mkName key (fun input =>
    match do_parse input.2 with
    | Ok rv => Ok rv
    | Err e => Err (InvalidField (bs "$name value") e)
    end).

Definition isupport_unitary (key : list byte) : NameValued (list byte * list byte) () :=
  defn_isupport key (fun _ => Ok ()).

(** [uN::from_str_radix(src, 10)], its errors as their texts: each digit is
    checked before the overflow it causes. *)
Definition invalid_digit : list byte := bs "invalid digit found in string".
Definition too_large : list byte := bs "number too large to fit in target type".

Fixpoint from_digits (max : N) (acc : N) (l : list byte) : result N (list byte) :=
  match l with
  | [] => Ok acc
  | c :: l =>
      if is_ascii_digit c then
        let acc := (10 * acc + (code c - 48))%N in
        if (acc <=? max)%N then from_digits max acc l else
          Err too_large
      else Err invalid_digit
  end.

Definition from_str_radix10 (max : N) (src : list byte) : result N (list byte) :=
  match src with
  | [] => Err (bs "cannot parse integer from empty string")
  | ["+"%byte] | ["-"%byte] => Err invalid_digit
  | "+"%byte :: l => from_digits max 0 l
  | l => from_digits max 0 l
  end.

(** [NonZeroU16] and [NonZeroU32] from strings. *)
Definition parse_nonzero (max : N) (src : list byte) : result N (list byte) :=
  let? n := from_str_radix10 max src in
  if (n =? 0)%N then Err (bs "number would be zero for non-zero type") else Ok n.

Definition U16_MAX : N := 2 ^ 16 - 1.
Definition U32_MAX : N := 2 ^ 32 - 1.

(** [arg.to_utf8] and the error of [from_utf8] where it fails. *)
Definition strparse {V} (parse : list byte -> result V (list byte)) (arg : list byte) : result V (list byte) :=
  match utf8_error 0 arg with
  | Some e => Err (utf8_error_fmt e)
  | None => parse arg
  end.

Definition isupport_strparse (key : list byte) : NameValued (list byte * list byte) N :=
  defn_isupport key (strparse (parse_nonzero U16_MAX)).

Definition isupport_strparse_option (key : list byte) : NameValued (list byte * list byte) (option N) :=
  defn_isupport key (fun arg =>
    match arg with
    | [] => Ok None
    | _ => let? n := strparse (parse_nonzero U32_MAX) arg in Ok (Some n)
    end).

Definition isupport_mode (key : list byte) (default : option byte) : NameValued (list byte * list byte) byte :=
  defn_isupport key (fun arg =>
    match arg with
    | ml :: _ => match Mode.new ml with Some m => Ok m | None => Err (bs "invalid mode letter") end
    | [] => match default with Some d => Ok d | None => Err (bs "missing mode letter") end
    end).

Definition NETWORK : NameValued (list byte * list byte) (list byte) := defn_isupport (bs "NETWORK") Ok.
Definition CHANMODES : NameValued (list byte * list byte) Mode.ModeTypes :=
  defn_isupport (bs "CHANMODES") (fun arg => Ok (Mode.types_parse arg).1.1).
Definition PREFIX : NameValued (list byte * list byte) (list (byte * byte)) :=
  defn_isupport (bs "PREFIX") (fun arg => map_err parse_error_fmt (Mode.status_parse arg)).
Definition USERMODES : NameValued (list byte * list byte) Mode.ModeTypes :=
  defn_isupport (bs "USERMODES") (fun arg => Ok (Mode.types_parse arg).1.1).

Definition unitary_keys : list (list byte) := [bs "ETRACE"; bs "KNOCK"; bs "SAFELIST"; bs "UTF8ONLY"; bs "WHOX"].
Definition strparse_keys : list (list byte) :=
  [bs "AWAYLEN"; bs "CHANNELLEN"; bs "HOSTLEN"; bs "KICKLEN"; bs "MODES"; bs "NICKLEN"; bs "TOPICLEN"; bs "USERLEN"].
Definition strparse_option_keys : list (list byte) := [bs "MONITOR"; bs "SILENCE"].
Definition mode_keys : list (list byte * option byte) :=
  [(bs "BOT", None); (bs "CALLERID", Some "g"%byte); (bs "EXCEPTS", Some "e"%byte); (bs "INVEX", Some "I"%byte)].

(** ** Capabilities *)

Definition cap_keys : list (list byte) :=
  [bs "account-notify"; bs "account-tag"; bs "batch"; bs "chghost"; bs "echo-message"; bs "extended-join";
   bs "extended-monitor"; bs "invite-notify"; bs "labeled-response"; bs "message-tags"; bs "msgid";
   bs "multi-prefix"; bs "sasl"; bs "server-time"; bs "setname"; bs "standard-replies"; bs "sts";
   bs "userhost-in-names"].

(** [BTreeSet::insert], the set as its sorted elements. *)
Fixpoint btree_insert (x : list byte) (l : list (list byte)) : list (list byte) :=
  match l with
  | [] => [x]
  | y :: l' =>
      match bytes_cmp x y with
      | Lt => x :: l
      | Eq => l
      | Gt => y :: btree_insert x l'
      end
  end.

(** The loop of [SASL::from_union]. *)
Fixpoint mechs_loop (fuel : nat) (splitter : Splitter) (names : list (list byte)) : option (list (list byte)) :=
  match fuel with
  | 0 => None
  | S fuel =>
      if Splitter.is_empty splitter then Some names
      else
        let (name, splitter) :=
          save_end (fun s => rest_or_default Word (until_byte_eq "," s)) splitter in
        let names :=
          match value name with
          | [] => names
          | name => btree_insert (cow_ref (transformed (AsciiCasemap true name))) names
          end in
        mechs_loop fuel (next_byte splitter).2 names
  end.

(** Every turn takes a byte. *)
Definition sasl_mechs (mechs_raw : list byte) : option (list (list byte)) :=
  mechs_loop (S (length mechs_raw)) (Splitter.new (plain mechs_raw)) [].

(** ** The name map *)

Section NameMapThms.
Context {U : Type} `{NameClass U} {V : Type}.
Implicit Types m : list (U * V).

(** The invariant: tags strictly increasing. *)
Definition map_wf m : Prop := FlatMap.sorted extract_key m.

Lemma alter_insert {A} (l : list A) i x f : l !! i = Some x -> alter f i l = <[i := f x]> l.
Proof.
  revert i. induction l as [|y l IH]; intros [|i] Hi; simplify_eq/=; [done|]. by rewrite IH.
Qed.

(** Updating in place what [get] finds. *)
Lemma replace_spec m i e x :
  map_wf m -> m !! i = Some e ->
  map_wf (<[i := (e.1, x)]> m) /\
  FlatMap.get extract_key (<[i := (e.1, x)]> m) (get_tag e.1) = Some (e.1, x) /\
  forall k, k <> get_tag e.1 -> FlatMap.get extract_key (<[i := (e.1, x)]> m) k = FlatMap.get extract_key m k.
Proof.
  intros Hs Hi. assert (Hk : extract_key (e.1, x) = extract_key e) by done.
  assert (Hs' : map_wf (<[i := (e.1, x)]> m)) by by eapply insert_replaced_sorted.
  split; [done|]. split.
  - apply get_sorted; [done|]. split; [|done]. eapply elem_of_insert_replaced; eauto.
  - intros k Hne. apply get_ext; [done..|]. intros y Hy.
    rewrite (elem_of_insert_replaced extract_key m i e (e.1, x) y) by done. split.
    + intros [->|[? _]]; [by destruct Hne|done].
    + intros Hm. right. split; [done|]. rewrite Hy. unfold extract_key. congruence.
Qed.

(** Through a name map's guard, [insert_or_update] adds a missing union
    with its extra value and otherwise only replaces the extra value, handing
    the given union back; [try_insert] changes nothing when the tag is present;
    [update_extra_raw] changes the extra value only.  The order of tags is kept
    and other tags are untouched. *)
Theorem namemap_update m u x f :
  map_wf m ->
  let t := get_tag u in
  (let '(r, g) := insert_or_update (edit m) u x in
   map_wf (guard_drop extract_key g) /\
   r = (fun _ => u) <$> get_union_raw m t /\
   get_union_raw (guard_drop extract_key g) t = Some (default u (get_union_raw m t)) /\
   get_extra_raw (guard_drop extract_key g) t = Some x /\
   forall k, k <> t -> FlatMap.get extract_key (guard_drop extract_key g) k = FlatMap.get extract_key m k) /\
  (let '(r, g) := try_insert (edit m) u x in
   map_wf (guard_drop extract_key g) /\
   r = (fun _ => (u, x)) <$> get_union_raw m t /\
   get_union_raw (guard_drop extract_key g) t = Some (default u (get_union_raw m t)) /\
   get_extra_raw (guard_drop extract_key g) t = Some (default x (get_extra_raw m t))) /\
  (map_wf (update_extra_raw m t f) /\
   get_extra_raw (update_extra_raw m t f) t = f <$> get_extra_raw m t /\
   get_union_raw (update_extra_raw m t f) t = get_union_raw m t).
Proof.
  intros Hs t. pose proof (get_idx_edit extract_key m t Hs) as Hg.
  unfold insert_or_update, get_or_insert, try_insert, FlatMap.try_insert, update_extra_raw, get_union_raw,
    get_extra_raw, edit. change (extract_key (u, x)) with t.
  change (get_impl extract_key m (length m) t) with (get_idx extract_key (FlatMap.edit m) t).
  destruct (get_idx extract_key (FlatMap.edit m) t) as [i|].
  - destruct Hg as (e & Hi & Hk & Hg). rewrite Hg. cbn [src sorted_until FlatMap.edit fst snd].
    rewrite !(alter_insert m i e) by done.
    destruct (replace_spec m i e x Hs Hi) as (W1 & G1 & O1).
    destruct (replace_spec m i e (f e.2) Hs Hi) as (W2 & G2 & _).
    change (get_tag e.1) with (extract_key e) in *. rewrite Hk in *.
    rewrite guard_drop_sorted_id by (simpl; by rewrite length_insert).
    rewrite guard_drop_sorted_id by done. simpl. rewrite G1, G2, Hg.
    repeat apply conj; done.
  - destruct Hg as [Hg Hn]. rewrite Hg. pose proof (edit_insert_spec extract_key m (u, x) Hs) as Hins.
    unfold FlatMap.insert in Hins. change (extract_key (u, x)) with t in Hins.
    assert (Hidx : get_idx extract_key (FlatMap.edit m) t = None).
    { pose proof (get_idx_edit extract_key m t Hs) as Hg'. destruct (get_idx _ _ _); [|done].
      destruct Hg' as (? & _ & _ & Hg'). congruence. }
    rewrite Hidx in Hins. destruct (push extract_key (FlatMap.edit m) (u, x)) as [j g] eqn:Hp.
    cbn [snd] in Hins. destruct Hins as (W & _ & G & O). rewrite G. cbn [snd]. rewrite ?Hg. by rewrite G.
Qed.

End NameMapThms.

Definition sample_caps : NameMap (list byte * list byte) bool :=
  [((bs "multi-prefix", bs ""), false); ((bs "sasl", bs "PLAIN"), false)].

Lemma namemap_update_witness :
  map_wf sample_caps /\
  get_extra_raw (guard_drop extract_key (insert_or_update (edit sample_caps) (bs "sasl", bs "") true).2) (bs "sasl")
    = Some true.
Proof.
  assert (Hw : map_wf sample_caps) by repeat constructor. split; [exact Hw|].
  pose proof (namemap_update sample_caps (bs "sasl", bs "") true negb Hw) as [Hu _].
  destruct (insert_or_update (edit sample_caps) (bs "sasl", bs "") true) as [r g]. apply Hu.
Defined.

(** ** Names *)

(** Every name constant built with [from_unchecked] satisfies its string
    type: commands are [Cmd]s, token and capability names are [Key]s, defaults
    are modes, [STAR] is a [Nick] and [PLUS] an [Arg]; and names within a class
    are distinct. *)
Theorem names_valid :
  Forall (valid Cmd) (client_cmds ++ server_cmds ++ both_cmds) /\
  NoDup (client_cmds ++ server_cmds ++ both_cmds) /\
  Forall (valid Key) (cap_keys ++ unitary_keys ++ strparse_keys ++ strparse_option_keys ++ mode_keys.*1 ++
    [as_raw NETWORK; as_raw CHANMODES; as_raw PREFIX; as_raw USERMODES]) /\
  NoDup cap_keys /\
  NoDup (unitary_keys ++ strparse_keys ++ strparse_option_keys ++ mode_keys.*1 ++
    [as_raw NETWORK; as_raw CHANMODES; as_raw PREFIX; as_raw USERMODES]) /\
  Forall (fun k => forall d, k.2 = Some d -> Mode.is_mode d = true) mode_keys /\
  valid Nick STAR /\ valid Arg PLUS.
Proof.
  split_and!; try by apply (bool_decide_unpack _); vm_compute.
  all: try (vm_compute; by repeat constructor).
  repeat constructor; simpl; naive_solver.
Qed.

(** ** Integers *)

(** The value of a digit string, most significant first. *)
Definition dec_value (acc : N) (l : list byte) : N :=
  foldl (fun acc c => (10 * acc + (code c - 48))%N) acc l.

Lemma dec_value_ge acc l : (acc <= dec_value acc l)%N.
Proof.
  revert acc. induction l as [|c l IH]; intros acc; simpl; [lia|].
  etransitivity; [|apply IH]. lia.
Qed.

Lemma from_digits_Ok max acc l n :
  (acc <= max)%N ->
  from_digits max acc l = Ok n <->
  Forall (fun c => is_ascii_digit c = true) l /\ dec_value acc l = n /\ (n <= max)%N.
Proof.
  revert acc. induction l as [|c l IH]; intros acc Hacc; cbn [from_digits dec_value foldl].
  - split; [intros [= <-]; by split_and!|]. by intros (_ & <- & _).
  - rewrite Forall_cons_iff. destruct (is_ascii_digit c); [|naive_solver].
    destruct (N.leb_spec (10 * acc + (code c - 48)) max) as [Hle|Hlt].
    + rewrite IH by done. naive_solver.
    + split; [done|]. intros (_ & Hv & Hn).
      pose proof (dec_value_ge (10 * acc + (code c - 48)) l) as Hge. unfold dec_value in Hge. lia.
Qed.

(** Digits with an optional plus sign. *)
Definition unsigned_literal (l ds : list byte) : Prop :=
  (l = ds \/ l = "+"%byte :: ds) /\ ds <> [] /\ Forall (fun c => is_ascii_digit c = true) ds.

(** A non-zero integer token is accepted exactly if it is decimal digits,
    optionally after a plus sign, whose value is between one and the maximum of
    the type, and the result is that value: there is no wrap-around. *)
Theorem parse_nonzero_correct max l n :
  parse_nonzero max l = Ok n <->
  exists ds, unsigned_literal l ds /\ dec_value 0 ds = n /\ (1 <= n <= max)%N.
Proof.
  assert (Hz : forall r : result N (list byte),
    (let? n := r in if (n =? 0)%N then Err (bs "number would be zero for non-zero type") else Ok n) = Ok n <->
    r = Ok n /\ n <> 0%N).
  { intros [v|e]; [|naive_solver]. destruct (N.eqb_spec v 0); naive_solver. }
  unfold parse_nonzero. rewrite Hz. clear Hz.
  assert (Hd : from_str_radix10 max l = Ok n <-> exists ds, unsigned_literal l ds /\ from_digits max 0 ds = Ok n).
  { unfold unsigned_literal. destruct l as [|c l]; [naive_solver|].
    destruct (byte_eqb_spec c "+") as [->|Hp].
    - destruct l as [|d l]; cbn [from_str_radix10].
      + split; [done|]. intros (ds & ([<-|Hds] & Hne & Hf) & _); [by apply Forall_cons_iff in Hf as [? _]|].
        by injection Hds as <-.
      + split; [|intros (ds & ([<-|Hds] & Hne & Hf) & Hr);
          [by apply Forall_cons_iff in Hf as [? _]|by injection Hds as <-]].
        intros Hr. exists (d :: l). split; [|done]. split; [by right|]. split; [done|].
        by apply from_digits_Ok in Hr as [? _]; [|lia].
    - destruct (byte_eqb_spec c "-") as [->|Hm].
      + split; [by destruct l|]. intros (ds & ([<-|Hds] & Hne & Hf) & _); [by apply Forall_cons_iff in Hf as [? _]|done].
      + assert (from_str_radix10 max (c :: l) = from_digits max 0 (c :: l)) as -> by by destruct c.
        split; [|by intros (ds & ([<-|[= ? _]] & _) & Hr)].
        intros Hr. exists (c :: l). split; [|done]. split; [by left|]. split; [done|].
        by apply from_digits_Ok in Hr as [? _]; [|lia]. }
  rewrite Hd. setoid_rewrite from_digits_Ok; [|lia]. unfold unsigned_literal. split.
  - intros ((ds & Hu & _ & Hv & Hle) & Hnz). exists ds. split; [done|]. split; [done|lia].
  - intros (ds & Hu & Hv & Hn). split; [|lia]. exists ds. split; [done|]. split; [apply Hu|]. split; [done|lia].
Qed.

(** An error in an [ISUPPORT] value is reported under the text [$name value]. *)
Theorem isupport_error_name :
  from_union (isupport_strparse (bs "NICKLEN")) (bs "NICKLEN", bs "x") =
  Err (InvalidField (bs "$name value") invalid_digit).
Proof. reflexivity. Qed.

(** ** SASL mechanisms *)

Lemma bytes_cmp_spec a b :
  match bytes_cmp a b with Lt => bytes_cmp a b = Lt | Eq => a = b | Gt => bytes_cmp b a = Lt end.
Proof.
  pose proof (kcmp_eq a b) as He. pose proof (kcmp_antisym a b) as Ha. cbn in He, Ha.
  destruct (bytes_cmp a b); [by apply He|done|by rewrite Ha].
Qed.

Definition bytes_lt (a b : list byte) : Prop := bytes_cmp a b = Lt.

Lemma elem_of_btree_insert x l y : y ∈ btree_insert x l <-> y = x \/ y ∈ l.
Proof.
  induction l as [|z l IH]; cbn [btree_insert]; [set_solver|].
  pose proof (bytes_cmp_spec x z) as Hc. destruct (bytes_cmp x z); rewrite ?elem_of_cons, ?IH; naive_solver.
Qed.

Lemma btree_insert_sorted x l : StronglySorted bytes_lt l -> StronglySorted bytes_lt (btree_insert x l).
Proof.
  induction 1 as [|z l Hs IH Hf]; cbn [btree_insert]; [by repeat constructor|].
  pose proof (bytes_cmp_spec x z) as Hc. destruct (bytes_cmp x z) eqn:Hxz.
  - by constructor.
  - constructor; [by constructor|]. constructor; [done|]. eapply Forall_impl; [exact Hf|].
    intros y Hy. exact (kcmp_trans (K := list byte) x z y Hxz Hy).
  - constructor; [done|]. rewrite List.Forall_forall in *. intros y Hy%list_elem_of_In.
    apply elem_of_btree_insert in Hy as [->|Hy]; [done|]. by apply Hf, list_elem_of_In.
Qed.

(** Set [names] with the uppercased, non-empty parts of [l]. *)
Definition add_mechs (l : list byte) (names : list (list byte)) : list (list byte) :=
  foldl (fun names seg => match seg with [] => names | _ => btree_insert (List.map to_ascii_uppercase seg) names end)
    names (split_on "," l).

Lemma rest_or_default_rest s U :
  check_others U = return_none ->
  (rest_or_default U s).2 = (rest U s).2 /\ rest U s = (Ok (rest_or_default U s).1, (rest U s).2).
Proof. intros HU. unfold rest_or_default, rest, peek_rest. by rewrite HU. Qed.

Lemma save_end_ext {A B} (f : Splitter -> A * Splitter) (g : Splitter -> B * Splitter) s :
  (f s).2 = (g s).2 -> (save_end f s).2 = (save_end g s).2 /\ (save_end f s).1 = (f s).1.
Proof. intros Hfg. unfold save_end, save. destruct (f s), (g s). simpl in *. subst. by split. Qed.

Lemma mech_step s :
  wf s ->
  let w := take_while (fun x => negb (Byte.eqb x ",")) (as_slice s) in
  let r := save_end (fun s => rest_or_default Word (until_byte_eq "," s)) s in
  value r.1 = w /\ as_slice r.2 = drop_while (fun x => negb (Byte.eqb x ",")) (as_slice s) /\ wf r.2.
Proof.
  intros Hw w r. destruct (save_end_rest Word "," s Hw eq_refl) as ((v & Hv & Hvw) & Hr & Hwf).
  destruct (rest_or_default_rest (until_byte_eq "," s) Word eq_refl) as [H2 Hrr].
  destruct (save_end_ext (fun s => rest_or_default Word (until_byte_eq "," s))
    (fun s => rest Word (until_byte_eq "," s)) s H2) as [G2 G1].
  fold r in G1, G2. rewrite G2. split; [|by split].
  rewrite G1. destruct (rest_or_default_cursor Word (until_byte_eq "," s) eq_refl) as [-> _].
  apply rem_until_byte_eq.
Qed.

Lemma mechs_loop_spec fuel s names :
  wf s -> length (as_slice s) < fuel ->
  mechs_loop fuel s names =
  Some (match as_slice s with [] => names | l => add_mechs l names end).
Proof.
  revert s names. induction fuel as [|fuel IH]; intros s names Hw Hf; [lia|]. cbn [mechs_loop].
  pose proof (length_rem s Hw) as Hl. unfold Splitter.is_empty. unfold Splitter.len in Hl.
  rewrite <- Hl. destruct (as_slice s) as [|c l] eqn:Hs; [done|]. cbn [length Nat.eqb].
  destruct (mech_step s Hw) as (Hv & Hr & Hwf). rewrite Hs in Hv, Hr.
  destruct (save_end _ s) as [name s1]. cbn [fst snd] in *.
  assert (Hname : forall names, match value name with
      | [] => names | name => btree_insert (cow_ref (transformed (AsciiCasemap true name))) names end =
    match value name with
      | [] => names | name => btree_insert (List.map to_ascii_uppercase name) names end).
  { intros n. destruct (value name) eqn:Hn; [done|]. by rewrite ascii_uppercase_value. }
  destruct (rem_next_byte s1) as [_ Hn]. rewrite Hr in Hn.
  assert (Hlen : length (as_slice (next_byte s1).2) < fuel).
  { rewrite Hn. pose proof (length_drop_while (fun x => negb (Byte.eqb x ",")) (c :: l)) as Hd.
    destruct (drop_while _ (c :: l)) as [|x d]; simpl in *; lia. }
  rewrite IH by (auto with vz). f_equal. unfold add_mechs. rewrite (split_on_cons "," (c :: l)). cbn [foldl].
  rewrite <- Hv, Hname. rewrite Hn.
  destruct (value name), (drop_while _ (c :: l)) as [|x [|y d]]; done.
Qed.

Lemma elem_of_add_mechs l names x :
  x ∈ add_mechs l names <->
  x ∈ names \/ exists seg, seg ∈ split_on "," l /\ seg <> [] /\ x = List.map to_ascii_uppercase seg.
Proof.
  unfold add_mechs. revert names. induction (split_on "," l) as [|seg segs IH]; intros names; cbn [foldl].
  - set_solver.
  - rewrite IH. setoid_rewrite elem_of_cons. destruct seg; [|rewrite elem_of_btree_insert]; naive_solver.
Qed.

Lemma add_mechs_sorted l names : StronglySorted bytes_lt names -> StronglySorted bytes_lt (add_mechs l names).
Proof.
  unfold add_mechs. revert names. induction (split_on "," l) as [|seg segs IH]; intros names Hn; cbn [foldl]; [done|].
  apply IH. destruct seg; [done|]. by apply btree_insert_sorted.
Qed.

Lemma sasl_mechs_spec l :
  exists names, sasl_mechs l = Some names /\ StronglySorted bytes_lt names /\
  forall x, x ∈ names <->
    exists seg, seg ∈ split_on "," l /\ seg <> [] /\ x = List.map to_ascii_uppercase seg.
Proof.
  unfold sasl_mechs. rewrite mechs_loop_spec by (auto with vz; rewrite rem_new; simpl; lia).
  rewrite rem_new. cbn [value plain]. eexists. split; [done|].
  destruct l as [|c l].
  - split; [constructor|]. intros x. split; [set_solver|].
    intros (seg & ->%list_elem_of_singleton & Hne & _). done.
  - split; [apply add_mechs_sorted; constructor|]. intros x. rewrite elem_of_add_mechs. set_solver.
Qed.

(** The value of the [sasl] capability always parses, to the sorted set
    without repetition of its non-empty comma-separated parts in upper case. *)
Theorem sasl_mechs_correct l :
  exists names, sasl_mechs l = Some names /\ StronglySorted bytes_lt names /\
  forall x, x ∈ names <->
    exists seg, seg ∈ split_on "," l /\ seg <> [] /\ x = List.map to_ascii_uppercase seg.
Proof. apply sasl_mechs_spec. Qed.

(** ** Values of messages *)

Lemma split_last_set args v : split_last (Args.set args (Some v)) = (args, Some v).
Proof.
  unfold Args.set. destruct (Strings.from_bytes Arg v) as [w|e] eqn:Hv; [|done].
  apply from_bytes_Ok in Hv as [-> _]. unfold split_last. cbn [long words].
  rewrite last_snoc, length_app. cbn [length]. by rewrite Nat.add_sub, take_app_length.
Qed.

(** A message built with a target and a text parses to that target and
    text with its tags and source, whether or not the text is a single word;
    with any number of targets but one it is refused. *)
Theorem basic_unary_correct name m args v :
  from_union (basic_unary_server name PTarget) (server_with_args m args (Some v)) =
    (match args with
     | [t] => Ok (mkTargeted (stags m) (source m) t v)
     | _ => Err (invalid_args name)
     end) /\
  from_union (basic_unary_server name PNone) (server_with_args m args (Some v)) =
    (match args with
     | [] => Ok (mkTargeted (stags m) (source m) STAR v)
     | _ => Err (invalid_args name)
     end).
Proof.
  unfold basic_unary_server, server_with_args. cbn [from_union stags source sargs].
  rewrite split_last_set. by destruct args as [|t [|? ?]].
Qed.
