(* ===== verification/Queue.v ===== *)
(** * The rate-limited queue

    [src/client/queue.rs].  Durations and instants are integers of nanoseconds;
    every call of [Instant::now] is an argument.  The range of [Instant] depends
    on the platform: its greatest value is a parameter, and an addition past it,
    which panics, is [None].  The boxed labeler and adjuster are an abstract
    state with its operations. *)

From S2P Require Import Prelude Args Tags Numeric Source Strings FlatMap Msg.

(** ** Time *)

Definition NANOS : N := 1000000000.
Definition from_secs (s : N) : N := s * NANOS.

(** [Duration::MAX]. *)
Definition DURATION_MAX : N := (2 ^ 64 - 1) * NANOS + 999999999.

Definition saturating_add (a b : N) : N := N.min (a + b) DURATION_MAX.
Definition saturating_mul (a : N) (k : N) : N := N.min (a * k) DURATION_MAX.
Definition saturating_sub (a b : N) : N := a - b.

(** [Instant::saturating_duration_since]. *)
Definition saturating_duration_since (later earlier : N) : N := later - earlier.

(** [Instant::checked_add] and [+]. *)
Definition checked_add (instant_max t d : N) : option N :=
  if (t + d <=? instant_max)%N then Some (t + d)%N else None.

(** ** Adjusters *)

(** [Adjuster]: [None] would be a panic of user code and is left out. *)
Class Adjuster (A : Type) := {
  should_adjust : A -> ServerMsg -> bool * A;
  update : A -> ClientMsg -> bool * ClientMsg * A;
  adjuster_reset : A -> A;
}.

(** [MultiAdjuster]. *)
Abbreviation MultiAdjuster A := (list (A * bool)).

Section MultiAdjuster.
Context {A : Type} `{Adjuster A}.

Definition multi_new : MultiAdjuster A := [].
Definition multi_add (m : MultiAdjuster A) (adjuster : A) : MultiAdjuster A := m ++ [(adjuster, false)].
Definition multi_from_iter (l : list A) : MultiAdjuster A := List.map (fun b => (b, false)) l.
Definition multi_clear (_ : MultiAdjuster A) : MultiAdjuster A := [].
Definition multi_len (m : MultiAdjuster A) : nat := length m.

Fixpoint multi_should_adjust (m : MultiAdjuster A) (msg : ServerMsg) : bool * MultiAdjuster A :=
  match m with
  | [] => (false, [])
  | (adj, _) :: m =>
      let (flag, adj) := should_adjust adj msg in
      let (retval, m) := multi_should_adjust m msg in
      (flag || retval, (adj, flag) :: m)
  end.

Fixpoint multi_update (m : MultiAdjuster A) (msg : ClientMsg) : bool * ClientMsg * MultiAdjuster A :=
  match m with
  | [] => (true, msg, [])
  | (adj, flag) :: m =>
      let '(keep, msg, adj) := if flag then update adj msg else (true, msg, adj) in
      let '(retval, msg, m) := multi_update m msg in
      (keep && retval, msg, (adj, flag) :: m)
  end.

Definition multi_reset (m : MultiAdjuster A) : MultiAdjuster A :=
  List.map (fun p => (adjuster_reset p.1, false)) m.

#[export] Instance MultiAdjuster_Adjuster : Adjuster (MultiAdjuster A) := {|
  should_adjust := multi_should_adjust;
  update := multi_update;
  adjuster_reset := multi_reset;
|}.
End MultiAdjuster.

(** ** [Queue] *)

Section Queue.
Context {A : Type} `{Adjuster A} {L : Type} (labeler_next : L -> list byte * L) (instant_max : N).

Record Queue := mkQueue {
  queue : list ClientMsg;
  delay : N;
  sub : N;
  timepoint : N;
  labeler : option L;
  adjuster : option A;
}.

Definition with_msgs (q : Queue) (l : list ClientMsg) : Queue :=
  mkQueue l (delay q) (sub q) (timepoint q) (labeler q) (adjuster q).
Definition with_timepoint (q : Queue) (t : N) : Queue :=
  mkQueue (queue q) (delay q) (sub q) t (labeler q) (adjuster q).
Definition with_labeler (q : Queue) (l : option L) : Queue :=
  mkQueue (queue q) (delay q) (sub q) (timepoint q) l (adjuster q).
Definition with_adjuster (q : Queue) (a : option A) : Queue :=
  mkQueue (queue q) (delay q) (sub q) (timepoint q) (labeler q) a.

Definition from_queue (now : N) (l : list ClientMsg) : Queue :=
  mkQueue l (from_secs 2) (from_secs 8) now None None.
Definition new (now : N) : Queue := from_queue now [].

Definition is_empty (q : Queue) : bool := match queue q with [] => true | _ => false end.
Definition len (q : Queue) : nat := length (queue q).

Definition set_rate_limit (now : N) (q : Queue) (delay burst : N) : Queue :=
  let sub := saturating_mul delay burst in
  let timepoint := default now (checked_add instant_max now (saturating_add sub delay)) in
  mkQueue (queue q) delay sub timepoint (labeler q) (adjuster q).

(** What [pop] does: a message, or a call of [timeout_fn]. *)
Inductive Popped := Popped_msg (m : ClientMsg) | Timeout (d : option N).

(** [now1] and [now2] are what the two calls of [Instant::now] return. *)
Definition pop (now1 now2 : N) (q : Queue) : option (Popped * Queue) :=
  match queue q with
  | value :: rest =>
      let d := saturating_duration_since (timepoint q) now1 in
      let d := saturating_sub d (sub q) in
      if (d =? 0)%N then
        match checked_add instant_max (N.max (timepoint q) now2) (delay q) with
        | Some t => Some (Popped_msg value, with_timepoint (with_msgs q rest) t)
        | None => None
        end
      else Some (Timeout (Some d), q)
  | [] => Some (Timeout None, q)
  end.

(** [VecDeque::retain_mut] with the adjuster's [update]. *)
Fixpoint retain_mut (a : A) (l : list ClientMsg) : list ClientMsg * A :=
  match l with
  | [] => ([], a)
  | m :: l =>
      let '(keep, m, a) := update a m in
      let (l, a) := retain_mut a l in
      ((if keep then [m] else []) ++ l, a)
  end.

Definition adjust (q : Queue) (msg : ServerMsg) : Queue :=
  match adjuster q with
  | None => q
  | Some adj =>
      let (should, adj) := should_adjust adj msg in
      if should then
        let (l, adj) := retain_mut adj (queue q) in
        with_adjuster (with_msgs q l) (Some adj)
      else with_adjuster q (Some adj)
  end.

Definition use_adjuster (q : Queue) (a : A) : Queue := with_adjuster q (Some a).
Definition use_no_adjuster (q : Queue) : Queue := with_adjuster q None.
Definition use_labeler (q : Queue) (l : L) : Queue := with_labeler q (Some l).
Definition use_no_labeler (q : Queue) : Queue := with_labeler q None.
Definition is_using_labeler (q : Queue) : bool := match labeler q with Some _ => true | None => false end.
Definition clear (q : Queue) : Queue := with_msgs q [].
Definition extend (q : Queue) (l : list ClientMsg) : Queue := with_msgs q (queue q ++ l).

Definition reset (now : N) (q : Queue) : Queue :=
  let q := clear q in
  let q := use_no_labeler q in
  let q := with_timepoint q now in
  match adjuster q with
  | Some a => with_adjuster q (Some (adjuster_reset a))
  | None => q
  end.

(** ** [QueueEditGuard] *)

(** A guard borrows its queue: it is the queue and the length it started with. *)
Record QueueEditGuard := mkGuard { gqueue : Queue; orig_len : nat }.

Definition edit (q : Queue) : QueueEditGuard := mkGuard q (len q).

Definition push (g : QueueEditGuard) (msg : ClientMsg) : QueueEditGuard :=
  mkGuard (with_msgs (gqueue g) (queue (gqueue g) ++ [msg])) (orig_len g).

Definition label_key : list byte := bs "label".

Definition push_labeled (g : QueueEditGuard) (msg : ClientMsg) : option (list byte) * QueueEditGuard :=
  match labeler (gqueue g) with
  | Some l =>
      let (label, l) := labeler_next l in
      let tags := Tags.edit_drop (Tags.insert_pair (Tags.edit (ctags msg)) label_key label).2 in
      let msg := mkClientMsg tags (cmd msg) (cargs msg) in
      (Some label, push (mkGuard (with_labeler (gqueue g) (Some l)) (orig_len g)) msg)
  | None => (None, push g msg)
  end.

Definition guard_is_using_labeler (g : QueueEditGuard) : bool := is_using_labeler (gqueue g).
Definition guard_len (g : QueueEditGuard) : nat := len (gqueue g) - orig_len g.
Definition guard_is_empty (g : QueueEditGuard) : bool := guard_len g =? 0.
Definition guard_clear (g : QueueEditGuard) : QueueEditGuard :=
  mkGuard (with_msgs (gqueue g) (take (orig_len g) (queue (gqueue g)))) (orig_len g).

(** A guard borrowed from a guard. *)
Definition guard_edit (g : QueueEditGuard) : QueueEditGuard := edit (gqueue g).
End Queue.
Arguments Queue A L : clear implicits.
Arguments QueueEditGuard A L : clear implicits.
Arguments mkQueue {A L}.
Arguments mkGuard {A L}.

(** [use_labeler_default]: the closure's state is the last id. *)
Definition default_labeler (id : N) : list byte * N :=
  let id := ((id + 1) mod 2 ^ 32)%N in (from_id id, id).

Definition use_labeler_default {A} (q : Queue A N) : Queue A N := use_labeler q 0%N.

(** ** Runs of a queue *)

Section QueueThms.
Context {A : Type} `{Adjuster A} {L : Type} (labeler_next : L -> list byte * L) (instant_max : N).
Implicit Types q : Queue A L.
Implicit Types g : QueueEditGuard A L.

(** What may happen to a queue; a call of [Instant::now] is what it returns. *)
Inductive QEvent :=
| EPop (now1 now2 : N)
| EPush (m : ClientMsg)
| EPushLabeled (m : ClientMsg)
| EExtend (l : list ClientMsg)
| EAdjust (m : ServerMsg)
| EUseLabeler (l : option L)
| EUseAdjuster (a : option A)
| EClear
| EReset (now : N)
| ESetRateLimit (now delay burst : N).

(** One event, with the messages taken out; [None] is a panic. *)
Definition run_event (q : Queue A L) (e : QEvent) : option (list ClientMsg * Queue A L) :=
  match e with
  | EPop now1 now2 =>
      match pop instant_max now1 now2 q with
      | Some (Popped_msg m, q) => Some ([m], q)
      | Some (Timeout _, q) => Some ([], q)
      | None => None
      end
  | EPush m => Some ([], gqueue (push (edit q) m))
  | EPushLabeled m => Some ([], gqueue (push_labeled labeler_next (edit q) m).2)
  | EAdjust m => Some ([], adjust q m)
  | EExtend l => Some ([], extend q l)
  | EUseLabeler l => Some ([], match l with Some l => use_labeler q l | None => use_no_labeler q end)
  | EUseAdjuster a => Some ([], match a with Some a => use_adjuster q a | None => use_no_adjuster q end)
  | EClear => Some ([], clear q)
  | EReset now => Some ([], reset now q)
  | ESetRateLimit now delay burst => Some ([], set_rate_limit instant_max now q delay burst)
  end.

Fixpoint run_events (q : Queue A L) (es : list QEvent) : option (list ClientMsg * Queue A L) :=
  match es with
  | [] => Some ([], q)
  | e :: es =>
      match run_event q e with
      | Some (out, q) =>
          match run_events q es with
          | Some (out', q) => Some (out ++ out', q)
          | None => None
          end
      | None => None
      end
  end.

(** The clock readings of the events do not go back, and lie between [a] and
    [b]. *)
Fixpoint clocked (a b : N) (es : list QEvent) : Prop :=
  match es with
  | [] => (a <= b)%N
  | EPop now1 now2 :: es => (a <= now1 <= now2)%N /\ clocked now2 b es
  | EReset now :: es | ESetRateLimit now _ _ :: es => (a <= now)%N /\ clocked now b es
  | _ :: es => clocked a b es
  end.

(** The rate limit is not set. *)
Definition keeps_rate (e : QEvent) : bool := match e with ESetRateLimit _ _ _ => false | _ => true end.
(** How often the queue is reset. *)
Definition resets (es : list QEvent) : nat := length (List.filter (fun e => match e with EReset _ => true | _ => false end) es).

Lemma checked_add_Some t d r : checked_add instant_max t d = Some r <-> r = (t + d)%N /\ (r <= instant_max)%N.
Proof. unfold checked_add. destruct (N.leb_spec (t + d) instant_max); naive_solver lia. Qed.

(** What an event does to the settings and the timepoint. *)
Definition timepoint_event (q : Queue A L) (e : QEvent) (out : list ClientMsg) (q' : Queue A L) : Prop :=
  match e with
  | EPop now1 now2 =>
      (out = [] /\ timepoint q' = timepoint q) \/
      (exists m, out = [m] /\ (timepoint q <= now1 + sub q)%N /\ timepoint q' = (N.max (timepoint q) now2 + delay q)%N)
  | EReset now => out = [] /\ timepoint q' = now
  | _ => out = [] /\ timepoint q' = timepoint q
  end.

Lemma run_event_spec q e out q' :
  run_event q e = Some (out, q') -> keeps_rate e = true ->
  delay q' = delay q /\ sub q' = sub q /\ timepoint_event q e out q'.
Proof.
  destruct e as [now1 now2|m|m|l|m|[l|]|[a|]| |now|now d burst]; cbn [run_event keeps_rate timepoint_event]; try (by intros [= <- <-]).
  - unfold pop. destruct (queue q); [intros [= <- <-] _; auto|]. unfold saturating_sub, saturating_duration_since.
    destruct (N.eqb_spec (timepoint q - now1 - sub q) 0) as [Hz|Hz]; [|intros [= <- <-] _; auto].
    destruct (checked_add _ _ _) as [t|] eqn:Ht; [|done]. apply checked_add_Some in Ht as [-> _]. intros [= <- <-] _.
    do 2 (split; [done|]). right. eexists. split; [done|]. split; [lia|done].
  - intros [= <- <-] _. unfold push_labeled. destruct (labeler _) as [l|]; [|done]. by destruct (labeler_next l).
  - intros [= <- <-] _. unfold adjust. destruct (adjuster q) as [a|]; [|done].
    destruct (should_adjust a m) as [[] a']; [|done]. by destruct (retain_mut a' (queue q)).
  - intros [= <- <-] _. unfold reset. by destruct (adjuster _).
Qed.

(** How far the timepoint may be ahead of the clock [a] for a message to be taken
    out before long: the instant from which the allowance is counted. *)
Definition counted_from (q : Queue A L) (a : N) : N := N.max a (N.min (timepoint q) (a + sub q + delay q)).

Lemma run_events_allowance es q out q' a b :
  run_events q es = Some (out, q') -> clocked a b es -> forallb keeps_rate es = true ->
  (a <= b)%N /\
  (counted_from q a + N.of_nat (length out) * delay q <=
    N.max (counted_from q a) (b + sub q + delay q) + N.of_nat (resets es) * (sub q + delay q))%N.
Proof.
  revert q out a. induction es as [|e es IH]; intros q out a; cbn [run_events forallb].
  { intros [= <- <-]. cbn [clocked length resets List.filter]. intros Hab _. split; [done|]. cbn. lia. }
  destruct (run_event q e) as [[o1 q1]|] eqn:He; [|done].
  destruct (run_events q1 es) as [[o2 q2]|] eqn:Hes; [|done]. intros [= <- <-] Hc [Hk Hks]%andb_true_iff.
  destruct (run_event_spec _ _ _ _ He Hk) as (Hd & Hs & Ht).
  assert (Hsame : resets (e :: es) = resets es -> clocked a b es -> o1 = [] -> timepoint q1 = timepoint q ->
    (a <= b)%N /\ (counted_from q a + N.of_nat (length (o1 ++ o2)) * delay q <=
      N.max (counted_from q a) (b + sub q + delay q) + N.of_nat (resets (e :: es)) * (sub q + delay q))%N).
  { intros -> Hc1 -> Ht1. pose proof (IH q1 o2 a Hes Hc1 Hks) as K. unfold counted_from in *. by rewrite Hd, Hs, Ht1 in K. }
  destruct e as [now1 now2|m|m|l|m|l|ad| |now|now d burst]; cbn [clocked timepoint_event] in Hc, Ht;
    try (destruct Ht as [Ht1 Ht2]; by apply Hsame).
  - destruct Hc as [Hn Hc]. pose proof (IH q1 o2 now2 Hes Hc Hks) as [Hb K]. rewrite Hd, Hs in K. split; [lia|].
    change (resets (EPop now1 now2 :: es)) with (resets es). set (R := (N.of_nat (resets es) * (sub q + delay q))%N) in *.
    unfold counted_from in *. rewrite Hd, Hs in K. destruct Ht as [[-> Ht]|(m & -> & Hle & Ht)]; rewrite Ht in K.
    + cbn [app]. set (x := (N.of_nat (length o2) * delay q)%N) in *. lia.
    + rewrite length_app. cbn [length]. replace (N.of_nat (1 + length o2) * delay q)%N with (delay q + N.of_nat (length o2) * delay q)%N by lia.
      set (x := (N.of_nat (length o2) * delay q)%N) in *. lia.
  - destruct Ht as [-> Ht], Hc as [Hn Hc]. pose proof (IH q1 o2 now Hes Hc Hks) as [Hb K]. rewrite Hd, Hs in K. split; [lia|].
    replace (N.of_nat (resets (EReset now :: es)) * (sub q + delay q))%N with (N.of_nat (resets es) * (sub q + delay q) + (sub q + delay q))%N
      by (unfold resets; cbn [List.filter length]; lia).
    set (R := (N.of_nat (resets es) * (sub q + delay q))%N) in *. unfold counted_from in *. rewrite Hd, Hs, Ht in K.
    cbn [app]. set (x := (N.of_nat (length o2) * delay q)%N) in *. lia.
Qed.

(** C13: Whatever happens to a queue while its rate limit is not changed, and
    with a clock that does not go back: with a delay between messages and a
    burst, the messages taken out between the instants [a] and [b] number at
    most one for each delay that fits between [a] and [b], and one more than the
    burst, once and then once again for every [reset] in between, which forgets
    what was taken out before. *)
Theorem rate_limit q es out q' a b burst :
  run_events q es = Some (out, q') -> clocked a b es -> forallb keeps_rate es = true ->
  (sub q <= delay q * burst)%N ->
  (N.of_nat (length out) * delay q <= (b - a) + (N.of_nat (resets es) + 1) * ((burst + 1) * delay q))%N.
Proof.
  intros Hr Hc Hk Hs. destruct (run_events_allowance _ _ _ _ _ _ Hr Hc Hk) as [Hab K].
  assert (Hm : (N.of_nat (resets es) * (sub q + delay q) <= N.of_nat (resets es) * ((burst + 1) * delay q))%N)
    by (apply N.mul_le_mono_l; lia).
  rewrite N.mul_add_distr_r. unfold counted_from in K.
  set (x := (N.of_nat (length out) * delay q)%N) in *. lia.
Qed.

(** A [pop] that finds a message but returns none leaves the queue alone
    and reports a non-zero duration that is exact: any [pop] before it has passed
    times out, any [pop] after it does not. *)
Theorem pop_timeout_exact q now1 now2 d q' :
  pop instant_max now1 now2 q = Some (Timeout (Some d), q') ->
  q' = q /\ (0 < d)%N /\
  forall t t', ((t < now1 + d)%N -> exists d', pop instant_max t t' q = Some (Timeout (Some d'), q)) /\
  ((now1 + d <= t)%N -> forall d' q'', pop instant_max t t' q <> Some (Timeout d', q'')).
Proof.
  unfold pop, saturating_sub, saturating_duration_since. destruct (queue q) as [|m l]; [done|].
  destruct (N.eqb_spec (timepoint q - now1 - sub q) 0) as [Hz|Hz].
  { destruct (checked_add _ _ _); done. }
  intros [= <- <-]. split; [done|]. split; [lia|]. intros t t'. split; intros Ht.
  - rewrite (proj2 (N.eqb_neq _ _)) by lia. by eexists.
  - rewrite (proj2 (N.eqb_eq _ _)) by lia. by destruct (checked_add _ _ _).
Qed.

(** Only pushes and pops. *)
Definition fifo_event (e : QEvent) : bool := match e with EPop _ _ | EPush _ => true | _ => false end.
Definition pushed (es : list QEvent) : list ClientMsg :=
  flat_map (fun e => match e with EPush m => [m] | _ => [] end) es.

(** Between pushes and pops, messages come out in the order they went in,
    none lost or repeated. *)
Theorem queue_fifo q es out q' :
  run_events q es = Some (out, q') -> forallb fifo_event es = true ->
  out ++ queue q' = queue q ++ pushed es.
Proof.
  revert q out. induction es as [|e es IH]; intros q out; cbn [run_events forallb pushed flat_map].
  { intros [= <- <-] _. by rewrite app_nil_r. }
  destruct (run_event q e) as [[o1 q1]|] eqn:He; [|done].
  destruct (run_events q1 es) as [[o2 q2]|] eqn:Hes; [|done]. intros [= <- <-] [Hf Hfs]%andb_true_iff.
  rewrite <- app_assoc, (IH _ _ Hes Hfs). destruct e as [now1 now2|m|m|l|m|l|ad| |now|now d burst]; try done; cbn [run_event] in He.
  - revert He. unfold pop. destruct (queue q) as [|m l] eqn:Hq; [intros [= <- <-]; by rewrite Hq|].
    destruct (_ =? 0)%N; [|intros [= <- <-]; by rewrite Hq]. destruct (checked_add _ _ _); [|done].
    by intros [= <- <-].
  - injection He as <- <-. cbn [app gqueue push edit with_msgs queue]. by rewrite <- app_assoc.
Qed.

(** Right after the rate limit is set the longest wait under the new
    settings applies: the next message is available once a whole delay has
    passed and not before, as long as no sum overflows. *)
Theorem set_rate_limit_waits now d burst q m l t t' :
  (d * burst + d <= DURATION_MAX)%N ->
  (now + (d * burst + d) + d <= instant_max)%N -> (now <= t)%N -> (t' + d <= instant_max)%N ->
  queue q = m :: l ->
  let q' := set_rate_limit instant_max now q d burst in
  ((t < now + d)%N -> pop instant_max t t' q' = Some (Timeout (Some (now + d - t)%N), q')) /\
  ((now + d <= t)%N -> exists q'', pop instant_max t t' q' = Some (Popped_msg m, q'') /\ queue q'' = l).
Proof.
  intros Hm Hi Ht Ht' Hq q'.
  assert (Htp : timepoint q' = (now + (d * burst + d))%N).
  { unfold q', set_rate_limit. cbn [timepoint]. unfold saturating_mul, saturating_add.
    rewrite (N.min_l (d * burst)), N.min_l by lia.
    by rewrite (proj2 (checked_add_Some _ _ (now + (d * burst + d))%N)) by (split; [done|lia]). }
  assert (Hs : sub q' = (d * burst)%N) by (cbn; unfold saturating_mul; lia).
  assert (Hqq : queue q' = m :: l) by done. assert (Hdl : delay q' = d) by done.
  unfold pop, saturating_sub, saturating_duration_since. rewrite Hqq, Htp, Hs, Hdl. split; intros Hlt.
  - replace (now + (d * burst + d) - t - d * burst)%N with (now + d - t)%N by lia.
    by rewrite (proj2 (N.eqb_neq _ _)) by lia.
  - rewrite (proj2 (N.eqb_eq _ _)) by lia.
    rewrite (proj2 (checked_add_Some _ _ (N.max (now + (d * burst + d)) t' + d)%N)) by (split; [done|lia]).
    by eexists.
Qed.

(** A rate limit whose delay the clock cannot represent makes the first [pop]
    panic: the fallback of [set_rate_limit] does not cover the addition in
    [pop]. *)
Theorem set_rate_limit_overflow now d burst q :
  (instant_max < now + d)%N -> (d <= DURATION_MAX)%N -> queue q <> [] ->
  pop instant_max now now (set_rate_limit instant_max now q d burst) = None.
Proof.
  intros Ho Hd Hq. unfold pop, set_rate_limit. cbn [queue timepoint sub delay].
  destruct (queue q) as [|m l]; [done|].
  assert (checked_add instant_max now (saturating_add (saturating_mul d burst) d) = None) as ->.
  { unfold checked_add, saturating_add, saturating_mul. apply N.leb_gt in Ho as Ho'.
    destruct (N.leb_spec (now + N.min (N.min (d * burst) DURATION_MAX + d) DURATION_MAX) instant_max); [lia|done]. }
  cbn [default]. unfold saturating_duration_since, saturating_sub. rewrite N.sub_diag. cbn [N.sub N.eqb].
  unfold checked_add. rewrite N.max_id. by rewrite (proj2 (N.leb_gt _ _)).
Qed.
End QueueThms.
Arguments QEvent A L : clear implicits.

(** ** Guards and labels *)

Section GuardThms.
Context {A : Type} `{Adjuster A} {L : Type} (labeler_next : L -> list byte * L).
Implicit Types q : Queue A L.
Implicit Types g : QueueEditGuard A L.

Inductive GuardOp := GPush (m : ClientMsg) | GPushLabeled (m : ClientMsg) | GClear.

Definition run_guard (g : QueueEditGuard A L) (o : GuardOp) : QueueEditGuard A L :=
  match o with
  | GPush m => push g m
  | GPushLabeled m => (push_labeled labeler_next g m).2
  | GClear => guard_clear g
  end.

(** How many messages are pending after an operation. *)
Definition count_op (n : nat) (o : GuardOp) : nat := match o with GClear => 0 | _ => S n end.

Lemma run_guard_spec g o base :
  orig_len g = length base -> (exists l, queue (gqueue g) = base ++ l) ->
  orig_len (run_guard g o) = length base /\ (exists l, queue (gqueue (run_guard g o)) = base ++ l) /\
  guard_len (run_guard g o) = count_op (guard_len g) o.
Proof.
  intros Ho [l Hl].
  assert (Hp : forall g m, orig_len g = length base -> queue (gqueue g) = base ++ l ->
    orig_len (push g m) = length base /\ (exists l, queue (gqueue (push g m)) = base ++ l) /\
    guard_len (push g m) = S (length l)).
  { intros g' m Ho' Hl'. unfold push, guard_len, len. cbn [gqueue orig_len with_msgs queue].
    rewrite Hl', Ho'. split; [done|]. split; [exists (l ++ [m]); by rewrite app_assoc|].
    rewrite !length_app. simpl. lia. }
  assert (Hg : guard_len g = length l) by (unfold guard_len, len; rewrite Hl, Ho, length_app; lia).
  destruct o as [m|m|]; cbn [run_guard count_op].
  - rewrite Hg. by apply Hp.
  - rewrite Hg. unfold push_labeled. destruct (labeler (gqueue g)) as [lb|]; [|by apply Hp].
    destruct (labeler_next lb) as [label lb']. by apply Hp.
  - unfold guard_clear, guard_len, len. cbn [gqueue orig_len with_msgs queue]. rewrite Hl, Ho, take_app_length.
    split; [done|]. split; [exists []; by rewrite app_nil_r|]. lia.
Qed.

(** A guard only ever adds to the end of the queue it was made from: its
    [len] is the number of messages pushed since it was made or last cleared,
    the messages before it stay as they were, and clearing it gives exactly
    them back. *)
Theorem guard_isolated q os :
  let g := foldl run_guard (edit q) os in
  guard_len g = foldl count_op 0 os /\
  (exists l, queue (gqueue g) = queue q ++ l /\ length l = guard_len g) /\
  queue (gqueue (guard_clear g)) = queue q.
Proof.
  assert (Hinv : forall g n, orig_len g = length (queue q) -> (exists l, queue (gqueue g) = queue q ++ l) ->
    guard_len g = n ->
    let g' := foldl run_guard g os in
    orig_len g' = length (queue q) /\ (exists l, queue (gqueue g') = queue q ++ l) /\ guard_len g' = foldl count_op n os).
  { induction os as [|o os IH]; intros g n Ho Hl Hn; cbn [foldl]; [done|].
    destruct (run_guard_spec g o (queue q) Ho Hl) as (Ho' & Hl' & Hn'). apply IH; [done..|]. by rewrite Hn', Hn. }
  intros g. destruct (Hinv (edit q) 0) as (Ho & [l Hl] & Hn).
  - done.
  - exists []. by rewrite app_nil_r.
  - unfold guard_len. simpl. lia.
  - split; [done|]. split.
    + exists l. split; [done|]. fold g in Hl, Ho. unfold guard_len, len. rewrite Hl, Ho, length_app. lia.
    + unfold guard_clear. cbn [gqueue with_msgs queue]. fold g in Hl, Ho. by rewrite Hl, Ho, take_app_length.
Qed.

(** Pushing with a labeler puts the next label on the message, keeps its
    other tags, its command and its arguments, and returns the label; without a
    labeler the message is pushed as it is. *)
Theorem push_labeled_correct g m :
  FlatMap.sorted fst (ctags m) ->
  let (label, g') := push_labeled labeler_next g m in
  label = (fun l => (labeler_next l).1) <$> labeler (gqueue g) /\
  labeler (gqueue g') = (fun l => (labeler_next l).2) <$> labeler (gqueue g) /\
  exists m', queue (gqueue g') = queue (gqueue g) ++ [m'] /\
    cmd m' = cmd m /\ cargs m' = cargs m /\ FlatMap.sorted fst (ctags m') /\
    forall k, FlatMap.get fst (ctags m') k =
      match label with
      | Some label => if decide (k = label_key) then Some (label_key, label) else FlatMap.get fst (ctags m) k
      | None => FlatMap.get fst (ctags m) k
      end.
Proof.
  intros Hs. unfold push_labeled. destruct (labeler (gqueue g)) as [l|] eqn:Hl.
  2: { split; [done|]. split; [cbn; by rewrite Hl|]. by exists m. }
  destruct (labeler_next l) as [label l'] eqn:Hn. cbn [fmap option_fmap option_map]. rewrite Hn. split; [done|]. split; [done|].
  eexists. split; [done|]. split; [done|]. split; [done|]. cbn [ctags].
  pose proof (edit_insert_spec fst (ctags m) (label_key, label) Hs) as Hi.
  unfold insert_pair, Tags.edit, edit_drop. cbn [fst] in Hi.
  destruct (FlatMap.insert fst (FlatMap.edit (ctags m)) (label_key, label)) as [old gd].
  destruct Hi as (Hs' & _ & Hg & Ho). split; [done|]. intros k. destruct (decide (k = label_key)) as [->|]; [done|].
  by apply Ho.
Qed.
End GuardThms.

(** ** Default labels *)

Lemma hex_digit_inj a b : (a < 16)%N -> (b < 16)%N -> hex_digit a = hex_digit b -> a = b.
Proof.
  assert (Hc : forallb (fun a => forallb (fun b => negb (Byte.eqb (hex_digit a) (hex_digit b)) || (a =? b)%N)
    (N.of_nat <$> seq 0 16)) (N.of_nat <$> seq 0 16) = true) by (vm_compute; done).
  assert (Hin : forall a, (a < 16)%N -> In a (N.of_nat <$> seq 0 16)).
  { intros x Hx. apply list_elem_of_In, list_elem_of_fmap. exists (N.to_nat x). split; [lia|]. apply elem_of_seq. lia. }
  intros Ha Hb Heq. rewrite List.forallb_forall in Hc. specialize (Hc a (Hin a Ha)).
  rewrite List.forallb_forall in Hc. specialize (Hc b (Hin b Hb)). rewrite Heq, byte_eqb_refl in Hc. by apply N.eqb_eq.
Qed.

Lemma digits_inj w a b : (a < 16 ^ N.of_nat w)%N -> (b < 16 ^ N.of_nat w)%N -> digits 16 w a = digits 16 w b -> a = b.
Proof.
  revert a b. induction w as [|w IH]; intros a b; [simpl; lia|].
  replace (16 ^ N.of_nat (S w))%N with (16 * 16 ^ N.of_nat w)%N by (rewrite Nat2N.inj_succ, N.pow_succ_r'; lia).
  intros Ha Hb. cbn [digits]. intros [Hd Hl]%app_inj_tail.
  apply IH in Hd; [|apply N.Div0.div_lt_upper_bound; lia..].
  apply hex_digit_inj in Hl; [|apply N.mod_lt; lia..].
  rewrite (N.div_mod a 16), (N.div_mod b 16) by lia. congruence.
Qed.

(** The [n]-th state of the default labeler. *)
Definition nth_id (n : nat) : N := Nat.iter n (fun id => (default_labeler id).2) 0%N.

Lemma nth_id_mod n : nth_id n = (N.of_nat n mod 2 ^ 32)%N.
Proof.
  induction n as [|n IH]; [done|]. change (nth_id (S n)) with (default_labeler (nth_id n)).2. rewrite IH.
  cbn [default_labeler snd]. rewrite N.Div0.add_mod_idemp_l. f_equal. lia.
Qed.

(** The default labeler repeats no label within 2^32 messages. *)
Theorem default_labels i j :
  i < j -> (N.of_nat (j - i) < 2 ^ 32)%N ->
  (default_labeler (nth_id i)).1 <> (default_labeler (nth_id j)).1.
Proof.
  intros Hij Hlt. cbn [default_labeler fst]. unfold from_id. intros Heq%(f_equal tail). cbn [tail] in Heq.
  assert (Hb : forall n, (n mod 2 ^ 32 < 16 ^ N.of_nat 8)%N) by (intros; apply N.mod_lt; done).
  apply digits_inj in Heq; [|apply Hb..]. rewrite !nth_id_mod, !N.Div0.add_mod_idemp_l in Heq.
  replace (N.of_nat j + 1)%N with ((N.of_nat i + 1) + N.of_nat (j - i))%N in Heq by lia.
  set (x := (N.of_nat i + 1)%N) in *. set (d := N.of_nat (j - i)) in *. assert (0 < d)%N by lia.
  pose proof (N.div_mod x (2 ^ 32) ltac:(done)) as Hx.
  pose proof (N.div_mod (x + d) (2 ^ 32) ltac:(done)) as Hxd.
  rewrite <- Heq in Hxd. pose proof (N.mod_lt x (2 ^ 32) ltac:(done)).
  set (u := (x / 2 ^ 32)%N) in *. set (v := ((x + d) / 2 ^ 32)%N) in *. change (2 ^ 32)%N with 4294967296%N in *.
  assert (4294967296 * v = 4294967296 * u + d)%N by lia. nia.
Qed.

(** ** Witnesses *)

(** An adjuster that drops [QUIT] messages. *)
#[local] Instance drop_quit : Adjuster () := {|
  should_adjust a _ := (true, a);
  update a m := (negb (bool_decide (cmd m = bs "QUIT")), m, a);
  adjuster_reset a := a;
|}.

Definition sample_msg (c : list byte) : ClientMsg := client_new_cmd c.
Definition sample_queue : Queue () N :=
  use_labeler_default (from_queue 0 (sample_msg <$> replicate 7 (bs "PING"))).
Definition sample_max : N := from_secs 1000000.

(** Five messages go out at once; the sixth has to wait, until after a reset five
    more may go. *)
Definition sample_events : list (QEvent () N) :=
  replicate 7 (EPop 0 0) ++ [EReset 0; EExtend (sample_msg <$> replicate 7 (bs "PING"))] ++ replicate 7 (EPop 1 1).

Lemma rate_limit_witness :
  exists out q', run_events default_labeler sample_max sample_queue sample_events = Some (out, q') /\
  length out = 10 /\
  (N.of_nat (length out) * delay sample_queue <= (1 - 0) + (N.of_nat (resets sample_events) + 1) * ((4 + 1) * delay sample_queue))%N.
Proof.
  assert (Hr : exists out q', run_events default_labeler sample_max sample_queue sample_events = Some (out, q') /\ length out = 10)
    by (eexists _, _; split; [vm_compute; reflexivity|vm_compute; reflexivity]).
  assert (Hc : clocked 0 1 sample_events) by (vm_compute; repeat split; discriminate).
  assert (Hk : forallb keeps_rate sample_events = true) by (vm_compute; reflexivity).
  assert (Hs : (sub sample_queue <= delay sample_queue * 4)%N) by (vm_compute; discriminate).
  destruct Hr as (out & q' & Hr & Hl). exists out, q'. split; [exact Hr|]. split; [exact Hl|].
  exact (rate_limit default_labeler sample_max sample_queue sample_events out q' 0 1 4 Hr Hc Hk Hs).
Defined.

Definition waiting_queue : Queue () N := with_timepoint sample_queue (from_secs 9).

Lemma pop_timeout_exact_witness :
  pop sample_max 0 0 waiting_queue = Some (Timeout (Some NANOS), waiting_queue) /\ (0 < NANOS)%N.
Proof.
  split; [reflexivity|]. apply (pop_timeout_exact sample_max waiting_queue 0 0 NANOS waiting_queue eq_refl).
Defined.

Lemma queue_fifo_witness :
  exists out q', run_events default_labeler sample_max sample_queue [EPush (sample_msg (bs "QUIT")); EPop 0 0] = Some (out, q') /\
  out ++ queue q' = queue sample_queue ++ [sample_msg (bs "QUIT")].
Proof.
  eexists _, _. split; [reflexivity|].
  exact (queue_fifo default_labeler sample_max sample_queue [EPush (sample_msg (bs "QUIT")); EPop 0 0] _ _ eq_refl eq_refl).
Defined.

Lemma set_rate_limit_waits_witness :
  pop sample_max 0 0 (set_rate_limit sample_max 0 sample_queue (from_secs 2) 4) =
  Some (Timeout (Some (from_secs 2)), set_rate_limit sample_max 0 sample_queue (from_secs 2) 4).
Proof.
  refine (proj1 (set_rate_limit_waits sample_max 0 (from_secs 2) 4 sample_queue (sample_msg (bs "PING"))
    (tail (queue sample_queue)) 0 0 _ _ _ _ eq_refl) _); vm_compute; done.
Defined.

Lemma push_labeled_correct_witness :
  FlatMap.sorted fst (ctags (sample_msg (bs "PING"))) /\ (push_labeled default_labeler (edit sample_queue) (sample_msg (bs "PING"))).1 = Some (bs "i00000001").
Proof.
  assert (Hs : FlatMap.sorted fst (ctags (sample_msg (bs "PING")))) by constructor. split; [exact Hs|].
  pose proof (push_labeled_correct default_labeler (edit sample_queue) (sample_msg (bs "PING")) Hs) as Hp.
  destruct (push_labeled default_labeler (edit sample_queue) (sample_msg (bs "PING"))) as [label g].
  destruct Hp as [-> _]. reflexivity.
Defined.

Lemma default_labels_witness :
  (default_labeler (nth_id 0)).1 = bs "i00000001" /\ (default_labeler (nth_id 1)).1 = bs "i00000002" /\ (default_labeler (nth_id 0)).1 <> (default_labeler (nth_id 1)).1.
Proof. split; [reflexivity|]. split; [reflexivity|]. apply (default_labels 0 1); [lia|vm_compute; done]. Defined.
