(* ===== verification/Sink.v ===== *)
(** * Message sinks

    [src/client/sink.rs]: [ClientMsgSink], what handlers send messages to. *)

From S2P Require Import Prelude Msg.
From S2P Require Queue.

(** [ClientMsgSink]; [borrow_mut] is the sink itself, passed on and taken back. *)
Class ClientMsgSink (S : Type) := sink_send : S -> ClientMsg -> S.

(** The sink for [&mut QueueEditGuard]. *)
Definition guard_sink {A L} : ClientMsgSink (Queue.QueueEditGuard A L) := Queue.push.
#[global] Existing Instance guard_sink.

(** The sink for closures, one that collects the messages. *)
Definition closure_sink : ClientMsgSink (list ClientMsg) := fun l m => l ++ [m].
#[global] Existing Instance closure_sink.

Section Sink.
Context {S : Type} `{ClientMsgSink S}.

Definition send_all (sink : S) (msgs : list ClientMsg) : S := foldl sink_send sink msgs.

Lemma send_all_app sink l1 l2 : send_all (send_all sink l1) l2 = send_all sink (l1 ++ l2).
Proof. unfold send_all. by rewrite foldl_app. Qed.

Lemma send_all_cons sink m l : send_all (sink_send sink m) l = send_all sink (m :: l).
Proof. done. Qed.
End Sink.

Lemma closure_send_all (l msgs : list ClientMsg) : send_all l msgs = l ++ msgs.
Proof.
  revert l. induction msgs as [|m msgs IH]; intros l; [by rewrite app_nil_r|].
  rewrite <- send_all_cons, IH. unfold sink_send, closure_sink. by rewrite <- app_assoc.
Qed.
