(* ===== verification/Handlers.v ===== *)
(** * Channels and handlers

    [src/client/handler/channel.rs] and [src/client/handler.rs]: sender halves
    of channels, and the table of running handlers.  A boxed handler is an
    abstract state with the function that calls it. *)

From S2P Require Import Prelude.
From Stdlib Require Import Sorting.Permutation.

(** ** Control flow *)

Inductive ControlFlow (B : Type) := Continue | Break (b : B).
Arguments Continue {B}.
Arguments Break {B} b.

Definition cf_discard {B} (cf : ControlFlow B) : ControlFlow () :=
  match cf with Continue => Continue | Break _ => Break () end.

Definition is_break {B} (cf : ControlFlow B) : bool := match cf with Continue => false | Break _ => true end.

(** ** Channels *)

Inductive Sent := Closed | SentOk.

Definition sent_from (cf : ControlFlow Sent) : Sent := match cf with Continue => SentOk | Break v => v end.

(** [Sender]; [may_send] defaults to [true]. *)
Class Sender (S T : Type) := {
  send : S -> T -> ControlFlow Sent * S;
  may_send : S -> bool;
}.

(** [SenderRef]: the sender and the flag that records a send. *)
Record SenderRef (S : Type) := mkSenderRef { sender : S; flag : bool }.
Arguments mkSenderRef {S} sender flag.
Arguments sender {S} r : rename.
Arguments flag {S} r : rename.

Definition did_send {S} (r : SenderRef S) : bool := flag r.

Definition ref_send {S T} `{Sender S T} (r : SenderRef S) (value : T) : ControlFlow Sent * SenderRef S :=
  let (result, s) := send (sender r) value in
  (result, mkSenderRef s (flag r || match result with Break Closed => false | _ => true end)).

Definition ref_may_send {S T} `{Sender S T} (r : SenderRef S) : bool := may_send (T := T) (sender r).

(** [ClosedSender]. *)
Definition ClosedSender : Type := unit.
#[global] Instance closed_sender {T} : Sender ClosedSender T := {|
  send s _ := (Break Closed, s);
  may_send _ := false;
|}.

(** [std::sync::mpsc::Sender]: the receiver is there or not; what it was sent. *)
Record Mpsc (T : Type) := mkMpsc { receiver_alive : bool; received : list T }.
Arguments mkMpsc {T} receiver_alive received.
Arguments receiver_alive {T} m : rename.
Arguments received {T} m : rename.

#[global] Instance mpsc_sender {T} : Sender (Mpsc T) T := {|
  send s value :=
    if receiver_alive s then (Continue, mkMpsc true (received s ++ [value])) else (Break Closed, s);
  may_send _ := true;
|}.

(** ** The table of handlers *)

Inductive HandlerStatus :=
| Keep (yielded wants_owning : bool)
| Done (yielded : bool).

(** [box_handler]: run [handle] with a fresh flag and report; [None] is a panic
    of the handler. *)
Definition box_handler {H S Msg St Q}
    (handle : H -> Msg -> St -> Q -> SenderRef S -> option (ControlFlow () * (H * St * Q * SenderRef S)))
    (wants_owning : H -> bool) (b : H * S) (msg : Msg) (state : St) (queue : Q)
    : option (HandlerStatus * (H * S) * St * Q) :=
  match handle b.1 msg state queue (mkSenderRef b.2 false) with
  | Some (Break _, (h, state, queue, sr)) => Some (Done (flag sr), (h, sender sr), state, queue)
  | Some (Continue, (h, state, queue, sr)) => Some (Keep (flag sr) (wants_owning h), (h, sender sr), state, queue)
  | None => None
  end.

Section Handlers.
Context {B : Type}.

Record Handlers := mkHandlers {
  handlers : list (B * nat);
  yielded : list nat;
  finished : list nat;
  wants_owning : bool;
}.

Definition new : Handlers := mkHandlers [] [] [] false.

(** [add], given the boxed handler and whether it wants owning messages. *)
Definition add (hs : Handlers) (boxed : B) (wants : bool) : nat * Handlers :=
  let (id, finished) :=
    match last (finished hs) with
    | Some id => (id, take (length (finished hs) - 1) (finished hs))
    | None => (length (handlers hs), finished hs)
    end in
  (id, mkHandlers (handlers hs ++ [(boxed, id)]) (yielded hs) finished (wants_owning hs || wants)).

Definition is_empty (hs : Handlers) : bool := match handlers hs with [] => true | _ => false end.

(** [Vec::swap_remove] at an index in range. *)
Definition swap_remove {X} (l : list X) (i : nat) : list X :=
  match last l with
  | Some x => take (length l - 1) (<[i := x]> l)
  | None => l
  end.

(** [cancel_one]; [None] is the panic on an unknown id. *)
Definition cancel_one (hs : Handlers) (id : nat) : option Handlers :=
  match position (fun h => h.2 =? id) (handlers hs) with
  | Some idx =>
      let handlers := swap_remove (handlers hs) idx in
      Some (mkHandlers handlers (yielded hs) (finished hs ++ [id])
              (wants_owning hs && match handlers with [] => false | _ => true end))
  | None => None
  end.

Definition cancel (hs : Handlers) : Handlers := mkHandlers [] [] [] false.

Definition has_results (hs : Handlers) (finished_at : nat) : bool :=
  match yielded hs with [] => false | _ => true end || (finished_at <? length (finished hs)).

(** [last_run_results]; [None] is the panic of [split_at]. *)
Definition last_run_results (hs : Handlers) (finished_at : nat) : option (list nat * list nat) :=
  if finished_at <=? length (finished hs) then Some (yielded hs, drop finished_at (finished hs)) else None.

(** ** Ids *)

(** Live ids and those to be reused are the numbers below their count. *)
Definition ids_wf (hs : Handlers) : Prop :=
  (handlers hs).*2 ++ finished hs ≡ₚ seq 0 (length (handlers hs) + length (finished hs)).

Lemma ids_NoDup hs : ids_wf hs -> NoDup ((handlers hs).*2 ++ finished hs).
Proof. unfold ids_wf. intros ->. apply NoDup_seq. Qed.

Lemma swap_removed_perm {X} (l : list X) i x : l !! i = Some x -> x :: swap_remove l i ≡ₚ l.
Proof.
  intros Hi. unfold swap_remove. destruct (last l) as [y|] eqn:Hl; [by apply swap_remove_perm|].
  apply last_None in Hl as ->. done.
Qed.

Lemma length_swap_remove {X} (l : list X) i x : l !! i = Some x -> S (length (swap_remove l i)) = length l.
Proof. intros Hi. apply (Permutation_length (swap_removed_perm l i x Hi)). Qed.

Lemma swap_remove_take_drop {X} (l : list X) i x :
  l !! i = Some x -> take i (swap_remove l i) = take i l /\ x :: drop i (swap_remove l i) ≡ₚ drop i l.
Proof.
  intros Hi. pose proof (lookup_lt_Some _ _ _ Hi) as Hlt.
  assert (Ht : take i (swap_remove l i) = take i l).
  { unfold swap_remove. destruct (last l) as [y|]; [|done].
    rewrite take_take, Nat.min_l by lia. by rewrite take_insert_ge. }
  split; [done|]. apply (Permutation_app_inv_l (take i l)). rewrite take_drop.
  rewrite <- Permutation_middle. rewrite <- Ht, take_drop. by apply swap_removed_perm.
Qed.

(** [add] hands out an id no live handler has. *)
Lemma add_spec hs b w :
  ids_wf hs ->
  let (id, hs') := add hs b w in
  ids_wf hs' /\ (id ∉ (handlers hs).*2) /\ handlers hs' = handlers hs ++ [(b, id)].
Proof.
  intros Hi. pose proof (ids_NoDup hs Hi) as Hnd. unfold ids_wf, add in *.
  destruct (last (finished hs)) as [id|] eqn:Hl; cbn [handlers finished].
  - apply last_Some in Hl as [f Hf]. rewrite Hf in *. rewrite length_app in *. cbn [length] in *.
    rewrite Nat.add_sub, take_app_length. split_and!; [|apply NoDup_app in Hnd; set_solver|done].
    rewrite fmap_app, length_app. cbn [fmap list_fmap length snd].
    replace (length (handlers hs) + 1 + length f) with (length (handlers hs) + (length f + 1)) by lia.
    rewrite <- Hi, <- app_assoc. f_equiv. apply Permutation_app_comm.
  - apply last_None in Hl. rewrite Hl in *. cbn [length] in *. rewrite Nat.add_0_r, app_nil_r in *.
    split_and!; [|rewrite Hi, elem_of_seq; lia|done].
    rewrite fmap_app, length_app. cbn [fmap list_fmap length snd].
    by rewrite Nat.add_1_r, seq_S, Hi.
Qed.

Lemma cancel_one_spec hs id :
  ids_wf hs ->
  match cancel_one hs id with
  | Some hs' => ids_wf hs' /\ exists b, (b, id) :: handlers hs' ≡ₚ handlers hs
  | None => id ∉ (handlers hs).*2
  end.
Proof.
  intros Hi. unfold cancel_one. destruct (position _ _) as [idx|] eqn:Hp.
  - apply position_Some in Hp as (_ & _ & [b id'] & Hx & Heq%Nat.eqb_eq). simpl in Heq. subst id'.
    pose proof (swap_removed_perm _ _ _ Hx) as Hperm. cbn [handlers].
    split; [|by exists b]. unfold ids_wf in *. cbn [handlers finished]. rewrite length_app. cbn [length].
    pose proof (length_swap_remove _ _ _ Hx) as Hl.
    revert Hperm Hl. generalize (swap_remove (handlers hs) idx). intros r Hperm Hl.
    replace (length r + (length (finished hs) + 1))
      with (length (handlers hs) + length (finished hs)) by lia.
    rewrite <- Hi, <- Hperm. cbn. rewrite app_assoc. by rewrite <- Permutation_cons_append.
  - apply position_None in Hp. rewrite List.Forall_forall in Hp. intros ([b id'] & -> & Hin)%list_elem_of_fmap.
    apply list_elem_of_In, Hp in Hin. simpl in Hin. by rewrite Nat.eqb_refl in Hin.
Qed.

End Handlers.
Arguments Handlers B : clear implicits.
Arguments mkHandlers {B}.

(** ** One message

    A call of a boxed handler that panics takes everything with it: [None]. *)

Section Run.
Context {B Msg St Q : Type} (call : B -> Msg -> St -> Q -> option (HandlerStatus * B * St * Q)).
Implicit Types hs : Handlers B.

(** The loop of [handle]; every turn brings the end of the table nearer, so
    that [None] is a panic. *)
Fixpoint handle_loop (fuel : nat) (i : nat) (msg : Msg) (hs : Handlers B) (state : St) (queue : Q)
    : option (Handlers B * St * Q) :=
  match fuel with
  | 0 => None
  | S fuel =>
      match handlers hs !! i with
      | None => Some (hs, state, queue)
      | Some (h, id) =>
          match call h msg state queue with
          | None => None
          | Some (status, h, state, queue) =>
              let hs := mkHandlers (<[i := (h, id)]> (handlers hs)) (yielded hs) (finished hs) (wants_owning hs) in
              match status with
              | Keep y w =>
                  handle_loop fuel (i + 1) msg
                    (mkHandlers (handlers hs) (if y then yielded hs ++ [id] else yielded hs) (finished hs)
                       (wants_owning hs || w)) state queue
              | Done y =>
                  handle_loop fuel i msg
                    (mkHandlers (swap_remove (handlers hs) i) (if y then yielded hs ++ [id] else yielded hs)
                       (finished hs ++ [id]) (wants_owning hs)) state queue
              end
          end
      end
  end.

Definition handle (hs : Handlers B) (msg : Msg) (state : St) (queue : Q)
    : option (nat * (Handlers B * St * Q)) :=
  let hs := mkHandlers (handlers hs) [] (finished hs) false in
  let finished_at := length (finished hs) in
  (fun r => (finished_at, r)) <$> handle_loop (S (length (handlers hs))) 0 msg hs state queue.

(** A call of a handler: what it was, its id, its answer, what it became. *)
Abbreviation Call := (B * nat * HandlerStatus * B)%type.

Definition call_in (t : Call) : B * nat := t.1.1.
Definition call_id (t : Call) : nat := t.1.1.2.
Definition call_kept (t : Call) : list (B * nat) :=
  match t.1.2 with Keep _ _ => [(t.2, t.1.1.2)] | Done _ => [] end.
Definition call_done (t : Call) : list nat := match t.1.2 with Keep _ _ => [] | Done _ => [t.1.1.2] end.
Definition call_yielded (t : Call) : list nat :=
  match t.1.2 with Keep true _ | Done true => [t.1.1.2] | _ => [] end.
Definition call_wants (t : Call) : bool := match t.1.2 with Keep _ w => w | Done _ => false end.

(** The calls were made one after the other, each on the state and queue the
    one before left. *)
Fixpoint threaded (msg : Msg) (tr : list Call) (st : St) (q : Q) (st' : St) (q' : Q) : Prop :=
  match tr with
  | [] => st = st' /\ q = q'
  | (b, _, s, b') :: tr => exists st1 q1, call b msg st q = Some (s, b', st1, q1) /\ threaded msg tr st1 q1 st' q'
  end.

(** Where a handler panics: after the calls of [tr]. *)
Definition panics (msg : Msg) (st : St) (q : Q) (l : list (B * nat)) : Prop :=
  exists tr b id rest st1 q1, threaded msg tr st q st1 q1 /\ (call_in <$> tr) ++ (b, id) :: rest ≡ₚ l /\
    call b msg st1 q1 = None.

Lemma panics_later msg b id s b' st q st1 q1 l l' :
  call b msg st q = Some (s, b', st1, q1) -> panics msg st1 q1 l -> (b, id) :: l ≡ₚ l' -> panics msg st q l'.
Proof.
  intros Hc (tr & b0 & id0 & rest & st2 & q2 & Ht & Hp & Hn) Hl.
  exists ((b, id, s, b') :: tr), b0, id0, rest, st2, q2. split; [by exists st1, q1|]. split; [|done].
  rewrite <- Hl, <- Hp. done.
Qed.

(** What a loop from the [i]-th handler on comes to. *)
Definition loop_post (msg : Msg) (i : nat) (hs : Handlers B) (st : St) (q : Q) (r : option (Handlers B * St * Q)) : Prop :=
  match r with
  | None => panics msg st q (drop i (handlers hs))
  | Some (hs', st', q') =>
      exists tr, threaded msg tr st q st' q' /\ call_in <$> tr ≡ₚ drop i (handlers hs) /\
        handlers hs' ≡ₚ take i (handlers hs) ++ flat_map call_kept tr /\
        yielded hs' = yielded hs ++ flat_map call_yielded tr /\
        finished hs' = finished hs ++ flat_map call_done tr /\
        wants_owning hs' = wants_owning hs || existsb call_wants tr
  end.

(** A turn in which the handler stays. *)
Lemma loop_keep msg i hs st q h id y w h' st1 q1 r :
  handlers hs !! i = Some (h, id) -> call h msg st q = Some (Keep y w, h', st1, q1) ->
  loop_post msg (i + 1) (mkHandlers (<[i := (h', id)]> (handlers hs)) (if y then yielded hs ++ [id] else yielded hs) (finished hs)
    (wants_owning hs || w)) st1 q1 r -> loop_post msg i hs st q r.
Proof.
  intros Hh Hc IH. pose proof (lookup_lt_Some _ _ _ Hh) as Hlt.
  assert (Hd : (h, id) :: drop (i + 1) (<[i := (h', id)]> (handlers hs)) ≡ₚ drop i (handlers hs)).
  { rewrite (drop_S _ _ _ Hh). by rewrite drop_insert_lt, Nat.add_1_r by lia. }
  destruct r as [[[hs' st'] q']|]; cbn [loop_post handlers yielded finished wants_owning] in *; [|by eapply panics_later].
  destruct IH as (tr & H2 & H3 & H4 & H5 & H6 & H7).
  exists ((h, id, Keep y w, h') :: tr). split; [by exists st1, q1|]. split; [|split; [|split; [|split]]].
  - rewrite <- Hd, <- H3. done.
  - rewrite H4. cbn. rewrite Nat.add_1_r, (take_S_r _ _ (h', id)) by by apply list_lookup_insert_eq.
    rewrite take_insert_ge by lia. by rewrite <- app_assoc.
  - rewrite H5. cbn. destruct y; cbn; by rewrite <- ?app_assoc.
  - done.
  - rewrite H7. cbn. by rewrite orb_assoc.
Qed.

(** One in which it is taken out. *)
Lemma loop_done msg i hs st q h id y h' st1 q1 r :
  handlers hs !! i = Some (h, id) -> call h msg st q = Some (Done y, h', st1, q1) ->
  loop_post msg i (mkHandlers (swap_remove (<[i := (h', id)]> (handlers hs)) i) (if y then yielded hs ++ [id] else yielded hs)
    (finished hs ++ [id]) (wants_owning hs)) st1 q1 r -> loop_post msg i hs st q r.
Proof.
  intros Hh Hc IH. pose proof (lookup_lt_Some _ _ _ Hh) as Hlt. set (l' := <[i := (h', id)]> (handlers hs)) in *.
  assert (Hl' : l' !! i = Some (h', id)) by by apply list_lookup_insert_eq.
  destruct (swap_remove_take_drop l' i (h', id) Hl') as [Ht Hd].
  assert (Hd' : (h, id) :: drop i (swap_remove l' i) ≡ₚ drop i (handlers hs)).
  { rewrite (drop_S _ _ _ Hh). constructor. apply (Permutation_cons_inv (a := (h', id))). rewrite Hd.
    rewrite (drop_S l' (h', id) i Hl'). unfold l'. by rewrite drop_insert_lt by lia. }
  destruct r as [[[hs' st'] q']|]; cbn [loop_post handlers yielded finished wants_owning] in *; [|by eapply panics_later].
  destruct IH as (tr & H2 & H3 & H4 & H5 & H6 & H7).
  exists ((h, id, Done y, h') :: tr). split; [by exists st1, q1|]. split; [|split; [|split; [|split]]].
  - rewrite <- Hd', <- H3. done.
  - rewrite H4, Ht. cbn. unfold l'. by rewrite take_insert_ge by lia.
  - rewrite H5. cbn. destruct y; cbn; by rewrite <- ?app_assoc.
  - rewrite H6. cbn. by rewrite <- app_assoc.
  - by rewrite H7.
Qed.

Lemma handle_loop_spec fuel i msg hs st q :
  length (handlers hs) - i < fuel -> i <= length (handlers hs) -> loop_post msg i hs st q (handle_loop fuel i msg hs st q).
Proof.
  revert i hs st q. induction fuel as [|fuel IH]; intros i hs st q Hf Hi; [lia|]. cbn [handle_loop].
  destruct (handlers hs !! i) as [[h id]|] eqn:Hh.
  2: { apply lookup_ge_None in Hh. exists []. cbn. rewrite !app_nil_r, orb_false_r.
       rewrite drop_ge, take_ge by lia. split_and!; done. }
  pose proof (lookup_lt_Some _ _ _ Hh) as Hlt.
  destruct (call h msg st q) as [[[[s h'] st1] q1]|] eqn:Hc.
  2: { exists [], h, id, (drop (S i) (handlers hs)), st, q. split; [done|]. by rewrite (drop_S _ _ _ Hh). }
  destruct s as [y w|y].
  - eapply loop_keep; [done..|]. apply IH; cbn [handlers]; rewrite length_insert; lia.
  - eapply loop_done; [done..|]. set (l' := <[i := (h', id)]> (handlers hs)).
    pose proof (length_swap_remove l' i (h', id) ltac:(by apply list_lookup_insert_eq)) as Hlr.
    apply IH; cbn [handlers]; unfold l' in *; rewrite length_insert in Hlr; lia.
Qed.

(** A handler that lets a message pass. *)
Definition passes (msg : Msg) (b : B) : Prop := forall st q, exists w, call b msg st q = Some (Keep false w, b, st, q).

Lemma threaded_app msg tr1 tr2 st q st' q' :
  threaded msg (tr1 ++ tr2) st q st' q' <-> exists st1 q1, threaded msg tr1 st q st1 q1 /\ threaded msg tr2 st1 q1 st' q'.
Proof.
  revert st q. induction tr1 as [|[[[b id] s] b'] tr1 IH]; intros st q; cbn [app threaded].
  - split; [by exists st, q|by intros (? & ? & [-> ->] & ?)].
  - setoid_rewrite IH. naive_solver.
Qed.

Lemma threaded_passes msg tr st q st' q' :
  threaded msg tr st q st' q' -> Forall (fun h => passes msg h.1) (call_in <$> tr) ->
  st' = st /\ q' = q /\ flat_map call_kept tr = call_in <$> tr /\ flat_map call_done tr = [] /\ flat_map call_yielded tr = [].
Proof.
  revert st q. induction tr as [|[[[b id] s] b'] tr IH]; intros st q; cbn [threaded]; [by intros [-> ->]|].
  intros (st1 & q1 & Hc & Ht) [Hb Hf]%Forall_cons. destruct (Hb st q) as [w Hw]. cbn in Hw. rewrite Hw in Hc.
  injection Hc as <- <- <- <-. destruct (IH st q Ht Hf) as (-> & -> & K1 & K2 & K3). cbn. by rewrite K1, K2, K3.
Qed.

(** All handlers but one let the message pass. *)
Lemma handle_one hs msg st q b id others s b' st' q' :
  handlers hs ≡ₚ (b, id) :: others -> Forall (fun h => passes msg h.1) others ->
  call b msg st q = Some (s, b', st', q') ->
  exists hs', handle hs msg st q = Some (length (finished hs), (hs', st', q')) /\
    let t := (b, id, s, b') in
    handlers hs' ≡ₚ call_kept t ++ others /\ yielded hs' = call_yielded t /\ finished hs' = finished hs ++ call_done t.
Proof.
  intros Hhs Hothers Hb. set (hs0 := mkHandlers (handlers hs) [] (finished hs) false).
  change (handle hs msg st q) with
    ((fun r => (length (finished hs), r)) <$> handle_loop (S (length (handlers hs))) 0 msg hs0 st q).
  pose proof (handle_loop_spec (S (length (handlers hs))) 0 msg hs0 st q ltac:(simpl; lia) ltac:(lia)) as Hl.
  assert (Hpass : forall l, l ≡ₚ others -> Forall (fun h => passes msg h.1) l) by by intros l ->.
  destruct (handle_loop _ _ _ _ _ _) as [[[hs' st1] q1]|]; cbn [loop_post drop handlers hs0] in Hl.
  - destruct Hl as (tr & Ht & Hin & Hk & Hy & Hf & _). cbn [take app yielded finished hs0] in *. rewrite Hhs in Hin.
    assert (Hx : (b, id) ∈ call_in <$> tr) by (rewrite Hin; by left).
    apply list_elem_of_fmap in Hx as ([[[b0 id0] s0] b0'] & Heq & (tr1 & tr2 & ->)%list_elem_of_split). injection Heq as <- <-.
    rewrite fmap_app, fmap_cons, <- Permutation_middle in Hin. apply Permutation_cons_inv in Hin as Ho.
    pose proof (Hpass _ Ho) as [P1 P2]%Forall_app.
    apply threaded_app in Ht as (st2 & q2 & T1 & st3 & q3 & Hc & T2).
    pose proof (threaded_passes _ _ _ _ _ _ T1 P1) as (-> & -> & K1 & K2 & K3). rewrite Hb in Hc. injection Hc as <- <- <- <-.
    pose proof (threaded_passes _ _ _ _ _ _ T2 P2) as (-> & -> & K4 & K5 & K6).
    exists hs'. split; [done|]. cbv zeta. rewrite !flat_map_app in *. cbn [flat_map] in *. rewrite K1, K4 in Hk. rewrite K2, K5 in Hf.
    rewrite K3, K6 in Hy. rewrite app_nil_r in *. cbn [app] in *. split; [|done]. rewrite Hk.
    rewrite take_0. cbn [app]. by rewrite Permutation_app_swap_app, Ho.
  - exfalso. destruct Hl as (tr & b0 & id0 & rest & st1 & q1 & Ht & Hp & Hc). rewrite Hhs in Hp.
    assert (Hx : (b0, id0) ∈ (b, id) :: others) by (rewrite <- Hp; set_solver).
    apply elem_of_cons in Hx as [[= -> ->]|Hx].
    + rewrite <- Permutation_middle in Hp. apply Permutation_cons_inv, Hpass, Forall_app in Hp as [P1 _].
      apply threaded_passes in Ht as (-> & -> & _); [congruence|done].
    + rewrite Forall_forall in Hothers. destruct (Hothers _ Hx st1 q1) as [w Hw]. cbn in Hw. congruence.
Qed.

Lemma call_ids tr : flat_map call_done tr ++ (flat_map call_kept tr).*2 ≡ₚ (call_in <$> tr).*2.
Proof.
  induction tr as [|[[[b id] s] b'] tr IH]; [done|]. destruct s as [y w|y]; cbn.
  - by rewrite <- Permutation_middle, IH.
  - by rewrite IH.
Qed.

(** The results of a message can always be taken. *)
Lemma handle_results hs msg st q n hs' st' q' :
  handle hs msg st q = Some (n, (hs', st', q')) -> exists res, last_run_results hs' n = Some res.
Proof.
  set (hs0 := mkHandlers (handlers hs) [] (finished hs) false). intros Hh.
  change (handle hs msg st q) with
    ((fun r => (length (finished hs), r)) <$> handle_loop (S (length (handlers hs))) 0 msg hs0 st q) in Hh.
  pose proof (handle_loop_spec (S (length (handlers hs))) 0 msg hs0 st q ltac:(simpl; lia) ltac:(lia)) as Hl.
  destruct (handle_loop _ _ _ _ _ _) as [[[hs1 st1] q1]|]; [|done]. injection Hh as <- <- <- <-.
  destruct Hl as (tr & _ & _ & _ & _ & Hf & _). unfold last_run_results. rewrite Hf. cbn [finished hs0].
  rewrite length_app, (proj2 (Nat.leb_le _ _)) by lia. by eexists.
Qed.

(** C14: A message is given to every live handler exactly once, one after the
    other on the same state and queue, and never twice to the handler moved into
    a finished one's place; the table afterwards holds exactly the handlers that
    asked to be kept, the results name exactly those that yielded and those that
    finished, and the ids stay unique.  It panics exactly if one of these calls
    does. *)
Theorem handle_correct hs msg st q :
  ids_wf hs ->
  match handle hs msg st q with
  | None => panics msg st q (handlers hs)
  | Some (finished_at, (hs', st', q')) =>
      finished_at = length (finished hs) /\
      exists tr, threaded msg tr st q st' q' /\
        call_in <$> tr ≡ₚ handlers hs /\
        handlers hs' ≡ₚ flat_map call_kept tr /\
        last_run_results hs' finished_at = Some (flat_map call_yielded tr, flat_map call_done tr) /\
        wants_owning hs' = existsb call_wants tr /\ ids_wf hs'
  end.
Proof.
  intros Hids. set (hs0 := mkHandlers (handlers hs) [] (finished hs) false).
  change (handle hs msg st q) with
    ((fun r => (length (finished hs), r)) <$> handle_loop (S (length (handlers hs))) 0 msg hs0 st q).
  pose proof (handle_loop_spec (S (length (handlers hs))) 0 msg hs0 st q ltac:(simpl; lia) ltac:(lia)) as Hl.
  destruct (handle_loop _ _ _ _ _ _) as [[[hs' st'] q']|]; [|exact Hl]. cbn [fmap option_fmap option_map]. split; [done|].
  destruct Hl as (tr & H2 & H3 & H4 & H5 & H6 & H7). exists tr.
  subst hs0. cbn [app take drop handlers yielded finished wants_owning orb] in *. split; [done|]. split; [done|]. split; [done|].
  split; [|split; [done|]].
  - unfold last_run_results. rewrite H6, length_app, H5.
    rewrite (proj2 (Nat.leb_le _ _)) by lia. by rewrite drop_app_length.
  - rewrite drop_0 in H3. unfold ids_wf in *. pose proof (call_ids tr) as Hc. rewrite H3, <- H4 in Hc.
    assert (Hp : (handlers hs').*2 ++ finished hs' ≡ₚ (handlers hs).*2 ++ finished hs).
    { rewrite H6, <- Hc. rewrite (Permutation_app_comm (finished hs)), app_assoc. f_equiv. apply Permutation_app_comm. }
    rewrite Hp, Hids. apply Permutation_length in Hp. rewrite !length_app, !length_fmap in Hp. by rewrite Hp.
Qed.
End Run.

(** The operations on the table other than [handle]. *)
Inductive TableOp (B : Type) := TAdd (b : B) (wants : bool) | TCancelOne (id : nat) | TCancel.
Arguments TAdd {B}.
Arguments TCancelOne {B}.
Arguments TCancel {B}.

(** An unknown id panics and changes nothing that survives. *)
Definition run_table {B} (hs : Handlers B) (o : TableOp B) : Handlers B :=
  match o with
  | TAdd b w => (add hs b w).2
  | TCancelOne id => default hs (cancel_one hs id)
  | TCancel => cancel hs
  end.

(** Whatever handlers are added and cancelled, no two live handlers share
    an id: a new handler gets an id none of them has, cancelling frees exactly
    the id it is given, and an id that is not live makes it panic. *)
Theorem handler_ids_unique {B} (os : list (TableOp B)) b w id :
  let hs := foldl run_table new os in
  NoDup (handlers hs).*2 /\ ((add hs b w).1 ∉ (handlers hs).*2) /\
  match cancel_one hs id with
  | Some hs' => exists b', (b', id) :: handlers hs' ≡ₚ handlers hs
  | None => id ∉ (handlers hs).*2
  end.
Proof.
  intros hs. assert (Hw : ids_wf hs).
  { unfold hs. assert (Hn : ids_wf (@new B)) by constructor. revert Hn. generalize (@new B).
    induction os as [|o os IH]; intros h Hn; cbn [foldl]; [done|]. apply IH. destruct o as [b' w'|i|]; cbn [run_table].
    - pose proof (add_spec h b' w' Hn) as Ha. destruct (add h b' w'). apply Ha.
    - pose proof (cancel_one_spec h i Hn) as Hc. destruct (cancel_one h i); [apply Hc|done].
    - constructor. }
  split; [|split].
  - pose proof (ids_NoDup hs Hw) as Hnd. by apply NoDup_app in Hnd as [? _].
  - pose proof (add_spec hs b w Hw) as Ha. destruct (add hs b w). apply Ha.
  - pose proof (cancel_one_spec hs id Hw) as Hc. destruct (cancel_one hs id); [apply Hc|done].
Qed.

(** Handlers that count down and finish at zero, logging their calls; one at
    seven panics. *)
Definition countdown (b : nat) (_ : ()) (st : list nat) (q : ()) : option (HandlerStatus * nat * list nat * ()) :=
  match b with
  | 0 => Some (Done true, 0, st ++ [b], q)
  | 7 => None
  | S b' => Some (Keep false false, b', st ++ [b], q)
  end.

Definition sample_handlers : Handlers nat := mkHandlers [(0, 0); (3, 2); (5, 1)] [] [] true.

Lemma handle_correct_witness :
  ids_wf sample_handlers /\
  (exists hs', handle countdown sample_handlers () [] () = Some (0, (hs', [0; 5; 3], ())) /\ ids_wf hs').
Proof.
  assert (Hi : ids_wf sample_handlers).
  { unfold ids_wf. cbn. apply perm_skip, perm_swap. }
  split; [exact Hi|]. pose proof (handle_correct countdown sample_handlers () [] () Hi) as Hh.
  destruct (handle countdown sample_handlers () [] ()) as [[n [[hs' st'] []]]|] eqn:He; [|vm_compute in He; discriminate He].
  destruct Hh as (_ & tr & _ & _ & _ & _ & _ & Hw). exists hs'. split; [|exact Hw].
  assert (Hst : n = 0 /\ st' = [0; 5; 3]) by (vm_compute in He; by injection He as <- _ <-). by destruct Hst as [-> ->].
Defined.
