(* ===== verification/Oneshot.v ===== *)
(** * The oneshot channel

    [src/client/handler/channel/oneshot.rs]: one receiver and any number of
    senders sharing a heap cell.  Every access to the cell is one step, steps of
    different threads interleave in any order, and the memory they see is
    sequentially consistent.  [Once::call_once] is one step, since it runs its
    closure to the end before anyone else gets through.  An access to the cell
    after it is freed is undefined behaviour: the execution ends there. *)

From S2P Require Import Prelude.

Section Oneshot.
Context {T : Type}.

(** [Inner]; [lock] is whether the [Once] has completed.  The two counters
    record how often each side freed the cell, [uaf] whether it was accessed
    after that, so that nothing is defined any more, and [accepted] what the
    senders' closure stored. *)
Record Inner := mkInner {
  sender_count : nat;
  recver : bool;
  lock : bool;
  value : option T;
  freed_by_sender : nat;
  freed_by_receiver : nat;
  uaf : bool;
  accepted : list T;
}.

(** Where a [Sender] is: owned, inside [send], inside [drop], gone. *)
Inductive SenderPc :=
| SOwned
| SSend (v : T)
| SOnce (v : T)
| SDrop
| SLast
| SFree
| SGone.

(** Where the [Receiver] is, inside [drop] or [recv_now], which take the same
    steps; [r] is what was read out of the cell, to be dropped or returned. *)
Inductive ReceiverPc :=
| ROwned
| RStored
| RLocked (r : option T)
| RFree (r : option T)
| RGone (r : option T).

Record Channel := mkChannel { inner : Inner; receiver : ReceiverPc; senders : list SenderPc }.

(** [channel]. *)
Definition channel : Channel :=
  mkChannel (mkInner 1 true false None 0 0 false []) ROwned [SOwned].

Definition freed (i : Inner) : nat := freed_by_sender i + freed_by_receiver i.

(** An access to the cell, if it was freed, and if not, for [k] to go on with. *)
Definition set_uaf (i : Inner) : Inner :=
  mkInner (sender_count i) (recver i) (lock i) (value i) (freed_by_sender i) (freed_by_receiver i) true (accepted i).
Definition touch {Pc} (i : Inner) (pc : Pc) (k : Inner * Pc) : Inner * Pc := if 0 <? freed i then (set_uaf i, pc) else k.

Definition set_count (i : Inner) (n : nat) : Inner :=
  mkInner n (recver i) (lock i) (value i) (freed_by_sender i) (freed_by_receiver i) (uaf i) (accepted i).
Definition set_recver (i : Inner) (b : bool) : Inner :=
  mkInner (sender_count i) b (lock i) (value i) (freed_by_sender i) (freed_by_receiver i) (uaf i) (accepted i).
Definition set_value (i : Inner) (v : option T) (acc : list T) : Inner :=
  mkInner (sender_count i) (recver i) true v (freed_by_sender i) (freed_by_receiver i) (uaf i) acc.
Definition add_freed (i : Inner) (s r : nat) : Inner :=
  mkInner (sender_count i) (recver i) (lock i) (value i) (freed_by_sender i + s) (freed_by_receiver i + r)
    (uaf i) (accepted i).

(** The next step of a sender that is inside [send] or [drop]. *)
Definition sender_step (i : Inner) (pc : SenderPc) : option (Inner * SenderPc) :=
  match pc with
  | SSend v => Some (touch i pc (i, if recver i then SOnce v else SDrop))
  | SOnce v => Some (touch i pc (if lock i then i else set_value i (Some v) (accepted i ++ [v]), SDrop))
  | SDrop => Some (touch i pc (set_count i (sender_count i - 1), if sender_count i =? 1 then SLast else SGone))
  | SLast => Some (touch i pc (i, if recver i then SGone else SFree))
  | SFree => Some (touch i pc (add_freed i 1 0, SGone))
  | SOwned | SGone => None
  end.

(** The next step of the receiver, starting [drop] or [recv_now] if owned. *)
Definition receiver_step (i : Inner) (pc : ReceiverPc) : option (Inner * ReceiverPc) :=
  match pc with
  | ROwned => Some (touch i pc (set_recver i false, RStored))
  | RStored => Some (touch i pc (set_value i None (accepted i), RLocked (if lock i then value i else None)))
  | RLocked r => Some (touch i pc (i, if sender_count i =? 0 then RFree r else RGone r))
  | RFree r => Some (touch i pc (add_freed i 0 1, RGone r))
  | RGone _ => None
  end.

(** What a thread may do next. *)
Inductive Act := AClone (k : nat) | ASend (k : nat) (v : T) | ADrop (k : nat) | ASender (k : nat) | AReceiver.

Definition run_act (c : Channel) (a : Act) : option Channel :=
  let owned k f := match senders c !! k with Some SOwned => Some (f k) | _ => None end in
  if uaf (inner c) then None else
  match a with
  | AClone k =>
      owned k (fun _ =>
        let (i, l) := touch (inner c) (senders c) (set_count (inner c) (sender_count (inner c) + 1), senders c ++ [SOwned]) in
        mkChannel i (receiver c) l)
  | ASend k v => owned k (fun k => mkChannel (inner c) (receiver c) (<[k := SSend v]> (senders c)))
  | ADrop k => owned k (fun k => mkChannel (inner c) (receiver c) (<[k := SDrop]> (senders c)))
  | ASender k =>
      match senders c !! k with
      | Some pc => (fun r => mkChannel r.1 (receiver c) (<[k := r.2]> (senders c))) <$> sender_step (inner c) pc
      | None => None
      end
  | AReceiver => (fun r => mkChannel r.1 r.2 (senders c)) <$> receiver_step (inner c) (receiver c)
  end.

Fixpoint run_acts (c : Channel) (l : list Act) : option Channel :=
  match l with
  | [] => Some c
  | a :: l => match run_act c a with Some c => run_acts c l | None => None end
  end.

(** [is_empty] and [is_closed], before the cell is freed. *)
Definition is_empty (i : Inner) : bool := negb (lock i).
Definition is_closed (i : Inner) : bool := negb (recver i) || lock i.

(** [peek]; the outer [None] would read a value that was never written or was
    taken out, or a cell that was freed. *)
Definition peek (i : Inner) : option (option T) :=
  if 0 <? freed i then None
  else if lock i then match value i with Some v => Some (Some v) | None => None end else Some None.

(** ** Reachable states *)

Inductive reachable : Channel -> Prop :=
| reachable_channel : reachable channel
| reachable_step c a c' : reachable c -> run_act c a = Some c' -> reachable c'.

(** Senders that still count, and senders on their way to free the cell. *)
Definition counted (pc : SenderPc) : nat :=
  match pc with SOwned | SSend _ | SOnce _ | SDrop => 1 | SLast | SFree | SGone => 0 end.
Definition freeing (pc : SenderPc) : nat := match pc with SLast | SFree => 1 | _ => 0 end.

(** What the receiver has read. *)
Definition got (pc : ReceiverPc) : option T :=
  match pc with RLocked r | RFree r | RGone r => r | _ => None end.

Record inv (c : Channel) : Prop := {
  inv_count : sender_count (inner c) = total counted (senders c);
  inv_recver : recver (inner c) = match receiver c with ROwned => true | _ => false end;
  inv_last : freed_by_sender (inner c) + total freeing (senders c) +
    (if sender_count (inner c) =? 0 then 0 else 1) <= 1;
  inv_receiver : freed_by_receiver (inner c) <= match receiver c with RGone _ => 1 | _ => 0 end;
  inv_leak : freed (inner c) = 0 -> match receiver c with RGone _ => true | _ => false end = true ->
    sender_count (inner c) <> 0 \/ total freeing (senders c) <> 0;
  inv_value : accepted (inner c) = option_list (value (inner c)) ++ option_list (got (receiver c));
  inv_lock : lock (inner c) = false -> accepted (inner c) = [] /\
    match receiver c with ROwned | RStored => true | _ => false end = true;
  inv_got : match receiver c with ROwned | RStored => true | _ => false end = false -> value (inner c) = None;
}.

(** A sender's bookkeeping step: its pc moves from [pc] to [pc'], the count
    and the senders' frees change accordingly, the value and lock do not. *)
Lemma inv_sender c i' k pc pc' :
  inv c -> senders c !! k = Some pc ->
  sender_count i' + counted pc = sender_count (inner c) + counted pc' ->
  recver i' = recver (inner c) -> lock i' = lock (inner c) -> value i' = value (inner c) ->
  accepted i' = accepted (inner c) -> freed_by_receiver i' = freed_by_receiver (inner c) ->
  freed_by_sender i' + freeing pc' + (if sender_count i' =? 0 then 0 else 1) <=
    freed_by_sender (inner c) + freeing pc + (if sender_count (inner c) =? 0 then 0 else 1) ->
  (match receiver c with RGone _ => true | _ => false end = true -> freed (inner c) = 0 -> freed i' = 0 ->
     sender_count i' <> 0 \/ freeing pc' <> 0 \/ (sender_count i' = sender_count (inner c) /\ freeing pc = 0)) ->
  freed (inner c) <= freed i' ->
  inv (mkChannel i' (receiver c) (<[k := pc']> (senders c))).
Proof.
  intros [Hc Hr Hl Hv Hk Hval Hlock Hgot] Hpc Hcount Er El Ev Ea Efr Hfree Hleak Hmono.
  pose proof (total_insert counted _ _ _ pc' Hpc) as Tc.
  pose proof (total_insert freeing _ _ _ pc' Hpc) as Tf.
  pose proof (total_le freeing _ _ _ Hpc) as Lf.
  constructor; cbn [inner receiver senders]; rewrite ?Er, ?El, ?Ev, ?Ea, ?Efr; try done; try lia.
  intros Hf Hg. specialize (Hleak Hg ltac:(lia) Hf). specialize (Hk ltac:(lia) Hg). lia.
Qed.

(** Nothing is changed by an access that is undefined. *)
Lemma inv_uaf c : inv c -> inv (mkChannel (set_uaf (inner c)) (receiver c) (senders c)).
Proof. by intros []. Qed.

Lemma sender_step_inv c k pc r :
  inv c -> senders c !! k = Some pc -> sender_step (inner c) pc = Some r ->
  inv (mkChannel r.1 (receiver c) (<[k := r.2]> (senders c))).
Proof.
  intros Hi Hk. pose proof Hi as [Hc Hr Hl Hv Hlk Hval Hlock Hgot].
  pose proof (total_le counted _ _ _ Hk) as Lc. pose proof (total_le freeing _ _ _ Hk) as Lf.
  unfold sender_step, touch. destruct (0 <? freed (inner c)).
  { destruct pc; try done; intros [= <-]; cbn [fst snd]; rewrite list_insert_id by done; by apply inv_uaf. }
  destruct pc as [|v|v| | | |]; try done; intros [= <-]; cbn [fst snd].
  - eapply inv_sender; [done|exact Hk|..]; cbn; try done; destruct (recver (inner c)); cbn; lia.
  - destruct (lock (inner c)) eqn:El.
    { eapply inv_sender; [done|exact Hk|..]; cbn; try done; lia. }
    destruct (Hlock eq_refl) as [Hacc Hrec]. rewrite Hacc in Hval.
    pose proof (total_insert counted _ _ _ SDrop Hk) as Tc. pose proof (total_insert freeing _ _ _ SDrop Hk) as Tf.
    constructor; cbn -[Nat.eqb total] in *; try lia; try done.
    + rewrite Hacc. by destruct (receiver c).
    + intros Hg. by rewrite Hrec in Hg.
  - cbn in Lc. eapply inv_sender; [done|exact Hk|..]; cbn -[Nat.eqb total]; try done;
      destruct (Nat.eqb_spec (sender_count (inner c)) 1) as [He|He]; cbn; try lia.
    + rewrite He. cbn. lia.
    + rewrite (proj2 (Nat.eqb_neq _ _)) by lia. rewrite (proj2 (Nat.eqb_neq _ _)) by lia. lia.
  - eapply inv_sender; [done|exact Hk|..]; cbn -[Nat.eqb total]; try done;
      destruct (recver (inner c)) eqn:Er; cbn; try lia.
    intros Hg. by destruct (receiver c).
  - eapply inv_sender; [done|exact Hk|..]; cbn -[Nat.eqb total]; try done; try lia; unfold freed; cbn; lia.
Qed.

Lemma receiver_step_inv c r :
  inv c -> receiver_step (inner c) (receiver c) = Some r -> inv (mkChannel r.1 r.2 (senders c)).
Proof.
  intros Hi. pose proof Hi as [Hc Hr Hl Hv Hlk Hval Hlock Hgot].
  unfold receiver_step, touch. destruct (0 <? freed (inner c)).
  { intros Hr'. assert (r = (set_uaf (inner c), receiver c)) as -> by (destruct (receiver c); try done; by injection Hr' as <-). by apply inv_uaf. }
  destruct (receiver c) as [| |g|g|g]; try done; intros [= <-]; cbn [fst snd].
  - constructor; cbn -[Nat.eqb total] in *; try done.
  - constructor; cbn -[Nat.eqb total] in *; try done.
    destruct (lock (inner c)) eqn:El; [by rewrite app_nil_r in Hval|]. by destruct (Hlock eq_refl) as [-> _].
  - constructor; cbn -[Nat.eqb total] in *; try done; destruct (Nat.eqb_spec (sender_count (inner c)) 0); try done; lia.
  - constructor; cbn -[Nat.eqb total] in *; try done; lia.
Qed.

Lemma run_act_inv c a c' : inv c -> run_act c a = Some c' -> inv c'.
Proof.
  intros Hi. pose proof Hi as [Hc Hr Hl Hv Hlk Hval Hlock Hgot].
  unfold run_act. destruct (uaf (inner c)); [done|]. destruct a as [k|k v|k|k|].
  - destruct (senders c !! k) as [[]|] eqn:Hk; try done. unfold touch. destruct (0 <? freed (inner c)); intros [= <-]; [by apply inv_uaf|].
    pose proof (total_le counted _ _ _ Hk) as Lc. cbn in Lc.
    constructor; cbn -[Nat.eqb total] in *; rewrite ?total_app; try done; cbn [counted freeing]; try lia.
    rewrite (proj2 (Nat.eqb_neq _ _)) in Hl by lia.
    rewrite (proj2 (Nat.eqb_neq _ _)) by lia. lia.
  - destruct (senders c !! k) as [[]|] eqn:Hk; try done. intros [= <-].
    eapply inv_sender; [done|exact Hk|..]; cbn; try done; lia.
  - destruct (senders c !! k) as [[]|] eqn:Hk; try done. intros [= <-].
    eapply inv_sender; [done|exact Hk|..]; cbn; try done; lia.
  - destruct (senders c !! k) as [pc|] eqn:Hk; [|done].
    destruct (sender_step (inner c) pc) as [r|] eqn:Hs; [|done]. intros [= <-]. by eapply sender_step_inv.
  - destruct (receiver_step (inner c) (receiver c)) as [r|] eqn:Hs; [|done]. intros [= <-].
    by apply receiver_step_inv.
Qed.

Lemma channel_inv : inv channel.
Proof. constructor; cbn; try done; lia. Qed.

Lemma reachable_inv c : reachable c -> inv c.
Proof. induction 1 as [|c a c' _ IH Ha]; [apply channel_inv|by eapply run_act_inv]. Qed.

(** Who freed the cell: the last sender, after the receiver was gone, or the
    receiver, after the last sender was. *)
Record freeing_inv (c : Channel) : Prop := {
  freeing_sender k : senders c !! k = Some SFree -> recver (inner c) = false;
  freed_sender : 0 < freed_by_sender (inner c) -> recver (inner c) = false;
  freeing_receiver r : receiver c = RFree r -> sender_count (inner c) = 0;
  freed_receiver : 0 < freed_by_receiver (inner c) -> sender_count (inner c) = 0;
}.

Lemma freeing_inv_step c a c' : inv c -> freeing_inv c -> run_act c a = Some c' -> freeing_inv c'.
Proof.
  intros Hi [F1 F2 F3 F4] Ha. pose proof (inv_count c Hi) as Hc. destruct c as [i r ss]. cbn [inner receiver senders] in *.
  unfold run_act in Ha. cbn [inner receiver senders] in Ha. destruct (uaf i); [done|].
  assert (Hins : forall k pc pc', ss !! k = Some pc -> (pc' = SFree -> recver i = false) ->
    forall k', <[k := pc']> ss !! k' = Some SFree -> recver i = false).
  { intros k pc pc' Hk Hp k'. rewrite list_lookup_insert_Some. intros [(_ & Hp' & _)|[_ Hk']]; [by apply Hp|by eapply F1]. }
  destruct a as [k|k v|k|k|].
  - destruct (ss !! k) as [[]|] eqn:Hk; try done. pose proof (total_le counted _ _ _ Hk) as Lc. cbn in Lc. unfold touch in Ha.
    destruct (0 <? freed i); injection Ha as <-; [by constructor|]. constructor; cbn -[total]; [|done|..].
    + intros k' [Hk'|[_ Hk']]%lookup_app_Some; [by eapply F1|]. by apply list_lookup_singleton_Some in Hk' as [_ [=]].
    + intros r0 Hr0. pose proof (F3 r0 Hr0). lia.
    + intros Hf. pose proof (F4 Hf). lia.
  - destruct (ss !! k) as [[]|] eqn:Hk; try done. injection Ha as <-. constructor; cbn; try done. by eapply Hins.
  - destruct (ss !! k) as [[]|] eqn:Hk; try done. injection Ha as <-. constructor; cbn; try done. by eapply Hins.
  - destruct (ss !! k) as [pc|] eqn:Hk; [|done]. unfold sender_step, touch in Ha. destruct (0 <? freed i).
    { destruct pc; try done; injection Ha as <-; cbn; rewrite list_insert_id by done; by constructor. }
    destruct pc as [|v|v| | | |]; try done; injection Ha as <-; constructor; cbn -[Nat.eqb]; try done.
    + eapply Hins; [done|]. by destruct (recver i).
    + intros k' Hk'. destruct (lock i); by eapply (Hins k); [done| |exact Hk'].
    + by destruct (lock i).
    + intros r0 Hr0. pose proof (F3 r0 Hr0). by destruct (lock i).
    + destruct (lock i); cbn; apply F4.
    + eapply Hins; [done|]. by destruct (_ =? _).
    + intros r0 Hr0. pose proof (F3 r0 Hr0). lia.
    + intros Hf. pose proof (F4 Hf). lia.
    + eapply Hins; [done|]. by destruct (recver i).
    + eapply Hins; [done|]. done.
    + intros _. by eapply F1.
    + by rewrite Nat.add_0_r.
  - unfold receiver_step, touch in Ha. destruct (0 <? freed i) eqn:Hf0.
    { destruct r; try done; injection Ha as <-; by constructor. }
    apply Nat.ltb_ge in Hf0. unfold freed in Hf0.
    destruct r as [| |g|g|g]; try done; injection Ha as <-; constructor; cbn -[Nat.eqb]; try done; try lia.
    + intros r0. destruct (Nat.eqb_spec (sender_count i) 0); [done|done].
    + intros _. by eapply F3.
Qed.

Lemma reachable_freeing c : reachable c -> freeing_inv c.
Proof.
  induction 1 as [|c a c' Hc IH Ha].
  - constructor; cbn; try done; try lia. intros k Hk. by apply list_lookup_singleton_Some in Hk as [_ [=]].
  - eapply freeing_inv_step; [by apply reachable_inv|done|done].
Qed.

Lemma reachable_freed_once c : reachable c -> uaf (inner c) = false -> freed (inner c) <= 1.
Proof.
  induction 1 as [|c a c' Hc IH Ha]; [cbn; lia|]. destruct c as [i r ss]. unfold run_act in Ha. cbn [inner receiver senders] in *.
  destruct (uaf i); [done|]. specialize (IH eq_refl).
  destruct a as [k|k v|k|k|].
  1-3: destruct (ss !! k) as [[]|]; try done; unfold touch in Ha; try (destruct (0 <? freed i)); injection Ha as <-; cbn; try done.
  - destruct (ss !! k) as [pc|]; [|done]. unfold sender_step, touch in Ha. destruct (0 <? freed i) eqn:Hf.
    { destruct pc; try done; by injection Ha as <-. }
    apply Nat.ltb_ge in Hf. unfold freed in *. destruct pc; try done; injection Ha as <-; cbn; try lia. destruct (lock i); cbn; lia.
  - unfold receiver_step, touch in Ha. destruct (0 <? freed i) eqn:Hf.
    { destruct r; try done; by injection Ha as <-. }
    apply Nat.ltb_ge in Hf. unfold freed in *. destruct r; try done; injection Ha as <-; cbn; lia.
Qed.

(** An access to the freed cell, which is undefined behaviour: the receiver on
    its way out finds that the last sender freed it, or the last sender on its
    way out that the receiver did. *)
Definition freed_access (c : Channel) (a : Act) : Prop :=
  (a = AReceiver /\ freed_by_sender (inner c) = 1 /\ sender_count (inner c) = 0 /\
     match receiver c with RStored | RLocked _ | RFree _ => True | _ => False end) \/
  (exists k, a = ASender k /\ freed_by_receiver (inner c) = 1 /\ (exists r, receiver c = RGone r) /\
     (senders c !! k = Some SLast \/ senders c !! k = Some SFree)).

Lemma uaf_freed_access c a c' :
  reachable c -> uaf (inner c) = false -> run_act c a = Some c' -> uaf (inner c') = true -> freed_access c a.
Proof.
  intros Hc Hu Ha Hu'. pose proof (reachable_freed_once c Hc Hu) as Hone. pose proof (reachable_inv c Hc) as [Ic Ir Il Iv _ _ _ _].
  pose proof (reachable_freeing c Hc) as [F1 F2 F3 F4]. destruct c as [i r ss]. unfold freed, freed_access in *. cbn [inner receiver senders] in *.
  unfold run_act in Ha. cbn [inner receiver senders] in Ha. rewrite Hu in Ha.
  assert (Hs : forall k pc, ss !! k = Some pc -> 0 < freed i -> counted pc = 0 /\
    (freeing pc = 0 \/ (freed_by_receiver i = 1 /\ exists g, r = RGone g))).
  { intros k pc Hk Hf. unfold freed in Hf. pose proof (total_le counted _ _ _ Hk) as Lc. pose proof (total_le freeing _ _ _ Hk) as Lf.
    destruct (Nat.eq_dec (freed_by_sender i) 0) as [Hz|Hz].
    - assert (Hr : freed_by_receiver i = 1) by lia. rewrite F4 in Ic by lia. split; [lia|]. right. split; [done|].
      destruct r; try lia. by eexists.
    - destruct (Nat.eqb_spec (sender_count i) 0); [split; [lia|left; lia]|lia]. }
  destruct a as [k|k v|k|k|].
  1-3: destruct (ss !! k) as [pc|] eqn:Hk; [|done]; destruct pc; try done.
  - unfold touch in Ha. destruct (0 <? freed i) eqn:Hf; injection Ha as <-; [|cbn in Hu'; congruence].
    apply Nat.ltb_lt in Hf. destruct (Hs k _ Hk Hf) as [[=] _].
  - injection Ha as <-. cbn in Hu'. congruence.
  - injection Ha as <-. cbn in Hu'. congruence.
  - destruct (ss !! k) as [pc|] eqn:Hk; [|done]. right. exists k. unfold sender_step, touch in Ha.
    destruct (0 <? freed i) eqn:Hf; [apply Nat.ltb_lt in Hf|].
    + destruct (Hs k _ Hk Hf) as [H1 H2]. destruct pc; try done; (destruct H2 as [[=]|[H2 H3]]; split_and!; [done..|by auto]).
    + destruct pc; try done; injection Ha as <-; cbn in Hu'; try congruence. destruct (lock i); cbn in Hu'; congruence.
  - left. unfold receiver_step, touch in Ha. destruct (0 <? freed i) eqn:Hf; [apply Nat.ltb_lt in Hf|].
    + unfold freed in Hf. assert (Hg : match r with RGone _ => False | _ => True end) by by destruct r.
      assert (Hz : freed_by_receiver i = 0) by (destruct r; try lia; done). split; [done|]. split; [lia|].
      destruct (Nat.eqb_spec (sender_count i) 0); [|lia]. split; [done|]. destruct r; try done. rewrite F2 in Ir by lia. done.
    + destruct r; try done; injection Ha as <-; cbn in Hu'; congruence.
Qed.

(** C16: However the threads interleave, as long as the cell is not accessed
    after it was freed: at most one value ever gets into the channel, it is
    either still there or was handed to the receiver, exactly once, a channel no
    sender got through to has had none, and the cell is freed at most once.  It
    is accessed after it was freed, which makes the execution undefined, only
    when the receiver and the last sender are on their way out at the same time:
    by the receiver after that sender freed the cell, or the other way round. *)
Theorem oneshot_value c :
  reachable c ->
  (uaf (inner c) = false ->
   accepted (inner c) = option_list (value (inner c)) ++ option_list (got (receiver c)) /\
   length (accepted (inner c)) <= 1 /\
   (lock (inner c) = false -> accepted (inner c) = []) /\
   freed (inner c) <= 1) /\
  (forall a c', uaf (inner c) = false -> run_act c a = Some c' -> uaf (inner c') = true -> freed_access c a).
Proof.
  intros Hc. split; [|intros a c'; by apply uaf_freed_access]. intros Hu. pose proof (reachable_freed_once c Hc Hu) as Hone.
  apply reachable_inv in Hc as [_ _ _ _ _ Hval Hlock Hgot]. split; [done|]. split; [|split; [intros El; by apply Hlock|done]].
  rewrite Hval. destruct (receiver c) as [| |g|g|g]; cbn [got] in *.
  1, 2: rewrite app_nil_r; by destruct (value (inner c)); simpl; lia.
  all: rewrite Hgot by done; destruct g; simpl; lia.
Qed.

(** When both sides are gone, and no access to the cell was undefined, it was
    freed exactly once: no interleaving leaks it. *)
Theorem oneshot_no_leak c :
  reachable c -> uaf (inner c) = false ->
  match receiver c with RGone _ => True | _ => False end -> Forall (fun pc => pc = SGone) (senders c) ->
  freed (inner c) = 1.
Proof.
  intros Hc Hu. pose proof (reachable_freed_once c Hc Hu) as Hone. apply reachable_inv in Hc as [Hc Hr Hl Hv Hlk _ _ _]. intros Hg Hs.
  assert (Hz : forall f, f SGone = 0 -> total f (senders c) = 0).
  { intros f Hf. unfold total. clear -Hs Hf. induction Hs as [|pc l -> _ IH]; [done|]. cbn. by rewrite Hf. }
  rewrite (Hz counted) in Hc by done. rewrite (Hz freeing) in Hlk by done.
  destruct (receiver c); try done. destruct (freed (inner c)) eqn:Hf; [|lia].
  destruct (Hlk eq_refl eq_refl); lia.
Qed.

(** As long as nothing was received a completed [Once] means a value, and the
    cell was not freed. *)
Lemma reachable_value c : reachable c ->
  match receiver c with ROwned | RStored => lock (inner c) = true -> value (inner c) <> None | _ => True end.
Proof.
  induction 1 as [|c a c' _ IH Ha]; [done|]. destruct c as [i r s]. unfold run_act in Ha. cbn [receiver inner senders] in *.
  destruct (uaf i); [done|]. destruct a as [k|k v|k|k|].
  1-3: destruct (s !! k) as [[]|]; try done; unfold touch in Ha; try (destruct (0 <? freed i)); injection Ha as <-; exact IH.
  - destruct (s !! k) as [pc|]; [|done]. unfold sender_step, touch in Ha. destruct (0 <? freed i).
    { destruct pc as [|v|v| | | |]; try done; injection Ha as <-; exact IH. }
    destruct pc as [|v|v| | | |]; try done; injection Ha as <-; cbn; try exact IH.
    revert IH. destruct (lock i) eqn:E; cbn; rewrite ?E; intros IH; [exact IH|by destruct r].
  - unfold receiver_step, touch in Ha. destruct (0 <? freed i).
    { destruct r; try done; injection Ha as <-; exact IH. }
    destruct r; cbn in Ha; try done; injection Ha as <-; cbn; [exact IH|done|by destruct (_ =? _)|done].
Qed.

Lemma owned_not_freed c : reachable c -> receiver c = ROwned -> (0 <? freed (inner c)) = false.
Proof.
  intros Hc Hr. apply Nat.ltb_ge. pose proof (freed_sender c (reachable_freeing c Hc)) as Hf.
  apply reachable_inv in Hc as [_ Ir _ Iv _ _ _ _]. rewrite Hr in Ir, Iv. unfold freed.
  destruct (freed_by_sender (inner c)); [lia|]. rewrite Ir in Hf. discriminate Hf. lia.
Qed.

(** Looking at the channel is always defined, shows what receiving right away
    gives, and what was seen stays until it is received, whatever the senders do. *)
Theorem peek_correct c : reachable c -> receiver c = ROwned -> uaf (inner c) = false ->
  exists r, peek (inner c) = Some r /\
    (exists c', run_acts c [AReceiver; AReceiver] = Some c' /\ got (receiver c') = r) /\
    (forall v a c', r = Some v -> run_act c a = Some c' -> receiver c' = ROwned -> peek (inner c') = Some (Some v)).
Proof.
  intros Hc Hr Hu. pose proof (reachable_value c Hc) as Hv. pose proof (owned_not_freed c Hc Hr) as Hf. rewrite Hr in Hv.
  assert (Hnext : forall a c', run_act c a = Some c' -> receiver c' = ROwned -> (0 <? freed (inner c')) = false).
  { intros a c' Ha. apply owned_not_freed. by eapply reachable_step. }
  destruct c as [i rc s]. cbn [receiver inner] in *. subst rc.
  assert (Hrun : exists c', run_acts (mkChannel i ROwned s) [AReceiver; AReceiver] = Some c' /\ got (receiver c') = if lock i then value i else None).
  { assert (H1 : run_act (mkChannel i ROwned s) AReceiver = Some (mkChannel (set_recver i false) RStored s)).
    { unfold run_act. cbn [inner receiver receiver_step]. unfold touch. by rewrite Hu, Hf. }
    assert (H2 : run_act (mkChannel (set_recver i false) RStored s) AReceiver =
      Some (mkChannel (set_value (set_recver i false) None (accepted i)) (RLocked (if lock i then value i else None)) s)).
    { unfold run_act. cbn [inner receiver receiver_step]. unfold touch.
      change (uaf (set_recver i false)) with (uaf i). change (freed (set_recver i false)) with (freed i). by rewrite Hu, Hf. }
    cbn [run_acts]. rewrite H1, H2. by eexists. }
  unfold peek. rewrite Hf. destruct (lock i) eqn:El; [destruct (value i) as [v|] eqn:Ev; [|by destruct (Hv eq_refl)]|].
  - exists (Some v). split; [done|]. split; [done|]. intros w a c' [= <-] Ha Hr'. rewrite (Hnext a c' Ha Hr').
    unfold run_act in Ha. cbn [inner receiver senders] in Ha. rewrite Hu in Ha. destruct a as [k|k x|k|k|].
    1-3: destruct (s !! k) as [[]|]; try done; unfold touch in Ha; rewrite ?Hf in Ha; injection Ha as <-; cbn; by rewrite El, Ev.
    + destruct (s !! k) as [pc|]; [|done]. unfold sender_step, touch in Ha. rewrite Hf in Ha.
      destruct pc; try done; injection Ha as <-; cbn; rewrite ?El; cbn; by rewrite ?El, ?Ev.
    + unfold receiver_step, touch in Ha. rewrite Hf in Ha. injection Ha as <-. done.
  - exists None. done.
Qed.

Lemma run_acts_reachable l c c' : reachable c -> run_acts c l = Some c' -> reachable c'.
Proof.
  revert c. induction l as [|a l IH]; intros c Hc; cbn [run_acts]; [by intros [= <-]|].
  destruct (run_act c a) as [c1|] eqn:Ha; [|done]. apply IH. by eapply reachable_step.
Qed.

(** The race: the receiver announces it is gone, the last sender stops
    counting, sees that and frees the cell, and then the receiver goes on. *)
Definition race : list Act := [ADrop 0; AReceiver; ASender 0; ASender 0; ASender 0; AReceiver].

(** A sender and the receiver dropped at the same time: the sender frees the
    cell, and the receiver, whose value is dropped already, accesses it after
    that.  The two checks that decide who frees are not one atomic step. *)
Theorem oneshot_freed_access :
  exists c, run_acts channel race = Some c /\ reachable c /\ uaf (inner c) = true.
Proof.
  assert (Hc : run_acts channel race = Some (mkChannel (mkInner 0 false false None 1 0 true []) RStored [SGone]))
    by (vm_compute; reflexivity).
  eexists. split; [exact Hc|]. split; [|done].
  exact (run_acts_reachable race channel _ reachable_channel Hc).
Qed.

(** ** One operation at a time *)

(** A sender or the receiver run until it has nothing left to do. *)
Fixpoint finish_sender (fuel : nat) (i : Inner) (pc : SenderPc) : Inner * SenderPc :=
  match fuel with
  | 0 => (i, pc)
  | S fuel => match sender_step i pc with Some (i, pc) => finish_sender fuel i pc | None => (i, pc) end
  end.

Fixpoint finish_receiver (fuel : nat) (i : Inner) (pc : ReceiverPc) : Inner * ReceiverPc :=
  match fuel with
  | 0 => (i, pc)
  | S fuel => match receiver_step i pc with Some (i, pc) => finish_receiver fuel i pc | None => (i, pc) end
  end.

(** Whole operations; a send takes at most five steps, the receiver four. *)
Inductive WholeOp := OClone (k : nat) | OSend (k : nat) (v : T) | ODrop (k : nat) | OReceive.

Definition run_op (c : Channel) (o : WholeOp) : option Channel :=
  let finish k pc :=
    match senders c !! k with
    | Some SOwned =>
        let '(i, pc) := finish_sender 5 (inner c) pc in
        Some (mkChannel i (receiver c) (<[k := pc]> (senders c)))
    | _ => None
    end in
  match o with
  | OClone k => run_act c (AClone k)
  | OSend k v => finish k (SSend v)
  | ODrop k => finish k SDrop
  | OReceive =>
      match receiver c with
      | ROwned => let '(i, pc) := finish_receiver 4 (inner c) ROwned in Some (mkChannel i pc (senders c))
      | _ => None
      end
  end.

(** Between operations: nobody is on the way, and the cell was freed exactly
    if both sides are gone. *)
Definition settled (c : Channel) : Prop :=
  uaf (inner c) = false /\
  freed (inner c) = (if (sender_count (inner c) =? 0) && negb (recver (inner c)) then 1 else 0) /\
  recver (inner c) = match receiver c with ROwned => true | _ => false end /\
  sender_count (inner c) = total counted (senders c).

Lemma finish_sender_settled i pc :
  uaf i = false -> 1 <= sender_count i -> freed i = 0 ->
  (pc = SDrop \/ exists v, pc = SSend v) ->
  let '(i', pc') := finish_sender 5 i pc in
  pc' = SGone /\ uaf i' = false /\ recver i' = recver i /\ sender_count i' = sender_count i - 1 /\
  freed i' = if (sender_count i' =? 0) && negb (recver i) then 1 else 0.
Proof.
  intros Hu Hc Hf Hpc. destruct i as [n rc lk v fs fr u acc]. unfold freed in *. cbn in Hu, Hc, Hf. subst u.
  assert (fs = 0) as -> by lia. assert (fr = 0) as -> by lia.
  destruct n as [|[|n]]; [lia|..]; destruct Hpc as [->|[x ->]]; destruct rc, lk; cbn; split_and!; done || lia.
Qed.

Lemma run_op_settled c o c' : settled c -> run_op c o = Some c' -> settled c'.
Proof.
  intros (Hu & Hf & Hr & Hc). destruct o as [k|k v|k|]; cbn [run_op].
  - unfold run_act. rewrite Hu. destruct (senders c !! k) as [[]|] eqn:Hk; try done.
    pose proof (total_le counted _ _ _ Hk) as Lc. cbn in Lc.
    destruct (Nat.eqb_spec (sender_count (inner c)) 0) as [Hz|Hz]; [lia|]. cbn in Hf.
    unfold touch. rewrite Hf. cbn [Nat.ltb Nat.leb]. intros [= <-].
    split_and!; cbn -[total].
    + done.
    + rewrite (proj2 (Nat.eqb_neq _ _)) by lia. done.
    + done.
    + rewrite total_app. cbn [counted]. lia.
  - destruct (senders c !! k) as [[]|] eqn:Hk; try done.
    pose proof (total_le counted _ _ _ Hk) as Lc. cbn in Lc.
    destruct (Nat.eqb_spec (sender_count (inner c)) 0) as [Hz|Hz]; [lia|]. cbn in Hf.
    pose proof (finish_sender_settled (inner c) (SSend v) Hu ltac:(lia) Hf ltac:(right; by eexists)) as Hs.
    destruct (finish_sender 5 (inner c) (SSend v)) as [i' pc']. intros [= <-].
    destruct Hs as (-> & H1 & H2 & H3 & H4). pose proof (total_insert counted _ _ _ SGone Hk) as Tc. cbn in Tc.
    split_and!; cbn -[total]; [done|by rewrite H4, H2|by rewrite H2|lia].
  - destruct (senders c !! k) as [[]|] eqn:Hk; try done.
    pose proof (total_le counted _ _ _ Hk) as Lc. cbn in Lc.
    destruct (Nat.eqb_spec (sender_count (inner c)) 0) as [Hz|Hz]; [lia|]. cbn in Hf.
    pose proof (finish_sender_settled (inner c) SDrop Hu ltac:(lia) Hf ltac:(by left)) as Hs.
    destruct (finish_sender 5 (inner c) SDrop) as [i' pc']. intros [= <-].
    destruct Hs as (-> & H1 & H2 & H3 & H4). pose proof (total_insert counted _ _ _ SGone Hk) as Tc. cbn in Tc.
    split_and!; cbn -[total]; [done|by rewrite H4, H2|by rewrite H2|lia].
  - destruct (receiver c); try done. rewrite Hr, andb_false_r in Hf.
    destruct c as [[n rc lk v fs fr u acc] rpc ss]. unfold freed, settled in *. cbn -[total] in *.
    assert (fs = 0) as -> by lia. assert (fr = 0) as -> by lia. subst u rc.
    destruct n as [|n]; destruct lk; cbn -[total]; intros [= <-]; cbn -[total]; split_and!; done.
Qed.

Fixpoint run_ops (c : Channel) (l : list WholeOp) : option Channel :=
  match l with
  | [] => Some c
  | o :: l => match run_op c o with Some c => run_ops c l | None => None end
  end.

(** As long as no two operations overlap, the cell is never accessed after
    it is freed and it is freed once, exactly when the last sender and the
    receiver are gone. *)
Theorem oneshot_sequential l c :
  run_ops channel l = Some c ->
  uaf (inner c) = false /\
  freed (inner c) =
    (if (total counted (senders c) =? 0) && match receiver c with ROwned => false | _ => true end then 1 else 0).
Proof.
  intros Hl. assert (Hs : settled c).
  { assert (H0 : settled channel) by done. revert Hl H0. generalize channel.
    induction l as [|o l IH]; intros c0; cbn [run_ops]; [by intros [= <-]|].
    destruct (run_op c0 o) as [c1|] eqn:Ho; [|done]. intros Hl H0. apply (IH c1 Hl). by eapply run_op_settled. }
  destruct Hs as (Hu & Hf & Hr & Hc). split; [done|]. rewrite Hf, Hc, Hr. by destruct (receiver c).
Qed.
End Oneshot.

Definition sample_sent : Channel (T := nat) := mkChannel (mkInner 1 true true (Some 7) 0 0 false [7]) ROwned [SDrop].
Lemma sample_sent_reached : run_acts channel [ASend 0 7; ASender 0; ASender 0] = Some sample_sent.
Proof. vm_compute. reflexivity. Qed.

(** A value is in the channel; and the race ends in an undefined access. *)
Lemma oneshot_value_witness :
  accepted (inner sample_sent) = option_list (value (inner sample_sent)) ++ option_list (got (receiver sample_sent)) /\
  value (inner sample_sent) = Some 7 /\
  exists c : Channel (T := nat), run_acts channel (take 5 race) = Some c /\ freed_access c AReceiver.
Proof.
  split; [exact (proj1 (proj1 (oneshot_value _ (run_acts_reachable _ channel _ reachable_channel sample_sent_reached)) eq_refl))|].
  split; [reflexivity|].
  assert (Hc : run_acts (T := nat) channel (take 5 race) = Some (mkChannel (mkInner 0 false false None 1 0 false []) RStored [SGone]))
    by (vm_compute; reflexivity).
  eexists. split; [exact Hc|].
  refine (proj2 (oneshot_value _ (run_acts_reachable _ channel _ reachable_channel Hc)) AReceiver _ eq_refl eq_refl eq_refl).
Defined.

Lemma peek_correct_witness :
  exists c, run_acts (channel (T := nat)) [ASend 0 7; ASender 0; ASender 0] = Some c /\ peek (inner c) = Some (Some 7).
Proof.
  destruct (run_acts (channel (T := nat)) [ASend 0 7; ASender 0; ASender 0]) as [c|] eqn:Hc; [|discriminate Hc]. exists c. split; [reflexivity|].
  assert (Hr : receiver c = ROwned) by (injection Hc as <-; reflexivity).
  destruct (peek_correct c (run_acts_reachable _ _ _ reachable_channel Hc) Hr ltac:(injection Hc as <-; reflexivity)) as (r & Hp & (c' & Hc' & Hg) & _). rewrite Hp. f_equal.
  rewrite <- Hg. injection Hc as <-. injection Hc' as <-. reflexivity.
Defined.

Lemma oneshot_no_leak_witness :
  exists c : Channel (T := nat),
    run_acts channel [AReceiver; ADrop 0; AReceiver; AReceiver; ASender 0; ASender 0; ASender 0] = Some c /\ freed (inner c) = 1.
Proof.
  assert (Hc : run_acts (T := nat) channel [AReceiver; ADrop 0; AReceiver; AReceiver; ASender 0; ASender 0; ASender 0] =
    Some (mkChannel (mkInner 0 false true None 1 0 false []) (RGone None) [SGone])) by (vm_compute; reflexivity).
  eexists. split; [exact Hc|].
  exact (oneshot_no_leak _ (run_acts_reachable _ channel _ reachable_channel Hc) eq_refl Logic.I ltac:(repeat constructor)).
Defined.

Lemma oneshot_sequential_witness :
  exists c, run_ops (T := nat) channel [OClone 0; OSend 0 7; OReceive; ODrop 1] = Some c /\
  receiver c = RGone (Some 7) /\ freed (inner c) = 1.
Proof.
  assert (Hc : run_ops (T := nat) channel [OClone 0; OSend 0 7; OReceive; ODrop 1] =
    Some (mkChannel (mkInner 0 false true None 1 0 false [7]) (RGone (Some 7)) [SGone; SGone]))
    by (vm_compute; reflexivity).
  eexists. split; [exact Hc|]. split; [reflexivity|].
  exact (proj2 (oneshot_sequential _ _ Hc)).
Defined.
