(* ===== verification/Parker.v ===== *)
(** * Parking

    [src/client/handler/channel/parker.rs]: one thread that waits in [park] for
    any number of [Unparker]s.  They share an [Arc] with a pointer that is null,
    [SKIP_PARKING] or the address of the [Thread] in the frame of the current
    [park]; frames are numbered, since an address is only good while its frame
    is.  As in [Oneshot] every access to shared memory is one step, steps
    interleave in any order and memory is sequentially consistent.  A thread
    has one token that [unpark] sets and [park] takes; [std] also lets
    [thread::park] return without one. *)

From S2P Require Import Prelude.

(** The atomic pointer. *)
Inductive Ptr := Null | Skip | Th (g : nat).

(** [strong] is the strong count of the [Arc].  [pending] says that a value was
    sent since the parked thread last looked; it and [uaf] are not in memory. *)
Record Shared := mkShared { strong : nat; ptr : Ptr; token : bool; pending : bool; uaf : bool }.

Definition set_strong (s : Shared) (n : nat) : Shared := mkShared n (ptr s) (token s) (pending s) (uaf s).
Definition set_ptr (s : Shared) (p : Ptr) : Shared := mkShared (strong s) p (token s) (pending s) (uaf s).
Definition set_token (s : Shared) (b : bool) : Shared := mkShared (strong s) (ptr s) b (pending s) (uaf s).
Definition set_pending (s : Shared) (b : bool) : Shared := mkShared (strong s) (ptr s) (token s) b (uaf s).

(** Where an [Unparker] is: owned, in [unpark] before the swap, with the pointer
    it swapped out, with a clone of the [Thread]; the same in [drop]; gone. *)
Inductive UnparkerPc :=
| UOwned
| USwap
| UClone (g : nat)
| UUnpark (g : nat)
| UDrop
| UDClone (g : nat)
| UDUnpark (g : nat)
| UGone.

(** Where the waiting thread is: outside, outside after it looked for a value,
    and inside [park]: before the [compare_exchange], after it succeeded, parked,
    woken, after it failed, before the store and dropping the [n] [Arc]s it
    holds. *)
Inductive ParkerPc :=
| PIdle
| PChecked
| PCas (g : nat)
| PHeld (g : nat)
| PParked (g : nat)
| PWoke (g : nat)
| PFailed (g : nat)
| PStore (g n : nat)
| PRel (g n : nat).

(** The frame of [park] that is alive. *)
Definition frame (pc : ParkerPc) : option nat :=
  match pc with
  | PIdle | PChecked => None
  | PCas g | PHeld g | PParked g | PWoke g | PFailed g | PStore g _ | PRel g _ => Some g
  end.

Record Parking := mkParking { shared : Shared; frames : nat; parker : ParkerPc; unparkers : list UnparkerPc }.

(** [new]. *)
Definition new : Parking := mkParking (mkShared 1 Null false false false) 0 PIdle [UOwned].

(** [th.clone()] through the pointer to frame [g]. *)
Definition deref (pc : ParkerPc) (g : nat) (s : Shared) : Shared :=
  mkShared (strong s) (ptr s) (token s) (pending s) (uaf s || negb (bool_decide (frame pc = Some g))).

(** The next step of an unparker inside [unpark] or [drop]. *)
Definition unparker_step (p : ParkerPc) (s : Shared) (pc : UnparkerPc) : option (Shared * UnparkerPc) :=
  match pc with
  | USwap => Some (set_ptr s Skip, match ptr s with Th g => UClone g | _ => UOwned end)
  | UClone g => Some (deref p g s, UUnpark g)
  | UUnpark _ => Some (set_token s true, UOwned)
  | UDrop =>
      Some (set_strong s (strong s - 1),
            if strong s =? 1 then match ptr s with Th g => UDClone g | _ => UGone end else UGone)
  | UDClone g => Some (deref p g s, UDUnpark g)
  | UDUnpark _ => Some (set_token s true, UGone)
  | UOwned | UGone => None
  end.

(** [Weak::upgrade]. *)
Definition upgrade (s : Shared) : option Shared :=
  if strong s =? 0 then None else Some (set_strong s (strong s + 1)).

(** The next step of [park]; a parked thread without a token has none. *)
Definition parker_step (s : Shared) (pc : ParkerPc) : option (Shared * ParkerPc) :=
  match pc with
  | PCas g =>
      match ptr s with
      | Null => Some (set_ptr s (Th g), PHeld g)
      | _ => Some (s, PFailed g)
      end
  | PHeld g => Some (set_strong s (strong s - 1), if strong s =? 1 then PIdle else PParked g)
  | PParked g => if token s then Some (set_token s false, PWoke g) else None
  | PWoke g => match upgrade s with Some s => Some (s, PStore g 1) | None => Some (s, PIdle) end
  | PFailed g => match upgrade s with Some s => Some (s, PStore g 2) | None => Some (s, PRel g 1) end
  | PStore g n => Some (set_ptr s Null, PRel g n)
  | PRel g n => Some (set_strong s (strong s - 1), if n <=? 1 then PIdle else PRel g (n - 1))
  | PIdle | PChecked => None
  end.

(** What a thread may do next: [clone], [send] to a channel that takes the value
    or is closed, [unpark], [drop] and their steps; looking for a value, calling
    [park], its steps, and [thread::park] returning for no reason. *)
Inductive Act :=
| AClone (k : nat) | ASend (k : nat) (open : bool) | AUnpark (k : nat) | ADrop (k : nat) | AUnparker (k : nat)
| AReceive | APark | AParker | ASpurious.

Definition run_act (c : Parking) (a : Act) : option Parking :=
  let s := shared c in
  let owned k f := match unparkers c !! k with Some UOwned => Some (f k) | _ => None end in
  let unparker k s pc := mkParking s (frames c) (parker c) (<[k := pc]> (unparkers c)) in
  let moves s pc := mkParking s (frames c) pc (unparkers c) in
  match a with
  | AClone k => owned k (fun _ => mkParking (set_strong s (strong s + 1)) (frames c) (parker c) (unparkers c ++ [UOwned]))
  | ASend k open => owned k (fun k => if open then unparker k (set_pending s true) USwap else c)
  | AUnpark k => owned k (fun k => unparker k s USwap)
  | ADrop k => owned k (fun k => unparker k s UDrop)
  | AUnparker k =>
      match unparkers c !! k with
      | Some pc => (fun r => unparker k r.1 r.2) <$> unparker_step (parker c) s pc
      | None => None
      end
  | AReceive => match parker c with PIdle => Some (moves (set_pending s false) PChecked) | _ => None end
  | APark =>
      match parker c with
      | PChecked =>
          match upgrade s with
          | Some s => Some (mkParking s (S (frames c)) (PCas (frames c)) (unparkers c))
          | None => Some (moves s PIdle)
          end
      | _ => None
      end
  | AParker => (fun r => moves r.1 r.2) <$> parker_step s (parker c)
  | ASpurious => match parker c with PParked g => Some (moves s (PWoke g)) | _ => None end
  end.

Fixpoint run_acts (c : Parking) (l : list Act) : option Parking :=
  match l with
  | [] => Some c
  | a :: l => match run_act c a with Some c => run_acts c l | None => None end
  end.

(** ** Reachable states *)

(** With or without threads that wake for no reason. *)
Inductive reachable (spurious : bool) : Parking -> Prop :=
| reachable_new : reachable spurious new
| reachable_step c a c' :
    reachable spurious c -> (a = ASpurious -> spurious = true) -> run_act c a = Some c' -> reachable spurious c'.

(** What holds the [Arc]. *)
Definition counted (pc : UnparkerPc) : nat :=
  match pc with UOwned | USwap | UClone _ | UUnpark _ | UDrop => 1 | UDClone _ | UDUnpark _ | UGone => 0 end.
Definition held (pc : ParkerPc) : nat :=
  match pc with
  | PCas _ | PHeld _ | PFailed _ => 1
  | PStore _ n | PRel _ n => n
  | PIdle | PChecked | PParked _ | PWoke _ => 0
  end.

(** Unparkers about to swap, and those about to wake the thread. *)
Definition swapping (pc : UnparkerPc) : nat := match pc with USwap => 1 | _ => 0 end.
Definition waker (pc : UnparkerPc) : option nat :=
  match pc with UClone g | UUnpark g | UDClone g | UDUnpark g => Some g | _ => None end.
Definition wakes (g : nat) (pc : UnparkerPc) : nat :=
  match waker pc with Some g' => if g' =? g then 1 else 0 | None => 0 end.
Definition waking (pc : UnparkerPc) : nat := match waker pc with Some _ => 1 | None => 0 end.
Definition last_waking (pc : UnparkerPc) : nat := match pc with UDClone _ | UDUnpark _ => 1 | _ => 0 end.

(** The thread is waiting in, or on its way into, frame [g]. *)
Definition waits (pc : ParkerPc) : option nat := match pc with PHeld g | PParked g => Some g | _ => None end.
(** A value sent now has not been looked for. *)
Definition unseen (pc : ParkerPc) : bool :=
  match pc with PChecked | PCas _ | PHeld _ | PParked _ => true | _ => false end.

Record inv (c : Parking) : Prop := {
  inv_count : strong (shared c) = total counted (unparkers c) + held (parker c);
  inv_rel : match parker c with PStore _ n | PRel _ n => 0 < n | _ => True end;
  inv_wake g : waits (parker c) = Some g ->
    (ptr (shared c) = Th g /\ 0 < strong (shared c)) \/ token (shared c) = true \/ 0 < total (wakes g) (unparkers c);
  inv_pending : unseen (parker c) = true -> pending (shared c) = true ->
    ptr (shared c) = Skip \/ 0 < total swapping (unparkers c);
}.

(** A step of an unparker that only changes the memory. *)
Lemma inv_unparker c s k pc pc' :
  inv c -> unparkers c !! k = Some pc ->
  strong s + counted pc = strong (shared c) + counted pc' ->
  (forall g, waits (parker c) = Some g ->
     (ptr (shared c) = Th g /\ 0 < strong (shared c)) \/ token (shared c) = true \/ 0 < total (wakes g) (unparkers c) ->
     (ptr s = Th g /\ 0 < strong s) \/ token s = true \/ 0 < total (wakes g) (<[k := pc']> (unparkers c))) ->
  (pending s = true -> (pending (shared c) = true -> ptr (shared c) = Skip \/ 0 < total swapping (unparkers c)) ->
     ptr s = Skip \/ 0 < total swapping (<[k := pc']> (unparkers c))) ->
  inv (mkParking s (frames c) (parker c) (<[k := pc']> (unparkers c))).
Proof.
  intros [Hc Hr Hw Hp] Hk Hs Hwake Hpend. pose proof (total_insert counted _ _ _ pc' Hk) as T.
  constructor; cbn [shared parker unparkers]; [lia|done| |].
  - intros g Hg. by apply Hwake, Hw.
  - intros Hu Hpe. apply Hpend; [done|]. by apply Hp.
Qed.

Lemma unparker_step_inv c k pc r :
  inv c -> unparkers c !! k = Some pc -> unparker_step (parker c) (shared c) pc = Some r ->
  inv (mkParking r.1 (frames c) (parker c) (<[k := r.2]> (unparkers c))).
Proof.
  intros Hi Hk Hs. pose proof Hi as [Hc _ _ _]. pose proof (total_le counted _ _ _ Hk) as Lc.
  pose proof (fun g pc' => total_insert (wakes g) _ _ _ pc' Hk) as Tw.
  pose proof (fun pc' => total_insert swapping _ _ _ pc' Hk) as Ts.
  assert (Hkeep : forall g pc', (ptr (shared c) = Th g /\ 0 < strong (shared c)) \/ token (shared c) = true \/ 0 < total (wakes g) (unparkers c) ->
    wakes g pc <= wakes g pc' ->
    (ptr (shared c) = Th g /\ 0 < strong (shared c)) \/ token (shared c) = true \/ 0 < total (wakes g) (<[k := pc']> (unparkers c))).
  { intros g pc' [?|[?|?]] Hw; [by auto..|]. specialize (Tw g pc'). right; right. lia. }
  assert (Hswap : forall pc', swapping pc <= swapping pc' -> ptr (shared c) = Skip \/ 0 < total swapping (unparkers c) ->
    ptr (shared c) = Skip \/ 0 < total swapping (<[k := pc']> (unparkers c))).
  { intros pc' Hw [?|?]; [by left|right]. specialize (Ts pc'). lia. }
  destruct pc as [| |g| | |g| |]; cbn [unparker_step] in Hs; try done; injection Hs as <-; cbn [fst snd];
    (eapply inv_unparker; [done|exact Hk|..]); cbn [set_ptr set_strong set_token deref strong ptr token pending uaf counted];
    try (intros Hpe Hp; apply Hswap; [cbn; lia|by apply Hp]); try (intros ? _ ?; apply Hkeep; [done|by cbn]); try done; try by auto.
  - by destruct (ptr (shared c)).
  - intros g _ [[Hp Hst]|[?|Hw]]; [rewrite Hp|by auto|]; right; right.
    + specialize (Tw g (UClone g)). cbn [wakes waker] in Tw. rewrite Nat.eqb_refl in Tw. lia.
    + specialize (Tw g (match ptr (shared c) with Th g => UClone g | _ => UOwned end)). cbn [wakes waker] in Tw. lia.
  - cbn in Lc. destruct (Nat.eqb_spec (strong (shared c)) 1) as [He|He]; [destruct (ptr (shared c))|]; cbn; lia.
  - intros g _ [[Hp Hst]|[?|Hw]]; [|by auto|].
    + destruct (Nat.eqb_spec (strong (shared c)) 1) as [He|He]; [|left; split; [done|cbn in Lc; lia]]. right; right. rewrite Hp.
      specialize (Tw g (UDClone g)). cbn [wakes waker] in Tw. rewrite Nat.eqb_refl in Tw. lia.
    + right; right. match goal with |- 0 < total _ (<[_ := ?pc']> _) => specialize (Tw g pc') end.
      cbn [wakes waker] in Tw. lia.
Qed.

Lemma parker_step_inv c r :
  inv c -> parker_step (shared c) (parker c) = Some r -> inv (mkParking r.1 (frames c) r.2 (unparkers c)).
Proof.
  intros [Hc Hr Hw Hp] Hs. destruct (parker c) as [| |g|g|g|g|g|g n|g n] eqn:Hpc; cbn [parker_step] in Hs; try done.
  - destruct (ptr (shared c)) eqn:Hptr; injection Hs as <-; constructor; cbn -[total] in *; try done.
    + intros g' [=]. subst g'. left. split; [done|lia].
    + intros _ Hpe. destruct (Hp eq_refl Hpe) as [?|?]; [done|by right].
  - injection Hs as <-. cbn [fst snd]. destruct (Nat.eqb_spec (strong (shared c)) 1) as [He|He]; constructor; cbn -[total] in *; try done; try lia.
    + intros g' [=]. subst g'. destruct (Hw g eq_refl) as [[? ?]|?]; [left; split; [done|lia]|by right].
  - destruct (token (shared c)) eqn:Ht; [|done]. injection Hs as <-. by constructor.
  - unfold upgrade in Hs. destruct (Nat.eqb_spec (strong (shared c)) 0) as [He|He]; injection Hs as <-; constructor; cbn -[total] in *; try done; lia.
  - unfold upgrade in Hs. destruct (Nat.eqb_spec (strong (shared c)) 0) as [He|He]; injection Hs as <-; constructor; cbn -[total] in *; try done; lia.
  - injection Hs as <-. by constructor.
  - injection Hs as <-. cbn [fst snd]. destruct (Nat.leb_spec n 1); constructor; cbn -[total] in *; try done; lia.
Qed.

Lemma run_parking_act_inv c a c' : inv c -> run_act c a = Some c' -> inv c'.
Proof.
  intros Hi. pose proof Hi as [Hc Hr Hw Hp].
  assert (Hown : forall k pc, unparkers c !! k = Some UOwned -> counted pc = 1 -> waker pc = None ->
    inv (mkParking (shared c) (frames c) (parker c) (<[k := pc]> (unparkers c)))).
  { intros k pc Hk Hcn Hwk. pose proof (fun g => total_insert (wakes g) _ _ _ pc Hk) as Tw. unfold wakes at 2 4 in Tw. rewrite Hwk in Tw.
    pose proof (total_insert swapping _ _ _ pc Hk) as Ts. cbn in Tw, Ts.
    eapply inv_unparker; [done|exact Hk|cbn; lia|..].
    - intros g _ [?|[?|?]]; [by auto..|]. specialize (Tw g). right; right. lia.
    - intros Hpe HP. destruct (HP Hpe) as [?|?]; [by left|right]. lia. }
  destruct a as [k|k open|k|k|k| | | |]; cbn [run_act].
  - destruct (unparkers c !! k) as [[]|] eqn:Hk; try done. intros [= <-]. pose proof (total_le counted _ _ _ Hk) as Lc. cbn in Lc.
    constructor; cbn [shared parker unparkers set_strong strong ptr token pending]; rewrite ?total_app; try done; cbn [counted]; try lia.
    + intros g Hg. rewrite total_app. destruct (Hw g Hg) as [[? ?]|[?|?]]; [left; split; [done|lia]|by auto|right; right; lia].
    + intros Hu Hpe. destruct (Hp Hu Hpe); [by left|right; lia].
  - destruct (unparkers c !! k) as [[]|] eqn:Hk; try done. destruct open; intros [= <-]; [|done].
    destruct (Hown k USwap Hk eq_refl eq_refl) as [Hc' Hr' Hw' Hp']. constructor; try done.
    intros _ _. right. pose proof (total_insert swapping _ _ _ USwap Hk) as Ts. cbn -[total] in *. lia.
  - destruct (unparkers c !! k) as [[]|] eqn:Hk; try done. intros [= <-]. by apply Hown.
  - destruct (unparkers c !! k) as [[]|] eqn:Hk; try done. intros [= <-]. by apply Hown.
  - destruct (unparkers c !! k) as [pc|] eqn:Hk; [|done].
    destruct (unparker_step (parker c) (shared c) pc) as [r|] eqn:Hs; [|done]. intros [= <-]. by eapply unparker_step_inv.
  - destruct (parker c) eqn:Hpc; try done. intros [= <-]. by constructor.
  - destruct (parker c) eqn:Hpc; try done. unfold upgrade. destruct (Nat.eqb_spec (strong (shared c)) 0); intros [= <-]; constructor; cbn -[total] in *; try done; lia.
  - destruct (parker_step (shared c) (parker c)) as [r|] eqn:Hs; [|done]. intros [= <-]. by apply parker_step_inv.
  - destruct (parker c) eqn:Hpc; try done. intros [= <-]. by constructor.
Qed.

Lemma new_inv : inv new.
Proof. by constructor. Qed.

Lemma reachable_parking_inv b c : reachable b c -> inv c.
Proof. induction 1 as [|c a c' _ IH _ Ha]; [apply new_inv|by eapply run_parking_act_inv]. Qed.

(** ** Frames outlive their pointers *)

(** The address of a waiting frame is where unparkers find it. *)
Definition armed (s : Shared) : nat := match ptr s with Th _ => if strong s =? 0 then 0 else 1 | _ => 0 end.

(** As long as threads wake for a reason only, what will wake a waiting thread,
    be it the pointer, an unparker on its way or the token, is exactly one
    thing; and there is none for a thread that does not wait, unless no unparker
    is left. *)
Record safe (c : Parking) : Prop := {
  safe_waits g : waits (parker c) = Some g ->
    total waking (unparkers c) + (if token (shared c) then 1 else 0) + armed (shared c) = 1 /\
    total (wakes g) (unparkers c) = total waking (unparkers c) /\
    (forall g', ptr (shared c) = Th g' -> g' = g);
  safe_other : waits (parker c) = None ->
    total waking (unparkers c) = 0 /\ armed (shared c) = 0 /\ (token (shared c) = true -> strong (shared c) = 0);
  safe_last : 0 < total last_waking (unparkers c) -> strong (shared c) = 0;
  safe_uaf : uaf (shared c) = false;
}.

Lemma wakes_waking g pc : wakes g pc <= waking pc.
Proof. unfold wakes, waking. destruct (waker pc) as [g'|]; [destruct (g' =? g)|]; lia. Qed.

Lemma waking_counted l : total waking l <= total counted l + total last_waking l.
Proof.
  induction l as [|pc l IH]; [done|]. unfold total in *. cbn [sum_list_with].
  assert (waking pc <= counted pc + last_waking pc) by (destruct pc; cbn; lia). lia.
Qed.

(** An unparker with the address of a frame wakes the thread that waits in it. *)
Lemma safe_waker c k pc g : safe c -> unparkers c !! k = Some pc -> waker pc = Some g ->
  waits (parker c) = Some g /\ token (shared c) = false /\ armed (shared c) = 0 /\ total waking (unparkers c) = 1.
Proof.
  intros [Hw Ho _ _] Hk Hg. pose proof (total_le waking _ _ _ Hk) as L. unfold waking at 1 in L. rewrite Hg in L.
  destruct (waits (parker c)) as [g0|] eqn:Hwt; [|destruct (Ho eq_refl); lia].
  destruct (Hw g0 eq_refl) as (E & Ewk & _). destruct (token (shared c)); [lia|].
  split; [|split_and!; [done|lia|lia]]. f_equal.
  pose proof (total_gap (wakes g0) waking _ _ _ (wakes_waking g0) Hk) as Hle.
  unfold waking at 1, wakes at 2 in Hle. rewrite Hg in Hle. destruct (Nat.eqb_spec g g0); [done|lia].
Qed.

(** A step of an unparker between states that differ in what may wake. *)
Lemma safe_unparker c s k pc pc' :
  safe c -> unparkers c !! k = Some pc ->
  (forall g, waits (parker c) = Some g ->
     waking pc' + (if token s then 1 else 0) + armed s = waking pc + (if token (shared c) then 1 else 0) + armed (shared c) /\
     wakes g pc' + waking pc = waking pc' + wakes g pc /\ (forall g', ptr s = Th g' -> ptr (shared c) = Th g')) ->
  (waits (parker c) = None ->
     waking pc' = 0 /\ armed s <= armed (shared c) /\ (token s = true -> token (shared c) = true /\ strong s <= strong (shared c))) ->
  (0 < last_waking pc' \/ strong (shared c) = 0 -> strong s = 0) ->
  uaf s = false ->
  safe (mkParking s (frames c) (parker c) (<[k := pc']> (unparkers c))).
Proof.
  intros Hsafe Hk Hw' Ho' Hl' Hu. pose proof Hsafe as [Hw Ho Hl _].
  pose proof (total_insert waking _ _ _ pc' Hk) as Tk. pose proof (total_le waking _ _ _ Hk) as Lk.
  pose proof (total_insert last_waking _ _ _ pc' Hk) as Tl.
  constructor; cbn [shared parker unparkers]; [| | |done].
  - intros g Hg. destruct (Hw g Hg) as (E & Ew & Eg). destruct (Hw' g Hg) as (F & Fw & Fg).
    pose proof (total_insert (wakes g) _ _ _ pc' Hk) as Tw. split; [lia|]. split; [lia|]. intros g' Hp. by apply Eg, Fg.
  - intros Hn. destruct (Ho Hn) as (E & Ea & Et). destruct (Ho' Hn) as (F & Fa & Ft).
    split; [lia|]. split; [lia|]. intros Ht. destruct (Ft Ht) as [Ht' Hs]. specialize (Et Ht'). lia.
  - intros Hlw. apply Hl'. destruct (decide (0 < last_waking pc')); [by left|right]. apply Hl. lia.
Qed.

Lemma waits_frame pc g : waits pc = Some g -> frame pc = Some g.
Proof. by destruct pc. Qed.

(** Cloning the [Thread] of a waiting frame. *)
Lemma clone_safe c k pc pc' g :
  safe c -> unparkers c !! k = Some pc -> waker pc = Some g -> waker pc' = Some g -> last_waking pc' = last_waking pc ->
  safe (mkParking (deref (parker c) g (shared c)) (frames c) (parker c) (<[k := pc']> (unparkers c))).
Proof.
  intros Hsafe Hk Hg Hg' Hlw. destruct (safe_waker c k pc g Hsafe Hk Hg) as (Hwt & Ht & Ha & _).
  pose proof (total_le last_waking _ _ _ Hk) as Ll.
  eapply safe_unparker; [done|exact Hk|..]; unfold waking, wakes; rewrite ?Hg, ?Hg'.
  - intros g0 _. split_and!; [done|lia|done].
  - congruence.
  - cbn [deref strong]. intros [Hp|?]; [|done]. apply (safe_last _ Hsafe). lia.
  - cbn [deref uaf]. rewrite (waits_frame _ _ Hwt), bool_decide_eq_true_2 by done. by rewrite (safe_uaf _ Hsafe).
Qed.

(** Waking it. *)
Lemma unpark_safe c k pc pc' g :
  safe c -> unparkers c !! k = Some pc -> waker pc = Some g -> waker pc' = None -> last_waking pc' = 0 ->
  safe (mkParking (set_token (shared c) true) (frames c) (parker c) (<[k := pc']> (unparkers c))).
Proof.
  intros Hsafe Hk Hg Hg' Hlw. destruct (safe_waker c k pc g Hsafe Hk Hg) as (Hwt & Ht & Ha & _).
  eapply safe_unparker; [done|exact Hk|..]; unfold waking, wakes; rewrite ?Hg, ?Hg'.
  - intros g0 Hg0. change (armed (set_token (shared c) true)) with (armed (shared c)). rewrite Ht.
    assert (g0 = g) as -> by congruence. rewrite Nat.eqb_refl. by split_and!.
  - congruence.
  - cbn [set_token strong]. intros [?|?]; [lia|done].
  - apply (safe_uaf _ Hsafe).
Qed.

Lemma swap_safe c k :
  inv c -> safe c -> unparkers c !! k = Some USwap ->
  safe (mkParking (set_ptr (shared c) Skip) (frames c) (parker c)
    (<[k := match ptr (shared c) with Th g => UClone g | _ => UOwned end]> (unparkers c))).
Proof.
  intros Hi Hsafe Hk. pose proof (inv_count _ Hi) as Hc. pose proof (total_le counted _ _ _ Hk) as Lc. cbn in Lc.
  assert (Hst : (strong (shared c) =? 0) = false) by (apply Nat.eqb_neq; lia).
  eapply safe_unparker; [done|exact Hk|..].
  - intros g Hg. destruct (safe_waits _ Hsafe g Hg) as (E & _ & Eg). unfold armed. cbn [set_ptr ptr token strong].
    rewrite Hst. destruct (ptr (shared c)) as [| |g'] eqn:Hp; [by split_and!..|]. rewrite (Eg g' eq_refl). cbn. rewrite Nat.eqb_refl. by split_and!; try lia.
  - intros Hn. destruct (safe_other _ Hsafe Hn) as (_ & Ea & _). unfold armed in *. rewrite Hst in Ea. cbn.
    destruct (ptr (shared c)); [auto with lia..|done].
  - cbn [set_ptr strong]. intros [Hlw|?]; [|done]. destruct (ptr (shared c)); cbn in Hlw; lia.
  - apply (safe_uaf _ Hsafe).
Qed.

Lemma drop_safe c k :
  inv c -> safe c -> unparkers c !! k = Some UDrop ->
  safe (mkParking (set_strong (shared c) (strong (shared c) - 1)) (frames c) (parker c)
    (<[k := if strong (shared c) =? 1 then match ptr (shared c) with Th g => UDClone g | _ => UGone end else UGone]> (unparkers c))).
Proof.
  intros Hi Hsafe Hk. pose proof (inv_count _ Hi) as Hc. pose proof (total_le counted _ _ _ Hk) as Lc. cbn in Lc.
  assert (Hst : (strong (shared c) =? 0) = false) by (apply Nat.eqb_neq; lia).
  eapply safe_unparker; [done|exact Hk|..].
  - intros g Hg. destruct (safe_waits _ Hsafe g Hg) as (E & _ & Eg). unfold armed. cbn [set_strong ptr token strong]. rewrite Hst.
    destruct (Nat.eqb_spec (strong (shared c)) 1) as [He|He].
    + rewrite He. destruct (ptr (shared c)) as [| |g'] eqn:Hp; [by split_and!..|]. rewrite (Eg g' eq_refl). cbn. rewrite Nat.eqb_refl. by split_and!; try lia.
    + rewrite (proj2 (Nat.eqb_neq (strong (shared c) - 1) 0)) by lia. by split_and!.
  - intros Hn. destruct (safe_other _ Hsafe Hn) as (_ & Ea & _). unfold armed in *. rewrite Hst in Ea. cbn [set_strong ptr token strong].
    destruct (ptr (shared c)); [..|done]; destruct (_ =? 1); cbn; auto with lia.
  - cbn [set_strong strong]. destruct (Nat.eqb_spec (strong (shared c)) 1) as [He|He]; [lia|]. cbn. lia.
  - apply (safe_uaf _ Hsafe).
Qed.

Lemma unparker_step_safe c k pc r :
  inv c -> safe c -> unparkers c !! k = Some pc -> unparker_step (parker c) (shared c) pc = Some r ->
  safe (mkParking r.1 (frames c) (parker c) (<[k := r.2]> (unparkers c))).
Proof.
  intros Hi Hs Hk. destruct pc; cbn [unparker_step]; try done; intros [= <-]; cbn [fst snd].
  - by apply swap_safe.
  - by eapply clone_safe.
  - by eapply unpark_safe.
  - by apply drop_safe.
  - by eapply clone_safe.
  - by eapply unpark_safe.
Qed.

Lemma parker_step_safe c r :
  inv c -> safe c -> parker_step (shared c) (parker c) = Some r -> safe (mkParking r.1 (frames c) r.2 (unparkers c)).
Proof.
  intros [Hc Hr _ _] [Hw Ho Hl Hu] Hs. pose proof (waking_counted (unparkers c)) as Lw.
  destruct (parker c) as [| |g|g|g|g|g|g n|g n]; cbn [parker_step] in Hs; try done; cbn -[total armed] in *.
  - destruct (Ho eq_refl) as (E & Ea & Et). destruct (ptr (shared c)) eqn:Hp; injection Hs as <-; [|by constructor..].
    constructor; cbn -[total armed]; try done. intros g' [=]. subst g'.
    assert (token (shared c) = false) as -> by (destruct (token (shared c)); [specialize (Et eq_refl); lia|done]).
    unfold armed. cbn. rewrite (proj2 (Nat.eqb_neq _ _)) by lia. pose proof (total_mono _ _ (unparkers c) (wakes_waking g)).
    split_and!; [lia|lia|congruence].
  - destruct (Hw g eq_refl) as (E & Ew & Eg). injection Hs as <-. destruct (Nat.eqb_spec (strong (shared c)) 1) as [He|He].
    + constructor; cbn -[total armed]; try done; try lia. intros _. unfold armed. cbn. rewrite He.
      split_and!; [|by destruct (ptr (shared c))|done]. destruct (decide (0 < total last_waking (unparkers c))) as [Hlw|]; [|lia].
      specialize (Hl Hlw). lia.
    + constructor; cbn -[total armed]; try done; [|lia]. intros g' [=]. subst g'. unfold armed in *. cbn.
      rewrite (proj2 (Nat.eqb_neq (strong (shared c)) 0)) in E by lia. rewrite (proj2 (Nat.eqb_neq (strong (shared c) - 1) 0)) by lia. by split_and!.
  - destruct (Hw g eq_refl) as (E & Ew & Eg). destruct (token (shared c)); [|done]. injection Hs as <-.
    constructor; cbn -[total armed]; try done. intros _. unfold armed in *. cbn in *. split_and!; done || lia.
  - destruct (Ho eq_refl) as (E & Ea & Et). unfold upgrade in Hs.
    destruct (Nat.eqb_spec (strong (shared c)) 0) as [He|He]; injection Hs as <-; [by constructor|].
    constructor; cbn -[total armed]; try done; [|lia]. intros _. unfold armed in *. cbn. rewrite (proj2 (Nat.eqb_neq _ _)) in Ea by done.
    split_and!; [done|by destruct (ptr (shared c))|intros Ht; specialize (Et Ht); lia].
  - destruct (Ho eq_refl) as (E & Ea & Et). unfold upgrade in Hs.
    destruct (Nat.eqb_spec (strong (shared c)) 0) as [He|He]; injection Hs as <-; [by constructor|].
    constructor; cbn -[total armed]; try done; [|lia]. intros _. unfold armed in *. cbn. rewrite (proj2 (Nat.eqb_neq _ _)) in Ea by done.
    split_and!; [done|by destruct (ptr (shared c))|intros Ht; specialize (Et Ht); lia].
  - destruct (Ho eq_refl) as (E & Ea & Et). injection Hs as <-. by constructor.
  - destruct (Ho eq_refl) as (E & Ea & Et). injection Hs as <-. unfold armed in *. rewrite (proj2 (Nat.eqb_neq _ _)) in Ea by lia.
    assert (Ht : token (shared c) = false) by (destruct (token (shared c)); [specialize (Et eq_refl); lia|done]).
    destruct (Nat.leb_spec n 1); (constructor; cbn -[total armed]; try done; [|lia]); intros _; rewrite Ht; unfold armed; cbn;
      (split_and!; [done|by destruct (ptr (shared c))|done]).
Qed.

Lemma run_act_safe c a c' : a <> ASpurious -> inv c -> safe c -> run_act c a = Some c' -> safe c'.
Proof.
  intros Hns Hi Hsafe. pose proof (inv_count _ Hi) as Hc. pose proof Hsafe as [Hw Ho Hl Hu].
  assert (Hown : forall k pc s, unparkers c !! k = Some UOwned -> waker pc = None -> last_waking pc = 0 ->
    strong s = strong (shared c) -> ptr s = ptr (shared c) -> token s = token (shared c) -> uaf s = uaf (shared c) ->
    safe (mkParking s (frames c) (parker c) (<[k := pc]> (unparkers c)))).
  { intros k pc s Hk Hpc Hlw Es Ep Et Eu. eapply safe_unparker; [done|exact Hk|..]; unfold waking, wakes, armed; rewrite ?Hpc, ?Es, ?Ep, ?Et.
    - intros g _. by split_and!.
    - intros _. by split_and!.
    - intros [?|?]; [lia|done].
    - congruence. }
  destruct a as [k|k open|k|k|k| | | |]; cbn [run_act]; try done.
  - destruct (unparkers c !! k) as [[]|] eqn:Hk; try done. intros [= <-]. pose proof (total_le counted _ _ _ Hk) as Lc. cbn in Lc.
    assert (Ha : armed (set_strong (shared c) (strong (shared c) + 1)) = armed (shared c)).
    { unfold armed. cbn. rewrite (proj2 (Nat.eqb_neq (strong (shared c)) 0)), (proj2 (Nat.eqb_neq (_ + 1) 0)) by lia. done. }
    constructor; cbn [shared parker unparkers token ptr strong uaf set_strong]; rewrite ?Ha, ?total_app; cbn [waking waker last_waking]; rewrite ?Nat.add_0_r; try done.
    + intros g Hg. rewrite total_app. cbn [wakes waker]. rewrite Nat.add_0_r. by apply Hw.
    + intros Hn. destruct (Ho Hn) as (? & ? & Et). split_and!; [done|done|]. intros Ht. specialize (Et Ht). lia.
    + intros Hlw. specialize (Hl Hlw). lia.
  - destruct (unparkers c !! k) as [[]|] eqn:Hk; try done. destruct open; intros [= <-]; [by apply Hown|done].
  - destruct (unparkers c !! k) as [[]|] eqn:Hk; try done. intros [= <-]. by apply Hown.
  - destruct (unparkers c !! k) as [[]|] eqn:Hk; try done. intros [= <-]. by apply Hown.
  - destruct (unparkers c !! k) as [pc|] eqn:Hk; [|done].
    destruct (unparker_step (parker c) (shared c) pc) as [r|] eqn:Hs; [|done]. intros [= <-]. by eapply unparker_step_safe.
  - destruct (parker c) eqn:Hpc; try done. intros [= <-]. by constructor.
  - destruct (parker c) eqn:Hpc; try done. unfold upgrade. destruct (Nat.eqb_spec (strong (shared c)) 0) as [He|He]; intros [= <-]; [by constructor|].
    destruct (Ho eq_refl) as (E & Ea & Et). constructor; cbn -[total armed]; try done; [|intros Hlw; specialize (Hl Hlw); lia].
    intros _. unfold armed in *. cbn. rewrite (proj2 (Nat.eqb_neq _ _)) in Ea by done.
    split_and!; [done|by destruct (ptr (shared c))|intros Ht; specialize (Et Ht); lia].
  - destruct (parker_step (shared c) (parker c)) as [r|] eqn:Hs; [|done]. intros [= <-]. by apply parker_step_safe.
Qed.

Lemma reachable_safe c : reachable false c -> safe c.
Proof.
  induction 1 as [|c a c' Hr IH Hns Ha]; [by constructor; cbn; auto with lia|].
  eapply run_act_safe; [|by eapply reachable_parking_inv|exact IH|exact Ha]. intros Hs. by specialize (Hns Hs).
Qed.

(** ** Theorems *)

Lemma waker_runs c k pc g g' :
  parker c = PParked g -> unparkers c !! k = Some pc -> waker pc = Some g' ->
  exists n c', n <= 2 /\ run_acts c (replicate n (AUnparker k) ++ [AParker]) = Some c' /\ parker c' = PWoke g.
Proof.
  intros Hpc Hk Hwk. pose proof (lookup_lt_Some _ _ _ Hk) as Hlt.
  set (n := match pc with UClone _ | UDClone _ => 2 | _ => 1 end).
  assert (Hrun : parker <$> run_acts c (replicate n (AUnparker k) ++ [AParker]) = Some (PWoke g)).
  { destruct pc; try done; cbn [n replicate app run_acts run_act];
      repeat (rewrite ?Hk, ?list_lookup_insert_eq by (rewrite ?length_insert; done);
        cbn [fmap option_fmap option_map unparker_step fst snd unparkers shared parker frames parker_step set_token deref token]; rewrite ?Hpc);
      done. }
  destruct (run_acts c _) as [c'|] eqn:Hr; [|done]. injection Hrun as Hp. exists n, c'. split; [by destruct pc; cbn; lia|done].
Qed.

(** C19: No wakeup is lost, also if threads wake for no reason: when the thread is
    parked although a value was sent since it last looked, or all unparkers are
    dropped, an unparker is on its way that within three steps of its own lets
    the thread go on. *)
Theorem no_lost_wakeup spurious c g :
  reachable spurious c -> parker c = PParked g ->
  pending (shared c) = true \/ total counted (unparkers c) = 0 ->
  exists k n c', n <= 3 /\ run_acts c (replicate n (AUnparker k) ++ [AParker]) = Some c' /\ parker c' = PWoke g.
Proof.
  intros [Hc _ Hw Hp]%reachable_parking_inv Hpc Hwhy. rewrite Hpc in *. cbn [held waits unseen] in *.
  destruct (Hw g eq_refl) as [[Hptr Hst]|[Ht|Hwk]].
  - destruct Hwhy as [Hpe|H0]; [|lia]. destruct (Hp eq_refl Hpe) as [?|(k & pc & Hk & Hsw)%total_pos]; [congruence|].
    destruct pc; cbn in Hsw; try lia. pose proof (lookup_lt_Some _ _ _ Hk) as Hlt.
    set (c1 := mkParking (set_ptr (shared c) Skip) (frames c) (parker c) (<[k := UClone g]> (unparkers c))).
    destruct (waker_runs c1 k (UClone g) g g Hpc (list_lookup_insert_eq _ _ _ Hlt) eq_refl) as (n & c' & Hn & Hr & Hpc').
    exists k, (S n), c'. split; [lia|]. split; [|done]. cbn [replicate app run_acts run_act]. rewrite Hk. cbn. by rewrite Hptr.
  - exists 0, 0. eexists. split; [lia|]. cbn [replicate app run_acts run_act]. rewrite Hpc. cbn. rewrite Ht. by split.
  - apply total_pos in Hwk as (k & pc & Hk & Hwk). unfold wakes in Hwk. destruct (waker pc) as [g'|] eqn:Hwp; [|lia].
    destruct (waker_runs c k pc g g' Hpc Hk Hwp) as (n & c' & Hn & Hr & Hpc'). exists k, n, c'. split; [lia|done].
Qed.

(** As long as threads only wake for a reason, no unparker ever uses the
    address of a frame that is gone, and a thread that waits has exactly one
    thing that can wake it. *)
Theorem frames_outlive_pointers c :
  reachable false c ->
  uaf (shared c) = false /\
  forall g, waits (parker c) = Some g ->
    total waking (unparkers c) + (if token (shared c) then 1 else 0) + armed (shared c) = 1.
Proof. intros [Hw _ _ Hu]%reachable_safe. split; [done|]. intros g Hg. by apply Hw in Hg as (? & _). Qed.

(** ** Witnesses *)

Definition run_from (l : list Act) : option Parking := run_acts new l.

Lemma run_parking_reachable b l c c' :
  reachable b c -> Forall (fun a => a = ASpurious -> b = true) l -> run_acts c l = Some c' -> reachable b c'.
Proof.
  intros Hr Hl. revert c Hr. induction Hl as [|a l Ha Hl IH]; intros c Hr; cbn [run_acts]; [by intros [= <-]|].
  destruct (run_act c a) as [c1|] eqn:Hrun; [|done]. apply IH. by eapply reachable_step.
Qed.

(** Parked, with a value sent but not announced. *)
Definition sample_parked : list Act := [AReceive; APark; AParker; AParker; ASend 0 true].

Lemma no_lost_wakeup_witness :
  exists c, run_from sample_parked = Some c /\
  exists k n c', n <= 3 /\ run_acts c (replicate n (AUnparker k) ++ [AParker]) = Some c' /\ parker c' = PWoke 0.
Proof.
  eexists. split; [reflexivity|].
  apply (no_lost_wakeup false _ 0); [|reflexivity|left; reflexivity].
  eapply (run_parking_reachable false sample_parked new); [constructor|by repeat (apply Forall_cons_2; [done|])|reflexivity].
Defined.

Lemma frames_outlive_pointers_witness : exists c, run_from sample_parked = Some c /\ uaf (shared c) = false.
Proof.
  eexists. split; [reflexivity|].
  refine (proj1 (frames_outlive_pointers _ _)).
  eapply (run_parking_reachable false sample_parked new); [constructor|by repeat (apply Forall_cons_2; [done|])|reflexivity].
Defined.

(** But [thread::park] may return for no reason while an unparker already holds
    the address, and then the frame is gone when it is used. *)
Definition sample_spurious : list Act :=
  [AReceive; APark; AParker; AParker; AUnpark 0; AUnparker 0; ASpurious; AParker; AParker; AParker; AUnparker 0].

Lemma spurious_wakeup_dangles :
  exists c, run_from sample_spurious = Some c /\ reachable true c /\ uaf (shared c) = true.
Proof.
  destruct (run_from sample_spurious) as [c|] eqn:Hr; [|vm_compute in Hr; discriminate Hr].
  exists c. split; [done|]. split; [|by vm_compute in Hr; injection Hr as <-].
  apply (run_parking_reachable true sample_spurious new); [constructor| |exact Hr]. by repeat (apply Forall_cons_2; [done|]).
Qed.
