(* ===== verification/Channels.v ===== *)
(** * Channels between handlers and the program

    [src/client/handler/channel.rs] and the senders of its [oneshot] and
    [parker]: the channels that a [ChannelSpec] makes, boxed senders, and the
    memory their receivers share with them.  Operations here are whole, one
    after the other; [Oneshot.v] and [Parker.v] have their interleavings.  The
    channels of [tokio] are parameters. *)

From S2P Require Import Prelude Handlers.
From S2P Require Oneshot Parker.

(** ** The oneshot channel of [SyncChannels] *)

(** [Unparker<Option<oneshot::Sender<T>>>] with what its receiver and parker
    see; [taken] is whether the [Option] is [None]. *)
Record SyncOneshot (T : Type) := mkSync { chan : Oneshot.Channel (T := T); taken : bool; parking : Parker.Parking }.
Arguments mkSync {T} chan taken parking.
Arguments chan {T} s.
Arguments taken {T} s.
Arguments parking {T} s.

Section SyncOneshot.
Context {T : Type}.
Abbreviation Sync := (SyncOneshot T).

Definition sync_new : Sync := mkSync Oneshot.channel false Parker.new.

(** A sender that runs to the end. *)
Definition run_sender (pc : Oneshot.SenderPc) (c : Oneshot.Channel (T := T)) : Oneshot.Channel :=
  let '(i, pc) := Oneshot.finish_sender 5 (Oneshot.inner c) pc in
  Oneshot.mkChannel i (Oneshot.receiver c) (<[0 := pc]> (Oneshot.senders c)).

(** [send] on the [Option]: the value is stored if the receiver is there and
    nothing was before. *)
Definition option_send (value : T) (c : Sync) : ControlFlow Sent * Sync :=
  if taken c then (Break Closed, c)
  else
    let i := Oneshot.inner (chan c) in
    let ok := Oneshot.recver i && Oneshot.is_empty i in
    (Break (if ok then SentOk else Closed), mkSync (run_sender (Oneshot.SSend value) (chan c)) true (parking c)).

Definition option_may_send (c : Sync) : bool :=
  negb (taken c) && negb (Oneshot.is_closed (Oneshot.inner (chan c))).

(** An unparker that runs to the end. *)
Fixpoint finish_unparker (fuel : nat) (p : Parker.ParkerPc) (s : Parker.Shared) (pc : Parker.UnparkerPc)
    : Parker.Shared * Parker.UnparkerPc :=
  match fuel with
  | 0 => (s, pc)
  | S fuel =>
      match Parker.unparker_step p s pc with
      | Some (s, pc) => finish_unparker fuel p s pc
      | None => (s, pc)
      end
  end.

Definition run_unparker (pc : Parker.UnparkerPc) (s : Parker.Shared) (c : Parker.Parking) : Parker.Parking :=
  let '(s, pc) := finish_unparker 3 (Parker.parker c) s pc in
  Parker.mkParking s (Parker.frames c) (Parker.parker c) (<[0 := pc]> (Parker.unparkers c)).

(** [Unparker::unpark] after a value was sent. *)
Definition unpark (c : Parker.Parking) : Parker.Parking :=
  run_unparker Parker.USwap (Parker.set_pending (Parker.shared c) true) c.

(** [Unparker]'s [send]. *)
Definition sync_send (value : T) (c : Sync) : ControlFlow Sent * Sync :=
  let (result, c) := option_send value c in
  match result with
  | Break Closed => (result, c)
  | _ => (result, mkSync (chan c) (taken c) (unpark (parking c)))
  end.

(** [Unparker]'s [drop], and then that of the sender it wraps. *)
Definition sync_drop (c : Sync) : Sync :=
  let parking := run_unparker Parker.UDrop (Parker.shared (parking c)) (parking c) in
  if taken c then mkSync (chan c) true parking else mkSync (run_sender Oneshot.SDrop (chan c)) true parking.

(** [park], which blocks if [None] is the answer, since nobody else runs. *)
Fixpoint finish_parker (fuel : nat) (s : Parker.Shared) (pc : Parker.ParkerPc) : option Parker.Shared :=
  match pc with
  | Parker.PIdle => Some s
  | _ =>
      match fuel with
      | 0 => None
      | S fuel => match Parker.parker_step s pc with Some (s, pc) => finish_parker fuel s pc | None => None end
      end
  end.

Definition park (c : Parker.Parking) : option Parker.Parking :=
  match Parker.upgrade (Parker.shared c) with
  | None => Some c
  | Some s =>
      (fun s => Parker.mkParking s (S (Parker.frames c)) Parker.PIdle (Parker.unparkers c)) <$>
        finish_parker 6 s (Parker.PCas (Parker.frames c))
  end.

(** [recv_now]. *)
Definition recv_now (c : Oneshot.Channel (T := T)) : option T * Oneshot.Channel :=
  let '(i, pc) := Oneshot.finish_receiver 4 (Oneshot.inner c) Oneshot.ROwned in
  (Oneshot.got pc, Oneshot.mkChannel i pc (Oneshot.senders c)).

(** [Receiver::recv] with the channel's parker; [None] if it blocks. *)
Definition sync_recv (c : Sync) : option (option T * Sync) :=
  let received parking := let (v, ch) := recv_now (chan c) in (v, mkSync ch (taken c) parking) in
  if Oneshot.is_empty (Oneshot.inner (chan c)) then received <$> park (parking c) else Some (received (parking c)).

(** Dropping the receiver, which takes the steps of [recv_now]. *)
Definition sync_close (c : Sync) : Sync := mkSync (recv_now (chan c)).2 (taken c) (parking c).
End SyncOneshot.

(** ** The channels of [tokio] *)

(** What the source uses: a channel with its sender and receiver, as one shared
    object; [oneshot_send] and [unbounded_send] are whether [send] is [Ok], the
    former uses up its sender, and [upgrade] is whether a weak sender still has
    a channel. *)
Class Tokio (T O Q : Type) := {
  oneshot_channel : O;
  oneshot_send : T -> O -> bool * O;
  oneshot_drop : O -> O;
  unbounded_channel : Q;
  unbounded_send : T -> Q -> bool * Q;
  unbounded_drop : Q -> Q;
  upgrade : Q -> bool;
}.

Section Tokio.
Context {T O Q : Type} `{Tokio T O Q}.

(** [Option<tokio::sync::oneshot::Sender<T>>]. *)
Record TokioOneshot := mkTokioOneshot { tsender : bool; tchan : O }.

Definition tokio_new : TokioOneshot := mkTokioOneshot true oneshot_channel.
Definition tokio_send (value : T) (c : TokioOneshot) : ControlFlow Sent * TokioOneshot :=
  if tsender c then
    let (ok, ch) := oneshot_send value (tchan c) in
    (Break (if ok then SentOk else Closed), mkTokioOneshot false ch)
  else (Break Closed, c).
Definition tokio_drop (c : TokioOneshot) : TokioOneshot :=
  if tsender c then mkTokioOneshot false (oneshot_drop (tchan c)) else c.

(** [UnboundedSender]. *)
Definition unbounded_sender_send (value : T) (q : Q) : ControlFlow Sent * Q :=
  let (ok, q) := unbounded_send value q in ((if ok then Continue else Break Closed), q).

(** [WeakUnboundedSender]; the sender it is upgraded to is dropped in the end,
    which closes nothing, since another one is there. *)
Definition weak_send (value : T) (q : Q) : ControlFlow Sent * Q :=
  if upgrade q then
    let (ok, q) := unbounded_send value q in ((if ok then Continue else Break Closed), q)
  else (Break Closed, q).
End Tokio.
Arguments TokioOneshot O : clear implicits.

(** ** Boxed senders *)

(** [Box<dyn Sender<Value = T>>]: what it does to the shared memory. *)
Record DynSender (W T : Type) := mkDyn {
  dyn_send : T -> W -> ControlFlow Sent * W;
  dyn_may_send : W -> bool;
  dyn_drop : W -> W;
}.
Arguments mkDyn {W T} dyn_send dyn_may_send dyn_drop.
Arguments dyn_send {W T} d.
Arguments dyn_may_send {W T} d.
Arguments dyn_drop {W T} d.

Definition dyn_sender {W T} : Sender (DynSender W T * W) T := {|
  send s value := let (r, w) := dyn_send s.1 value s.2 in (r, (s.1, w));
  may_send s := dyn_may_send s.1 s.2;
|}.
#[global] Existing Instance dyn_sender.

(** Boxed [ClosedSender]. *)
Definition dyn_closed {W T} : DynSender W T := mkDyn (fun _ w => (Break Closed, w)) (fun _ => false) (fun w => w).

(** ** The shared memory *)

(** Values of the types that go through channels. *)
Class Value (V T : Type) := {
  into : T -> V;
  from : V -> option T;
  from_into t : from (into t) = Some t;
}.

Section Heap.
Context {V O Q : Type} `{Tokio V O Q}.

(** A channel; a queue of [std] has its sender as long as the flag says. *)
Inductive Cell :=
| SyncOnce (c : SyncOneshot V)
| SyncQueue (c : Mpsc V) (sender : bool)
| TokioOnce (c : TokioOneshot O)
| TokioQueue (c : Q).

Abbreviation Heap := (list Cell).

Definition cell_send (v : V) (c : Cell) : ControlFlow Sent * Cell :=
  match c with
  | SyncOnce c => let (r, c) := sync_send v c in (r, SyncOnce c)
  | SyncQueue c b => let (r, c) := send c v in (r, SyncQueue c b)
  | TokioOnce c => let (r, c) := tokio_send v c in (r, TokioOnce c)
  | TokioQueue c => let (r, c) := unbounded_sender_send v c in (r, TokioQueue c)
  end.

(** [may_send] is [true] where the implementation does not say. *)
Definition cell_may_send (c : Cell) : bool := match c with SyncOnce c => option_may_send c | _ => true end.

Definition cell_drop (c : Cell) : Cell :=
  match c with
  | SyncOnce c => SyncOnce (sync_drop c)
  | SyncQueue c _ => SyncQueue c false
  | TokioOnce c => TokioOnce (tokio_drop c)
  | TokioQueue c => TokioQueue (unbounded_drop c)
  end.

(** The sender of the channel at an address. *)
Definition sender_at {T} `{Value V T} (a : nat) : DynSender Heap T := {|
  dyn_send value w :=
    match w !! a with
    | Some c => let (r, c) := cell_send (into value) c in (r, <[a := c]> w)
    | None => (Break Closed, w)
    end;
  dyn_may_send w := match w !! a with Some c => cell_may_send c | None => false end;
  dyn_drop w := match w !! a with Some c => <[a := cell_drop c]> w | None => w end;
|}.

(** [ChannelSpec]: the address is the receiver. *)
Class ChannelSpec (S : Type) := {
  new_oneshot_cell : S -> Cell;
  new_queue_cell : S -> Cell;
}.

Inductive SyncChannels := sync_channels.
Inductive TokioChannels := tokio_channels.

Definition sync_spec : ChannelSpec SyncChannels := {|
  new_oneshot_cell _ := SyncOnce sync_new;
  new_queue_cell _ := SyncQueue (mkMpsc true []) true;
|}.
#[export] Existing Instance sync_spec.
Definition tokio_spec : ChannelSpec TokioChannels := {|
  new_oneshot_cell _ := TokioOnce tokio_new;
  new_queue_cell _ := TokioQueue unbounded_channel;
|}.
#[export] Existing Instance tokio_spec.

Section Spec.
Context {S : Type} `{ChannelSpec S} {T : Type} `{Value V T}.

Definition alloc (c : Cell) (w : Heap) : DynSender Heap T * nat * Heap := (sender_at (length w), length w, w ++ [c]).
Definition new_oneshot (spec : S) (w : Heap) : DynSender Heap T * nat * Heap := alloc (new_oneshot_cell spec) w.
Definition new_queue (spec : S) (w : Heap) : DynSender Heap T * nat * Heap := alloc (new_queue_cell spec) w.
End Spec.

(** The receiver of a oneshot channel of [SyncChannels] at an address: what
    [recv] gives; [None] if it blocks or there is no such channel. *)
Definition recv_at (w : Heap) (a : nat) : option (option V) :=
  match w !! a with Some (SyncOnce c) => fst <$> sync_recv c | _ => None end.

(** What is in a queue of [std] at an address. *)
Definition queue_at (w : Heap) (a : nat) : option (list V) :=
  match w !! a with Some (SyncQueue c _) => Some (received c) | _ => None end.
End Heap.
Arguments Cell V O Q : clear implicits.

(** ** Theorems *)

Section SyncThms.
Context {T : Type}.
Abbreviation Sync := (SyncOneshot T).

(** Values sent one after the other: the results, and the channel then. *)
Fixpoint sends (vs : list T) (c : Sync) : list (ControlFlow Sent) * Sync :=
  match vs with
  | [] => ([], c)
  | v :: vs => let (r, c) := sync_send v c in let (rs, c) := sends vs c in (r :: rs, c)
  end.

Lemma sends_taken vs (c : Sync) : taken c = true -> sends vs c = (replicate (length vs) (Break Closed), c).
Proof.
  intros Ht. induction vs as [|v vs IH]; [done|]. cbn [sends]. unfold sync_send, option_send. rewrite Ht, IH. done.
Qed.

(** C39: A oneshot channel takes the first value, says that this was all, and is
    closed to every other; its receiver gets that value without waiting, whether
    or not the sender is still there, learns that there is none if the sender is
    gone without one, and otherwise waits.  The shared cell is not used after it
    was freed, and it is freed with the second of the two sides. *)
Theorem sync_oneshot_correct (vs : list T) (dropped : bool) :
  let (rs, c) := sends vs sync_new in
  let c := if dropped then sync_drop c else c in
  rs = match vs with [] => [] | _ :: vs => Break SentOk :: replicate (length vs) (Break Closed) end /\
  match vs, dropped with
  | [], false => sync_recv c = None
  | _, _ =>
      exists c', sync_recv c = Some (head vs, c') /\ Oneshot.uaf (Oneshot.inner (chan c')) = false /\
        Oneshot.freed (Oneshot.inner (chan c')) = 1
  end.
Proof.
  destruct vs as [|v vs]; cbn [sends head].
  - destruct dropped; (split; [done|]); [|vm_compute; reflexivity]. eexists. split; [lazy; reflexivity|]. split; reflexivity.
  - set (c1 := (sync_send v sync_new).2). assert (Hs : sync_send v sync_new = (Break SentOk, c1)) by reflexivity.
    rewrite Hs, (sends_taken vs c1) by reflexivity. split; [done|].
    destruct dropped; eexists; (split; [lazy; reflexivity|]); split; reflexivity.
Qed.

(** The life of a channel over which one value is sent. *)
Lemma sync_sent (v : T) : exists c, sync_send v sync_new = (Break SentOk, c) /\ fst <$> sync_recv (sync_drop c) = Some (Some v).
Proof. exists (sync_send v sync_new).2. split; lazy; reflexivity. Qed.

(** [may_send] says exactly whether the next send is taken, as long as nobody
    else gets in between; once the receiver of a live cell is dropped none is. *)
Theorem sync_may_send_exact (c : Sync) v :
  (sync_send v c).1 = Break (if option_may_send c then SentOk else Closed) /\
  (Oneshot.freed (Oneshot.inner (chan c)) = 0 -> option_may_send (sync_close c) = false).
Proof.
  split.
  - unfold sync_send, option_send, option_may_send, Oneshot.is_closed, Oneshot.is_empty.
    destruct (taken c); [done|]. by destruct (Oneshot.recver _), (Oneshot.lock _).
  - intros Hf. unfold option_may_send, Oneshot.is_closed, sync_close, recv_now. cbn [taken].
    destruct (chan c) as [[n rc lk vl fs fr u acc] rpc ss]. unfold Oneshot.freed in Hf. cbn in Hf.
    assert (fs = 0) as -> by lia. assert (fr = 0) as -> by lia. cbn. by destruct (n =? 0); cbn; rewrite andb_false_r.
Qed.
End SyncThms.

Section HeapThms.
Context {V O Q : Type} `{Tokio V O Q} {S : Type} `{ChannelSpec V O Q S} {T : Type} `{Value V T}.
Abbreviation Heap := (list (Cell V O Q)).

(** A sender reaches no channel but its own. *)
Lemma send_frame (a b : nat) (v : T) (w : Heap) : a <> b -> (dyn_send (sender_at a) v w).2 !! b = w !! b.
Proof.
  intros Hne. cbn. destruct (w !! a) as [c|]; [|done]. destruct (cell_send _ c). by apply list_lookup_insert_ne.
Qed.

Lemma drop_frame (a b : nat) (w : Heap) : a <> b -> dyn_drop (sender_at (T := T) a) w !! b = w !! b.
Proof. intros Hne. cbn. destruct (w !! a); [|done]. by apply list_lookup_insert_ne. Qed.

(** Dropping the sender of the channel made last. *)
Lemma drop_last (c : Cell V O Q) (w : Heap) : dyn_drop (sender_at (T := T) (length w)) (w ++ [c]) = w ++ [cell_drop c].
Proof. cbn. rewrite list_lookup_middle by done. by rewrite insert_app_r_alt, Nat.sub_diag by lia. Qed.

(** A new channel is another one than all there were, which stay as they are. *)
Lemma alloc_spec (c : Cell V O Q) (w : Heap) :
  let '(s, a, w') := alloc (T := T) c w in s = sender_at a /\ w !! a = None /\ w' !! a = Some c /\ forall b, b < length w -> w' !! b = w !! b.
Proof.
  cbn. split; [done|]. split; [by apply lookup_ge_None|]. split; [by apply list_lookup_middle|].
  intros b Hb. by apply lookup_app_l.
Qed.
End HeapThms.

Section TokioThms.
Context {T O Q : Type} `{Tokio T O Q}.

Fixpoint tokio_sends (vs : list T) (c : TokioOneshot O) : list (ControlFlow Sent) * TokioOneshot O :=
  match vs with
  | [] => ([], c)
  | v :: vs => let (r, c) := tokio_send v c in let (rs, c) := tokio_sends vs c in (r :: rs, c)
  end.

(** The sender of a [tokio] oneshot channel is used at most once: for the first
    value, or to be dropped without one. *)
Theorem tokio_oneshot_correct (vs : list T) :
  let (rs, c) := tokio_sends vs tokio_new in
  match vs with
  | [] => rs = [] /\ tokio_drop c = mkTokioOneshot false (oneshot_drop oneshot_channel)
  | v :: vs =>
      let (ok, ch) := oneshot_send v oneshot_channel in
      rs = Break (if ok then SentOk else Closed) :: replicate (length vs) (Break Closed) /\
      c = mkTokioOneshot false ch /\ tokio_drop c = c
  end.
Proof.
  destruct vs as [|v vs]; cbn [tokio_sends]; [done|]. unfold tokio_send at 1. cbn [tsender tokio_new tchan].
  destruct (oneshot_send v oneshot_channel) as [ok ch].
  assert (Hs : forall c : TokioOneshot O, tsender c = false -> tokio_sends vs c = (replicate (length vs) (Break Closed), c)).
  { intros c Hc. induction vs as [|v' vs IH]; [done|]. cbn [tokio_sends]. unfold tokio_send. rewrite Hc, IH. done. }
  rewrite Hs by done. done.
Qed.
End TokioThms.
