(* ===== verification/ThinArc.v ===== *)
(** * ThinArc

    [src/util/thinarc.rs]: handles of threads that share one allocation and its
    atomic count, in the manner of [Oneshot]: every access is one step, steps
    interleave in any order and memory is sequentially consistent.  A handle
    may be used by reference from several threads; dropping and unwrapping take
    it. *)

From S2P Require Import Prelude.

(** [freed] counts how often the value was taken out or dropped and the
    allocation freed, [uaf] says whether it was used afterwards. *)
Record Shared := mkShared { rc : nat; freed : nat; uaf : bool }.

(** A handle: owned; after [fetch_sub] saw the last one; after the load in
    [try_unwrap] saw the only one; gone. *)
Inductive HandlePc := HOwned | HFree | HUnwrap | HGone.

Record Arc := mkArc { shared : Shared; handles : list HandlePc }.

(** [new]. *)
Definition new : Arc := mkArc (mkShared 1 0 false) [HOwned].

Definition touch (s : Shared) : Shared := mkShared (rc s) (freed s) (uaf s || (0 <? freed s)).
Definition set_rc (s : Shared) (n : nat) : Shared := mkShared n (freed s) (uaf s).
Definition dealloc (s : Shared) : Shared := mkShared (rc s) (freed s + 1) (uaf s).

(** [clone], [deref], the [fetch_sub] of [drop], the load of [try_unwrap], and
    what follows these two. *)
Inductive Act := AClone (k : nat) | ADeref (k : nat) | ADrop (k : nat) | ATryUnwrap (k : nat) | AFinish (k : nat).

Definition run_act (c : Arc) (a : Act) : option Arc :=
  let s := touch (shared c) in
  let owned k r := match handles c !! k with Some HOwned => Some r | _ => None end in
  let moves k s pc := mkArc s (<[k := pc]> (handles c)) in
  match a with
  | AClone k => owned k (mkArc (set_rc s (rc s + 1)) (handles c ++ [HOwned]))
  | ADeref k => owned k (mkArc s (handles c))
  | ADrop k => owned k (moves k (set_rc s (rc s - 1)) (if rc s =? 1 then HFree else HGone))
  | ATryUnwrap k => owned k (moves k s (if rc s =? 1 then HUnwrap else HOwned))
  | AFinish k =>
      match handles c !! k with
      | Some HFree | Some HUnwrap => Some (moves k (dealloc s) HGone)
      | _ => None
      end
  end.

Fixpoint run_acts (c : Arc) (l : list Act) : option Arc :=
  match l with
  | [] => Some c
  | a :: l => match run_act c a with Some c => run_acts c l | None => None end
  end.

Inductive reachable : Arc -> Prop :=
| reachable_new : reachable new
| reachable_step c a c' : reachable c -> run_act c a = Some c' -> reachable c'.

(** Handles the count counts, and those about to free what is left. *)
Definition counted (pc : HandlePc) : nat := match pc with HOwned | HUnwrap => 1 | _ => 0 end.
Definition freeing (pc : HandlePc) : nat := match pc with HFree => 1 | _ => 0 end.
Definition unwrapping (pc : HandlePc) : nat := match pc with HUnwrap => 1 | _ => 0 end.
Definition present (n : nat) : nat := if n =? 0 then 0 else 1.

Record inv (c : Arc) : Prop := {
  inv_rc : freed (shared c) = 0 -> rc (shared c) = total counted (handles c);
  inv_once : freed (shared c) + total freeing (handles c) + present (total counted (handles c)) = 1;
  inv_unwrap : 0 < total unwrapping (handles c) -> total counted (handles c) = 1;
  inv_uaf : uaf (shared c) = false;
}.

(** A used handle keeps the allocation from being freed. *)
Lemma inv_used c k pc : inv c -> handles c !! k = Some pc -> 0 < counted pc + freeing pc ->
  touch (shared c) = shared c /\ freed (shared c) = 0.
Proof.
  intros [_ Ho _ Hu] Hk Hp. pose proof (total_le counted _ _ _ Hk) as Lc. pose proof (total_le freeing _ _ _ Hk) as Lf.
  assert (Hf : freed (shared c) = 0).
  { unfold present in Ho. destruct (Nat.eqb_spec (total counted (handles c)) 0); lia. }
  split; [|done]. unfold touch. rewrite Hf, Hu. destruct (shared c) as [n f u]. cbn in *. by subst.
Qed.

(** A handle that waits to unwrap is the only one. *)
Lemma inv_alone c k pc : inv c -> handles c !! k = Some pc -> counted pc = 1 -> unwrapping pc = 0 -> total unwrapping (handles c) = 0.
Proof.
  intros [_ _ Hu _] Hk Hc Hw. destruct (total unwrapping (handles c)) eqn:E; [done|]. specialize (Hu ltac:(lia)).
  assert (Hle : forall x, unwrapping x <= counted x) by (intros []; cbn; lia).
  pose proof (total_gap unwrapping counted _ _ _ Hle Hk). lia.
Qed.

Lemma run_arc_act_inv c a c' : inv c -> run_act c a = Some c' -> inv c'.
Proof.
  intros Hi. pose proof Hi as [Hr Ho Hu Ha].
  destruct a as [k|k|k|k|k]; cbn [run_act]; destruct (handles c !! k) as [pc|] eqn:Hk; try done.
  1-4: destruct pc; try done; intros [= <-]; destruct (inv_used c k HOwned Hi Hk) as [-> Hf]; [cbn; lia|];
    pose proof (inv_alone c k HOwned Hi Hk eq_refl eq_refl) as Hw; pose proof (total_le counted _ _ _ Hk) as Lc; cbn in Lc;
    specialize (Hr Hf); unfold present in Ho; rewrite (proj2 (Nat.eqb_neq _ _)) in Ho by lia.
  - constructor; cbn [shared handles set_rc rc freed uaf]; rewrite ?total_app; cbn [counted freeing unwrapping]; try done; try lia.
    unfold present. rewrite (proj2 (Nat.eqb_neq _ _)) by lia. lia.
  - by destruct c.
  - destruct (Nat.eqb_spec (rc (shared c)) 1) as [H1|H1].
    + pose proof (total_insert counted _ _ _ HFree Hk) as Tc. pose proof (total_insert freeing _ _ _ HFree Hk) as Tf.
      pose proof (total_insert unwrapping _ _ _ HFree Hk) as Tu. cbn in Tc, Tf, Tu.
      constructor; cbn [shared handles set_rc rc freed uaf]; try done; try lia.
      unfold present. rewrite (proj2 (Nat.eqb_eq _ _)) by lia. lia.
    + pose proof (total_insert counted _ _ _ HGone Hk) as Tc. pose proof (total_insert freeing _ _ _ HGone Hk) as Tf.
      pose proof (total_insert unwrapping _ _ _ HGone Hk) as Tu. cbn in Tc, Tf, Tu.
      constructor; cbn [shared handles set_rc rc freed uaf]; try done; try lia.
      unfold present. rewrite (proj2 (Nat.eqb_neq _ _)) by lia. lia.
  - destruct (Nat.eqb_spec (rc (shared c)) 1) as [H1|H1]; [|rewrite list_insert_id by done; by destruct c].
    pose proof (total_insert counted _ _ _ HUnwrap Hk) as Tc. pose proof (total_insert freeing _ _ _ HUnwrap Hk) as Tf. cbn in Tc, Tf.
    constructor; cbn [shared handles rc freed uaf]; try done; try lia. unfold present. rewrite (proj2 (Nat.eqb_neq _ _)) by lia. lia.
  - pose proof (total_insert counted _ _ _ HGone Hk) as Tc. pose proof (total_insert freeing _ _ _ HGone Hk) as Tf.
    pose proof (total_insert unwrapping _ _ _ HGone Hk) as Tu. pose proof (total_le unwrapping _ _ _ Hk) as Lu. cbn in Tc, Tf, Tu.
    destruct pc; try done; intros [= <-]; cbn in *; (destruct (inv_used c k _ Hi Hk) as [-> Hf]; [cbn; lia|]);
      unfold present in Ho; (constructor; cbn [shared handles dealloc rc freed uaf]; [lia| | |done]); unfold present.
    + destruct (Nat.eqb_spec (total counted (handles c)) 0); [|pose proof (total_le freeing _ _ _ Hk) as L; cbn in L; lia].
      rewrite (proj2 (Nat.eqb_eq _ _)) by lia. lia.
    + intros Hw. specialize (Hu ltac:(lia)). rewrite Hu in Ho. pose proof (total_le freeing _ _ _ Hk) as L. cbn in L, Ho. lia.
    + specialize (Hu ltac:(lia)). rewrite Hu in Ho. cbn in Ho. rewrite (proj2 (Nat.eqb_eq _ _)) by lia. lia.
    + intros Hw. specialize (Hu ltac:(lia)).
      pose proof (total_mono unwrapping counted (<[k := HGone]> (handles c)) ltac:(by intros []; cbn; lia)). lia.
Qed.

Lemma reachable_arc_inv c : reachable c -> inv c.
Proof. induction 1 as [|c a c' _ IH Ha]; [by constructor; cbn; try lia|by eapply run_arc_act_inv]. Qed.

(** C40: Whatever threads do with their handles, the allocation is never used after
    it was freed, and it is freed once, exactly when every handle is gone. *)
Theorem thinarc_safe c :
  reachable c ->
  uaf (shared c) = false /\ freed (shared c) <= 1 /\
  (freed (shared c) = 1 <-> Forall (fun pc => pc = HGone) (handles c)).
Proof.
  intros [Hr Ho Hu Ha]%reachable_arc_inv. split; [done|]. split; [lia|].
  assert (Hgone : total freeing (handles c) + total counted (handles c) = 0 <-> Forall (fun pc => pc = HGone) (handles c)).
  { clear. induction (handles c) as [|pc l IH]; [by split; [constructor|]|]. rewrite Forall_cons, <- IH. unfold total. cbn [sum_list_with].
    destruct pc; cbn; split; (try intros [? ?]); done || lia || (intros; split; [done|lia]). }
  rewrite <- Hgone. unfold present in Ho. destruct (Nat.eqb_spec (total counted (handles c)) 0); lia.
Qed.

(** ** Witness *)

(** One thread drops its handle while another unwraps the last. *)
Definition sample_acts : list Act := [AClone 0; ADeref 1; ATryUnwrap 0; ADrop 1; ATryUnwrap 0; AFinish 0].

Lemma run_arc_reachable l : forall c c', reachable c -> run_acts c l = Some c' -> reachable c'.
Proof.
  induction l as [|a l IH]; intros c c' Hr; cbn [run_acts]; [by intros [= <-]|].
  destruct (run_act c a) as [c1|] eqn:Ha; [|done]. apply IH. by eapply reachable_step.
Qed.

Lemma thinarc_safe_witness : exists c, run_acts new sample_acts = Some c /\ handles c = [HGone; HGone] /\ freed (shared c) = 1.
Proof.
  destruct (run_acts new sample_acts) as [c|] eqn:Hr; [|discriminate Hr]. exists c. split; [reflexivity|].
  assert (Hh : handles c = [HGone; HGone]) by (injection Hr as <-; reflexivity). split; [exact Hh|].
  destruct (thinarc_safe c (run_arc_reachable sample_acts new c reachable_new Hr)) as (_ & _ & Hf). apply Hf. rewrite Hh.
  apply Forall_cons; split; [reflexivity|]. apply Forall_cons; split; [reflexivity|apply Forall_nil; exact I].
Defined.
