(* ===== verification/Layout.v ===== *)
(** * The layout of shared allocations

    [src/util/dynsized.rs] and the pointer arithmetic of [src/util/thinarc.rs]:
    where the count, the metadata and the value of a [ThinArc] are, and with
    which layout it is freed.  [Layout] is [std::alloc::Layout] of a platform
    with 64-bit pointers; addresses are numbers, and a type is known by its
    layout. *)

From S2P Require Import Prelude.
#[local] Open Scope N_scope.

(** ** [std::alloc::Layout] *)

Record Layout := mkLayout { size : N; align : N }.

#[global] Instance Layout_eq_dec : EqDecision Layout.
Proof. solve_decision. Defined.

Definition isize_max : N := 2 ^ 63 - 1.
Definition max_size_for_align (align : N) : N := isize_max - (align - 1).

Definition from_size_alignment (size align : N) : option Layout :=
  if size <=? max_size_for_align align then Some (mkLayout size align) else None.

(** [size_rounded_up_to_custom_align]. *)
Definition round_up (size align : N) : N := N.ldiff (size + (align - 1)) (align - 1).

Definition extend (self next : Layout) : option (Layout * N) :=
  let new_align := N.max (align self) (align next) in
  let offset := round_up (size self) (align next) in
  let new_size := offset + size next in
  (fun layout => (layout, offset)) <$> from_size_alignment new_size new_align.

Definition pad_to_align (self : Layout) : Layout := mkLayout (round_up (size self) (align self)) (align self).

(** [Layout::array]. *)
Definition array (t : Layout) (n : N) : option Layout :=
  if negb (size t =? 0) && (max_size_for_align (align t) / size t <? n) then None
  else Some (mkLayout (size t * n) (align t)).

(** The layout of a [repr(C)] structure, with the offsets of its fields. *)
Fixpoint fields (layout : Layout) (l : list Layout) : option (Layout * list N) :=
  match l with
  | [] => Some (layout, [])
  | f :: l =>
      '(layout, offset) ← extend layout f;
      '(layout, offsets) ← fields layout l;
      Some (layout, offset :: offsets)
  end.

Definition repr_c (l : list Layout) : option (Layout * list N) :=
  '(layout, offsets) ← fields (mkLayout 0 1) l;
  Some (pad_to_align layout, offsets).

(** [usize] and [AtomicUsize], and [()]. *)
Definition usize : Layout := mkLayout 8 8.
Definition unit_ : Layout := mkLayout 0 1.

(** ** [DynSized] *)

(** [M] are the values of [Metadata]; a reference is where it points, and for
    slices also how many elements it has.  [layout] panics with [None]; dropping
    gives the addresses of what is dropped. *)
Class DynSized (M R : Type) := {
  metadata : Layout;
  ALIGN : N;
  layout : M -> option Layout;
  make_ref : N -> M -> R;
  make_ref_mut : N -> M -> R;
  drop_in_place : N -> M -> list N;
}.

Definition sized (t : Layout) : DynSized () N := {|
  metadata := unit_;
  ALIGN := align t;
  layout _ := Some t;
  make_ref ptr _ := ptr;
  make_ref_mut ptr _ := ptr;
  drop_in_place ptr _ := [ptr];
|}.

(** The loop of [drop_in_place] for slices. *)
Fixpoint drop_loop (t : Layout) (count : nat) (ptr : N) : list N :=
  match count with
  | 0%nat => []
  | S count => ptr :: drop_loop t count (ptr + size t)
  end.

Definition slice (t : Layout) : DynSized nat (N * nat) := {|
  metadata := usize;
  ALIGN := align t;
  layout count := array t (N.of_nat count);
  make_ref ptr count := (ptr, count);
  make_ref_mut ptr count := (ptr, count);
  drop_in_place ptr count := drop_loop t count ptr;
|}.

(** ** [ThinArc] *)

(** [ThinArcInner]. *)
Definition inner (M V : Layout) : option (Layout * list N) := repr_c [usize; M; V].

(** An allocation: where it is and what was asked for. *)
Record Block := mkBlock { base : N; asked : Layout }.

(** [new], at the address that the allocator gives; [None] when there is none,
    or no layout. *)
Definition new (t : Layout) (alloc : Layout -> option N) : option Block :=
  '(layout, _) ← inner unit_ t;
  ptr ← alloc layout;
  Some (mkBlock ptr layout).

Section ThinArc.
Context {M R : Type} {D : DynSized M R}.

Definition offsets (ptr : N) : option (N * N) :=
  '(layout, offset_meta) ← extend usize metadata;
  let ptr_meta := ptr + offset_meta in
  '(_, offset_value) ← extend layout (mkLayout 0 ALIGN);
  let ptr_value := ptr + offset_value in
  Some (ptr_meta, ptr_value).

(** The count is at the start. *)
Definition ret_rc (ptr : N) : N := ptr.

(** Where the metadata is. *)
Definition ref_meta (ptr : N) : option N := fst <$> offsets ptr.

Definition ref_value (ptr : N) (meta : M) : option R :=
  '(_, ptr_value) ← offsets ptr; Some (make_ref ptr_value meta).

(** The layout that [dealloc] frees with. *)
Definition dealloc (meta : M) : option Layout :=
  '(l, _) ← extend usize metadata;
  v ← layout meta;
  '(l, _) ← extend l v;
  Some l.

(** What the last [drop] does: the values it drops, and the layout it frees
    with. *)
Definition drop (ptr : N) (meta : M) : option (list N * Layout) :=
  '(_, ptr_value) ← offsets ptr;
  l ← dealloc meta;
  Some (drop_in_place ptr_value meta, l).

(** [try_unwrap] of the only handle: where it reads the value, and the layout
    it frees with. *)
Definition try_unwrap (ptr : N) (meta : M) : option (N * Layout) :=
  '(_, ptr_value) ← offsets ptr;
  l ← dealloc meta;
  Some (ptr_value, l).
End ThinArc.

(** ** Lemmas *)

Definition wf (l : Layout) : Prop := (exists k, align l = 2 ^ k) /\ size l <= max_size_for_align (align l).

(** The layout of a type: its size is a multiple of its alignment. *)
Definition type_wf (l : Layout) : Prop := wf l /\ size l mod align l = 0.

Definition aligned (l : Layout) (a : N) : Prop := a mod align l = 0.

Lemma round_up_div s k : round_up s (2 ^ k) = (s + (2 ^ k - 1)) / 2 ^ k * 2 ^ k.
Proof.
  unfold round_up. replace (2 ^ k - 1) with (N.ones k) by (rewrite N.ones_equiv; lia).
  by rewrite N.ldiff_ones_r, N.shiftl_mul_pow2, N.shiftr_div_pow2.
Qed.

(** Rounding up gives the next multiple. *)
Lemma round_up_spec s k :
  s <= round_up s (2 ^ k) /\ round_up s (2 ^ k) < s + 2 ^ k /\ round_up s (2 ^ k) mod 2 ^ k = 0.
Proof.
  rewrite round_up_div. assert (Hp : 2 ^ k <> 0) by (apply N.pow_nonzero; lia).
  pose proof (N.div_mod (s + (2 ^ k - 1)) (2 ^ k) Hp) as Hd. pose proof (N.mod_lt (s + (2 ^ k - 1)) (2 ^ k) Hp) as Hm.
  generalize dependent (2 ^ k). intros p Hp Hd Hm. rewrite (N.mul_comm p) in Hd.
  assert (Hq : (s + (p - 1)) / p * p mod p = 0) by by apply N.Div0.mod_mul.
  generalize dependent ((s + (p - 1)) mod p). generalize dependent ((s + (p - 1)) / p * p). lia.
Qed.

Lemma round_up_multiple s k : s mod 2 ^ k = 0 <-> round_up s (2 ^ k) = s.
Proof.
  destruct (round_up_spec s k) as (H1 & H2 & H3). split; [|by intros <-]. intros Hs.
  assert (Hp : 2 ^ k <> 0) by (apply N.pow_nonzero; lia).
  apply N.Lcm0.mod_divide in Hs as [q ->], H3 as [r Hr]. rewrite Hr in *. assert (r = q) by nia. by subst.
Qed.

(** The powers of two are ordered by divisibility. *)
Lemma mod_smaller a j k : j <= k -> a mod 2 ^ k = 0 -> a mod 2 ^ j = 0.
Proof.
  intros Hj. rewrite !N.Lcm0.mod_divide. intros Hd. etransitivity; [|exact Hd].
  exists (2 ^ (k - j)). rewrite <- N.pow_add_r. f_equal. lia.
Qed.

Lemma max_pow_l j k : exists m, N.max (2 ^ j) (2 ^ k) = 2 ^ m /\ j <= m /\ k <= m.
Proof.
  destruct (N.le_ge_cases j k) as [H|H]; [exists k; rewrite N.max_r|exists j; rewrite N.max_l]; try done; by apply N.pow_le_mono_r.
Qed.

(** Extending a layout puts the next part behind what is there, where it is
    aligned. *)
Lemma extend_spec a b l o :
  wf a -> wf b -> extend a b = Some (l, o) ->
  wf l /\ align l = N.max (align a) (align b) /\ size l = o + size b /\ size a <= o /\ o < size a + align b /\ o mod align b = 0.
Proof.
  intros [[j Ha] _] [[k Hb] _]. unfold extend, from_size_alignment. rewrite Ha, Hb.
  destruct (round_up_spec (size a) k) as (R1 & R2 & R3).
  destruct (max_pow_l j k) as (m & Hm & _). rewrite Hm.
  destruct (N.leb_spec (round_up (size a) (2 ^ k) + size b) (max_size_for_align (2 ^ m))) as [Hle|]; [|done].
  intros E. injection E as <- <-. split_and!; try done. split; [by exists m|done].
Qed.

(** A part of no size that is aligned as one that fits, fits at the same place. *)
Lemma extend_empty a b l o : extend a b = Some (l, o) -> exists l', extend a (mkLayout 0 (align b)) = Some (l', o).
Proof.
  unfold extend, from_size_alignment. cbn [align size]. destruct (N.leb_spec (round_up (size a) (align b) + size b) (max_size_for_align (N.max (align a) (align b)))) as [Hle|]; [|done].
  intros E. injection E as _ <-. rewrite (proj2 (N.leb_le _ _)) by lia. eauto.
Qed.

Lemma usize_wf : type_wf usize.
Proof. split; [|done]. split; [by exists 3|]. by vm_compute. Qed.

Lemma unit_wf : type_wf unit_.
Proof. split; [|done]. split; [by exists 0|]. by vm_compute. Qed.

Lemma aligned_max l j k m a : align l = N.max j (N.max k m) -> (exists i, j = 2 ^ i) -> (exists i, k = 2 ^ i) -> (exists i, m = 2 ^ i) ->
  a mod align l = 0 -> a mod j = 0 /\ a mod k = 0 /\ a mod m = 0.
Proof.
  intros -> [x ->] [y ->] [z ->]. destruct (max_pow_l y z) as (u & -> & Hy & Hz). destruct (max_pow_l x u) as (v & -> & Hx & Hu).
  intros Hm. split_and!; eapply mod_smaller; try exact Hm; lia.
Qed.

Lemma inner_inv M V L os : inner M V = Some (L, os) ->
  exists l1 om l2 ov, extend usize M = Some (l1, om) /\ extend l1 V = Some (l2, ov) /\ os = [0; om; ov] /\ L = pad_to_align l2.
Proof.
  unfold inner, repr_c. cbn [fields].
  assert (extend (mkLayout 0 1) usize = Some (usize, 0)) as -> by by vm_compute. cbn [mbind option_bind].
  destruct (extend usize M) as [[l1 om]|]; [|done]. cbn [mbind option_bind].
  destruct (extend l1 V) as [[l2 ov]|] eqn:E2; [|done]. cbn [mbind option_bind]. intros [= <- <-].
  exists l1, om, l2, ov. by rewrite E2.
Qed.

Lemma pad_to_align_spec l : wf l -> size l <= size (pad_to_align l) /\ (l = pad_to_align l <-> size l mod align l = 0).
Proof.
  intros [[k Hk] _]. unfold pad_to_align. rewrite Hk. split; [apply round_up_spec|].
  rewrite round_up_multiple. destruct l as [s a]; cbn in *; subst. split; [by intros [= <-]|by intros ->].
Qed.

(** ** Theorems *)

(** The count, the metadata and the value are where the compiler puts the
    fields of [ThinArcInner]: each aligned, one behind the other, inside the
    allocation; the last [drop] drops the value there and frees a layout that
    is the one asked for up to padding. *)
Theorem thin_arc_layout {M R} {D : DynSized M R} (meta : M) v L os ptr :
  type_wf metadata -> layout meta = Some v -> wf v -> align v = ALIGN ->
  inner metadata v = Some (L, os) -> aligned L ptr ->
  exists om ov l, os = [0; om; ov] /\ offsets ptr = Some (ptr + om, ptr + ov) /\
    ret_rc ptr mod 8 = 0 /\ aligned metadata (ptr + om) /\ aligned v (ptr + ov) /\
    8 <= om /\ om + size metadata <= ov /\ ov + size v <= size L /\
    drop ptr meta = Some (drop_in_place (ptr + ov) meta, l) /\ L = pad_to_align l /\
    (l = L <-> size l mod align l = 0).
Proof.
  intros [Hmw _] Hv Hvw Ha Hi Hp. destruct (inner_inv _ _ _ _ Hi) as (l1 & om & l2 & ov & E1 & E2 & -> & ->).
  destruct (extend_spec _ _ _ _ (proj1 usize_wf) Hmw E1) as (W1 & A1 & S1 & B1 & _ & M1).
  destruct (extend_spec _ _ _ _ W1 Hvw E2) as (W2 & A2 & S2 & B2 & _ & M2).
  destruct (extend_empty _ _ _ _ E2) as [l' E3]. rewrite Ha in E3.
  destruct (pad_to_align_spec l2 W2) as [P1 P2].
  assert (Al : align l2 = N.max 8 (N.max (align metadata) (align v))) by (rewrite A2, A1; unfold usize; cbn; lia).
  unfold aligned in *. cbn [pad_to_align align] in Hp.
  destruct (aligned_max l2 8 (align metadata) (align v) ptr Al ltac:(by exists 3) (proj1 Hmw) (proj1 Hvw) Hp) as (N1 & N2 & N3).
  assert (Hd : offsets ptr = Some (ptr + om, ptr + ov)).
  { unfold offsets. rewrite E1. cbn [mbind option_bind]. by rewrite E3. }
  exists om, ov, l2. split; [done|]. split; [done|]. split; [done|].
  assert (Hmod : forall a b c, a mod c = 0 -> b mod c = 0 -> (a + b) mod c = 0).
  { intros a b c Hx Hy. rewrite N.Div0.add_mod, Hx, Hy. by apply N.Div0.mod_0_l. }
  split; [by apply Hmod|]. split; [by apply Hmod|]. cbn [usize size] in B1.
  split; [lia|]. split; [lia|]. split; [cbn [pad_to_align size] in *; lia|]. split; [|split; [done|by rewrite <- P2]].
  unfold drop, dealloc. rewrite Hd, E1, Hv. cbn [mbind option_bind]. by rewrite E2.
Qed.

(** C5: A [ThinArc] that [new] made frees its allocation with the layout it was
    made with exactly when the alignment of the type is that of a pointer or more,
    or its size a multiple of a pointer's. *)
Theorem dealloc_layout_exact t alloc b :
  type_wf t -> new t alloc = Some b ->
  exists l, dealloc (D := sized t) () = Some l /\ (l = asked b <-> 8 <= align t \/ size t mod 8 = 0).
Proof.
  intros [Hw Hs] Hn. unfold new in Hn. destruct (inner unit_ t) as [[L os]|] eqn:Hi; [|done]. cbn in Hn.
  destruct (alloc L) as [p|]; [|done]. injection Hn as <-.
  destruct (inner_inv _ _ _ _ Hi) as (l1 & om & l & ov & E1 & E2 & _ & ->). exists l. cbn [asked].
  unfold dealloc. cbn [metadata layout sized]. rewrite E1. cbn [mbind option_bind]. rewrite E2. split; [done|].
  assert (extend usize unit_ = Some (usize, 8)) as E by by vm_compute. rewrite E in E1. injection E1 as <- <-.
  destruct (extend_spec _ _ _ _ (proj1 usize_wf) Hw E2) as (W2 & A2 & S2 & B2 & B3 & M2).
  rewrite (proj2 (pad_to_align_spec l W2)), A2, S2. destruct Hw as [[k Hk] _]. rewrite Hk in *. cbn [usize align size] in *.
  destruct (N.le_gt_cases 3 k) as [Hk3|Hk3].
  - assert (H8 : 2 ^ 3 <= 2 ^ k) by (by apply N.pow_le_mono_r). change (2 ^ 3) with 8 in H8. rewrite N.max_r by done.
    rewrite N.Div0.add_mod, M2, Hs. rewrite N.add_0_l, N.Div0.mod_0_l. split; [by left|done].
  - assert (Hk8 : 2 ^ k < 8) by (change 8 with (2 ^ 3); apply N.pow_lt_mono_r; lia).
    assert (ov = 8) as ->.
    { assert (K : round_up 8 (2 ^ k) = 8) by (apply round_up_multiple, (mod_smaller 8 k 3); [lia|done]).
      unfold extend in E2. rewrite Hk in E2. cbn [usize align size] in E2. rewrite K in E2.
      destruct (from_size_alignment _ _); [|done]. by injection E2 as _ <-. }
    rewrite N.max_l by lia. rewrite N.Div0.add_mod. change (8 mod 8) with 0. rewrite N.add_0_l, N.Div0.mod_mod.
    split; [by right|]. intros [|]; [lia|done].
Qed.

(** An [i32] is allocated with 16 bytes and freed with 12; the slice a string
    owns is freed as it was allocated. *)
Lemma dealloc_layout_exact_witness :
  let i32 := mkLayout 4 4 in let owned_slice := mkLayout 24 8 in
  (exists b, new i32 (fun _ => Some 4096) = Some b /\ asked b = mkLayout 16 8 /\
    exists l, dealloc (D := sized i32) () = Some l /\ l <> asked b) /\
  (exists b, new owned_slice (fun _ => Some 4096) = Some b /\ dealloc (D := sized owned_slice) () = Some (asked b)).
Proof.
  cbv zeta.
  assert (Hi : type_wf (mkLayout 4 4)) by (split; [split; [by exists 2|by vm_compute]|done]).
  assert (Ho : type_wf (mkLayout 24 8)) by (split; [split; [by exists 3|by vm_compute]|done]).
  split.
  - eexists. split; [by vm_compute|]. split; [reflexivity|].
    destruct (dealloc_layout_exact (mkLayout 4 4) (fun _ => Some 4096) (mkBlock 4096 (mkLayout 16 8)) Hi) as (l & Hl & He); [by vm_compute|].
    exists l. split; [exact Hl|]. intros E. by destruct (proj1 He E).
  - exists (mkBlock 4096 (mkLayout 32 8)). split; [by vm_compute|].
    destruct (dealloc_layout_exact (mkLayout 24 8) (fun _ => Some 4096) (mkBlock 4096 (mkLayout 32 8)) Ho) as (l & Hl & He); [by vm_compute|].
    rewrite Hl. f_equal. apply He. left. done.
Defined.

(** Slices have a layout exactly as long as their bytes fit; dropping one
    drops each of its elements once, in order, where it is. *)
Theorem slice_layout t count ptr :
  type_wf t -> aligned t ptr ->
  (forall l, layout (DynSized := slice t) count = Some l <->
     l = mkLayout (size t * N.of_nat count) (align t) /\ size t * N.of_nat count <= max_size_for_align (align t)) /\
  drop_in_place (DynSized := slice t) ptr count = (fun k => ptr + N.of_nat k * size t) <$> seq 0 count /\
  (forall k, aligned t (ptr + N.of_nat k * size t)).
Proof.
  intros [_ Hs] Hp. split; [|split].
  - intros l. cbn [layout slice]. unfold array. destruct (N.eqb_spec (size t) 0) as [->|Hz].
    + cbn [negb andb]. rewrite !N.mul_0_l. split; [intros [= <-]; split; [done|lia]|by intros [-> _]].
    + cbn [negb andb]. destruct (N.ltb_spec (max_size_for_align (align t) / size t) (N.of_nat count)) as [Hlt|Hge].
      * split; [done|]. intros [_ Hle]. apply (N.Div0.div_le_mono _ _ (size t)) in Hle. rewrite N.mul_comm, N.div_mul in Hle by done. lia.
      * split; [|by intros [-> _]]. intros [= <-]. split; [done|].
        pose proof (N.Div0.mul_div_le (max_size_for_align (align t)) (size t)). nia.
  - cbn [drop_in_place slice]. assert (Hg : forall i, drop_loop t count (ptr + N.of_nat i * size t) = (fun k => ptr + N.of_nat k * size t) <$> seq i count).
    { induction count as [|count IH]; intros i; [done|]. cbn [drop_loop seq fmap list_fmap]. f_equal. rewrite <- IH. f_equal. lia. }
    rewrite <- (Hg 0%nat). f_equal. lia.
  - intros k. unfold aligned in *. apply N.Lcm0.mod_divide, N.divide_add_r; [|apply N.divide_mul_r]; by apply N.Lcm0.mod_divide.
Qed.

Lemma slice_layout_witness : drop_in_place (DynSized := slice (mkLayout 4 4)) 4096 3%nat = [4096; 4100; 4104].
Proof.
  rewrite (proj1 (proj2 (slice_layout (mkLayout 4 4) 3 4096 ltac:(split; [split; [by exists 2|by vm_compute]|done]) eq_refl))). reflexivity.
Defined.

(** Three [i32]s behind their count, were there a constructor for them. *)
Lemma thin_arc_layout_witness :
  exists L, inner usize (mkLayout 12 4) = Some (L, [0; 8; 16]) /\
    offsets (D := slice (mkLayout 4 4)) 4096 = Some (4104, 4112) /\ size L = 32.
Proof.
  assert (Hv : wf (mkLayout 12 4)) by (split; [by exists 2|by vm_compute]).
  assert (Hi : inner usize (mkLayout 12 4) = Some (mkLayout 32 8, [0; 8; 16])) by by vm_compute.
  destruct (thin_arc_layout (D := slice (mkLayout 4 4)) 3%nat (mkLayout 12 4) (mkLayout 32 8) [0; 8; 16] 4096
    usize_wf eq_refl Hv eq_refl Hi eq_refl) as (om & ov & l & Ho & Hd & _).
  injection Ho as <- <-. exists (mkLayout 32 8). split; [exact Hi|]. split; [exact Hd|reflexivity].
Defined.
