(* ===== verification/Memory.v ===== *)
(** * Memory

    The heap under [src/util/ownedslice.rs], [src/string/secretbuf.rs] and the
    owned strings of [src/string/bytes.rs], and [OwnedSlice] itself.  A heap is
    the list of all blocks ever allocated, so a block's number is its address;
    freed blocks keep what was left in them.  Bytes not written yet are [None].
    An operation is undefined, [None], where the code's would be undefined
    behaviour: outside a block, in a freed one, reading what was never written. *)

From stdpp Require Import list.
From S2P Require Import Prelude.

Record Block := mkBlock { cells : list (option byte); live : bool }.
Abbreviation Heap := (list Block).

(** How much [Vec::with_capacity] allocates. *)
Class Alloc := { cap_for : nat -> nat; cap_for_ok n : n <= cap_for n }.

Definition alloc (cap : nat) (h : Heap) : nat * Heap := (length h, h ++ [mkBlock (replicate cap None) true]).

Definition store (p i : nat) (v : byte) (h : Heap) : option Heap :=
  b ← h !! p;
  if live b && (i <? length (cells b)) then Some (<[p := mkBlock (<[i := Some v]> (cells b)) true]> h) else None.

(** The bytes of a reference to [n] elements from [off]. *)
Definition read_range (p off n : nat) (h : Heap) : option (list byte) :=
  b ← h !! p;
  if live b && (off + n <=? length (cells b)) then mapM id (take n (drop off (cells b))) else None.

Fixpoint write_range (p off : nat) (l : list byte) (h : Heap) : option Heap :=
  match l with
  | [] => Some h
  | v :: l => h ← store p off v h; write_range p (S off) l h
  end.

Definition free (p : nat) (h : Heap) : option Heap :=
  b ← h !! p; if live b then Some (<[p := mkBlock (cells b) false]> h) else None.

(** [Vec<u8>]. *)
Record Vec := mkVec { vptr : nat; vlen : nat; vcap : nat }.

(** [Vec::with_capacity(n)] with the bytes of [l] written to it. *)
Definition vec_with `{Alloc} (n : nat) (l : list byte) (h : Heap) : option (Vec * Heap) :=
  let (p, h) := alloc (cap_for n) h in
  h ← write_range p 0 l h;
  Some (mkVec p (length l) (cap_for n), h).

(** [to_vec]. *)
Definition to_vec `{Alloc} (l : list byte) (h : Heap) : option (Vec * Heap) := vec_with (length l) l h.

(** A [&[u8]]: [n] bytes of a block, or bytes elsewhere.  An empty one may point
    anywhere. *)
Inductive Slice := Mem (p off n : nat) | Static (l : list byte).

Definition slice_get (s : Slice) (h : Heap) : option (list byte) :=
  match s with Mem p off n => if n =? 0 then Some [] else read_range p off n h | Static l => Some l end.

(** ** [OwnedSlice] *)

Record OwnedSlice := mkOwned { data : nat; capacity : nat }.

Definition from_vec (v : Vec) : OwnedSlice * nat := (mkOwned (vptr v) (vcap v), vlen v).

Definition as_slice (o : OwnedSlice) (len : nat) : Slice := Mem (data o) 0 len.

Definition into_vec_with_len (o : OwnedSlice) (len : nat) : Vec := mkVec (data o) len (capacity o).

Definition into_vec_with_slice `{Alloc} (o : OwnedSlice) (s : Slice) (h : Heap) : option (Vec * option OwnedSlice * Heap) :=
  let starts := match s with Mem p 0 n => if p =? data o then Some n else None | _ => None end in
  match starts with
  | Some n => Some (mkVec (data o) n (capacity o), None, h)
  | None =>
      l ← slice_get s h;
      '(v, h) ← to_vec l h;
      Some (v, Some o, h)
  end.

Definition write_capacity (o : OwnedSlice) (len : nat) : nat := capacity o - len.

(** [as_write_slice]: how many elements it refers to, all of which must have
    been written. *)
Definition as_write_slice (o : OwnedSlice) (len : nat) (h : Heap) : option nat :=
  let n := capacity o - len in
  _ ← read_range (data o) len n h;
  Some n.

(** The loops of [init_capacity] and [reinit_all]: zeroes from [cur] up to [cur + n]. *)
Fixpoint fill (p cur n : nat) (h : Heap) : option Heap :=
  match n with
  | 0 => Some h
  | S n => h ← store p cur x00 h; fill p (S cur) n h
  end.

(** [cur] starts at [len], and [end] is the capacity after [cur]. *)
Definition init_capacity (o : OwnedSlice) (len : nat) (h : Heap) : option Heap := fill (data o) len (capacity o) h.
Definition reinit_all (o : OwnedSlice) (h : Heap) : option Heap := fill (data o) 0 (capacity o) h.

(** [Drop]. *)
Definition drop_owned (o : OwnedSlice) (h : Heap) : option Heap := free (data o) h.

(** ** Lemmas *)

(** A live block that holds [l] at its start and whatever after it. *)
Definition holds (h : Heap) (p : nat) (c : list (option byte)) : Prop := h !! p = Some (mkBlock c true).

Lemma alloc_holds cap h : holds (alloc cap h).2 (alloc cap h).1 (replicate cap None).
Proof. unfold holds, alloc. simpl. by rewrite lookup_app_r, Nat.sub_diag. Qed.

Lemma store_spec p i v h c : holds h p c ->
  store p i v h = if i <? length c then Some (<[p := mkBlock (<[i := Some v]> c) true]> h) else None.
Proof. unfold holds, store. intros ->. done. Qed.

Lemma holds_insert h p c c' : holds h p c -> holds (<[p := mkBlock c' true]> h) p c'.
Proof. intros Hh. unfold holds. by rewrite list_lookup_insert_eq by (by eapply lookup_lt_Some). Qed.

(** Writing a list in bounds. *)
Lemma write_range_spec l : forall p off h c, holds h p c -> off + length l <= length c ->
  write_range p off l h = Some (<[p := mkBlock (take off c ++ (Some <$> l) ++ drop (off + length l) c) true]> h).
Proof.
  induction l as [|v l IH]; intros p off h c Hh Hlen; cbn [write_range length fmap list_fmap app] in *.
  - rewrite Nat.add_0_r, take_drop. by rewrite list_insert_id.
  - rewrite (store_spec _ _ _ _ _ Hh), (proj2 (Nat.ltb_lt _ _)) by lia. cbn [mbind option_bind].
    rewrite (IH _ _ _ _ (holds_insert _ _ _ _ Hh)) by (rewrite length_insert; lia).
    rewrite list_insert_insert_eq. do 3 f_equal.
    destruct (lookup_lt_is_Some_2 c off) as [x Hx]; [lia|]. pose proof (take_drop_middle _ _ _ Hx) as Hc.
    pose proof (length_take_le c off ltac:(lia)) as Ha. revert Hc Ha.
    generalize (take off c) as a, (drop (S off) c) as d. intros a d <- <-.
    rewrite (drop_app_ge a (x :: d)) by lia. replace (length a + S (length l) - length a) with (S (length l)) by lia.
    rewrite insert_app_r_alt, Nat.sub_diag by done. change (<[0 := Some v]> (x :: d)) with (Some v :: d).
    rewrite (cons_middle (Some v) a d), (app_assoc a).
    rewrite take_app_length' by (rewrite length_app; simpl; lia). rewrite <- app_assoc. do 3 f_equal.
    rewrite drop_app_ge by (rewrite length_app; simpl; lia). simpl. f_equal. rewrite length_app. simpl. lia.
Qed.

Lemma fill_write p n : forall cur h, fill p cur n h = write_range p cur (replicate n x00) h.
Proof. induction n as [|n IH]; intros cur h; [done|]. simpl. destruct (store p cur x00 h); [apply IH|done]. Qed.

(** Writing past the end is undefined. *)
Lemma write_range_overflow l : forall p off h c, holds h p c -> length c < off + length l -> off <= length c -> write_range p off l h = None.
Proof.
  induction l as [|v l IH]; intros p off h c Hh Hlen Hoff; cbn [write_range length] in *; [lia|].
  rewrite (store_spec _ _ _ _ _ Hh). destruct (Nat.ltb_spec off (length c)) as [Hlt|]; [|done]. cbn [mbind option_bind].
  apply (IH _ _ _ (<[off := Some v]> c)); [by apply (holds_insert _ _ c)|rewrite length_insert; lia..].
Qed.

Lemma mapM_id_fmap (l : list byte) : mapM id (Some <$> l) = Some l.
Proof. apply mapM_Some_2, Forall2_fmap_l, Forall_Forall2_diag. by apply Forall_true. Qed.

Lemma read_range_spec p off n h c l : holds h p c -> take n (drop off c) = Some <$> l -> off + n <= length c ->
  read_range p off n h = Some l.
Proof.
  unfold holds, read_range. intros -> Hl Hlen. simpl. rewrite (proj2 (Nat.leb_le _ _)) by lia. rewrite Hl. apply mapM_id_fmap.
Qed.

Lemma slice_get_spec p off n h c l : holds h p c -> take n (drop off c) = Some <$> l -> off + n <= length c ->
  slice_get (Mem p off n) h = Some l.
Proof.
  intros Hh Hl Hn. cbn [slice_get]. destruct (Nat.eqb_spec n 0) as [->|_]; [|by eapply read_range_spec].
  rewrite take_0 in Hl. by destruct l.
Qed.

(** What a vector that was just filled looks like. *)
Lemma vec_with_spec `{Alloc} n l h : length l <= n ->
  vec_with n l h = Some (mkVec (length h) (length l) (cap_for n),
    h ++ [mkBlock ((Some <$> l) ++ replicate (cap_for n - length l) None) true]).
Proof.
  intros Hl. unfold vec_with. pose proof (cap_for_ok n) as Hcap. revert Hcap. generalize (cap_for n) as cap. intros cap Hcap.
  pose proof (alloc_holds cap h) as Ha. cbn [alloc fst snd] in *.
  rewrite (write_range_spec _ _ _ _ _ Ha) by (rewrite length_replicate; lia). cbn [mbind option_bind]. do 2 f_equal.
  rewrite take_0, drop_replicate, insert_app_r_alt, Nat.sub_diag by lia. done.
Qed.

(** A block full of zeroes. *)
Definition zeroes (n : nat) (live : bool) : Block := mkBlock (replicate n (Some x00)) live.

Lemma fill_all h p c : holds h p c -> fill p 0 (length c) h = Some (<[p := zeroes (length c) true]> h).
Proof.
  intros Hh. rewrite fill_write, (write_range_spec _ _ _ _ _ Hh) by (rewrite length_replicate; lia). unfold zeroes.
  rewrite take_0, fmap_replicate, length_replicate. cbn [plus]. by rewrite drop_all, app_nil_r.
Qed.

Lemma free_holds h p c : holds h p c -> free p h = Some (<[p := mkBlock c false]> h).
Proof. unfold holds, free. by intros ->. Qed.

Lemma read_range_inv p off n h l : read_range p off n h = Some l ->
  exists c, holds h p c /\ off + n <= length c /\ take n (drop off c) = Some <$> l.
Proof.
  unfold read_range. destruct (h !! p) as [[c [|]]|] eqn:Hp; cbn; [|done..].
  destruct (Nat.leb_spec (off + n) (length c)) as [Hn|]; [|done]. intros Hl. exists c. split; [done|]. split; [done|].
  apply mapM_Some_1 in Hl. revert Hl. generalize (take n (drop off c)) as k. intros k. induction 1 as [|x b k l Hx _ IH]; [done|].
  cbn in *. by rewrite IH, Hx.
Qed.

(** [Vec::with_capacity] of bytes allocates what it is asked for. *)
Definition Alloc_exact : Alloc := {| cap_for n := n; cap_for_ok n := le_n n |}.
