(* ===== verification/SecretBuf.v ===== *)
(** * SecretBuf

    [src/string/secretbuf.rs]: the buffer secrets are put together in, which
    keeps all of its capacity written so that it can be handed to readers, and
    overwrites it before it is freed.  Memory is that of [Memory]. *)

From stdpp Require Import list.
From S2P Require Import Prelude Memory.

Record SecretBuf := mkSecret { sdata : OwnedSlice; slen : nat }.

Definition is_empty (s : SecretBuf) : bool := slen s =? 0.

Section SecretBuf.
Context `{Alloc}.

(** [From<Vec<u8>>]. *)
Definition from_vec (value : Vec) (h : Heap) : option (SecretBuf * Heap) :=
  let (data, len) := Memory.from_vec value in
  h ← init_capacity data len h;
  Some (mkSecret data len, h).

Definition with_capacity (count : nat) (h : Heap) : option (SecretBuf * Heap) :=
  '(vec, h) ← vec_with count [] h;
  from_vec vec h.

Definition as_ref (s : SecretBuf) (h : Heap) : option (list byte) := slice_get (as_slice (sdata s) (slen s)) h.

Definition reserve (len : nat) (s : SecretBuf) (h : Heap) : option (SecretBuf * Heap) :=
  if write_capacity (sdata s) (slen s) <? len then
    old ← as_ref s h;
    '(vec, h) ← vec_with (slen s + len) old h;
    let resized := (Memory.from_vec vec).1 in
    h ← init_capacity resized (slen s) h;
    h ← reinit_all (sdata s) h;
    h ← drop_owned (sdata s) h;
    Some (mkSecret resized (slen s), h)
  else Some (s, h).

(** [unwrap_unchecked] on an empty slice is undefined. *)
Definition push (b : byte) (extra : nat) (s : SecretBuf) (h : Heap) : option (SecretBuf * Heap) :=
  '(s, h) ← if slen s =? capacity (sdata s) then reserve (1 + extra) s h else Some (s, h);
  n ← as_write_slice (sdata s) (slen s) h;
  if n =? 0 then None
  else
    h ← store (data (sdata s)) (slen s) b h;
    Some (mkSecret (sdata s) (slen s + 1), h).

Definition push_cstr (slice : list byte) (s : SecretBuf) (h : Heap) : option (SecretBuf * Heap) :=
  let len := length slice + 1 in
  '(s, h) ← reserve len s h;
  n ← as_write_slice (sdata s) (slen s) h;
  if n <? len then None
  else
    h ← write_range (data (sdata s)) (slen s) slice h;
    h ← store (data (sdata s)) (slen s + length slice) x00 h;
    Some (mkSecret (sdata s) (slen s + len), h).

(** [std::io::Read]: at most [n] bytes. *)
Class Reader (R E : Type) := rd_read : nat -> R -> result (list byte) E * R.

Fixpoint read_loop {R E} `{Reader R E} (fuel expect p cur room bytes_read : nat) (rd : R) (h : Heap)
    : option (result nat E * R * Heap) :=
  match fuel with
  | 0 => None
  | S fuel =>
      if bytes_read <? expect then
        match rd_read room rd with
        | (Err e, rd) => Some (Err e, rd, h)
        | (Ok l, rd) =>
            h ← write_range p cur l h;
            let last_read := length l in
            if last_read =? 0 then Some (Ok bytes_read, rd, h)
            else if room <? last_read then None
            else read_loop fuel expect p (cur + last_read) (room - last_read) (bytes_read + last_read) rd h
        end
      else Some (Ok bytes_read, rd, h)
  end.

Definition read_from {R E} `{Reader R E} (expect : nat) (rd : R) (s : SecretBuf) (h : Heap)
    : option (result nat E * R * SecretBuf * Heap) :=
  '(s, h) ← reserve expect s h;
  room ← as_write_slice (sdata s) (slen s) h;
  '(r, rd, h) ← read_loop (S expect) expect (data (sdata s)) (slen s) room 0 rd h;
  match r with
  | Err e => Some (Err e, rd, s, h)
  | Ok bytes_read => Some (Ok bytes_read, rd, mkSecret (sdata s) (slen s + bytes_read), h)
  end.

(** [Cursor<&[u8]>]. *)
Definition Cursor_Reader : Reader (list byte) () := fun n l => (Ok (take n l), drop n l).
#[local] Existing Instance Cursor_Reader.

Definition push_slice (slice : list byte) (s : SecretBuf) (h : Heap) : option (SecretBuf * Heap) :=
  '(_, _, s, h) ← read_from (E := ()) (length slice) slice s h;
  Some (s, h).

Definition clear (s : SecretBuf) : SecretBuf := mkSecret (sdata s) 0.

(** [Drop]. *)
Definition drop_secret (s : SecretBuf) (h : Heap) : option Heap :=
  h ← reinit_all (sdata s) h;
  drop_owned (sdata s) h.

(** [FromIterator], over an iterator with its [size_hint]. *)
Class ByteIterator (I : Type) := {
  next : I -> option (byte * I);
  size_hint : I -> nat * option nat;
}.

Fixpoint from_iter_loop {I} `{BI : ByteIterator I} (fuel : nat) (iter : I) (s : SecretBuf) (h : Heap) : option (SecretBuf * Heap) :=
  match fuel with
  | 0 => None
  | S fuel =>
      match next iter with
      | None => Some (s, h)
      | Some (b, iter) => '(s, h) ← push b (size_hint iter).1 s h; from_iter_loop fuel iter s h
      end
  end.

Definition from_iter {I} `{BI : ByteIterator I} (fuel : nat) (iter : I) (h : Heap) : option (SecretBuf * Heap) :=
  let size := match size_hint iter with
              | (min, Some max) => Nat.max min (Nat.min (N.to_nat 65535) max)
              | (min, None) => min
              end in
  '(retval, h) ← with_capacity size h;
  from_iter_loop fuel iter retval h.

(** ** What a buffer holds *)

(** The block is all written, and starts with [l]. *)
Definition buf_holds (s : SecretBuf) (h : Heap) (l : list byte) : Prop :=
  exists c, holds h (data (sdata s)) (Some <$> c) /\ length c = capacity (sdata s) /\ slen s <= capacity (sdata s) /\
    take (slen s) c = l.

Lemma buf_as_ref s h l : buf_holds s h l -> as_ref s h = Some l.
Proof.
  intros (c & Hh & Hc & Hn & <-). apply (slice_get_spec _ _ _ _ _ _ Hh); [|rewrite length_fmap; lia].
  by rewrite drop_0, fmap_take.
Qed.

Lemma buf_write_slice s h l : buf_holds s h l -> as_write_slice (sdata s) (slen s) h = Some (capacity (sdata s) - slen s).
Proof.
  intros (c & Hh & Hc & Hn & <-). unfold as_write_slice.
  rewrite (read_range_spec _ _ _ _ _ (drop (slen s) c) Hh); [done|..].
  - rewrite fmap_drop, take_ge; [done|]. rewrite length_drop, length_fmap. lia.
  - rewrite length_fmap. lia.
Qed.

(** Writing after what is there. *)
Lemma buf_append s h l bytes : buf_holds s h l -> slen s + length bytes <= capacity (sdata s) ->
  exists h', write_range (data (sdata s)) (slen s) bytes h = Some h' /\
    buf_holds (mkSecret (sdata s) (slen s + length bytes)) h' (l ++ bytes) /\
    length h' = length h /\ forall q, q <> data (sdata s) -> h' !! q = h !! q.
Proof.
  intros (c & Hh & Hc & Hn & <-) Hfit.
  rewrite (write_range_spec _ _ _ _ _ Hh) by (rewrite length_fmap; lia).
  eexists. split; [done|]. split_and!; [|by rewrite length_insert|intros q Hq; by rewrite list_lookup_insert_ne].
  exists (take (slen s) c ++ bytes ++ drop (slen s + length bytes) c). cbn [sdata slen]. split_and!.
  - rewrite !fmap_app, fmap_take, fmap_drop. by eapply holds_insert.
  - rewrite !length_app, length_take, length_drop. lia.
  - lia.
  - rewrite app_assoc. apply take_app_length'. rewrite length_app, length_take. lia.
Qed.

Lemma reserve_noop n s h : slen s + n <= capacity (sdata s) -> reserve n s h = Some (s, h).
Proof. intros Hn. unfold reserve, write_capacity. by rewrite (proj2 (Nat.ltb_ge _ _)) by lia. Qed.

Lemma with_capacity_spec n h :
  with_capacity n h = Some (mkSecret (mkOwned (length h) (cap_for n)) 0, h ++ [zeroes (cap_for n) true]).
Proof.
  unfold with_capacity, vec_with, from_vec, init_capacity. cbn [alloc write_range mbind option_bind vptr vlen vcap length Memory.from_vec data capacity].
  pose proof (alloc_holds (cap_for n) h) as Ha. cbn [alloc fst snd] in Ha. apply fill_all in Ha. rewrite length_replicate in Ha.
  rewrite Ha. cbn [mbind option_bind]. do 2 f_equal.
  rewrite insert_app_r_alt, Nat.sub_diag by lia. done.
Qed.

Lemma with_capacity_holds n h s h' : with_capacity n h = Some (s, h') -> buf_holds s h' [] /\ sdata s = mkOwned (length h) (cap_for n) /\ slen s = 0.
Proof.
  rewrite with_capacity_spec. intros [= <- <-]. split; [|done]. exists (replicate (cap_for n) x00). cbn. split_and!; [|by rewrite length_replicate|lia|done].
  unfold holds. by rewrite lookup_app_r, Nat.sub_diag, fmap_replicate by lia.
Qed.

(** [reserve] of a buffer that has to grow. *)
Lemma reserve_grows n s h l : buf_holds s h l -> capacity (sdata s) < slen s + n ->
  (0 < slen s -> reserve n s h = None) /\
  (slen s = 0 -> exists s' h', reserve n s h = Some (s', h') /\ buf_holds s' h' [] /\ n <= capacity (sdata s') /\ slen s' = 0 /\
     h' !! data (sdata s) = Some (zeroes (capacity (sdata s)) false)).
Proof.
  intros Hb Hn. pose proof (buf_as_ref _ _ _ Hb) as Hr. destruct Hb as (c & Hh & Hc & Hle & Hl).
  unfold reserve, write_capacity. rewrite (proj2 (Nat.ltb_lt _ _)), Hr by lia. cbn [mbind option_bind].
  assert (Hll : length l = slen s) by (rewrite <- Hl; apply length_take_le; lia).
  rewrite vec_with_spec by lia. pose proof (cap_for_ok (slen s + n)) as Hcap. revert Hcap. generalize (cap_for (slen s + n)) as cap. intros cap Hcap.
  cbn [mbind option_bind Memory.from_vec fst vptr vcap vlen].
  unfold init_capacity. cbn [data capacity]. rewrite fill_write.
  set (h2 := h ++ _). assert (H2 : holds h2 (length h) ((Some <$> l) ++ replicate (cap - length l) None)).
  { unfold holds, h2. by rewrite lookup_app_r, Nat.sub_diag by lia. }
  split.
  - intros H0. by rewrite (write_range_overflow _ _ _ _ _ H2) by (rewrite !length_app, length_fmap, !length_replicate; lia).
  - intros H0. rewrite H0 in *. destruct l; [|done]. cbn [fmap list_fmap app length] in H2. rewrite <- fill_write.
    pose proof (fill_all _ _ _ H2) as Hf. rewrite length_replicate in Hf. cbn [plus] in Hf, H2. rewrite Nat.sub_0_r in Hf, H2. rewrite Hf. cbn [mbind option_bind].
    assert (Hp : data (sdata s) < length h) by (by eapply lookup_lt_Some).
    set (h3 := <[length h := _]> h2).
    assert (H3 : holds h3 (data (sdata s)) (Some <$> c)).
    { unfold holds, h3, h2. rewrite !list_lookup_insert_ne, lookup_app_l by lia. exact Hh. }
    unfold reinit_all, drop_owned. pose proof (fill_all _ _ _ H3) as Hr3. rewrite length_fmap, Hc in Hr3. rewrite Hr3. cbn [mbind option_bind].
    rewrite (free_holds _ _ (replicate (capacity (sdata s)) (Some x00))) by (by eapply holds_insert).
    eexists _, _. split; [done|]. cbn [sdata slen capacity data]. split_and!; [|lia|done|].
    + exists (replicate cap x00). cbn [sdata slen capacity data]. split_and!; [|by rewrite length_replicate|lia|done].
      unfold holds. rewrite !list_lookup_insert_ne by lia. rewrite fmap_replicate. unfold h3. rewrite list_lookup_insert_eq; [done|].
      unfold h2. rewrite length_app. simpl. lia.
    + rewrite list_lookup_insert_eq; [done|]. unfold h3, h2. rewrite !length_insert, length_app. lia.
Qed.

Lemma buf_len s h l : buf_holds s h l -> slen s = length l.
Proof. intros (c & _ & Hc & Hn & <-). rewrite length_take. lia. Qed.

Lemma drop_secret_holds s h l : buf_holds s h l ->
  drop_secret s h = Some (<[data (sdata s) := zeroes (capacity (sdata s)) false]> h).
Proof.
  intros (c & Hh & Hc & _). unfold drop_secret, reinit_all, drop_owned. pose proof (fill_all _ _ _ Hh) as Hf. rewrite length_fmap, Hc in Hf.
  rewrite Hf. cbn [mbind option_bind]. rewrite (free_holds _ _ (replicate (capacity (sdata s)) (Some x00))) by (by eapply holds_insert).
  by rewrite list_insert_insert_eq.
Qed.

Lemma write_range_snoc l v : forall p off h,
  write_range p off (l ++ [v]) h = (h ← write_range p off l h; store p (off + length l) v h).
Proof.
  induction l as [|x l IH]; intros p off h; cbn [app write_range length].
  - rewrite Nat.add_0_r. simpl. by destruct (store p off v h).
  - destruct (store p off x h); [|done]. cbn [mbind option_bind]. rewrite IH. by rewrite Nat.add_succ_r.
Qed.

(** ** Using a buffer *)

Inductive Op := OPush (b : byte) (extra : nat) | OPushCstr (l : list byte) | OPushSlice (l : list byte) | OClear.

Definition run_op (o : Op) (s : SecretBuf) (h : Heap) : option (SecretBuf * Heap) :=
  match o with
  | OPush b extra => push b extra s h
  | OPushCstr l => push_cstr l s h
  | OPushSlice l => push_slice l s h
  | OClear => Some (clear s, h)
  end.

Fixpoint run_ops (ops : list Op) (s : SecretBuf) (h : Heap) : option (SecretBuf * Heap) :=
  match ops with
  | [] => Some (s, h)
  | o :: ops => '(s, h) ← run_op o s h; run_ops ops s h
  end.

(** What the buffer holds afterwards. *)
Definition after (l : list byte) (o : Op) : list byte :=
  match o with OPush b _ => l ++ [b] | OPushCstr k => l ++ k ++ [x00] | OPushSlice k => l ++ k | OClear => [] end.

(** It never holds more than [n] bytes. *)
Fixpoint fits (n : nat) (l : list byte) (ops : list Op) : bool :=
  match ops with [] => true | o :: ops => (length (after l o) <=? n) && fits n (after l o) ops end.

Lemma run_op_spec o s h l : buf_holds s h l -> length (after l o) <= capacity (sdata s) ->
  exists s' h', run_op o s h = Some (s', h') /\ buf_holds s' h' (after l o) /\ sdata s' = sdata s /\
    length h' = length h /\ forall q, q <> data (sdata s) -> h' !! q = h !! q.
Proof.
  intros Hb Hfit. pose proof (buf_len _ _ _ Hb) as Hl. pose proof (buf_write_slice _ _ _ Hb) as Hw.
  assert (Happ : forall bytes, length (l ++ bytes) <= capacity (sdata s) -> exists h',
    write_range (data (sdata s)) (slen s) bytes h = Some h' /\ buf_holds (mkSecret (sdata s) (slen s + length bytes)) h' (l ++ bytes) /\
    length h' = length h /\ forall q, q <> data (sdata s) -> h' !! q = h !! q).
  { intros bytes Hn. rewrite length_app in Hn. apply buf_append; [done|lia]. }
  destruct o as [b extra|k|k|]; cbn [run_op after] in *.
  - destruct (Happ [b] Hfit) as (h' & Hwr & Hb' & Hs). rewrite length_app in Hfit. simpl in Hfit.
    unfold push. rewrite (proj2 (Nat.eqb_neq _ _)) by lia. cbn [mbind option_bind]. rewrite Hw. cbn [mbind option_bind].
    rewrite (proj2 (Nat.eqb_neq _ _)) by lia. cbn [write_range] in Hwr. destruct (store _ _ _ _); [|done]. injection Hwr as ->. by eexists _, _.
  - destruct (Happ (k ++ [x00]) Hfit) as (h' & Hwr & Hb' & Hs). rewrite !length_app in Hfit. simpl in Hfit.
    unfold push_cstr. rewrite reserve_noop by lia. cbn [mbind option_bind]. rewrite Hw. cbn [mbind option_bind].
    rewrite (proj2 (Nat.ltb_ge _ _)) by lia. rewrite write_range_snoc in Hwr. destruct (write_range _ _ k h); [|done]. cbn [mbind option_bind] in *.
    rewrite Hwr. cbn [mbind option_bind]. rewrite length_app in Hb'. by eexists _, _.
  - destruct (Happ k Hfit) as (h' & Hwr & Hb' & Hs). rewrite length_app in Hfit.
    unfold push_slice, read_from. rewrite reserve_noop by lia. cbn [mbind option_bind]. rewrite Hw. cbn [mbind option_bind read_loop].
    destruct k as [|b k]; [injection Hwr as ->; cbn; by eexists _, _|]. cbn [length] in *. rewrite (proj2 (Nat.ltb_lt 0 _)) by lia.
    unfold rd_read, Cursor_Reader. rewrite (take_ge (b :: k)) by (simpl; lia). rewrite Hwr. cbn [mbind option_bind length Nat.eqb].
    rewrite (proj2 (Nat.ltb_ge _ _)) by lia. cbn [plus read_loop]. rewrite (proj2 (Nat.ltb_ge _ _)) by lia. by eexists _, _.
  - eexists _, _. split; [done|]. destruct Hb as (c & Hh & Hc & Hn & _). split_and!; try done. exists c. cbn. split_and!; done || lia.
Qed.

Lemma run_ops_spec n ops : forall s h l, buf_holds s h l -> n <= capacity (sdata s) -> fits n l ops = true ->
  exists s' h', run_ops ops s h = Some (s', h') /\ buf_holds s' h' (foldl after l ops) /\ sdata s' = sdata s /\
    length h' = length h /\ forall q, q <> data (sdata s) -> h' !! q = h !! q.
Proof.
  induction ops as [|o ops IH]; intros s h l Hb Hn Hf; [by eexists _, _|]. cbn [fits] in Hf. apply andb_true_iff in Hf as [Hlen%Nat.leb_le Hf].
  destruct (run_op_spec o s h l Hb ltac:(lia)) as (s1 & h1 & Hr & Hb1 & Hd1 & Hh1 & Ho1).
  destruct (IH s1 h1 _ Hb1 ltac:(by rewrite Hd1) Hf) as (s2 & h2 & Hr2 & Hb2 & Hd2 & Hh2 & Ho2).
  exists s2, h2. cbn [run_ops]. rewrite Hr. cbn [mbind option_bind]. split; [done|]. split; [done|]. split; [congruence|]. split; [lia|].
  intros q Hq. rewrite Ho2 by congruence. by apply Ho1.
Qed.

(** A buffer made large enough for everything it is to hold never leaves its
    memory: it holds what was appended since it was last cleared, and once
    dropped all it leaves is one freed block overwritten with zeroes. *)
Theorem secretbuf_correct n ops (h : Heap) :
  fits n [] ops = true ->
  exists s h0 s' h', with_capacity n h = Some (s, h0) /\ run_ops ops s h0 = Some (s', h') /\
    as_ref s' h' = Some (foldl after [] ops) /\
    drop_secret s' h' = Some (h ++ [zeroes (cap_for n) false]).
Proof.
  intros Hf. destruct (with_capacity n h) as [[s h0]|] eqn:Hw; [|by rewrite with_capacity_spec in Hw].
  destruct (with_capacity_holds _ _ _ _ Hw) as (Hb & Hd & _).
  destruct (run_ops_spec n ops s h0 [] Hb) as (s' & h' & Hr & Hb' & Hd' & Hlen & Ho); [rewrite Hd; apply cap_for_ok|done|].
  exists s, h0, s', h'. split; [done|]. split; [done|]. split; [by apply buf_as_ref|].
  rewrite (drop_secret_holds _ _ _ Hb'), Hd', Hd. cbn [data capacity]. f_equal.
  rewrite with_capacity_spec in Hw. injection Hw as <- <-. rewrite length_app in Hlen. simpl in Hlen.
  apply list_eq. intros q. destruct (decide (q = length h)) as [->|Hq].
  - rewrite list_lookup_insert_eq by lia. by rewrite lookup_app_r, Nat.sub_diag by lia.
  - rewrite list_lookup_insert_ne by done. rewrite Ho by done. destruct (decide (q < length h)); [by rewrite !lookup_app_l by done|].
    rewrite !lookup_ge_None_2; [done|rewrite length_app; simpl; lia..].
Qed.

(** C37: [reserve] is undefined, for it writes zeroes past the end of the new
    block, exactly when a buffer with something in it has to grow; otherwise it
    makes room and keeps the content. *)
Theorem reserve_exact n s (h : Heap) l :
  buf_holds s h l ->
  match reserve n s h with
  | None => capacity (sdata s) < slen s + n /\ l <> []
  | Some (s', h') => buf_holds s' h' l /\ slen s' + n <= capacity (sdata s') /\
      ((s' = s /\ h' = h) \/ (l = [] /\ h' !! data (sdata s) = Some (zeroes (capacity (sdata s)) false)))
  end.
Proof.
  intros Hb. pose proof (buf_len _ _ _ Hb) as Hl. destruct (decide (slen s + n <= capacity (sdata s))) as [Hn|Hn].
  - rewrite reserve_noop by done. auto.
  - destruct (reserve_grows n s h l Hb ltac:(lia)) as [Hno Hyes]. destruct l as [|b l]; simpl in Hl.
    + destruct (Hyes Hl) as (s' & h' & -> & Hb' & Hc & Hs' & Hz). split; [done|]. split; [lia|]. by right.
    + rewrite Hno by lia. split; [lia|done].
Qed.

(** [From<Vec<u8>>] makes the same mistake for every vector with something in it. *)
Lemma from_vec_overflows l (h : Heap) : l <> [] -> ('(v, h) ← to_vec l h; from_vec v h) = None.
Proof.
  intros Hl. unfold to_vec, vec_with. pose proof (alloc_holds (cap_for (length l)) h) as Ha. pose proof (cap_for_ok (length l)) as Hcap.
  destruct (alloc _ h) as [p h1]. cbn [fst snd] in Ha.
  rewrite (write_range_spec _ _ _ _ _ Ha) by (rewrite length_replicate; lia). cbn [mbind option_bind from_vec Memory.from_vec vptr vlen vcap].
  unfold init_capacity. cbn [data capacity]. rewrite fill_write.
  assert (0 < length l) by (destruct l; [done|simpl; lia]).
  erewrite write_range_overflow; [done|by eapply holds_insert|..];
    rewrite !length_app, length_take, length_fmap, length_drop, !length_replicate; lia.
Qed.

(** ** Readers *)

Section Readers.
Context {R E : Type} `{Reader R E}.

(** What [std::io::Read] promises. *)
Definition reader_ok : Prop := forall n rd l rd', rd_read n rd = (Ok l, rd') -> length l <= n.

Lemma read_loop_spec expect : reader_ok -> forall fuel s h l0 bytes rd,
  buf_holds (mkSecret (sdata s) (slen s + length bytes)) h (l0 ++ bytes) -> expect - length bytes < fuel ->
  exists r rd' h', read_loop fuel expect (data (sdata s)) (slen s + length bytes) (capacity (sdata s) - (slen s + length bytes)) (length bytes) rd h = Some (r, rd', h') /\
    length h' = length h /\ (forall q, q <> data (sdata s) -> h' !! q = h !! q) /\
    exists more, buf_holds (mkSecret (sdata s) (slen s + length (bytes ++ more))) h' (l0 ++ bytes ++ more) /\
    match r with
    | Ok k => k = length (bytes ++ more) /\ (k < expect -> exists n rd0, rd_read n rd0 = (Ok [], rd'))
    | Err e => length (bytes ++ more) < expect /\ exists n rd0, rd_read n rd0 = (Err e, rd')
    end.
Proof.
  intros Hok. induction fuel as [|fuel IH]; intros s h l0 bytes rd Hb Hf; cbn [read_loop].
  - lia.
  - destruct (Nat.ltb_spec (length bytes) expect) as [Hlt|Hge].
    2: { exists (Ok (length bytes)), rd, h. split_and!; [done..|]. exists []. rewrite app_nil_r. split; [done|]. split; [done|lia]. }
    set (room := capacity (sdata s) - _). destruct (rd_read room rd) as [[k|e] rd1] eqn:Hrd.
    2: { exists (Err e), rd1, h. split_and!; [done..|]. exists []. rewrite app_nil_r. split; [done|]. by split; [|exists room, rd]. }
    apply Hok in Hrd as Hk. assert (Hcap : slen s + length bytes <= capacity (sdata s)) by (by destruct Hb as (? & _ & _ & ? & _)).
    destruct (buf_append (mkSecret (sdata s) (slen s + length bytes)) h _ k Hb) as (h1 & Hw & Hb1 & Hl1 & Ho1); [cbn; lia|].
    cbn [sdata slen] in *. rewrite Hw. cbn [mbind option_bind].
    destruct (Nat.eqb_spec (length k) 0) as [Hk0|Hk0].
    + apply nil_length_inv in Hk0 as ->. injection Hw as ->. exists (Ok (length bytes)), rd1, h1. split_and!; [done..|]. exists []. rewrite app_nil_r.
      split; [done|]. split; [done|]. intros _. by exists room, rd.
    + rewrite (proj2 (Nat.ltb_ge _ _)) by lia.
      destruct (IH s h1 l0 (bytes ++ k) rd1) as (r & rd' & h' & Hr & Hl' & Ho' & more & Hb' & Hm).
      * rewrite length_app, app_assoc, Nat.add_assoc. exact Hb1.
      * rewrite length_app. lia.
      * exists r, rd', h'. rewrite length_app, Nat.add_assoc in Hr. unfold room. rewrite <- Nat.sub_add_distr. split; [exact Hr|].
        split; [lia|]. split; [intros q Hq; rewrite Ho' by done; by apply Ho1|]. exists (k ++ more). by rewrite !app_assoc in *.
Qed.

(** Reading into a buffer with room for what is expected ends and stays within
    the block, for every reader: on success the buffer has grown by what was read,
    which is less than expected only at the end of the input; on an error its
    content is what it was. *)
Theorem read_from_correct expect rd s (h : Heap) l :
  reader_ok -> buf_holds s h l -> slen s + expect <= capacity (sdata s) ->
  exists r rd' s' h', read_from expect rd s h = Some (r, rd', s', h') /\
    sdata s' = sdata s /\ (forall q, q <> data (sdata s) -> h' !! q = h !! q) /\
    match r with
    | Ok k => exists bytes, length bytes = k /\ buf_holds s' h' (l ++ bytes) /\
        (k < expect -> exists n rd0, rd_read n rd0 = (Ok [], rd'))
    | Err e => buf_holds s' h' l /\ exists n rd0, rd_read n rd0 = (Err e, rd')
    end.
Proof.
  intros Hok Hb Hfit. unfold read_from. rewrite reserve_noop by done. cbn [mbind option_bind]. rewrite (buf_write_slice _ _ _ Hb). cbn [mbind option_bind].
  destruct (read_loop_spec expect Hok (S expect) s h l [] rd) as (r & rd' & h' & Hr & _ & Ho & more & Hb' & Hm).
  { rewrite app_nil_r. cbn. rewrite Nat.add_0_r. by destruct s. }
  { simpl. lia. }
  cbn [length app] in *. rewrite Nat.add_0_r in Hr. rewrite Hr. cbn [mbind option_bind]. destruct r as [k|e].
  - eexists _, _, _, _. split; [done|]. split; [done|]. split; [done|]. destruct Hm as [-> Hm]. by exists more.
  - eexists _, _, _, _. split; [done|]. split; [done|]. split; [done|]. destruct Hm as [_ Hm]. split; [|exact Hm].
    destruct Hb' as (c & Hh & Hc & Hle & Hl). pose proof (buf_len _ _ _ Hb) as Hlen. exists c. split; [done|]. split; [done|]. split; [lia|].
    cbn [slen] in Hl. apply (f_equal (take (slen s))) in Hl. rewrite take_take, Nat.min_l in Hl by lia. rewrite Hl.
    apply take_app_length'. lia.
Qed.
End Readers.
End SecretBuf.

(** ** Iterators *)

(** A slice's iterator knows its length, [std::iter::from_fn] nothing. *)
Definition List_iterator : ByteIterator (list byte) := {|
  next l := match l with [] => None | b :: l => Some (b, l) end;
  size_hint l := (length l, Some (length l));
|}.
Definition Fn_iterator : ByteIterator (list byte) := {|
  next l := match l with [] => None | b :: l => Some (b, l) end;
  size_hint _ := (0, None);
|}.

Section FromIter.
Context `{Alloc}.

Lemma from_iter_loop_spec l : forall s h acc, buf_holds s h acc -> length acc + length l <= capacity (sdata s) ->
  exists s' h', from_iter_loop (BI := List_iterator) (S (length l)) l s h = Some (s', h') /\ buf_holds s' h' (acc ++ l).
Proof.
  induction l as [|b l IH]; intros s h acc Hb Hn; [eexists _, _; rewrite app_nil_r; by split|].
  cbn [from_iter_loop next List_iterator length size_hint fst] in *.
  destruct (run_op_spec (OPush b (length l)) s h acc Hb) as (s1 & h1 & Hr & Hb1 & Hd & _); [cbn; rewrite length_app; simpl; lia|].
  cbn [run_op] in Hr. rewrite Hr. cbn [mbind option_bind].
  destruct (IH s1 h1 _ Hb1) as (s2 & h2 & Hr2 & Hb2); [cbn; rewrite length_app, Hd; simpl; lia|]. exists s2, h2. split; [done|].
  cbn [after] in Hb2. by rewrite <- app_assoc in Hb2.
Qed.

(** Collecting an iterator that knows its length is always defined. *)
Lemma from_iter_exact_size l (h : Heap) :
  exists s h', from_iter (BI := List_iterator) (S (length l)) l h = Some (s, h') /\ as_ref s h' = Some l.
Proof.
  unfold from_iter. cbn [size_hint List_iterator]. set (n := Nat.max _ _). destruct (with_capacity n h) as [[s h1]|] eqn:Hw; [|by rewrite with_capacity_spec in Hw].
  destruct (with_capacity_holds _ _ _ _ Hw) as (Hb & Hd & _). cbn [mbind option_bind].
  destruct (from_iter_loop_spec l s h1 [] Hb) as (s' & h' & Hr & Hb').
  - rewrite Hd. pose proof (cap_for_ok n). cbn. lia.
  - exists s', h'. split; [done|]. by apply buf_as_ref.
Qed.
End FromIter.

(** ** Witnesses *)

#[local] Existing Instance Alloc_exact.

Lemma secretbuf_correct_witness :
  exists s h0 s' h', with_capacity 8 [] = Some (s, h0) /\ run_ops [OPushCstr (bs "me"); OPush "x"%byte 0; OPushSlice (bs "pass")] s h0 = Some (s', h') /\
    as_ref s' h' = Some (bs "me" ++ x00 :: bs "xpass") /\ drop_secret s' h' = Some [zeroes 8 false].
Proof. exact (secretbuf_correct 8 [OPushCstr (bs "me"); OPush "x"%byte 0; OPushSlice (bs "pass")] [] eq_refl). Defined.

Definition sample_buf : option (SecretBuf * Heap) := '(s, h) ← with_capacity 4 []; push_slice (bs "ab") s h.

Lemma reserve_exact_witness : exists s h, sample_buf = Some (s, h) /\ reserve 3 s h = None.
Proof.
  destruct sample_buf as [[s h]|] eqn:Hs; [|discriminate Hs]. exists s, h. split; [reflexivity|].
  assert (Hb : buf_holds s h (bs "ab")).
  { injection Hs as <- <-. exists (bs "ab" ++ [x00; x00]). split; [reflexivity|]. split; [reflexivity|]. split; [cbn; lia|reflexivity]. }
  pose proof (reserve_exact 3 s h (bs "ab") Hb) as Hr. destruct (reserve 3 s h) as [[s' h']|] eqn:He; [|reflexivity].
  destruct Hr as (_ & _ & [[-> ->]|[Hr _]]); [|discriminate Hr]. injection Hs as <- <-. vm_compute in He. discriminate He.
Defined.

#[local] Existing Instance Cursor_Reader.

Lemma read_from_correct_witness : exists s h rd' s' h', with_capacity 4 [] = Some (s, h) /\
  read_from (E := ()) 3 (bs "pw") s h = Some (Ok 2, rd', s', h').
Proof.
  destruct (with_capacity 4 []) as [[s h]|] eqn:Hs; [|discriminate Hs]. exists s, h.
  destruct (with_capacity_holds _ _ _ _ Hs) as (Hb & Hd & Hl).
  assert (Hok : reader_ok (R := list byte) (E := ())).
  { intros n rd l rd' Hrd. injection Hrd as <- _. rewrite length_take. lia. }
  destruct (read_from_correct (E := ()) 3 (bs "pw") s h [] Hok Hb) as (r & rd' & s' & h' & Hr & _).
  { rewrite Hd, Hl. cbn. lia. }
  exists rd', s', h'. split; [reflexivity|]. rewrite Hr. injection Hs as <- <-. vm_compute in Hr. injection Hr as <- _ _ _. reflexivity.
Defined.

(** More may be read than was expected. *)
Lemma read_from_exceeds : exists rd' s' h',
  ('(s, h) ← with_capacity 4 []; read_from (E := ()) 1 (bs "pass") s h) = Some (Ok 4, rd', s', h').
Proof. do 3 eexists. vm_compute. reflexivity. Qed.

(** Three bytes of an iterator that does not know its length are too many. *)
Lemma from_iter_overflows : from_iter (BI := Fn_iterator) 9 (bs "abc") [] = None.
Proof. vm_compute. reflexivity. Qed.
