(* ===== verification/OwnedBytes.v ===== *)
(** * Owned byte strings

    What [Bytes] of [src/string/bytes.rs] does with memory: a string points into
    a block that it shares with others through [OwnedBytes], a [ThinArc] of
    [src/util/thinarc.rs] around an [OwnedSlice].  [BytesCell] models the same
    operations on values; here they act on a heap, and [bytes_refine] relates
    the two.  One thread at a time; [ThinArc] models the counting under threads. *)

From stdpp Require Import list.
From S2P Require Import Prelude Transforms Memory.
From S2P Require BytesCell.

(** [ThinArcInner]; an arc's number is its address. *)
Record Arc := mkArc { rc : nat; inner : OwnedSlice; alive : bool }.
Record World := mkWorld { heap : Heap; arcs : list Arc }.

Definition with_heap (w : World) (h : Heap) : World := mkWorld h (arcs w).
Definition with_arc (w : World) (a : nat) (c : Arc) : World := mkWorld (heap w) (<[a := c]> (arcs w)).

(** ** [ThinArc] *)

Definition thin_new (o : OwnedSlice) (w : World) : nat * World :=
  (length (arcs w), mkWorld (heap w) (arcs w ++ [mkArc 1 o true])).

(** An arc that was not freed. *)
Definition thin_ref (a : nat) (w : World) : option Arc := c ← arcs w !! a; if alive c then Some c else None.

Definition thin_clone (a : nat) (w : World) : option World :=
  c ← thin_ref a w;
  Some (with_arc w a (mkArc (rc c + 1) (inner c) true)).

Definition try_unwrap (a : nat) (w : World) : option (result OwnedSlice () * World) :=
  c ← thin_ref a w;
  if rc c =? 1 then Some (Ok (inner c), with_arc w a (mkArc (rc c) (inner c) false)) else Some (Err (), w).

Definition thin_drop (a : nat) (w : World) : option World :=
  c ← thin_ref a w;
  if rc c =? 1 then
    h ← drop_owned (inner c) (heap w);
    Some (with_arc (with_heap w h) a (mkArc 0 (inner c) false))
  else Some (with_arc w a (mkArc (rc c - 1) (inner c) true)).

Section OwnedBytes.
Context `{Alloc}.

(** ** [OwnedBytes] *)

Definition owned_from_vec (v : Vec) (w : World) : option (option nat * Slice * World) :=
  if vlen v =? 0 then h ← free (vptr v) (heap w); Some (None, Static [], with_heap w h)
  else
    let (os, len) := from_vec v in
    let slice := as_slice os len in
    let (a, w) := thin_new os w in
    Some (Some a, slice, w).

Definition owned_into_vec (a : nat) (slice : Slice) (secret : bool) (w : World) : option (Vec * World) :=
  '(r, w) ← try_unwrap a w;
  match r with
  | Ok os =>
      '(retval, destroy, h) ← into_vec_with_slice os slice (heap w);
      match destroy with
      | Some destroy =>
          h ← if secret : bool then reinit_all destroy h else Some h;
          h ← drop_owned destroy h;
          Some (retval, with_heap w h)
      | None => Some (retval, with_heap w h)
      end
  | Err _ =>
      l ← slice_get slice (heap w);
      '(v, h) ← to_vec l (heap w);
      w ← thin_drop a (with_heap w h);
      Some (v, w)
  end.

(** ** [Bytes] *)

Record Bytes := mkBytes { bvalue : Slice; bowner : option nat; bsecret : bool }.

Definition empty : Bytes := mkBytes (Static []) None false.
Definition from_bytes (l : list byte) : Bytes := mkBytes (Static l) None false.

Definition bytes_of_vec (secret : bool) (v : Vec) (w : World) : option (Bytes * World) :=
  '(ownership, value, w) ← owned_from_vec v w;
  Some (mkBytes value ownership secret, w).
Definition from_vec_b (v : Vec) (w : World) : option (Bytes * World) := bytes_of_vec false v w.
Definition from_secret (v : Vec) (w : World) : option (Bytes * World) := bytes_of_vec true v w.

Definition clone_owner (o : option nat) (w : World) : option World :=
  match o with Some a => thin_clone a w | None => Some w end.

Definition clone (b : Bytes) (w : World) : option (Bytes * World) :=
  w ← clone_owner (bowner b) w;
  Some (mkBytes (bvalue b) (bowner b) (bsecret b), w).

(** [using_value], given a slice of the same string. *)
Definition using_value (b : Bytes) (value : Slice) (w : World) : option (Bytes * World) :=
  let empty := match value with Mem _ _ n => n =? 0 | Static l => bool_decide (l = []) end in
  let ownership := if empty then None else bowner b in
  w ← clone_owner ownership w;
  Some (mkBytes value ownership (bsecret b), w).

Definition drop_bytes (b : Bytes) (w : World) : option World :=
  match bowner b with Some a => thin_drop a w | None => Some w end.

(** Assigning over [self] drops what was there. *)
Definition owning_force (secret : bool) (b : Bytes) (w : World) : option (Bytes * World) :=
  l ← slice_get (bvalue b) (heap w);
  '(v, h) ← to_vec l (heap w);
  '(b', w) ← bytes_of_vec secret v (with_heap w h);
  w ← drop_bytes b w;
  Some (b', w).

Definition is_owning (b : Bytes) : bool := match bowner b with Some _ => true | None => false end.

Definition make_owning (b : Bytes) (w : World) : option (Bytes * World) :=
  if is_owning b then Some (b, w) else owning_force false b w.
Definition owning (b : Bytes) (w : World) : option (Bytes * World) :=
  if is_owning b then Some (b, w) else owning_force (bsecret b) b w.
Definition secret (b : Bytes) (w : World) : option (Bytes * World) :=
  if negb (bsecret b) && is_owning b then owning_force true b w
  else Some (mkBytes (bvalue b) (bowner b) true, w).

Definition into_vec (b : Bytes) (w : World) : option (Vec * World) :=
  match bowner b with
  | Some a => owned_into_vec a (bvalue b) (bsecret b) w
  | None => l ← slice_get (bvalue b) (heap w); '(v, h) ← to_vec l (heap w); Some (v, with_heap w h)
  end.

(** The part of a slice that a transformation keeps. *)
Definition sub_slice (s : Slice) (off n : nat) : Slice :=
  match s with Mem p o m => Mem p (o + off) (Nat.min n (m - off)) | Static l => Static (take n (drop off l)) end.

(** [transform], given what the [Transform] returned: a part of the value, or
    bytes of its own. *)
Inductive Transformed := TBorrowed (off n : nat) | TOwned (l : list byte).

Definition transform (t : Transformed) (b : Bytes) (w : World) : option (Bytes * World) :=
  match t with
  | TBorrowed off n =>
      let s := sub_slice (bvalue b) off n in
      l ← slice_get s (heap w);
      match l with
      | [] => w ← drop_bytes b w; Some (empty, w)
      | _ => Some (mkBytes s (bowner b) (bsecret b), w)
      end
  | TOwned [] => w ← drop_bytes b w; Some (empty, w)
  | TOwned o =>
      '(v, h) ← to_vec o (heap w);
      '(b', w) ← bytes_of_vec (bsecret b) v (with_heap w h);
      w ← drop_bytes b w;
      Some (b', w)
  end.

(** ** Any number of strings *)

(** What can be done to the strings of a table; [i] is one of them. *)
Inductive Op :=
| OFromVec (secret : bool) (l : list byte) | OFromBytes (l : list byte)
| OClone (i : nat) | OUsing (i off n : nat)
| OMakeOwning (i : nat) | OOwning (i : nat) | OSecret (i : nat) | OTransform (i : nat) (t : Transformed)
| ODrop (i : nat) | OIntoVec (i : nat).

Record System := mkSystem { world : World; handles : list (option Bytes) }.

(** The operation and the vector it makes, if any. *)
Definition run_op (o : Op) (s : System) : option (System * option Vec) :=
  let w := world s in
  let hs := handles s in
  let at_ i (f : Bytes -> World -> option (System * option Vec)) := match hs !! i with Some (Some b) => f b w | _ => None end in
  let add r := '(b, w) ← r; Some (mkSystem w (hs ++ [Some b]), None) in
  let set i f := at_ i (fun b w => '(b, w) ← f b w; Some (mkSystem w (<[i := Some b]> hs), None)) in
  match o with
  | OFromVec secret l => '(v, h) ← to_vec l (heap w); add (bytes_of_vec secret v (with_heap w h))
  | OFromBytes l => add (Some (from_bytes l, w))
  | OClone i => at_ i (fun b w => add (clone b w))
  | OUsing i off n => at_ i (fun b w => add (using_value b (sub_slice (bvalue b) off n) w))
  | OMakeOwning i => set i make_owning
  | OOwning i => set i owning
  | OSecret i => set i secret
  | OTransform i t => set i (transform t)
  | ODrop i => at_ i (fun b w => w ← drop_bytes b w; Some (mkSystem w (<[i := None]> hs), None))
  | OIntoVec i => at_ i (fun b w => '(v, w) ← into_vec b w; Some (mkSystem w (<[i := None]> hs), Some v))
  end.

(** The same on the values of [BytesCell]. *)
Definition cut (off n : nat) (l : list byte) : list byte := take n (drop off l).
Definition transformation (t : Transformed) (l : list byte) : Transformation :=
  match t with TBorrowed off n => mkTf (Borrowed (cut off n l)) PRecheck | TOwned o => mkTf (Owned o) PRecheck end.

Definition run_cell (o : Op) (cs : list (option BytesCell.Cell)) : option (list (option BytesCell.Cell) * option (list byte)) :=
  let at_ i (f : BytesCell.Cell -> option (list (option BytesCell.Cell) * option (list byte))) :=
    match cs !! i with Some (Some c) => f c | _ => None end in
  let add c := Some (cs ++ [Some c], None) in
  let set i f := at_ i (fun c => Some (<[i := Some (f c)]> cs, None)) in
  match o with
  | OFromVec secret l => add (if secret then BytesCell.from_secret l else BytesCell.from_vec l)
  | OFromBytes l => add (BytesCell.from_bytes l)
  | OClone i => at_ i (fun c => add (BytesCell.clone c))
  | OUsing i off n => at_ i (fun c => add (BytesCell.using_value c (cut off n (BytesCell.cvalue c)) PRecheck))
  | OMakeOwning i => set i BytesCell.make_owning
  | OOwning i => set i BytesCell.owning
  | OSecret i => set i BytesCell.secret
  | OTransform i t => set i (fun c => BytesCell.transform c (transformation t))
  | ODrop i => at_ i (fun _ => Some (<[i := None]> cs, None))
  | OIntoVec i => at_ i (fun c => Some (<[i := None]> cs, Some (BytesCell.into_vec c)))
  end.

(** ** The relation *)

Definition owned_by (w : World) (a : nat) (c : Arc) : Prop := arcs w !! a = Some c /\ alive c = true.

(** A string and its value; an owner is an arc that was not freed, around the
    block the string points into. *)
Definition rel (w : World) (b : Bytes) (c : BytesCell.Cell) : Prop :=
  slice_get (bvalue b) (heap w) = Some (BytesCell.cvalue c) /\
  is_owning b = BytesCell.ownership c /\ bsecret b = BytesCell.secret_ c /\
  match bowner b with
  | Some a => exists arc off n, owned_by w a arc /\ bvalue b = Mem (data (inner arc)) off n /\ 0 < n
  | None => match bvalue b with Mem _ _ n => n = 0 | Static _ => True end
  end.

Definition orel (w : World) : option Bytes -> option BytesCell.Cell -> Prop := option_Forall2 (rel w).

Definition owns (a : nat) (b : option Bytes) : nat :=
  match b with Some b => if bool_decide (bowner b = Some a) then 1 else 0 | None => 0 end.

(** Arcs count the strings they own and have a block each, and every block that
    was not freed is an arc's or was given out, as [vs] says. *)
Record inv (w : World) (hs : list (option Bytes)) (cs : list (option BytesCell.Cell)) (vs : list nat) : Prop := {
  inv_rel : Forall2 (orel w) hs cs;
  inv_rc a c : owned_by w a c -> rc c = total (owns a) hs /\ 0 < rc c;
  inv_block a c : owned_by w a c -> exists l, holds (heap w) (data (inner c)) l /\ length l = capacity (inner c);
  inv_distinct a1 a2 c1 c2 : owned_by w a1 c1 -> owned_by w a2 c2 -> data (inner c1) = data (inner c2) -> a1 = a2;
  inv_out p a c : p ∈ vs -> owned_by w a c -> data (inner c) <> p;
  inv_given p : p ∈ vs -> is_Some (heap w !! p);
  inv_live p b : heap w !! p = Some b -> live b = true -> p ∈ vs \/ exists a c, owned_by w a c /\ data (inner c) = p;
}.

(** A string is only affected by what happens to its arc and its block. *)
Lemma rel_frame w w' b c :
  rel w b c ->
  (forall a arc, bowner b = Some a -> owned_by w a arc ->
     exists arc', owned_by w' a arc' /\ inner arc' = inner arc /\ heap w' !! data (inner arc) = heap w !! data (inner arc)) ->
  rel w' b c.
Proof.
  intros (Hv & Ho & Hs & Hw) Hframe. unfold rel. destruct (bowner b) as [a|] eqn:Hb.
  - destruct Hw as (arc & off & n & Harc & Hm & Hn). destruct (Hframe a arc eq_refl Harc) as (arc' & Harc' & Hi & Hh).
    split_and!; [|done|done|].
    + rewrite Hm in *. cbn [slice_get] in *. unfold read_range in *. by rewrite Hh.
    + exists arc', off, n. by rewrite Hi.
  - split_and!; [|done..]. destruct (bvalue b) as [p off n|l]; [|done]. subst n. exact Hv.
Qed.

Lemma owns_insert a hs i b b' : hs !! i = Some b -> total (owns a) (<[i := b']> hs) + owns a b = total (owns a) hs + owns a b'.
Proof. apply total_insert. Qed.

(** Putting a string at the end into a free place. *)
Lemma inv_move w hs cs vs i b c :
  inv w (hs ++ [b]) (cs ++ [c]) vs -> hs !! i = Some None -> inv w (<[i := b]> hs) (<[i := c]> cs) vs.
Proof.
  intros [Hr Hc Hb Hd Ho Hg Hl] Hi. apply Forall2_app_inv in Hr as [Hr Hlast].
  2: { apply Forall2_length in Hr. rewrite !length_app in Hr. simpl in Hr. lia. }
  apply Forall2_cons_1 in Hlast as [Hlast _]. constructor; try done; [by apply Forall2_insert|].
  intros a arc Ha. destruct (Hc a arc Ha) as [E ?]. pose proof (owns_insert a hs i None b Hi) as T.
  rewrite total_app in E. cbn [owns] in T. lia.
Qed.

(** ** What the steps keep *)

Lemma owned_with w a c0 c x y h : arcs w !! a = Some c0 ->
  owned_by (with_arc (with_heap w h) a c) x y <-> (x = a /\ y = c /\ alive c = true) \/ (x <> a /\ owned_by w x y).
Proof.
  intros Ha. pose proof (lookup_lt_Some _ _ _ Ha). unfold owned_by. cbn [with_arc with_heap arcs]. destruct (decide (x = a)) as [->|Hx].
  - rewrite list_lookup_insert_eq by done. naive_solver.
  - rewrite list_lookup_insert_ne by done. naive_solver.
Qed.

Lemma thin_ref_owned w a c : owned_by w a c -> thin_ref a w = Some c.
Proof. intros [Ha Hl]. unfold thin_ref. rewrite Ha. simpl. by rewrite Hl. Qed.

(** The count of an arc changes with the strings it owns. *)
Lemma inv_count w hs cs vs a c n hs' cs' :
  inv w hs cs vs -> owned_by w a c -> 0 < n ->
  n = total (owns a) hs' -> (forall x, x <> a -> total (owns x) hs' = total (owns x) hs) ->
  let w' := with_arc w a (mkArc n (inner c) true) in
  Forall2 (orel w) hs' cs' -> inv w' hs' cs' vs.
Proof.
  intros [Hr Hc Hb Hd Ho Hg Hl] Ha Hn He Hx w' Hr'. destruct w as [h0 ars].
  assert (Howned : forall x y, owned_by w' x y <-> (x = a /\ y = mkArc n (inner c) true /\ true = true) \/ (x <> a /\ owned_by (mkWorld h0 ars) x y)).
  { intros x y. apply (owned_with (mkWorld h0 ars) a c (mkArc n (inner c) true) x y h0), Ha. }
  assert (Hold : forall x y, owned_by w' x y -> exists y', owned_by (mkWorld h0 ars) x y' /\ inner y' = inner y).
  { intros x y [(-> & -> & _)|[_ Hy]]%Howned; [by exists c|by exists y]. }
  assert (Hnew : forall x y, owned_by (mkWorld h0 ars) x y -> exists y', owned_by w' x y' /\ inner y' = inner y).
  { intros x y Hy. destruct (decide (x = a)) as [->|Hxa].
    - exists (mkArc n (inner c) true). split; [apply Howned; by left|]. destruct Hy as [Hy _], Ha as [Ha _]. cbn in *. congruence.
    - exists y. split; [apply Howned; by right|done]. }
  constructor.
  - eapply Forall2_impl; [exact Hr'|]. intros ob oc Hrel. inversion Hrel as [b k Hbk|]; constructor.
    eapply rel_frame; [exact Hbk|]. intros x y _ Hy. destruct (Hnew x y Hy) as (y' & Hy' & Hi). by exists y'.
  - intros x y [(-> & -> & _)|[Hxa Hy]]%Howned; [by split|]. destruct (Hc x y Hy) as [-> ?]. by rewrite Hx.
  - intros x y Hy. destruct (Hold x y Hy) as (y' & Hy' & <-). by apply (Hb x y').
  - intros x1 x2 y1 y2 H1 H2. destruct (Hold _ _ H1) as (z1 & K1 & <-), (Hold _ _ H2) as (z2 & K2 & <-). by apply Hd.
  - intros p x y Hp Hy. destruct (Hold _ _ Hy) as (z & K & <-). by apply (Ho p x).
  - done.
  - intros p b Hp Hlive. destruct (Hl p b Hp Hlive) as [?|(x & y & Hy & Hp')]; [by left|right].
    destruct (Hnew _ _ Hy) as (z & K & Hz). exists x, z. by rewrite Hz.
Qed.

(** One more string of an arc, or of none. *)
Lemma inv_share w hs cs vs b c :
  inv w hs cs vs -> rel w b c ->
  exists w', clone_owner (bowner b) w = Some w' /\ inv w' (hs ++ [Some b]) (cs ++ [Some c]) vs.
Proof.
  intros Hi Hrel. pose proof Hi as [Hr Hc Hb Hd Ho Hg Hl]. destruct (bowner b) as [a|] eqn:Hbo; cbn [clone_owner].
  - pose proof Hrel as (_ & _ & _ & Hw). rewrite Hbo in Hw. destruct Hw as (arc & off & n & Ha & _).
    unfold thin_clone. rewrite (thin_ref_owned _ _ _ Ha). cbn [mbind option_bind]. eexists. split; [done|].
    destruct (Hc a arc Ha) as [E Hp].
    apply (inv_count w hs cs vs a arc); [done|done|lia| | |].
    + rewrite total_app. cbn [owns]. rewrite Hbo, bool_decide_eq_true_2 by done. lia.
    + intros x Hx. rewrite total_app. cbn [owns]. rewrite Hbo, bool_decide_eq_false_2 by congruence. lia.
    + apply Forall2_app; [done|]; constructor; [by constructor|constructor].
  - exists w. split; [done|]. constructor; try done; [apply Forall2_app; [done|]; constructor; [by constructor|constructor]|].
    intros x y Hy. rewrite total_app. cbn [owns]. rewrite Hbo, bool_decide_eq_false_2 by done. rewrite Nat.add_0_r. by apply Hc.
Qed.

(** A string changed in place that keeps its owner. *)
Lemma inv_update w hs cs vs i b b' c' :
  inv w hs cs vs -> hs !! i = Some (Some b) -> rel w b' c' -> bowner b' = bowner b ->
  inv w (<[i := Some b']> hs) (<[i := Some c']> cs) vs.
Proof.
  intros [Hr Hc Hb Hd Ho Hg Hl] Hi Hrel Hbo. constructor; try done; [apply Forall2_insert; [done|by constructor]|].
  intros a arc Ha. pose proof (owns_insert a hs i _ (Some b') Hi) as T. cbn [owns] in T. rewrite Hbo in T.
  destruct (Hc a arc Ha) as [-> ?]. lia.
Qed.

Lemma orel_lookup w hs cs i b : Forall2 (orel w) hs cs -> hs !! i = Some (Some b) -> exists c, cs !! i = Some (Some c) /\ rel w b c.
Proof.
  intros Hr Hi. destruct (Forall2_lookup_l _ _ _ _ _ Hr Hi) as (oc & Hc & Hrel). inversion Hrel as [? c Hbc|]; subst. by exists c.
Qed.

(** The last string of an arc goes: its block is freed or given out. *)
Lemma inv_last w hs cs vs i b a arc h' blk vs' n :
  inv w hs cs vs -> hs !! i = Some (Some b) -> bowner b = Some a -> owned_by w a arc -> rc arc = 1 ->
  h' !! data (inner arc) = Some blk -> (forall q, q <> data (inner arc) -> h' !! q = heap w !! q) ->
  (live blk = false /\ vs' = vs) \/ vs' = data (inner arc) :: vs ->
  inv (with_arc (with_heap w h') a (mkArc n (inner arc) false)) (<[i := None]> hs) (<[i := None]> cs) vs'.
Proof.
  intros [Hr Hc Hb Hd Ho Hg Hl] Hi Hbo Ha H1 Hp Hq Hvs.
  assert (Howned : forall x y, owned_by (with_arc (with_heap w h') a (mkArc n (inner arc) false)) x y <-> x <> a /\ owned_by w x y).
  { intros x y. rewrite (owned_with w a arc (mkArc n (inner arc) false) x y h') by apply Ha. cbn [alive]. naive_solver. }
  assert (Hother : forall x y, x <> a -> owned_by w x y -> data (inner y) <> data (inner arc)) by (intros x y Hx Hy E; by apply Hx, (Hd x a y arc)).
  assert (T : forall x, total (owns x) (<[i := None]> hs) + owns x (Some b) = total (owns x) hs).
  { intros x. rewrite (owns_insert x hs i _ None Hi). cbn [owns]. lia. }
  cbn [owns] in T. constructor.
  - apply Forall2_same_length_lookup. split; [by rewrite !length_insert; eapply Forall2_length|].
    intros j ob oc Hj Hk. assert (Hrel : orel w ob oc).
    { assert (Hr' : Forall2 (orel w) (<[i := None]> hs) (<[i := None]> cs)) by (apply Forall2_insert; [done|constructor]).
      by eapply Forall2_same_length_lookup in Hr' as [_ Hr']; eapply Hr'. }
    inversion Hrel as [b' c' Hbc|]; subst; constructor. eapply rel_frame; [exact Hbc|]. intros x y Hx Hy.
    destruct (decide (x = a)) as [->|Hxa].
    + destruct (Hc a arc Ha) as [E _]. specialize (T a). rewrite Hbo, bool_decide_eq_true_2 in T by done.
      pose proof (total_le (owns a) _ _ _ Hj) as L. cbn [owns] in L. rewrite Hx, bool_decide_eq_true_2 in L by done. lia.
    + exists y. split; [by apply Howned|]. split; [done|]. cbn [with_arc with_heap heap]. by apply Hq, (Hother x).
  - intros x y [Hxa Hy]%Howned. specialize (T x). rewrite Hbo, bool_decide_eq_false_2 in T by congruence.
    destruct (Hc x y Hy) as [-> ?]. lia.
  - intros x y [Hxa Hy]%Howned. destruct (Hb x y Hy) as (l & Hh & Hlen). exists l. split; [|done].
    unfold holds. cbn [with_arc with_heap heap]. by rewrite Hq by (by apply (Hother x)).
  - intros x1 x2 y1 y2 [_ K1]%Howned [_ K2]%Howned. by apply Hd.
  - intros p x y Hin [Hxa Hy]%Howned. destruct Hvs as [[_ ->]| ->]; [by apply (Ho p x y)|].
    apply elem_of_cons in Hin as [->|Hin]; [by apply (Hother x)|by apply (Ho p x y)].
  - intros p Hin. cbn [with_arc with_heap heap]. destruct (decide (p = data (inner arc))) as [->|Hpn]; [by rewrite Hp|rewrite Hq by done].
    apply Hg. destruct Hvs as [[_ ->]| ->]; [done|]. apply elem_of_cons in Hin as [->|Hin]; done.
  - intros p bb Hpb Hlive. cbn [with_arc with_heap heap] in Hpb. destruct (decide (p = data (inner arc))) as [->|Hpn].
    + rewrite Hp in Hpb. injection Hpb as <-. destruct Hvs as [[Hf _]| ->]; [congruence|left]. apply elem_of_cons. by left.
    + rewrite Hq in Hpb by done. destruct (Hl p bb Hpb Hlive) as [Hin|(x & y & Hy & Hpy)].
      * left. destruct Hvs as [[_ ->]| ->]; [done|]. apply elem_of_cons. by right.
      * right. exists x, y. split; [apply Howned; split; [|done]|done]. intros ->. destruct Hy as [Hy _], Ha as [Ha _]. congruence.
Qed.

(** One of several strings of an arc goes. *)
Lemma inv_fewer w hs cs vs i b a arc :
  inv w hs cs vs -> hs !! i = Some (Some b) -> bowner b = Some a -> owned_by w a arc -> rc arc <> 1 ->
  inv (with_arc w a (mkArc (rc arc - 1) (inner arc) true)) (<[i := None]> hs) (<[i := None]> cs) vs.
Proof.
  intros Hi0 Hi Hbo Ha H1. pose proof Hi0 as [Hr Hc _ _ _ _ _]. destruct (Hc a arc Ha) as [E Hp].
  apply (inv_count w hs cs); [done|done|lia| | |].
  - pose proof (owns_insert a hs i _ None Hi) as T. cbn [owns] in T. rewrite Hbo, bool_decide_eq_true_2 in T by done. lia.
  - intros x Hx. pose proof (owns_insert x hs i _ None Hi) as T. cbn [owns] in T. rewrite Hbo, bool_decide_eq_false_2 in T by congruence. lia.
  - apply Forall2_insert; [done|constructor].
Qed.

(** A string without an owner goes. *)
Lemma inv_borrowed w hs cs vs i b :
  inv w hs cs vs -> hs !! i = Some (Some b) -> bowner b = None -> inv w (<[i := None]> hs) (<[i := None]> cs) vs.
Proof.
  intros [Hr Hc Hb Hd Ho Hg Hl] Hi Hbo. constructor; try done; [apply Forall2_insert; [done|constructor]|].
  intros x y Hy. pose proof (owns_insert x hs i _ None Hi) as T. cbn [owns] in T. rewrite Hbo, bool_decide_eq_false_2 in T by done.
  destruct (Hc x y Hy) as [-> ?]. lia.
Qed.

Lemma inv_drop w hs cs vs i b :
  inv w hs cs vs -> hs !! i = Some (Some b) ->
  exists w', drop_bytes b w = Some w' /\ inv w' (<[i := None]> hs) (<[i := None]> cs) vs.
Proof.
  intros Hinv Hi. destruct (orel_lookup _ _ _ _ _ (inv_rel _ _ _ _ Hinv) Hi) as (c & _ & _ & _ & _ & Hw).
  unfold drop_bytes. destruct (bowner b) as [a|] eqn:Hbo; [|exists w; split; [done|by eapply inv_borrowed]].
  destruct Hw as (arc & off & n & Ha & _). unfold thin_drop. rewrite (thin_ref_owned _ _ _ Ha). cbn [mbind option_bind].
  destruct (Nat.eqb_spec (rc arc) 1) as [H1|H1]; [|eexists; split; [done|by eapply inv_fewer]].
  destruct (inv_block _ _ _ _ Hinv a arc Ha) as (l & Hh & Hlen). unfold drop_owned. rewrite (free_holds _ _ _ Hh). cbn [mbind option_bind].
  eexists. split; [done|]. pose proof (lookup_lt_Some _ _ _ Hh) as Hlt.
  eapply (inv_last w hs cs vs i b a arc _ (mkBlock l false)); [done..| | |by left].
  - by rewrite list_lookup_insert_eq.
  - intros q Hq. by rewrite list_lookup_insert_ne.
Qed.

(** A new block, freed already or given out. *)
Lemma inv_grow w hs cs vs blk vs' :
  inv w hs cs vs -> (live blk = false /\ vs' = vs) \/ vs' = length (heap w) :: vs ->
  inv (with_heap w (heap w ++ [blk])) hs cs vs'.
Proof.
  intros [Hr Hc Hb Hd Ho Hg Hl] Hvs.
  assert (Hlt : forall a c, owned_by w a c -> data (inner c) < length (heap w)).
  { intros a c Ha. destruct (Hb a c Ha) as (l & Hh & _). by eapply lookup_lt_Some. }
  assert (Hsame : forall p, p < length (heap w) -> (heap w ++ [blk]) !! p = heap w !! p) by (intros; by apply lookup_app_l).
  constructor; cbn [with_heap heap]; try done.
  - eapply Forall2_impl; [exact Hr|]. intros ob oc Hrel. inversion Hrel as [b k Hbk|]; constructor.
    eapply rel_frame; [exact Hbk|]. intros x y _ Hy. exists y. split; [done|]. split; [done|]. by apply Hsame, (Hlt x).
  - intros a c Ha. destruct (Hb a c Ha) as (l & Hh & Hlen). exists l. split; [|done]. unfold holds. by rewrite Hsame by (by apply (Hlt a)).
  - intros p a c Hin Ha. destruct Hvs as [[_ ->]| ->]; [by apply (Ho p a)|]. apply elem_of_cons in Hin as [->|Hin]; [|by apply (Ho p a)].
    specialize (Hlt a c Ha). lia.
  - intros p Hin. assert (p = length (heap w) \/ p ∈ vs) as [->|Hin'].
    { destruct Hvs as [[_ ->]| ->]; [by right|]. by apply elem_of_cons in Hin. }
    + rewrite lookup_app_r, Nat.sub_diag by lia. by eexists.
    + destruct (Hg p Hin') as [x Hx]. exists x. rewrite Hsame; [done|]. by eapply lookup_lt_Some.
  - intros p b Hp Hlive. apply lookup_app_Some in Hp as [Hp|[Hge Hp]].
    + destruct (Hl p b Hp Hlive) as [Hin|?]; [left|by right]. destruct Hvs as [[_ ->]| ->]; [done|]. apply elem_of_cons. by right.
    + apply list_lookup_singleton_Some in Hp as [Hp <-]. left. destruct Hvs as [[Hf _]| ->]; [congruence|]. apply elem_of_cons. left. lia.
Qed.

(** A block that was given out comes back under a new arc. *)
Lemma inv_adopt w hs cs vs os l b c :
  inv w hs cs (data os :: vs) -> data os ∉ vs -> holds (heap w) (data os) l -> length l = capacity os ->
  bowner b = Some (length (arcs w)) -> rel (thin_new os w).2 b c ->
  inv (thin_new os w).2 (hs ++ [Some b]) (cs ++ [Some c]) vs.
Proof.
  intros [Hr Hc Hb Hd Ho Hg Hl] Hni Hh Hlen Hbo Hrel. cbn [thin_new snd] in *. set (w' := mkWorld _ _) in *.
  assert (Howned : forall x y, owned_by w' x y <-> (x = length (arcs w) /\ y = mkArc 1 os true) \/ owned_by w x y).
  { intros x y. unfold owned_by, w'. cbn [arcs]. rewrite lookup_app_Some, list_lookup_singleton_Some. split.
    - intros [[?|[? [? <-]]] ?]; [by right|left]. split; [lia|done].
    - intros [[-> ->]|[? ?]]; [|by auto]. split; [right; split; [lia|split; [lia|done]]|done]. }
  assert (Hlt : forall x y, owned_by w x y -> x <> length (arcs w)) by (intros x y [Hx%lookup_lt_Some _]; lia).
  assert (Hnew : forall x y, owned_by w x y -> data (inner y) <> data os) by (intros x y Hy; apply (Ho _ x y); [apply elem_of_cons; by left|done]).
  constructor.
  - apply Forall2_app; [|by constructor; [by constructor|constructor]]. eapply Forall2_impl; [exact Hr|].
    intros ob oc Hrel'. inversion Hrel' as [b' k Hbk|]; constructor. eapply rel_frame; [exact Hbk|]. intros x y _ Hy. exists y.
    split; [|done]. apply Howned. by right.
  - intros x y Hy. rewrite total_app. cbn [owns]. apply Howned in Hy as [[-> ->]|Hy]; cbn [rc].
    + rewrite Hbo, bool_decide_eq_true_2 by done. split; [|lia]. enough (total (owns (length (arcs w))) hs = 0) by lia.
      destruct (total (owns (length (arcs w))) hs) eqn:E; [done|]. exfalso.
      destruct (total_pos (owns (length (arcs w))) hs) as (k & [b'|] & Hk & Hpos); [lia| |cbn in Hpos; lia]. cbn in Hpos.
      destruct (bool_decide _) eqn:Hbd; [|lia]. apply bool_decide_eq_true in Hbd.
      destruct (orel_lookup _ _ _ _ _ Hr Hk) as (c' & _ & _ & _ & _ & Hw). rewrite Hbd in Hw. destruct Hw as (arc & ? & ? & Ha & _). by eapply Hlt.
    + rewrite Hbo, bool_decide_eq_false_2 by (intros [= E]; symmetry in E; by eapply Hlt). rewrite Nat.add_0_r. by apply Hc.
  - intros x y [[-> ->]|Hy]%Howned; [by exists l|by apply (Hb x)].
  - intros x1 x2 y1 y2 [[-> ->]|K1]%Howned [[-> ->]|K2]%Howned E; [done| | |by eapply Hd].
    + exfalso. by apply (Hnew _ _ K2).
    + exfalso. by apply (Hnew _ _ K1).
  - intros p x y Hin [[-> ->]|Hy]%Howned; [by intros E; cbn in E; subst p|]. apply (Ho p x y); [apply elem_of_cons; by right|done].
  - intros p Hin. apply Hg, elem_of_cons. by right.
  - intros p bb Hp Hlive. destruct (Hl p bb Hp Hlive) as [[->|Hin]%elem_of_cons|(x & y & Hy & Hpy)].
    + right. exists (length (arcs w)), (mkArc 1 os true). split; [apply Howned; by left|done].
    + by left.
    + right. exists x, y. split; [apply Howned; by right|done].
Qed.

Lemma to_vec_spec l h : to_vec l h =
  Some (mkVec (length h) (length l) (cap_for (length l)), h ++ [mkBlock ((Some <$> l) ++ replicate (cap_for (length l) - length l) None) true]).
Proof. by apply vec_with_spec. Qed.

Lemma vec_block_holds (l : list byte) n h : holds (h ++ [mkBlock ((Some <$> l) ++ replicate n None) true]) (length h) ((Some <$> l) ++ replicate n None).
Proof. unfold holds. by rewrite lookup_app_r, Nat.sub_diag by lia. Qed.

(** What a fresh vector reads as. *)
Lemma vec_block_get (l : list byte) n h :
  slice_get (Mem (length h) 0 (length l)) (h ++ [mkBlock ((Some <$> l) ++ replicate n None) true]) = Some l.
Proof.
  eapply slice_get_spec; [apply vec_block_holds| |rewrite length_app, length_fmap; lia].
  rewrite drop_0, take_app_length'; [done|by rewrite length_fmap].
Qed.

Lemma inv_given_lt w hs cs vs p : inv w hs cs vs -> p ∈ vs -> p < length (heap w).
Proof. intros Hi Hp. destruct (inv_given _ _ _ _ Hi p Hp). by eapply lookup_lt_Some. Qed.

(** A new string of bytes of its own. *)
Lemma inv_new w hs cs vs secret l c :
  inv w hs cs vs -> BytesCell.cvalue c = l -> BytesCell.ownership c = BytesCell.owned_from_vec l -> BytesCell.secret_ c = secret ->
  exists v h b w', to_vec l (heap w) = Some (v, h) /\ bytes_of_vec secret v (with_heap w h) = Some (b, w') /\
    inv w' (hs ++ [Some b]) (cs ++ [Some c]) vs.
Proof.
  intros Hi Hv Ho Hs. rewrite to_vec_spec.
  pose proof (vec_block_holds l (cap_for (length l) - length l) (heap w)) as Hh. set (blk := (Some <$> l) ++ _) in *.
  exists (mkVec (length (heap w)) (length l) (cap_for (length l))), (heap w ++ [mkBlock blk true]).
  destruct l as [|x l].
  - exists (mkBytes (Static []) None secret). unfold bytes_of_vec, owned_from_vec. cbn [vlen length Nat.eqb vptr with_heap heap].
    rewrite (free_holds _ _ _ Hh). cbn [mbind option_bind]. eexists. split; [done|]. split; [done|].
    rewrite insert_app_r_alt, Nat.sub_diag by lia. cbn [insert list_insert].
    apply (inv_grow w hs cs vs (mkBlock blk false) vs) in Hi; [|by left].
    destruct (inv_share _ _ _ _ (mkBytes (Static []) None secret) c Hi) as (w' & [= <-] & Hi'); [|exact Hi'].
    unfold rel. cbn. rewrite Hv, Ho, Hs. by split_and!.
  - pose proof (vec_block_get (x :: l) (cap_for (length (x :: l)) - length (x :: l)) (heap w)) as Hg. fold blk in Hg.
    set (os := mkOwned (length (heap w)) (cap_for (length (x :: l)))). set (w1 := with_heap w (heap w ++ [mkBlock blk true])).
    exists (mkBytes (as_slice os (length (x :: l))) (Some (length (arcs w))) secret), (thin_new os w1).2. split; [done|]. split; [done|].
    apply (inv_adopt w1 hs cs vs os blk).
    + apply inv_grow with (vs := vs); [done|by right].
    + intros Hin. apply (inv_given_lt _ _ _ _ _ Hi) in Hin. cbn in Hin. lia.
    + exact Hh.
    + unfold blk, os. rewrite length_app, length_fmap, length_replicate. pose proof (cap_for_ok (length (x :: l))). cbn [capacity]. lia.
    + done.
    + unfold rel. cbn [bvalue bowner bsecret is_owning as_slice data]. rewrite Hv, Ho, Hs. split; [exact Hg|]. split; [done|]. split; [done|].
      exists (mkArc 1 os true), 0, (length (x :: l)). split; [|split; [done|cbn; lia]]. split; [|done].
      cbn [thin_new snd arcs w1 with_heap]. by rewrite lookup_app_r, Nat.sub_diag by lia.
Qed.

(** A string replaced by bytes of its own. *)
Lemma inv_replace w hs cs vs i b secret l c :
  inv w hs cs vs -> hs !! i = Some (Some b) ->
  BytesCell.cvalue c = l -> BytesCell.ownership c = BytesCell.owned_from_vec l -> BytesCell.secret_ c = secret ->
  exists v h b' w1 w', to_vec l (heap w) = Some (v, h) /\ bytes_of_vec secret v (with_heap w h) = Some (b', w1) /\
    drop_bytes b w1 = Some w' /\ inv w' (<[i := Some b']> hs) (<[i := Some c]> cs) vs.
Proof.
  intros Hi Hb Hv Ho Hs. pose proof (lookup_lt_Some _ _ _ Hb) as Hlt.
  pose proof (Forall2_length _ _ _ (inv_rel _ _ _ _ Hi)) as Hlen.
  destruct (inv_new w hs cs vs secret l c Hi Hv Ho Hs) as (v & h & b' & w1 & Ht & Hbv & Hi1).
  destruct (inv_drop w1 _ _ vs i b Hi1) as (w' & Hd & Hi2); [by rewrite lookup_app_l|].
  exists v, h, b', w1, w'. split; [done|]. split; [done|]. split; [done|].
  rewrite !insert_app_l in Hi2 by lia. apply (inv_move _ _ _ _ i) in Hi2; [|by apply list_lookup_insert_eq].
  by rewrite !list_insert_insert_eq in Hi2.
Qed.

Lemma inv_into_vec w hs cs vs i b c :
  inv w hs cs vs -> hs !! i = Some (Some b) -> rel w b c ->
  exists v w', into_vec b w = Some (v, w') /\ inv w' (<[i := None]> hs) (<[i := None]> cs) (vptr v :: vs) /\
    slice_get (Mem (vptr v) 0 (vlen v)) (heap w') = Some (BytesCell.cvalue c).
Proof.
  intros Hi Hb Hrel. pose proof Hrel as (Hget & _ & _ & Hw). unfold into_vec. destruct (bowner b) as [a|] eqn:Hbo.
  2: { rewrite Hget. cbn [mbind option_bind]. rewrite to_vec_spec. cbn [mbind option_bind]. do 2 eexists. split; [done|]. cbn [vptr vlen].
       split; [|apply vec_block_get]. eapply inv_borrowed; [|done|done]. apply inv_grow with (vs := vs); [done|by right]. }
  destruct Hw as (arc & off & n & Ha & Hm & Hn). unfold owned_into_vec, try_unwrap. rewrite (thin_ref_owned _ _ _ Ha). cbn [mbind option_bind].
  destruct (Nat.eqb_spec (rc arc) 1) as [H1|H1]; cbn [mbind option_bind].
  2: { rewrite Hget. cbn [mbind option_bind]. rewrite to_vec_spec. cbn [mbind option_bind]. set (w1 := with_heap w _).
       assert (Ha1 : owned_by w1 a arc) by exact Ha. unfold thin_drop. rewrite (thin_ref_owned _ _ _ Ha1). cbn [mbind option_bind].
       rewrite (proj2 (Nat.eqb_neq _ _)) by done. do 2 eexists. split; [done|]. cbn [vptr vlen]. split; [|apply vec_block_get].
       eapply inv_fewer; [|done..]. apply inv_grow with (vs := vs); [done|by right]. }
  destruct (inv_block _ _ _ _ Hi a arc Ha) as (k & Hh & Hlen). pose proof (lookup_lt_Some _ _ _ Hh) as Hlt.
  cbn [with_arc heap]. unfold into_vec_with_slice. rewrite Hm in *. cbn [Nat.eqb]. destruct off as [|off].
  - rewrite Nat.eqb_refl. cbn [mbind option_bind]. do 2 eexists. split; [done|]. cbn [vptr vlen]. split; [|exact Hget].
    eapply (inv_last w hs cs vs i b a arc (heap w) (mkBlock k true)); [done..|by right].
  - rewrite Hget. cbn [mbind option_bind]. rewrite to_vec_spec. cbn [mbind option_bind].
    set (nb := mkBlock ((Some <$> _) ++ _) true).
    assert (Hh1 : holds (heap w ++ [nb]) (data (inner arc)) k) by (unfold holds; by rewrite lookup_app_l).
    assert (Hz : exists k', (h ← (if bsecret b then reinit_all (inner arc) (heap w ++ [nb]) else Some (heap w ++ [nb])); drop_owned (inner arc) h) =
      Some (<[data (inner arc) := mkBlock k' false]> (heap w) ++ [nb])).
    { unfold reinit_all, drop_owned. destruct (bsecret b); cbn [mbind option_bind].
      - pose proof (fill_all _ _ _ Hh1) as Hf. rewrite Hlen in Hf. rewrite Hf. cbn [mbind option_bind].
        exists (replicate (capacity (inner arc)) (Some x00)). rewrite (free_holds _ _ (replicate (capacity (inner arc)) (Some x00))) by (by eapply holds_insert).
        by rewrite list_insert_insert_eq, insert_app_l.
      - exists k. by rewrite (free_holds _ _ _ Hh1), insert_app_l. }
    destruct Hz as [k' Hz]. destruct (if bsecret b then _ else _) as [h1|] eqn:Hr; [|done]. cbn [mbind option_bind] in *. rewrite Hz. cbn [mbind option_bind].
    do 2 eexists. split; [done|]. cbn [vptr vlen]. rewrite <- (length_insert (heap w) (data (inner arc)) (mkBlock k' false)). split; [|apply vec_block_get].
    set (h2 := <[_ := _]> (heap w)).
    apply (inv_grow (with_arc (with_heap w h2) a (mkArc (rc arc) (inner arc) false)) _ _ vs); [|by right].
    eapply (inv_last w hs cs vs i b a arc h2 (mkBlock k' false)); [done..| | |by left]; unfold h2.
    + by rewrite list_lookup_insert_eq.
    + intros q Hq. by rewrite list_lookup_insert_ne.
Qed.

Lemma sub_slice_get s off n h l : slice_get s h = Some l -> slice_get (sub_slice s off n) h = Some (cut off n l).
Proof.
  unfold cut. destruct s as [p o m|k]; cbn [slice_get sub_slice]; [|by intros [= ->]]. intros Hl.
  destruct (Nat.eqb_spec m 0) as [->|Hm]; [injection Hl as <-; by rewrite Nat.min_0_r, drop_nil, take_nil|].
  apply read_range_inv in Hl as (c & Hh & Hlen & Hc).
  assert (Hll : length l = m).
  { apply (f_equal length) in Hc. rewrite length_take, length_drop, length_fmap in Hc. lia. }
  change (slice_get (Mem p (o + off) (n `min` (m - off))) h = Some (take n (drop off l))).
  destruct (decide (m <= off)) as [Hge|Hlt].
  - rewrite (proj2 (Nat.sub_0_le _ _)), Nat.min_0_r, drop_ge, take_nil by lia. done.
  - eapply slice_get_spec; [exact Hh| |lia].
    rewrite fmap_take, fmap_drop, <- Hc, <- drop_drop, List.skipn_firstn_comm. by rewrite take_take.
Qed.

Lemma slice_length w b c p o m : rel w b c -> bvalue b = Mem p o m -> length (BytesCell.cvalue c) = m.
Proof.
  intros (Hv & _) Hb. rewrite Hb in Hv. cbn [slice_get] in Hv. destruct (Nat.eqb_spec m 0) as [E|Hm]; [rewrite E; by injection Hv as <-|].
  apply read_range_inv in Hv as (k & _ & Hk & E). apply (f_equal length) in E. rewrite length_take, length_drop, length_fmap in E. lia.
Qed.

Lemma using_value_rel w b c off n : rel w b c ->
  let s := sub_slice (bvalue b) off n in
  let empty := match s with Mem _ _ n => n =? 0 | Static l => bool_decide (l = []) end in
  rel w (mkBytes s (if empty then None else bowner b) (bsecret b))
    (BytesCell.using_value c (cut off n (BytesCell.cvalue c)) PRecheck).
Proof.
  intros Hr s em. pose proof Hr as (Hv & Ho & Hs & Hw).
  assert (Hem : em = match cut off n (BytesCell.cvalue c) with [] => true | _ => false end).
  { unfold em, s. destruct (bvalue b) as [p o m|l] eqn:Hb; cbn [sub_slice].
    - pose proof (slice_length _ _ _ _ _ _ Hr Hb) as Hl.
      assert (Hc : length (cut off n (BytesCell.cvalue c)) = n `min` (m - off)) by (unfold cut; rewrite length_take, length_drop; lia).
      rewrite <- Hc. by destruct (cut _ _ _).
    - injection Hv as <-. unfold cut. by destruct (take n (drop off l)). }
  unfold rel. cbn [bvalue bowner bsecret]. unfold BytesCell.using_value. cbn [BytesCell.cvalue BytesCell.ownership BytesCell.secret_].
  split; [by apply sub_slice_get|]. split; [rewrite Hem; destruct (cut _ _ _); [done|exact Ho]|]. split; [done|].
  unfold em, s in *. destruct (bvalue b) as [p o m|l]; cbn [sub_slice] in *.
  - destruct (Nat.eqb_spec (n `min` (m - off)) 0) as [He|He]; [done|]. destruct (bowner b) as [a|]; [|lia].
    destruct Hw as (arc & o' & m' & Ha & [= -> <- <-] & _). exists arc, (o + off), (n `min` (m - off)). split_and!; [done..|lia].
  - destruct (bool_decide _); [done|]. destruct (bowner b) as [a|]; [|done]. by destruct Hw as (arc & o' & m' & _ & [=] & _).
Qed.

(** What an operation on one string does, [f] in memory and [g] on its value. *)
Definition simulates (f : Bytes -> World -> option (Bytes * World)) (g : BytesCell.Cell -> BytesCell.Cell) : Prop :=
  forall w hs cs vs i b c, inv w hs cs vs -> hs !! i = Some (Some b) -> rel w b c ->
  exists b' w', f b w = Some (b', w') /\ inv w' (<[i := Some b']> hs) (<[i := Some (g c)]> cs) vs.

Lemma force_sim sec : simulates (owning_force sec) (BytesCell.owning_force sec).
Proof.
  intros w hs cs vs i b c Hi Hb (Hget & _). unfold owning_force. rewrite Hget. cbn [mbind option_bind].
  destruct (inv_replace w hs cs vs i b sec _ (BytesCell.owning_force sec c) Hi Hb eq_refl eq_refl eq_refl) as (v & h & b' & w1 & w' & Ht & Hbv & Hd & Hi').
  exists b', w'. split; [|done]. cbn [BytesCell.owning_force BytesCell.cvalue] in Ht. rewrite Ht. cbn [mbind option_bind].
  rewrite Hbv. cbn [mbind option_bind]. by rewrite Hd.
Qed.

Lemma same_sim w hs cs vs i b c : inv w hs cs vs -> hs !! i = Some (Some b) -> rel w b c ->
  inv w (<[i := Some b]> hs) (<[i := Some c]> cs) vs.
Proof. intros Hi Hb Hr. by eapply inv_update. Qed.

Lemma make_owning_sim : simulates make_owning BytesCell.make_owning.
Proof.
  intros w hs cs vs i b c Hi Hb Hr. unfold make_owning, BytesCell.make_owning, BytesCell.is_owning. pose proof Hr as (_ & Ho & _).
  rewrite <- Ho. destruct (is_owning b); [exists b, w; split; [done|by apply same_sim]|by apply force_sim].
Qed.

Lemma owning_sim : simulates owning BytesCell.owning.
Proof.
  intros w hs cs vs i b c Hi Hb Hr. unfold owning, BytesCell.owning, BytesCell.is_owning. pose proof Hr as (_ & Ho & Hs & _).
  rewrite <- Ho, <- Hs. destruct (is_owning b); [exists b, w; split; [done|by apply same_sim]|by apply force_sim].
Qed.

Lemma secret_sim : simulates secret BytesCell.secret.
Proof.
  intros w hs cs vs i b c Hi Hb Hr. unfold secret, BytesCell.secret, BytesCell.is_owning. pose proof Hr as (Hv & Ho & Hs & Hw).
  rewrite <- Ho, <- Hs. destruct (negb (bsecret b) && is_owning b); [by apply force_sim|].
  eexists _, _. split; [done|]. by eapply inv_update.
Qed.

Lemma drop_set_sim w hs cs vs i b c' b' : inv w hs cs vs -> hs !! i = Some (Some b) ->
  (forall w, rel w b' c') -> bowner b' = None ->
  exists w', drop_bytes b w = Some w' /\ inv w' (<[i := Some b']> hs) (<[i := Some c']> cs) vs.
Proof.
  intros Hi Hb Hr Hbo. destruct (inv_drop w hs cs vs i b Hi Hb) as (w' & Hd & Hi'). exists w'. split; [done|].
  destruct (inv_share _ _ _ _ b' c' Hi' (Hr w')) as (w'' & Hc & Hi''). rewrite Hbo in Hc. injection Hc as ->.
  apply (inv_move _ _ _ _ i) in Hi''; [by rewrite !list_insert_insert_eq in Hi''|].
  apply list_lookup_insert_eq. by eapply lookup_lt_Some.
Qed.

Lemma transform_sim t : simulates (transform t) (fun c => BytesCell.transform c (transformation t)).
Proof.
  intros w hs cs vs i b c Hi Hb Hr. pose proof Hr as (Hv & Ho & Hs & Hw).
  assert (Hempty : exists w', drop_bytes b w = Some w' /\ inv w' (<[i := Some empty]> hs) (<[i := Some BytesCell.empty]> cs) vs).
  { apply drop_set_sim; [done|done|intros w0; by split_and!|done]. }
  destruct Hempty as (w0 & Hd0 & Hi0). unfold transform, BytesCell.transform. destruct t as [off n|o]; cbn [transformation transformed cow_ref].
  - rewrite (sub_slice_get _ off n _ _ Hv). cbn [mbind option_bind]. destruct (cut off n (BytesCell.cvalue c)) as [|x l] eqn:Hcut.
    { rewrite Hd0. cbn [mbind option_bind]. by eexists _, _. }
    eexists _, _. split; [done|]. eapply inv_update; [done|exact Hb| |done]. unfold rel. cbn [bvalue bowner bsecret BytesCell.cvalue BytesCell.ownership BytesCell.secret_].
    rewrite <- Hcut. split; [by apply sub_slice_get|]. split; [done|]. split; [done|]. destruct (bowner b) as [a|].
    + destruct Hw as (arc & o & m & Ha & Hm & Hm0). rewrite Hm. exists arc, (o + off), (n `min` (m - off)). split; [done|]. split; [done|].
      apply (f_equal length) in Hcut. unfold cut in Hcut. rewrite length_take, length_drop in Hcut. simpl in Hcut.
      rewrite Hm in Hv. cbn [slice_get] in Hv. rewrite (proj2 (Nat.eqb_neq _ _)) in Hv by lia.
      apply read_range_inv in Hv as (k & _ & Hk & E). apply (f_equal length) in E. rewrite length_take, length_drop, length_fmap in E. lia.
    + destruct (bvalue b); cbn [sub_slice]; [|done]. subst. lia.
  - destruct o as [|x o]; [rewrite Hd0; cbn [mbind option_bind]; by eexists _, _|].
    set (c' := BytesCell.mkCell _ _ _ _).
    destruct (inv_replace w hs cs vs i b (bsecret b) (x :: o) c' Hi Hb eq_refl eq_refl (eq_sym Hs)) as (v & h & b' & w1 & w' & Ht & Hbv & Hd & Hi').
    exists b', w'. split; [|done]. rewrite Ht. cbn [mbind option_bind]. rewrite Hbv. cbn [mbind option_bind]. by rewrite Hd.
Qed.

Lemma run_op_sim o s cs vs cs' out :
  inv (world s) (handles s) cs vs -> run_cell o cs = Some (cs', out) ->
  exists s' v vs', run_op o s = Some (s', v) /\ inv (world s') (handles s') cs' vs' /\
    match out, v with
    | None, None => vs' = vs
    | Some l, Some v => slice_get (Mem (vptr v) 0 (vlen v)) (heap (world s')) = Some l /\ vs' = vptr v :: vs
    | _, _ => False
    end.
Proof.
  destruct s as [w hs]. cbn [world handles]. intros Hi.
  assert (Hat : forall i c, cs !! i = Some (Some c) -> exists b, hs !! i = Some (Some b) /\ rel w b c).
  { intros i c Hc. destruct (Forall2_lookup_r _ _ _ _ _ (inv_rel _ _ _ _ Hi) Hc) as (ob & Hb & Hrel). inversion Hrel; subst. by eexists. }
  assert (Hset : forall i f g c, simulates f g -> cs !! i = Some (Some c) -> Some (<[i := Some (g c)]> cs, None) = Some (cs', out) ->
    exists s' v vs', (match hs !! i with Some (Some b) => '(b, w) ← f b w; Some (mkSystem w (<[i := Some b]> hs), @None Vec) | _ => None end) = Some (s', v) /\
      inv (world s') (handles s') cs' vs' /\
      match out, v with None, None => vs' = vs | Some l, Some v => slice_get (Mem (vptr v) 0 (vlen v)) (heap (world s')) = Some l /\ vs' = vptr v :: vs | _, _ => False end).
  { intros i f g c Hsim Hc [= <- <-]. destruct (Hat i c Hc) as (b & Hb & Hr). rewrite Hb. destruct (Hsim w hs cs vs i b c Hi Hb Hr) as (b' & w' & -> & Hi').
    cbn [mbind option_bind]. by exists (mkSystem w' (<[i := Some b']> hs)), None, vs. }
  destruct o as [sec l|l|i|i off n|i|i|i|i t|i|i]; cbn [run_op run_cell]; unfold handles, world;
    try (destruct (cs !! i) as [[c|]|] eqn:Hc; [|done..]).
  - intros [= <- <-]. destruct (inv_new w hs cs vs sec l (if sec then BytesCell.from_secret l else BytesCell.from_vec l) Hi) as (v & h & b & w' & Ht & Hbv & Hi');
      [by destruct sec..|]. rewrite Ht. cbn [mbind option_bind]. rewrite Hbv. cbn [mbind option_bind]. by exists (mkSystem w' (hs ++ [Some b])), None, vs.
  - intros [= <- <-]. destruct (inv_share w hs cs vs (from_bytes l) (BytesCell.from_bytes l) Hi) as (w' & [= <-] & Hi'); [by split_and!|].
    cbn [mbind option_bind]. by exists (mkSystem w (hs ++ [Some (from_bytes l)])), None, vs.
  - intros [= <- <-]. destruct (Hat i c Hc) as (b & Hb & Hr). rewrite Hb. destruct (inv_share w hs cs vs b c Hi Hr) as (w' & Hcl & Hi').
    unfold clone. rewrite Hcl. cbn [mbind option_bind]. destruct b, c. by eexists (mkSystem w' (hs ++ [_])), None, vs.
  - intros [= <- <-]. destruct (Hat i c Hc) as (b & Hb & Hr). rewrite Hb. unfold using_value. set (em := match sub_slice _ _ _ with Mem _ _ _ => _ | _ => _ end).
    set (b' := mkBytes (sub_slice (bvalue b) off n) (if em then None else bowner b) (bsecret b)).
    pose proof (using_value_rel w b c off n Hr) as Hrel. cbv zeta in Hrel. change (mkBytes _ _ _) with b' in Hrel.
    destruct (inv_share w hs cs vs b' _ Hi Hrel) as (w' & Hcl & Hi'). cbn [b' bowner] in Hcl. rewrite Hcl. cbn [mbind option_bind].
    by exists (mkSystem w' (hs ++ [Some b'])), None, vs.
  - by apply (Hset i make_owning BytesCell.make_owning c make_owning_sim Hc).
  - by apply (Hset i owning BytesCell.owning c owning_sim Hc).
  - by apply (Hset i secret BytesCell.secret c secret_sim Hc).
  - by apply (Hset i (transform t) (fun c => BytesCell.transform c (transformation t)) c (transform_sim t) Hc).
  - intros [= <- <-]. destruct (Hat i c Hc) as (b & Hb & Hr). rewrite Hb. destruct (inv_drop w hs cs vs i b Hi Hb) as (w' & -> & Hi').
    cbn [mbind option_bind]. by exists (mkSystem w' (<[i := None]> hs)), None, vs.
  - intros [= <- <-]. destruct (Hat i c Hc) as (b & Hb & Hr). rewrite Hb. destruct (inv_into_vec w hs cs vs i b c Hi Hb Hr) as (v & w' & -> & Hi' & Hg).
    cbn [mbind option_bind]. by exists (mkSystem w' (<[i := None]> hs)), (Some v), (vptr v :: vs).
Qed.

(** ** Theorems *)

(** Operations in a row, with what the vectors they made hold. *)
Fixpoint run_ops (ops : list Op) (s : System) : option (System * list (list byte)) :=
  match ops with
  | [] => Some (s, [])
  | o :: ops =>
      '(s, v) ← run_op o s;
      match v with
      | Some v => l ← slice_get (Mem (vptr v) 0 (vlen v)) (heap (world s)); '(s, outs) ← run_ops ops s; Some (s, l :: outs)
      | None => run_ops ops s
      end
  end.
Fixpoint run_cells (ops : list Op) (cs : list (option BytesCell.Cell)) : option (list (option BytesCell.Cell) * list (list byte)) :=
  match ops with
  | [] => Some (cs, [])
  | o :: ops =>
      '(cs, out) ← run_cell o cs;
      '(cs, outs) ← run_cells ops cs;
      Some (cs, option_list out ++ outs)
  end.

Definition start : System := mkSystem (mkWorld [] []) [].

Lemma run_ops_sim ops : forall s cs vs cs' outs,
  inv (world s) (handles s) cs vs -> run_cells ops cs = Some (cs', outs) ->
  exists s' vs', run_ops ops s = Some (s', outs) /\ inv (world s') (handles s') cs' vs' /\ length vs' = length vs + length outs.
Proof.
  induction ops as [|o ops IH]; intros s cs vs cs' outs Hi; cbn [run_cells run_ops].
  - intros [= <- <-]. exists s, vs. split; [done|]. split; [done|]. simpl. lia.
  - destruct (run_cell o cs) as [[cs1 out]|] eqn:Ho; [|done]. cbn [mbind option_bind].
    destruct (run_cells ops cs1) as [[cs2 outs2]|] eqn:Hos; [|done]. cbn [mbind option_bind]. intros [= <- <-].
    destruct (run_op_sim o s cs vs cs1 out Hi Ho) as (s1 & v & vs1 & Hr & Hi1 & Hv). rewrite Hr. cbn [mbind option_bind].
    destruct (IH s1 cs1 vs1 cs2 outs2 Hi1 Hos) as (s2 & vs2 & Hr2 & Hi2 & Hl). exists s2, vs2.
    destruct out as [l|], v as [v|]; try done.
    + destruct Hv as [Hg ->]. rewrite Hg. cbn [mbind option_bind option_list app length] in *. rewrite Hr2. cbn [mbind option_bind]. split; [done|]. split; [done|simpl in *; lia].
    + subst vs1. split; [done|]. split; [done|exact Hl].
Qed.

Lemma start_inv : inv (world start) (handles start) [] [].
Proof.
  assert (Hno : forall a c, ~ owned_by (world start) a c) by (by intros a c [Hc _]; cbn in Hc; rewrite lookup_nil in Hc).
  constructor; try done; try (intros; exfalso; by eapply Hno); intros p Hp.
  - by apply elem_of_nil in Hp.
Qed.

(** C17: However strings are made, cloned, cut, changed and dropped, sharing their
    memory never shows: nothing undefined happens, every string has the value,
    ownership and secrecy [BytesCell] says, and every vector made of one holds
    its value. *)
Theorem bytes_refine ops cs outs :
  run_cells ops [] = Some (cs, outs) ->
  exists s, run_ops ops start = Some (s, outs) /\
    Forall2 (option_Forall2 (fun b c => slice_get (bvalue b) (heap (world s)) = Some (BytesCell.cvalue c) /\
      is_owning b = BytesCell.ownership c /\ bsecret b = BytesCell.secret_ c)) (handles s) cs.
Proof.
  intros Hc. destruct (run_ops_sim ops start [] [] cs outs start_inv Hc) as (s & vs & Hr & Hi & _).
  exists s. split; [done|]. eapply Forall2_impl; [exact (inv_rel _ _ _ _ Hi)|]. intros ob oc Hrel.
  inversion Hrel as [b c (Hv & Ho & Hs & _)|]; by constructor.
Qed.

(** Once every string is dropped or turned into a vector, all memory is freed
    but that of the vectors. *)
Theorem bytes_no_leak ops cs outs :
  run_cells ops [] = Some (cs, outs) -> Forall (fun c => c = None) cs ->
  exists s vs, run_ops ops start = Some (s, outs) /\ length vs = length outs /\
    (forall a c, arcs (world s) !! a = Some c -> alive c = false) /\
    (forall p b, heap (world s) !! p = Some b -> live b = true -> p ∈ vs).
Proof.
  intros Hc Hnone. destruct (run_ops_sim ops start [] [] cs outs start_inv Hc) as (s & vs & Hr & Hi & Hl). exists s, vs.
  assert (H0 : forall a, total (owns a) (handles s) = 0).
  { intros a. destruct (total (owns a) (handles s)) eqn:E; [done|]. destruct (total_pos (owns a) (handles s)) as (k & [b|] & Hk & Hpos); [lia| |cbn in Hpos; lia].
    destruct (orel_lookup _ _ _ _ _ (inv_rel _ _ _ _ Hi) Hk) as (c & Hck & _). eapply Forall_lookup_1 in Hnone; [|exact Hck]. done. }
  assert (Hno : forall a c, owned_by (world s) a c -> False).
  { intros a c Ha. destruct (inv_rc _ _ _ _ Hi a c Ha) as [-> Hp]. rewrite H0 in Hp. lia. }
  split; [done|]. split; [done|]. split.
  - intros a c Ha. destruct (alive c) eqn:El; [|done]. exfalso. by eapply Hno.
  - intros p b Hp Hlive. destruct (inv_live _ _ _ _ Hi p b Hp Hlive) as [?|(a & c & Ha & _)]; [done|]. exfalso. by eapply Hno.
Qed.
End OwnedBytes.

(** ** Witnesses *)

#[local] Existing Instance Alloc_exact.

Definition sample_ops : list Op :=
  [OFromVec true (bs "secret"); OClone 0; OUsing 0 2 3; ODrop 0; OTransform 1 (TBorrowed 1 2); OIntoVec 2; OIntoVec 1].

Lemma bytes_refine_witness : exists s, run_ops sample_ops start = Some (s, [bs "cre"; bs "ec"]) /\
  Forall2 (option_Forall2 (fun b c => slice_get (bvalue b) (heap (world s)) = Some (BytesCell.cvalue c) /\
      is_owning b = BytesCell.ownership c /\ bsecret b = BytesCell.secret_ c)) (handles s) [None; None; None].
Proof. exact (bytes_refine sample_ops [None; None; None] [bs "cre"; bs "ec"] eq_refl). Defined.

Lemma bytes_no_leak_witness : exists s vs, run_ops sample_ops start = Some (s, [bs "cre"; bs "ec"]) /\ length vs = 2 /\
    (forall a c, arcs (world s) !! a = Some c -> alive c = false) /\
    (forall p b, heap (world s) !! p = Some b -> live b = true -> p ∈ vs).
Proof.
  apply (bytes_no_leak sample_ops [None; None; None] [bs "cre"; bs "ec"]); [reflexivity|].
  apply Forall_cons; split; [reflexivity|]. apply Forall_cons; split; [reflexivity|]. apply Forall_cons; split; [reflexivity|apply Forall_nil; exact I].
Defined.

(** A secret string is freed as it is: nothing writes zeroes over it. *)
Lemma secret_left_behind : exists s outs, run_ops [OFromVec true (bs "hunter2"); ODrop 0] start = Some (s, outs) /\
  heap (world s) = [mkBlock (Some <$> bs "hunter2") false].
Proof. do 2 eexists. vm_compute. by split. Qed.

(** Neither does [secret] over the buffer it copies. *)
Lemma secret_copy_left_behind : exists s outs, run_ops [OFromVec false (bs "hunter2"); OSecret 0] start = Some (s, outs) /\
  heap (world s) = [mkBlock (Some <$> bs "hunter2") false; mkBlock (Some <$> bs "hunter2") true].
Proof. do 2 eexists. vm_compute. by split. Qed.
