(* ===== verification/State.v ===== *)
(** * Client state

    [src/client/state.rs] and the [ClientState] of [src/client/logic.rs]: the
    state handlers share, a flat map from the [TypeId] of a key type to a boxed
    value.  The order of [TypeId]s is a parameter; distinct types have distinct
    ones. *)

From S2P Require Import Prelude Tags Source Strings FlatMap Names.

(** ** Keys *)

Inductive ClientStateKey := ClientSource | ServerSource | Caps | ISupport | ServerVersion | Account.

#[global] Instance ClientStateKey_eq_dec : EqDecision ClientStateKey.
Proof. solve_decision. Defined.

(** [ClientStateKey::Value]. *)
Definition Value (k : ClientStateKey) : Type :=
  match k with
  | ClientSource | ServerSource => Source
  | Caps => NameMap (list byte * list byte) bool
  | ISupport => NameMap (list byte * list byte) ()
  | ServerVersion => list byte
  | Account => option (list byte)
  end.

(** [Box<dyn Any>]. *)
Definition AnyValue : Type := sigT Value.

Definition downcast (k : ClientStateKey) (v : AnyValue) : option (Value k) :=
  match decide (projT1 v = k) with
  | left e => Some (eq_rect (projT1 v) Value (projT2 v) k e)
  | right _ => None
  end.

#[global] Program Instance N_key_ord : KeyOrd N := {| kcmp := N.compare |}.
Next Obligation. apply N.compare_eq_iff. Qed.
Next Obligation. intros. apply N.compare_antisym. Qed.
Next Obligation. intros a b c. rewrite !N.compare_lt_iff. lia. Qed.

(** ** [ClientState] *)

Definition USIZE_MAX : N := 2 ^ 64 - 1.
Definition saturating_add (a b : N) : N := N.min (a + b) USIZE_MAX.

(** 9 bytes of nick, 10 of user name, 64 of host name and 2 separators. *)
Definition DEFAULT_SOURCE_LEN : N := 85.

Section ClientState.
Context (type_id : ClientStateKey -> N).

Record ClientState := mkState { source_len : N; state : list (N * AnyValue) }.

Definition new : ClientState := mkState DEFAULT_SOURCE_LEN [].

Definition get (k : ClientStateKey) (s : ClientState) : option (Value k) :=
  match FlatMap.get fst (state s) (type_id k) with
  | Some v => downcast k v.2
  | None => None
  end.

Definition insert (k : ClientStateKey) (value : Value k) (s : ClientState) : ClientState :=
  mkState (source_len s)
    (guard_drop fst (FlatMap.insert fst (FlatMap.edit (state s)) (type_id k, existT k value)).2).

(** [get_mut], with what is written through the reference. *)
Definition update (k : ClientStateKey) (f : Value k -> Value k) (s : ClientState) : ClientState :=
  match get k s with
  | Some v => insert k (f v) s
  | None => s
  end.

(** [clear]; the assumed source length stays. *)
Definition clear (s : ClientState) : ClientState := mkState (source_len s) [].

Definition set_source_len (len : N) (s : ClientState) : ClientState := mkState len (state s).

(** An integer token, if present and valid. *)
Definition isupport_len (isupport : NameMap (list byte * list byte) ()) (key : list byte) : option N :=
  match get_parsed isupport (isupport_strparse key) with
  | Some (Ok v) => Some v
  | _ => None
  end.

Definition or_else {A} (a b : option A) : option A := match a with Some _ => a | None => b end.

Definition calc_source_len (cs : ClientState) (source : option Source) (trust_notilde : bool) : N :=
  let ln := (fun v => N.of_nat (length (nick v))) <$> source in
  let '(lu, lh) :=
    match source with
    | Some v =>
        match userhost v with
        | Some uh =>
            ((fun u => N.of_nat (if trust_notilde then length u else len_with_tilde u)) <$> user uh,
             Some (N.of_nat (length (host uh))))
        | None => (None, None)
        end
    | None => (None, None)
    end in
  match ln, lu, lh with
  | Some ln, Some lu, Some lh => saturating_add (saturating_add (saturating_add ln lu) lh) 2
  | _, _, _ =>
      match get ISupport cs with
      | Some isupport =>
          let len := default 9%N (or_else ln (isupport_len isupport (bs "NICKLEN"))) in
          let len := saturating_add len (default 10%N (or_else lu (isupport_len isupport (bs "USERLEN")))) in
          let len := saturating_add len (default 64%N (or_else lh (isupport_len isupport (bs "HOSTLEN")))) in
          saturating_add len 2
      | None => DEFAULT_SOURCE_LEN
      end
  end.

Definition update_source_len_from (source : option Source) (add_tilde : bool) (s : ClientState) : N * ClientState :=
  let len := calc_source_len s source (negb add_tilde) in (len, set_source_len len s).

Definition update_source_len (s : ClientState) : N * ClientState :=
  let len := calc_source_len s (get ClientSource s) false in (len, set_source_len len s).

(** ** Theorems *)

(** The invariant: sorted by [TypeId], every value stored under its key. *)
Definition state_wf (s : ClientState) : Prop :=
  FlatMap.sorted fst (state s) /\ forall i v, (i, v) ∈ state s -> i = type_id (projT1 v).

Context (type_id_inj : forall a b, type_id a = type_id b -> a = b).

Lemma downcast_self k v : downcast k (existT k v) = Some v.
Proof. by destruct k. Qed.

Lemma insert_spec k v s :
  state_wf s ->
  state_wf (insert k v s) /\ get k (insert k v s) = Some v /\
  (forall k', k' <> k -> get k' (insert k v s) = get k' s) /\ source_len (insert k v s) = source_len s.
Proof.
  intros [Hs Hk]. pose proof (edit_insert_spec fst (state s) (type_id k, existT k v) Hs) as Hi.
  unfold get, insert. cbn [state fst] in *.
  destruct (FlatMap.insert fst (FlatMap.edit (state s)) (type_id k, existT k v)) as [old g]. cbn [snd].
  destruct Hi as (Hs' & _ & Hg & Ho). split; [|split; [|split]].
  - split; [done|]. cbn [state]. intros i v' Hin. destruct (decide (i = type_id k)) as [->|Hne].
    + assert (He : FlatMap.get fst (guard_drop fst g) (type_id k) = Some (type_id k, v')) by by apply get_sorted.
      rewrite Hg in He. by injection He as <-.
    + apply Hk. assert (He : FlatMap.get fst (guard_drop fst g) i = Some (i, v')) by by apply get_sorted.
      rewrite Ho in He by done. by apply get_sorted in He as [? _].
  - rewrite Hg. apply downcast_self.
  - intros k' Hne. rewrite Ho; [done|]. intros He. by apply Hne, type_id_inj.
  - done.
Qed.

Lemma state_wf_new : state_wf new.
Proof. split; [constructor|]. intros i v Hin. by apply elem_of_nil in Hin. Qed.

Lemma state_wf_source_len len s : state_wf s -> state_wf (set_source_len len s).
Proof. done. Qed.

Lemma get_source_len k len s : get k (set_source_len len s) = get k s.
Proof. done. Qed.

(** The shared state is a map from keys to values of their type: what is
    inserted under a key is what is found there, other keys are untouched, and
    nothing found under a key ever has another type. *)
Theorem state_insert_get k v s :
  state_wf s ->
  state_wf (insert k v s) /\ get k (insert k v s) = Some v /\
  (forall k', k' <> k -> get k' (insert k v s) = get k' s) /\
  (forall k' e, FlatMap.get fst (state s) (type_id k') = Some e -> get k' s <> None).
Proof.
  intros Hs. destruct (insert_spec k v s Hs) as (H1 & H2 & H3 & _). split; [done|]. split; [done|]. split; [done|].
  destruct Hs as [Hs Hk]. intros k' [i u] He. unfold get. rewrite He. cbn [snd].
  apply get_sorted in He as [Hin Hi]; [|done]. apply Hk in Hin. cbn [fst] in Hi. subst i.
  apply type_id_inj in Hi. unfold downcast. by destruct (decide (projT1 u = k')).
Qed.

(** The assumed source length is never zero.  For a source whose nick, user
    and host are known it is the length of the source on the wire, plus the
    tilde a server may put before an unverified user name. *)
Theorem source_len_correct s src add_tilde :
  (2 <= (update_source_len_from (Some src) add_tilde s).1)%N /\
  (forall n u h, src = mkSource n (Some (mkUserHost (Some u) h)) ->
    (N.of_nat (length (source_write src)) < USIZE_MAX)%N ->
    (update_source_len_from (Some src) add_tilde s).1 =
    (N.of_nat (length (source_write src)) + (if add_tilde && no_tilde u then 1 else 0))%N).
Proof.
  split.
  - unfold update_source_len_from, calc_source_len, saturating_add, DEFAULT_SOURCE_LEN, USIZE_MAX. cbn [fst].
    destruct src as [n [[[u|] h]|]]; cbn -[N.pow N.of_nat]; try (destruct (get ISupport s)); lia.
  - intros n u h -> Hlt. rewrite length_source_write in *. unfold Source.source_len, userhost_len in *.
    cbn [nick userhost user host] in *.
    unfold update_source_len_from, calc_source_len, saturating_add, len_with_tilde. cbn [fst userhost user host nick fmap option_fmap option_map].
    destruct add_tilde, (no_tilde u); cbn [negb andb] in *; lia.
Qed.
End ClientState.

(** [TypeId]s in the order of declaration. *)
Definition sample_type_id (k : ClientStateKey) : N :=
  match k with ClientSource => 0 | ServerSource => 1 | Caps => 2 | ISupport => 3 | ServerVersion => 4 | Account => 5 end.

Lemma sample_type_id_inj a b : sample_type_id a = sample_type_id b -> a = b.
Proof. by destruct a, b. Qed.

Lemma state_insert_get_witness :
  state_wf sample_type_id new /\
  get sample_type_id Account (insert sample_type_id Account (Some (bs "me")) new) = Some (Some (bs "me")).
Proof.
  split; [apply (state_wf_new sample_type_id)|].
  exact (proj1 (proj2 (state_insert_get sample_type_id sample_type_id_inj Account (Some (bs "me")) new
    (state_wf_new sample_type_id)))).
Defined.
