(* ===== verification/Replies.v ===== *)
(** * Message handlers

    [src/client/handlers.rs], [src/client/handlers/]: the handlers that yield
    messages, answer pings and CTCP queries, and track the client's source.
    A handler takes the message, the shared state, the queue's guard and its
    sender, and says whether it is done. *)

From S2P Require Import Prelude Handlers Args Tags Numeric Source Ctcp Strings Splitter Msg Names Sink.
From S2P Require FlatMap Queue State.

Definition is_cmd (m : ServerMsg) (c : list byte) : bool := bool_decide (kind m = KCmd c).

(** ** Yielding *)

Section Yield.
Context {S : Type}.

(** [YieldAll]. *)
Definition yield_all `{Sender S ServerMsg} (msg : ServerMsg) (channel : SenderRef S) : ControlFlow () * SenderRef S :=
  let (r, channel) := ref_send channel msg in (cf_discard r, channel).

Context {T : Type} `{Sender S T}.

(** [Parser<T>]: what is done with a message of one kind. *)
Definition Parser : Type := ServerMsg -> SenderRef S -> ControlFlow () * SenderRef S.

(** [just] and [with]. *)
Definition parser_of (name : NameValued ServerMsg T) : Parser := fun raw sender =>
  match from_union name raw with
  | Ok parsed => let (r, sender) := ref_send sender parsed in (cf_discard r, sender)
  | Err _ => (Continue, sender)
  end.

(** Send until the channel closes. *)
Fixpoint send_each (values : list T) (sender : SenderRef S) : ControlFlow () * SenderRef S :=
  match values with
  | [] => (Continue, sender)
  | value :: values =>
      let (r, sender) := ref_send sender value in
      match cf_discard r with
      | Continue => send_each values sender
      | Break b => (Break b, sender)
      end
  end.

(** [just_flat_map] and [with_flat_map]. *)
Definition flat_parser_of {U} (name : NameValued ServerMsg U) (f : U -> list T) : Parser := fun raw sender =>
  match from_union name raw with
  | Ok parsed => send_each (f parsed) sender
  | Err _ => (Continue, sender)
  end.

(** [YieldParsed]: parsers by message kind. *)
Definition YieldParsed : Type := list (list byte * Parser).
Definition yield_new : YieldParsed := [].
Definition just (name : NameValued ServerMsg T) : YieldParsed := [(as_raw name, parser_of name)].
Definition just_flat_map {U} (name : NameValued ServerMsg U) (f : U -> list T) : YieldParsed :=
  [(as_raw name, flat_parser_of name f)].
Definition add_parser (y : YieldParsed) (key : list byte) (p : Parser) : YieldParsed :=
  FlatMap.guard_drop fst (FlatMap.insert fst (FlatMap.edit y) (key, p)).2.
Definition with_ (y : YieldParsed) (name : NameValued ServerMsg T) : YieldParsed :=
  add_parser y (as_raw name) (parser_of name).
Definition with_flat_map {U} (y : YieldParsed) (name : NameValued ServerMsg U) (f : U -> list T) : YieldParsed :=
  add_parser y (as_raw name) (flat_parser_of name f).

(** [just_map] and [with_map], with an [Option] as the sequence. *)
Definition just_map {U} (name : NameValued ServerMsg U) (f : U -> option T) : YieldParsed :=
  just_flat_map name (fun u => option_list (f u)).
Definition with_map {U} (y : YieldParsed) (name : NameValued ServerMsg U) (f : U -> option T) : YieldParsed :=
  with_flat_map y name (fun u => option_list (f u)).

Definition yield_parsed (y : YieldParsed) (msg : ServerMsg) (channel : SenderRef S) : ControlFlow () * SenderRef S :=
  match FlatMap.get fst y (as_arg (kind msg)) with
  | Some (_, parser) => parser msg channel
  | None => (Continue, channel)
  end.
End Yield.

Section Replies.
Context {A : Type} `{Queue.Adjuster A} {L : Type}.
Abbreviation Guard := (Queue.QueueEditGuard A L).

(** ** Pings *)

(** [pong]. *)
Definition pong {S} `{ClientMsgSink S} (msg : ServerMsg) (queue : S) : bool * S :=
  let retval := is_cmd msg (bs "PING") in
  if retval then
    let reply := client_new_cmd (bs "PONG") in
    let reply :=
      match (split_last (sargs msg)).2 with
      | Some last => mkClientMsg (ctags reply) (cmd reply) (add (cargs reply) last).2
      | None => reply
      end in
    (retval, sink_send queue reply)
  else (retval, queue).

(** [AutoPong]. *)
Definition auto_pong (msg : ServerMsg) (queue : Guard) : ControlFlow () * Guard := (Continue, (pong msg queue).2).

(** [format!("{hash:o}")] of a [u32], which has at most eleven digits. *)
Fixpoint octal_digits (fuel : nat) (n : N) (acc : list byte) : list byte :=
  match fuel with
  | 0 => acc
  | S fuel =>
      let acc := byte_of (48 + N.land n 7) :: acc in
      if (N.shiftr n 3 =? 0)%N then acc else octal_digits fuel (N.shiftr n 3) acc
  end.

Definition octal (n : N) : list byte := octal_digits 11 n [].

(** The loop of [Ping::handle] over the digits, in wrapping [u32]. *)
Fixpoint octal_parse (value : N) (l : list byte) : option N :=
  match l with
  | [] => Some value
  | byte :: l =>
      if (48 <=? code byte)%N && (code byte <=? 55)%N then
        octal_parse (N.lor (N.shiftl value 3 mod 2 ^ 32) (code byte - 48)) l
      else None
  end.

(** [mangle], the hash of an instant under a key made of platform data. *)
Context (mangle : N -> N).

(** [Ping::queue_msgs]. *)
Definition ping_queue_msgs (t : N) (queue : Guard) : Guard :=
  let msg := client_new_cmd (bs "PING") in
  Queue.push queue (mkClientMsg (ctags msg) (cmd msg) (add_word (cargs msg) (octal (mangle t)))).

(** [Ping::handle]; [now] is what [Instant::now] returns.  [None] is a panic in
    [owning_merged]. *)
Definition ping_handle {S} `{Sender S (option Source * N)} (t now : N) (msg : ServerMsg) (channel : SenderRef S)
    : option (ControlFlow () * SenderRef S) :=
  if is_cmd msg (bs "PONG") then
    match (split_last (sargs msg)).2 with
    | Some last =>
        match octal_parse 0 last with
        | Some value =>
            if (mangle t =? value)%N then
              let duration := Queue.saturating_duration_since now t in
              match source msg with
              | Some s =>
                  match owning_merged s with
                  | Some s => Some (Break (), (ref_send channel (Some s, duration)).2)
                  | None => None
                  end
              | None => Some (Break (), (ref_send channel (None, duration)).2)
              end
            else Some (Continue, channel)
        | None => Some (Continue, channel)
        end
    | None => Some (Continue, channel)
    end
  else Some (Continue, channel).

(** ** [CtcpVersion] *)

Record CtcpVersion := mkCtcpVersion { version : list byte; ctcp_source : list byte }.

(** [ctcp_version_handler!], given what Cargo says of the package. *)
Definition ctcp_version_handler (CARGO_PKG_NAME CARGO_PKG_VERSION CARGO_PKG_REPOSITORY : list byte) : CtcpVersion :=
  let version := unwrap_or (from_bytes Line (CARGO_PKG_NAME ++ bs " v" ++ CARGO_PKG_VERSION)) [] in
  let source := unwrap_or (from_bytes Line CARGO_PKG_REPOSITORY) [] in
  mkCtcpVersion version source.

Definition PRIVMSG : NameValued ServerMsg (TargetedMsg (list byte)) := basic_unary_server (bs "PRIVMSG") PTarget.

Definition ctcp_answer (nick : list byte) (c body : list byte) (queue : Guard) : Guard :=
  let msg := client_new_cmd (bs "NOTICE") in
  let args := add_word (cargs msg) nick in
  let args := (add args (into_line (mkCtcp c body))).2 in
  Queue.push queue (mkClientMsg (ctags msg) (cmd msg) args).

(** [CtcpVersion::handle]; [parse_as] does not look at the message kind. *)
Definition ctcp_handle (h : CtcpVersion) (msg : ServerMsg) (queue : Guard) : ControlFlow () * Guard :=
  match from_union PRIVMSG msg with
  | Err _ => (Continue, queue)
  | Ok msg =>
      let msg := targeted_map Ctcp.parse msg in
      match tsource msg with
      | None => (Continue, queue)
      | Some source =>
          let c := ccmd (tvalue msg) in
          if bool_decide (c = bs "VERSION") && negb (bool_decide (version h = [])) then
            (Continue, ctcp_answer (nick source) (bs "VERSION") (version h) queue)
          else if bool_decide (c = bs "SOURCE") && negb (bool_decide (ctcp_source h = [])) then
            (Continue, ctcp_answer (nick source) (bs "SOURCE") (ctcp_source h) queue)
          else (Continue, queue)
      end
  end.

(** ** [TrackClientSource] *)

(** The pattern [Some(c)] on a byte. *)
Definition is_byte (b : option byte) (c : byte) : bool :=
  match b with Some b => Byte.eqb b c | None => false end.

(** [{:?}] of an [Option<u8>]. *)
Definition debug_byte (b : option byte) : list byte :=
  match b with Some b => bs "Some(" ++ dec (code b) ++ bs ")" | None => bs "None" end.

Definition parse_userhost_item (item : list byte) (nick : list byte) : result UserHost (option ParseError) :=
  let splitter := Splitter.new (plain item) in
  let (n, splitter) := save_end (fun s => string Nick true (until_byte_eq "*" (until_byte_eq "=" s))) splitter in
  let same := match n with Ok n => bool_decide (value n = nick) | Err _ => false end in
  if negb same then Err None
  else
    let (b, splitter) := next_byte splitter in
    let is_op :=
      if is_byte b "=" then Ok splitter
      else if is_byte b "*" then
        let (other, splitter) := next_byte splitter in
        if is_byte other "=" then Ok splitter
        else Err (Some (InvalidField (bs "is_op") (bs "expected =, got " ++ debug_byte other)))
      else Err (Some (InvalidField (bs "is_op") (bs "expected * or =, got " ++ debug_byte b))) in
    let? splitter := is_op in
    let (b, splitter) := next_byte splitter in
    if is_byte b "+" || is_byte b "-" then
      map_err Some (userhost_parse (value (rest_or_default Word splitter).1))
    else Err (Some (InvalidField (bs "is_away") (bs "expected + or -, got " ++ debug_byte b))).

Context (type_id : State.ClientStateKey -> N).
Abbreviation ClientState := State.ClientState.

(** Write the client's source and recompute the assumed length. *)
Definition set_source (state : ClientState) (src : Source) : ClientState :=
  (State.update_source_len type_id (State.insert type_id State.ClientSource src state)).2.

(** The first item about the client's nick, if any. *)
Fixpoint first_userhost (items : list (list byte)) (nick : list byte) : option UserHost :=
  match items with
  | [] => None
  | item :: items =>
      match parse_userhost_item item nick with
      | Ok uh => Some uh
      | Err _ => first_userhost items nick
      end
  end.

(** The source of the message, if it is the client itself. *)
Definition from_self (msg : ServerMsg) (src : Source) : bool :=
  match source msg with Some m_src => bool_decide (nick m_src = nick src) | None => false end.

(** [get_client_source]; [None] breaks. *)
Definition get_client_source (state : ClientState) : option Source := State.get type_id State.ClientSource state.

(** [TrackClientSource::handle]. *)
Definition track_handle (msg : ServerMsg) (state : ClientState) : ControlFlow () * ClientState :=
  let k := as_arg (kind msg) in
  let self := get_client_source state in
  if bool_decide (k = bs "302") then
    match all (sargs msg), self with
    | Some (_ :: items), Some src =>
        match first_userhost items (nick src) with
        | Some uh => (Continue, set_source state (mkSource (nick src) (Some uh)))
        | None => (Continue, state)
        end
    | Some (_ :: _), None => (Break (), state)
    | _, _ => (Continue, state)
    end
  else if bool_decide (k = bs "NICK") then
    match all (sargs msg), self with
    | Some [n], Some src =>
        match from_super SNick n with
        | Err _ => (Continue, state)
        | Ok n => if from_self msg src then (Continue, set_source state (mkSource n (userhost src))) else (Continue, state)
        end
    | Some [_], None => (Break (), state)
    | _, _ => (Continue, state)
    end
  else if bool_decide (k = bs "CHGHOST") then
    match all (sargs msg), self with
    | Some [u; h], Some src =>
        if from_self msg src then
          match from_super SUser u with
          | Ok u => (Continue, set_source state (mkSource (nick src) (Some (mkUserHost (Some u) h))))
          | Err _ => (Continue, state)
          end
        else (Continue, state)
    | Some [_; _], None => (Break (), state)
    | _, _ => (Continue, state)
    end
  else (Continue, state).

(** [TrackClientSource::queue_msgs]. *)
Definition track_queue_msgs (state : ClientState) (queue : Guard) : Guard :=
  match State.get type_id State.ClientSource state with
  | Some src =>
      let msg := client_new_cmd (bs "USERHOST") in
      Queue.push queue (mkClientMsg (ctags msg) (cmd msg) (add (cargs msg) (nick src)).2)
  | None => queue
  end.
End Replies.

(** ** Pings *)

Section RepliesThms.
Context {A : Type} `{Queue.Adjuster A} {L : Type}.
Abbreviation Guard := (Queue.QueueEditGuard A L).

Lemma split_last_add l : (split_last (add Args.empty l).2).2 = Some l.
Proof. unfold add, add_impl. by destruct (find_invalid Arg l). Qed.

(** A [PING] is answered by exactly one [PONG] carrying the same last
    argument, well-formed if the [PING] was; any other message leaves the queue
    alone. *)
Theorem pong_correct {S} `{ClientMsgSink S} msg (queue : S) :
  args_wf (sargs msg) ->
  if is_cmd msg (bs "PING") then
    exists reply, pong msg queue = (true, sink_send queue reply) /\
      cmd reply = bs "PONG" /\ ctags reply = [] /\
      (split_last (cargs reply)).2 = (split_last (sargs msg)).2 /\ client_wf reply
  else pong msg queue = (false, queue).
Proof.
  intros Hwf. unfold pong. destruct (is_cmd msg (bs "PING")); [|done].
  assert (He : args_wf Args.empty) by by split.
  assert (Ht : tags_wf []) by by repeat constructor.
  destruct (split_last (sargs msg)) as [ws [last|]] eqn:Hl; cbn [snd].
  - eexists. split; [done|]. cbn [cmd ctags cargs client_new_cmd]. 
    split; [done|]. split; [done|]. split; [apply split_last_add|]. split; [exact Ht|]. split; [done|].
    apply add_impl_wf; [done|]. destruct Hwf as [Hw Hlong]. unfold split_last in Hl.
    destruct (long (sargs msg)) as [lg|] eqn:Hlg; [injection Hl as _ <-; by apply Hlong|].
    destruct (list.last (words (sargs msg))) as [w|] eqn:Hlast; [|done]. injection Hl as _ <-.
    apply last_Some in Hlast as [l' Hlast]. rewrite Hlast in Hw.
    apply Forall_app in Hw as [_ Hw]. apply Forall_cons_iff in Hw as [Hw _]. auto with vz.
  - eexists. split; [done|]. by repeat (split; [done|]).
Qed.

Lemma digit_check :
  forallb (fun n => let b := byte_of (48 + n) in (48 <=? code b)%N && (code b <=? 55)%N && (code b - 48 =? n)%N
    && negb (is_invalid Arg b) && negb (Byte.eqb b ":"))
    (N.of_nat <$> seq 0 8) = true.
Proof. vm_compute. done. Qed.

Lemma digit_byte n :
  (n < 8)%N ->
  (48 <=? code (byte_of (48 + n)))%N && (code (byte_of (48 + n)) <=? 55)%N = true /\
  (code (byte_of (48 + n)) - 48)%N = n /\ is_invalid Arg (byte_of (48 + n)) = false /\
  byte_of (48 + n) <> ":"%byte.
Proof.
  intros Hn. pose proof digit_check as Hc. rewrite List.forallb_forall in Hc.
  specialize (Hc n ltac:(apply list_elem_of_In, list_elem_of_fmap; exists (N.to_nat n); split; [lia|]; apply elem_of_seq; lia)).
  cbv zeta in Hc. rewrite !andb_true_iff in Hc. destruct Hc as ((((H1 & H2) & H3%N.eqb_eq) & H4%negb_true_iff) & H5).
  rewrite H1, H2. split_and!; try done. intros Heq. by rewrite Heq in H5.
Qed.

Lemma land7_lt n : (N.land n 7 < 8)%N.
Proof. change 7%N with (N.ones 3). rewrite N.land_ones. by apply N.mod_lt. Qed.

Lemma shift_join n : N.lor (N.shiftl (N.shiftr n 3) 3) (N.land n 7) = n.
Proof.
  apply N.bits_inj. intros i. change 7%N with (N.ones 3). rewrite N.lor_spec, N.land_spec.
  destruct (N.lt_ge_cases i 3).
  - rewrite N.shiftl_spec_low, N.ones_spec_low by done. by rewrite andb_true_r.
  - rewrite N.shiftl_spec_high', N.shiftr_spec', N.ones_spec_high by done.
    rewrite andb_false_r, orb_false_r. f_equal. lia.
Qed.

Lemma octal_digits_parse fuel n acc :
  (n < 8 ^ N.of_nat fuel)%N -> (n < 2 ^ 32)%N -> octal_parse 0 (octal_digits fuel n acc) = octal_parse n acc.
Proof.
  revert n acc. induction fuel as [|fuel IH]; intros n acc Hn Hm.
  { assert (n = 0%N) as -> by (simpl in Hn; lia). done. }
  cbn [octal_digits]. destruct (digit_byte (N.land n 7) (land7_lt n)) as (Hd & Hv & _).
  assert (Hstep : forall m, N.shiftr n 3 = m -> octal_parse m (byte_of (48 + N.land n 7) :: acc) = octal_parse n acc).
  { intros m <-. cbn [octal_parse]. rewrite Hd, Hv. f_equal. rewrite N.mod_small; [apply shift_join|].
    rewrite N.shiftl_mul_pow2, N.shiftr_div_pow2. pose proof (N.Div0.mul_div_le n (2 ^ 3)). lia. }
  destruct (N.eqb_spec (N.shiftr n 3) 0) as [Hz|Hz]; [by apply Hstep|].
  rewrite IH.
  - by apply Hstep.
  - rewrite N.shiftr_div_pow2. apply N.Div0.div_lt_upper_bound.
    replace (8 ^ N.of_nat (S fuel))%N with (2 ^ 3 * 8 ^ N.of_nat fuel)%N in Hn by (rewrite Nat2N.inj_succ, N.pow_succ_r'; lia).
    done.
  - rewrite N.shiftr_div_pow2. apply N.Div0.div_lt_upper_bound. lia.
Qed.

Context (mangle : N -> N).

(** The argument of the [PING] sent is read back as the hash it was made
    from, so the [PONG] that returns it ends the handler and yields its source
    and the time since the [PING]; a [PONG] with other octal digits, or with no
    octal digits, is left to other handlers. *)
Theorem ping_correct {S} `{Sender S (option Source * N)} t now msg ws last (channel : SenderRef S) :
  (mangle t < 2 ^ 32)%N -> kind msg = KCmd (bs "PONG") -> split_last (sargs msg) = (ws, Some last) ->
  (forall s, source msg = Some s -> source_wf s) ->
  octal_parse 0 (octal (mangle t)) = Some (mangle t) /\
  ping_handle mangle t now msg channel =
    if bool_decide (octal_parse 0 last = Some (mangle t))
    then Some (Break (), (ref_send channel (source msg, Queue.saturating_duration_since now t)).2)
    else Some (Continue, channel).
Proof.
  intros Hm Hk Hl Hs. split.
  { unfold octal. rewrite octal_digits_parse; [done| |done]. change (8 ^ N.of_nat 11)%N with (2 ^ 33)%N. lia. }
  unfold ping_handle, is_cmd. rewrite Hk, Hl, bool_decide_true by done. cbn [snd].
  destruct (octal_parse 0 last) as [v|]; [|by rewrite bool_decide_false].
  destruct (N.eqb_spec (mangle t) v) as [->|Hne].
  - rewrite bool_decide_true by done. destruct (source msg) as [s|]; [|done].
    by rewrite owning_merged_id by by apply Hs.
  - rewrite bool_decide_false; [done|]. congruence.
Qed.

(** ** CTCP *)

(** What the macro makes can be sent in any message: text that cannot is left out. *)
Lemma ctcp_version_handler_valid name ver repo :
  let h := ctcp_version_handler name ver repo in
  valid Line (version h) /\ valid Line (ctcp_source h) /\
  (valid Line (name ++ bs " v" ++ ver) -> version h = name ++ bs " v" ++ ver).
Proof.
  assert (Hu : forall l, valid Line (unwrap_or (from_bytes Line l) [])).
  { intros l. destruct (from_bytes Line l) as [l'|] eqn:E; [|done]. by apply from_bytes_Ok in E as [-> ?]. }
  split; [apply Hu|]. split; [apply Hu|]. intros Hv. cbn [ctcp_version_handler version]. by rewrite (proj2 (from_bytes_Ok Line _ _) (conj eq_refl Hv)).
Qed.

(** A message whose last argument is a CTCP VERSION is answered by one
    [NOTICE] to its sender, whose text reads back as the version; one without a
    source, or with another command, is not. *)
Theorem ctcp_version_correct h msg target s (queue : Guard) :
  version h <> [] -> ctcp_wf (mkCtcp (bs "VERSION") (version h)) ->
  source msg = s -> forall m, ctcp_wf m -> sargs msg = Args.set [target] (Some (into_line m)) -> ccmd m <> bs "SOURCE" ->
  match s, bool_decide (ccmd m = bs "VERSION") with
  | Some s, true =>
      exists reply, ctcp_handle h msg queue = (Continue, Queue.push queue reply) /\ cmd reply = bs "NOTICE" /\
        exists line, split_last (cargs reply) = ([nick s], Some line) /\ Ctcp.parse line = mkCtcp (bs "VERSION") (version h)
  | _, _ => ctcp_handle h msg queue = (Continue, queue)
  end.
Proof.
  intros Hv Hvwf <- m Hm Ha Hns. unfold ctcp_handle, PRIVMSG, basic_unary_server. cbn [from_union].
  rewrite Ha, split_last_set. cbn [match_target targeted_map tsource tvalue].
  destruct (ctcp_trip m Hm) as (Hp & _). rewrite Hp. destruct (source msg) as [s|]; [|done].
  rewrite (bool_decide_false (ccmd m = bs "SOURCE")) by done.
  case_bool_decide; [|done]. rewrite (bool_decide_false (version h = [])) by done. cbn [andb negb].
  unfold ctcp_answer. eexists. split; [done|]. split; [done|]. cbn [cargs client_new_cmd add_word words long Args.empty app].
  set (line := into_line _). exists line. split; [|unfold line; by apply ctcp_trip].
  unfold add, add_impl. cbn [words long]. by destruct (find_invalid Arg line).
Qed.

(** The handler does not look at the message kind, so its own kind of reply, a
    [NOTICE], is answered as well: two clients that use it never stop. *)
Theorem ctcp_answers_notices h msg target s (queue : Guard) :
  version h <> [] -> ctcp_wf (mkCtcp (bs "VERSION") (version h)) ->
  kind msg = KCmd (bs "NOTICE") -> source msg = Some s ->
  sargs msg = Args.set [target] (Some (into_line (mkCtcp (bs "VERSION") (version h)))) ->
  (ctcp_handle h msg queue).2 = ctcp_answer (nick s) (bs "VERSION") (version h) queue.
Proof.
  intros Hv Hvwf _ Hs Ha. unfold ctcp_handle, PRIVMSG, basic_unary_server. cbn [from_union].
  rewrite Ha, split_last_set. cbn [match_target targeted_map tsource tvalue]. rewrite Hs.
  rewrite (proj1 (ctcp_trip _ Hvwf)). cbn [ccmd]. rewrite bool_decide_true by done.
  by rewrite (bool_decide_false (version h = [])) by done.
Qed.
End RepliesThms.

(** ** Yielding *)

Section YieldThms.
Context {T : Type}.

(** A handler over a stream of messages, until it is done. *)
Fixpoint yield_stream (y : YieldParsed (S := Mpsc T)) (msgs : list ServerMsg) (s : Mpsc T) : bool * Mpsc T :=
  match msgs with
  | [] => (true, s)
  | msg :: msgs =>
      match yield_parsed y msg (mkSenderRef s false) with
      | (Continue, r) => yield_stream y msgs (sender r)
      | (Break _, r) => (false, sender r)
      end
  end.

(** The values of the messages a name parses. *)
Definition values_of {U} (name : NameValued ServerMsg U) (f : U -> list T) (msgs : list ServerMsg) : list T :=
  flat_map (fun m =>
    if bool_decide (as_raw name = as_arg (kind m)) then
      match from_union name m with Ok v => f v | Err _ => [] end
    else []) msgs.

Lemma send_each_mpsc (values l : list T) f :
  exists f', send_each values (mkSenderRef (mkMpsc true l) f) = (Continue, mkSenderRef (mkMpsc true (l ++ values)) f').
Proof.
  revert l f. induction values as [|v vs IH]; intros l f; cbn; [exists f; by rewrite app_nil_r|].
  destruct (IH (l ++ [v]) (f || true)) as [f' Hf']. exists f'. by rewrite Hf', <- app_assoc.
Qed.

Lemma get_singleton {V} (k k' : list byte) (v : V) :
  FlatMap.get fst [(k, v)] k' = if bool_decide (k = k') then Some (k, v) else None.
Proof.
  assert (Hs : FlatMap.sorted fst [(k, v)]) by repeat constructor. case_bool_decide as Hk.
  - subst. apply FlatMap.get_sorted; [done|]. split; [by left|done].
  - apply FlatMap.get_None; [done|]. by intros e ->%list_elem_of_singleton.
Qed.

(** A handler for one kind of message sends exactly the values of the
    messages of that kind that parse, mapped, in order, and goes on as long as
    somebody receives them. *)
Theorem yield_parsed_stream {U} (name : NameValued ServerMsg U) (f : U -> list T) msgs l :
  yield_stream (just_flat_map name f) msgs (mkMpsc true l) = (true, mkMpsc true (l ++ values_of name f msgs)).
Proof.
  revert l. induction msgs as [|m msgs IH]; intros l; cbn [yield_stream values_of flat_map]; [by rewrite app_nil_r|].
  unfold yield_parsed, just_flat_map. rewrite get_singleton. case_bool_decide.
  - unfold flat_parser_of. destruct (from_union name m) as [v|e].
    + destruct (send_each_mpsc (f v) l false) as [f' ->]. cbn [sender]. unfold just_flat_map in IH.
      by rewrite IH, <- app_assoc.
    + cbn [sender]. unfold just_flat_map in IH. by rewrite IH.
  - cbn [sender]. unfold just_flat_map in IH. by rewrite IH.
Qed.
End YieldThms.

(** ** Tracking the source *)

(** No byte that ends the nick in a [USERHOST] item. *)
Definition plain_nick (n : list byte) : Prop :=
  Forall (fun b => Byte.eqb b "=" = false /\ Byte.eqb b "*" = false) n.

Lemma userhost_parse_wf l uh : valid Word l -> userhost_parse l = Ok uh -> userhost_wf uh /\ userhost_write uh = l.
Proof.
  intros Hw. rewrite userhost_parse_spec. destruct (cursor_string User true (take_while not_at l)) as [u|e] eqn:E; [|done].
  apply cursor_string_true_Ok in E as [-> Hu]. pose proof (take_drop_while not_at l) as Htd.
  destruct (drop_while not_at l) as [|x h] eqn:Ed; [done|]. cbn [tail]. destruct h as [|y h]; [done|].
  intros [= <-]. assert (x = "@"%byte) as ->.
  { apply drop_while_head in Ed. unfold not_at in Ed. by destruct (byte_eqb_spec x "@"). }
  split; [|rewrite <- Htd at 2; unfold userhost_write; cbn [user host]; by rewrite <- app_assoc].
  split; [by intros ? [= <-]|]. split; [|done]. cbn [host]. rewrite <- Htd in Hw.
  apply word_part in Hw as [_ Hw]. change ("@"%byte :: y :: h) with (["@"%byte] ++ y :: h) in Hw.
  by apply word_part in Hw as [_ ?].
Qed.

(** Where the nick of an item ends. *)
Lemma item_nick n r :
  plain_nick n -> (exists b r', r = b :: r' /\ (b = "="%byte \/ exists r'', b = "*"%byte /\ r' = "="%byte :: r'')) ->
  take_while (fun x => negb (Byte.eqb x "*")) (take_while (fun x => negb (Byte.eqb x "=")) (n ++ r)) = n.
Proof.
  intros Hn (b & r' & -> & Hb). unfold plain_nick in Hn.
  assert (H1 : Forall (fun x => negb (Byte.eqb x "=") = true) n) by (eapply Forall_impl; [exact Hn|]; cbv beta; by intros x [-> _]).
  assert (H2 : Forall (fun x => negb (Byte.eqb x "*") = true) n) by (eapply Forall_impl; [exact Hn|]; cbv beta; by intros x [_ ->]).
  rewrite take_while_app by done. destruct Hb as [->|(r'' & -> & ->)]; cbn; rewrite ?app_nil_r.
  - by apply take_while_all.
  - rewrite take_while_app by done. cbn. by rewrite app_nil_r.
Qed.

Definition item_rest (op away : bool) (uh : UserHost) : list byte :=
  (if op then bs "*=" else bs "=") ++ (if away then bs "-" else bs "+") ++ userhost_write uh.

Lemma item_save n op away uh :
  valid Nick n -> plain_nick n ->
  let s := Splitter.new (plain (n ++ item_rest op away uh)) in
  let r := save_end (fun s => string Nick true (until_byte_eq "*" (until_byte_eq "=" s))) s in
  (exists v, r.1 = Ok v /\ value v = n) /\ as_slice r.2 = item_rest op away uh.
Proof.
  intros Hn Hp s r. assert (Hs : as_slice s = n ++ item_rest op away uh) by apply rem_new.
  destruct (until_byte_eq_inner "=" s) as [Hi1 Hst1].
  destruct (until_byte_eq_inner "*" (until_byte_eq "=" s)) as [Hi2 Hst2].
  assert (Hc : as_slice (until_byte_eq "*" (until_byte_eq "=" s)) = n).
  { rewrite !rem_until_byte_eq, Hs. apply item_nick; [done|]. unfold item_rest. destruct op; cbn.
    - eexists _, _. split; [done|]. right. by eexists.
    - eexists _, _. split; [done|]. by left. }
  destruct (save_end_string Nick true (fun s => until_byte_eq "*" (until_byte_eq "=" s)) s) as [Hr _].
  - apply wf_new.
  - by rewrite Hi2.
  - by rewrite Hst2.
  - rewrite Hc, Hs, length_app. lia.
  - rewrite Hc, cursor_string_rest in Hr by done. destruct Hr as (v & H1 & H2 & H3).
    split; [by exists v|]. unfold r. rewrite H3, Hs. apply drop_app_length.
Qed.

(** A [USERHOST] reply item about the client's nick is read as its user and
    host whatever the operator and away flags, and an item about another nick
    is passed over. *)
Theorem userhost_item n op away uh n' u :
  valid Nick n -> plain_nick n -> userhost_wf uh -> user uh = Some u ->
  parse_userhost_item (n ++ item_rest op away uh) n' =
  if bool_decide (n = n') then Ok uh else Err None.
Proof.
  intros Hn Hp (Hu & Hh & Hne) Huu. destruct (item_save n op away uh Hn Hp) as [(v & Hv & Hvn) Hr].
  unfold parse_userhost_item. destruct (save_end _ _) as [r s]. cbn [fst snd] in Hv, Hr. subst r. rewrite Hvn.
  case_bool_decide; [|done]. cbn [negb]. unfold item_rest in Hr.
  pose proof (rem_next_byte s) as [N1 N2]. rewrite Hr in N1, N2. destruct (next_byte s) as [b s1]. cbn [fst snd] in N1, N2.
  assert (Hfin : forall s2, as_slice s2 = (if away then bs "-" else bs "+") ++ userhost_write uh ->
    (let (b, s3) := next_byte s2 in
     if is_byte b "+" || is_byte b "-" then map_err Some (userhost_parse (value (rest_or_default Word s3).1))
     else Err (Some (InvalidField (bs "is_away") (bs "expected + or -, got " ++ debug_byte b)))) = Ok uh).
  { intros s2 H2. pose proof (rem_next_byte s2) as [M1 M2]. rewrite H2 in M1, M2.
    destruct (next_byte s2) as [b2 s3]. cbn [fst snd] in M1, M2.
    assert (Hs3 : userhost_parse (value (rest_or_default Word s3).1) = Ok uh).
    { rewrite (proj1 (rest_or_default_cursor Word s3 eq_refl)), M2.
      assert (tail ((if away then bs "-" else bs "+") ++ userhost_write uh) = userhost_write uh) as -> by by destruct away.
      unfold userhost_write. rewrite Huu, <- app_assoc. destruct uh as [us h]. cbn [user host] in *. subst us.
      change (bs "@" ++ h) with ("@"%byte :: h). rewrite userhost_write_parse; auto. }
    rewrite Hs3. destruct away; cbn in M1; subst b2; done. }
  destruct op; cbn in N1; subst b; [|by apply Hfin].
  pose proof (rem_next_byte s1) as [M1 M2]. rewrite N2 in M1, M2. destruct (next_byte s1) as [b2 s2].
  cbn in M1, M2. subst b2. by apply Hfin.
Qed.

(** An item about the nick [n]: the nick, whether it is an operator, whether it is
    away, and its user and host. *)
Definition item_flags (op away : bool) : list byte := (if op then bs "*=" else bs "=") ++ (if away then bs "-" else bs "+").
Definition about (item n : list byte) (uh : UserHost) : Prop :=
  plain_nick n /\ exists op away rest, item = n ++ item_flags op away ++ rest /\ userhost_parse rest = Ok uh.

Lemma is_byte_true b c : is_byte b c = true -> b = Some c.
Proof. destruct b as [b|]; [|done]. cbn. intros Hb%(reflect_iff _ _ (byte_eqb_spec b c)). by subst. Qed.

Lemma next_byte_slice s b s' : next_byte s = (b, s') -> b = head (as_slice s) /\ as_slice s' = tail (as_slice s).
Proof. intros Hn. pose proof (rem_next_byte s) as [N1 N2]. by rewrite Hn in N1, N2. Qed.

Lemma next_byte_is s b s' c : next_byte s = (b, s') -> is_byte b c = true -> as_slice s = c :: as_slice s'.
Proof.
  intros [-> ->]%next_byte_slice Hb%is_byte_true. destruct (as_slice s) as [|x l]; [done|]. by injection Hb as ->.
Qed.

Lemma item_nick_inv item :
  let w := take_while (fun x => negb (Byte.eqb x "*")) (take_while (fun x => negb (Byte.eqb x "=")) item) in
  plain_nick w /\ item = w ++ drop (length w) item.
Proof.
  assert (Hpre : forall f (l : list byte), exists r, l = take_while f l ++ r).
  { intros f l. exists (drop_while f l). by rewrite take_drop_while. }
  assert (Hall : forall f (l : list byte), Forall (fun x => f x = true) (take_while f l)).
  { intros f l. induction l as [|x l IH]; cbn; [constructor|]. destruct (f x) eqn:Hx; [by constructor|constructor]. }
  cbv zeta. set (a := take_while (fun x => negb (Byte.eqb x "=")) item). set (w := take_while _ a).
  destruct (Hpre (fun x => negb (Byte.eqb x "=")) item) as [r1 H1]. fold a in H1.
  destruct (Hpre (fun x => negb (Byte.eqb x "*")) a) as [r2 H2]. fold w in H2. split.
  - pose proof (Hall (fun x => negb (Byte.eqb x "=")) item) as Ha. fold a in Ha. rewrite H2 in Ha. apply Forall_app in Ha as [Ha _].
    pose proof (Hall (fun x => negb (Byte.eqb x "*")) a) as Hb. fold w in Hb. unfold plain_nick.
    rewrite Forall_forall in Ha, Hb |- *. intros x Hx. split; apply negb_true_iff; [by apply Ha|by apply Hb].
  - rewrite H1, H2, <- app_assoc. by rewrite drop_app_length.
Qed.

Lemma parse_item_spec item n uh : valid Nick n -> parse_userhost_item item n = Ok uh <-> about item n uh.
Proof.
  intros Hvn. unfold parse_userhost_item, about. set (s0 := Splitter.new (plain item)).
  assert (Hs0 : as_slice s0 = item) by apply rem_new.
  set (w := take_while (fun x => negb (Byte.eqb x "*")) (take_while (fun x => negb (Byte.eqb x "=")) item)).
  assert (Hw : as_slice (until_byte_eq "*" (until_byte_eq "=" s0)) = w) by by rewrite !rem_until_byte_eq, Hs0.
  destruct (save_end_string Nick true (fun s => until_byte_eq "*" (until_byte_eq "=" s)) s0) as [Hsv _].
  { apply wf_new. }
  { destruct (until_byte_eq_inner "*" (until_byte_eq "=" s0)) as [-> _]. by destruct (until_byte_eq_inner "=" s0). }
  { destruct (until_byte_eq_inner "*" (until_byte_eq "=" s0)) as [_ ->]. by destruct (until_byte_eq_inner "=" s0). }
  { rewrite !rem_until_byte_eq. etransitivity; [apply length_take_while|apply length_take_while]. }
  rewrite Hw in Hsv. destruct (item_nick_inv item) as [Hpw Hiw]. fold w in Hpw, Hiw.
  destruct (save_end _ s0) as [r s1]. cbn [fst snd] in Hsv.
  assert (Hsame : forall x, match r with Ok v => bool_decide (value v = n) | Err _ => false end = x ->
    (x = true -> w = n /\ as_slice s1 = drop (length w) item) /\ (x = false -> w <> n)).
  { intros x <-. destruct (cursor_string Nick true w) as [w'|e] eqn:Hc.
    - apply cursor_string_true_Ok in Hc as [-> _]. destruct Hsv as (v & -> & Hv & Hr). rewrite Hv, Hr, Hs0.
      split; [by intros ->%bool_decide_eq_true|by intros ?%bool_decide_eq_false].
    - destruct Hsv as [-> _]. split; [done|]. intros _ ->. by rewrite cursor_string_rest in Hc. }
  assert (Hback : plain_nick n -> (exists op away rest, item = n ++ item_flags op away ++ rest /\ userhost_parse rest = Ok uh) -> w = n).
  { intros Hp (op & away & rest & He & _). unfold w. rewrite He. apply item_nick; [done|]. unfold item_flags. destruct op; cbn.
    - eexists _, _. split; [done|]. right. by eexists.
    - eexists _, _. split; [done|]. by left. }
  destruct (match r with Ok v => bool_decide (value v = n) | Err _ => false end) eqn:Hx;
    destruct (Hsame _ eq_refl) as [Ht Hf]; cbn [negb].
  2: { split; [done|]. intros [Hp He]. by destruct (Hf eq_refl); apply Hback. }
  destruct (Ht eq_refl) as [Hwn Hs1]. clear Ht Hf Hsame Hsv. subst n. clear Hback Hx r.
  assert (Hitem : (exists op away rest, item = w ++ item_flags op away ++ rest /\ userhost_parse rest = Ok uh) <->
    exists op away rest, as_slice s1 = item_flags op away ++ rest /\ userhost_parse rest = Ok uh).
  { rewrite Hs1. split; intros (op & away & rest & He & Hu); exists op, away, rest; (split; [|done]).
    - by rewrite He, drop_app_length.
    - rewrite Hiw at 1. by rewrite He. }
  assert (Hall : forall P, P <-> (plain_nick w /\ P)) by (clear -Hpw; tauto). rewrite Hitem, <- Hall. clear Hitem Hall Hs1 Hiw Hw Hs0.
  assert (Haway : forall s, (let (b, s3) := next_byte s in
     if is_byte b "+" || is_byte b "-" then map_err Some (userhost_parse (value (rest_or_default Word s3).1))
     else Err (Some (InvalidField (bs "is_away") (bs "expected + or -, got " ++ debug_byte b)))) = Ok uh <->
     exists away rest, as_slice s = (if away : bool then bs "-" else bs "+") ++ rest /\ userhost_parse rest = Ok uh).
  { intros s. destruct (next_byte s) as [b s3] eqn:Hb. split.
    - destruct (is_byte b "+") eqn:H1; cbn [orb].
      + rewrite (proj1 (rest_or_default_cursor Word s3 eq_refl)). intros Hu. exists false, (as_slice s3).
        split; [by apply (next_byte_is _ _ _ _ Hb)|]. by destruct (userhost_parse _); [injection Hu as ->|].
      + destruct (is_byte b "-") eqn:H2; [|done]. rewrite (proj1 (rest_or_default_cursor Word s3 eq_refl)). intros Hu. exists true, (as_slice s3).
        split; [by apply (next_byte_is _ _ _ _ Hb)|]. by destruct (userhost_parse _); [injection Hu as ->|].
    - intros (away & rest & Hs & Hu). apply next_byte_slice in Hb as [-> H3]. rewrite Hs in H3 |- *.
      rewrite (proj1 (rest_or_default_cursor Word s3 eq_refl)), H3. destruct away; cbn; by rewrite Hu. }
  destruct (next_byte s1) as [b s2] eqn:Hb. split.
  - destruct (is_byte b "=") eqn:H1.
    + intros (away & rest & Hs & Hu)%Haway. exists false, away, rest. split; [|done].
      rewrite (next_byte_is _ _ _ _ Hb H1), Hs. done.
    + destruct (is_byte b "*") eqn:H2; [|done]. destruct (next_byte s2) as [b3 s3] eqn:Hb3. destruct (is_byte b3 "=") eqn:H3; [|done].
      intros (away & rest & Hs & Hu)%Haway. exists true, away, rest. split; [|done].
      rewrite (next_byte_is _ _ _ _ Hb H2), (next_byte_is _ _ _ _ Hb3 H3), Hs. done.
  - intros ([] & away & rest & Hs & Hu); apply next_byte_slice in Hb as [-> H2]; rewrite Hs in H2 |- *; cbn in H2 |- *.
    + destruct (next_byte s2) as [b3 s3] eqn:Hb3. apply next_byte_slice in Hb3 as [-> H3]. rewrite H2 in H3 |- *. cbn in H3 |- *.
      apply Haway. by exists away, rest.
    + apply Haway. by exists away, rest.
Qed.

(** The first item about a nick. *)
Lemma first_userhost_spec items n uh :
  valid Nick n ->
  first_userhost items n = Some uh <->
  exists before item after, items = before ++ item :: after /\ about item n uh /\ Forall (fun i => forall u, ~ about i n u) before.
Proof.
  intros Hn. induction items as [|item items IH]; cbn [first_userhost].
  { split; [done|]. by intros ([|? ?] & ? & ? & ? & _). }
  assert (Hp : forall u, parse_userhost_item item n = Ok u <-> about item n u) by (intros u; by apply parse_item_spec).
  destruct (parse_userhost_item item n) as [uh'|e].
  - split.
    + intros [= <-]. exists [], item, items. split; [done|]. split; [by apply Hp|constructor].
    + intros (before & item' & after & He & Ha & Hb). destruct before as [|i before]; injection He as <- ->.
      * apply Hp in Ha as [= ->]. done.
      * apply Forall_cons in Hb as [Hb _]. by destruct (Hb uh'); apply Hp.
  - rewrite IH. split; intros (before & item' & after & He & Ha & Hb).
    + exists (item :: before), item', after. split; [by rewrite He|]. split; [done|]. apply Forall_cons. split; [|done]. by intros u [=]%Hp.
    + destruct before as [|i before]; injection He as <- ->; [by apply Hp in Ha|]. apply Forall_cons in Hb as [_ Hb].
      by exists before, item', after.
Qed.

Section TrackThms.
Context (type_id : State.ClientStateKey -> N)
  (type_id_inj : forall a b, type_id a = type_id b -> a = b).
Abbreviation ClientState := State.ClientState.
Abbreviation self := (State.get type_id State.ClientSource).

(** The stored source is well-formed. *)
Definition self_wf (state : ClientState) (src : Source) : Prop :=
  State.state_wf type_id state /\ self state = Some src /\ source_wf src.

Lemma set_source_spec state src src' :
  self_wf state src -> source_wf src' ->
  self_wf (set_source type_id state src') src' /\
  State.source_len (set_source type_id state src') =
    State.calc_source_len type_id (set_source type_id state src') (Some src') false /\
  forall k, k <> State.ClientSource -> State.get type_id k (set_source type_id state src') = State.get type_id k state.
Proof.
  intros (Hw & _ & _) Hs. destruct (State.insert_spec type_id type_id_inj State.ClientSource src' state Hw) as (H1 & H2 & H3 & _).
  unfold set_source, State.update_source_len. cbn [snd]. split; [done|]. split; [|done].
  cbn [State.set_source_len State.source_len]. rewrite H2. done.
Qed.

Lemma first_userhost_wf items nick uh :
  Forall (valid Arg) items -> first_userhost items nick = Some uh -> userhost_wf uh.
Proof.
  induction 1 as [|item items Hi _ IH]; cbn [first_userhost]; [done|].
  destruct (parse_userhost_item item nick) as [uh'|e] eqn:Hp; [|done]. intros [= <-].
  unfold parse_userhost_item in Hp.
  assert (Hline : forall s, (exists n, as_slice s = drop n item) ->
    forall n, exists m, as_slice (if n : bool then (next_byte s).2 else s) = drop m item).
  { intros s [n Hn] b. destruct b; [|by exists n]. exists (n + 1).
    rewrite (proj2 (rem_next_byte s)), Hn. rewrite <- drop_drop. by destruct (drop n item). }
  set (s0 := Splitter.new (plain item)) in *.
  assert (Hs0 : as_slice s0 = item) by apply rem_new.
  destruct (save_end_string Nick true (fun s => until_byte_eq "*" (until_byte_eq "=" s)) s0) as [Hsv _].
  { apply wf_new. }
  { destruct (until_byte_eq_inner "*" (until_byte_eq "=" s0)) as [-> _]. by destruct (until_byte_eq_inner "=" s0). }
  { destruct (until_byte_eq_inner "*" (until_byte_eq "=" s0)) as [_ ->]. by destruct (until_byte_eq_inner "=" s0). }
  { rewrite !rem_until_byte_eq. etransitivity; [apply length_take_while|apply length_take_while]. }
  destruct (save_end _ s0) as [r s1]. cbn [fst snd] in Hsv.
  assert (H1 : exists n, as_slice s1 = drop n item).
  { destruct (cursor_string _ _ _) as [w|e]; [destruct Hsv as (v & _ & _ & ->); exists (length w); by rewrite Hs0|].
    destruct Hsv as [_ ->]. exists 0. by rewrite Hs0. }
  destruct (negb _); [done|].
  pose proof (Hline s1 H1 true) as H2. destruct (next_byte s1) as [b s2]. cbn [snd] in H2.
  assert (Hop : exists s3, (exists m, as_slice s3 = drop m item) /\
    (let (b, s4) := next_byte s3 in
     if is_byte b "+" || is_byte b "-" then map_err Some (userhost_parse (value (rest_or_default Word s4).1))
     else Err (Some (InvalidField (bs "is_away") (bs "expected + or -, got " ++ debug_byte b)))) = Ok uh').
  { pose proof (Hline s2 H2 true) as H3. destruct (is_byte b "="); [by exists s2|].
    destruct (is_byte b "*"); [|done]. destruct (next_byte s2) as [b3 s3]. cbn [snd] in H3.
    destruct (is_byte b3 "="); [by exists s3|done]. }
  destruct Hop as (s3 & H3 & Hop). pose proof (Hline s3 H3 true) as [m H4]. destruct (next_byte s3) as [b3 s4]. cbn [snd] in H4.
  destruct (is_byte b3 "+" || is_byte b3 "-"); [|done]. rename Hop into Hu.
  rewrite (proj1 (rest_or_default_cursor Word s4 eq_refl)), H4 in Hu.
  destruct (userhost_parse (drop m item)) as [x|] eqn:Hx; [|done]. injection Hu as <-.
  apply (userhost_parse_wf _ _) in Hx as [? _]; [done|].
  assert (Hiw : valid Word item) by auto with vz. rewrite <- (take_drop m item) in Hiw.
  by apply word_part in Hiw as [_ ?].
Qed.

Lemma super_nick l l' : valid Arg l -> from_super SNick l = Ok l' -> l' = l /\ valid Nick l.
Proof.
  intros Hl Hok. rewrite (from_super_from_bytes SNick l) in Hok.
  - by apply (from_bytes_Ok Nick) in Hok.
  - apply list_elem_of_In. do 4 right. by left.
  - exact Hl.
Qed.

Lemma super_user l l' : valid Arg l -> from_super SUser l = Ok l' -> l' = l /\ valid User l.
Proof.
  intros Hl Hok. rewrite (from_super_from_bytes SUser l) in Hok.
  - by apply (from_bytes_Ok User) in Hok.
  - apply list_elem_of_In. do 5 right. by left.
  - exact Hl.
Qed.

(** What a message says of the client's source, which is [src], and what the
    source is after it. *)
Inductive announces (msg : ServerMsg) (src : Source) : Source -> Prop :=
| announces_userhost tgt before item after uh :
    as_arg (kind msg) = bs "302" -> all (sargs msg) = Some (tgt :: before ++ item :: after) ->
    about item (nick src) uh -> Forall (fun i => forall u, ~ about i (nick src) u) before ->
    announces msg src (mkSource (nick src) (Some uh))
| announces_nick n :
    as_arg (kind msg) = bs "NICK" -> all (sargs msg) = Some [n] -> valid Nick n -> from_self msg src = true ->
    announces msg src (mkSource n (userhost src))
| announces_chghost u h :
    as_arg (kind msg) = bs "CHGHOST" -> all (sargs msg) = Some [u; h] -> valid User u -> from_self msg src = true ->
    announces msg src (mkSource (nick src) (Some (mkUserHost (Some u) h))).

Lemma announces_wf msg src src' : server_wf msg -> source_wf src -> announces msg src src' -> source_wf src'.
Proof.
  intros (_ & _ & _ & Hargs) [Hn Hu] Ha.
  assert (Hall : forall l, all (sargs msg) = Some l -> Forall (valid Arg) l).
  { unfold all. destruct (long (sargs msg)); [done|]. intros l [= <-]. apply Hargs. }
  destruct Ha as [tgt before item after uh _ Hl Hi _|n _ Hl Hv _|u h _ Hl Hv _]; (split; [done|]); cbn [userhost]; [|done|].
  - intros ? [= <-]. apply Hall, Forall_cons_iff in Hl as [_ Hl]. apply Forall_app in Hl as [_ Hl].
    apply (first_userhost_wf (item :: after) (nick src) uh Hl). apply first_userhost_spec; [done|]. exists [], item, after.
    split; [done|]. split; [done|constructor].
  - apply Hall in Hl. apply Forall_cons_iff in Hl as [_ Hl]. apply Forall_cons_iff in Hl as [Hh _].
    intros ? [= <-]. split; [by intros ? [= <-]|]. split; [cbn; auto with vz|]. intros He. cbn in He. by subst h.
Qed.

(** C34: Tracking keeps the client's source known and well-formed.  It changes
    exactly by messages that say so: a [USERHOST] reply with an item about the
    client's nick, the first of which gives the user and host; a [NICK] of the
    client's own with a valid nick, which gives the nick; and a [CHGHOST] of the
    client's own with a valid user, which gives user and host.  With every change
    the assumed source length is computed afresh, and nothing else in the state
    changes. *)
Theorem track_correct msg state src :
  self_wf state src -> server_wf msg ->
  let '(cf, state') := track_handle type_id msg state in
  cf = Continue /\
  (((forall src', ~ announces msg src src') /\ state' = state) \/
   exists src', announces msg src src' /\ self_wf state' src' /\
     State.source_len state' = State.calc_source_len type_id state' (Some src') false /\
     forall k, k <> State.ClientSource -> State.get type_id k state' = State.get type_id k state).
Proof.
  intros Hself Hwf. pose proof Hself as (Hw & Hs & Hsrc). pose proof Hwf as (_ & _ & _ & Hargs).
  assert (Hset : forall src', announces msg src src' ->
    (Continue (B := ()), set_source type_id state src').1 = Continue /\
    (((forall src', ~ announces msg src src') /\ set_source type_id state src' = state) \/
     exists src0, announces msg src src0 /\ self_wf (set_source type_id state src') src0 /\
       State.source_len (set_source type_id state src') = State.calc_source_len type_id (set_source type_id state src') (Some src0) false /\
       forall k, k <> State.ClientSource -> State.get type_id k (set_source type_id state src') = State.get type_id k state)).
  { intros src' Ha. split; [done|]. right. exists src'. split; [done|]. apply (set_source_spec state src src' Hself). by eapply announces_wf. }
  assert (Hall : forall l, all (sargs msg) = Some l -> Forall (valid Arg) l).
  { unfold all. destruct (long (sargs msg)); [done|]. intros l [= <-]. apply Hargs. }
  pose proof super_nick as HsN. pose proof super_user as HsU. pose proof (proj1 Hsrc) as Hnick.
  unfold track_handle, get_client_source. rewrite Hs. destruct (bool_decide_reflect (as_arg (kind msg) = bs "302")) as [Hk|Hk1];
    [|destruct (bool_decide_reflect (as_arg (kind msg) = bs "NICK")) as [Hk|Hk2];
      [|destruct (bool_decide_reflect (as_arg (kind msg) = bs "CHGHOST")) as [Hk|Hk3]]].
  - assert (Hno : (forall tgt items, all (sargs msg) = Some (tgt :: items) -> first_userhost items (nick src) = None) ->
      forall src', ~ announces msg src src').
    { intros Hno src' [tgt before item after uh _ Hl Hi Hb|n Hk' _ _ _|u h Hk' _ _ _]; [|by rewrite Hk in Hk'..].
      specialize (Hno _ _ Hl). assert (Hyes : first_userhost (before ++ item :: after) (nick src) = Some uh); [|congruence].
      apply first_userhost_spec; [done|]. by exists before, item, after. }
    destruct (all (sargs msg)) as [[|tgt items]|] eqn:Ha.
    + split; [done|]. left. split; [|done]. apply Hno. by intros ? ? [=].
    + destruct (first_userhost items (nick src)) as [uh|] eqn:Hf.
      * apply Hset. apply first_userhost_spec in Hf as (before & item & after & -> & Hi & Hb); [|done]. by eapply announces_userhost.
      * split; [done|]. left. split; [|done]. apply Hno. by intros ? ? [= <- <-].
    + split; [done|]. left. split; [|done]. by apply Hno.
  - assert (Hno : (forall n, all (sargs msg) = Some [n] -> valid Nick n -> from_self msg src = false) -> forall src', ~ announces msg src src').
    { intros Hno src' [tgt before item after uh Hk' _ _ _|n _ Hl Hv Hf|u h Hk' _ _ _]; [by rewrite Hk in Hk'| |by rewrite Hk in Hk'].
      by rewrite (Hno n Hl Hv) in Hf. }
    destruct (all (sargs msg)) as [[|n [|? ?]]|] eqn:Ha; try (split; [done|]; left; split; [by apply Hno|done]).
    pose proof (Hall _ eq_refl) as Hv. apply Forall_cons_iff in Hv as [Hv _].
    destruct (from_super SNick n) as [n'|e] eqn:Hsup.
    + destruct (HsN n n' Hv Hsup) as [-> Hnv]. destruct (from_self msg src) eqn:Hfs; [apply Hset; by apply announces_nick|].
      split; [done|]. left. split; [|done]. by apply Hno.
    + split; [done|]. left. split; [|done]. apply Hno. intros ? [= <-] Hvn. exfalso.
      rewrite (from_super_from_bytes SNick n) in Hsup; [|apply list_elem_of_In; do 4 right; by left|exact Hv].
      unfold from_bytes in Hsup. by rewrite Hvn in Hsup.
  - assert (Hno : (forall u h, all (sargs msg) = Some [u; h] -> valid User u -> from_self msg src = false) -> forall src', ~ announces msg src src').
    { intros Hno src' [tgt before item after uh Hk' _ _ _|n Hk' _ _ _|u h _ Hl Hv Hf]; [by rewrite Hk in Hk'..|].
      by rewrite (Hno u h Hl Hv) in Hf. }
    destruct (all (sargs msg)) as [[|u [|h [|? ?]]]|] eqn:Ha; try (split; [done|]; left; split; [by apply Hno|done]).
    pose proof (Hall _ eq_refl) as Hv. apply Forall_cons_iff in Hv as [Hv _].
    destruct (from_self msg src) eqn:Hfs; [|split; [done|]; left; split; [by apply Hno|done]].
    destruct (from_super SUser u) as [u'|e] eqn:Hsup.
    + destruct (HsU u u' Hv Hsup) as [-> Huv]. apply Hset. by apply announces_chghost.
    + split; [done|]. left. split; [|done]. apply Hno. intros ? ? [= <- <-] Hvu. exfalso.
      rewrite (from_super_from_bytes SUser u) in Hsup; [|apply list_elem_of_In; do 5 right; by left|exact Hv].
      unfold from_bytes in Hsup. by rewrite Hvu in Hsup.
  - split; [done|]. left. split; [|done]. by intros src' [].
Qed.
End TrackThms.

(** ** Witnesses *)

#[local] Instance idle_adjuster : Queue.Adjuster () := {|
  Queue.should_adjust a _ := (false, a);
  Queue.update a m := (true, m, a);
  Queue.adjuster_reset a := a;
|}.

Definition sample_guard : Queue.QueueEditGuard () N := Queue.edit (Queue.new 0).
Definition sample_source : Source := mkSource (bs "me") (Some (mkUserHost (Some (bs "u")) (bs "h"))).
Definition sample_server (c : list byte) (args : Args) : ServerMsg := mkServerMsg [] (Some sample_source) (KCmd c) args.

Lemma sample_source_wf : source_wf sample_source.
Proof.
  split; [by vm_compute|]. intros ? [= <-]. split; [|split; [by vm_compute|by intros ?]].
  intros ? [= <-]. by vm_compute.
Qed.

Lemma words_args_wf l : forallb (fun w => bool_decide (valid Arg w)) l = true -> args_wf (mkArgs l None).
Proof.
  intros Hf. split; [|done]. cbn [words]. apply List.Forall_forall. intros w Hw.
  rewrite List.forallb_forall in Hf. specialize (Hf w Hw). by apply bool_decide_eq_true in Hf.
Qed.

Lemma pong_correct_witness :
  args_wf (mkArgs [bs "12345"] None) /\
  is_cmd (sample_server (bs "PING") (mkArgs [bs "12345"] None)) (bs "PING") = true /\
  exists reply, pong (sample_server (bs "PING") (mkArgs [bs "12345"] None)) sample_guard =
    (true, Queue.push sample_guard reply) /\ (split_last (cargs reply)).2 = Some (bs "12345").
Proof.
  assert (Hw : args_wf (mkArgs [bs "12345"] None)) by by apply words_args_wf.
  split; [exact Hw|]. split; [reflexivity|].
  destruct (pong_correct (sample_server (bs "PING") (mkArgs [bs "12345"] None)) sample_guard Hw) as (reply & H1 & _ & _ & H2 & _).
  exists reply. split; [exact H1|exact H2].
Defined.

Lemma ping_correct_witness :
  octal 123456 = bs "361100" /\
  ping_handle (fun t => t) 123456 123500 (sample_server (bs "PONG") (mkArgs [bs "s"; bs "361100"] None))
    (mkSenderRef (mkMpsc true []) false) =
    Some (Break (), mkSenderRef (mkMpsc true [(Some sample_source, 44%N)]) true).
Proof.
  split; [reflexivity|].
  refine (eq_trans (proj2 (ping_correct (fun t => t) 123456 123500
    (sample_server (bs "PONG") (mkArgs [bs "s"; bs "361100"] None)) [bs "s"] (bs "361100")
    (mkSenderRef (mkMpsc true []) false) _ eq_refl eq_refl _)) _).
  - vm_compute. reflexivity.
  - intros s [= <-]. apply sample_source_wf.
  - vm_compute. reflexivity.
Defined.

Definition sample_ctcp : CtcpVersion := mkCtcpVersion (bs "vinezombie 1.0") [].

Lemma ctcp_version_correct_witness :
  ctcp_wf (mkCtcp (bs "VERSION") (bs "vinezombie 1.0")) /\ ctcp_wf (mkCtcp (bs "VERSION") []) /\
  exists reply,
    ctcp_handle sample_ctcp
      (sample_server (bs "PRIVMSG") (Args.set [bs "me"] (Some (into_line (mkCtcp (bs "VERSION") []))))) sample_guard =
    (Continue, Queue.push sample_guard reply) /\ cmd reply = bs "NOTICE".
Proof.
  assert (Hw1 : ctcp_wf (mkCtcp (bs "VERSION") (bs "vinezombie 1.0"))).
  { split; [by vm_compute|]. split; [by vm_compute|]. split; [by vm_compute|]. split; repeat constructor. }
  assert (Hw2 : ctcp_wf (mkCtcp (bs "VERSION") [])).
  { split; [by vm_compute|]. split; [by vm_compute|]. split; [by vm_compute|]. split; repeat constructor. }
  split; [exact Hw1|]. split; [exact Hw2|].
  destruct (ctcp_version_correct sample_ctcp
    (sample_server (bs "PRIVMSG") (Args.set [bs "me"] (Some (into_line (mkCtcp (bs "VERSION") [])))))
    (bs "me") (Some sample_source) sample_guard ltac:(done) Hw1 eq_refl (mkCtcp (bs "VERSION") []) Hw2 eq_refl ltac:(done))
    as (reply & H1 & H2 & _).
  exists reply. split; [exact H1|exact H2].
Defined.

Lemma userhost_item_witness :
  valid Nick (bs "me") /\
  parse_userhost_item (bs "me" ++ item_rest true false (mkUserHost (Some (bs "u")) (bs "h"))) (bs "me") =
    Ok (mkUserHost (Some (bs "u")) (bs "h")).
Proof.
  split; [by vm_compute|].
  refine (eq_trans (userhost_item (bs "me") true false (mkUserHost (Some (bs "u")) (bs "h")) (bs "me") (bs "u") _ _ _ eq_refl) _).
  - by vm_compute.
  - repeat constructor.
  - apply (proj2 sample_source_wf _ eq_refl).
  - reflexivity.
Defined.

Definition sample_state : State.ClientState :=
  State.insert State.sample_type_id State.ClientSource sample_source State.new.

(** The client changes its nick from me to you. *)
Lemma track_correct_witness :
  self_wf State.sample_type_id sample_state sample_source /\
  server_wf (sample_server (bs "NICK") (mkArgs [bs "you"] None)) /\
  (track_handle State.sample_type_id (sample_server (bs "NICK") (mkArgs [bs "you"] None)) sample_state).1 = Continue /\
  State.get State.sample_type_id State.ClientSource
    (track_handle State.sample_type_id (sample_server (bs "NICK") (mkArgs [bs "you"] None)) sample_state).2 =
    Some (mkSource (bs "you") (userhost sample_source)).
Proof.
  assert (Hs : self_wf State.sample_type_id sample_state sample_source).
  { split; [|split; [reflexivity|apply sample_source_wf]].
    apply (State.insert_spec State.sample_type_id State.sample_type_id_inj State.ClientSource sample_source State.new),
      State.state_wf_new. }
  assert (Hm : server_wf (sample_server (bs "NICK") (mkArgs [bs "you"] None))).
  { split; [by repeat constructor|]. split; [intros ? [= <-]; apply sample_source_wf|].
    split; [by vm_compute|by apply words_args_wf]. }
  split; [exact Hs|]. split; [exact Hm|].
  pose proof (track_correct State.sample_type_id State.sample_type_id_inj
    (sample_server (bs "NICK") (mkArgs [bs "you"] None)) sample_state sample_source Hs Hm) as Ht.
  assert (Hn : State.get State.sample_type_id State.ClientSource
    (track_handle State.sample_type_id (sample_server (bs "NICK") (mkArgs [bs "you"] None)) sample_state).2 =
    Some (mkSource (bs "you") (userhost sample_source))) by (vm_compute; reflexivity).
  destruct (track_handle State.sample_type_id _ sample_state) as [cf state']. destruct Ht as [Hc _].
  split; [exact Hc|exact Hn].
Defined.
