(* ===== verification/Cap.v ===== *)
(** * Capability negotiation

    [src/client/cap.rs]: requesting capabilities in lines that fit, and the
    arguments of the server's [CAP] messages.  A [BTreeMap] is the list of its
    entries in key order. *)

From Stdlib Require Import Sorted.
From S2P Require Import Prelude Args Tags Numeric Source Strings Splitter Msg Ctcp Sink.
From S2P Require Builder Names Transforms BytesCell.

(** ** [BTreeMap] *)

Abbreviation BTreeMap := (list (list byte * list byte)).

Fixpoint map_insert (k v : list byte) (m : BTreeMap) : BTreeMap :=
  match m with
  | [] => [(k, v)]
  | (k', v') :: m' =>
      match bytes_cmp k k' with
      | Lt => (k, v) :: m
      | Eq => (k, v) :: m'
      | Gt => (k', v') :: map_insert k v m'
      end
  end.

Fixpoint map_get (m : BTreeMap) (k : list byte) : option (list byte) :=
  match m with
  | [] => None
  | (k', v) :: m => if bool_decide (k' = k) then Some v else map_get m k
  end.

(** ** [req] *)

Section Req.
Context {S : Type} `{ClientMsgSink S}.

(** The message before the capabilities are added; "REQ" is a literal. *)
Definition req_msg : ClientMsg :=
  let msg := client_new_cmd (bs "CAP") in mkClientMsg (ctags msg) (cmd msg) (add (cargs msg) (bs "REQ")).2.

Definition with_caps (cap_string : Builder.Builder) : ClientMsg :=
  mkClientMsg (ctags req_msg) (cmd req_msg) (add (cargs req_msg) (value (Builder.build cap_string))).2.

(** How much of a line is left for capabilities. *)
Definition base_len (client : option (list byte)) (server : option Source) : nat :=
  let len_mod := (4 + Z.of_nat (match client with Some c => length c | None => 1 end))%Z in
  Z.to_nat (client_bytes_left req_msg server - len_mod).

Definition builder_len (b : Builder.Builder) : nat := length (Builder.bytes b).

(** The loop over the capabilities. *)
Fixpoint req_loop (base_len : nat) (caps : list (list byte)) (cap_string : Builder.Builder) (sink : S)
    : Builder.Builder * S :=
  match caps with
  | [] => (cap_string, sink)
  | cap :: caps =>
      if builder_len cap_string + length cap <? base_len then
        let cap_string :=
          if negb (builder_len cap_string =? 0) then (Builder.try_push_char Line (bs " ") cap_string).2
          else cap_string in
        req_loop base_len caps (Builder.append (plain cap) cap_string) sink
      else
        let sink := if negb (builder_len cap_string =? 0) then sink_send sink (with_caps cap_string) else sink in
        req_loop base_len caps (Builder.new (plain cap)) sink
  end.

Definition req (caps : list (list byte)) (client : option (list byte)) (server : option Source) (sink : S) : S :=
  let (cap_string, sink) := req_loop (base_len client server) caps (Builder.new (plain [])) sink in
  sink_send sink (with_caps cap_string).
End Req.

(** ** [SubCmd] *)

Inductive SubCmd := Ls | List | Ack | Nak | New | Del.

#[global] Instance SubCmd_eq_dec : EqDecision SubCmd.
Proof. solve_decision. Defined.

Definition into_cmd (c : SubCmd) : list byte :=
  match c with
  | Ls => bs "LS" | List => bs "LIST" | Ack => bs "ACK" | Nak => bs "NAK" | New => bs "NEW" | Del => bs "DEL"
  end.
Definition into_arg (c : SubCmd) : list byte := into_cmd c.

Definition from_bytes (bytes : list byte) : option SubCmd :=
  if bool_decide (bytes = bs "LS") then Some Ls
  else if bool_decide (bytes = bs "LIST") then Some List
  else if bool_decide (bytes = bs "ACK") then Some Ack
  else if bool_decide (bytes = bs "NAK") then Some Nak
  else if bool_decide (bytes = bs "NEW") then Some New
  else if bool_decide (bytes = bs "DEL") then Some Del
  else None.

(** ** [ServerMsgArgs] *)

Record ServerMsgArgs := mkCapArgs {
  cnick : list byte;
  subcmd : SubCmd;
  is_last : bool;
  caps : BTreeMap;
}.

(** The loop over the words of the last argument. *)
Fixpoint caps_loop (fuel : nat) (last : Splitter) (caps : BTreeMap) : option BTreeMap :=
  match fuel with
  | 0 => None
  | S fuel =>
      if Splitter.is_empty last then Some caps
      else
        let last := consume_whitespace last in
        let (word, last) := string_or_default Word false last in
        let w := Splitter.new word in
        let (key, w) := string Key false w in
        let caps :=
          match key with
          | Err _ => caps
          | Ok key =>
              let (sep, w) := next_byte w in
              match sep with
              | Some b =>
                  if Byte.eqb b "=" then
                    match (rest Word w).1 with Ok v => map_insert (value key) (value v) caps | Err _ => caps end
                  else caps
              | None => map_insert (value key) [] caps
              end
          end in
        caps_loop fuel last caps
  end.

Definition parse_caps (last : list byte) : option BTreeMap :=
  caps_loop (S (length last)) (Splitter.new (plain last)) [].

(** [ServerMsgArgs::parse]; [None] is a loop that does not end. *)
Definition parse (args : Args) : option (result ServerMsgArgs ParseError) :=
  let (args, last) := split_last args in
  match last with
  | None => Some (Err (MissingField (bs "caps")))
  | Some last =>
      match args with
      | [] => Some (Err (MissingField (bs "nick")))
      | nick :: args =>
          match from_super SNick nick with
          | Err e => Some (Err (InvalidNick e))
          | Ok nick =>
              match args with
              | [] => Some (Err (MissingField (bs "subcmd")))
              | subcmd :: args =>
                  let subcmd := Transforms.cow_ref (Transforms.transformed (Transforms.AsciiCasemap true subcmd)) in
                  match from_bytes subcmd with
                  | None => Some (Err (InvalidField (bs "subcmd") (bs "unknown CAP subcommand: " ++ BytesCell.show subcmd)))
                  | Some subcmd =>
                      let finish is_last :=
                        (fun caps => Ok (mkCapArgs nick subcmd is_last caps)) <$> parse_caps last in
                      match args with
                      | [] => finish true
                      | last_arg :: _ =>
                          if bool_decide (last_arg = bs "*") then finish false
                          else Some (Err (InvalidField (bs "is_last")
                                 (bs "expected * as first CAP argument, got " ++ BytesCell.show last_arg)))
                      end
                  end
              end
          end
      end
  end.

(** [combine]; what is returned is [newer] if it could not be combined. *)
Definition combine (self newer : ServerMsgArgs) : option ServerMsgArgs * ServerMsgArgs :=
  if is_last self || negb (bool_decide (subcmd self = subcmd newer)) || negb (bool_decide (cnick self = cnick newer))
  then (Some newer, self)
  else (None, mkCapArgs (cnick self) (subcmd self) (is_last newer)
                (foldl (fun m e => map_insert e.1 e.2 m) (caps self) (caps newer))).

Definition contains (self : ServerMsgArgs) (cap : list byte) : bool :=
  match map_get (caps self) cap with Some _ => true | None => false end.

(** ** Maps *)

Lemma map_get_insert k v m k' :
  map_get (map_insert k v m) k' = if bool_decide (k = k') then Some v else map_get m k'.
Proof.
  induction m as [|[x y] m IH]; cbn [map_insert map_get]; [done|].
  pose proof (Names.bytes_cmp_spec k x) as Hc. destruct (bytes_cmp k x); cbn [map_get].
  - subst. by case_bool_decide.
  - done.
  - rewrite IH. case_bool_decide as Hx; [|done]. rewrite bool_decide_false; [done|]. intros Hk.
    rewrite Hx, <- Hk in Hc. exact (kcmp_irrefl (K := list byte) _ Hc).
Qed.

(** ** The words of a reply *)

(** What one word says: a capability and its value, if it can be represented. *)
Definition entry (w : list byte) : option (list byte * list byte) :=
  match cursor_string Key false w with
  | Err _ => None
  | Ok k =>
      match drop (length k) w with
      | [] => Some (k, [])
      | b :: v => if Byte.eqb b "=" then Some (k, v) else None
      end
  end.

Definition add_entry (m : BTreeMap) (w : list byte) : BTreeMap :=
  match entry w with Some (k, v) => map_insert k v m | None => m end.

Abbreviation not_space := (fun x => negb (Byte.eqb x " ")).

Definition nonempty (w : list byte) : bool := match w with [] => false | _ => true end.

(** The words between spaces; a word never starts with other white space. *)
Definition cap_words (l : list byte) : list (list byte) :=
  List.filter nonempty (List.map (drop_while ws) (split_on " " l)).

Lemma entry_nil : entry [] = None.
Proof. done. Qed.

Lemma cap_words_ws l : cap_words (drop_while ws l) = cap_words l.
Proof.
  induction l as [|b l IH]; [done|]. cbn [drop_while]. destruct (ws b) eqn:Hb; [|done].
  rewrite IH. unfold cap_words. cbn [split_on]. destruct (Byte.eqb b " "); [done|].
  destruct (split_on " " l) as [|seg segs] eqn:Hs; [by destruct l; cbn in Hs; repeat case_match|].
  cbn [List.map drop_while]. by rewrite Hb.
Qed.

Lemma cap_words_word l b r :
  l = b :: r -> ws b = false ->
  cap_words l = take_while not_space l :: cap_words (drop_while not_space l).
Proof.
  intros Hl Hb. unfold cap_words at 1. rewrite split_on_cons.
  assert (Hne : Byte.eqb b " " = false) by (destruct (byte_eqb_spec b " ") as [->|]; done).
  assert (Hw : drop_while ws (take_while not_space l) = take_while not_space l).
  { subst l. cbn [take_while]. rewrite Hne. cbn [negb drop_while]. by rewrite Hb. }
  cbn [List.map]. rewrite Hw. cbn [List.filter].
  assert (nonempty (take_while not_space l) = true) as ->.
  { subst l. cbn [take_while]. by rewrite Hne. }
  f_equal. pose proof (drop_while_head not_space l) as Hd.
  destruct (drop_while not_space l) as [|x d] eqn:Ed; [done|].
  specialize (Hd x d eq_refl). cbv beta in Hd. apply negb_false_iff in Hd. unfold cap_words. cbn [split_on].
  by rewrite Hd.
Qed.

(** The bytes of a line end a word only at a space. *)
Lemma line_word_byte b : is_invalid Line b = false -> negb (is_invalid Word b) = not_space b.
Proof. byte_cases b. Qed.

Abbreviation line_bytes l := (Forall (fun b => is_invalid Line b = false) l).

Lemma line_take_word l :
  line_bytes l -> take_while (fun b => negb (is_invalid Word b)) l = take_while not_space l /\
  drop_while (fun b => negb (is_invalid Word b)) l = drop_while not_space l.
Proof.
  induction 1 as [|b l Hb _ [IH1 IH2]]; [done|]. cbn [take_while drop_while]. rewrite (line_word_byte b Hb), IH1, IH2. done.
Qed.

Lemma line_drop f l : line_bytes l -> line_bytes (drop_while f l).
Proof. intros Hl. rewrite <- (take_drop_while f l) in Hl. by apply Forall_app in Hl as [_ ?]. Qed.

(** One word taken apart. *)
Lemma word_step w caps :
  (let (key, s) := string Key false (Splitter.new w) in
   match key with
   | Err _ => caps
   | Ok key =>
       let (sep, s) := next_byte s in
       match sep with
       | Some b =>
           if Byte.eqb b "=" then
             match (rest Word s).1 with Ok v => map_insert (value key) (value v) caps | Err _ => caps end
           else caps
       | None => map_insert (value key) [] caps
       end
   end) = add_entry caps (value w).
Proof.
  destruct (string_cursor Key false (Splitter.new w)) as [H1 H2]. rewrite rem_new in H1, H2.
  destruct (string Key false (Splitter.new w)) as [key s]. cbn [fst snd] in H1, H2. subst key.
  unfold add_entry, entry. destruct (cursor_string Key false (value w)) as [k|e]; [|done].
  pose proof (rem_next_byte s) as [N1 N2]. rewrite H2 in N1, N2. destruct (next_byte s) as [sep s'].
  cbn [fst snd] in N1, N2. subst sep. cbn [value using_value]. destruct (drop (length k) (value w)) as [|b v]; [done|].
  cbn [head]. destruct (Byte.eqb b "="); [|done].
  rewrite (proj1 (rest_cursor Word s')), N2. done.
Qed.

Lemma caps_loop_spec fuel s m :
  wf s -> line_bytes (as_slice s) -> length (as_slice s) < fuel ->
  caps_loop fuel s m = Some (foldl add_entry m (cap_words (as_slice s))).
Proof.
  revert s m. induction fuel as [|fuel IH]; intros s m Hw Hb Hf; [lia|]. cbn [caps_loop].
  rewrite is_empty_rem by done. case_bool_decide as He; [by rewrite He|].
  pose proof (rem_consume_whitespace s) as Hc. pose proof (wf_consume_whitespace s Hw) as Hwc.
  set (s1 := consume_whitespace s) in *. set (l := as_slice s) in *.
  assert (Hl1 : as_slice s1 = drop_while ws l) by done.
  destruct (string_or_default_cursor Word false s1) as [S1 S2]. rewrite cursor_string_false in S1, S2.
  cbn [check_others Word return_none unwrap_or] in S1, S2. cbv zeta in S1, S2. cbn [unwrap_or] in S1, S2.
  pose proof (wf_string_or_default Word false s1 Hwc) as Hw2.
  destruct (string_or_default Word false s1) as [w s2]. cbn [fst snd] in *.
  rewrite drop_length_take_while in S2.
  assert (Hb1 : line_bytes (drop_while ws l)) by by apply line_drop.
  rewrite Hl1 in S1, S2. destruct (line_take_word _ Hb1) as [T1 T2]. rewrite T1 in S1. rewrite T2 in S2.
  transitivity (caps_loop fuel s2 (add_entry m (value w))).
  { rewrite <- word_step. by destruct (string Key false (Splitter.new w)) as [[key|e] w0]. }
  rewrite <- (cap_words_ws l).
  destruct (drop_while ws l) as [|b r] eqn:Ed.
  - cbn in S1, S2. rewrite IH; [|done|by rewrite S2|rewrite S2; destruct l; [done|cbn in Hf |- *; lia]].
    rewrite S2, S1. done.
  - rewrite (cap_words_word (b :: r) b r eq_refl) by by eapply drop_while_head. cbn [foldl].
    rewrite IH; [by rewrite S2, S1|done|rewrite S2; by apply line_drop|].
    rewrite S2, length_drop_while. assert (Hbw : ws b = false) by by eapply drop_while_head.
    assert (not_space b = true) as Hns by by (byte_cases b).
    cbn [take_while]. rewrite Hns. pose proof (length_drop_while ws l) as Hlen. rewrite Ed in Hlen. cbn [length] in *. lia.
Qed.

Lemma parse_caps_spec l : valid Line l -> parse_caps l = Some (foldl add_entry [] (cap_words l)).
Proof.
  intros [_ Hl]%valid_iff. unfold parse_caps. rewrite caps_loop_spec; [by rewrite rem_new|auto with vz| |].
  - by rewrite rem_new.
  - rewrite rem_new. cbn. lia.
Qed.

(** ** Requests *)

Fixpoint join (l : list (list byte)) : list byte :=
  match l with
  | [] => []
  | [w] => w
  | w :: l => w ++ bs " " ++ join l
  end.

Lemma join_cons w l : l <> [] -> join (w :: l) = w ++ bs " " ++ join l.
Proof. by destruct l. Qed.

Lemma join_snoc g c : g <> [] -> join (g ++ [c]) = join g ++ bs " " ++ c.
Proof.
  induction g as [|w g IH]; [done|]. intros _. destruct g as [|w' g]; [done|].
  cbn [app]. rewrite (join_cons w (w' :: g ++ [c])), (join_cons w (w' :: g)) by done.
  rewrite <- !app_assoc. f_equal. f_equal. by apply IH.
Qed.

Lemma join_nonempty g : g <> [] -> Forall (fun w => w <> []) g -> join g <> [].
Proof.
  intros Hg Hf. destruct g as [|w [|w' g]]; [done| |]; apply Forall_cons_iff in Hf as [Hw _]; [done|].
  rewrite join_cons by done. by destruct w.
Qed.

(** The request for what a builder holds. *)
Definition req_line (l : list byte) : ClientMsg :=
  mkClientMsg (ctags req_msg) (cmd req_msg) (add (cargs req_msg) l).2.

Section ReqThms.
Context {S : Type} `{ClientMsgSink S}.

Definition group_ok (base : nat) (g : list (list byte)) : Prop :=
  g <> [] /\ (length g = 1 \/ length (join g) <= base).

Lemma req_loop_spec base caps b sink g :
  Forall (fun w => w <> []) (g ++ caps) -> Builder.bytes b = join g -> (g = [] \/ group_ok base g) ->
  exists groups g' b', req_loop base caps b sink = (b', send_all sink ((fun g => req_line (join g)) <$> groups)) /\
    Builder.bytes b' = join g' /\ concat groups ++ g' = g ++ caps /\
    Forall (group_ok base) groups /\ (g' = [] \/ group_ok base g') /\ (g ++ caps <> [] -> g' <> []).
Proof.
  revert b sink g. induction caps as [|c caps IH]; intros b sink g Hne Hb Hg; cbn [req_loop].
  { rewrite app_nil_r. exists [], g, b. repeat split; [done|constructor|done|done]. }
  pose proof Hne as Hne'. apply Forall_app in Hne as [Hgne Hcne]. apply Forall_cons_iff in Hcne as [Hc Hcne].
  assert (Hlen : builder_len b = length (join g)) by (unfold builder_len; by rewrite Hb).
  assert (Hz : (builder_len b =? 0) = match g with [] => true | _ => false end).
  { rewrite Hlen. destruct g as [|w g]; [done|]. pose proof (join_nonempty (w :: g) ltac:(done) Hgne).
    by destruct (join (w :: g)). }
  destruct (Nat.ltb_spec (builder_len b + length c) base) as [Hlt|Hge].
  - assert (Hjoin : Builder.bytes (Builder.append (plain c)
        (if negb (builder_len b =? 0) then (Builder.try_push_char Line (bs " ") b).2 else b)) = join (g ++ [c])).
    { rewrite Hz. destruct g as [|w g]; cbn [negb].
      - cbn. by rewrite Hb.
      - rewrite (join_snoc (w :: g)) by done. cbn. by rewrite Hb, <- app_assoc. }
    destruct (IH _ sink (g ++ [c]) ltac:(by rewrite <- app_assoc) Hjoin) as (groups & g' & b' & H1 & H2 & H3 & H4 & H5 & H6).
    { right. split; [by destruct g|]. destruct g as [|w g]; [by left|]. right.
      rewrite join_snoc by done. rewrite !length_app, <- Hlen. change (length (bs " ")) with 1. lia. }
    rewrite <- app_assoc in H3, H6. exists groups, g', b'. by repeat (split; [done|]).
  - assert (Hsink : (if negb (builder_len b =? 0) then sink_send sink (with_caps b) else sink) =
      send_all sink ((fun g => req_line (join g)) <$> match g with [] => [] | _ => [g] end)).
    { rewrite Hz. destruct g as [|w g]; [done|]. cbn [negb fmap list_fmap]. unfold with_caps. cbn [Builder.build value].
      by rewrite Hb. }
    rewrite Hsink.
    destruct (IH (Builder.new (plain c)) (send_all sink ((fun g => req_line (join g)) <$> match g with [] => [] | _ => [g] end))
      [c] ltac:(by constructor) eq_refl) as (groups & g' & b' & H1 & H2 & H3 & H4 & H5 & H6).
    { right. split; [done|by left]. }
    exists (match g with [] => [] | _ => [g] end ++ groups), g', b'. rewrite H1, send_all_app, fmap_app.
    split; [done|]. split; [done|]. split.
    { rewrite concat_app, <- app_assoc, H3. destruct g; [done|]. cbn [concat]. by rewrite app_nil_r. }
    split; [apply Forall_app; split; [destruct g; [constructor|constructor; [by destruct Hg|constructor]]|done]|].
    split; [done|]. intros _. by apply H6.
Qed.

(** The capabilities asked for are split over requests in order, none lost
    or repeated, each request within the room there is unless one capability
    alone exceeds it; and that room is enough for the server to send the whole
    request back, even marked as one of several lines, within 512 bytes. *)
Theorem req_correct caps client server (sink : S) :
  Forall (valid Key) caps ->
  (exists groups, req caps client server sink = send_all sink ((fun g => req_line (join g)) <$> groups) /\
    concat groups = caps /\ (caps <> [] -> Forall (group_ok (base_len client server)) groups)) /\
  (forall src nick line, server = Some src -> client = Some nick -> 0 < length line <= base_len client server ->
    length (write_to [] (Some src) (bs "CAP") (mkArgs [nick; bs "ACK"; bs "*"] (Some line))) + 2 <= 512).
Proof.
  intros Hc. split.
  - assert (Hne : Forall (fun w => w <> []) ([] ++ caps)).
    { eapply Forall_impl; [exact Hc|]. cbv beta. by intros w Hw ->. }
    destruct (req_loop_spec (base_len client server) caps (Builder.new (plain [])) sink [] Hne eq_refl (or_introl eq_refl))
      as (groups & g' & b' & H1 & H2 & H3 & H4 & H5 & H6).
    exists (groups ++ [g']). unfold req. rewrite H1, fmap_app, <- send_all_app. split.
    { unfold with_caps. cbn [Builder.build value]. rewrite H2. done. }
    split; [by rewrite concat_app; cbn [concat]; rewrite app_nil_r|].
    intros Hcaps. apply Forall_app. split; [done|]. constructor; [|constructor].
    destruct H5 as [->|?]; [|done]. by destruct (H6 Hcaps).
  - intros src nick line -> -> [Hl1 Hl2]. rewrite write_to_length.
    unfold base_len, client_bytes_left, bytes_left in Hl2. cbn [option_map fmap option_fmap] in Hl2.
    change (Args.is_empty (cargs req_msg)) with false in Hl2. cbn [negb] in Hl2.
    change (len_bytes (cargs req_msg)) with 4 in Hl2. change (length (cmd req_msg)) with 3 in Hl2.
    assert (Hw : length (write_args (mkArgs [nick; bs "ACK"; bs "*"] (Some line))) = length nick + length line + 9).
    { rewrite <- len_bytes_write. cbn [long words len_bytes foldl]. unfold len_bytes. cbn. lia. }
    rewrite Hw. change (length (bs "CAP")) with 3.
    destruct (Z.leb_spec (Z.of_nat 3 + (2 + Z.of_nat (Source.source_len src)) + (Z.of_nat 4 + 1)) ISIZE_MAX); unfold ISIZE_MAX in *; lia.
Qed.
End ReqThms.

(** ** Replies *)

(** A capability and its value as a server lists them. *)
Definition render (e : list byte * list byte) : list byte :=
  e.1 ++ (match e.2 with [] => [] | v => bs "=" ++ v end).

Definition entry_ok (e : list byte * list byte) : Prop :=
  valid Key e.1 /\ no_leading_ws e.1 /\ valid Word e.2.

Definition insert_all (m : BTreeMap) (l : BTreeMap) : BTreeMap := foldl (fun m e => map_insert e.1 e.2 m) m l.

Lemma key_prefix k r :
  valid Key k -> (r = [] \/ exists r', r = "="%byte :: r') -> cursor_string Key false (k ++ r) = Ok k.
Proof.
  intros Hk Hr. apply cursor_string_word; [done|]. destruct Hr as [->|[r' ->]]; [by left|].
  right. by eexists _, _.
Qed.

Lemma entry_render e : entry_ok e -> entry (render e) = Some e.
Proof.
  destruct e as [k v]. intros (Hk & _ & _). unfold entry, render. cbn [fst snd] in *. rewrite key_prefix.
  - rewrite drop_app_length. by destruct v.
  - done.
  - destruct v; [by left|right; by eexists].
Qed.

Lemma render_word e : entry_ok e -> Forall (fun b => Byte.eqb b " " = false) (render e) /\
  exists b r, render e = b :: r /\ ws b = false.
Proof.
  destruct e as [k v]. intros (Hk & Hws & Hv). cbn [fst snd] in *. split.
  - unfold render. cbn [fst snd]. assert (Hkw : valid Word k) by auto with vz.
    assert (Hsp : forall l, valid Word l -> Forall (fun b => Byte.eqb b " " = false) l).
    { intros l [_ Hl]%valid_iff. eapply Forall_impl; [exact Hl|]. cbv beta.
      intros b Hb. by destruct (byte_eqb_spec b " ") as [->|]. }
    apply Forall_app. split; [by apply Hsp|]. destruct v as [|b v]; [constructor|]. constructor; [done|]. by apply Hsp.
  - unfold render. destruct k as [|b k]; [done|]. eexists b, _. split; [reflexivity|by apply Hws].
Qed.

Lemma cap_words_app a b : cap_words (a ++ bs " " ++ b) = cap_words a ++ cap_words b.
Proof.
  unfold cap_words. cbn [app bs String.list_byte_of_string].
  assert (Hs : split_on " " (a ++ " "%byte :: b) = split_on " " a ++ split_on " " b).
  { induction a as [|x a IH]; [done|]. cbn [app split_on]. rewrite IH. destruct (Byte.eqb x " "); [done|].
    destruct (split_on " " a) eqn:E; [|done]. by destruct a; cbn in E; repeat case_match. }
  change (a ++ bs " " ++ b) with (a ++ " "%byte :: b). by rewrite Hs, List.map_app, List.filter_app.
Qed.

Lemma cap_words_render e : entry_ok e -> cap_words (render e) = [render e].
Proof.
  intros He. destruct (render_word e He) as (Hs & b & r & Hr & Hb).
  rewrite (cap_words_word (render e) b r Hr Hb).
  assert (Hall : Forall (fun x => not_space x = true) (render e)) by (eapply Forall_impl; [exact Hs|]; cbv beta; by intros x ->).
  assert (Hd : drop_while not_space (render e) = []).
  { pose proof (length_drop_while not_space (render e)) as Hl. rewrite (take_while_all _ _ Hall) in Hl.
    destruct (drop_while not_space (render e)); [done|]. cbn in Hl. lia. }
  by rewrite (take_while_all _ _ Hall), Hd.
Qed.

Lemma cap_words_join es : Forall entry_ok es -> cap_words (join (render <$> es)) = render <$> es.
Proof.
  induction 1 as [|e es He Hes IH]; [done|]. cbn [fmap list_fmap]. destruct es as [|e' es].
  - by apply cap_words_render.
  - rewrite join_cons by done. rewrite cap_words_app, cap_words_render by done. by rewrite IH.
Qed.

Lemma add_entries es m : Forall entry_ok es -> foldl add_entry m (render <$> es) = insert_all m es.
Proof.
  intros Hes. revert m. induction Hes as [|e es He _ IH]; intros m; [done|]. cbn [fmap list_fmap foldl insert_all].
  unfold add_entry at 2. rewrite entry_render by done. destruct e as [k v]. apply IH.
Qed.

(** The reply that lists capabilities [line] for a command written [sub]. *)
Definition reply_args (nick sub : list byte) (last : bool) (line : list byte) : Args :=
  mkArgs (nick :: sub :: (if last then [] else [bs "*"])) (Some line).

Lemma from_bytes_into c : from_bytes (into_cmd c) = Some c.
Proof. by destruct c. Qed.

Lemma parse_reply nick sub c last line :
  valid Nick nick -> List.map to_ascii_uppercase sub = into_cmd c -> valid Line line ->
  parse (reply_args nick sub last line) =
    Some (Ok (mkCapArgs nick c last (foldl add_entry [] (cap_words line)))).
Proof.
  intros Hn Hs Hl. unfold parse, reply_args, split_last. cbn [long words].
  assert (Hsup : from_super SNick nick = Ok nick).
  { rewrite from_super_from_bytes; [by apply from_bytes_Ok| |auto with vz].
    apply list_elem_of_In. do 4 right. by left. }
  rewrite Hsup, ascii_uppercase_value, Hs, from_bytes_into, (parse_caps_spec line Hl). by destruct last.
Qed.

(** A reply listing capabilities, in whatever case its command is written,
    is read back as exactly those, the last value of a repeated one winning. *)
Theorem cap_roundtrip nick sub c last es :
  valid Nick nick -> List.map to_ascii_uppercase sub = into_cmd c ->
  Forall entry_ok es -> valid Line (join (render <$> es)) ->
  exists caps, parse (reply_args nick sub last (join (render <$> es))) = Some (Ok (mkCapArgs nick c last caps)) /\
    forall k, map_get caps k = snd <$> List.find (fun e => bool_decide (e.1 = k)) (rev es).
Proof.
  intros Hn Hs Hes Hl. eexists. split; [by apply parse_reply|].
  rewrite cap_words_join, add_entries by done. intros k. clear. unfold insert_all.
  induction es as [|e es IH] using rev_ind; [done|].
  rewrite foldl_app, rev_app_distr. cbn [foldl rev app List.find]. rewrite map_get_insert.
  by case_bool_decide.
Qed.

Lemma map_get_add_entries m ws k :
  map_get (foldl add_entry m ws) k =
  match map_get (foldl add_entry [] ws) k with Some v => Some v | None => map_get m k end.
Proof.
  induction ws as [|w ws IH] using rev_ind; [done|]. rewrite !foldl_app. cbn [foldl]. unfold add_entry at 1 3.
  destruct (entry w) as [[k' v]|]; [|done]. rewrite !map_get_insert, IH. by case_bool_decide.
Qed.

Lemma map_insert_keys k v m x : x ∈ (map_insert k v m).*1 -> x = k \/ x ∈ m.*1.
Proof.
  induction m as [|[k' v'] m IH]; cbn [map_insert]; [set_solver|].
  pose proof (Names.bytes_cmp_spec k k') as Hc. destruct (bytes_cmp k k'); cbn [fmap list_fmap fst]; set_solver.
Qed.

Lemma map_insert_sorted k v m :
  StronglySorted Names.bytes_lt m.*1 -> StronglySorted Names.bytes_lt (map_insert k v m).*1.
Proof.
  induction m as [|[k' v'] m IH]; cbn [map_insert fmap list_fmap fst]; [by repeat constructor|].
  intros [Hs Hf]%StronglySorted_inv. pose proof (Names.bytes_cmp_spec k k') as Hc.
  destruct (bytes_cmp k k') eqn:E; cbn [fmap list_fmap fst].
  - subst. by constructor.
  - constructor; [by constructor|]. constructor; [done|]. eapply Forall_impl; [exact Hf|].
    intros y Hy. exact (kcmp_trans (K := list byte) k k' y E Hy).
  - constructor; [by apply IH|]. rewrite List.Forall_forall in *. intros y Hy%list_elem_of_In.
    apply map_insert_keys in Hy as [->|Hy]; [done|]. by apply Hf, list_elem_of_In.
Qed.

Lemma add_entries_sorted ws m :
  StronglySorted Names.bytes_lt m.*1 -> StronglySorted Names.bytes_lt (foldl add_entry m ws).*1.
Proof.
  revert m. induction ws as [|w ws IH]; intros m Hm; [done|]. cbn [foldl]. apply IH. unfold add_entry.
  destruct (entry w) as [[k v]|]; [by apply map_insert_sorted|done].
Qed.

Lemma map_get_insert_all m l k :
  StronglySorted Names.bytes_lt l.*1 ->
  map_get (insert_all m l) k = match map_get l k with Some v => Some v | None => map_get m k end.
Proof.
  unfold insert_all. revert m. induction l as [|[k' v] l IH]; intros m Hs; [done|].
  apply StronglySorted_inv in Hs as [Hs Hf]. cbn [foldl fst snd map_get]. rewrite IH, map_get_insert by done.
  case_bool_decide as Hk; [|done]. subst k'. destruct (map_get l k) as [v'|] eqn:Hg; [|done]. exfalso.
  assert (Hin : k ∈ l.*1).
  { clear -Hg. induction l as [|[x y] l IH]; [done|]. cbn in *. case_bool_decide; set_solver. }
  rewrite List.Forall_forall in Hf. apply list_elem_of_In, Hf in Hin. exact (kcmp_irrefl (K := list byte) _ Hin).
Qed.

(** A list of capabilities sent over several lines and combined is the one
    sent on a single line: same nick and command, complete, and the same value
    for every capability. *)
Theorem cap_combine nick sub c line1 last line2 :
  valid Nick nick -> List.map to_ascii_uppercase sub = into_cmd c ->
  valid Line line1 -> valid Line line2 ->
  exists a b ab whole, parse (reply_args nick sub false line1) = Some (Ok a) /\
    parse (reply_args nick sub last line2) = Some (Ok b) /\ combine a b = (None, ab) /\
    parse (reply_args nick sub last (line1 ++ bs " " ++ line2)) = Some (Ok whole) /\
    cnick ab = cnick whole /\ subcmd ab = subcmd whole /\ is_last ab = is_last whole /\
    forall k, map_get (caps ab) k = map_get (caps whole) k.
Proof.
  intros Hn Hs H1 H2. eexists _, _, _, _. split; [by apply parse_reply|]. split; [by apply parse_reply|].
  split. { unfold combine. cbn [is_last subcmd cnick orb]. by rewrite !bool_decide_true. }
  split. { apply parse_reply; [done..|]. apply valid_iff in H1 as [_ H1], H2 as [_ H2]. apply valid_iff.
    split; [done|]. apply Forall_app. split; [done|]. by constructor. }
  cbn [cnick subcmd is_last caps]. do 3 (split; [done|]). intros k.
  rewrite cap_words_app, foldl_app.
  rewrite (map_get_add_entries (foldl add_entry [] (cap_words line1))).
  apply (map_get_insert_all (foldl add_entry [] (cap_words line1)) (foldl add_entry [] (cap_words line2)) k).
  apply add_entries_sorted. constructor.
Qed.

(** ** Witnesses *)

Definition sample_entries : BTreeMap := [(bs "sasl", bs "PLAIN,EXTERNAL"); (bs "away-notify", []); (bs "sasl", bs "PLAIN")].

Lemma req_correct_witness :
  Forall (valid Key) [bs "sasl"; bs "server-time"] /\
  exists groups, req [bs "sasl"; bs "server-time"] None None ([] : list ClientMsg) =
    (fun g => req_line (join g)) <$> groups /\ concat groups = [bs "sasl"; bs "server-time"].
Proof.
  assert (Hk : Forall (valid Key) [bs "sasl"; bs "server-time"]) by (repeat constructor).
  split; [exact Hk|].
  destruct (proj1 (req_correct [bs "sasl"; bs "server-time"] None None ([] : list ClientMsg) Hk)) as (groups & H1 & H2 & _).
  exists groups. rewrite closure_send_all in H1. split; [exact H1|exact H2].
Defined.

Lemma cap_roundtrip_witness :
  valid Nick (bs "me") /\ Forall entry_ok sample_entries /\
  exists caps, parse (reply_args (bs "me") (bs "ls") true (bs "sasl=PLAIN,EXTERNAL away-notify sasl=PLAIN")) =
    Some (Ok (mkCapArgs (bs "me") Ls true caps)) /\ map_get caps (bs "sasl") = Some (bs "PLAIN").
Proof.
  assert (Hn : valid Nick (bs "me")) by by vm_compute.
  assert (He : Forall entry_ok sample_entries).
  { repeat constructor; intros b [= <-]; reflexivity. }
  split; [exact Hn|]. split; [exact He|].
  destruct (cap_roundtrip (bs "me") (bs "ls") Ls true sample_entries Hn eq_refl He ltac:(by vm_compute)) as (caps & H1 & H2).
  exists caps. split; [exact H1|]. rewrite H2. reflexivity.
Defined.

Lemma cap_combine_witness :
  exists a b ab, parse (reply_args (bs "*") (bs "LS") false (bs "foo=bar")) = Some (Ok a) /\
    parse (reply_args (bs "*") (bs "LS") true (bs "bar baz")) = Some (Ok b) /\ combine a b = (None, ab) /\
    map_get (caps ab) (bs "foo") = Some (bs "bar") /\ map_get (caps ab) (bs "baz") = Some [].
Proof.
  destruct (cap_combine (bs "*") (bs "LS") Ls (bs "foo=bar") true (bs "bar baz") ltac:(by vm_compute) eq_refl
    ltac:(by vm_compute) ltac:(by vm_compute)) as (a & b & ab & whole & H1 & H2 & H3 & H4 & _ & _ & _ & H5).
  exists a, b, ab. split; [exact H1|]. split; [exact H2|]. split; [exact H3|]. rewrite !H5.
  vm_compute in H4. injection H4 as <-. split; reflexivity.
Defined.
