(* ===== verification/Nick.v ===== *)
(** * Nickname generation

    [src/client/nick.rs], [src/client/nick/suffix.rs]: generators of fallback
    nicknames.  A boxed generator is one of the four the library has; the
    iterator of [FromIter] is a type with its [next] and whether [size_hint]
    gives an upper bound. *)

From S2P Require Import Prelude Strings Utf8 Splitter.
From S2P Require Import Builder.

(** ** Suffixes *)

(** [SuffixType]; a [char] is its UTF-8 encoding. *)
Inductive SuffixType :=
| Letter (uc : bool)
| Base8
| Base10
| Base16 (uc : bool)
| NonZeroBase8
| NonZeroBase10
| NonZeroBase16 (uc : bool)
| Choice (opts : list (list byte))
| Char (c : list byte).

Definition push (n : N) (nick : Builder) : Builder := (try_push Nick (byte_of n) nick).2.

(** [SuffixType::append]; [num] is a [u8]. *)
Definition append_suffix (s : SuffixType) (num : N) (nick : Builder) : Builder :=
  match s with
  | Letter true => push (65 + num mod 26) nick
  | Letter false => push (97 + num mod 26) nick
  | Base8 => push (48 + N.land num 7) nick
  | Base10 => push (48 + num mod 10) nick
  | Base16 uc =>
      let num := N.land num 15 in
      push (if uc && (9 <? num)%N then 65 + num else if negb uc && (9 <? num)%N then 97 + num else 48 + num) nick
  | NonZeroBase8 => push (49 + num mod 7) nick
  | NonZeroBase10 => push (49 + num mod 9) nick
  | NonZeroBase16 uc =>
      let num := (num mod 15)%N in
      push (if uc && (8 <? num)%N then 65 + num else if negb uc && (8 <? num)%N then 97 + num else 49 + num) nick
  | Choice [] => nick
  | Choice opts =>
      append (plain (nth (N.to_nat num mod length opts) opts [])) nick
  | Char c => (try_push_char Nick c nick).2
  end.

Definition variance (s : SuffixType) : N :=
  match s with
  | Letter _ => 26
  | Base8 => 8
  | Base10 => 10
  | Base16 _ => 16
  | NonZeroBase8 => 7
  | NonZeroBase10 => 9
  | NonZeroBase16 _ => 15
  | Choice c => N.min 255 (N.of_nat (length c))
  | Char _ => 1
  end.

Inductive SuffixStrategy := Rng (seed : option N) | Seq.

Record Suffix := mkSuffix { strategy : SuffixStrategy; suffixes : list SuffixType }.
Definition suffix_default : Suffix := mkSuffix (Rng None) [].

Record SuffixGen := mkSuffixGen { cfg : Suffix; prefix : list byte; gstate : N; limit : N }.

(** The generator's step, in wrapping [u32]. *)
Definition lcg (state : N) : N := ((state * 1664525 + 1013904223) mod 2 ^ 32)%N.

Fixpoint rng_loop (l : list SuffixType) (cycle : bool) (state : N) (nick : Builder) : Builder * N :=
  match l with
  | [] => (nick, state)
  | suffix :: l =>
      if cycle then
        let state := lcg state in
        rng_loop l false state (append_suffix suffix (N.shiftr state 16 mod 256) nick)
      else rng_loop l true state (append_suffix suffix (N.shiftr state 24 mod 256) nick)
  end.

Fixpoint seq_loop (l : list SuffixType) (count : N) (nick : Builder) : Builder :=
  match l with
  | [] => nick
  | suffix :: l =>
      let v := variance suffix in
      if (v =? 0)%N then seq_loop l count nick
      else
        let count := (count - 1)%N in
        let nick := append_suffix suffix ((count mod 256) mod v) nick in
        let count := (count / v)%N in
        if (count =? 0)%N then nick else seq_loop l count nick
  end.

(** [calc_next]: the nick and the new state. *)
Definition calc_next (g : SuffixGen) : list byte * N :=
  let nick := Builder.new (plain (prefix g)) in
  match strategy (cfg g) with
  | Rng _ =>
      let (nick, state) := rng_loop (suffixes (cfg g)) true (gstate g) nick in
      (value (build nick), state)
  | Seq =>
      let state := ((gstate g + 1) mod 2 ^ 32)%N in
      (value (build (seq_loop (suffixes (cfg g)) state nick)), state)
  end.

Definition u8_saturating_add (a b : N) : N := N.min (a + b) 255.

(** [Suffix::transform]; [entropy] is the seed made from the nick and the time. *)
Definition suffix_gen (entropy : N) (self : Suffix) (prefix : list byte) : SuffixGen :=
  match suffixes self with
  | [] => mkSuffixGen suffix_default prefix 0 1
  | _ =>
      let (seed, limit) :=
        match strategy self with
        | Rng seed =>
            (default entropy seed,
             foldl (fun count s => u8_saturating_add count (variance s / 2)) 1%N (suffixes self))
        | Seq => (0%N, foldl (fun count s => u8_saturating_add count (variance s)) 0%N (suffixes self))
        end in
      mkSuffixGen self prefix seed limit
  end.

(** ** Generators *)

(** What [FromIter] needs of an iterator. *)
Class NickIterator (I : Type) := {
  iter_next : I -> option (list byte * I);
  iter_bounded : I -> bool;
}.

(** [std::vec::IntoIter]. *)
Definition vec_iter : NickIterator (list (list byte)) := {|
  iter_next l := match l with [] => None | n :: l => Some (n, l) end;
  iter_bounded _ := true;
|}.
#[global] Existing Instance vec_iter.

Section NickGen.
Context {I : Type} `{NickIterator I}.

(** [Box<dyn NickGen>]. *)
Inductive NickGen :=
| GNick (nick : list byte)
| GFromIter (nick : list byte) (iter : I)
| GChain (a b : option NickGen)
| GSuffix (g : SuffixGen).

Definition from_iter (iter : I) : option NickGen :=
  match iter_next iter with Some (nick, iter) => Some (GFromIter nick iter) | None => None end.

Definition from_iter_or (def : list byte) (iter : I) : NickGen :=
  match iter_next iter with Some (nick, iter) => GFromIter nick iter | None => GFromIter def iter end.

(** What [NickGen] demands: [next_nick], [None] for a panic, in an [unwrap] or a
    subtraction below zero, [peek], and [handle_invalid], the outer [None] for a
    panic.  First for a single nick. *)
Definition nick_next (nick : list byte) : option (list byte * option NickGen) := Some (nick, None).
Definition nick_peek (nick : list byte) : option (list byte) := Some nick.
Definition nick_invalid (n nick : list byte) : option (option NickGen) :=
  Some (if bool_decide (nick = n) then Some (GNick n) else None).

(** [FromIter]. *)
Definition iter_next_nick (nick : list byte) (iter : I) : option (list byte * option NickGen) :=
  match iter_next iter with
  | Some (next, iter) => Some (nick, Some (GFromIter next iter))
  | None => Some (nick, None)
  end.
Definition iter_peek (nick : list byte) : option (list byte) := Some nick.
Definition iter_invalid (nick : list byte) (iter : I) : option (option NickGen) :=
  Some (if iter_bounded iter then Some (GFromIter nick iter) else None).

(** [SuffixGen]. *)
Definition suffix_next (g : SuffixGen) : option (list byte * option NickGen) :=
  let (nick, state) := calc_next g in
  if (limit g =? 0)%N then None
  else
    let limit := (limit g - 1)%N in
    Some (nick, if negb (limit =? 0)%N then Some (GSuffix (mkSuffixGen (cfg g) (prefix g) state limit)) else None).
Definition suffix_peek (g : SuffixGen) : option (list byte) := Some (calc_next g).1.
Definition suffix_invalid (g : SuffixGen) (nick : list byte) : option (option NickGen) :=
  Some (if bool_decide (take (length (prefix g)) nick = prefix g) then None else Some (GSuffix g)).

(** [Chain], given what its parts do. *)
Definition chain_next (next : NickGen -> option (list byte * option NickGen)) (a b : option NickGen)
    : option (list byte * option NickGen) :=
  match a with
  | Some gen =>
      match next gen with
      | Some (nick, next) => Some (nick, Some (GChain next b))
      | None => None
      end
  | None => match b with Some b => next b | None => None end
  end.
Definition chain_peek (peek : NickGen -> option (list byte)) (a b : option NickGen) : option (list byte) :=
  match b with
  | None => None
  | Some b => match a with Some a => peek a | None => peek b end
  end.
Definition chain_invalid (invalid : NickGen -> option (option NickGen)) (a b : option NickGen) : option (option NickGen) :=
  match match a with Some a => invalid a | None => Some None end with
  | None => None
  | Some None => match b with Some b => invalid b | None => None end
  | Some (Some a) =>
      match b with
      | None => None
      | Some b =>
          match invalid b with
          | None => None
          | Some None => Some (Some a)
          | Some (Some b) => Some (Some (GChain (Some a) (Some b)))
          end
      end
  end.

(** A box calls its content's. *)
Fixpoint next_nick (g : NickGen) : option (list byte * option NickGen) :=
  match g with
  | GNick nick => nick_next nick
  | GFromIter nick iter => iter_next_nick nick iter
  | GChain a b => chain_next next_nick a b
  | GSuffix g => suffix_next g
  end.

Fixpoint peek (g : NickGen) : option (list byte) :=
  match g with
  | GNick nick => nick_peek nick
  | GFromIter nick _ => iter_peek nick
  | GChain a b => chain_peek peek a b
  | GSuffix g => suffix_peek g
  end.

Fixpoint handle_invalid (g : NickGen) (nick : list byte) : option (option NickGen) :=
  match g with
  | GNick n => nick_invalid n nick
  | GFromIter n iter => iter_invalid n iter
  | GChain a b => chain_invalid (fun g => handle_invalid g nick) a b
  | GSuffix g => suffix_invalid g nick
  end.

(** [NickGenExt] and [NickTransformer]. *)
Definition chain (a b : NickGen) : NickGen := GChain (Some a) (Some b).
Definition transform (entropy : N) (self : Suffix) (nick : list byte) : NickGen := GSuffix (suffix_gen entropy self nick).
Definition chain_using (entropy : N) (a : NickGen) (nt : Suffix) : option NickGen :=
  match peek a with Some nick => Some (chain a (transform entropy nt nick)) | None => None end.
End NickGen.
Arguments NickGen I : clear implicits.

(** ** What generators yield *)

Section Yields.
Context {I : Type} `{NickIterator I}.

(** The nicks a generator gives until it has no continuation. *)
Inductive yields : NickGen I -> list (list byte) -> Prop :=
| yields_last g n : next_nick g = Some (n, None) -> yields g [n]
| yields_next g n g' ns : next_nick g = Some (n, Some g') -> yields g' ns -> yields g (n :: ns).

Lemma yields_chain_b b lb : yields b lb -> yields (GChain None (Some b)) lb.
Proof. destruct 1 as [g n Hg|g n g' ns Hg Hy]; [by apply yields_last|by eapply yields_next]. Qed.

Lemma yields_chain a b la lb : yields a la -> yields b lb -> yields (chain a b) (la ++ lb).
Proof.
  intros Ha Hb. induction Ha as [g n Hg|g n g' ns Hg _ IH]; cbn [app].
  - eapply yields_next; [cbn; by rewrite Hg|]. by apply yields_chain_b.
  - eapply yields_next; [cbn; by rewrite Hg|]. exact IH.
Qed.

Lemma yields_peek g ns : yields g ns -> (forall n, peek g = Some n -> head ns = Some n).
Proof.
  intros Hy. assert (Hp : forall g r n, next_nick (I := I) g = Some r -> peek g = Some n -> r.1 = n).
  { clear. fix IH 1. intros [n0|n0 iter|[a|] [b|]|sg] r n; cbn [next_nick peek];
    unfold chain_next, chain_peek, nick_next, nick_peek, iter_next_nick, iter_peek, suffix_next, suffix_peek; try done.
    - by intros [= <-] [= <-].
    - destruct (iter_next iter) as [[n1 iter1]|]; by intros [= <-] [= <-].
    - destruct (next_nick a) as [[n1 next]|] eqn:Ha; [|done]. intros [= <-] Hn. by apply (IH a _ _ Ha).
    - apply IH.
    - destruct (calc_next sg) as [n1 st]. destruct (limit sg =? 0)%N; [done|]. by intros [= <-] [= <-]. }
  destruct Hy as [g n Hg|g n g' ns Hg Hy]; intros m Hm; cbn; f_equal; by apply (Hp g _ _ Hg).
Qed.

(** The nicks of [n] steps of a suffix generator. *)
Fixpoint suffix_nicks (n : nat) (g : SuffixGen) : list (list byte) :=
  match n with
  | 0 => []
  | S n => let (nick, state) := calc_next g in
           nick :: suffix_nicks n (mkSuffixGen (cfg g) (prefix g) state (limit g - 1))
  end.

Lemma yields_suffix g : (1 <= limit g)%N -> yields (GSuffix g) (suffix_nicks (N.to_nat (limit g)) g).
Proof.
  remember (N.to_nat (limit g)) as n eqn:Hn. revert g Hn. induction n as [|n IH]; intros g Hn Hl; [lia|].
  cbn [suffix_nicks]. assert (Hz : (limit g =? 0)%N = false) by (apply N.eqb_neq; lia).
  destruct (calc_next g) as [nick state] eqn:Hc. destruct n as [|n].
  - apply yields_last. cbn [next_nick]. unfold suffix_next. rewrite Hc, Hz. by assert ((limit g - 1 =? 0)%N = true) as -> by (apply N.eqb_eq; lia).
  - eapply yields_next.
    + cbn [next_nick]. unfold suffix_next. rewrite Hc, Hz. by assert ((limit g - 1 =? 0)%N = false) as -> by (apply N.eqb_neq; lia).
    + apply IH; cbn [limit]; lia.
Qed.

Lemma length_suffix_nicks n g : length (suffix_nicks n g) = n.
Proof. revert g. induction n as [|n IH]; intros g; cbn [suffix_nicks]; [done|]. destruct (calc_next g). cbn. by rewrite IH. Qed.
End Yields.

Lemma yields_vec n l : yields (GFromIter n l) (n :: l).
Proof.
  revert n. induction l as [|n' l IH]; intros n; [by apply yields_last|]. by eapply yields_next.
Qed.

(** ** Sequences of suffixes *)

(** Suffixes that append as many bytes whatever the number. *)
Definition simple (s : SuffixType) : Prop :=
  match s with
  | Choice _ => False
  | Char c => c <> [] /\ Forall (fun b => is_invalid Nick b = false) c
  | _ => True
  end.

(** What a suffix appends. *)
Definition glyph (s : SuffixType) (d : N) : list byte := bytes (append_suffix s d (mkBuilder [] true)).

Lemma append_glyph s d b : simple s -> bytes (append_suffix s d b) = bytes b ++ glyph s d.
Proof.
  intros Hs. unfold glyph. assert (Hp : forall n b, bytes (push n b) = bytes b ++ bytes (push n (mkBuilder [] true))).
  { intros n b'. unfold push, try_push. destruct (is_invalid Nick (byte_of n)); cbn; by rewrite ?app_nil_r. }
  destruct s as [[]| | |uc| | |uc|opts|c]; cbn [append_suffix]; try (by rewrite Hp); [done|].
  destruct Hs as [_ Hc]. unfold try_push_char, try_append_str.
  assert (check_bytes (is_invalid Nick) c = None) as -> by by apply check_bytes_None. done.
Qed.

Definition digits : list SuffixType :=
  [Letter true; Letter false; Base8; Base10; Base16 true; Base16 false; NonZeroBase8; NonZeroBase10;
   NonZeroBase16 true; NonZeroBase16 false].

Definition glyph_ok (s : SuffixType) : bool :=
  let ds := N.of_nat <$> seq 0 (N.to_nat (variance s)) in
  forallb (fun d => match glyph s d with [b] => negb (is_invalid Nick b) | _ => false end) ds &&
  forallb (fun d => forallb (fun e => if bool_decide (glyph s d = glyph s e) then (d =? e)%N else true) ds) ds.

Lemma digits_ok : forallb glyph_ok digits = true.
Proof. vm_compute. done. Qed.

Definition width (s : SuffixType) : nat := match s with Char c => length c | _ => 1 end.

Lemma glyph_spec s :
  simple s -> (1 <= variance s <= 26)%N /\ 1 <= width s /\
  (forall d, (d < variance s)%N -> length (glyph s d) = width s /\ Forall (fun b => is_invalid Nick b = false) (glyph s d)) /\
  (forall d e, (d < variance s)%N -> (e < variance s)%N -> glyph s d = glyph s e -> d = e).
Proof.
  intros Hs. assert (Hd : s ∈ digits \/ exists c, s = Char c).
  { destruct s as [[]| | |[]| | |[]|opts|c]; try (left; unfold digits; set_solver). right; by eexists. }
  destruct Hd as [Hd|[c ->]].
  - pose proof digits_ok as Hok. rewrite List.forallb_forall in Hok. specialize (Hok s (proj1 (list_elem_of_In _ _) Hd)).
    unfold glyph_ok in Hok. apply andb_prop in Hok as [H1 H2].
    assert (Hv : (1 <= variance s <= 26)%N /\ width s = 1).
    { unfold digits in Hd. rewrite !elem_of_cons, elem_of_nil in Hd. by repeat destruct Hd as [->|Hd]. }
    destruct Hv as [Hv Hw]. rewrite List.forallb_forall in H1, H2.
    assert (Hin : forall d, (d < variance s)%N -> In d (N.of_nat <$> seq 0 (N.to_nat (variance s)))).
    { intros d Hlt. apply list_elem_of_In, list_elem_of_fmap. exists (N.to_nat d). split; [lia|]. apply elem_of_seq. lia. }
    split; [done|]. split; [lia|]. split.
    + intros d Hlt. specialize (H1 d (Hin d Hlt)). rewrite Hw. destruct (glyph s d) as [|b [|? ?]]; [done| |done].
      split; [done|]. repeat constructor. by apply negb_true_iff in H1.
    + intros d e Hd1 He Heq. specialize (H2 d (Hin d Hd1)). rewrite List.forallb_forall in H2.
      specialize (H2 e (Hin e He)). rewrite bool_decide_true in H2 by done. by apply N.eqb_eq in H2.
  - destruct Hs as [Hne Hc]. assert (Hg : forall d, glyph (Char c) d = c).
    { intros d. unfold glyph. cbn [append_suffix]. unfold try_push_char, try_append_str.
      by assert (check_bytes (is_invalid Nick) c = None) as -> by by apply check_bytes_None. }
    split; [cbn; lia|]. split; [destruct c; cbn; [done|lia]|]. split; [|intros d e; cbn; lia].
    intros d _. by rewrite Hg.
Qed.

(** What [count] appends in the end. *)
Fixpoint seq_word (l : list SuffixType) (count : N) : list byte :=
  match l with
  | [] => []
  | s :: l =>
      let c := (count - 1)%N in
      glyph s (c mod variance s) ++ (if (c / variance s =? 0)%N then [] else seq_word l (c / variance s))
  end.

(** How many nicks the suffixes can tell apart. *)
Fixpoint capacity (l : list SuffixType) : N :=
  match l with [] => 0 | s :: l => variance s * (1 + capacity l) end.

Lemma seq_loop_word l count b :
  Forall simple l -> (count <= 255)%N -> bytes (seq_loop l count b) = bytes b ++ seq_word l count.
Proof.
  intros Hl. revert count b. induction Hl as [|s l Hs _ IH]; intros count b Hc; cbn [seq_loop seq_word]; [by rewrite app_nil_r|].
  destruct (glyph_spec s Hs) as (Hv & _). destruct (N.eqb_spec (variance s) 0) as [?|_]; [lia|].
  rewrite (N.mod_small (count - 1) 256) by lia.
  assert (Hq : ((count - 1) / variance s <= 255)%N).
  { etransitivity; [apply N.Div0.div_le_upper_bound with (q := (count - 1)%N)|lia]. nia. }
  destruct (N.eqb_spec ((count - 1) / variance s) 0).
  - by rewrite append_glyph, app_nil_r.
  - rewrite IH by done. by rewrite append_glyph, <- app_assoc.
Qed.

Lemma seq_word_nonempty l c : Forall simple l -> (1 <= c <= capacity l)%N -> seq_word l c <> [].
Proof.
  intros Hl Hc. destruct Hl as [|s l Hs Hl]; [cbn in Hc; lia|]. cbn [seq_word].
  destruct (glyph_spec s Hs) as (Hv & Hw & Hg & _). destruct (Hg ((c - 1) mod variance s)%N) as [Hlen _]; [apply N.mod_lt; lia|].
  destruct (glyph s _); [cbn in Hlen; lia|done].
Qed.

Lemma seq_word_inj l c c' :
  Forall simple l -> (1 <= c <= capacity l)%N -> (1 <= c' <= capacity l)%N -> seq_word l c = seq_word l c' -> c = c'.
Proof.
  intros Hl. revert c c'. induction Hl as [|s l Hs Hl IH]; intros c c' Hc Hc'; cbn [capacity] in *; [lia|].
  destruct (glyph_spec s Hs) as (Hv & _ & Hg & Hinj). cbn [seq_word].
  set (v := variance s) in *. set (q := ((c - 1) / v)%N). set (q' := ((c' - 1) / v)%N).
  assert (Hm : ((c - 1) mod v < v)%N) by (apply N.mod_lt; lia).
  assert (Hm' : ((c' - 1) mod v < v)%N) by (apply N.mod_lt; lia).
  pose proof (N.Div0.div_mod (c - 1) v) as Hdm. pose proof (N.Div0.div_mod (c' - 1) v) as Hdm'. fold q in Hdm. fold q' in Hdm'.
  assert (Hq : (q < 1 + capacity l)%N) by (apply N.Div0.div_lt_upper_bound; lia).
  assert (Hq' : (q' < 1 + capacity l)%N) by (apply N.Div0.div_lt_upper_bound; lia).
  intros Heq. apply app_inj_1 in Heq as [Hgl Hrest].
  2: { by rewrite (proj1 (Hg _ Hm)), (proj1 (Hg _ Hm')). }
  apply Hinj in Hgl; [|done|done].
  assert (Hqq : q = q').
  { destruct (N.eqb_spec q 0) as [Hz|Hz], (N.eqb_spec q' 0) as [Hz'|Hz'].
    - congruence.
    - exfalso. by apply (seq_word_nonempty l q' Hl); [lia|].
    - exfalso. by apply (seq_word_nonempty l q Hl); [lia|].
    - apply IH; [lia|lia|done]. }
  rewrite Hqq, Hgl in Hdm. lia.
Qed.

Definition total (l : list SuffixType) : N := foldr (fun s n => (variance s + n)%N) 0%N l.

Lemma limit_total l a : (a <= 255)%N ->
  foldl (fun count s => u8_saturating_add count (variance s)) a l = N.min 255 (a + total l).
Proof.
  revert a. induction l as [|s l IH]; intros a Ha; cbn [foldl total foldr]; [lia|]. rewrite IH by (unfold u8_saturating_add; lia).
  unfold u8_saturating_add. fold (total l). lia.
Qed.

Lemma total_capacity l : Forall simple l -> (total l <= capacity l)%N.
Proof.
  induction 1 as [|s l Hs _ IH]; cbn [total foldr capacity]; [done|]. fold (total l).
  destruct (glyph_spec s Hs) as (Hv & _). nia.
Qed.

Lemma suffix_nicks_seq n g :
  strategy (cfg g) = Seq -> Forall simple (suffixes (cfg g)) -> (gstate g + N.of_nat n <= 255)%N ->
  suffix_nicks n g = (fun i => prefix g ++ seq_word (suffixes (cfg g)) (gstate g + N.of_nat (S i))) <$> seq 0 n.
Proof.
  revert g. induction n as [|n IH]; intros g Hs Hl Hb; [done|]. cbn [suffix_nicks]. unfold calc_next. rewrite Hs.
  rewrite N.mod_small by lia. rewrite IH; cbn [cfg gstate prefix]; [|done|done|lia].
  rewrite <- cons_seq, fmap_cons, <- fmap_S_seq. f_equal.
  - unfold build. cbn [value]. rewrite seq_loop_word by (done || lia). done.
  - rewrite <- list_fmap_compose. apply list_fmap_ext. intros _ i _. cbn. do 2 f_equal. lia.
Qed.

Lemma seq_word_bytes l c : Forall simple l -> (c <= 255)%N -> Forall (fun b => is_invalid Nick b = false) (seq_word l c).
Proof.
  intros Hl. revert c. induction Hl as [|s l Hs _ IH]; intros c Hc; cbn [seq_word]; [constructor|].
  destruct (glyph_spec s Hs) as (Hv & _ & Hg & _).
  apply Forall_app. split; [apply Hg, N.mod_lt; lia|]. destruct (_ =? 0)%N; [constructor|].
  apply IH. etransitivity; [apply N.Div0.div_le_upper_bound with (q := (c - 1)%N)|lia]. nia.
Qed.

Lemma nick_suffix p w : valid Nick p -> Forall (fun b => is_invalid Nick b = false) w -> valid Nick (p ++ w).
Proof.
  intros Hp Hw. apply valid_iff in Hp as [H1 H2]. apply valid_iff. split; [|by apply Forall_app].
  apply newtypes_monotone; [|done]. apply list_elem_of_In. do 6 right. by left.
Qed.

Section SuffixThms.
Context {I : Type} `{NickIterator I}.

Lemma seq_nicks_spec entropy l p :
  l <> [] -> Forall simple l -> valid Nick p ->
  exists ns, yields (I := I) (transform entropy (mkSuffix Seq l) p) ns /\
    N.of_nat (length ns) = N.min 255 (total l) /\ NoDup ns /\
    Forall (fun n => valid Nick n /\ exists w, w <> [] /\ n = p ++ w) ns.
Proof.
  intros Hne Hl Hp. set (g := suffix_gen entropy (mkSuffix Seq l) p).
  assert (Hg : g = mkSuffixGen (mkSuffix Seq l) p 0 (N.min 255 (total l))).
  { unfold g, suffix_gen. cbn [suffixes strategy]. rewrite limit_total by lia. by destruct l. }
  assert (Ht : (1 <= total l)%N).
  { destruct Hl as [|s l Hs _]; [done|]. cbn [total foldr]. destruct (glyph_spec s Hs) as (Hv & _). lia. }
  pose proof (total_capacity l Hl) as Hc. set (n := N.to_nat (N.min 255 (total l))).
  assert (Hns : suffix_nicks n g = (fun i => p ++ seq_word l (N.of_nat (S i))) <$> seq 0 n).
  { rewrite suffix_nicks_seq; rewrite Hg; cbn [cfg strategy suffixes gstate prefix]; [done|done|done|lia]. }
  exists (suffix_nicks n g). split; [|split; [|split]].
  - replace n with (N.to_nat (limit g)) by by rewrite Hg. apply yields_suffix. rewrite Hg. cbn [limit]. lia.
  - rewrite length_suffix_nicks. unfold n. lia.
  - rewrite Hns. apply NoDup_fmap_2_strong; [|apply NoDup_seq]. intros i j [_ Hi]%elem_of_seq [_ Hj]%elem_of_seq Heq.
    apply app_inv_head, (seq_word_inj l _ _ Hl) in Heq; lia.
  - rewrite Hns. apply Forall_fmap, List.Forall_forall. intros i Hi%list_elem_of_In. apply elem_of_seq in Hi. cbn.
    split; [apply nick_suffix; [done|apply seq_word_bytes; [done|lia]]|].
    eexists. split; [|done]. apply seq_word_nonempty; [done|lia].
Qed.

(** Counting through suffixes that each append a digit, a letter or a fixed
    character ends after as many nicks as the suffixes have values, at most 255;
    every nick is valid, extends the one it falls back from, and none comes
    twice. *)
Theorem seq_nicks entropy l p :
  l <> [] -> Forall simple l -> valid Nick p ->
  exists ns, yields (I := I) (transform entropy (mkSuffix Seq l) p) ns /\
    N.of_nat (length ns) = N.min 255 (total l) /\ NoDup ns /\
    Forall (fun n => valid Nick n /\ exists w, w <> [] /\ n = p ++ w) ns.
Proof. apply seq_nicks_spec. Qed.

(** Generators in sequence give all the nicks of the first and then all the
    nicks of the second; a list gives its nicks in order; and what [peek] shows
    is what comes next. *)
Theorem nick_order (a b : NickGen I) la lb :
  yields a la -> yields b lb ->
  yields (chain a b) (la ++ lb) /\ (forall n, peek (chain a b) = Some n -> head (la ++ lb) = Some n).
Proof.
  intros Ha Hb. split; [by apply yields_chain|]. apply yields_peek. by apply yields_chain.
Qed.

(** Suffixes without a value leave no nick to give, and the first call subtracts
    one from a limit of zero. *)
Theorem seq_no_choice_panics entropy p :
  next_nick (I := I) (transform entropy (mkSuffix Seq [Choice []]) p) = None.
Proof. done. Qed.

(** After a nick is refused as invalid, a single nick that is left is dropped
    because it is another one, and would be kept if it were the one refused; a
    list that is left is kept. *)
Theorem single_nick_lost (a b : list byte) (iter : I) :
  a <> b -> iter_bounded iter = true ->
  exists g, next_nick (I := I) (chain (GNick a) (GNick b)) = Some (a, Some g) /\
    handle_invalid g a = Some None /\ handle_invalid g b = Some (Some (GNick b)) /\
    handle_invalid (GFromIter b iter) a = Some (Some (GFromIter b iter)).
Proof.
  intros Hab Hi. exists (GChain None (Some (GNick b))). cbn. unfold nick_invalid, iter_invalid.
  rewrite bool_decide_eq_false_2 by done. rewrite bool_decide_eq_true_2, Hi by done. done.
Qed.
End SuffixThms.

(** The letters for ten and more are not hexadecimal digits: the offset is added
    to the whole number. *)
Theorem base16_not_hex :
  bytes (append_suffix (Base16 true) 10 (Builder.new (plain (bs "a")))) = bs "aK" /\
  bytes (append_suffix (NonZeroBase16 false) 9 (Builder.new (plain (bs "a")))) = bs "aj".
Proof. done. Qed.

(** ** Witnesses *)

Lemma single_nick_lost_witness :
  exists g, next_nick (I := list (list byte)) (chain (GNick (bs "a")) (GNick (bs "b"))) = Some (bs "a", Some g) /\
    handle_invalid g (bs "a") = Some None.
Proof.
  destruct (single_nick_lost (I := list (list byte)) (bs "a") (bs "b") [] ltac:(discriminate) eq_refl) as (g & H1 & H2 & _).
  exists g. split; [exact H1|exact H2].
Defined.

(** The suffixes of the library's own test. *)
Definition sample_suffixes : list SuffixType := [Char (bs "_"); Char (bs "_"); NonZeroBase8; Base8].

Lemma seq_nicks_witness :
  Forall simple sample_suffixes /\ valid Nick (bs "Foo") /\
  exists ns, yields (I := list (list byte)) (transform 0 (mkSuffix Seq sample_suffixes) (bs "Foo")) ns /\
    length ns = 17 /\ NoDup ns.
Proof.
  assert (Hs : Forall simple sample_suffixes) by (repeat constructor; done).
  assert (Hp : valid Nick (bs "Foo")) by by vm_compute.
  split; [exact Hs|]. split; [exact Hp|].
  destruct (seq_nicks (I := list (list byte)) 0 sample_suffixes (bs "Foo") ltac:(done) Hs Hp) as (ns & H1 & H2 & H3 & _).
  exists ns. split; [exact H1|]. split; [|exact H3]. apply Nat2N.inj. rewrite H2. reflexivity.
Defined.

Lemma nick_order_witness :
  yields (GFromIter (bs "a") [bs "b"]) [bs "a"; bs "b"] /\
  yields (chain (GFromIter (bs "a") [bs "b"]) (GNick (bs "c"))) [bs "a"; bs "b"; bs "c"].
Proof.
  assert (Ha : yields (GFromIter (bs "a") [bs "b"]) [bs "a"; bs "b"]) by apply yields_vec.
  split; [exact Ha|].
  exact (proj1 (nick_order (GFromIter (bs "a") [bs "b"]) (GNick (bs "c")) _ [bs "c"] Ha (yields_last (GNick (bs "c")) (bs "c") eq_refl))).
Defined.
