(* ===== verification/Base64.v ===== *)
(** * [AUTHENTICATE] chunks

    [src/string/base64.rs]: [ChunkEncoder] splits Base64 text into chunks no
    longer than a limit, [ChunkDecoder] puts them together.  The Base64 engine is
    a parameter with the laws the code relies on. *)

From S2P Require Import Prelude Strings Utf8 Splitter.
From S2P Require Names.

(** [base64::engine::Engine], as [STANDARD] has it. *)
Class Engine (E : Type) := {
  encode : list byte -> list byte;
  decode : list byte -> result (list byte) E;
}.

(** The alphabet of the encoding. *)
Definition is_base64 (b : byte) : bool :=
  is_ascii_alphabetic b || is_ascii_digit b || Byte.eqb b "+" || Byte.eqb b "/" || Byte.eqb b "=".

(** Padded Base64: groups of four letters that decode to what was encoded. *)
Class EngineOk (E : Type) `{Engine E} : Prop := {
  encode_bytes b : Forall (fun c => is_base64 c = true) (encode b);
  encode_length b : length (encode b) mod 4 = 0;
  encode_nil : encode [] = [];
  decode_encode b : decode (encode b) = Ok b;
}.

Section Base64.
Context {E : Type} `{Engine E}.

(** ** [ChunkEncoder] *)

(** [splitter] is the text left, or whether the final [+] is secret. *)
Record ChunkEncoder := mkEncoder { splitter : result Splitter bool; emax : nat }.

Definition empty : ChunkEncoder := mkEncoder (Err false) 0.

Definition new (bytes : list byte) (max : nat) (secret : bool) : ChunkEncoder :=
  if max =? 0 then empty
  else
    let encoded := encode bytes in
    mkEncoder
      (match encoded with
       | [] => Err secret
       | _ => Ok (Splitter.new (mkStr encoded true secret))
       end) max.

Definition is_empty (e : ChunkEncoder) : bool := emax e =? 0.

(** [next]; the outer [None] is a panic in [unwrap]. *)
Definition next (e : ChunkEncoder) : option (option Str * ChunkEncoder) :=
  if emax e =? 0 then Some (None, e)
  else
    match splitter e with
    | Ok s =>
        let (r, s) := save_end (fun s => rest Arg (until_count (emax e) s)) s in
        match r with
        | Err _ => None
        | Ok chunk =>
            let e :=
              if length (value chunk) <? emax e then empty
              else if Splitter.is_empty s then mkEncoder (Err (is_secret s)) (emax e)
              else mkEncoder (Ok s) (emax e) in
            Some (Some chunk, e)
        end
    | Err secret => Some (Some (mkStr Names.PLUS false secret), empty)
    end.

(** [ExactSizeIterator::len]. *)
Definition len (e : ChunkEncoder) : nat :=
  if emax e =? 0 then 0
  else match splitter e with
       | Ok s => Splitter.len s / emax e + 1
       | Err _ => 1
       end.

Definition size_hint (e : ChunkEncoder) : nat * option nat := (len e, Some (len e)).

Definition default : ChunkEncoder := empty.

(** The first [n] calls of [next]. *)
Fixpoint take_chunks (n : nat) (e : ChunkEncoder) : option (list (option Str) * ChunkEncoder) :=
  match n with
  | 0 => Some ([], e)
  | S n =>
      match next e with
      | Some (r, e) => match take_chunks n e with Some (l, e) => Some (r :: l, e) | None => None end
      | None => None
      end
  end.

(** All that an encoder yields. *)
Fixpoint collect (fuel : nat) (e : ChunkEncoder) : option (list Str) :=
  match fuel with
  | 0 => None
  | S fuel =>
      match next e with
      | Some (None, _) => Some []
      | Some (Some chunk, e) => cons chunk <$> collect fuel e
      | None => None
      end
  end.

(** One call of [next] for each chunk announced and one to see the end. *)
Definition chunks (e : ChunkEncoder) : option (list Str) := collect (S (len e)) e.

(** ** [ChunkDecoder] *)

Record ChunkDecoder := mkDecoder { data : list byte; chunk_len : nat }.

Definition decoder (chunk_len : nat) : ChunkDecoder := mkDecoder [] chunk_len.

(** [ChunkDecoder::decode], which leaves the decoder empty. *)
Definition decode_all (d : ChunkDecoder) : result (list byte) E * ChunkDecoder :=
  (decode (data d), mkDecoder [] (chunk_len d)).

Definition add (chunk : list byte) (d : ChunkDecoder) : option (result (list byte) E) * ChunkDecoder :=
  let extend := mkDecoder (data d ++ chunk) (chunk_len d) in
  if length chunk <? chunk_len d then
    let (r, d) := decode_all (if bool_decide (chunk = bs "+") then d else extend) in (Some r, d)
  else (None, extend).

(** The chunks in turn; the answers that are not [None]. *)
Fixpoint add_all (l : list (list byte)) (d : ChunkDecoder) : list (result (list byte) E) * ChunkDecoder :=
  match l with
  | [] => ([], d)
  | chunk :: l =>
      let (r, d) := add chunk d in
      let (rs, d) := add_all l d in
      (match r with Some r => r :: rs | None => rs end, d)
  end.

(** ** Theorems *)

Lemma base64_byte b :
  is_base64 b = true -> is_invalid Arg b = false /\ b <> ":"%byte.
Proof. byte_cases b; by intros. Qed.

Lemma base64_arg l : l <> [] -> Forall (fun c => is_base64 c = true) l -> valid Arg l.
Proof.
  intros Hl Hb. apply valid_iff. split.
  - destruct l as [|b l]; [done|]. apply arg_first_check_None. exists b, l. split; [done|].
    apply Forall_cons_iff in Hb as [Hb _]. by apply base64_byte.
  - eapply Forall_impl; [exact Hb|]. cbv beta. by intros b [? _]%base64_byte.
Qed.

(** An encoder with text [l] left. *)
Definition holds (e : ChunkEncoder) (max : nat) (secret : bool) (l : list byte) : Prop :=
  emax e = max /\
  match splitter e with
  | Ok s => l <> [] /\ as_slice s = l /\ wf s /\ is_secret s = secret
  | Err sec => l = [] /\ sec = secret
  end.

Lemma next_spec e max secret l :
  0 < max -> holds e max secret l -> Forall (fun c => is_base64 c = true) l ->
  exists chunk e', next e = Some (Some chunk, e') /\ ssecret chunk = secret /\ valid Arg (value chunk) /\
    value chunk = match l with [] => bs "+" | _ => take max l end /\
    if length l <? max then e' = empty else holds e' max secret (drop max l).
Proof.
  intros Hm (He & Hs) Hb. unfold next. rewrite He. destruct (Nat.eqb_spec max 0); [lia|].
  destruct (splitter e) as [s|sec].
  - destruct Hs as (Hl & Hr & Hw & Hsec).
    assert (Hv : valid Arg (take max l)).
    { apply base64_arg; [by destruct max, l|]. by apply Forall_take. }
    pose proof (rem_until_count max s) as Hu. rewrite Hr in Hu.
    destruct (rest_cursor Arg (until_count max s)) as [H1 _]. rewrite Hu in H1.
    assert (check_others Arg (take max l) = None) as Hc by by apply valid_iff in Hv as [? _].
    rewrite Hc in H1.
    destruct (save_end_spec (fun s => rest Arg (until_count max s)) s (length (take max l))) as (G1 & G2 & G3).
    + done.
    + rewrite Hr, length_take. lia.
    + unfold rest. by destruct (peek_rest Arg (until_count max s)).
    + unfold rest, peek_rest. rewrite Hu, Hc. done.
    + rewrite H1 in G1. rewrite Hr in G2.
      assert (Hin : inner (save_end (fun s => rest Arg (until_count max s)) s).2 = inner s).
      { unfold save_end, save, rest. by destruct (peek_rest Arg (until_count max s)). }
      destruct (save_end (fun s => rest Arg (until_count max s)) s) as [r s']. cbn [fst snd] in *. subst r.
      eexists _, _. split; [reflexivity|]. split; [exact Hsec|]. split; [exact Hv|].
      split; [by destruct l|]. change (value (using_value _ (take max l))) with (take max l). rewrite length_take.
      assert (Hlt : (max `min` length l <? max) = (length l <? max)).
      { destruct (Nat.ltb_spec (length l) max), (Nat.ltb_spec (max `min` length l) max); lia. }
      rewrite Hlt. destruct (Nat.ltb_spec (length l) max); [done|].
      rewrite length_take, Nat.min_l in G2 by lia.
      assert (Hs' : is_secret s' = secret) by (unfold is_secret in *; by rewrite Hin).
      rewrite is_empty_rem, G2 by done. case_bool_decide as Hd; [by rewrite Hd|].
      split; [done|]. cbn [splitter]. split; [done|]. split; [exact G2|]. by split.
  - destruct Hs as [-> ->]. eexists _, _. split; [reflexivity|]. split; [done|]. split; [by vm_compute|].
    split; [done|]. simpl. destruct (Nat.ltb_spec 0 max); [done|lia].
Qed.

(** The chunks of a text: full ones, then the rest or a plus sign. *)
Fixpoint split_chunks (fuel max : nat) (l : list byte) : list (list byte) :=
  match fuel with
  | 0 => []
  | S fuel =>
      match l with
      | [] => [bs "+"]
      | _ => take max l :: (if length l <? max then [] else split_chunks fuel max (drop max l))
      end
  end.

Lemma len_holds e max secret l : 0 < max -> holds e max secret l -> len e = length l / max + 1.
Proof.
  intros Hm (He & Hs). unfold len. rewrite He. destruct (Nat.eqb_spec max 0); [lia|].
  destruct (splitter e) as [s|sec].
  - destruct Hs as (_ & Hr & Hw & _). by rewrite <- (length_rem s Hw), Hr.
  - destruct Hs as [-> _]. simpl. by rewrite Nat.Div0.div_0_l.
Qed.

(** Each chunk is one less to come. *)
Lemma take_chunks_holds n max secret : 0 < max -> forall e l,
  holds e max secret l -> Forall (fun c => is_base64 c = true) l ->
  exists cs e', take_chunks n e = Some (cs, e') /\ size_hint e' = (len e - n, Some (len e - n)) /\
    Forall2 (fun i c => is_Some c <-> i < len e) (seq 0 n) cs /\ (len e <= n -> e' = empty).
Proof.
  intros Hm. induction n as [|n IH]; intros e l He Hb.
  - exists [], e. rewrite Nat.sub_0_r. split; [done|]. split; [done|]. split; [constructor|].
    rewrite (len_holds _ _ _ _ Hm He). lia.
  - destruct (next_spec e max secret l Hm He Hb) as (c & e' & Hn & _ & _ & _ & He').
    pose proof (len_holds _ _ _ _ Hm He) as Hlen. cbn [take_chunks]. rewrite Hn.
    destruct (Nat.ltb_spec (length l) max) as [Hlt|Hge].
    + subst e'. rewrite (Nat.div_small _ _ Hlt) in Hlen.
      assert (Hk : take_chunks n empty = Some (replicate n None, empty)) by (clear; induction n as [|n IH]; [done|]; cbn; by rewrite IH).
      rewrite Hk. exists (Some c :: replicate n None), empty. split; [done|]. rewrite Hlen. replace (0 + 1 - S n) with 0 by lia.
      split; [done|]. split; [|done]. constructor; [split; [lia|by exists c]|].
      apply Forall2_same_length_lookup_2; [by rewrite length_seq, length_replicate|]. intros i x y Hx Hy.
      apply lookup_seq in Hx as [-> _]. apply lookup_replicate in Hy as [-> _]. split; [by intros []|lia].
    + assert (Hd : len e = S (len e')).
      { rewrite Hlen, (len_holds _ _ _ _ Hm He'), length_drop. replace (length l) with (1 * max + (length l - max)) at 1 by lia.
        rewrite Nat.div_add_l by lia. lia. }
      destruct (IH e' (drop max l) He' (Forall_drop _ _ _ Hb)) as (cs & e2 & H1 & H2 & H3 & H4). rewrite H1, Hd.
      exists (Some c :: cs), e2. split; [done|]. split; [exact H2|]. split; [|intros; apply H4; lia].
      constructor; [split; [lia|by exists c]|]. rewrite <- seq_shift. apply Forall2_fmap_l. eapply Forall2_impl; [exact H3|]. cbn. intros i x ->. lia.
Qed.

Lemma collect_holds fuel e max secret l :
  0 < max -> holds e max secret l -> Forall (fun c => is_base64 c = true) l -> length l / max + 1 < fuel ->
  exists cs, collect fuel e = Some cs /\ value <$> cs = split_chunks (length l / max + 1) max l /\
    length cs = length l / max + 1 /\
    Forall (fun c => ssecret c = secret /\ valid Arg (value c) /\ length (value c) <= max) cs.
Proof.
  intros Hm. revert e l. induction fuel as [|fuel IH]; intros e l He Hb Hf; [lia|].
  destruct (next_spec e max secret l Hm He Hb) as (c & e' & Hn & Hsec & Hv & Hc & He').
  cbn [collect]. rewrite Hn.
  assert (Hcl : length (value c) <= max).
  { rewrite Hc. destruct l; [change (length (bs "+")) with 1; lia|]. rewrite length_take. lia. }
  destruct (Nat.ltb_spec (length l) max) as [Hlt|Hge].
  - subst e'. rewrite (Nat.div_small _ _ Hlt) in *. destruct fuel; [lia|].
    exists [c]. split; [done|]. split.
    { cbn [fmap list_fmap split_chunks Nat.add]. rewrite Hc. destruct l as [|b l]; [done|].
      destruct (Nat.ltb_spec (length (b :: l)) max); [done|lia]. }
    split; [done|]. by repeat constructor.
  - assert (Hd : length l / max = S (length (drop max l) / max)).
    { rewrite length_drop. replace (length l) with (1 * max + (length l - max)) at 1 by lia.
      rewrite Nat.div_add_l by lia. done. }
    destruct (IH e' (drop max l) He' (Forall_drop _ _ _ Hb) ltac:(lia)) as (cs & H1 & H2 & H3 & H4).
    rewrite H1. exists (c :: cs). split; [done|]. split.
    { rewrite Hd. cbn [fmap list_fmap split_chunks Nat.add]. rewrite Hc, H2.
      destruct l as [|b l]; [simpl in Hge; lia|]. destruct (Nat.ltb_spec (length (b :: l)) max); [lia|done]. }
    split; [cbn; lia|]. by constructor.
Qed.

(** Decoding the chunks of a text decodes the text, with the last chunk only. *)
Lemma add_all_chunks n max l pre :
  0 < max -> max mod 4 = 0 -> length l mod 4 = 0 -> length l / max < n ->
  add_all (split_chunks n max l) (mkDecoder pre max) = ([decode (pre ++ l)], mkDecoder [] max).
Proof.
  intros Hm Hm4. revert l pre. induction n as [|n IH]; intros l pre Hl4 Hn; [lia|]. cbn [split_chunks].
  assert (Hm1 : 1 < max).
  { destruct max as [|[|m]]; [lia|by cbn in Hm4|lia]. }
  destruct l as [|b l].
  - cbn [add_all]. unfold add. cbn [chunk_len]. rewrite app_nil_r.
    change (length (bs "+")) with 1. destruct (Nat.ltb_spec 1 max); [done|lia].
  - set (t := b :: l) in *. cbn [add_all]. unfold add. cbn [chunk_len data]. rewrite length_take.
    destruct (Nat.ltb_spec (length t) max) as [Hlt|Hge].
    + destruct (Nat.ltb_spec (max `min` length t) max); [|lia].
      rewrite take_ge by lia. rewrite bool_decide_false; [done|].
      intros Heq. rewrite Heq in Hl4. by vm_compute in Hl4.
    + destruct (Nat.ltb_spec (max `min` length t) max); [lia|]. cbn [app].
      assert (Hd : length t = 1 * max + length (drop max t)) by (rewrite length_drop; lia).
      rewrite IH.
      * by rewrite <- app_assoc, take_drop.
      * rewrite length_drop. apply Nat.Div0.div_exact in Hl4, Hm4. apply Nat.Div0.div_exact.
        rewrite Hl4, Hm4, <- Nat.mul_sub_distr_l. rewrite Nat.mul_comm, Nat.div_mul by done. lia.
      * rewrite Hd, Nat.div_add_l in Hn by lia. lia.
Qed.

Context `{!EngineOk E}.

Lemma new_holds bytes max secret : 0 < max -> holds (new bytes max secret) max secret (encode bytes).
Proof.
  intros Hm. unfold new. destruct (Nat.eqb_spec max 0); [lia|]. split; [done|]. cbn [splitter].
  destruct (encode bytes) as [|b l]; [done|]. split; [done|]. split; [apply rem_new|]. by split; [apply wf_new|].
Qed.

(** The rest of a conversation in chunks: nothing but the last chunk is answered. *)
Lemma chunks_spec bytes max secret :
  0 < max -> max mod 4 = 0 ->
  exists cs, chunks (new bytes max secret) = Some cs /\ length cs = len (new bytes max secret) /\
    Forall (fun c => ssecret c = secret /\ valid Arg (value c) /\ length (value c) <= max) cs /\
    add_all (value <$> cs) (decoder max) = ([Ok bytes], decoder max).
Proof.
  intros Hm Hm4. pose proof (encode_bytes bytes) as Hb.
  pose proof (new_holds bytes max secret Hm) as Hh.
  unfold chunks. pose proof (len_holds _ _ _ _ Hm Hh) as Hlen.
  destruct (collect_holds (S (len (new bytes max secret))) _ _ _ _ Hm Hh Hb ltac:(lia)) as (cs & H1 & H2 & H3 & H4).
  exists cs. split; [exact H1|]. split; [lia|]. split; [exact H4|]. rewrite H2.
  unfold decoder. rewrite add_all_chunks.
  - by rewrite app_nil_l, decode_encode.
  - done.
  - done.
  - apply encode_length.
  - lia.
Qed.
(** At every point of the iteration [size_hint] says exactly how many chunks are
    left, also when the text is a multiple of the limit and a plus sign is to
    follow; after that there are none, however often it is asked. *)
Theorem size_hint_exact bytes max secret n :
  0 < max ->
  let k := len (new bytes max secret) in
  exists cs e, take_chunks n (new bytes max secret) = Some (cs, e) /\ size_hint e = (k - n, Some (k - n)) /\
    Forall2 (fun i c => is_Some c <-> i < k) (seq 0 n) cs /\ (k <= n -> e = default).
Proof.
  intros Hm k. pose proof (encode_bytes bytes) as Hb. apply (take_chunks_holds n max secret Hm _ (encode bytes)); [by apply new_holds|done].
Qed.

(** What the encoder yields is as many chunks as it says, each a valid
    argument no longer than the limit and secret if the data is; fed to a decoder
    with the same limit, a multiple of four, the last chunk and only that gives
    the data back, and leaves the decoder ready for more. *)
Theorem chunks_roundtrip bytes max secret :
  0 < max -> max mod 4 = 0 ->
  exists cs, chunks (new bytes max secret) = Some cs /\ length cs = len (new bytes max secret) /\
    Forall (fun c => ssecret c = secret /\ valid Arg (value c) /\ length (value c) <= max) cs /\
    add_all (value <$> cs) (decoder max) = ([Ok bytes], decoder max).
Proof. apply chunks_spec. Qed.
End Base64.

(** An engine for examples: each byte as two letters and two padding signs. *)
Definition pair_engine : Engine () := {|
  encode := flat_map (fun b => [byte_of (65 + code b / 16); byte_of (65 + code b mod 16); "="%byte; "="%byte]);
  decode := fix decode l :=
    match l with
    | [] => Ok []
    | hi :: lo :: _ :: _ :: l =>
        match decode l with
        | Ok r => Ok (byte_of ((code hi - 65) * 16 + (code lo - 65)) :: r)
        | Err e => Err e
        end
    | _ => Err tt
    end;
|}.

Lemma pair_byte b :
  is_base64 (byte_of (65 + code b / 16)) = true /\ is_base64 (byte_of (65 + code b mod 16)) = true /\
  byte_of ((code (byte_of (65 + code b / 16)) - 65) * 16 + (code (byte_of (65 + code b mod 16)) - 65)) = b.
Proof. destruct b; by vm_compute. Qed.

#[local] Existing Instance pair_engine.

Lemma pair_engine_ok : EngineOk ().
Proof.
  split.
  - induction b as [|b l IH]; cbn; [constructor|]. destruct (pair_byte b) as (H1 & H2 & _). by repeat constructor.
  - induction b as [|b l IH]; [done|]. cbn [encode pair_engine flat_map app length] in *.
    change (S (S (S (S ?n)))) with (4 + n). rewrite Nat.Div0.add_mod.
    exact (f_equal (fun m => (4 mod 4 + m) mod 4) IH).
  - done.
  - induction b as [|b l IH]; [done|]. cbn [encode decode pair_engine flat_map app] in *. rewrite IH.
    by rewrite (proj2 (proj2 (pair_byte b))).
Qed.

#[local] Existing Instance pair_engine_ok.

Lemma chunks_roundtrip_witness :
  option_map (List.map value) (chunks (new (bs "ab") 8 true)) = Some [bs "GB==GC=="; bs "+"] /\
  add_all [bs "GB==GC=="; bs "+"] (decoder 8) = ([Ok (bs "ab")], decoder 8).
Proof.
  split; [reflexivity|].
  destruct (chunks_roundtrip (bs "ab") 8 true ltac:(lia) eq_refl) as (cs & H1 & _ & _ & H2).
  rewrite <- H2. vm_compute in H1. injection H1 as <-. reflexivity.
Defined.

Lemma size_hint_exact_witness : exists cs e, take_chunks 1 (new (E := ()) (H := pair_engine) (bs "ab") 4 true) = Some (cs, e) /\ size_hint e = (2, Some 2).
Proof.
  destruct (@size_hint_exact () pair_engine pair_engine_ok (bs "ab") 4 true 1) as (cs & e & H1 & H2 & _); [apply Nat.ltb_lt; reflexivity|].
  exists cs, e. split; [exact H1|exact H2].
Defined.
