(* ===== verification/Encoder.v ===== *)
(** * [AUTHENTICATE] chunks in memory

    [ChunkEncoder] of [src/string/base64.rs] over the heap: the text a buffer is
    encoded to, the string [secret] copies it to, the chunks that share that
    copy, and when each is dropped.  The values are those of [Base64].  Nothing
    writes zeroes over the text, so it is still in the blocks once they are freed;
    [left_in] says which blocks those are. *)

From stdpp Require Import list.
From S2P Require Import Prelude Transforms Memory SecretBuf.
From S2P Require Import OwnedBytes.
From S2P Require BytesCell Base64 Strings Splitter Names.

Section Encoder.
Context `{Alloc} {E : Type} `{Base64.Engine E}.

(** The string being split and the part of it that is left; the encoder uses
    nothing else of [Splitter]. *)
Record Splitting := mkSplitting { string : Bytes; ahead : Slice }.

Record ChunkEncoder := mkEncoder { splitter : result Splitting bool; emax : nat }.

Definition slice_len (s : Slice) : nat := match s with Mem _ _ n => n | Static l => length l end.

Definition none_left : ChunkEncoder := mkEncoder (Err false) 0.

(** [ENGINE.encode(bytes)], which takes the buffer and drops it. *)
Definition encode_buf (bytes : SecretBuf) (w : World) : option (Vec * World) :=
  l ← as_ref bytes (heap w);
  '(text, h) ← to_vec (Base64.encode l) (heap w);
  h ← drop_secret bytes h;
  Some (text, with_heap w h).

(** [ChunkEncoder::new]. *)
Definition new (bytes : SecretBuf) (max : nat) (sec : bool) (w : World) : option (ChunkEncoder * World) :=
  if max =? 0 then h ← drop_secret bytes (heap w); Some (none_left, with_heap w h)
  else
    '(text, w) ← encode_buf bytes w;
    '(encoded, w) ← from_vec_b text w;
    if negb (slice_len (bvalue encoded) =? 0) then
      '(encoded, w) ← if sec then OwnedBytes.secret encoded w else Some (encoded, w);
      Some (mkEncoder (Ok (mkSplitting encoded (bvalue encoded))) max, w)
    else w ← drop_bytes encoded w; Some (mkEncoder (Err sec) max, w).

(** [next]; assigning over the encoder, or its splitter, drops the string.  [rest]
    may fail, and [unwrap] panics then. *)
Definition next (e : ChunkEncoder) (w : World) : option (option Bytes * ChunkEncoder * World) :=
  if emax e =? 0 then Some (None, e, w)
  else
    match splitter e with
    | Ok s =>
        let slice := sub_slice (ahead s) 0 (emax e) in
        l ← slice_get slice (heap w);
        match Strings.check_others Strings.Arg l with
        | Some _ => None
        | None =>
            '(chunk, w) ← using_value (string s) slice w;
            let s := mkSplitting (string s) (sub_slice (ahead s) (emax e) (slice_len (ahead s))) in
            if slice_len (bvalue chunk) <? emax e then w ← drop_bytes (string s) w; Some (Some chunk, none_left, w)
            else if slice_len (ahead s) =? 0 then
              w ← drop_bytes (string s) w;
              Some (Some chunk, mkEncoder (Err (bsecret (string s))) (emax e), w)
            else Some (Some chunk, mkEncoder (Ok s) (emax e), w)
        end
    | Err sec =>
        '(retval, w) ← if sec then OwnedBytes.secret (from_bytes Names.PLUS) w else Some (from_bytes Names.PLUS, w);
        Some (Some retval, none_left, w)
    end.

Definition drop_encoder (e : ChunkEncoder) (w : World) : option World :=
  match splitter e with Ok s => drop_bytes (string s) w | Err _ => Some w end.

(** A loop over what an encoder yields, which drops it at the end. *)
Fixpoint collect (fuel : nat) (e : ChunkEncoder) (w : World) : option (list Bytes * World) :=
  match fuel with
  | 0 => None
  | S fuel =>
      '(chunk, e, w) ← next e w;
      match chunk with
      | None => w ← drop_encoder e w; Some ([], w)
      | Some chunk => '(rest, w) ← collect fuel e w; Some (chunk :: rest, w)
      end
  end.

(** [ExactSizeIterator::len]. *)
Definition len (e : ChunkEncoder) : nat :=
  if emax e =? 0 then 0 else match splitter e with Ok s => slice_len (ahead s) / emax e + 1 | Err _ => 1 end.

Definition chunks (e : ChunkEncoder) (w : World) : option (list Bytes * World) := collect (S (len e)) e w.

Fixpoint drop_strings (bs : list Bytes) (w : World) : option World :=
  match bs with [] => Some w | b :: bs => w ← drop_bytes b w; drop_strings bs w end.

(** ** What is left in memory *)

(** What a block made since [h0] may hold, unless it is one of [own]: zeroes, or,
    for a string, one of the texts [T]; the blocks of [h0] are as they were. *)
Definition left_in (T : list byte -> Prop) (h0 h : Heap) (own : list nat) : Prop :=
  length h0 <= length h /\ (forall q, q < length h0 -> h !! q = h0 !! q) /\
  forall q b, length h0 <= q -> q ∉ own -> h !! q = Some b ->
    (exists n, b = zeroes n false) \/ exists t n, T t /\ cells b = (Some <$> t) ++ replicate n None.

(** The strings there are and their values, and the buffers [own] beside them;
    other memory is that of [h0]. *)
Definition state (T : list byte -> Prop) (h0 : Heap) (w : World) (bs : list Bytes) (cs : list BytesCell.Cell) (own : list nat) : Prop :=
  exists hs ks, inv w hs ks (own ++ seq 0 (length h0)) /\ omap id hs = bs /\ omap id ks = cs /\ left_in T h0 (heap w) own.

(** ** Lemmas *)

Lemma left_in_refl T h : left_in T h h [].
Proof. split; [done|]. split; [done|]. intros q b Hq _ Hb. apply lookup_lt_Some in Hb. lia. Qed.

Lemma left_in_grow T h0 h own b : left_in T h0 h own -> left_in T h0 (h ++ [b]) (length h :: own).
Proof.
  intros (Hl & Hold & Hnew). split; [rewrite length_app; lia|]. split.
  - intros q Hq. rewrite lookup_app_l by lia. by apply Hold.
  - intros q x Hq [Hne Ho]%not_elem_of_cons Hx. apply lookup_lt_Some in Hx as Hlt. rewrite length_app in Hlt. simpl in Hlt.
    rewrite lookup_app_l in Hx by lia. by apply (Hnew q).
Qed.

(** Writing to blocks that are excepted, some of which are fit to be left. *)
Lemma left_in_write T h0 h h' own own' : left_in T h0 h own -> length h' = length h ->
  Forall (fun p => length h0 <= p) own -> (forall q, q ∉ own -> h' !! q = h !! q) ->
  (forall q b, q ∈ own -> q ∉ own' -> h' !! q = Some b ->
    (exists n, b = zeroes n false) \/ exists t n, T t /\ cells b = (Some <$> t) ++ replicate n None) ->
  left_in T h0 h' own'.
Proof.
  intros (Hl & Hold & Hnew) Hlen Hge Ho Hfit. split; [lia|]. split.
  - intros q Hq. rewrite Ho; [by apply Hold|]. intros Hin. rewrite Forall_forall in Hge. specialize (Hge q Hin). lia.
  - intros q b Hq Hin Hb. destruct (decide (q ∈ own)) as [Hown|Hown]; [by apply (Hfit q)|]. rewrite Ho in Hb by done. by apply (Hnew q).
Qed.

(** A block of a string is freed. *)
Lemma left_in_free T h0 h own p c : left_in T h0 h own -> holds h p c -> length h0 <= p -> left_in T h0 (<[p := mkBlock c false]> h) own.
Proof.
  intros (Hl & Hold & Hnew) Hh Hp. pose proof (lookup_lt_Some _ _ _ Hh) as Hlt. split; [by rewrite length_insert|]. split.
  - intros q Hq. rewrite list_lookup_insert_ne by lia. by apply Hold.
  - intros q b Hq Hin Hb. destruct (decide (q = p)) as [->|Hne].
    + rewrite list_lookup_insert_eq in Hb by done. injection Hb as <-. destruct (Hnew p _ Hq Hin Hh) as [[n [=]]|Hn]. by right.
    + rewrite list_lookup_insert_ne in Hb by done. by apply (Hnew q).
Qed.

(** ** Strings and the memory beside them *)

(** Blocks that are not strings' may be written to. *)
Lemma inv_beside w hs ks vs h' : inv w hs ks vs -> length h' = length (heap w) ->
  (forall q, q ∉ vs -> h' !! q = heap w !! q) -> inv (with_heap w h') hs ks vs.
Proof.
  intros [Hr Hc Hb Hd Ho Hg Hl] Hlen Hq.
  assert (Hs : forall a c, owned_by w a c -> h' !! data (inner c) = heap w !! data (inner c)).
  { intros a c Ha. apply Hq. intros Hin. by apply (Ho _ a c Hin). }
  constructor; cbn [with_heap heap]; try done.
  - eapply Forall2_impl; [exact Hr|]. intros ob oc Hrel. inversion Hrel as [b k Hbk|]; constructor.
    eapply rel_frame; [exact Hbk|]. intros x y _ Hy. exists y. split; [done|]. split; [done|]. by apply (Hs x).
  - intros a c Ha. destruct (Hb a c Ha) as (l & Hh & Hlc). exists l. split; [|done]. unfold holds. cbn [heap]. by rewrite (Hs a).
  - intros p Hp. apply lookup_lt_is_Some. rewrite Hlen. by apply lookup_lt_is_Some, Hg.
  - intros p b Hp Hlive. destruct (decide (p ∈ vs)) as [Hin|Hin]; [by left|]. rewrite Hq in Hp by done. by apply (Hl p b).
Qed.

(** Blocks that were freed need not be listed. *)
Lemma inv_forget w hs ks vs vs' : inv w hs ks vs -> (forall q, q ∈ vs' -> q ∈ vs) ->
  (forall q b, q ∈ vs -> q ∉ vs' -> heap w !! q = Some b -> live b = false) -> inv w hs ks vs'.
Proof.
  intros [Hr Hc Hb Hd Ho Hg Hl] Hin Hdead. constructor; try done.
  - intros p a c Hp. apply Ho. by apply Hin.
  - intros p Hp. by apply Hg, Hin.
  - intros p b Hp Hlive. destruct (decide (p ∈ vs')) as [?|Hni]; [by left|]. destruct (Hl p b Hp Hlive) as [Hv|?]; [|by right].
    by rewrite (Hdead p b Hv Hni Hp) in Hlive.
Qed.

(** One of the strings, found in the table. *)
Lemma omap_split w hs ks b1 b b2 c1 c c2 :
  Forall2 (orel w) hs ks -> omap id hs = b1 ++ b :: b2 -> omap id ks = c1 ++ c :: c2 -> length b1 = length c1 ->
  exists i, hs !! i = Some (Some b) /\ ks !! i = Some (Some c) /\
    omap id (<[i := None]> hs) = b1 ++ b2 /\ omap id (<[i := None]> ks) = c1 ++ c2.
Proof.
  intros Hr. revert b1 c1. induction Hr as [|ob ok hs ks Ho Hr IH]; intros b1 c1; cbn [omap list_omap id]; [by destruct b1|].
  inversion Ho as [x y Hxy|]; subst; cbn [id].
  - destruct b1 as [|z b1], c1 as [|z' c1]; try done; cbn [app].
    + intros [= -> Hb] [= -> Hk] _. by exists 0.
    + intros [= -> Hb] [= -> Hk] [= Hl]. destruct (IH b1 c1 Hb Hk Hl) as (i & H1 & H2 & H3 & H4). exists (S i).
      split; [exact H1|]. split; [exact H2|]. split; [exact (f_equal (cons _) H3)|exact (f_equal (cons _) H4)].
  - intros Hb Hk Hl. destruct (IH b1 c1 Hb Hk Hl) as (i & H1 & H2 & H3 & H4). exists (S i). by split.
Qed.

Lemma state_rel T h0 w bs cs own : state T h0 w bs cs own -> Forall2 (rel w) bs cs.
Proof.
  intros (hs & ks & Hi & <- & <- & _). pose proof (inv_rel _ _ _ _ Hi) as Hr. clear Hi.
  induction Hr as [|ob ok hs ks Ho Hr IH]; [constructor|]. inversion Ho; subst; cbn; [by constructor|done].
Qed.

Lemma state_lt T h0 w bs cs own : state T h0 w bs cs own -> forall q, q ∈ own -> q < length (heap w).
Proof. intros (hs & ks & Hi & _) q Hq. apply (inv_given_lt _ _ _ _ _ Hi), elem_of_app. by left. Qed.

Lemma state_start T h : state T h (mkWorld h []) [] [] [].
Proof.
  exists [], []. split; [|split; [done|split; [done|apply left_in_refl]]]. cbn [app].
  assert (Hno : forall a c, ~ owned_by (mkWorld h []) a c) by (by intros a c [Hc _]; cbn in Hc; rewrite lookup_nil in Hc).
  constructor; try done; try (intros; exfalso; by eapply Hno).
  - intros p Hp%elem_of_seq. apply lookup_lt_is_Some. cbn. lia.
  - intros p b Hp _. left. apply elem_of_seq. apply lookup_lt_Some in Hp. cbn in Hp. lia.
Qed.

(** Buffers are written to, and given up once they are fit to be left. *)
Lemma state_write T h0 w bs cs own own' h' :
  state T h0 w bs cs own -> Forall (fun p => length h0 <= p) own -> length h' = length (heap w) ->
  (forall q, q ∉ own -> h' !! q = heap w !! q) -> (forall q, q ∈ own' -> q ∈ own) ->
  (forall q b, q ∈ own -> q ∉ own' -> h' !! q = Some b -> exists n, b = zeroes n false) ->
  state T h0 (with_heap w h') bs cs own'.
Proof.
  intros (hs & ks & Hi & Hb & Hk & Hl) Hge Hlen Hq Hin Hz. exists hs, ks. split; [|split; [done|split; [done|]]].
  - eapply inv_forget; [eapply inv_beside; [exact Hi|exact Hlen|]| |].
    + intros q [Hno _]%not_elem_of_app. by apply Hq.
    + intros q [Hq'|Hq']%elem_of_app; apply elem_of_app; [left; by apply Hin|by right].
    + intros q b [Ho|Ho]%elem_of_app [Hn Hns]%not_elem_of_app Hqb; [|done]. by destruct (Hz q b Ho Hn Hqb) as [n ->].
  - cbn [with_heap heap]. eapply left_in_write; [exact Hl|done|done|done|]. intros q b Ho Hn Hqb. left. by apply (Hz q).
Qed.

Lemma state_same T h0 w bs cs own own' : state T h0 w bs cs own -> (forall q, q ∈ own <-> q ∈ own') -> state T h0 w bs cs own'.
Proof.
  intros (hs & ks & Hi & Hb & Hk & Hl & Hold & Hnew) Ho. exists hs, ks. split; [|split; [done|split; [done|split; [done|split; [done|]]]]].
  - eapply inv_forget; [exact Hi| |].
    + intros q Hq. apply elem_of_app. apply elem_of_app in Hq as [Hq|Hq]; [left; by apply Ho|by right].
    + intros q b Hq Hn. destruct Hn. apply elem_of_app. apply elem_of_app in Hq as [Hq|Hq]; [left; by apply Ho|by right].
  - intros q b Hq Hn. apply Hnew; [done|]. intros Hin. by apply Hn, Ho.
Qed.

(** A new block beside the strings. *)
Lemma state_grow T h0 w bs cs own blk : state T h0 w bs cs own -> state T h0 (with_heap w (heap w ++ [blk])) bs cs (length (heap w) :: own).
Proof.
  intros (hs & ks & Hi & Hb & Hk & Hl). exists hs, ks. split; [|split; [done|split; [done|by apply left_in_grow]]].
  apply inv_grow with (vs := own ++ seq 0 (length h0)); [done|by right].
Qed.

Lemma state_len T h0 w bs cs own : state T h0 w bs cs own -> length h0 <= length (heap w).
Proof. by intros (? & ? & _ & _ & _ & Hl & _). Qed.

(** ** What happens to the strings *)

(** The buffers beside them are as they were. *)
Definition kept (own : list nat) (w w' : World) : Prop := forall q, q ∈ own -> heap w' !! q = heap w !! q.

Lemma kept_trans own w1 w2 w3 : kept own w1 w2 -> kept own w2 w3 -> kept own w1 w3.
Proof. intros H1 H2 q Hq. by rewrite (H2 q Hq), (H1 q Hq). Qed.

Lemma kept_grow own w b : (forall q, q ∈ own -> q < length (heap w)) -> kept own w (with_heap w (heap w ++ [b])).
Proof. intros Hlt q Hq. cbn [with_heap heap]. by apply lookup_app_l, Hlt. Qed.

(** Dropping a string frees the block of its arc or none. *)
Lemma drop_bytes_heap b w w' : drop_bytes b w = Some w' ->
  heap w' = heap w \/ exists a arc c, owned_by w a arc /\ holds (heap w) (data (inner arc)) c /\
    heap w' = <[data (inner arc) := mkBlock c false]> (heap w).
Proof.
  unfold drop_bytes, thin_drop, thin_ref. destruct (bowner b) as [a|]; [|intros [= <-]; by left].
  destruct (arcs w !! a) as [arc|] eqn:Ha; [|done]. cbn [mbind option_bind]. destruct (alive arc) eqn:Hal; [|done]. cbn [mbind option_bind].
  destruct (rc arc =? 1); [|intros [= <-]; by left]. unfold drop_owned, free.
  destruct (heap w !! data (inner arc)) as [[c lv]|] eqn:Hb; [|done]. cbn [mbind option_bind live cells]. destruct lv; [|done].
  intros [= <-]. right. by exists a, arc, c.
Qed.

Lemma state_drop T h0 w b1 b b2 c1 c c2 own : state T h0 w (b1 ++ b :: b2) (c1 ++ c :: c2) own -> length b1 = length c1 ->
  exists w', drop_bytes b w = Some w' /\ state T h0 w' (b1 ++ b2) (c1 ++ c2) own /\ kept own w w'.
Proof.
  intros (hs & ks & Hi & Hb & Hk & Hl) Hlen. destruct (omap_split w hs ks _ _ _ _ _ _ (inv_rel _ _ _ _ Hi) Hb Hk Hlen) as (i & H1 & H2 & H3 & H4).
  destruct (inv_drop w hs ks _ i b Hi H1) as (w' & Hd & Hi'). exists w'. split; [done|].
  assert (Hne : forall a arc q, owned_by w a arc -> q ∈ own ++ seq 0 (length h0) -> data (inner arc) <> q).
  { intros a arc q Ha Hq. exact (inv_out _ _ _ _ Hi q a arc Hq Ha). }
  split; [|intros q Hq; destruct (drop_bytes_heap _ _ _ Hd) as [->|(a & arc & c' & Ha & Hh & ->)]; [done|];
    apply list_lookup_insert_ne, (Hne a arc); [done|by apply elem_of_app; left]].
  exists (<[i := None]> hs), (<[i := None]> ks). split; [done|]. split; [done|]. split; [done|]. destruct (drop_bytes_heap _ _ _ Hd) as [->|(a & arc & c' & Ha & Hh & ->)]; [done|].
  apply left_in_free; [done|done|]. destruct (Nat.le_gt_cases (length h0) (data (inner arc))) as [?|Hlt]; [done|]. exfalso.
  apply (Hne a arc (data (inner arc)) Ha); [|done]. apply elem_of_app. right. apply elem_of_seq. lia.
Qed.

(** A string more that shares what another owns. *)
Lemma state_share T h0 w bs cs own b c : state T h0 w bs cs own -> rel w b c ->
  exists w', clone_owner (bowner b) w = Some w' /\ state T h0 w' (bs ++ [b]) (cs ++ [c]) own /\ heap w' = heap w.
Proof.
  intros (hs & ks & Hi & <- & <- & Hl) Hr. destruct (inv_share w hs ks _ b c Hi Hr) as (w' & Hc & Hi').
  assert (Hh : heap w' = heap w).
  { unfold clone_owner, thin_clone, thin_ref in Hc. destruct (bowner b) as [a|]; [|by injection Hc as <-].
    destruct (arcs w !! a) as [arc|]; [|done]. cbn [mbind option_bind] in Hc. destruct (alive arc); [|done]. by injection Hc as <-. }
  exists w'. split; [done|]. split; [|done]. exists (hs ++ [Some b]), (ks ++ [Some c]). split; [done|]. rewrite !omap_app, Hh. by split.
Qed.

(** A block of text that no string needs is freed. *)
Lemma state_release T h0 w bs cs own p l n : state T h0 w bs cs (p :: own) -> T l -> length h0 <= p ->
  holds (heap w) p ((Some <$> l) ++ replicate n None) ->
  state T h0 (with_heap w (<[p := mkBlock ((Some <$> l) ++ replicate n None) false]> (heap w))) bs cs own.
Proof.
  intros (hs & ks & Hi & Hb & Hk & Hl) Ht Hge Hh. pose proof (lookup_lt_Some _ _ _ Hh) as Hlt.
  exists hs, ks. split; [|split; [done|split; [done|]]].
  - eapply inv_forget; [eapply inv_beside; [exact Hi|by rewrite length_insert|]| |].
    + intros q [Hq _]%not_elem_of_app. apply not_elem_of_cons in Hq as [Hq _]. by rewrite list_lookup_insert_ne.
    + intros q Hq. by apply elem_of_cons; right.
    + intros q b Hq Hnq Hb'. cbn [app] in Hq. apply elem_of_cons in Hq as [->|Hq]; [|done]. cbn [with_heap heap] in Hb'.
      rewrite list_lookup_insert_eq in Hb' by done. by injection Hb' as <-.
  - cbn [with_heap heap]. pose proof Hl as (Hlen & Hold & Hnew).
    split; [by rewrite length_insert|]. split; [intros q Hq; rewrite list_lookup_insert_ne by lia; by apply Hold|].
    intros q b Hq Hnq Hb'. destruct (decide (q = p)) as [->|Hne].
    + rewrite list_lookup_insert_eq in Hb' by done. injection Hb' as <-. right. by exists l, n.
    + rewrite list_lookup_insert_ne in Hb' by done. apply (Hnew q); [done|by apply not_elem_of_cons|done].
Qed.

(** A block that text is written to becomes a string's. *)
Lemma state_adopt T h0 w bs cs own v l sec c :
  state T h0 w bs cs (vptr v :: own) -> T l -> vptr v ∉ own -> length h0 <= vptr v -> vlen v = length l ->
  holds (heap w) (vptr v) ((Some <$> l) ++ replicate (vcap v - length l) None) -> length l <= vcap v ->
  BytesCell.cvalue c = l -> BytesCell.ownership c = BytesCell.owned_from_vec l -> BytesCell.secret_ c = sec ->
  exists b w', bytes_of_vec sec v w = Some (b, w') /\ state T h0 w' (bs ++ [b]) (cs ++ [c]) own /\ kept own w w' /\
    bvalue b = match l with [] => Static [] | _ => Mem (vptr v) 0 (length l) end.
Proof.
  intros Hst Ht Hni Hge Hvl Hh Hcap Hv Ho Hs. unfold bytes_of_vec, owned_from_vec. rewrite Hvl. destruct l as [|x l]; cbn [length Nat.eqb].
  - rewrite (free_holds _ _ _ Hh). cbn [mbind option_bind]. eexists _, _. split; [reflexivity|].
    pose proof (state_release _ _ _ _ _ _ _ [] _ Hst Ht Hge Hh) as Hst'.
    destruct (state_share _ _ _ _ _ _ (mkBytes (Static []) None sec) c Hst') as (w' & [= <-] & Hst'' & _).
    { unfold rel. cbn. rewrite Hv, Ho, Hs. by split_and!. }
    split; [exact Hst''|]. split; [|done]. intros q Hq. cbn [with_heap heap]. rewrite list_lookup_insert_ne; [done|]. by intros <-.
  - destruct Hst as (hs & ks & Hi & Hb & Hk & Hl). cbn [Memory.from_vec thin_new]. rewrite Hvl. eexists _, _. split; [reflexivity|]. split; [|by split].
    exists (hs ++ [Some (mkBytes (as_slice (mkOwned (vptr v) (vcap v)) (length (x :: l))) (Some (length (arcs w))) sec)]), (ks ++ [Some c]).
    rewrite !omap_app, Hb, Hk. split; [|split; [done|split; [done|]]].
    + pose proof (inv_adopt w hs ks (own ++ seq 0 (length h0)) (mkOwned (vptr v) (vcap v)) ((Some <$> x :: l) ++ replicate (vcap v - length (x :: l)) None)
        (mkBytes (as_slice (mkOwned (vptr v) (vcap v)) (length (x :: l))) (Some (length (arcs w))) sec) c Hi) as Ha.
      cbn [thin_new snd data capacity] in Ha. apply Ha; [|done| |done|].
      * intros [?|Hin%elem_of_seq]%elem_of_app; [done|lia].
      * rewrite length_app, length_fmap, length_replicate. lia.
      * unfold rel. cbn [bvalue bowner bsecret is_owning as_slice data heap arcs]. rewrite Hv, Ho, Hs. split; [|split; [done|split; [done|]]].
        -- apply (slice_get_spec _ _ _ _ _ _ Hh); [|rewrite length_app, length_fmap; lia].
           rewrite drop_0. apply take_app_length'. by rewrite length_fmap.
        -- eexists (mkArc 1 (mkOwned (vptr v) (vcap v)) true), 0, (length (x :: l)). split; [|split; [done|cbn; lia]].
           split; [|done]. cbn [arcs]. by rewrite lookup_app_r, Nat.sub_diag by lia.
    + cbn [heap]. destruct Hl as (Hlen & Hold & Hnew). split; [done|]. split; [done|]. intros q b Hq Hnq Hb'.
      destruct (decide (q = vptr v)) as [->|Hne]; [|apply (Hnew q); [done|by apply not_elem_of_cons|done]].
      unfold holds in Hh. rewrite Hh in Hb'. injection Hb' as <-. right. by exists (x :: l), (vcap v - length (x :: l)).
Qed.

(** [secret] over a string that owns what it holds copies it and drops it. *)
Lemma state_secret T h0 w bs cs own b c l :
  state T h0 w (bs ++ [b]) (cs ++ [c]) own -> length bs = length cs -> T l -> BytesCell.cvalue c = l -> l <> [] ->
  BytesCell.ownership c = true -> BytesCell.secret_ c = false ->
  exists p b' w', OwnedBytes.secret b w = Some (b', w') /\ state T h0 w' (bs ++ [b']) (cs ++ [BytesCell.owning_force true c]) own /\
    kept own w w' /\ bvalue b' = Mem p 0 (length l).
Proof.
  intros Hst Hlen Ht Hv Hl Ho Hs. pose proof (state_rel _ _ _ _ _ _ Hst) as Hr. apply Forall2_app_inv in Hr as [_ Hr]; [|done].
  apply Forall2_cons in Hr as [(Hg & Hio & Hbs & _) _]. unfold OwnedBytes.secret, owning_force. rewrite Hio, Hbs, Hs, Ho.
  cbn [negb andb]. rewrite Hg, Hv. cbn [mbind option_bind]. rewrite to_vec_spec. cbn [mbind option_bind].
  pose proof (state_len _ _ _ _ _ _ Hst) as Hge.
  pose proof (state_lt _ _ _ _ _ _ Hst) as Hlt.
  assert (Hni : length (heap w) ∉ own) by (intros Hin; specialize (Hlt _ Hin); lia).
  apply (state_grow _ _ _ _ _ _ (mkBlock ((Some <$> l) ++ replicate (cap_for (length l) - length l) None) true)) in Hst.
  destruct (state_adopt T h0 _ _ _ own (mkVec (length (heap w)) (length l) (cap_for (length l))) l true (BytesCell.owning_force true c) Hst Ht Hni Hge eq_refl)
    as (b' & w' & Hbv & Hst' & Hk' & Hbval); [apply vec_block_holds|apply cap_for_ok|done|by rewrite <- Hv|done|].
  rewrite Hbv. cbn [mbind option_bind]. rewrite <- !app_assoc in Hst'. cbn [app] in Hst'.
  destruct (state_drop _ _ _ _ _ _ _ _ _ _ Hst' Hlen) as (w2 & -> & Hst2 & Hk2). cbn [mbind option_bind].
  exists (length (heap w)), b', w2. split; [done|]. split; [done|]. split.
  { eapply kept_trans; [|exact Hk2]. eapply kept_trans; [|exact Hk']. apply kept_grow. intros q Hq. exact (Hlt q Hq). }
  rewrite Hbval. by destruct l.
Qed.

(** ** The loop *)

(** An encoder with text [l] left, its string between the others. *)
Definition running (T : list byte -> Prop) (h0 : Heap) (w : World) (own : list nat) (max : nat) (sec : bool)
    (b1 b2 : list Bytes) (c1 c2 : list BytesCell.Cell) (e : ChunkEncoder) (l : list byte) : Prop :=
  emax e = max /\ length b1 = length c1 /\
  match splitter e with
  | Ok s => l <> [] /\ exists c p off m, state T h0 w (b1 ++ string s :: b2) (c1 ++ c :: c2) own /\
      bvalue (string s) = Mem p 0 m /\ ahead s = Mem p off (m - off) /\ off <= m /\
      length (BytesCell.cvalue c) = m /\ drop off (BytesCell.cvalue c) = l /\ BytesCell.secret_ c = sec
  | Err x => l = [] /\ x = sec /\ state T h0 w (b1 ++ b2) (c1 ++ c2) own
  end.

Lemma state_using T h0 w b1 b b2 c1 c c2 own off n : state T h0 w (b1 ++ b :: b2) (c1 ++ c :: c2) own -> length b1 = length c1 ->
  exists b' w', using_value b (sub_slice (bvalue b) off n) w = Some (b', w') /\ heap w' = heap w /\ bvalue b' = sub_slice (bvalue b) off n /\
    state T h0 w' (b1 ++ b :: b2 ++ [b']) (c1 ++ c :: c2 ++ [BytesCell.using_value c (cut off n (BytesCell.cvalue c)) PRecheck]) own.
Proof.
  intros Hst Hlen. pose proof (state_rel _ _ _ _ _ _ Hst) as Hr. apply Forall2_app_inv in Hr as [_ Hr]; [|done].
  apply Forall2_cons in Hr as [Hr _]. pose proof (using_value_rel w b c off n Hr) as Hu. cbv zeta in Hu.
  destruct (state_share _ _ _ _ _ _ _ _ Hst Hu) as (w' & Hc & Hst' & Hh). rewrite <- !app_assoc in Hst'. cbn [bowner] in Hc.
  unfold using_value. rewrite Hc. cbn [mbind option_bind]. by eexists _, _.
Qed.

Lemma value_at T h0 w b1 b b2 c1 c c2 own : state T h0 w (b1 ++ b :: b2) (c1 ++ c :: c2) own -> length b1 = length c1 ->
  slice_get (bvalue b) (heap w) = Some (BytesCell.cvalue c) /\ bsecret b = BytesCell.secret_ c.
Proof.
  intros Hst Hlen. pose proof (state_rel _ _ _ _ _ _ Hst) as Hr. apply Forall2_app_inv in Hr as [_ Hr]; [|done].
  apply Forall2_cons in Hr as [(Hg & _ & Hs & _) _]. done.
Qed.

Lemma plus_spec T h0 w bs cs own (sec : bool) : state T h0 w bs cs own ->
  exists b c, (if sec then OwnedBytes.secret (from_bytes Names.PLUS) w else Some (from_bytes Names.PLUS, w)) = Some (b, w) /\
    BytesCell.cvalue c = Names.PLUS /\ BytesCell.secret_ c = sec /\ state T h0 w (bs ++ [b]) (cs ++ [c]) own.
Proof.
  intros Hst. exists (mkBytes (Static Names.PLUS) None sec), (BytesCell.mkCell Names.PLUS false 0 sec). split; [by destruct sec|].
  split; [done|]. split; [done|].
  destruct (state_share _ _ _ _ _ _ (mkBytes (Static Names.PLUS) None sec) (BytesCell.mkCell Names.PLUS false 0 sec) Hst) as (w' & [= <-] & Hst' & _);
    [by split_and!|exact Hst'].
Qed.

Lemma running_next T h0 w own max sec b1 b2 c1 c2 (e : ChunkEncoder) l :
  0 < max -> running T h0 w own max sec b1 b2 c1 c2 e l -> Forall (fun c => Base64.is_base64 c = true) l ->
  exists chunk k e' w', next e w = Some (Some chunk, e', w') /\ BytesCell.secret_ k = sec /\
    kept own w w' /\ BytesCell.cvalue k = match l with [] => bs "+" | _ => take max l end /\
    if length l <? max then e' = none_left /\ state T h0 w' (b1 ++ b2 ++ [chunk]) (c1 ++ c2 ++ [k]) own
    else running T h0 w' own max sec b1 (b2 ++ [chunk]) c1 (c2 ++ [k]) e' (drop max l).
Proof.
  intros Hm (He & Hlen & Hs) Hb. unfold next. rewrite He. destruct (Nat.eqb_spec max 0); [lia|]. destruct (splitter e) as [s|x].
  - destruct Hs as (Hl & c & p & off & m & Hst & Hv & Ha & Hoff & Hcl & Hd & Hsec).
    assert (Hll : length l = m - off) by (rewrite <- Hd, length_drop; lia).
    assert (Hslice : sub_slice (ahead s) 0 max = sub_slice (bvalue (string s)) off max) by (rewrite Ha, Hv; cbn; f_equal; lia).
    assert (Hcut : cut off max (BytesCell.cvalue c) = take max l) by (unfold cut; by rewrite Hd).
    destruct (value_at _ _ _ _ _ _ _ _ _ _ Hst Hlen) as [Hg Hbs]. rewrite Hslice, (sub_slice_get _ off max _ _ Hg). cbn [mbind option_bind].
    rewrite Hcut. assert (Hok : Strings.check_others Strings.Arg (take max l) = None).
    { assert (Hval : Strings.valid Strings.Arg (take max l)) by (apply Base64.base64_arg; [by destruct max, l|by apply Forall_take]).
      by apply Strings.valid_iff in Hval as [? _]. }
    rewrite Hok. destruct (state_using _ _ _ _ _ _ _ _ _ _ off max Hst Hlen) as (b' & w1 & Hu & Hh & Hbv & Hst1). rewrite Hu. cbn [mbind option_bind].
    rewrite Hcut in Hst1. set (k := BytesCell.using_value c (take max l) PRecheck) in *.
    assert (Hk : BytesCell.secret_ k = sec /\ BytesCell.cvalue k = take max l) by (split; [exact Hsec|done]). destruct Hk as [Hk1 Hk2].
    destruct (state_drop _ _ _ _ _ _ _ _ _ _ Hst1 Hlen) as (w2 & Hdr & Hst2 & Hk3).
    assert (Hk0 : kept own w w1) by (intros q _; by rewrite Hh). pose proof (kept_trans _ _ _ _ Hk0 Hk3) as Hk4.
    rewrite Hbv, Hv, Ha. cbn [sub_slice slice_len ahead string].
    assert (Hlt : (max `min` (m - off) <? max) = (length l <? max)) by (rewrite Hll; destruct (Nat.ltb_spec (m - off) max), (Nat.ltb_spec (max `min` (m - off)) max); lia).
    rewrite Hlt. destruct (Nat.ltb_spec (length l) max) as [Hshort|Hlong].
    + rewrite Hdr. cbn [mbind option_bind]. exists b', k, none_left, w2. split; [done|]. split; [done|]. split; [done|]. split; [by destruct l|]. by split.
    + destruct (Nat.eqb_spec ((m - off) `min` (m - off - max)) 0) as [H0'|H0'].
      * rewrite Hdr. cbn [mbind option_bind]. eexists b', k, _, w2. split; [done|]. split; [done|]. split; [done|]. split; [by destruct l|].
        split; [done|]. split; [done|]. cbn [splitter]. split; [apply drop_ge; lia|]. split; [by rewrite Hbs|done].
      * eexists b', k, _, w1. split; [done|]. split; [done|]. split; [done|]. split; [by destruct l|]. split; [done|]. split; [done|]. cbn [splitter string ahead].
        split; [intros E0; apply (f_equal length) in E0; rewrite length_drop in E0; simpl in E0; lia|].
        exists c, p, (off + max), m. split; [exact Hst1|]. split; [done|]. split; [f_equal; lia|]. split; [lia|]. split; [done|].
        split; [|done]. by rewrite <- Hd, drop_drop.
  - destruct Hs as (-> & -> & Hst). destruct (plus_spec _ _ _ _ _ _ sec Hst) as (b & c & -> & Hc & Hsec & Hst'). cbn [mbind option_bind].
    exists b, c, none_left, w. split; [done|]. split; [done|]. split; [done|]. split; [done|]. cbn [length]. destruct (Nat.ltb_spec 0 max); [|lia].
    split; [done|]. by rewrite <- !app_assoc in Hst'.
Qed.

Lemma len_running T h0 w own max sec b1 b2 c1 c2 (e : ChunkEncoder) l :
  0 < max -> running T h0 w own max sec b1 b2 c1 c2 e l -> len e = length l / max + 1.
Proof.
  intros Hm (He & _ & Hs). unfold len. rewrite He. destruct (Nat.eqb_spec max 0); [lia|]. destruct (splitter e) as [s|x].
  - destruct Hs as (_ & c & p & off & m & _ & _ & -> & Hoff & Hcl & <- & _). cbn [slice_len]. by rewrite length_drop, Hcl.
  - destruct Hs as [-> _]. by rewrite Nat.Div0.div_0_l.
Qed.

Lemma collect_running T h0 own max sec b1 c1 fuel : 0 < max -> forall w b2 c2 (e : ChunkEncoder) l,
  running T h0 w own max sec b1 b2 c1 c2 e l -> Forall (fun c => Base64.is_base64 c = true) l -> length l / max + 1 < fuel ->
  exists bs ks w', collect fuel e w = Some (bs, w') /\ state T h0 w' (b1 ++ b2 ++ bs) (c1 ++ c2 ++ ks) own /\ kept own w w' /\
    BytesCell.cvalue <$> ks = Base64.split_chunks (length l / max + 1) max l /\ Forall (fun k => BytesCell.secret_ k = sec) ks.
Proof.
  intros Hm. induction fuel as [|fuel IH]; intros w b2 c2 e l He Hb Hf; [lia|]. cbn [collect].
  destruct (running_next _ _ _ _ _ _ _ _ _ _ _ _ Hm He Hb) as (b & k & e' & w1 & -> & Hsec & Hk & Hv & Hn). cbn [mbind option_bind].
  destruct (Nat.ltb_spec (length l) max) as [Hlt|Hge].
  - destruct Hn as [-> Hst]. rewrite (Nat.div_small _ _ Hlt) in *. destruct fuel; [lia|]. cbn [collect]. unfold next, drop_encoder.
    cbn [none_left emax Nat.eqb mbind option_bind splitter]. exists [b], [k], w1. split; [done|]. split; [done|]. split; [done|]. split; [|by constructor].
    cbn [fmap list_fmap Base64.split_chunks Nat.add]. rewrite Hv. destruct l as [|x l]; [done|]. destruct (Nat.ltb_spec (length (x :: l)) max); [done|lia].
  - assert (Hd : length l / max = S (length (drop max l) / max)).
    { rewrite length_drop. replace (length l) with (1 * max + (length l - max)) at 1 by lia. by rewrite Nat.div_add_l by lia. }
    destruct (IH _ _ _ _ _ Hn (Forall_drop _ _ _ Hb) ltac:(lia)) as (bs & ks & w' & -> & Hst & Hk' & Hvs & Hss). cbn [mbind option_bind].
    exists (b :: bs), (k :: ks), w'. split; [done|]. split; [by rewrite <- !app_assoc in Hst|].
    split; [by eapply kept_trans|]. split; [|by constructor].
    rewrite Hd. cbn [fmap list_fmap Base64.split_chunks Nat.add]. rewrite Hv, Hvs.
    destruct l as [|x l]; [simpl in Hge; lia|]. destruct (Nat.ltb_spec (length (x :: l)) max); [lia|done].
Qed.

(** The buffer is gone once it is encoded, and all that holds the text is the
    encoder's. *)
Lemma new_running T h0 w bs cs own buf l max : 0 < max ->
  state T h0 w bs cs (data (sdata buf) :: own) -> buf_holds buf (heap w) l -> T (Base64.encode l) ->
  Forall (fun p => length h0 <= p) (data (sdata buf) :: own) -> data (sdata buf) ∉ own ->
  exists e w', new buf max true w = Some (e, w') /\ kept own w w' /\
    running T h0 w' own max true bs [] cs [] e (Base64.encode l).
Proof.
  intros Hm Hst Hbuf Ht Hge Hni. unfold new, encode_buf. destruct (Nat.eqb_spec max 0); [lia|].
  rewrite (buf_as_ref _ _ _ Hbuf). cbn [mbind option_bind]. rewrite to_vec_spec. cbn [mbind option_bind].
  assert (Hlen : length bs = length cs) by (eapply Forall2_length, state_rel, Hst).
  pose proof (state_len _ _ _ _ _ _ Hst) as Hh0. set (text := Base64.encode l) in *.
  assert (Hp : data (sdata buf) < length (heap w)) by (destruct Hbuf as (c & Hh & _); by eapply lookup_lt_Some).
  assert (Hfresh : length (heap w) ∉ own).
  { intros Hin. pose proof (state_lt _ _ _ _ _ _ Hst (length (heap w)) (list_elem_of_further _ _ _ Hin)). lia. }
  set (blk := mkBlock ((Some <$> text) ++ replicate (cap_for (length text) - length text) None) true).
  assert (Hbuf' : buf_holds buf (heap w ++ [blk]) l).
  { destruct Hbuf as (c & Hh & Hc). exists c. split; [|done]. unfold holds. by rewrite lookup_app_l. }
  rewrite (drop_secret_holds _ _ _ Hbuf'). cbn [mbind option_bind].
  assert (Hk0 : kept own w (with_heap w (<[data (sdata buf) := zeroes (capacity (sdata buf)) false]> (heap w ++ [blk])))).
  { intros q Hq. cbn [with_heap heap]. rewrite list_lookup_insert_ne by (by intros <-). apply lookup_app_l.
    by apply (state_lt _ _ _ _ _ _ Hst), list_elem_of_further. }
  apply (state_grow _ _ _ _ _ _ blk) in Hst.
  assert (Hst1 : state T h0 (with_heap w (<[data (sdata buf) := zeroes (capacity (sdata buf)) false]> (heap w ++ [blk]))) bs cs (length (heap w) :: own)).
  { eapply (state_write _ _ (with_heap w (heap w ++ [blk]))); [exact Hst|by constructor|by rewrite length_insert| | |].
    - intros q [_ [Hq _]%not_elem_of_cons]%not_elem_of_cons. by rewrite list_lookup_insert_ne.
    - intros q. rewrite !elem_of_cons. naive_solver.
    - intros q b Hq Hnq Hb. rewrite !elem_of_cons in Hq. rewrite elem_of_cons in Hnq. destruct Hq as [->|[->|Hq]]; [naive_solver| |naive_solver].
      rewrite list_lookup_insert_eq in Hb by (rewrite length_app; simpl; lia). injection Hb as <-. by eexists. }
  set (v := mkVec (length (heap w)) (length text) (cap_for (length text))).
  destruct (state_adopt T h0 _ bs cs own v text false (BytesCell.from_vec text) Hst1 Ht Hfresh Hh0 eq_refl) as (b & w1 & Hbv & Hst2 & Hk1 & Hbval);
    [unfold holds; cbn [with_heap heap vptr v]; by rewrite list_lookup_insert_ne, lookup_app_r, Nat.sub_diag by lia|apply cap_for_ok|done..|].
  unfold from_vec_b. rewrite Hbv. cbn [mbind option_bind]. rewrite Hbval. destruct text as [|x text'] eqn:Etext.
  - cbn [slice_len length Nat.eqb negb].
    assert (Hst3 : state T h0 w1 (bs ++ b :: []) (cs ++ BytesCell.from_vec [] :: []) own) by done.
    destruct (state_drop _ _ _ _ _ _ _ _ _ _ Hst3 Hlen) as (w2 & -> & Hst4 & Hk2). cbn [mbind option_bind]. eexists _, w2. split; [done|].
    split; [by do 2 (eapply kept_trans; [|done])|].
    split; [done|]. split; [done|]. by split.
  - cbn [slice_len length Nat.eqb negb].
    destruct (state_secret _ _ _ _ _ _ _ _ (x :: text') Hst2 Hlen Ht eq_refl ltac:(done) eq_refl eq_refl) as (p & b' & w2 & -> & Hst3 & Hk2 & Hv3).
    cbn [mbind option_bind]. eexists _, w2. split; [done|].
    split; [by do 2 (eapply kept_trans; [|done])|]. split; [done|]. split; [done|]. cbn [splitter string ahead]. split; [done|].
    exists (BytesCell.owning_force true (BytesCell.from_vec (x :: text'))), p, 0, (length (x :: text')). rewrite Hv3. split; [exact Hst3|].
    split; [done|]. split; [by rewrite Nat.sub_0_r|]. split; [lia|]. by split.
Qed.

(** A buffer in chunks is what [Base64] says, each secret. *)
Lemma chunks_in_memory `{!Base64.EngineOk E} T h0 w bs cs own buf l max : 0 < max ->
  state T h0 w bs cs (data (sdata buf) :: own) -> buf_holds buf (heap w) l -> T (Base64.encode l) ->
  Forall (fun p => length h0 <= p) (data (sdata buf) :: own) -> data (sdata buf) ∉ own ->
  exists e w1 chs w' ks strs, new buf max true w = Some (e, w1) /\ chunks e w1 = Some (chs, w') /\
    state T h0 w' (bs ++ chs) (cs ++ ks) own /\ kept own w w' /\ Base64.chunks (Base64.new l max true) = Some strs /\
    BytesCell.cvalue <$> ks = Splitter.value <$> strs /\ Forall (fun k => BytesCell.secret_ k = true) ks.
Proof.
  intros Hm Hst Hbuf Ht Hge Hni. destruct (new_running _ _ _ _ _ _ _ _ max Hm Hst Hbuf Ht Hge Hni) as (e & w1 & Hnew & Hk1 & Hrun).
  pose proof (Base64.encode_bytes l) as Hb. pose proof (len_running _ _ _ _ _ _ _ _ _ _ _ _ Hm Hrun) as Hlen.
  destruct (collect_running _ _ _ _ _ _ _ (S (len e)) Hm _ _ _ _ _ Hrun Hb ltac:(lia)) as (chs & ks & w' & Hc & Hst' & Hk2 & Hv & Hsec).
  pose proof (Base64.new_holds l max true Hm) as Hh. pose proof (Base64.len_holds _ _ _ _ Hm Hh) as Hlen'.
  destruct (Base64.collect_holds (S (Base64.len (Base64.new l max true))) _ _ _ _ Hm Hh Hb ltac:(lia)) as (strs & Hs & Hvs & _).
  exists e, w1, chs, w', ks, strs. split; [done|]. split; [exact Hc|]. split; [exact Hst'|]. split; [by eapply kept_trans|].
  split; [exact Hs|]. split; [by rewrite Hv, Hvs|done].
Qed.

(** Strings dropped in any order. *)
Lemma drop_strings_state T h0 own order : forall w bs cs, state T h0 w bs cs own -> order ≡ₚ bs ->
  exists w', drop_strings order w = Some w' /\ state T h0 w' [] [] own.
Proof.
  induction order as [|b order IH]; intros w bs cs Hst Hperm.
  - apply Permutation_nil_l in Hperm as <-. destruct cs; [by exists w|]. apply state_rel in Hst. by inversion Hst.
  - assert (Hin : b ∈ bs) by (rewrite <- Hperm; by left). apply list_elem_of_split in Hin as (b1 & b2 & ->).
    pose proof (state_rel _ _ _ _ _ _ Hst) as Hr. apply Forall2_app_inv_l in Hr as (c1 & c2' & Hr1 & Hr2 & ->).
    apply Forall2_cons_inv_l in Hr2 as (c & c2 & _ & _ & ->).
    destruct (state_drop _ _ _ _ _ _ _ _ _ _ Hst (Forall2_length _ _ _ Hr1)) as (w1 & Hd & Hst1 & _). cbn [drop_strings]. rewrite Hd. cbn [mbind option_bind].
    apply (IH _ _ _ Hst1). rewrite <- Permutation_middle in Hperm. by apply Permutation_cons_inv in Hperm.
Qed.

(** When no string is left, the blocks made since are freed. *)
Lemma state_freed T h0 w : state T h0 w [] [] [] ->
  length h0 <= length (heap w) /\ (forall q, q < length h0 -> heap w !! q = h0 !! q) /\
  forall q b, length h0 <= q -> heap w !! q = Some b ->
    live b = false /\ ((exists n, b = zeroes n false) \/ exists t n, T t /\ cells b = (Some <$> t) ++ replicate n None).
Proof.
  intros (hs & ks & Hi & Hb & _ & Hl & Hold & Hnew). split; [done|]. split; [done|]. intros q b Hq Hqb.
  split; [|apply (Hnew q); [done|by intros ?%elem_of_nil|done]]. destruct (live b) eqn:Hlive; [|done]. exfalso.
  destruct (inv_live _ _ _ _ Hi q b Hqb Hlive) as [Hin|(a & c & Ha & _)]; [apply elem_of_seq in Hin; lia|].
  destruct (inv_rc _ _ _ _ Hi a c Ha) as [E0 Hpos]. clear - Hb E0 Hpos.
  enough (total (owns a) hs = 0) by lia. clear E0. induction hs as [|[x|] hs IH]; [done|done|]. cbn in *. by apply IH.
Qed.
End Encoder.
