(* ===== verification/Rfc4648.v ===== *)
(** * Base64 as RFC 4648 has it

    The padded encoding with the standard alphabet, which is what the parameter
    of [Base64.v] stands for, as a function: it is an engine, and with it the
    definitions can be run on real input. *)

From S2P Require Import Prelude Base64.

Definition alphabet : list byte := bs "ABCDEFGHIJKLMNOPQRSTUVWXYZabcdefghijklmnopqrstuvwxyz0123456789+/".
Definition letter (n : N) : byte := nth (N.to_nat n) alphabet "A"%byte.
Definition index (b : byte) : option N := N.of_nat <$> position (Byte.eqb b) alphabet.

Fixpoint encode_std (l : list byte) : list byte :=
  match l with
  | a :: b :: c :: l =>
      letter (code a / 4) :: letter (code a mod 4 * 16 + code b / 16) :: letter (code b mod 16 * 4 + code c / 64) ::
      letter (code c mod 64) :: encode_std l
  | [a; b] => [letter (code a / 4); letter (code a mod 4 * 16 + code b / 16); letter (code b mod 16 * 4); "="%byte]
  | [a] => [letter (code a / 4); letter (code a mod 4 * 16); "="%byte; "="%byte]
  | [] => []
  end.

(** [None] for what is no encoding; the bits that are left over are to be zero. *)
Fixpoint decode_std (l : list byte) : option (list byte) :=
  match l with
  | [] => Some []
  | x :: y :: z :: w :: l =>
      if Byte.eqb w "=" then
        match l with
        | [] =>
            if Byte.eqb z "=" then
              x ← index x; y ← index y;
              if (y mod 16 =? 0)%N then Some [byte_of (x * 4 + y / 16)] else None
            else
              x ← index x; y ← index y; z ← index z;
              if (z mod 4 =? 0)%N then Some [byte_of (x * 4 + y / 16); byte_of (y mod 16 * 16 + z / 4)] else None
        | _ => None
        end
      else
        x ← index x; y ← index y; z ← index z; w ← index w;
        app [byte_of (x * 4 + y / 16); byte_of (y mod 16 * 16 + z / 4); byte_of (z mod 4 * 64 + w)] <$> decode_std l
  | _ => None
  end.

Definition rfc4648_engine : Engine () := {|
  encode := encode_std;
  decode l := match decode_std l with Some r => Ok r | None => Err tt end;
|}.

(** ** It is one *)

Lemma letter_ok n : (n < 64)%N -> index (letter n) = Some n /\ is_base64 (letter n) = true /\ letter n <> "="%byte.
Proof.
  intros Hn. assert (K : forallb (fun i => let n := N.of_nat i in
    bool_decide (index (letter n) = Some n) && is_base64 (letter n) && negb (Byte.eqb (letter n) "=")) (seq 0 64) = true) by by vm_compute.
  rewrite forallb_forall in K. specialize (K (N.to_nat n) ltac:(apply in_seq; lia)). cbv zeta in K. rewrite N2Nat.id in K.
  apply andb_true_iff in K as [[K1%bool_decide_eq_true K2]%andb_true_iff K3%negb_true_iff].
  split; [done|]. split; [done|]. intros E. by rewrite E in K3.
Qed.

Lemma letter_not_pad n : (n < 64)%N -> Byte.eqb (letter n) "=" = false.
Proof. intros Hn. destruct (letter_ok n Hn) as (_ & _ & K). by apply byte_eqb_neq. Qed.

Lemma byte_of_code n b : n = code b -> byte_of n = b.
Proof. intros ->. unfold byte_of, code. rewrite N.mod_small by (pose proof (code_lt b); unfold code in *; lia). by rewrite Byte.of_to_N. Qed.

(** The six-bit groups of three bytes, and the bytes again; likewise for the two
    or one at the end. *)
Lemma group3 a b c : (a < 256)%N -> (b < 256)%N -> (c < 256)%N ->
  (a / 4 < 64 /\ a mod 4 * 16 + b / 16 < 64 /\ b mod 16 * 4 + c / 64 < 64 /\ c mod 64 < 64 /\
   a / 4 * 4 + (a mod 4 * 16 + b / 16) / 16 = a /\
   (a mod 4 * 16 + b / 16) mod 16 * 16 + (b mod 16 * 4 + c / 64) / 4 = b /\
   (b mod 16 * 4 + c / 64) mod 4 * 64 + c mod 64 = c)%N.
Proof. intros Ha Hb Hc. split_and!; zify; Z.to_euclidean_division_equations; lia. Qed.

Lemma group2 a b : (a < 256)%N -> (b < 256)%N ->
  (a / 4 < 64 /\ a mod 4 * 16 + b / 16 < 64 /\ b mod 16 * 4 < 64 /\ (b mod 16 * 4) mod 4 = 0 /\
   a / 4 * 4 + (a mod 4 * 16 + b / 16) / 16 = a /\ (a mod 4 * 16 + b / 16) mod 16 * 16 + b mod 16 * 4 / 4 = b)%N.
Proof. intros Ha Hb. split_and!; zify; Z.to_euclidean_division_equations; lia. Qed.

Lemma group1 a : (a < 256)%N ->
  (a / 4 < 64 /\ a mod 4 * 16 < 64 /\ (a mod 4 * 16) mod 16 = 0 /\ a / 4 * 4 + a mod 4 * 16 / 16 = a)%N.
Proof. intros Ha. split_and!; zify; Z.to_euclidean_division_equations; lia. Qed.

(** Lists three by three. *)
Lemma list_ind3 (P : list byte -> Prop) :
  P [] -> (forall a, P [a]) -> (forall a b, P [a; b]) -> (forall a b c l, P l -> P (a :: b :: c :: l)) -> forall l, P l.
Proof.
  intros H0 H1 H2 H3. fix IH 1. intros [|a [|b [|c l]]]; [done..|]. apply H3, IH.
Qed.

#[local] Existing Instance rfc4648_engine.

Lemma encode_std_bytes l : Forall (fun c => is_base64 c = true) (encode_std l).
Proof.
  induction l as [|a|a b|a b c l IH] using list_ind3; cbn [encode_std].
  - constructor.
  - destruct (group1 _ (code_lt a)) as (K1 & K2 & _). repeat constructor; by apply letter_ok.
  - destruct (group2 _ _ (code_lt a) (code_lt b)) as (K1 & K2 & K3 & _). repeat constructor; by apply letter_ok.
  - destruct (group3 _ _ _ (code_lt a) (code_lt b) (code_lt c)) as (K1 & K2 & K3 & K4 & _).
    do 4 (constructor; [by apply letter_ok|]). exact IH.
Qed.

Lemma decode_encode_std l : decode_std (encode_std l) = Some l.
Proof.
  induction l as [|a|a b|a b c l IH] using list_ind3; cbn [encode_std decode_std].
  - done.
  - destruct (group1 _ (code_lt a)) as (K1 & K2 & K3 & K4). rewrite !byte_eqb_refl.
    rewrite (proj1 (letter_ok _ K1)), (proj1 (letter_ok _ K2)). cbn [mbind option_bind]. rewrite K3. cbn [N.eqb].
    by rewrite (byte_of_code _ a K4).
  - destruct (group2 _ _ (code_lt a) (code_lt b)) as (K1 & K2 & K3 & K4 & K5 & K6). rewrite byte_eqb_refl, (letter_not_pad _ K3).
    rewrite (proj1 (letter_ok _ K1)), (proj1 (letter_ok _ K2)), (proj1 (letter_ok _ K3)). cbn [mbind option_bind]. rewrite K4. cbn [N.eqb].
    by rewrite (byte_of_code _ a), (byte_of_code _ b) by done.
  - destruct (group3 _ _ _ (code_lt a) (code_lt b) (code_lt c)) as (K1 & K2 & K3 & K4 & K5 & K6 & K7). rewrite (letter_not_pad _ K4).
    rewrite (proj1 (letter_ok _ K1)), (proj1 (letter_ok _ K2)), (proj1 (letter_ok _ K3)), (proj1 (letter_ok _ K4)).
    cbn [mbind option_bind]. rewrite IH. by rewrite (byte_of_code _ a), (byte_of_code _ b), (byte_of_code _ c) by done.
Qed.

Lemma rfc4648_engine_ok : EngineOk ().
Proof.
  split.
  - exact encode_std_bytes.
  - intros l. induction l as [|a|a b|a b c l IH] using list_ind3; [done..|]. cbn [encode rfc4648_engine encode_std length] in *.
    change (S (S (S (S ?n)))) with (4 + n). rewrite Nat.Div0.add_mod. exact (f_equal (fun m => (4 mod 4 + m) mod 4) IH).
  - done.
  - intros l. cbn [encode decode rfc4648_engine]. by rewrite decode_encode_std.
Qed.
