(* ===== verification/BytesOps.v ===== *)
(** * More of [Bytes]

    [src/string/bytes.rs]: what [BytesCell] leaves out, the conversions from and
    to other types, comparisons with them, hashing, [Debug] and Base64.  The
    Base64 engine is the parameter of [Base64], the hasher is a parameter. *)

From S2P Require Import Prelude Strings Utf8 Transforms BytesCell.
From S2P Require Base64 Names Rfc4648.

(** ** Views *)

(** [#[derive(Default)]]. *)
Definition default : Cell := mkCell [] false 0 false.

Definition is_empty (c : Cell) : bool := match cvalue c with [] => true | _ => false end.
Definition len (c : Cell) : nat := length (cvalue c).
Definition as_bytes (c : Cell) : list byte := cvalue c.
Definition as_bytes_unsafe (c : Cell) : list byte := cvalue c.
(** [Deref], [AsRef] and [Borrow]. *)
Definition deref (c : Cell) : list byte := cvalue c.
Definition as_ref (c : Cell) : list byte := cvalue c.
Definition borrow (c : Cell) : list byte := cvalue c.

(** ** Conversions *)

(** [From<&[u8]>] and [From<&str>] copy. *)
Definition from_slice (value : list byte) : Cell := from_vec value.
Definition from_str_ref (value : list byte) : Cell := from_string value.

Definition from_cow_slice (value : Cow) : Cell :=
  match value with Borrowed s => from_slice s | Owned s => from_vec s end.
Definition from_cow_str (value : Cow) : Cell :=
  match value with Borrowed s => from_str_ref s | Owned s => from_string s end.

(** [From<Bytes>] for [Vec<u8>] and for [Cow<[u8]>]. *)
Definition to_vec (value : Cell) : list byte := into_vec value.
Definition to_cow (value : Cell) : Cow :=
  if ownership value then Owned (cvalue value) else Borrowed (cvalue value).

(** [MakeOwning] for [Cow]. *)
Definition cow_make_owning (c : Cow) : Cow := match c with Borrowed b => Owned b | Owned _ => c end.

(** ** Comparisons *)

(** [PartialEq] with arrays, slices and references to them. *)
Definition eq_array (c : Cell) (other : list byte) : bool := bool_decide (cvalue c = other).
Definition eq_array_ref (c : Cell) (other : list byte) : bool := eq_array c other.
Definition eq_slice (c : Cell) (other : list byte) : bool := bool_decide (cvalue c = other).
Definition eq_slice_ref (c : Cell) (other : list byte) : bool := eq_slice c other.
Definition eq_str_ref (c : Cell) (other : list byte) : bool := eq_str c other.

Definition partial_cmp (a b : Cell) : option comparison := Some (cmp a b).

(** [Hash]: what a hasher makes of a [u8] slice is its own. *)
Definition hash {H : Type} (hash_slice : list byte -> H -> H) (c : Cell) (hasher : H) : H := hash_slice (cvalue c) hasher.

(** ** [Debug] *)

(** The field [value] as it is given to the formatter: a string or a slice. *)
Inductive Field := FStr (s : list byte) | FSlice (l : list byte).

(** The fields [owning] and [value]. *)
Definition debug (c : Cell) : (bool * Field) * Cell :=
  if negb (is_secret c) then
    match to_utf8 c with
    | (Some v, c') => ((is_owning c, FStr v), c')
    | (None, c') => ((is_owning c, FSlice (cvalue c)), c')
    end
  else ((is_owning c, FStr DISPLAY_PLACEHOLDER), c).

(** ** Base64 *)

Section Base64.
Context {E : Type} `{Base64.Engine E}.

Definition to_base64_impl (c : Cell) : Cell :=
  let encoded := Base64.encode (cvalue c) in
  mkCell encoded (owned_from_vec encoded) 1 (secret_ c).

Definition to_base64 (c : Cell) : Cell := to_base64_impl c.

Definition to_base64_plus (c : Cell) : Cell :=
  if is_empty c then from_str Names.PLUS else to_base64_impl c.
End Base64.

(** ** Theorems *)

Lemma from_vec_inv v : cell_inv (from_vec v).
Proof. split; [split_and!; [done|done|by right; left]|]. simpl. auto with vz. Qed.

Lemma from_secret_inv v : cell_inv (from_secret v).
Proof. split; [split_and!; [done|done|by right; left]|]. simpl. auto with vz. Qed.

Lemma from_string_inv v : utf8_valid v = true -> cell_inv (from_string v).
Proof. intros Hv. split; [split_and!; [done|done|by left]|]. simpl. auto with vz. Qed.

Lemma from_str_inv v : utf8_valid v = true -> cell_inv (from_str v).
Proof. intros Hv. split; [split_and!; [done|done|by left]|done]. Qed.

Lemma from_bytes_inv v : cell_inv (from_bytes v).
Proof. split; [split_and!; [done|done|by right; left]|done]. Qed.

#[export] Hint Resolve from_vec_inv from_secret_inv from_string_inv from_str_inv from_bytes_inv : vz.

(** Whatever is converted keeps its bytes, and comes back. *)
Theorem conversions_keep v :
  cvalue (from_slice v) = v /\ cvalue (from_str_ref v) = v /\
  to_vec (from_slice v) = v /\ cow_ref (to_cow (from_slice v)) = v /\
  (forall c, ownership c = false -> to_cow c = Borrowed (cvalue c)) /\
  (forall c, cow_ref (cow_make_owning c) = cow_ref c /\ exists l, cow_make_owning c = Owned l) /\
  (forall w, cvalue (from_cow_slice w) = cow_ref w /\ cvalue (from_cow_str w) = cow_ref w /\
    cell_inv (from_cow_slice w) /\ (utf8_valid (cow_ref w) = true -> cell_inv (from_cow_str w))).
Proof.
  do 3 (split; [done|]). split; [by destruct v|]. split; [|split].
  - intros c Hc. unfold to_cow. by rewrite Hc.
  - intros c. destruct c as [l|l]; (split; [done|by eexists]).
  - intros w. destruct w as [l|l]; (split_and!; [done..|apply from_vec_inv|intros Hu; by apply from_string_inv]).
Qed.

(** What [run_cell] does to a string is not seen by [eq], unless it replaces the
    value. *)
Lemma eq_run_cell o a b : cell_inv a ->
  match o with CUsingValue _ _ | CTransform _ | CIntoUtf8Lossy => False | _ => True end ->
  eq (run_cell o a) b = eq a b.
Proof.
  intros [Ha _] Ho. assert (Hv : cvalue (run_cell o a) = cvalue a); [|unfold eq; by rewrite Hv].
  assert (Ht : cvalue (to_utf8 a).2 = cvalue a).
  { unfold to_utf8. destruct (is_utf8_lazy a) as [[]|]; [done..|]. by destruct (utf8_valid (cvalue a)). }
  destruct o; try done; cbn [run_cell].
  - unfold make_owning. by destruct (is_owning a).
  - unfold owning. by destruct (is_owning a).
  - unfold secret. by destruct (negb _ && _).
  - by apply utf8_cow_value.
  - unfold fmt. destruct (is_secret a); [done|]. by destruct (to_utf8 a) as [[s|] a'].
Qed.

(** [Eq], [Ord], [Hash] and the comparisons with other types see the
    bytes only: neither ownership, nor secrecy, nor what is known of the
    encoding make a difference, and they agree with each other. *)
Theorem comparisons_agree a b :
  cell_inv a -> cell_inv b ->
  (eq a b = true <-> cvalue a = cvalue b) /\
  (eq a b = true <-> partial_cmp a b = Some Eq) /\
  (eq a b = true -> forall H (hs : list byte -> H -> H) st, hash hs a st = hash hs b st) /\
  eq a b = eq_slice_ref a (cvalue b) /\ eq a b = eq_array_ref a (cvalue b) /\
  (utf8_valid (cvalue b) = true -> eq a b = eq_str_ref a (cvalue b)) /\
  (forall o, match o with CUsingValue _ _ | CTransform _ | CIntoUtf8Lossy => False | _ => True end ->
     eq (run_cell o a) b = eq a b).
Proof.
  intros Ia _. pose proof Ia as [Ha _]. split_and!.
  - unfold eq. by rewrite bool_decide_eq_true.
  - unfold eq, partial_cmp, cmp. rewrite bool_decide_eq_true, <- (kcmp_eq (K := list byte)). cbn [kcmp bytes_key_ord]. split; [by intros ->|by intros [= ->]].
  - unfold eq, hash. rewrite bool_decide_eq_true. by intros ->.
  - done.
  - done.
  - intros Hu. unfold eq, eq_str_ref, eq_str. destruct (Z.eqb_spec (cutf8 a) (-1)) as [E|]; [|done]. simpl.
    apply bool_decide_eq_false. intros Heq. destruct Ha as (_ & Hi & _). rewrite Heq, Hu in Hi. by specialize (Hi E).
  - intros o Ho. by apply eq_run_cell.
Qed.

Lemma comparisons_agree_witness :
  cell_inv (from_secret (bs "a")) /\ cell_inv (from_str (bs "a")) /\ eq (from_secret (bs "a")) (from_str (bs "a")) = true.
Proof.
  split; [apply from_secret_inv|]. split; [by apply from_str_inv|].
  apply (comparisons_agree (from_secret (bs "a")) (from_str (bs "a")) (from_secret_inv _) (from_str_inv (bs "a") eq_refl)). reflexivity.
Defined.

(** Neither [Display] nor [Debug] tells two secrets apart, whatever
    bytes they have, unless one is owned and the other is not; what is not
    secret is shown as the string it is, if it is one, and in [Debug] as its
    bytes otherwise. *)
Theorem secrets_hidden a b :
  (secret_ a = true -> secret_ b = true ->
    (fmt a).1 = (fmt b).1 /\ ((debug a).1 = (debug b).1 <-> ownership a = ownership b)) /\
  (cell_inv a -> secret_ a = false ->
    (debug a).1 = (ownership a, if utf8_valid (cvalue a) then FStr (cvalue a) else FSlice (cvalue a)) /\
    (fmt a).1 = (if utf8_valid (cvalue a) then cvalue a else DISPLAY_PLACEHOLDER) /\
    cell_inv (debug a).2).
Proof.
  unfold debug, fmt, is_secret, is_owning. split.
  - intros -> ->. cbn. split; [done|]. split; [by intros [= ->]|by intros ->].
  - intros Hi ->. cbn [negb]. pose proof (to_utf8_inv a Hi) as Hi'. destruct Hi as [(Hv & Hn & _) _].
    assert (Ht : (to_utf8 a).1 = if utf8_valid (cvalue a) then Some (cvalue a) else None).
    { unfold to_utf8, is_utf8_lazy. destruct (Z.eqb_spec (cutf8 a) 1); [by rewrite Hv|].
      destruct (Z.eqb_spec (cutf8 a) (-1)); [by rewrite Hn|]. by destruct (utf8_valid (cvalue a)). }
    destruct (to_utf8 a) as [o a']. cbn [fst snd] in *. subst o. by destruct (utf8_valid (cvalue a)).
Qed.

Lemma secrets_hidden_witness :
  (debug (from_secret (bs "hunter2"))).1 = (debug (from_secret [xff])).1 /\
  (debug (from_vec [xff])).1 = (true, FSlice [xff]).
Proof.
  split.
  - apply (proj2 (proj1 (secrets_hidden (from_secret (bs "hunter2")) (from_secret [xff])) eq_refl eq_refl)). reflexivity.
  - exact (proj1 (proj2 (secrets_hidden (from_vec [xff]) default) (from_vec_inv _) eq_refl)).
Defined.

Section Base64Ok.
Context {E : Type} `{Base64.EngineOk E}.

Lemma base64_ascii v : utf8_valid (Base64.encode v) = true.
Proof.
  apply utf8_all_ascii. unfold all_ascii. apply forallb_forall. intros x Hx.
  pose proof (proj1 (List.Forall_forall _ _) (Base64.encode_bytes v) x Hx) as Hb. cbv beta in Hb. byte_cases x.
Qed.

Lemma base64_not_invalid v : Forall (fun b => is_invalid Word b = false) (Base64.encode v).
Proof. eapply List.Forall_impl; [|apply Base64.encode_bytes]. intros b. byte_cases b. Qed.

Lemma base64_is_word v : valid Word (Base64.encode v).
Proof. apply valid_iff. split; [done|apply base64_not_invalid]. Qed.

Lemma base64_nonempty v : v <> [] -> Base64.encode v <> [].
Proof.
  intros Hv He. apply Hv. pose proof (Base64.decode_encode v) as K. pose proof (Base64.decode_encode []) as K'.
  rewrite Base64.encode_nil in K'. rewrite He, K' in K. by injection K.
Qed.

Lemma base64_plus_arg v : v <> [] -> valid Arg (Base64.encode v).
Proof.
  intros Hv. apply valid_iff. split; [|apply base64_not_invalid]. apply arg_first_check_None.
  pose proof (base64_nonempty v Hv) as Hn. pose proof (Base64.encode_bytes v) as Hb.
  destruct (Base64.encode v) as [|b r]; [done|]. exists b, r. split; [done|].
  apply Forall_cons in Hb as [Hb _]. by intros ->.
Qed.

Lemma to_base64_inv c : cell_inv (to_base64 c).
Proof. split; [split_and!; [intros _; apply base64_ascii|done|by left]|]. simpl. auto with vz. Qed.

Lemma to_base64_plus_inv c : cell_inv (to_base64_plus c).
Proof. unfold to_base64_plus. destruct (is_empty c); [by apply from_str_inv|apply to_base64_inv]. Qed.

Lemma to_base64_plus_arg c : valid Arg (cvalue (to_base64_plus c)).
Proof.
  unfold to_base64_plus, is_empty. destruct (cvalue c) as [|b r] eqn:Hc; [done|]. apply base64_plus_arg. by rewrite Hc.
Qed.

(** The Base64 of a string is a [Word], and with a plus for an empty one
    an [Arg], though neither is checked; it decodes to the string, is owned
    unless empty, is marked as the UTF-8 it is, and is secret if the string is,
    except that the plus never is. *)
Theorem to_base64_correct c :
  let w := to_base64 c in let a := to_base64_plus c in
  valid Word (cvalue w) /\ valid Arg (cvalue a) /\ cell_inv w /\ cell_inv a /\
  Base64.decode (cvalue w) = Ok (cvalue c) /\ (to_utf8 w).1 = Some (cvalue w) /\
  secret_ w = secret_ c /\ ownership w = negb (is_empty c) /\
  if is_empty c then a = from_str (bs "+") else a = w.
Proof.
  cbv zeta. pose proof (to_base64_inv c). pose proof (to_base64_plus_inv c). pose proof (to_base64_plus_arg c).
  pose proof (base64_is_word (cvalue c)).
  assert (Hd : Base64.decode (cvalue (to_base64 c)) = Ok (cvalue c)) by apply Base64.decode_encode.
  split_and!; try done.
  - unfold is_empty. destruct (cvalue c) as [|b r] eqn:Hc; cbn; rewrite Hc; [by rewrite Base64.encode_nil|].
    pose proof (base64_nonempty (cvalue c)) as K. rewrite Hc in K. destruct (Base64.encode (b :: r)); [by destruct K|done].
  - unfold to_base64_plus. by destruct (is_empty c).
Qed.
End Base64Ok.

Lemma to_base64_correct_witness :
  let E := Rfc4648.rfc4648_engine in
  cvalue (to_base64 (from_secret (bs "light work."))) = bs "bGlnaHQgd29yay4=" /\
  valid Word (cvalue (to_base64 (from_secret (bs "light work.")))) /\
  secret_ (to_base64_plus (from_secret (bs "light work."))) = true.
Proof.
  intros E. destruct (@to_base64_correct () E Rfc4648.rfc4648_engine_ok (from_secret (bs "light work.")))
    as (H1 & _ & _ & _ & _ & _ & H2 & _ & H3).
  split; [vm_compute; reflexivity|]. split; [exact H1|]. cbv beta iota delta [is_empty from_secret cvalue] in H3. exact H2.
Defined.
