(* ===== verification/Newtypes.v ===== *)
(** * Values of the newtypes

    [src/string/subtypes/macros.rs], [src/string/subtypes.rs],
    [src/string/subtypes/impls.rs]: what [impl_subtype!], [conversions!] and
    [maybe_empty!] generate, over the [Bytes] of [BytesCell] that a newtype
    wraps.  Constructors check bytes or are unsafe; everything else goes to the
    wrapped string unchecked.  [made] is the closure of the safe functions: what
    a program can get hold of.  Transmutes between a newtype, its supertype and
    its [Bytes] do nothing to the value. *)

From stdpp Require Import list.
From S2P Require Import Prelude Strings Utf8 Transforms.
From S2P Require BytesCell BytesOps Memory SecretBuf Base64 Names.
Import BytesCell (Cell, cvalue, cell_inv).

Section Newtype.
Context (U : BytesNewtype).

(** ** Constructors *)

Definition from_bytes (bytes : Cell) : result Cell InvalidString :=
  match find_invalid U (BytesOps.as_ref bytes) with
  | Some e => Err e
  | None => Ok bytes
  end.

(** A constant's [from_str]; [None] is the panic. *)
Definition from_str (string : list byte) : option Cell :=
  if find_invalid U string then None else Some (BytesCell.from_str string).

Definition from_unchecked (bytes : Cell) : Cell := bytes.

(** What is refused goes through a [SecretBuf] to be overwritten; the outer
    [None] is undefined behaviour there. *)
Definition from_secret (value : Memory.Vec) (h : Memory.Heap) : option (result Cell InvalidString * Memory.Heap) :=
  bytes ← Memory.slice_get (Memory.Mem (Memory.vptr value) 0 (Memory.vlen value)) h;
  match find_invalid U bytes with
  | Some e =>
      '(s, h) ← SecretBuf.from_vec value h;
      h ← SecretBuf.drop_secret s h;
      Some (Err e, h)
  | None => Some (Ok (BytesCell.from_secret bytes), h)
  end.

(** [TryFrom] of a [Bytes], a slice, a [str], a [Vec] and a [String]. *)
Definition try_from_bytes (value : Cell) : result Cell InvalidString := from_bytes value.
Definition try_from_slice (value : list byte) : result Cell InvalidString := try_from_bytes (BytesOps.from_slice value).
Definition try_from_str (value : list byte) : result Cell InvalidString := try_from_bytes (BytesOps.from_str_ref value).
Definition try_from_vec (value : list byte) : result Cell InvalidString := try_from_bytes (BytesCell.from_vec value).
Definition try_from_string (value : list byte) : result Cell InvalidString := try_from_bytes (BytesCell.from_string value).

(** [TryFrom] of a more general newtype. *)
Definition try_from_newtype (value : Cell) : result Cell InvalidString := from_bytes value.
End Newtype.

(** [from_super]. *)
Definition from_super (S : Subtype) (sup : Cell) : result Cell InvalidString :=
  match sbody S (BytesOps.as_ref sup) with
  | Some e => Err e
  | None => Ok sup
  end.

(** [maybe_empty!]. *)
Definition default : Cell := BytesOps.default.
Definition empty : Cell := BytesCell.empty.
Definition may_be_empty : list BytesNewtype := [NoNul; Line; Word].

(** ** The rest of a newtype *)

Definition into_super (self : Cell) : Cell := self.
Definition into_bytes (self : Cell) : Cell := self.
(** [From] for [Bytes], a more general newtype, [Vec]; [Deref]. *)
Definition bytes_from (value : Cell) : Cell := into_bytes value.
Definition newtype_from (value : Cell) : Cell := value.
Definition vec_from (value : Cell) : list byte := BytesCell.into_vec (into_bytes value).
Definition deref (self : Cell) : Cell := self.
Definition as_ref (self : Cell) : list byte := BytesOps.as_ref self.
Definition borrow (self : Cell) : list byte := BytesOps.borrow self.

Definition transform (self : Cell) (tf : list byte -> Transformation) : Cell := BytesCell.transform self tf.
Definition is_owning (self : Cell) : bool := BytesCell.is_owning self.
Definition is_secret (self : Cell) : bool := BytesCell.is_secret self.
Definition owning (self : Cell) : Cell := BytesCell.owning self.
Definition secret (self : Cell) : Cell := BytesCell.secret self.
Definition make_owning (self : Cell) : Cell := BytesCell.make_owning self.
Definition is_empty (self : Cell) : bool := BytesOps.is_empty self.
Definition len (self : Cell) : nat := BytesOps.len self.
Definition fmt (self : Cell) : list byte * Cell := BytesCell.fmt self.
Definition eq_array (self : Cell) (other : list byte) : bool := BytesOps.eq_array self other.
Definition eq_array_ref (self : Cell) (other : list byte) : bool := BytesOps.eq_array self other.
Definition eq_slice (self : Cell) (other : list byte) : bool := BytesOps.eq_slice self other.
Definition eq_slice_ref (self : Cell) (other : list byte) : bool := BytesOps.eq_slice self other.
Definition eq_str (self : Cell) (other : list byte) : bool := BytesCell.eq_str self other.
Definition eq_str_ref (self : Cell) (other : list byte) : bool := BytesCell.eq_str self other.

(** The bytes a [CString] made without a check has; it ends at the first zero. *)
Definition into_cstring (self : Cell) : list byte := vec_from self ++ [x00].
Fixpoint cstring_bytes (l : list byte) : list byte :=
  match l with
  | [] => []
  | b :: l => if Byte.eqb b x00 then [] else b :: cstring_bytes l
  end.

(** A [NonZeroU8] is a positive number; one that is zero is undefined. *)
Definition nonzero (b : byte) : option positive := match code b with 0%N => None | Npos p => Some p end.
Definition as_bytes_nonzero (self : Cell) : option (list positive) := mapM nonzero (BytesOps.as_bytes (deref self)).

(** [BytesNewtype], for [Bytes] and the newtypes alike. *)
Definition trait_as_bytes_unsafe (self : Cell) : list byte := BytesOps.as_bytes_unsafe self.
Definition trait_from_unchecked (bytes : Cell) : Cell := from_unchecked bytes.
Definition trait_into_bytes (self : Cell) : Cell := into_bytes self.
Definition trait_into_vec (this : Cell) : list byte := vec_from this.
Definition trait_is_utf8_lazy (self : Cell) : bool :=
  match BytesCell.is_utf8_lazy self with Some b => b | None => false end.
Definition trait_using_value (self : Cell) (bytes : list byte) (utf8 : bool) : Cell :=
  from_unchecked (BytesCell.using_value self bytes (if utf8 then PValid else PRecheck)).
Definition trait_is_secret (self : Cell) : bool := BytesCell.is_secret self.

(** ** [impls.rs] *)

(** Names the system gives, if it is asked for them. *)
Definition new_realname (realname : option (list byte)) : option Cell :=
  match realname with
  | Some name => match from_bytes Line (BytesCell.from_string name) with Ok val => Some val | Err _ => None end
  | None => None
  end.

Definition new_username (username : option (list byte)) : option Cell :=
  match username with
  | Some name => match from_bytes User (BytesCell.from_string name) with Ok val => Some val | Err _ => None end
  | None => None
  end.

(** [get_unchecked(0)]: undefined for an empty string. *)
Definition is_client_tag (self : Cell) : option bool :=
  match cvalue self with b :: _ => Some (Byte.eqb b "+") | [] => None end.

(** [from_utf8_unchecked]: undefined for what is not UTF-8. *)
Definition as_str (self : Cell) : option (list byte) :=
  if utf8_valid (BytesOps.as_bytes self) then Some (BytesOps.as_bytes self) else None.

Definition from_word (word : Cell) : result Cell InvalidString :=
  match List.find (fun b => negb (is_ascii_alphabetic b)) (cvalue word) with
  | Some inval => Err (ISByte inval)
  | None => Ok (transform word (AsciiCasemap true))
  end.

(** ** What a program can make *)

(** The transformations marked as keeping a newtype's promise; all of them work
    on [Bytes]. *)
Inductive safe_for : BytesNewtype -> (list byte -> Transformation) -> Prop :=
| safe_trim side U : U ∈ [Bytes; NoNul; Line] -> safe_for U (TrimAscii side)
| safe_irc c U : U ∈ Bytes :: irc_casemap_safe -> safe_for U (irc_casemap c)
| safe_ascii u U : U ∈ Bytes :: ascii_casemap_safe u -> safe_for U (AsciiCasemap u).

Section Made.
Context {E : Type} `{Base64.Engine E}.

(** The values a safe program gets of each type; [e] is whether it gives the empty
    word to [from_word].  A [str] or [String] is valid UTF-8. *)
Inductive made (e : bool) : BytesNewtype -> Cell -> Prop :=
| made_from_bytes v : made e Bytes (BytesCell.from_bytes v)
| made_from_str v : utf8_valid v = true -> made e Bytes (BytesCell.from_str v)
| made_from_secret v : made e Bytes (BytesCell.from_secret v)
| made_from_vec v : made e Bytes (BytesCell.from_vec v)
| made_from_string v : utf8_valid v = true -> made e Bytes (BytesCell.from_string v)
| made_from_slice v : made e Bytes (BytesOps.from_cow_slice v)
| made_default : made e Bytes BytesOps.default
| made_lossy c : made e Bytes c -> made e Bytes (BytesCell.into_utf8_lossy c)
| made_checked U b c : made e Bytes b -> from_bytes U b = Ok c -> made e U c
| made_const U s c : utf8_valid s = true -> from_str U s = Some c -> made e U c
| made_secret `{Memory.Alloc} U v h c h' : from_secret U v h = Some (Ok c, h') -> made e U c
| made_slice U v c : try_from_slice U v = Ok c -> made e U c
| made_str U v c : utf8_valid v = true -> try_from_str U v = Ok c -> made e U c
| made_vec U v c : try_from_vec U v = Ok c -> made e U c
| made_string U v c : utf8_valid v = true -> try_from_string U v = Ok c -> made e U c
| made_narrow U V b c : made e V b -> try_from_newtype U b = Ok c -> made e U c
| made_super S b c : S ∈ subtypes -> made e (ssuper S) b -> from_super S b = Ok c -> made e (sname S) c
| made_into_super S c : S ∈ subtypes -> made e (sname S) c -> made e (ssuper S) (into_super c)
| made_into_bytes U c : made e U c -> made e Bytes (into_bytes c)
| made_empty U c : U ∈ may_be_empty -> c = empty \/ c = default -> made e U c
| made_transform U tf c : safe_for U tf -> made e U c -> made e U (transform c tf)
| made_run U o c : made e U c ->
    o ∈ [BytesCell.CMakeOwning; BytesCell.COwning; BytesCell.CSecret; BytesCell.CToUtf8;
         BytesCell.CToUtf8Lossy; BytesCell.CClone; BytesCell.CFmt] ->
    made e U (BytesCell.run_cell o c)
| made_base64 U c : made e U c -> made e Word (BytesOps.to_base64 c)
| made_base64_plus U c : made e U c -> made e Arg (BytesOps.to_base64_plus c)
| made_word w c : made e Word w -> (cvalue w = [] -> e = true) -> from_word w = Ok c -> made e Cmd c.
End Made.

(** ** Lemmas *)

(** A transformed string has the bytes of the transformation. *)
Lemma transform_value c tf : cvalue (transform c tf) = cow_ref (transformed (tf (cvalue c))).
Proof.
  unfold transform, BytesCell.transform. destruct (cow_ref (transformed (tf (cvalue c)))) eqn:Et; [done|].
  rewrite <- Et. by destruct (transformed (tf (cvalue c))).
Qed.

Lemma irc_casemap_map c l : cow_ref (transformed (irc_casemap c l)) = map (casemap_fn c) l.
Proof. assert (irc_casemap c l = map_bytes l PPreserveStrict (casemap_fn c)) as -> by by destruct c. apply map_bytes_spec. Qed.

Lemma ascii_casemap_map u l :
  cow_ref (transformed (AsciiCasemap u l)) = map (if u then to_ascii_uppercase else to_ascii_lowercase) l.
Proof. destruct u; apply map_bytes_spec. Qed.

Lemma valid_bytes l : valid Bytes l.
Proof. apply valid_iff. split; [done|]. by induction l; constructor. Qed.

(** A part of a string has no byte the whole has not. *)
Lemma valid_part U pre l post : check_others U = return_none -> valid U (pre ++ l ++ post) -> valid U l.
Proof. rewrite !valid_iff, !Forall_app. intros -> [_ (_ & Hl & _)]. done. Qed.

Lemma safe_for_valid U tf l : safe_for U tf -> valid U l -> valid U (cow_ref (transformed (tf l))).
Proof.
  intros Hs Hv. destruct Hs as [side U HU|c U HU|u U HU].
  - destruct (trim_ascii_parts side l) as (pre & post & Hl & _). rewrite Hl in Hv.
    all_newtypes HU; by apply valid_part in Hv.
  - rewrite irc_casemap_map. apply elem_of_cons in HU as [->|HU]; [apply valid_bytes|by apply casemap_fn_valid].
  - rewrite ascii_casemap_map. apply elem_of_cons in HU as [->|HU]; [apply valid_bytes|by apply ascii_casemap_valid].
Qed.

Lemma safe_for_ok U tf c : safe_for U tf -> BytesCell.cell_op_ok c (BytesCell.CTransform tf).
Proof. intros Hs. apply BytesCell.transforms_ok. destruct Hs as [[] ? ?|? ? ?|? ? ?]; eauto 10. Qed.

Lemma from_bytes_spec U b c : from_bytes U b = Ok c <-> c = b /\ valid U (cvalue b).
Proof. unfold from_bytes, valid, BytesOps.as_ref. destruct (find_invalid U (cvalue b)); naive_solver. Qed.

Lemma run_cell_value o c : cell_inv c ->
  o ∈ [BytesCell.CMakeOwning; BytesCell.COwning; BytesCell.CSecret; BytesCell.CToUtf8;
       BytesCell.CToUtf8Lossy; BytesCell.CClone; BytesCell.CFmt] ->
  cvalue (BytesCell.run_cell o c) = cvalue c /\ cell_inv (BytesCell.run_cell o c).
Proof.
  intros Hi Ho. split.
  - apply (bool_decide_eq_true (cvalue (BytesCell.run_cell o c) = cvalue c)). change (BytesCell.eq (BytesCell.run_cell o c) c = true).
    rewrite BytesOps.eq_run_cell; [by apply bool_decide_eq_true|done|].
    rewrite !elem_of_cons, elem_of_nil in Ho. by naive_solver.
  - apply BytesCell.run_cell_inv; [done|]. rewrite !elem_of_cons, elem_of_nil in Ho. by naive_solver.
Qed.

Section Sound.
Context {E : Type} `{Base64.EngineOk E}.

Lemma may_be_empty_ok U : U ∈ may_be_empty -> valid U [].
Proof. intros HU. unfold may_be_empty in HU. by all_newtypes HU. Qed.

Lemma from_secret_Ok U v h c h' : from_secret U v h = Some (Ok c, h') ->
  exists l, c = BytesCell.from_secret l /\ valid U l /\ h' = h.
Proof.
  unfold from_secret. destruct (Memory.slice_get _ h) as [l|] eqn:El; [|done]. cbn [mbind option_bind].
  destruct (find_invalid U l) as [e|] eqn:Ef.
  - destruct (SecretBuf.from_vec v h) as [[s h1]|]; [|done]. cbn. by destruct (SecretBuf.drop_secret s h1).
  - intros [= <- <-]. by exists l.
Qed.

Lemma from_super_spec S b c : S ∈ subtypes -> valid (ssuper S) (cvalue b) -> from_super S b = Ok c ->
  c = b /\ valid (sname S) (cvalue b).
Proof.
  intros HS Hv. unfold from_super, BytesOps.as_ref. destruct (sbody S (cvalue b)) eqn:Hb; [done|]. intros [= ->]. split; [done|].
  apply (from_bytes_Ok (sname S) (cvalue c) (cvalue c)). rewrite <- from_super_from_bytes by done.
  unfold Strings.from_super. by rewrite Hb.
Qed.

Lemma from_word_Ok w c : from_word w = Ok c -> Strings.from_word (cvalue w) = Ok (cvalue c) /\ c = transform w (AsciiCasemap true).
Proof.
  unfold from_word, Strings.from_word. destruct (List.find _ _) as [b|]; [done|]. intros [= <-].
  split; [|done]. rewrite transform_value, (ascii_casemap_map true). done.
Qed.

(** What a value of a newtype may be: one that keeps the promise, or empty after
    [from_word] was given the empty word. *)
Definition promised (e : bool) (U : BytesNewtype) (c : Cell) : Prop :=
  (valid U (cvalue c) \/ (e = true /\ cvalue c = [])) /\ cell_inv c.

Lemma safe_for_nil U tf : safe_for U tf -> cow_ref (transformed (tf [])) = [].
Proof. intros Hs. destruct Hs as [[] ? ?|c ? ?|[] ? ?]; try done. by rewrite irc_casemap_map. Qed.

Lemma made_ok e U c : made e U c -> promised e U c.
Proof.
  assert (Hval : forall U c, valid U (cvalue c) -> cell_inv c -> promised e U c) by (intros; split; [by left|done]).
  assert (Hchk : forall U b c, cell_inv b -> from_bytes U b = Ok c -> promised e U c)
    by (intros ? ? ? ? [-> ?]%from_bytes_spec; by apply Hval).
  induction 1 as [v|v Hu|v|v|v Hu|w| |c _ [_ Hi]|U b c _ [_ Hi] Hc|U s c Hu Hc|? U v h c h' Hc|U v c Hc|U v c Hu Hc|U v c Hc|U v c Hu Hc
    |U V b c _ [_ Hi] Hc|S b c HS _ [Hv Hi] Hc|S c HS _ [Hv Hi]|U c _ [Hv Hi]|U c HU Hc|U tf c Hs _ [Hv Hi]|U o c _ [Hv Hi] Ho
    |U c _ [Hv Hi]|U c _ [Hv Hi]|w c _ [Hv Hi] Hn Hc];
    try (apply Hval; [apply valid_bytes|]; auto using BytesOps.from_bytes_inv, BytesOps.from_str_inv, BytesOps.from_secret_inv,
      BytesOps.from_vec_inv, BytesOps.from_string_inv; fail).
  - apply Hval; [apply valid_bytes|]. destruct w; apply BytesOps.from_vec_inv.
  - apply Hval; [apply valid_bytes|exact (BytesOps.from_bytes_inv [])].
  - apply Hval; [apply valid_bytes|]. by apply (BytesCell.run_cell_inv c BytesCell.CIntoUtf8Lossy).
  - by eapply Hchk.
  - unfold from_str in Hc. destruct (find_invalid U s) eqn:Ef; [done|]. injection Hc as <-. apply Hval; [done|by apply BytesOps.from_str_inv].
  - apply from_secret_Ok in Hc as (l & -> & Hl & _). apply Hval; [done|apply BytesOps.from_secret_inv].
  - eapply Hchk; [|exact Hc]. apply BytesOps.from_vec_inv.
  - eapply Hchk; [|exact Hc]. by apply BytesOps.from_string_inv.
  - eapply Hchk; [|exact Hc]. apply BytesOps.from_vec_inv.
  - eapply Hchk; [|exact Hc]. by apply BytesOps.from_string_inv.
  - by eapply Hchk.
  - split; [|by assert (c = b) as -> by (revert Hc; unfold from_super; destruct (sbody _ _); congruence)].
    destruct Hv as [Hv|[He Hv]]; [destruct (from_super_spec S b c HS Hv Hc) as [-> ?]; by left|right].
    split; [done|]. revert Hc. unfold from_super. destruct (sbody _ _); congruence.
  - split; [|done]. destruct Hv as [Hv|Hv]; [left; by apply subtype_valid|by right].
  - pose proof (may_be_empty_ok U HU). destruct Hc as [-> | ->]; (apply Hval; [done|]); [exact (BytesOps.from_str_inv [] eq_refl)|exact (BytesOps.from_bytes_inv [])].
  - split; [|apply BytesCell.transform_inv; [done|by eapply safe_for_ok]]. rewrite transform_value.
    destruct Hv as [Hv|[He ->]]; [left; by apply safe_for_valid|right]. split; [done|by eapply safe_for_nil].
  - unfold promised. destruct (run_cell_value o c Hi Ho) as [-> ?]. done.
  - apply Hval; [apply BytesOps.base64_is_word|apply BytesOps.to_base64_inv].
  - apply Hval; [apply BytesOps.to_base64_plus_arg|apply BytesOps.to_base64_plus_inv].
  - assert (Hci : cell_inv c).
    { apply from_word_Ok in Hc as [_ ->]. apply BytesCell.transform_inv; [done|]. eapply (safe_for_ok Bytes), safe_ascii. by left. }
    split; [|done]. apply from_word_Ok in Hc as [Hw ->]. destruct (decide (cvalue w = [])) as [Hz|Hz].
    + right. split; [by apply Hn|]. rewrite transform_value, Hz. done.
    + destruct Hv as [Hv|[_ Hv]]; [|done]. left. by eapply from_word_valid.
Qed.
End Sound.

(** ** Theorems *)

(** The newtypes that have no zero byte: all but [Bytes]. *)
Definition newtypes : list BytesNewtype := NoNul :: (sname <$> subtypes).

Lemma newtypes_no_nul U l : U ∈ newtypes -> valid U l -> Forall (fun b => b <> x00) l.
Proof.
  intros HU Hv. assert (Hn : valid NoNul l).
  { unfold newtypes, subtypes in HU. cbn in HU. all_newtypes HU; auto with vz. }
  apply valid_iff in Hn as [_ Hn]. eapply List.Forall_impl; [|exact Hn]. by intros b Hb ->.
Qed.

Lemma nonzero_Some b : b <> x00 -> exists p, nonzero b = Some p /\ byte_of (Npos p) = b.
Proof.
  intros Hb. unfold nonzero. destruct (code b) as [|p] eqn:Hc.
  - destruct Hb. by apply code_inj.
  - exists p. split; [done|]. rewrite <- Hc. apply Rfc4648.byte_of_code. done.
Qed.

Lemma nonzero_all l : Forall (fun b => b <> x00) l ->
  exists ps, mapM nonzero l = Some ps /\ map (fun p => byte_of (Npos p)) ps = l.
Proof.
  induction 1 as [|b l Hb _ (ps & Hm & Hp)]; [by exists []|]. destruct (nonzero_Some b Hb) as (p & Hn & Hq).
  exists (p :: ps). cbn [mapM]. rewrite Hn, Hm. cbn. by rewrite Hq, Hp.
Qed.

Lemma cstring_whole l : Forall (fun b => b <> x00) l -> cstring_bytes (l ++ [x00]) = l.
Proof.
  induction 1 as [|b l Hb _ IH]; [done|]. cbn [app cstring_bytes]. rewrite IH. by rewrite (byte_eqb_neq b x00).
Qed.

Section Theorems.
Context {E : Type} `{Base64.EngineOk E}.

(** C28: However a program makes, narrows, widens, transforms and shares
    strings with the safe functions, every value of a newtype has a right UTF-8
    cache and keeps the newtype's promise, unless it is empty and the program
    gave the empty word to [Cmd::from_word], which makes of it a [Cmd] that is
    none.  What is done without a check is sound: no zero among the
    [NonZeroU8]s or inside a [CString], UTF-8 in a [Cmd], and a first byte in a
    [Key] with the same exception. *)
Theorem newtypes_sound e U c :
  made e U c ->
  (valid U (cvalue c) \/ (e = true /\ cvalue c = [])) /\ cell_inv c /\
  (U ∈ newtypes ->
     (exists ps, as_bytes_nonzero c = Some ps /\ map (fun p => byte_of (Npos p)) ps = cvalue c) /\
     cstring_bytes (into_cstring c) = cvalue c) /\
  (U = Key -> (exists b, is_client_tag c = Some b) \/ (e = true /\ cvalue c = [])) /\
  (U = Cmd -> as_str c = Some (cvalue c)).
Proof.
  intros Hm. destruct (made_ok e U c Hm) as [Hv Hi]. split; [done|]. split; [done|]. split; [|split].
  - intros HU. assert (Hn : Forall (fun b => b <> x00) (cvalue c)).
    { destruct Hv as [Hv|[_ ->]]; [by apply (newtypes_no_nul U)|constructor]. }
    split; [by apply nonzero_all|by apply cstring_whole].
  - intros ->. destruct Hv as [Hv|Hv]; [left|by right]. unfold is_client_tag.
    apply valid_iff in Hv as [Hv _]. apply arg_first_check_None in Hv as (b & r & -> & _). by eexists.
  - intros ->. unfold as_str, BytesOps.as_bytes. rewrite utf8_all_ascii; [done|]. destruct Hv as [Hv|[_ ->]]; [|done].
    apply valid_iff in Hv as [_ Hv]. apply Forall_forallb. eapply List.Forall_impl; [|exact Hv]. intros b. byte_cases b.
Qed.

(** The exception: of the empty word safe functions make a [Cmd], of that an
    [Arg] and of that a [Key], and asking the [Key] for its first byte is
    undefined. *)
Theorem empty_key : exists c, from_word empty = Ok c /\ made true Cmd c /\ made true Key c /\ is_client_tag c = None.
Proof.
  eexists. split; [reflexivity|]. assert (Hm : made true Cmd (transform empty (AsciiCasemap true))).
  { apply (made_word true empty); [|done|done]. apply made_empty; [unfold may_be_empty; do 2 right; by left|by left]. }
  split; [exact Hm|]. split; [|done]. apply (made_super true SKey (transform empty (AsciiCasemap true))); [by do 3 right; left| |done].
  apply (made_into_super true SCmd); [by do 6 right; left|exact Hm].
Qed.
End Theorems.

Lemma newtypes_sound_witness :
  let E := Rfc4648.rfc4648_engine in
  let c := transform (BytesCell.from_str (bs "+vz/Key")) (AsciiCasemap false) in
  made false Key c /\ as_bytes_nonzero c = Some [43; 118; 122; 47; 107; 101; 121]%positive /\
  cstring_bytes (into_cstring c) = bs "+vz/key" /\ valid Key (cvalue c).
Proof.
  intros E c. assert (Hm : @made () E false Key c).
  { apply (made_transform false Key (AsciiCasemap false)); [apply safe_ascii; by right; do 4 right; left|].
    apply (made_const false Key (bs "+vz/Key")); reflexivity. }
  destruct (@newtypes_sound () E Rfc4648.rfc4648_engine_ok false Key c Hm) as (H0 & _ & H1 & _).
  split; [exact Hm|]. split; [reflexivity|]. split.
  - refine (proj2 (H1 _)). unfold newtypes, subtypes. by do 4 right; left.
  - destruct H0 as [H0|[H0 _]]; [exact H0|discriminate H0].
Defined.

(** The values behind a string's checks are those of [Strings]: every
    constructor accepts the bytes [find_invalid] does and gives them back, or
    fails with its error. *)
Theorem constructors_check U :
  let bytes_of r := match r with Ok c => Ok (cvalue c) | Err e => Err e end in
  (forall c, bytes_of (from_bytes U c) = Strings.from_bytes U (cvalue c)) /\
  (forall v, bytes_of (try_from_slice U v) = Strings.from_bytes U v /\ bytes_of (try_from_str U v) = Strings.from_bytes U v /\
     bytes_of (try_from_vec U v) = Strings.from_bytes U v /\ bytes_of (try_from_string U v) = Strings.from_bytes U v) /\
  (forall v, cvalue <$> from_str U v = Strings.from_str U v) /\
  (forall S c, bytes_of (from_super S c) = Strings.from_super S (cvalue c)) /\
  (forall w, bytes_of (from_word w) = Strings.from_word (cvalue w)) /\
  (forall c, from_bytes U c = Ok c \/ exists e, from_bytes U c = Err e).
Proof.
  cbv zeta. split_and!.
  - intros c. unfold from_bytes, Strings.from_bytes, BytesOps.as_ref. by destruct (find_invalid U (cvalue c)).
  - intros v. unfold try_from_slice, try_from_str, try_from_vec, try_from_string, try_from_bytes, from_bytes, Strings.from_bytes.
    cbn. by destruct (find_invalid U v).
  - intros v. unfold from_str, Strings.from_str. by destruct (find_invalid U v).
  - intros S c. unfold from_super, Strings.from_super, BytesOps.as_ref. by destruct (sbody S (cvalue c)).
  - intros w. destruct (from_word w) as [c|e] eqn:Hw; [by apply from_word_Ok in Hw as [-> _]|].
    revert Hw. unfold from_word, Strings.from_word. destruct (List.find _ _); congruence.
  - intros c. unfold from_bytes. destruct (find_invalid U _); eauto.
Qed.

(** [from_secret] takes over the memory of a vector it accepts and makes
    it secret, but a vector it refuses is written past its end on the way to
    being erased, unless it is empty. *)
Theorem from_secret_outcome `{Memory.Alloc} U l (h : Memory.Heap) :
  match find_invalid U l with
  | None => exists v h', Memory.to_vec l h = Some (v, h') /\
      from_secret U v h' = Some (Ok (BytesCell.from_secret l), h')
  | Some e =>
      if decide (l = []) then exists v h' h'', Memory.to_vec l h = Some (v, h') /\ from_secret U v h' = Some (Err e, h'')
      else exists v h', Memory.to_vec l h = Some (v, h') /\ from_secret U v h' = None
  end.
Proof.
  unfold Memory.to_vec. rewrite Memory.vec_with_spec by lia.
  set (v := Memory.mkVec _ _ _). set (h' := h ++ _).
  assert (Hget : Memory.slice_get (Memory.Mem (Memory.vptr v) 0 (Memory.vlen v)) h' = Some l).
  { eapply Memory.slice_get_spec; [unfold Memory.holds, h'; by rewrite lookup_app_r, Nat.sub_diag|..]; cbn [v Memory.vlen].
    - by rewrite drop_0, take_app_length' by (by rewrite length_fmap).
    - rewrite length_app, length_fmap. lia. }
  assert (Hs : from_secret U v h' =
    match find_invalid U l with
    | Some e => '(s, h) ← SecretBuf.from_vec v h'; h ← SecretBuf.drop_secret s h; Some (Err e, h)
    | None => Some (Ok (BytesCell.from_secret l), h')
    end) by (unfold from_secret; rewrite Hget; done).
  destruct (find_invalid U l) as [e|]; [|by exists v, h'].
  destruct (decide (l = [])) as [->|Hl].
  - pose proof (SecretBuf.with_capacity_spec 0 h) as Hw. pose proof Hw as Hh. apply SecretBuf.with_capacity_holds in Hh as [Hh _].
    unfold SecretBuf.with_capacity in Hw. rewrite Memory.vec_with_spec in Hw by (simpl; lia). cbn [mbind option_bind] in Hw.
    match type of Hw with _ = ?r => change (SecretBuf.from_vec v h' = r) in Hw end. rewrite Hw in Hs. cbn [mbind option_bind] in Hs.
    rewrite (SecretBuf.drop_secret_holds _ _ _ Hh) in Hs. eauto.
  - exists v, h'. split; [done|]. pose proof (SecretBuf.from_vec_overflows l h Hl) as Hn.
    unfold Memory.to_vec in Hn. rewrite Memory.vec_with_spec in Hn by lia. cbn [mbind option_bind] in Hn.
    change (SecretBuf.from_vec v h' = None) in Hn. rewrite Hs, Hn. done.
Qed.
