(* ===== verification/Conversions.v ===== *)
(** * Which newtype converts into which

    [src/string/subtypes.rs], [src/string/tf/casemap.rs],
    [src/string/tf/trim.rs]: the [conversions!] and [maybe_empty!] lines, each a
    list of what they generate an [impl] for, and the hierarchy of the marker
    traits for transformations, which [impl_subtype!] declares.  A [From] is a
    transmute, so it is right when every string of the one type is one of the
    other; a [TryFrom] checks the bytes again. *)

From S2P Require Import Prelude Strings Transforms.
From S2P Require BytesCell Newtypes.

(** ** [conversions!] *)

Definition line_into : list BytesNewtype := [NoNul].
Definition word_into : list BytesNewtype := [NoNul; Line].
Definition arg_into : list BytesNewtype := [NoNul; Line; Word].
Definition key_into : list BytesNewtype := [NoNul; Line; Word; Arg].
Definition nick_into : list BytesNewtype := [NoNul; Line; Word; Arg].
Definition user_into : list BytesNewtype := [NoNul; Line; Word; Arg].
Definition cmd_into : list BytesNewtype := [NoNul; Line; Word; Arg].

(** Each newtype with what it converts into. *)
Definition conversions : list (BytesNewtype * list BytesNewtype) :=
  [(Line, line_into); (Word, word_into); (Arg, arg_into); (Key, key_into); (Nick, nick_into); (User, user_into); (Cmd, cmd_into)].

(** [From] and [TryFrom] between two of them. *)
Inductive converts : BytesNewtype -> BytesNewtype -> Prop :=
| converts_intro U l V : (U, l) ∈ conversions -> V ∈ l -> converts U V.

(** ** [maybe_empty!] *)

Definition nonul_maybe_empty : BytesNewtype := NoNul.
Definition line_maybe_empty : BytesNewtype := Line.
Definition word_maybe_empty : BytesNewtype := Word.

(** ** Marker traits *)

Inductive Marker :=
| Transform | NoNulSafe | LineSafe | WordSafe | ArgSafe | KeySafe | NickSafe | UserSafe | CmdSafe.

#[global] Instance Marker_eq_dec : EqDecision Marker.
Proof. solve_decision. Defined.

(** The supertrait that [impl_subtype!] gives each. *)
Definition supertrait (m : Marker) : option Marker :=
  match m with
  | Transform => None
  | NoNulSafe => Some Transform
  | LineSafe => Some NoNulSafe
  | WordSafe => Some LineSafe
  | ArgSafe => Some WordSafe
  | KeySafe | NickSafe | UserSafe | CmdSafe => Some ArgSafe
  end.

(** The newtype whose strings can be transformed under a marker. *)
Definition subject (m : Marker) : BytesNewtype :=
  match m with
  | Transform => Bytes | NoNulSafe => NoNul | LineSafe => Line | WordSafe => Word | ArgSafe => Arg
  | KeySafe => Key | NickSafe => Nick | UserSafe => User | CmdSafe => Cmd
  end.

(** The markers of each transformation. *)
Definition ascii_markers (UC : bool) : list Marker :=
  [Transform; NoNulSafe; LineSafe; WordSafe; ArgSafe; KeySafe] ++ (if UC then [CmdSafe] else []).
Definition irc_markers : list Marker := [Transform; NoNulSafe; LineSafe; WordSafe; ArgSafe; NickSafe; UserSafe; KeySafe].
Definition trim_markers : list Marker := [Transform; NoNulSafe; LineSafe].

(** The compiler asks that what has a marker has the supertrait. *)
Definition coherent (l : list Marker) : Prop :=
  forall m s, m ∈ l -> supertrait m = Some s -> s ∈ l.

(** ** Theorems *)

Lemma chain_line l : valid Line l -> valid NoNul l.
Proof. auto with vz. Qed.
Lemma chain_word l : valid Word l -> valid Line l.
Proof. auto with vz. Qed.
Lemma chain_arg l : valid Arg l -> valid Word l.
Proof. auto with vz. Qed.
Lemma chain_last U l : U ∈ [Key; Nick; User; Cmd] -> valid U l -> valid Arg l.
Proof. intros HU. all_newtypes HU; auto with vz. Qed.

Create HintDb conv.
#[export] Hint Resolve chain_line chain_word chain_arg : conv.

Lemma converts_valid U V l : converts U V -> valid U l -> valid V l.
Proof.
  intros [U' l' V' HU HV]. unfold conversions in HU.
  assert (Hlast : forall W x, W ∈ [Key; Nick; User; Cmd] -> valid W x -> valid Arg x) by apply chain_last.
  repeat (rewrite elem_of_cons in HU; destruct HU as [[= -> ->]|HU]); [..|by apply elem_of_nil in HU];
    unfold line_into, word_into, arg_into, key_into, nick_into, user_into, cmd_into in HV; all_newtypes HV; intros Hl; auto with conv;
    (assert (Ha : valid Arg l) by (eapply Hlast; [|exact Hl]; set_solver)); auto 6 with conv.
Qed.

(** The transmute of every [From] is right: what is valid as the one newtype
    is as the other, whose string keeps its bytes, ownership and secrecy.  The
    [TryFrom] back accepts exactly what is valid, so it undoes the [From]. *)
Theorem conversions_sound U V c :
  converts U V -> valid U (BytesCell.cvalue c) ->
  valid V (BytesCell.cvalue (Newtypes.newtype_from c)) /\ Newtypes.newtype_from c = c /\
  Newtypes.try_from_newtype U (Newtypes.newtype_from c) = Ok c /\
  (forall d, Newtypes.try_from_newtype U d = Ok d <-> valid U (BytesCell.cvalue d)).
Proof.
  intros HUV Hv.
  assert (Hf : forall d, Newtypes.try_from_newtype U d = Ok d <-> valid U (BytesCell.cvalue d)).
  { intros d. unfold Newtypes.try_from_newtype, Newtypes.from_bytes, valid, BytesOps.as_ref.
    destruct (find_invalid U _); by split. }
  split; [by eapply converts_valid|]. split; [done|]. split; [by apply Hf|exact Hf].
Qed.

Lemma conversions_sound_witness :
  converts Key Line /\ valid Line (bs "batch") /\
  Newtypes.try_from_newtype Key (BytesCell.from_str (bs "batch")) = Ok (BytesCell.from_str (bs "batch")).
Proof.
  assert (Hc : converts Key Line) by (apply (converts_intro Key key_into); [do 3 right; left|right; left]).
  split; [exact Hc|]. destruct (conversions_sound Key Line (BytesCell.from_str (bs "batch")) Hc eq_refl) as (H1 & _ & H3 & _).
  split; [exact H1|exact H3].
Defined.

(** A newtype has an empty string exactly where [maybe_empty!] gives it one;
    and the markers of each transformation are closed under their supertraits and
    keep the promise of the newtype that each is for. *)
Theorem markers_sound m :
  (valid (subject m) [] <-> subject m ∈ [Bytes; nonul_maybe_empty; line_maybe_empty; word_maybe_empty]) /\
  coherent (ascii_markers false) /\ coherent (ascii_markers true) /\ coherent irc_markers /\ coherent trim_markers /\
  (forall s l, supertrait m = Some s -> valid (subject m) l -> valid (subject s) l) /\
  (forall uc l, m ∈ ascii_markers uc -> valid (subject m) l -> valid (subject m) (cow_ref (transformed (AsciiCasemap uc l)))) /\
  (forall c l, m ∈ irc_markers -> valid (subject m) l -> valid (subject m) (cow_ref (transformed (irc_casemap c l)))) /\
  (forall side l, m ∈ trim_markers -> valid (subject m) l -> valid (subject m) (cow_ref (transformed (TrimAscii side l)))).
Proof.
  assert (Hco : forall l, forallb (fun m => match supertrait m with Some s => bool_decide (s ∈ l) | None => true end) l = true -> coherent l).
  { intros l Hl m' s Hm Hs. rewrite forallb_forall in Hl. specialize (Hl m' (proj1 (list_elem_of_In _ _) Hm)).
    rewrite Hs in Hl. by apply bool_decide_eq_true in Hl. }
  split.
  { split.
    - destruct m; intros Hv; try discriminate Hv; rewrite !elem_of_cons; tauto.
    - rewrite !elem_of_cons, elem_of_nil. by intros [E|[E|[E|[E|[]]]]]; rewrite E. }
  do 4 (split; [apply Hco; by vm_compute|]).
  split; [destruct m; intros s l [= <-]; cbn; (auto with vz || (intros _; apply Newtypes.valid_bytes))|].
  split; [|split].
  - intros uc l Hm. apply Newtypes.safe_for_valid. apply Newtypes.safe_ascii. destruct uc; cbn in Hm; set_solver.
  - intros c l Hm. apply Newtypes.safe_for_valid, Newtypes.safe_irc. cbn in Hm. set_solver.
  - intros side l Hm. apply Newtypes.safe_for_valid, Newtypes.safe_trim. cbn in Hm. set_solver.
Qed.
