(* ===== verification/Mangle.v ===== *)
(** * Hashes of values

    [src/util/hash.rs]: [mangle] with its hasher, which is made once of what is
    known about the platform.  [SipHasher] of the standard library is SipHash-2-4;
    a hasher is its two keys and the bytes it was given. *)

From S2P Require Import Prelude.
From S2P Require Mode Replies.
#[local] Open Scope N_scope.

(** ** [std::hash::SipHasher] *)

Definition wrap (n : N) : N := n mod 2 ^ 64.
Definition rotl (x : N) (k : N) : N := N.lor (wrap (N.shiftl x k)) (N.shiftr x (64 - k)).

Record Sip := mkSip { v0 : N; v1 : N; v2 : N; v3 : N }.

Definition sip_round (s : Sip) : Sip :=
  let v0 := wrap (v0 s + v1 s) in
  let v1 := N.lxor (rotl (v1 s) 13) v0 in
  let v0 := rotl v0 32 in
  let v2 := wrap (v2 s + v3 s) in
  let v3 := N.lxor (rotl (v3 s) 16) v2 in
  let v0 := wrap (v0 + v3) in
  let v3 := N.lxor (rotl v3 21) v0 in
  let v2 := wrap (v2 + v1) in
  let v1 := N.lxor (rotl v1 17) v2 in
  let v2 := rotl v2 32 in
  mkSip v0 v1 v2 v3.

Definition sip_start (k0 k1 : N) : Sip :=
  mkSip (N.lxor k0 0x736f6d6570736575) (N.lxor k1 0x646f72616e646f6d)
    (N.lxor k0 0x6c7967656e657261) (N.lxor k1 0x7465646279746573).

(** A word of bytes, the least significant one first. *)
Fixpoint le_word (l : list byte) : N :=
  match l with
  | [] => 0
  | b :: l => code b + 256 * le_word l
  end.

Definition sip_word (s : Sip) (m : N) : Sip :=
  let s := mkSip (v0 s) (v1 s) (v2 s) (N.lxor (v3 s) m) in
  let s := sip_round (sip_round s) in
  mkSip (N.lxor (v0 s) m) (v1 s) (v2 s) (v3 s).

(** Words of eight bytes; the last holds what is left and the length. *)
Fixpoint sip_words (fuel : nat) (s : Sip) (len : N) (l : list byte) : Sip :=
  match fuel with
  | 0%nat => s
  | S fuel =>
      if (length l <? 8)%nat then sip_word s (N.lor (le_word l) (N.shiftl (len mod 256) 56))
      else sip_words fuel (sip_word s (le_word (take 8 l))) len (drop 8 l)
  end.

Definition siphash (k0 k1 : N) (l : list byte) : N :=
  let s := sip_words (length l + 1) (sip_start k0 k1) (N.of_nat (length l)) l in
  let s := mkSip (v0 s) (v1 s) (N.lxor (v2 s) 255) (v3 s) in
  let s := sip_round (sip_round (sip_round (sip_round s))) in
  N.lxor (N.lxor (v0 s) (v1 s)) (N.lxor (v2 s) (v3 s)).

Record SipHasher := mkHasher { key0 : N; key1 : N; written : list byte }.

Definition new_with_keys (k0 k1 : N) : SipHasher := mkHasher k0 k1 [].
Definition hasher_new : SipHasher := new_with_keys 0 0.
Definition write (h : SipHasher) (l : list byte) : SipHasher := mkHasher (key0 h) (key1 h) (written h ++ l).

(** The [Hash] of [str] and [String]. *)
Definition write_str (h : SipHasher) (s : list byte) : SipHasher := write h (s ++ [xff]).

(** [finish] leaves the hasher as it is. *)
Definition finish (h : SipHasher) : N := siphash (key0 h) (key1 h) (written h).

(** ** [mangle] *)

(** What [std::env::consts] and the [whoami] crate answer. *)
Record Platform := mkPlatform {
  ARCH : list byte;
  OS : list byte;
  hostname : list byte;
  langs : option (list (list byte));
  distro : list byte;
  devicename : list byte;
}.

(** What [HASHER] is initialised with; [whoami] is the feature. *)
Definition make_hasher (whoami : bool) (p : Platform) : SipHasher :=
  let seeder := write_str hasher_new (ARCH p) in
  let seeder :=
    if whoami then
      let seeder := write_str seeder (hostname p) in
      match langs p with Some langs => foldl write_str seeder langs | None => seeder end
    else seeder in
  let key_a := finish seeder in
  let seeder := write_str seeder (OS p) in
  let seeder := if whoami then write_str (write_str seeder (distro p)) (devicename p) else seeder in
  let key_b := finish seeder in
  new_with_keys key_a key_b.

(** [OnceLock::get_or_init]. *)
Definition get_or_init {T} (cell : option T) (init : T) : T * option T :=
  match cell with Some t => (t, cell) | None => (init, Some init) end.

Definition fold32 (hash : N) : N := N.lxor (N.shiftr hash 32) (N.land hash 0xFFFFFFFF) mod 2 ^ 32.

(** [mangle] of a value whose [Hash] writes [h]; [HASHER] is a static. *)
Definition mangle (whoami : bool) (p : Platform) (HASHER : option SipHasher) (h : list byte) : N * option SipHasher :=
  let '(hasher, HASHER) := get_or_init HASHER (make_hasher whoami p) in
  let hasher := write hasher h in
  let hash := finish hasher in
  (fold32 hash, HASHER).

(** Calls one after the other, each with what the platform answers by then. *)
Fixpoint mangles (whoami : bool) (HASHER : option SipHasher) (calls : list (Platform * list byte)) : list N :=
  match calls with
  | [] => []
  | (p, h) :: calls =>
      let '(r, HASHER) := mangle whoami p HASHER h in
      r :: mangles whoami HASHER calls
  end.

(** The hash under given keys. *)
Definition mangle_with (hasher : SipHasher) (h : list byte) : N := fold32 (finish (write hasher h)).

(** ** The hash function *)

(** The test vectors of its authors, for no bytes and for fifteen. *)
Example siphash_vectors :
  let k0 := 0x0706050403020100 in let k1 := 0x0f0e0d0c0b0a0908 in
  siphash k0 k1 [] = 0x726fdb47dd0e0e31 /\
  siphash k0 k1 (byte_of <$> (N.of_nat <$> seq 0 15)) = 0xa129ca6149be45e5.
Proof. by vm_compute. Qed.

Lemma sip_words_fuel s len : forall f g l, (length l < f)%nat -> (length l < g)%nat -> sip_words f s len l = sip_words g s len l.
Proof.
  intros f. revert s. induction f as [|f IH]; intros s [|g] l Hf Hg; [lia..|]. cbn [sip_words].
  destruct (Nat.ltb_spec (length l) 8); [done|]. apply IH; rewrite length_drop; lia.
Qed.

(** Each word of eight bytes is taken in by itself, so the fuel of [siphash] is
    enough. *)
Lemma siphash_word f s len w l : length w = 8%nat -> (length l < f)%nat ->
  sip_words (length (w ++ l) + 1) s len (w ++ l) = sip_words f (sip_word s (le_word w)) len l.
Proof.
  intros Hw Hf. replace (length (w ++ l) + 1)%nat with (S (length (w ++ l))) by lia. cbn [sip_words].
  rewrite (proj2 (Nat.ltb_ge _ _)) by (rewrite length_app; lia).
  rewrite take_app_length', drop_app_length' by done. apply sip_words_fuel; rewrite ?length_app; lia.
Qed.

(** ** Theorems *)

Lemma fold32_bound hash : fold32 hash < 2 ^ 32.
Proof. by apply N.mod_lt. Qed.

(** The cast to 32 bits loses nothing of the fold of a 64-bit hash. *)
Lemma fold32_xor hash : hash < 2 ^ 64 -> fold32 hash = N.lxor (hash / 2 ^ 32) (hash mod 2 ^ 32).
Proof.
  intros Hh. unfold fold32. change 0xFFFFFFFF with (N.ones 32). rewrite N.land_ones, N.shiftr_div_pow2.
  apply N.mod_small. assert (Hb : forall x, x < 2 ^ 32 -> x = N.land x (N.ones 32)).
  { intros x Hx. by rewrite N.land_ones, N.mod_small. }
  assert (H1 : hash / 2 ^ 32 < 2 ^ 32) by (apply N.Div0.div_lt_upper_bound; exact Hh).
  assert (H2 : hash mod 2 ^ 32 < 2 ^ 32) by (apply N.mod_lt; lia).
  assert (Hx : N.lxor (hash / 2 ^ 32) (hash mod 2 ^ 32) = N.land (N.lxor (hash / 2 ^ 32) (hash mod 2 ^ 32)) (N.ones 32)).
  { rewrite (Hb _ H1), (Hb _ H2) at 1. apply N.bits_inj. intros i. rewrite !N.land_spec, !N.lxor_spec, !N.land_spec.
    destruct (N.testbit (N.ones 32) i); rewrite ?andb_true_r, ?andb_false_r; reflexivity. }
  rewrite Hx, N.land_ones. apply N.mod_lt. lia.
Qed.

(** Every word stays within 64 bits. *)
Definition sip_ok (s : Sip) : Prop := v0 s < 2 ^ 64 /\ v1 s < 2 ^ 64 /\ v2 s < 2 ^ 64 /\ v3 s < 2 ^ 64.

Lemma xor_bound a b : a < 2 ^ 64 -> b < 2 ^ 64 -> N.lxor a b < 2 ^ 64.
Proof.
  rewrite !Mode.set_wf_bits. intros Ha Hb i Hi. by rewrite N.lxor_spec, Ha, Hb.
Qed.

Lemma or_bound a b : a < 2 ^ 64 -> b < 2 ^ 64 -> N.lor a b < 2 ^ 64.
Proof.
  rewrite !Mode.set_wf_bits. intros Ha Hb i Hi. by rewrite N.lor_spec, Ha, Hb.
Qed.

Lemma wrap_bound n : wrap n < 2 ^ 64.
Proof. by apply N.mod_lt. Qed.

Lemma rotl_bound x k : x < 2 ^ 64 -> rotl x k < 2 ^ 64.
Proof.
  intros Hx. apply or_bound; [apply wrap_bound|]. rewrite N.shiftr_div_pow2.
  apply N.Div0.div_lt_upper_bound. assert (2 ^ (64 - k) <> 0) by (apply N.pow_nonzero; lia). nia.
Qed.

Lemma sip_round_ok s : sip_ok s -> sip_ok (sip_round s).
Proof. intros (H0 & H1 & H2 & H3). repeat split; repeat (apply wrap_bound || apply xor_bound || apply rotl_bound || assumption). Qed.

Lemma sip_word_ok s m : sip_ok s -> m < 2 ^ 64 -> sip_ok (sip_word s m).
Proof.
  intros (H0 & H1 & H2 & H3) Hm. unfold sip_word.
  assert (Hs : sip_ok (sip_round (sip_round (mkSip (v0 s) (v1 s) (v2 s) (N.lxor (v3 s) m))))).
  { apply sip_round_ok, sip_round_ok. repeat split; cbn; (assumption || by apply xor_bound). }
  destruct Hs as (S0 & S1 & S2 & S3). repeat split; cbn [v0 v1 v2 v3]; (assumption || by apply xor_bound).
Qed.

Lemma le_word_bound l : le_word l < 2 ^ (8 * N.of_nat (length l)).
Proof.
  induction l as [|b l IH]; [done|]. cbn [le_word length]. pose proof (code_lt b) as Hb.
  replace (8 * N.of_nat (S (length l))) with (8 + 8 * N.of_nat (length l)) by lia. rewrite N.pow_add_r. change (2 ^ 8) with 256. nia.
Qed.

Lemma le_word_64 l : (length l <= 8)%nat -> le_word l < 2 ^ 64.
Proof. intros Hl. eapply N.lt_le_trans; [apply le_word_bound|]. apply N.pow_le_mono_r; lia. Qed.

Lemma sip_words_ok fuel : forall s len l, sip_ok s -> sip_ok (sip_words fuel s len l).
Proof.
  induction fuel as [|fuel IH]; intros s len l Hs; [done|]. cbn [sip_words]. destruct (Nat.ltb_spec (length l) 8) as [Hl|_].
  - apply sip_word_ok; [done|]. apply or_bound; [by apply le_word_64, Nat.lt_le_incl|].
    rewrite N.shiftl_mul_pow2. pose proof (N.mod_lt len 256). change (2 ^ 64) with (256 * 2 ^ 56). nia.
  - apply IH, sip_word_ok; [done|]. apply le_word_64. rewrite length_take. lia.
Qed.

Lemma siphash_bound k0 k1 l : k0 < 2 ^ 64 -> k1 < 2 ^ 64 -> siphash k0 k1 l < 2 ^ 64.
Proof.
  intros H0 H1. unfold siphash.
  assert (Hs : sip_ok (sip_words (length l + 1) (sip_start k0 k1) (N.of_nat (length l)) l)).
  { apply sip_words_ok. repeat split; (apply xor_bound; [assumption|by vm_compute]). }
  destruct Hs as (S0 & S1 & S2 & S3). set (s := sip_words _ _ _ _) in *.
  assert (Hf : sip_ok (sip_round (sip_round (sip_round (sip_round (mkSip (v0 s) (v1 s) (N.lxor (v2 s) 255) (v3 s))))))).
  { do 4 apply sip_round_ok. repeat split; cbn [v0 v1 v2 v3]; try assumption. apply xor_bound; [exact S2|reflexivity]. }
  destruct Hf as (F0 & F1 & F2 & F3). apply xor_bound; by apply xor_bound.
Qed.

Definition keyed (h : SipHasher) : Prop := key0 h < 2 ^ 64 /\ key1 h < 2 ^ 64.

Lemma finish_bound h : keyed h -> finish h < 2 ^ 64.
Proof. intros [H0 H1]. unfold finish. exact (siphash_bound _ _ _ H0 H1). Qed.

#[local] Opaque siphash.

Lemma foldl_keyed l : forall h, keyed h -> keyed (foldl write_str h l).
Proof. induction l as [|s l IH]; intros h Hh; [done|]. by apply IH. Qed.

Lemma make_hasher_keyed whoami p : keyed (make_hasher whoami p).
Proof.
  assert (Hn : keyed hasher_new) by done.
  split; apply finish_bound; destruct whoami; try done; destruct (langs p) as [l|]; try done.
  - by apply foldl_keyed.
  - change (keyed (foldl write_str (write_str (write_str hasher_new (ARCH p)) (hostname p)) l)). by apply foldl_keyed.
Qed.

Lemma mangle_some whoami p hasher h : mangle whoami p (Some hasher) h = (mangle_with hasher h, Some hasher).
Proof. reflexivity. Qed.

Lemma mangles_init whoami hasher calls :
  mangles whoami (Some hasher) calls = (fun c => mangle_with hasher c.2) <$> calls.
Proof.
  induction calls as [|[p h] calls IH]; [done|]. cbn [mangles]. rewrite mangle_some, IH. reflexivity.
Qed.

(** Only what the platform says at the first call counts: from then on the
    hash of a value is the same, however the host is renamed, and the halves of
    the 64-bit hash folded together.
    So what [Ping] sends is what it will compare the reply with, and its octal
    digits read back as that. *)
Theorem mangle_once whoami p h calls :
  let hasher := make_hasher whoami p in
  mangles whoami None ((p, h) :: calls) = mangle_with hasher h :: ((fun c => mangle_with hasher c.2) <$> calls) /\
  (forall v, mangle_with hasher v < 2 ^ 32 /\
     (let hash := finish (write hasher v) in mangle_with hasher v = N.lxor (hash / 2 ^ 32) (hash mod 2 ^ 32)) /\
     Replies.octal_parse 0 (Replies.octal (mangle_with hasher v)) = Some (mangle_with hasher v)).
Proof.
  cbv zeta. split.
  - cbn [mangles]. unfold mangle at 1. cbn [get_or_init]. by rewrite mangles_init.
  - intros v. pose proof (fold32_bound (finish (write (make_hasher whoami p) v))) as Hb. split; [exact Hb|].
    split; [cbv zeta; apply fold32_xor, finish_bound; apply (make_hasher_keyed whoami p)|].
    unfold Replies.octal. rewrite Replies.octal_digits_parse; [done| |done].
    eapply N.lt_le_trans; [exact Hb|]. by vm_compute.
Qed.

(** Where the platform is known by its architecture and system only, the keys
    are the same wherever those are. *)
Lemma make_hasher_plain p q : ARCH p = ARCH q -> OS p = OS q -> make_hasher false p = make_hasher false q.
Proof. intros Ha Ho. unfold make_hasher. by rewrite Ha, Ho. Qed.
