(* ===== verification/Kinds.v ===== *)
(** * More of numerics and message kinds

    [src/ircmsg/numeric.rs], [src/ircmsg/servermsgkind.rs]: conversions,
    comparisons, hashing and the [Borrow]s that [FlatMap] and hash maps look
    names up by, with what [Borrow] demands of them. *)

From S2P Require Import Prelude Strings Utf8 Numeric.
From S2P Require BytesCell Newtypes.

(** ** [Numeric] *)

Definition from_bytes_unchecked (a b c : byte) : Numeric := mkNumeric a b c.

(** [as_str], [AsRef<str>]; undefined for what is not UTF-8. *)
Definition numeric_as_str (n : Numeric) : option (list byte) :=
  if utf8_valid (as_bytes n) then Some (as_bytes n) else None.
Definition numeric_as_ref_str (n : Numeric) : option (list byte) := numeric_as_str n.
(** [AsRef<[u8]>], [Borrow<[u8]>]. *)
Definition numeric_as_ref (n : Numeric) : list byte := as_bytes n.
Definition numeric_borrow (n : Numeric) : list byte := as_bytes n.
Definition numeric_fmt (n : Numeric) : option (list byte) := numeric_as_str n.
(** The string [Debug] is asked of. *)
Definition numeric_debug (n : Numeric) : option (list byte) := numeric_as_str n.
Definition numeric_hash {S} (hash_slice : list byte -> S -> S) (n : Numeric) (state : S) : S := hash_slice (as_bytes n) state.

(** [From<Numeric> for u16]. *)
Definition u16_from (value : Numeric) : N := into_int value.

(** [TryFrom<u16>]; the outer [None] is the panic of [unwrap_err]. *)
Definition try_from_u16 (value : N) : option (result Numeric ()) :=
  match from_int value with
  | Some v => Some (Ok v)
  | None => if (value <? 256)%N then None else Some (Err ())
  end.

(** [write_to], with a [write_all]. *)
Definition write_to {W R} (write_all : list byte -> W -> R * W) (n : Numeric) (w : W) : R * W := write_all (as_bytes n) w.

(** The derived [Ord] of the three bytes. *)
Definition numeric_cmp (a b : Numeric) : comparison := bytes_cmp (as_bytes a) (as_bytes b).

(** ** [ServerMsgKindRaw] *)

Definition from_cmd (value : list byte) : ServerMsgKindRaw := KCmd value.
Definition from_numeric (value : Numeric) : ServerMsgKindRaw := KNumeric value.

(** [Borrow<[u8]>]. *)
Definition borrow (k : ServerMsgKindRaw) : list byte :=
  match k with KNumeric n => numeric_as_ref n | KCmd c => c end.

Definition hash {S} (hash_slice : list byte -> S -> S) (k : ServerMsgKindRaw) (state : S) : S :=
  match k with KNumeric n => numeric_hash hash_slice n state | KCmd c => hash_slice c state end.

(** The derived [Ord]: a numeric is less than every command. *)
Definition kind_cmp (a b : ServerMsgKindRaw) : comparison :=
  match a, b with
  | KNumeric n, KNumeric m => numeric_cmp n m
  | KNumeric _, KCmd _ => Lt
  | KCmd _, KNumeric _ => Gt
  | KCmd c, KCmd d => bytes_cmp c d
  end.

Definition as_str (k : ServerMsgKindRaw) : option (list byte) :=
  match k with
  | KNumeric n => numeric_as_str n
  | KCmd c => Newtypes.as_str (BytesCell.from_bytes c)
  end.

(** [PartialEq] with [str], [u8] slices and references to them, by way of
    [as_arg]. *)
Definition eq_str (k : ServerMsgKindRaw) (other : list byte) : bool := bool_decide (as_arg k = other).
Definition eq_slice (k : ServerMsgKindRaw) (other : list byte) : bool := bool_decide (as_arg k = other).
Definition eq_str_ref (k : ServerMsgKindRaw) (other : list byte) : bool := bool_decide (as_arg k = other).
Definition eq_slice_ref (k : ServerMsgKindRaw) (other : list byte) : bool := bool_decide (as_arg k = other).

Definition eq_cmd (k : ServerMsgKindRaw) (other : list byte) : bool :=
  match k with KCmd cmd => bool_decide (cmd = other) | KNumeric _ => false end.

Definition eq_numeric (k : ServerMsgKindRaw) (other : Numeric) : bool :=
  match k with KNumeric num => bool_decide (num = other) | KCmd _ => false end.

Definition owning (k : ServerMsgKindRaw) : ServerMsgKindRaw :=
  match k with KNumeric num => KNumeric num | KCmd c => KCmd c end.

(** ** Theorems *)

Lemma numeric_wf_utf8 n : numeric_wf n -> utf8_valid (as_bytes n) = true.
Proof.
  destruct n as [a b c]. intros (Ha & Hb & Hc). cbn [n0 n1 n2] in *. apply utf8_all_ascii.
  cbn. assert (K : forall d, is_ascii_digit d = true -> is_ascii d = true) by (intros d; byte_cases d).
  by rewrite !K.
Qed.

Lemma cmd_utf8 c : valid Cmd c -> utf8_valid c = true.
Proof.
  intros [_ Hv]%valid_iff. apply utf8_all_ascii, Forall_forallb. eapply List.Forall_impl; [|exact Hv]. intros b. byte_cases b.
Qed.

(** A digit is less than every letter of a command. *)
Lemma digit_lt_upper d u : is_ascii_digit d = true -> cmd_byte_check u = false -> (code d ?= code u)%N = Lt.
Proof.
  intros Hd Hu. apply N.compare_lt_iff. assert (code d < 58)%N by (revert Hd; clear; by byte_cases d).
  assert (64 < code u)%N by (revert Hu; clear; by byte_cases u). lia.
Qed.

Lemma numeric_lt_cmd n c : numeric_wf n -> valid Cmd c -> bytes_cmp (as_bytes n) c = Lt.
Proof.
  intros [Hd _] [Ho Hf]%valid_iff. destruct c as [|u c]; [done|]. apply Forall_cons in Hf as [Hu _].
  cbn. by rewrite digit_lt_upper.
Qed.

Lemma bytes_cmp_gt a b : bytes_cmp a b = Lt -> bytes_cmp b a = Gt.
Proof. intros Hlt. exact (proj2 (kcmp_gt b a) Hlt). Qed.

(** What [Borrow<[u8]>] demands of message kinds holds: their equality,
    order and hash are those of the bytes they are looked up by, so a name map
    sorted by kinds can be searched by bytes. *)
Theorem kinds_borrow a b :
  kind_wf a -> kind_wf b ->
  (a = b <-> borrow a = borrow b) /\
  kind_cmp a b = bytes_cmp (borrow a) (borrow b) /\
  (forall S (hs : list byte -> S -> S) st, hash hs a st = hs (borrow a) st) /\
  borrow a = as_arg a /\ as_str a = Some (borrow a) /\ valid Arg (borrow a).
Proof.
  intros Ha Hb.
  assert (Hc : kind_cmp a b = bytes_cmp (borrow a) (borrow b)).
  { destruct a as [n|c], b as [m|d]; [done|..|done]; cbn in *.
    - symmetry. by apply numeric_lt_cmd.
    - symmetry. by apply bytes_cmp_gt, numeric_lt_cmd. }
  split; [|split; [done|]].
  - split; [by intros ->|]. intros E. rewrite E in Hc. pose proof (kcmp_refl (borrow b)) as Hr. cbn [kcmp bytes_key_ord] in Hr.
    rewrite Hr in Hc. destruct a as [[a0 a1 a2]|c], b as [[b0 b1 b2]|d]; try done; unfold borrow, numeric_as_ref, as_bytes in E; cbn in E; congruence.
  - split; [by destruct a|]. split; [by destruct a|]. destruct a as [n|c]; cbn in *.
    + unfold numeric_as_str. rewrite numeric_wf_utf8 by done. split; [done|].
      destruct Ha as (H0 & H1 & H2). apply valid_iff. split.
      * apply arg_first_check_None. eexists _, _. split; [done|]. intros E. by rewrite E in H0.
      * assert (K : forall d, is_ascii_digit d = true -> is_invalid Arg d = false) by (intros d; byte_cases d).
        repeat constructor; by apply K.
    + unfold Newtypes.as_str, BytesOps.as_bytes. cbn. rewrite cmd_utf8 by done. split; [done|auto with vz].
Qed.

Lemma kinds_borrow_witness :
  kind_cmp (KNumeric (mkNumeric "9" "9" "9")) (KCmd (bs "AWAY")) = bytes_cmp (bs "999") (bs "AWAY").
Proof. refine (proj1 (proj2 (kinds_borrow (KNumeric (mkNumeric "9" "9" "9")) (KCmd (bs "AWAY")) _ _))); [done|reflexivity]. Defined.

(** A kind equals a string exactly if it is the kind of that string, and
    the comparisons with commands and numerics agree with it; integers become
    numerics up to 999, with no panic, and come back. *)
Theorem kinds_compare k :
  kind_wf k ->
  (forall s, eq_str k s = true <-> borrow k = s) /\
  (forall s, eq_slice k s = eq_str k s /\ eq_str_ref k s = eq_str k s /\ eq_slice_ref k s = eq_str k s) /\
  (forall c, valid Cmd c -> eq_cmd k c = eq_str k c) /\
  (forall n, numeric_wf n -> eq_numeric k n = eq_str k (as_bytes n)) /\
  owning k = k /\
  (forall i, (i < 65536)%N ->
     match try_from_u16 i with
     | Some (Ok n) => (i < 1000)%N /\ u16_from n = i /\ numeric_wf n
     | Some (Err _) => (1000 <= i)%N
     | None => False
     end).
Proof.
  intros Hk. split_and!.
  - intros s. unfold eq_str. rewrite bool_decide_eq_true. by destruct k.
  - done.
  - intros c Hc. unfold eq_str. destruct k as [n|d]; cbn; [|done]. symmetry. apply bool_decide_eq_false.
    intros E. rewrite <- E in Hc. pose proof (from_bytes_cmd _ Hc) as Hn. cbn in Hk. apply from_bytes_wf in Hk. congruence.
  - intros n Hn. unfold eq_str. destruct k as [m|d]; cbn.
    + apply bool_decide_ext. split; [by intros ->|]. destruct m, n. unfold as_bytes. cbn. congruence.
    + symmetry. apply bool_decide_eq_false. intros E. cbn in Hk. rewrite E in Hk. pose proof (from_bytes_cmd _ Hk) as K.
      apply from_bytes_wf in Hn. congruence.
  - by destruct k.
  - intros i _. unfold try_from_u16, u16_from. destruct (from_int i) as [n|] eqn:Hi.
    + assert (Hlt : (i < 1000)%N) by (unfold from_int in Hi; destruct (N.ltb_spec i 1000); done).
      destruct (proj1 numeric_bijection i Hlt) as (n' & Hn' & Hv & Hw). rewrite Hi in Hn'. by injection Hn' as ->.
    + unfold from_int in Hi. destruct (N.ltb_spec i 1000); [done|]. by rewrite (proj2 (N.ltb_ge i 256)) by lia.
Qed.

Lemma kinds_compare_witness : eq_cmd (KCmd (bs "PING")) (bs "PING") = eq_str (KCmd (bs "PING")) (bs "PING").
Proof. exact (proj1 (proj2 (proj2 (kinds_compare (KCmd (bs "PING")) eq_refl))) (bs "PING") eq_refl). Defined.
