(* ===== verification/NameTypes.v ===== *)
(** * Names and name maps

    [src/names/types.rs], [src/names/cmd.rs], [src/names/isupport.rs],
    [src/names/cap.rs], [src/macros.rs]: what [Names] leaves out.  A name is a
    value of a type that stands for one tag of a class; here are the lookups by
    name of a map and of its guard, the iterator over a map's keys, and what
    [defn_cmd!], [defn_isupport!] and [defn_cap!] define for each name. *)

From stdpp Require Import list.
From S2P Require Import Prelude Strings Utf8 Numeric FlatMap Names.
From S2P Require BytesCell BytesOps Newtypes Kinds FlatMapOps Base64 Rfc4648 Msg.
Import BytesCell (Cell, cvalue).

(** [Name]: the tag a name stands in for. *)
Class Name (N : Type) := raw_of : N -> list byte.

Section NameMapOps.
Context {U : Type} `{NameClass U} {V : Type} {N : Type} `{Name N}.
Implicit Types (m : NameMap U V) (tag : N) (g : @EditGuard (U * V)).

(** ** [tagmap_methods!] *)

Definition get_union m tag : option U := get_union_raw m (raw_of tag).
Definition get_extra m tag : option V := get_extra_raw m (raw_of tag).
Definition update_extra m tag (f : V -> V) : NameMap U V := update_extra_raw m (raw_of tag) f.

(** [get_both_mut], with what is done to the extra value. *)
Definition update_both {T} m (name : NameValued U T) (f : V -> V) : option (result T ParseError) * NameMap U V :=
  match FlatMap.get extract_key m (as_raw name) with
  | Some e => (Some (from_union name e.1), FlatMapOps.get_mut extract_key m (as_raw name) (fun e => (e.1, f e.2)))
  | None => (None, m)
  end.

(** The same on an edit guard. *)
Definition guard_get_union_raw g (t : list byte) : option U := fst <$> guard_get extract_key g t.
Definition guard_get_extra_raw g (t : list byte) : option V := snd <$> guard_get extract_key g t.
Definition guard_get_union g tag : option U := guard_get_union_raw g (raw_of tag).
Definition guard_get_extra g tag : option V := guard_get_extra_raw g (raw_of tag).
Definition guard_update_extra_raw g (t : list byte) (f : V -> V) : @EditGuard (U * V) :=
  FlatMapOps.guard_get_mut extract_key g t (fun e => (e.1, f e.2)).
Definition guard_update_extra g tag (f : V -> V) : @EditGuard (U * V) := guard_update_extra_raw g (raw_of tag) f.
Definition guard_get_parsed {T} g (name : NameValued U T) : option (result T ParseError) :=
  (fun e => from_union name e.1) <$> guard_get extract_key g (as_raw name).
Definition guard_get_both {T} g (name : NameValued U T) : option (result T ParseError * V) :=
  (fun e => (from_union name e.1, e.2)) <$> guard_get extract_key g (as_raw name).
Definition guard_update_both {T} g (name : NameValued U T) (f : V -> V) : option (result T ParseError) * @EditGuard (U * V) :=
  match guard_get extract_key g (as_raw name) with
  | Some e => (Some (from_union name e.1), guard_update_extra_raw g (as_raw name) f)
  | None => (None, g)
  end.
Definition guard_clear g : @EditGuard (U * V) := FlatMap.guard_clear g.
Definition guard_len g : nat := FlatMapOps.guard_len g.
Definition guard_is_empty g : bool := FlatMapOps.guard_is_empty g.

(** [remove]; the outer [None] is a panic. *)
Definition remove g tag : option (option (U * V) * @EditGuard (U * V)) := remove_raw g (raw_of tag).

Definition default : NameMap U V := new.

(** ** [NameMapIter] *)

(** The elements left. *)
Record NameMapIter := mkIter { slice : list (U * V) }.

Definition iter_keys m : NameMapIter := mkIter (FlatMapOps.as_slice m).

Definition next (it : NameMapIter) : option (list byte) * NameMapIter :=
  match slice it with
  | [] => (None, it)
  | e :: rest => (Some (get_tag e.1), mkIter rest)
  end.

Definition next_back (it : NameMapIter) : option (list byte) * NameMapIter :=
  match slice it with
  | [] => (None, it)
  | e :: l => (Some (get_tag (List.last (e :: l) e).1), mkIter (removelast (e :: l)))
  end.

Definition size_hint (it : NameMapIter) : nat * option nat := (length (slice it), Some (length (slice it))).

(** Calls from the front, [true], and from the back; what each side gave. *)
Fixpoint run_iter (calls : list bool) (it : NameMapIter) : list (list byte) * list (list byte) * NameMapIter :=
  match calls with
  | [] => ([], [], it)
  | front :: calls =>
      let (r, it) := (if front then next it else next_back it) in
      let '(fronts, backs, it) := run_iter calls it in
      match r with
      | Some k => if front then (k :: fronts, backs, it) else (fronts, k :: backs, it)
      | None => (fronts, backs, it)
      end
  end.
End NameMapOps.

(** ** Names of commands *)

(** A command's name is its identifier. *)
Definition CMD (cmd : list byte) : Cell := Newtypes.from_unchecked (BytesCell.from_str cmd).
Definition as_cmd (cmd : list byte) : Cell := CMD cmd.
Definition cmd_fmt (cmd : list byte) : list byte := cmd.
Definition cmd_hash {S} (hash_slice : list byte -> S -> S) (cmd : list byte) (state : S) : S :=
  BytesOps.hash hash_slice (as_cmd cmd) state.
Definition cmd_from (v : list byte) : Cell := BytesCell.clone (as_cmd v).
Definition cmd_eq (cmd : list byte) (other : Cell) : bool := BytesCell.eq (as_cmd cmd) other.
Definition cmd_eq_rev (self : Cell) (other : list byte) : bool := cmd_eq other self.
Definition cmd_borrow (cmd : list byte) : Cell := as_cmd cmd.

Definition KIND (cmd : list byte) : ServerMsgKindRaw := KCmd cmd.
Definition as_kind (cmd : list byte) : ServerMsgKindRaw := KIND cmd.
Definition kind_borrow (cmd : list byte) : ServerMsgKindRaw := as_kind cmd.
Definition kind_from (v : list byte) : ServerMsgKindRaw := as_kind v.
Definition kind_eq (cmd : list byte) (other : ServerMsgKindRaw) : bool := bool_decide (as_kind cmd = other).
Definition kind_eq_rev (self : ServerMsgKindRaw) (other : list byte) : bool := kind_eq other self.

(** The two classes a command may be a name in. *)
Inductive ClientCmd := client_cmd (cmd : list byte).
Definition client_cmd_raw : Name ClientCmd := fun '(client_cmd cmd) => cvalue (as_cmd cmd).
#[export] Existing Instance client_cmd_raw.
Inductive ServerCmd := server_cmd (cmd : list byte).
Definition server_cmd_raw : Name ServerCmd := fun '(server_cmd cmd) => as_arg (as_kind cmd).
#[export] Existing Instance server_cmd_raw.

(** ** Names of tokens and capabilities *)

(** An identifier with the key it stands in for; a token's key is its
    identifier. *)
Record KeyName := mkKeyName { ident : list byte; key : list byte }.

Definition isupport_name (key : list byte) : KeyName := mkKeyName key key.

Definition cap_names : list KeyName :=
  [mkKeyName (bs "ACCOUNT_NOTIFY") (bs "account-notify"); mkKeyName (bs "ACCOUNT_TAG") (bs "account-tag");
   mkKeyName (bs "BATCH") (bs "batch"); mkKeyName (bs "CHGHOST") (bs "chghost");
   mkKeyName (bs "ECHO_MESSAGE") (bs "echo-message"); mkKeyName (bs "EXTENDED_JOIN") (bs "extended-join");
   mkKeyName (bs "EXTENDED_MONITOR") (bs "extended-monitor"); mkKeyName (bs "INVITE_NOTIFY") (bs "invite-notify");
   mkKeyName (bs "LABELED_RESPONSE") (bs "labeled-response"); mkKeyName (bs "MESSAGE_TAGS") (bs "message-tags");
   mkKeyName (bs "MSGID") (bs "msgid"); mkKeyName (bs "MULTI_PREFIX") (bs "multi-prefix"); mkKeyName (bs "SASL") (bs "sasl");
   mkKeyName (bs "SERVER_TIME") (bs "server-time"); mkKeyName (bs "SETNAME") (bs "setname");
   mkKeyName (bs "STANDARD_REPLIES") (bs "standard-replies"); mkKeyName (bs "STS") (bs "sts");
   mkKeyName (bs "USERHOST_IN_NAMES") (bs "userhost-in-names")].

Definition NAME (n : KeyName) : Cell := Newtypes.from_unchecked (BytesCell.from_str (key n)).
Definition as_key (n : KeyName) : Cell := NAME n.
Definition key_fmt (n : KeyName) : list byte := ident n.
Definition key_hash {S} (hash_slice : list byte -> S -> S) (n : KeyName) (state : S) : S :=
  BytesOps.hash hash_slice (as_key n) state.
Definition key_from (v : KeyName) : Cell := BytesCell.clone (as_key v).
Definition key_eq (n : KeyName) (other : Cell) : bool := BytesCell.eq (as_key n) other.
Definition key_eq_rev (self : Cell) (other : KeyName) : bool := key_eq other self.
Definition key_borrow (n : KeyName) : Cell := as_key n.
Definition key_raw : Name KeyName := fun n => cvalue (as_key n).
#[export] Existing Instance key_raw.

(** What [defn_isupport!] defines; a token is its identifier. *)
Definition token_NAME (token : list byte) : Cell := Newtypes.from_unchecked (BytesCell.from_str token).
Definition token_as_key (token : list byte) : Cell := token_NAME token.
Definition token_fmt (token : list byte) : list byte := token.
Definition token_hash {S} (hash_slice : list byte -> S -> S) (token : list byte) (state : S) : S :=
  BytesOps.hash hash_slice (token_as_key token) state.
Definition token_from (v : list byte) : Cell := BytesCell.clone (token_as_key v).
Definition token_eq (token : list byte) (other : Cell) : bool := BytesCell.eq (token_as_key token) other.
Definition token_eq_rev (self : Cell) (other : list byte) : bool := token_eq other self.
Definition token_borrow (token : list byte) : Cell := token_as_key token.
Inductive Token := a_token (token : list byte).
Definition token_raw : Name Token := fun '(a_token token) => cvalue (token_as_key token).
#[export] Existing Instance token_raw.

Definition isupport_names : list KeyName :=
  isupport_name <$> (unitary_keys ++ strparse_keys ++ strparse_option_keys ++ mode_keys.*1 ++
    [as_raw NETWORK; as_raw CHANMODES; as_raw PREFIX; as_raw USERMODES]).

(** ** Theorems *)

Section Iter.
Context {U : Type} `{NameClass U} {V : Type}.
Implicit Types m : NameMap U V.

Lemma next_back_snoc (l : list (U * V)) e : next_back (mkIter (l ++ [e])) = (Some (get_tag e.1), mkIter l).
Proof.
  unfold next_back. cbn [slice]. destruct (l ++ [e]) as [|x r] eqn:E; [by destruct l|].
  rewrite <- E. by rewrite last_last, removelast_last.
Qed.

Lemma run_iter_end calls : forall it : @NameMapIter U V, slice it = [] -> run_iter calls it = ([], [], it).
Proof.
  induction calls as [|front calls IH]; intros [l] Hl; [done|]. cbn [slice] in Hl. subst l.
  cbn [run_iter]. by destruct front; cbn; rewrite IH.
Qed.

Lemma run_iter_keys calls : forall it : @NameMapIter U V,
  let '(fronts, backs, it') := run_iter calls it in
  keys (slice it) = fronts ++ keys (slice it') ++ rev backs /\
  (slice it' = [] \/ length fronts + length backs = length calls).
Proof.
  induction calls as [|front calls IH]; intros [l]; [split; [by rewrite app_nil_r|by right]|].
  destruct l as [|e0 l0]; [rewrite run_iter_end by done; split; [done|by left]|].
  cbn [run_iter slice]. destruct front.
  - cbn [next slice]. specialize (IH (mkIter l0)). destruct (run_iter calls (mkIter l0)) as [[fronts backs] it'].
    destruct IH as [IH1 IH2]. cbn [slice keys fmap list_fmap length] in *. split; [by rewrite IH1|].
    destruct IH2; [by left|right; lia].
  - destruct (exists_last (l := e0 :: l0)) as (l' & e & ->); [done|].
    rewrite next_back_snoc. specialize (IH (mkIter l')). destruct (run_iter calls (mkIter l')) as [[fronts backs] it'].
    destruct IH as [IH1 IH2]. cbn [slice length] in *. split; [|destruct IH2; [by left|right; lia]].
    unfold keys in *. rewrite fmap_app, IH1. cbn. by rewrite <- !app_assoc.
Qed.

(** However calls to the two ends of the iterator over a map's keys are
    interleaved, each key is given once: those from the front, those left and
    those from the back make up the keys in order, which increase; the size is
    always what is left, and with enough calls nothing is. *)
Theorem name_iter_correct m calls :
  map_wf m ->
  let '(fronts, backs, it) := run_iter calls (iter_keys m) in
  keys m = fronts ++ keys (slice it) ++ rev backs /\
  Sorted.StronglySorted (fun a b => bytes_cmp a b = Lt) (keys m) /\
  size_hint it = (length m - length fronts - length backs, Some (length m - length fronts - length backs)) /\
  (length m <= length calls -> next it = (None, it) /\ next_back it = (None, it)).
Proof.
  intros Hw. pose proof (run_iter_keys calls (iter_keys m)) as Hr.
  destruct (run_iter calls (iter_keys m)) as [[fronts backs] it]. unfold FlatMapOps.as_slice in Hr. cbn [iter_keys slice] in Hr. unfold FlatMapOps.as_slice in Hr.
  destruct Hr as [Hk Hc]. pose proof (f_equal length Hk) as Hl. unfold keys in Hl.
  rewrite !length_app, length_rev, !length_fmap in Hl.
  split; [done|]. split; [|split].
  - unfold keys. clear -Hw. induction Hw as [|e m _ IH Hf]; cbn; constructor; [done|].
    apply List.Forall_map. eapply List.Forall_impl; [|exact Hf]. done.
  - unfold size_hint. by replace (length m - length fronts - length backs) with (length (slice it)) by lia.
  - intros Hn. assert (slice it = []) as E by (destruct Hc as [|Hc]; [done|apply length_zero_iff_nil; lia]).
    unfold next, next_back. by rewrite E.
Qed.
End Iter.

Lemma name_iter_correct_witness :
  let '(fronts, backs, it) := run_iter [false; true; true] (iter_keys sample_caps) in
  fronts = [bs "multi-prefix"] /\ backs = [bs "sasl"] /\ next it = (None, it).
Proof.
  assert (Hw : map_wf sample_caps) by repeat constructor.
  pose proof (name_iter_correct sample_caps [false; true; true] Hw) as K.
  vm_compute run_iter in K |- *. destruct K as (_ & _ & _ & K). split; [reflexivity|]. split; [reflexivity|].
  apply K. vm_compute. lia.
Defined.

Section Lookups.
Context {U : Type} `{NameClass U} {V : Type}.
Implicit Types m : NameMap U V.

(** A fresh guard finds what the map has; [get_both_mut] gives the parsed
    value and changes the extra value under the name, of the map or through the
    guard alike, and nothing else. *)
Theorem lookups_agree {T} m (name : NameValued U T) f :
  map_wf m ->
  (forall t, guard_get_union_raw (edit m) t = get_union_raw m t /\ guard_get_extra_raw (edit m) t = get_extra_raw m t) /\
  guard_get_parsed (edit m) name = get_parsed m name /\ guard_get_both (edit m) name = get_both m name /\
  guard_len (edit m) = Names.len m /\
  let '(r, m') := update_both m name f in
  r = get_parsed m name /\ map_wf m' /\
  get_both m' name = (fun rx => (rx.1, f rx.2)) <$> get_both m name /\
  (forall t, get_union_raw m' t = get_union_raw m t) /\
  (forall t, t <> as_raw name -> get_extra_raw m' t = get_extra_raw m t) /\
  (guard_update_both (edit m) name f).1 = r /\ guard_drop extract_key (guard_update_both (edit m) name f).2 = m'.
Proof.
  intros Hw.
  assert (Hg : forall t, guard_get extract_key (edit m) t = FlatMap.get extract_key m t) by done.
  split; [done|]. split; [done|]. split; [done|]. split; [done|].
  unfold update_both, guard_update_both, get_both, get_parsed, guard_update_extra_raw. rewrite Hg.
  destruct (FlatMapOps.get_mut_correct extract_key m (as_raw name) (fun e => (e.1, f e.2)) Hw ltac:(done)) as (S1 & S2 & S3 & S4 & _).
  destruct (FlatMap.get extract_key m (as_raw name)) as [e|] eqn:He.
  - split; [done|]. split; [done|]. rewrite S2. split; [done|].
    assert (Hu : forall t, get_union_raw (FlatMapOps.get_mut extract_key m (as_raw name) (fun e => (e.1, f e.2))) t = get_union_raw m t).
    { intros t. unfold get_union_raw. destruct (decide (t = as_raw name)) as [->|Hne]; [by rewrite S2, He|by rewrite S3]. }
    split; [done|]. split; [|done]. intros t Hne. unfold get_extra_raw. by rewrite S3.
  - rewrite guard_drop_sorted_id by done. cbn [fst snd]. rewrite He. done.
Qed.
End Lookups.

(** ** Names stand in for what they name *)

Definition commands : list (list byte) := client_cmds ++ server_cmds ++ both_cmds.

Lemma commands_valid : Forall (valid Cmd) commands.
Proof. apply (bool_decide_unpack _). by vm_compute. Qed.

Lemma key_names_valid : Forall (fun n => valid Key (key n)) (cap_names ++ isupport_names).
Proof. apply (bool_decide_unpack _). by vm_compute. Qed.

(** A constant made unchecked from an identifier or a literal. *)
Lemma const_made `{Base64.Engine E} U s : valid U s -> utf8_valid s = true ->
  Newtypes.made false U (Newtypes.from_unchecked (BytesCell.from_str s)).
Proof. intros Hv Hu. apply (Newtypes.made_const false U s); [done|]. unfold Newtypes.from_str. unfold valid in Hv. by rewrite Hv. Qed.

(** A command's name is a [Cmd] that nothing had to check, prints,
    compares and hashes as it, and is the same tag in both classes; as a
    message kind it is what the parser makes of that command, and no other kind
    has its bytes. *)
Theorem commands_stand_in c `{Base64.Engine E} :
  c ∈ commands ->
  Newtypes.made false Cmd (CMD c) /\ (BytesCell.fmt (CMD c)).1 = cmd_fmt c /\
  (forall other, cmd_eq c other = true <-> cvalue other = c) /\
  (forall other, cmd_eq_rev other c = cmd_eq c other) /\
  (forall S (hs : list byte -> S -> S) st, cmd_hash hs c st = hs c st /\ Kinds.hash hs (KIND c) st = hs c st) /\
  raw_of (client_cmd c) = raw_of (server_cmd c) /\
  Msg.server_kind c = Ok (KIND c) /\
  (forall k, kind_wf k -> kind_eq c k = true <-> as_arg k = c) /\
  (forall k, kind_eq_rev k c = kind_eq c k).
Proof.
  intros Hc. pose proof (proj1 (List.Forall_forall _ _) commands_valid c) as Hv. rewrite <- list_elem_of_In in Hv. specialize (Hv Hc).
  pose proof (Kinds.cmd_utf8 c Hv) as Hu. split_and!; try done.
  - by apply const_made.
  - unfold cmd_eq, BytesCell.eq. cbn. intros other. rewrite bool_decide_eq_true. split; by intros ->.
  - unfold Msg.server_kind. rewrite from_bytes_cmd by done. by rewrite from_word_cmd.
  - intros k Hk. unfold kind_eq. rewrite bool_decide_eq_true. split; [by intros <-|]. intros E1.
    destruct k as [n|d]; cbn in E1; [|by subst]. apply from_bytes_wf in Hk. rewrite E1 in Hk. by rewrite from_bytes_cmd in Hk.
Qed.

Lemma commands_stand_in_witness : Msg.server_kind (bs "PRIVMSG") = Ok (KIND (bs "PRIVMSG")).
Proof.
  refine (proj1 (proj2 (proj2 (proj2 (proj2 (proj2 (proj2
    (@commands_stand_in (bs "PRIVMSG") () Rfc4648.rfc4648_engine _)))))))).
  apply (bool_decide_unpack _). vm_compute. exact I.
Defined.

(** The names of tokens and capabilities are [Key]s that nothing had to
    check and compare and hash as their keys; the capabilities are those of
    [cap_keys], and no two names of a class share a key.  A capability is
    displayed as its identifier, a token as its key. *)
Theorem key_names_stand_in `{Base64.Engine E} :
  (forall n, n ∈ cap_names ++ isupport_names ->
    Newtypes.made false Key (NAME n) /\ raw_of n = key n /\
    (forall other, key_eq n other = true <-> cvalue other = key n) /\
    (forall other, key_eq_rev other n = key_eq n other) /\
    (forall S (hs : list byte -> S -> S) st, key_hash hs n st = hs (key n) st)) /\
  key <$> cap_names = cap_keys /\ NoDup (key <$> cap_names) /\ NoDup (key <$> isupport_names) /\
  NoDup (ident <$> cap_names) /\ (forall n, n ∈ isupport_names -> key_fmt n = key n).
Proof.
  split_and!.
  - intros n Hn. pose proof (proj1 (List.Forall_forall _ _) key_names_valid n) as Hv. rewrite <- list_elem_of_In in Hv.
    specialize (Hv Hn). split_and!; try done.
    + apply const_made; [done|].
      assert (K : forallb (fun n => utf8_valid (key n)) (cap_names ++ isupport_names) = true) by by vm_compute.
      rewrite forallb_forall in K. apply K. by apply list_elem_of_In.
    + intros other. unfold key_eq, BytesCell.eq. cbn. rewrite bool_decide_eq_true. split; by intros ->.
  - reflexivity.
  - apply (bool_decide_unpack _). by vm_compute.
  - apply (bool_decide_unpack _). by vm_compute.
  - apply (bool_decide_unpack _). by vm_compute.
  - intros n Hn. unfold isupport_names in Hn. by apply list_elem_of_fmap in Hn as (k & -> & _).
Qed.

(** The name of a token and that of a capability with the same key cannot be
    told apart by anything but their type: as keys, to maps and to hashers. *)
Theorem tokens_stand_in `{Base64.Engine E} n :
  n ∈ isupport_names ->
  let token := ident n in
  Newtypes.made false Key (token_NAME token) /\ (BytesCell.fmt (token_NAME token)).1 = token_fmt token /\
  token_from token = key_from n /\ token_borrow token = key_borrow n /\ raw_of (a_token token) = raw_of n /\
  (forall other, token_eq token other = key_eq n other /\ token_eq_rev other token = key_eq_rev other n) /\
  (forall S (hs : list byte -> S -> S) st, token_hash hs token st = key_hash hs n st).
Proof.
  intros Hn. assert (Hv : valid Key (key n) /\ utf8_valid (key n) = true).
  { split; [pose proof (proj1 (List.Forall_forall _ _) key_names_valid n) as Hv; rewrite <- list_elem_of_In in Hv; apply Hv; apply elem_of_app; by right|].
    assert (K : forallb (fun n => utf8_valid (key n)) isupport_names = true) by by vm_compute.
    rewrite forallb_forall in K. apply K. by apply list_elem_of_In. }
  unfold isupport_names in Hn. apply list_elem_of_fmap in Hn as (k & -> & _). destruct Hv as [Hv Hu]. cbn [ident isupport_name key] in *.
  split_and!; try done. by apply const_made.
Qed.

Lemma tokens_stand_in_witness : (BytesCell.fmt (token_NAME (bs "NICKLEN"))).1 = bs "NICKLEN" /\ raw_of (a_token (bs "NICKLEN")) = bs "NICKLEN".
Proof.
  destruct (@tokens_stand_in () Rfc4648.rfc4648_engine (isupport_name (bs "NICKLEN"))) as (_ & H1 & _ & _ & H2 & _).
  { unfold isupport_names. apply list_elem_of_fmap. exists (bs "NICKLEN"). split; [reflexivity|]. apply (bool_decide_unpack _). vm_compute. exact I. }
  split; [exact H1|exact H2].
Defined.
