(* ===== verification/ModeOps.v ===== *)
(** * What mode letters and sets turn into

    [src/state/mode.rs]: the order and conversions of [Mode], the [Debug] of it
    and of [ModeSet], [ModeSetIter] used from both ends, and how [ModeTypes]
    picks a set by the number of a [ModeType]. *)

From S2P Require Import Prelude Strings.
From S2P Require Mode BytesCell Newtypes.
From Stdlib Require Import Sorting.Sorted.
Import Mode (is_mode, set_wf, to_list, next, next_back, members, ModeType, ModeTypes, ModeSet).

(** ** [Mode] *)

Definition new_unchecked (letter : byte) : byte := letter.
Definition into_nonzero_u8 (self : byte) : byte := self.

(** A [char] is its code. *)
Definition into_char (self : byte) : N := code self.

Definition mode_partial_cmp (self other : byte) : option comparison := Some (Mode.cmp self other).

(** [char::encode_utf8], for ASCII. *)
Definition encode_ascii (c : N) : list byte := [byte_of c].

(** [Debug] of a [char] between the printable ASCII ones; those that are
    escaped are no letters. *)
Definition char_debug (c : N) : list byte := bs "'" ++ encode_ascii c ++ bs "'".

Definition mode_debug (self : byte) : list byte := char_debug (into_char self).
Definition mode_fmt (self : byte) : list byte := encode_ascii (into_char self).

(** [From<Mode>] for [Arg], [NonZeroU8], [u8] and [char]. *)
Definition arg_from (value : byte) : BytesCell.Cell :=
  let bytes := encode_ascii (into_char value) in
  Newtypes.owning (Newtypes.from_unchecked (BytesCell.from_str bytes)).
Definition nonzero_from (value : byte) : byte := into_nonzero_u8 value.
Definition u8_from (value : byte) : N := code (into_nonzero_u8 value).
Definition char_from (value : byte) : N := into_char value.

(** ** [ModeSet] and its iterator *)

(** [debug_set] without the alternate flag. *)
Fixpoint entries (l : list (list byte)) : list byte :=
  match l with
  | [] => []
  | [e] => e
  | e :: l => e ++ bs ", " ++ entries l
  end.

Definition set_debug (self : ModeSet) : list byte :=
  bs "{" ++ entries (mode_debug <$> to_list self) ++ bs "}".

Definition size_hint (it : N) : nat * option nat :=
  let retval := Mode.count_ones it in (retval, Some retval).

(** A use of the iterator: [true] is [next_back]. *)
Fixpoint run_iter (calls : list bool) (it : N) : list byte * list byte * N :=
  match calls with
  | [] => ([], [], it)
  | back :: calls =>
      match (if back then next_back else next) it with
      | None => run_iter calls it
      | Some (m, it) =>
          let '(fronts, backs, it) := run_iter calls it in
          if back then (fronts, m :: backs, it) else (m :: fronts, backs, it)
      end
  end.

(** ** [ModeType] and [StatusModes] *)

Definition type_index (self : ModeType) : nat :=
  match self with Mode.TypeA => 0 | Mode.TypeB => 1 | Mode.TypeC => 2 | Mode.TypeD => 3 | Mode.Status => 4 end.

Definition status_new : Mode.StatusModes := [].

(** The array of [ModeTypes]. *)
Definition sets (t : ModeTypes) : list ModeSet := [Mode.type_a t; Mode.type_b t; Mode.type_c t; Mode.type_d t].

(** ** Theorems *)

Lemma code_byte_of_mode m : is_mode m = true -> byte_of (code m) = m.
Proof. by destruct m. Qed.

(** The letter a mode is one case of. *)
Definition lower (m : byte) : N := N.lor (code m) 32.

Lemma cmp_letters :
  forallb (fun m => forallb (fun n =>
    Bool.eqb (match Mode.cmp m n with Lt => true | _ => false end)
      ((lower m <? lower n) || ((lower m =? lower n) && (code n <? code m)))%N) Mode.all_modes) Mode.all_modes = true.
Proof. by vm_compute. Qed.

(** Modes are ordered by letter first, and of one letter the lower-case mode
    comes before the upper-case one; that is a total order whose equality is that
    of modes.  A mode is as [Arg], [u8], [char] and printed the letter it was
    made from, and the [Arg] is a valid one that owns its byte. *)
Theorem mode_letter_correct m n :
  is_mode m = true -> is_mode n = true ->
  (Mode.cmp m n = Lt <-> (lower m < lower n \/ lower m = lower n /\ code n < code m)%N) /\
  Mode.cmp n m = CompOpp (Mode.cmp m n) /\ (mode_partial_cmp m n = Some Eq <-> m = n) /\
  mode_fmt m = [m] /\ mode_debug m = ["'"; m; "'"]%byte /\ nonzero_from m = m /\ u8_from m = char_from m /\
  BytesCell.cvalue (arg_from m) = [m] /\ valid Arg [m] /\ BytesCell.cell_inv (arg_from m) /\
  BytesCell.ownership (arg_from m) = true /\ BytesCell.secret_ (arg_from m) = false.
Proof.
  intros Hm Hn. pose proof (code_byte_of_mode m Hm) as Hb.
  split; [|split; [|split]].
  - pose proof cmp_letters as Hc. rewrite forallb_forall in Hc.
    specialize (Hc m (proj1 (list_elem_of_In _ _) (proj2 (Mode.elem_of_all_modes m) Hm))).
    rewrite forallb_forall in Hc. specialize (Hc n (proj1 (list_elem_of_In _ _) (proj2 (Mode.elem_of_all_modes n) Hn))).
    apply Bool.eqb_prop in Hc. rewrite <- !N.ltb_lt, <- N.eqb_eq, <- andb_true_iff, <- orb_true_iff, <- Hc.
    by destruct (Mode.cmp m n).
  - unfold Mode.cmp. apply N.compare_antisym.
  - unfold mode_partial_cmp, Mode.cmp. split.
    + intros [= He%N.compare_eq_iff]. symmetry. by apply Mode.index_inj.
    + intros ->. by rewrite N.compare_refl.
  - unfold mode_fmt, mode_debug, char_debug, encode_ascii, arg_from, into_char. rewrite Hb.
    split_and!; destruct m; (discriminate Hm || done || (split; [split; [done|split; [done|by left]]|done])).
Qed.

Lemma mode_letter_correct_witness :
  Mode.cmp "r" "R" = Lt /\ Mode.cmp "R" "s" = Lt /\ BytesCell.cvalue (arg_from "R") = bs "R".
Proof.
  destruct (mode_letter_correct "r" "R" eq_refl eq_refl) as (H1 & _).
  destruct (mode_letter_correct "R" "s" eq_refl eq_refl) as (H2 & _ & _ & _ & _ & _ & _ & H3 & _).
  split; [apply H1; right; vm_compute; done|]. split; [apply H2; left; vm_compute; done|]. exact H3.
Defined.

Lemma next_front s : set_wf s -> s <> 0%N ->
  exists m s', next s = Some (m, s') /\ set_wf s' /\ to_list s = m :: to_list s'.
Proof.
  intros Hs Hnz. destruct (next s) as [[m s']|] eqn:Hx.
  - exists m, s'. assert (Hw : set_wf s').
    { revert Hx. unfold next. destruct (s =? 0)%N; [done|]. intros [= _ <-]. by apply Mode.land_not64_wf. }
    split; [done|]. split; [done|].
    assert (Hall : forall f, Mode.collect (S f) s = m :: Mode.collect f s') by (intros f; cbn [Mode.collect]; by rewrite Hx).
    assert (E : Mode.collect 63 s' = to_list s').
    { transitivity (members s' (Mode.modes_below 52)); [|symmetry]; (apply Mode.collect_members; [lia|lia|exact Hw]). }
    rewrite <- E. exact (Hall 63).
  - revert Hx. unfold next. by rewrite (proj2 (N.eqb_neq s 0)).
Qed.

Lemma size_hint_list s : set_wf s -> size_hint s = (length (to_list s), Some (length (to_list s))).
Proof. intros Hs. unfold size_hint. by rewrite Mode.count_ones_members, Mode.to_list_members. Qed.

(** However calls to [next] and [next_back] are mixed, each mode of a set
    is given once, in order; [size_hint] says how many are left, and after as many
    calls as there are modes both ends say that there is no more. *)
Theorem set_iter_correct calls : forall s,
  set_wf s ->
  let '(fronts, backs, it) := run_iter calls s in
  set_wf it /\ to_list s = fronts ++ to_list it ++ rev backs /\
  size_hint it = (Mode.len s - length fronts - length backs, Some (Mode.len s - length fronts - length backs)) /\
  (Mode.len s <= length calls -> next it = None /\ next_back it = None).
Proof.
  assert (Hl : forall s, set_wf s -> Mode.len s = length (to_list s)).
  { intros s Hs. unfold Mode.len. by rewrite Mode.count_ones_members, Mode.to_list_members. }
  induction calls as [|back calls IH]; intros s Hs; cbn [run_iter].
  - cbn [length rev app]. rewrite app_nil_r, !Nat.sub_0_r. split; [done|]. split; [done|]. split; [done|].
    intros Hn. assert (s = 0%N) as ->; [|done]. destruct (N.eq_dec s 0) as [|Hne]; [done|].
    destruct (next_front s Hs Hne) as (m & s' & _ & _ & E). rewrite Hl, E in Hn by done. cbn in Hn. lia.
  - destruct (N.eq_dec s 0) as [->|Hne].
    + assert ((if back then next_back else next) 0%N = None) as -> by by destruct back.
      specialize (IH 0%N Hs). destruct (run_iter calls 0%N) as [[fronts backs] it]. destruct IH as (I1 & I2 & I3 & I4).
      split; [exact I1|]. split; [exact I2|]. split; [exact I3|]. intros _. apply I4. apply Nat.le_0_l.
    + destruct back.
      * destruct (Mode.next_back_last s Hs Hne) as (m & s' & -> & Hw & E). specialize (IH s' Hw).
        destruct (run_iter calls s') as [[fronts backs] it]. destruct IH as (I1 & I2 & I3 & I4).
        rewrite (Hl s), E, length_app by done. rewrite (Hl s') in I3, I4 by done. cbn [length rev].
        split; [exact I1|]. split; [|split].
        -- rewrite I2. by rewrite <- !app_assoc.
        -- rewrite I3. apply (f_equal (fun k => (k, Some k))). cbn [length]. lia.
        -- intros Hn. apply I4. lia.
      * destruct (next_front s Hs Hne) as (m & s' & -> & Hw & E). specialize (IH s' Hw).
        destruct (run_iter calls s') as [[fronts backs] it]. destruct IH as (I1 & I2 & I3 & I4).
        rewrite (Hl s), E by done. rewrite (Hl s') in I3, I4 by done. cbn [length].
        split; [exact I1|]. split; [|split].
        -- cbn [app]. by rewrite I2.
        -- rewrite I3. apply (f_equal (fun k => (k, Some k))). cbn [length]. lia.
        -- intros Hn. apply I4. lia.
Qed.

Lemma set_iter_correct_witness :
  let '(fronts, backs, it) := run_iter [true; false; false; true] Mode.sample_set in
  fronts = bs "rR" /\ backs = bs "s" /\ next it = None.
Proof.
  pose proof (set_iter_correct [true; false; false; true] Mode.sample_set eq_refl) as K.
  vm_compute run_iter in K |- *. destruct K as (_ & _ & _ & K). split; [reflexivity|]. split; [reflexivity|].
  apply K. apply Nat.leb_le. vm_compute. reflexivity.
Defined.

Lemma letters_debug l : Forall (fun m => is_mode m = true) l -> Mode.letters (entries (mode_debug <$> l)) = l.
Proof.
  induction 1 as [|m l Hm Hl IH]; [done|].
  assert (Hd : forall r, Mode.letters (mode_debug m ++ r) = m :: Mode.letters r).
  { intros r. assert (mode_debug m = ["'"; m; "'"]%byte) as -> by by destruct m.
    change (["'"; m; "'"]%byte ++ r) with ("'"%byte :: m :: "'"%byte :: r). unfold Mode.letters.
    rewrite (filter_cons_False _ "'"%byte), (filter_cons_True _ m), (filter_cons_False _ "'"%byte) by done. done. }
  destruct l as [|n l].
  - cbn [fmap list_fmap entries]. rewrite <- (app_nil_r (mode_debug m)). by rewrite Hd.
  - change (Mode.letters (mode_debug m ++ bs ", " ++ entries (mode_debug <$> n :: l)) = m :: n :: l).
    rewrite Hd. f_equal. exact IH.
Qed.

(** What [Debug] shows of a mode set, [{'a', 'B'}], has its letters in order
    between the quotes, so that different sets are shown differently. *)
Theorem set_debug_letters s t :
  set_wf s -> set_wf t -> Mode.letters (set_debug s) = to_list s /\ (set_debug s = set_debug t -> s = t).
Proof.
  assert (Hd : forall s, set_wf s -> Mode.letters (set_debug s) = to_list s).
  { intros u Hu. unfold set_debug, Mode.letters. rewrite !filter_app. rewrite app_nil_r. apply letters_debug, Mode.to_list_modes, Hu. }
  intros Hs Ht. split; [by apply Hd|]. intros E. rewrite <- (Mode.from_iter_to_list s), <- (Mode.from_iter_to_list t) by done.
  by rewrite <- (Hd s), <- (Hd t), E.
Qed.

Lemma set_debug_letters_witness : set_debug Mode.sample_set = bs "{'r', 'R', 's'}" /\ Mode.letters (set_debug Mode.sample_set) = bs "rRs".
Proof.
  split; [by vm_compute|]. rewrite (proj1 (set_debug_letters Mode.sample_set Mode.sample_set eq_refl eq_refl)). by vm_compute.
Defined.

(** [insert] and [insert_set] change the set whose place is the index of the
    mode type and take the modes from the other three; no set has the index of
    [Status]. *)
Lemma insert_by_index t m ms ty :
  sets (Mode.types_insert t m ty) = imap (fun idx s => Mode.upd (idx =? type_index ty) s m) (sets t) /\
  sets (Mode.insert_set t ms ty) = imap (fun idx s => Mode.upd_set (idx =? type_index ty) s ms) (sets t).
Proof. by destruct ty. Qed.
