(* ===== verification/MsgIO.v ===== *)
(** * Reading and writing whole messages

    [src/ircmsg/codec.rs], [src/ircmsg/client.rs], [src/ircmsg/server.rs]: the
    instances of [read_msg!] for blocking and tokio readers, the senders for tokio
    writers, and the methods of messages that go to the codecs.  A tokio reader
    may be pending at any point; awaiting polls it again until it is not, and
    dropping the future leaves the buffer as the last poll left it. *)

From S2P Require Import Prelude Args Tags Msg Strings Codec.
From S2P Require Names NameTypes Source Numeric.

(** ** [read_msg!] *)

(** The macro, over what [$read_expr] does: the limit of [Take], the reader and
    the buffer to a count or an error. *)
Section ReadMsg.
Context {R E M : Type} (read_expr : nat -> R -> list byte -> result nat E * R * list byte).
Context (limit : nat) (parse : list byte -> option (result M ParseError)).

Inductive MsgError := MsgEof | MsgRead (e : E) | MsgParse (e : ParseError).

Fixpoint read_msg_with (owning : bool) (fuel : nat) (read : R) (buf : list byte)
    : option (result M MsgError * R * list byte) :=
  match fuel with
  | 0 => None
  | S fuel =>
      let finish read buf :=
        match read_buf buf with
        | RbAgain => read_msg_with owning fuel read []
        | RbError e buf => Some (Err (MsgParse e), read, buf)
        | RbLine buf =>
            match parse buf with
            | None => None
            | Some r => Some (map_err MsgParse r, read, if owning then [] else buf)
            end
        end in
      if length buf <? limit then
        match read_expr (limit - length buf) read buf with
        | (Err e, read, buf) => Some (Err (MsgRead e), read, buf)
        | (Ok 0, read, buf) => Some (Err MsgEof, read, buf)
        | (Ok _, read, buf) => finish read buf
        end
      else finish read buf
  end.
End ReadMsg.
Arguments MsgEof {E}.
Arguments MsgRead {E} e.
Arguments MsgParse {E} e.

(** ** Readers *)

(** [read.read_until(b'\n', buf)] of [std]. *)
Definition std_read_until (limit : nat) (read : Reader) (buf : list byte) : result nat () * Reader * list byte :=
  read_until limit read buf 0.

(** What a tokio reader does at each poll: [Pending], or as above. *)
Inductive Polled := Pending | Ready (r : option byte).
Abbreviation AsyncReader := (list Polled).

(** Awaiting [read_until]: it is polled again after every [Pending]; what was read
    stays in the buffer. *)
Fixpoint await_read_until (limit : nat) (read : AsyncReader) (buf : list byte) (count : nat)
    : result nat () * AsyncReader * list byte :=
  match read with
  | Pending :: read => if limit =? 0 then (Ok count, Pending :: read, buf) else await_read_until limit read buf count
  | [] => (Ok count, [], buf)
  | Ready r :: rest =>
      match limit with
      | 0 => (Ok count, read, buf)
      | S limit =>
          match r with
          | None => (Err (), rest, buf)
          | Some b =>
              if Byte.eqb b "010" then (Ok (count + 1), rest, buf ++ [b])
              else await_read_until limit rest (buf ++ [b]) (count + 1)
          end
      end
  end.

Definition tokio_read_until (limit : nat) (read : AsyncReader) (buf : list byte) : result nat () * AsyncReader * list byte :=
  await_read_until limit read buf 0.

(** The future polled until it is first pending, and dropped then. *)
Inductive Stopped := SDropped | SFailed.

Fixpoint poll_read_until (limit : nat) (read : AsyncReader) (buf : list byte) (count : nat)
    : result nat Stopped * AsyncReader * list byte :=
  match limit with
  | 0 => (Ok count, read, buf)
  | S limit =>
      match read with
      | [] => (Ok count, [], buf)
      | Pending :: read => (Err SDropped, read, buf)
      | Ready None :: read => (Err SFailed, read, buf)
      | Ready (Some b) :: read =>
          if Byte.eqb b "010" then (Ok (count + 1), read, buf ++ [b])
          else poll_read_until limit read (buf ++ [b]) (count + 1)
      end
  end.

(** ** [ClientCodec] and [ServerCodec] *)

Definition client_read_owning_from := read_msg_with std_read_until SERVER_MAX_LEN server_parse true.
Definition client_read_owning_from_tokio := read_msg_with tokio_read_until SERVER_MAX_LEN server_parse true.
Definition client_read_borrowing_from := read_msg_with std_read_until SERVER_MAX_LEN server_parse false.
Definition client_read_borrowing_from_tokio := read_msg_with tokio_read_until SERVER_MAX_LEN server_parse false.
Definition server_read_owning_from := read_msg_with std_read_until CLIENT_MAX_LEN client_parse true.
Definition server_read_owning_from_tokio := read_msg_with tokio_read_until CLIENT_MAX_LEN client_parse true.
Definition server_read_borrowing_from := read_msg_with std_read_until CLIENT_MAX_LEN client_parse false.
Definition server_read_borrowing_from_tokio := read_msg_with tokio_read_until CLIENT_MAX_LEN client_parse false.

(** [write_all(buf).await], [send_to_tokio], over a [write_all]. *)
Section Send.
Context {W E : Type} (write_all : list byte -> W -> result () E * W).

Definition send_with (wire : list byte) (write : W) (buf : list byte) : result () E * W * list byte :=
  let buf := buf ++ wire ++ CRLF in
  match write_all buf write with
  | (Ok _, write) => (Ok (), write, [])
  | (Err e, write) => (Err e, write, buf)
  end.

Definition client_send_to_tokio (msg : ClientMsg) (write : W) (buf : list byte) := send_with (client_write_to msg) write buf.
Definition server_send_to_tokio (msg : ServerMsg) (write : W) (buf : list byte) := send_with (server_write_to msg) write buf.

(** ** The methods of messages *)

Definition server_msg_send_to (self : ServerMsg) (write : W) (buf : list byte) := send_with (server_write_to self) write buf.
Definition server_msg_send_to_tokio (self : ServerMsg) (write : W) (buf : list byte) := server_send_to_tokio self write buf.
Definition client_msg_send_to (self : ClientMsg) (write : W) (buf : list byte) := send_with (client_write_to self) write buf.
Definition client_msg_send_to_tokio (self : ClientMsg) (write : W) (buf : list byte) := client_send_to_tokio self write buf.
End Send.

Definition server_msg_read_owning_from := client_read_owning_from.
Definition server_msg_read_owning_from_tokio := client_read_owning_from_tokio.
Definition server_msg_read_borrowing_from := client_read_borrowing_from.
Definition server_msg_read_borrowing_from_tokio := client_read_borrowing_from_tokio.
Definition client_msg_read_owning_from := server_read_owning_from.
Definition client_msg_read_owning_from_tokio := server_read_owning_from_tokio.
Definition client_msg_read_borrowing_from := server_read_borrowing_from.
Definition client_msg_read_borrowing_from_tokio := server_read_borrowing_from_tokio.

Definition server_msg_write_to (self : ServerMsg) : list byte := server_write_to self.
Definition client_msg_write_to (self : ClientMsg) : list byte := client_write_to self.

(** [parse_as] and [new], by name. *)
Definition server_parse_as {T} (self : ServerMsg) (kind : Names.NameValued ServerMsg T) : result T ParseError :=
  Names.from_union kind self.
Definition client_parse_as {T} (self : ClientMsg) (kind : Names.NameValued ClientMsg T) : result T ParseError :=
  Names.from_union kind self.
Definition server_new_name (kind : list byte) (source : Source.Source) : ServerMsg := server_new (NameTypes.as_kind kind) source.
Definition client_new (cmd : list byte) : ClientMsg := client_new_cmd (BytesCell.cvalue (NameTypes.as_cmd cmd)).

(** ** Theorems *)

(** What is read in the end, whatever is pending in between. *)
Definition settled (read : AsyncReader) : Reader :=
  omap (fun p => match p with Pending => None | Ready r => Some r end) read.

Lemma await_settled limit read : forall buf count,
  let '(r, rest, buf') := await_read_until limit read buf count in
  read_until limit (settled read) buf count = (r, settled rest, buf') /\
  length (settled rest) <= length (settled read).
Proof.
  revert limit. induction read as [|[|r] read IH]; intros limit buf count; cbn [await_read_until].
  - by destruct limit.
  - destruct (Nat.eqb_spec limit 0) as [->|Hne]; [by cbn|]. exact (IH limit buf count).
  - destruct limit as [|limit]; [by cbn|]. change (settled (Ready r :: read)) with (r :: settled read).
    destruct r as [b|]; cbn [read_until length]; [|split; [done|lia]].
    destruct (Byte.eqb b "010"); [split; [done|lia]|]. specialize (IH limit (buf ++ [b]) (count + 1)).
    destruct (await_read_until limit read (buf ++ [b]) (count + 1)) as [[r rest] buf']. destruct IH as [IH1 IH2].
    split; [exact IH1|lia].
Qed.

Section Same.
Context {M : Type} (limit : nat) (parse : list byte -> option (result M ParseError)).

Definition io_error (e : MsgError (E := ())) : IoError :=
  match e with MsgEof => UnexpectedEof | MsgRead _ => ReadError | MsgParse e => ParseFailed e end.

(** The outcome of the macro, its error and its reader seen as [Codec] has them. *)
Definition seen {R} (view : R -> Reader) (o : option (result M (MsgError (E := ())) * R * list byte)) :=
  (fun '(r, read, buf) => (map_err io_error r, view read, buf)) <$> o.

Lemma read_msg_with_same {R} (read_expr : nat -> R -> list byte -> result nat () * R * list byte) (view : R -> Reader) :
  (forall n read buf, let '(r, rest, buf') := read_expr n read buf in read_until n (view read) buf 0 = (r, view rest, buf')) ->
  forall owning fuel read buf,
  seen view (read_msg_with read_expr limit parse owning fuel read buf) = read_msg limit parse owning fuel (view read) buf.
Proof.
  intros Hr owning. induction fuel as [|fuel IH]; intros read buf; [done|]. cbn [read_msg_with read_msg].
  assert (Hf : forall read buf,
    seen view (match read_buf buf with
      | RbAgain => read_msg_with read_expr limit parse owning fuel read []
      | RbError e buf => Some (Err (MsgParse e), read, buf)
      | RbLine buf => match parse buf with None => None | Some r => Some (map_err MsgParse r, read, if owning then [] else buf) end
      end) =
    match read_buf buf with
    | RbAgain => read_msg limit parse owning fuel (view read) []
    | RbError e buf => Some (Err (ParseFailed e), view read, buf)
    | RbLine buf => match parse buf with None => None | Some r => Some (map_err ParseFailed r, view read, if owning then [] else buf) end
    end).
  { intros rd b. destruct (read_buf b) as [|e b'|b']; [apply IH|done|]. by destruct (parse b') as [[m|e]|]. }
  destruct (length buf <? limit); [|apply Hf]. specialize (Hr (limit - length buf) read buf).
  destruct (read_expr (limit - length buf) read buf) as [[r rest] buf']. rewrite Hr.
  destruct r as [[|n]|e]; [done|apply Hf|done].
Qed.
End Same.

(** Every reader of a message, blocking or not, does what [read_msg] does
    on the bytes and errors it is given: where a tokio reader is pending makes
    no difference. *)
Theorem readers_agree owning fuel :
  (forall read buf, seen id (read_msg_with std_read_until SERVER_MAX_LEN server_parse owning fuel read buf) =
     client_codec_read owning fuel read buf) /\
  (forall read buf, seen id (read_msg_with std_read_until CLIENT_MAX_LEN client_parse owning fuel read buf) =
     server_codec_read owning fuel read buf) /\
  (forall read buf, seen settled (read_msg_with tokio_read_until SERVER_MAX_LEN server_parse owning fuel read buf) =
     client_codec_read owning fuel (settled read) buf) /\
  (forall read buf, seen settled (read_msg_with tokio_read_until CLIENT_MAX_LEN client_parse owning fuel read buf) =
     server_codec_read owning fuel (settled read) buf).
Proof.
  assert (Hs : forall n read buf, let '(r, rest, buf') := std_read_until n read buf in read_until n (id read) buf 0 = (r, id rest, buf')).
  { intros n read buf. unfold std_read_until, id. by destruct (read_until n read buf 0) as [[r rest] buf']. }
  assert (Ht : forall n read buf, let '(r, rest, buf') := tokio_read_until n read buf in
    read_until n (settled read) buf 0 = (r, settled rest, buf')).
  { intros n read buf. unfold tokio_read_until. pose proof (await_settled n read buf 0) as K.
    destruct (await_read_until n read buf 0) as [[r rest] buf']. apply K. }
  split_and!; intros read buf; (rewrite (read_msg_with_same _ _ _ id) by exact Hs) || (rewrite (read_msg_with_same _ _ _ settled) by exact Ht); done.
Qed.

Lemma poll_until_pending q : forall n rest buf count, no_nl q -> length q < n ->
  poll_read_until n ((Ready <$> (Some <$> q)) ++ Pending :: rest) buf count = (Err SDropped, rest, buf ++ q).
Proof.
  intros n rest buf count Hq. revert n buf count. induction Hq as [|b q Hb _ IH]; intros n buf count Hn; (destruct n as [|n]; [simpl in Hn; lia|]).
  - cbn. by rewrite app_nil_r.
  - cbn [app fmap list_fmap poll_read_until]. rewrite Hb, IH by (simpl in Hn; lia). by rewrite <- app_assoc.
Qed.

Lemma settled_ready (q : list byte) : settled (Ready <$> (Some <$> q)) = Some <$> q.
Proof. induction q as [|b q IH]; [done|]. exact (f_equal (cons (Some b)) IH). Qed.

Lemma settled_app a b : settled (a ++ b) = settled a ++ settled b.
Proof. unfold settled. apply omap_app. Qed.

(** The future of a tokio reader may be dropped while it is pending
    inside a line: what was read is in the buffer, and reading again with it
    gives the message as if nothing had happened. *)
Theorem tokio_read_cancel {M} limit (parse : list byte -> option (result M ParseError)) owning l q1 q2 rest f r :
  q1 ++ q2 = l ++ CRLF -> q2 <> [] -> valid Line l -> l <> [] -> length l + 2 <= limit -> parse l = Some r ->
  let coming := (Ready <$> (Some <$> q2)) ++ rest in
  read_msg_with (fun n read buf => poll_read_until n read buf 0) limit parse owning (S f)
    ((Ready <$> (Some <$> q1)) ++ Pending :: coming) [] = Some (Err (MsgRead SDropped), coming, q1) /\
  seen settled (read_msg_with tokio_read_until limit parse owning (S f) coming q1) =
    Some (map_err ParseFailed r, settled rest, if owning then [] else l).
Proof.
  intros Hq Hne Hv Hl Hlen Hp. cbv zeta. split.
  - assert (Hn : no_nl q1 /\ length q1 < limit).
    { destruct q2 as [|x q2 _] using rev_ind; [done|].
      assert (E : l ++ CRLF = (l ++ ["013"%byte]) ++ ["010"%byte]) by by rewrite <- app_assoc.
      rewrite E, app_assoc in Hq. apply app_inj_tail in Hq as [Hq ->].
      assert (Hn : no_nl (q1 ++ q2)) by (rewrite Hq; apply Forall_app; split; [by apply line_no_nl|by constructor]).
      apply Forall_app in Hn as [Hn _]. apply (f_equal length) in Hq. rewrite !length_app in Hq. simpl in Hq. split; [done|lia]. }
    destruct Hn as [Hn Hlt]. cbn [read_msg_with length]. rewrite (proj2 (Nat.ltb_lt _ _)) by lia.
    by rewrite poll_until_pending by (done || lia).
  - rewrite (read_msg_with_same _ _ _ settled).
    + rewrite settled_app, settled_ready.
      by rewrite (read_msg_line limit parse owning f q1 q2 l), Hp by done.
    + intros n read buf. unfold tokio_read_until. pose proof (await_settled n read buf 0) as K.
      destruct (await_read_until n read buf 0) as [[r' rest'] buf']. apply K.
Qed.

Lemma tokio_read_cancel_witness :
  seen settled (read_msg_with tokio_read_until CLIENT_MAX_LEN client_parse true 1
    ((Ready <$> (Some <$> (bs "NG x" ++ CRLF))) ++ []) (bs "PI")) =
  Some (Ok (mkClientMsg [] (bs "PING") (mkArgs [bs "x"] None)), [], []).
Proof.
  refine (proj2 (tokio_read_cancel CLIENT_MAX_LEN client_parse true (bs "PING x") (bs "PI") (bs "NG x" ++ CRLF) [] 0
    (Ok (mkClientMsg [] (bs "PING") (mkArgs [bs "x"] None))) eq_refl _ eq_refl _ _ _)); try discriminate.
  - apply Nat.leb_le. vm_compute. reflexivity.
  - reflexivity.
Defined.

(** Sending with a writer that takes everything is [send_to] of the codec,
    tokio's or not; when it fails the message stays in the buffer behind what
    was there. *)
Theorem senders_agree {W E} (write_all : list byte -> W -> result () E * W) (c : ClientMsg) (s : ServerMsg) write buf :
  client_msg_send_to write_all c write buf = client_msg_send_to_tokio write_all c write buf /\
  server_msg_send_to write_all s write buf = server_msg_send_to_tokio write_all s write buf /\
  (forall wire e w, write_all (buf ++ wire ++ CRLF) write = (Err e, w) ->
     send_with write_all wire write buf = (Err e, w, buf ++ wire ++ CRLF)) /\
  (forall fails out, send_with (fun data out => Codec.write_all fails out data) (client_write_to c) out buf =
     client_send_to fails c out buf).
Proof.
  split; [done|]. split; [done|]. split.
  - intros wire e w Hw. unfold send_with. by rewrite Hw.
  - intros fails out. unfold send_with, client_send_to, send_to. by destruct (Codec.write_all fails out _) as [[?|?] ?].
Qed.
