(* ===== verification/Ownership.v ===== *)
(** * Owning messages

    [src/ircmsg/client.rs], [src/ircmsg/server.rs], [src/ircmsg/tags.rs],
    [src/ircmsg/args.rs], [src/ircmsg/source.rs],
    [src/ircmsg/servermsgkind.rs]: the [owning] methods, over messages whose
    strings are the [Bytes] of [BytesCell] instead of plain bytes.  What they
    return is given the lifetime ['static], in part by a transmute, so nothing in
    it may borrow. *)

From stdpp Require Import list.
From S2P Require Import Prelude.
From S2P Require BytesCell Numeric Source Args Msg.
From S2P Require Import Utf8.
Import BytesCell (Cell, cvalue, cell_inv).

(** ** Messages of strings *)

Record UserHost := mkUserHost { user : option Cell; host : Cell }.
Record Source := mkSource { nick : Cell; userhost : option UserHost }.

(** [SharedSource]: an [Arc] and how many handles it has. *)
Record SharedSource := mkShared { shared : Source; handles : nat }.

(** [words] is a [Cow]: whether the vector is owned. *)
Record Args := mkArgs { words : list Cell; words_owned : bool; long : option Cell }.

Abbreviation Tags := (list (Cell * Cell)).

Inductive Kind := KNumeric (n : Numeric.Numeric) | KCmd (c : Cell).

Record ClientMsg := mkClientMsg { ctags : Tags; cmd : Cell; cargs : Args }.
Record ServerMsg := mkServerMsg { stags : Tags; source : option SharedSource; kind : Kind; sargs : Args }.

(** ** [owning] *)

Definition userhost_owning (self : UserHost) : UserHost :=
  mkUserHost (BytesCell.owning <$> user self) (BytesCell.owning (host self)).

Definition source_owning (self : Source) : Source :=
  mkSource (BytesCell.owning (nick self)) (userhost_owning <$> userhost self).

Definition userhost_clone (self : UserHost) : UserHost := mkUserHost (BytesCell.clone <$> user self) (BytesCell.clone (host self)).
Definition source_clone (self : Source) : Source := mkSource (BytesCell.clone (nick self)) (userhost_clone <$> userhost self).

Definition shared_new (source : Source) : SharedSource := mkShared source 1.
Definition shared_deref (self : SharedSource) : Source := shared self.

(** [Arc::try_unwrap]. *)
Definition try_unwrap (self : SharedSource) : result Source Source :=
  if handles self =? 1 then Ok (shared self) else Err (shared self).

Definition shared_owning (self : SharedSource) : Source :=
  match try_unwrap self with
  | Ok src => source_owning src
  | Err arc => source_owning (source_clone arc)
  end.

Definition args_owning (self : Args) : Args :=
  mkArgs (BytesCell.owning <$> words self) true (BytesCell.owning <$> long self).

Definition tags_owning (self : Tags) : Tags :=
  (fun '(key, value) => (BytesCell.make_owning key, BytesCell.make_owning value)) <$> self.

Definition kind_owning (self : Kind) : Kind :=
  match self with KNumeric num => KNumeric num | KCmd c => KCmd (BytesCell.owning c) end.

Definition client_owning (self : ClientMsg) : ClientMsg :=
  mkClientMsg (tags_owning (ctags self)) (BytesCell.owning (cmd self)) (args_owning (cargs self)).

Definition server_owning (self : ServerMsg) : ServerMsg :=
  mkServerMsg (tags_owning (stags self)) ((fun src => shared_new (shared_owning src)) <$> source self)
    (kind_owning (kind self)) (args_owning (sargs self)).

(** ** The strings in a message *)

Definition opt_cells (o : option Cell) : list Cell := match o with Some c => [c] | None => [] end.
Definition userhost_cells (u : UserHost) : list Cell := opt_cells (user u) ++ [host u].
Definition source_cells (s : Source) : list Cell :=
  nick s :: match userhost s with Some u => userhost_cells u | None => [] end.
Definition args_cells (a : Args) : list Cell := words a ++ opt_cells (long a).
Definition tags_cells (t : Tags) : list Cell := t ≫= (fun kv => [kv.1; kv.2]).
Definition kind_cells (k : Kind) : list Cell := match k with KNumeric _ => [] | KCmd c => [c] end.

(** All but those in the tags. *)
Definition client_body (m : ClientMsg) : list Cell := cmd m :: args_cells (cargs m).
Definition server_body (m : ServerMsg) : list Cell :=
  match source m with Some s => source_cells (shared s) | None => [] end ++ kind_cells (kind m) ++ args_cells (sargs m).

(** What [Msg] makes of them: their bytes. *)
Definition erase_userhost (u : UserHost) : Source.UserHost := Source.mkUserHost (cvalue <$> user u) (cvalue (host u)).
Definition erase_source (s : Source) : Source.Source := Source.mkSource (cvalue (nick s)) (erase_userhost <$> userhost s).
Definition erase_args (a : Args) : Args.Args := Args.mkArgs (cvalue <$> words a) (cvalue <$> long a).
Definition erase_tags (t : Tags) : list (list byte * list byte) := (fun kv => (cvalue kv.1, cvalue kv.2)) <$> t.
Definition erase_kind (k : Kind) : Numeric.ServerMsgKindRaw :=
  match k with KNumeric n => Numeric.KNumeric n | KCmd c => Numeric.KCmd (cvalue c) end.
Definition erase_client (m : ClientMsg) : Msg.ClientMsg := Msg.mkClientMsg (erase_tags (ctags m)) (cvalue (cmd m)) (erase_args (cargs m)).
Definition erase_server (m : ServerMsg) : Msg.ServerMsg :=
  Msg.mkServerMsg (erase_tags (stags m)) ((fun s => erase_source (shared s)) <$> source m) (erase_kind (kind m)) (erase_args (sargs m)).

(** A string that does not borrow: it owns its bytes or has none. *)
Definition is_static (c : Cell) : Prop := BytesCell.ownership c = true \/ cvalue c = [].

(** ** Lemmas *)

Lemma owning_static c : is_static (BytesCell.owning c).
Proof.
  unfold is_static, BytesCell.owning, BytesCell.is_owning. destruct (BytesCell.ownership c) eqn:Ho; [by left|].
  cbn. destruct (cvalue c); [by right|by left].
Qed.

Lemma make_owning_static c : is_static (BytesCell.make_owning c).
Proof.
  unfold is_static, BytesCell.make_owning, BytesCell.is_owning. destruct (BytesCell.ownership c) eqn:Ho; [by left|].
  cbn. destruct (cvalue c); [by right|by left].
Qed.

Lemma owning_keeps c : cvalue (BytesCell.owning c) = cvalue c /\ BytesCell.secret_ (BytesCell.owning c) = BytesCell.secret_ c.
Proof. unfold BytesCell.owning. by destruct (BytesCell.is_owning c). Qed.

Lemma make_owning_value c : cvalue (BytesCell.make_owning c) = cvalue c.
Proof. unfold BytesCell.make_owning. by destruct (BytesCell.is_owning c). Qed.

Lemma owning_opt (o : option Cell) : opt_cells (BytesCell.owning <$> o) = BytesCell.owning <$> opt_cells o.
Proof. by destruct o. Qed.

(** Owning a part of a message is owning each of its strings. *)
Lemma owning_cells :
  (forall s, source_cells (source_owning s) = BytesCell.owning <$> source_cells s) /\
  (forall s, source_cells (shared_owning s) = BytesCell.owning <$> source_cells (shared s)) /\
  (forall a, args_cells (args_owning a) = BytesCell.owning <$> args_cells a) /\
  (forall k, kind_cells (kind_owning k) = BytesCell.owning <$> kind_cells k) /\
  (forall t, tags_cells (tags_owning t) = BytesCell.make_owning <$> tags_cells t).
Proof.
  assert (Hs : forall s, source_cells (source_owning s) = BytesCell.owning <$> source_cells s).
  { intros [n [[[u|] h]|]]; done. }
  assert (Hclone : forall s, source_clone s = s).
  { intros [[? ? ? ?] [[[[]|] []]|]]; done. }
  split_and!; [done|..].
  - intros s. unfold shared_owning, try_unwrap. destruct (handles s =? 1); [|rewrite Hclone]; apply Hs.
  - intros a. unfold args_cells. cbn. by rewrite fmap_app, owning_opt.
  - by intros [n|c].
  - induction t as [|[k v] t IH]; [done|]. cbn. f_equal. f_equal. exact IH.
Qed.

Lemma erase_owning_opt (o : option Cell) : cvalue <$> (BytesCell.owning <$> o) = cvalue <$> o.
Proof. destruct o as [c|]; [|done]. cbn. f_equal. apply owning_keeps. Qed.

(** The bytes stay. *)
Lemma erase_owning :
  (forall s, erase_source (shared_owning s) = erase_source (shared s)) /\
  (forall a, erase_args (args_owning a) = erase_args a) /\
  (forall k, erase_kind (kind_owning k) = erase_kind k) /\
  (forall t, erase_tags (tags_owning t) = erase_tags t).
Proof.
  split_and!.
  - intros s. assert (Hs : forall s, erase_source (source_owning s) = erase_source s).
    { intros [n [[u h]|]]; unfold erase_source, source_owning; cbn; rewrite (proj1 (owning_keeps n)); [|done].
      do 2 f_equal. unfold erase_userhost. cbn. by rewrite erase_owning_opt, (proj1 (owning_keeps h)). }
    assert (Hclone : forall s, source_clone s = s) by (intros [[? ? ? ?] [[[[]|] []]|]]; done).
    unfold shared_owning, try_unwrap. destruct (handles s =? 1); [|rewrite Hclone]; apply Hs.
  - intros a. unfold erase_args. cbn. rewrite erase_owning_opt. f_equal. rewrite <- list_fmap_compose.
    apply list_fmap_ext. intros i c _. apply owning_keeps.
  - intros [n|c]; [done|]. cbn. by rewrite (proj1 (owning_keeps c)).
  - intros t. unfold erase_tags, tags_owning. rewrite <- list_fmap_compose. apply list_fmap_ext. intros i [k v] _.
    cbn. by rewrite !make_owning_value.
Qed.

(** ** Theorems *)

(** What [owning] returns for a message borrows nothing, so that the
    lifetime it is given is right; the message is the same, secrets in its
    source, kind and arguments stay secret, and what was shared is not touched. *)
Theorem server_owning_static m :
  let m' := server_owning m in
  Forall is_static (server_body m' ++ tags_cells (stags m')) /\ words_owned (sargs m') = true /\
  erase_server m' = erase_server m /\
  BytesCell.secret_ <$> server_body m' = BytesCell.secret_ <$> server_body m /\
  (forall s, source m' = Some s -> handles s = 1).
Proof.
  destruct owning_cells as (_ & Hs & Ha & Hk & Ht). destruct erase_owning as (Es & Ea & Ek & Et). cbv zeta.
  assert (Hb : server_body (server_owning m) = BytesCell.owning <$> server_body m).
  { unfold server_body, server_owning. cbn [source kind sargs]. rewrite !fmap_app, Hk, Ha.
    destruct (source m) as [s|]; [|done]. cbn [fmap option_fmap option_map shared_new shared]. by rewrite Hs. }
  split_and!.
  - apply Forall_app. split.
    + rewrite Hb. apply Forall_fmap, Forall_true. intros c. apply owning_static.
    + cbn [stags server_owning]. rewrite Ht. apply Forall_fmap, Forall_true. intros c. apply make_owning_static.
  - done.
  - unfold erase_server, server_owning. cbn [source kind sargs stags]. rewrite Et, Ek, Ea. f_equal.
    destruct (source m) as [s|]; [|done]. cbn. by rewrite Es.
  - rewrite Hb, <- list_fmap_compose. apply list_fmap_ext. intros i c _. apply owning_keeps.
  - unfold server_owning. cbn. intros s Hsrc. destruct (source m); [|done]. by injection Hsrc as <-.
Qed.

Theorem client_owning_static m :
  let m' := client_owning m in
  Forall is_static (client_body m' ++ tags_cells (ctags m')) /\ words_owned (cargs m') = true /\
  erase_client m' = erase_client m /\
  BytesCell.secret_ <$> client_body m' = BytesCell.secret_ <$> client_body m.
Proof.
  destruct owning_cells as (_ & _ & Ha & _ & Ht). destruct erase_owning as (_ & Ea & _ & Et). cbv zeta.
  assert (Hb : client_body (client_owning m) = BytesCell.owning <$> client_body m).
  { unfold client_body, client_owning. cbn [cmd cargs]. by rewrite fmap_cons, Ha. }
  split_and!.
  - apply Forall_app. split.
    + rewrite Hb. apply Forall_fmap, Forall_true. intros c. apply owning_static.
    + cbn [ctags client_owning]. rewrite Ht. apply Forall_fmap, Forall_true. intros c. apply make_owning_static.
  - done.
  - unfold erase_client, client_owning. cbn [cmd cargs ctags]. by rewrite Et, Ea, (proj1 (owning_keeps (cmd m))).
  - rewrite Hb, <- list_fmap_compose. apply list_fmap_ext. intros i c _. apply owning_keeps.
Qed.

(** The value of a tag that borrows a secret is shown once the message
    has been made owning. *)
Lemma tags_owning_shows k v :
  utf8_valid v = true ->
  let t := [(k, BytesCell.secret (BytesCell.from_str v))] in
  (fun kv => (BytesCell.fmt kv.2).1) <$> t = [BytesCell.DISPLAY_PLACEHOLDER] /\
  (fun kv => (BytesCell.fmt kv.2).1) <$> tags_owning t = [v].
Proof. intros Hv t. split; [done|]. by destruct v. Qed.
