(* ===== verification/MsgParts.v ===== *)
(** * Changing the parts of messages in place

    [src/ircmsg/args.rs], [src/ircmsg/tags.rs], [src/ircmsg/source.rs]: the
    accessors that give out mutable slices and references, over the bytes of
    [Args] and [Tags], and those that depend on who owns the strings, over the
    messages of [Ownership].  A mutable slice is what its user does to the list
    of its elements, which keeps their number; a mutable reference what is done to
    the value. *)

From stdpp Require Import list.
From S2P Require Import Prelude Strings.
From S2P Require Args Tags Source FlatMap FlatMapOps BytesCell Ownership.
Import Args (Args, mkArgs, args_wf).

(** ** [ArgsEditGuard] *)

Definition all_mut (a : Args) (f : list (list byte) -> list (list byte)) : option Args :=
  match Args.long a with
  | None => Some (mkArgs (f (Args.words a)) None)
  | Some _ => None
  end.

Definition words_mut (a : Args) (f : list (list byte) -> list (list byte)) : Args :=
  mkArgs (f (Args.words a)) (Args.long a).

Definition split_last_mut (a : Args) (f : list (list byte) -> list (list byte)) : option (list byte) * Args :=
  match Args.long a with
  | Some long => (Some long, mkArgs (f (Args.words a)) (Some long))
  | None =>
      match last (Args.words a) with
      | Some l => (Some l, mkArgs (f (take (length (Args.words a) - 1) (Args.words a)) ++ [l]) None)
      | None => (None, mkArgs (f []) None)
      end
  end.

(** ** [Args] *)

Definition words (a : Args) : list (list byte) := Args.words a.
Definition from_vec (value : list (list byte)) : Args := mkArgs value None.

(** ** [Tags] *)

Definition get_mut (t : Tags.Tags) (key : list byte) (f : list byte -> list byte) : Tags.Tags :=
  match from_bytes Key key with
  | Ok key => FlatMapOps.get_mut fst t key (fun kv => (kv.1, f kv.2))
  | Err _ => t
  end.

Definition guard_get_mut (g : Tags.TagsEditGuard) (key : list byte) (f : list byte -> list byte) : Tags.TagsEditGuard :=
  match from_bytes Key key with
  | Ok key => FlatMapOps.guard_get_mut fst g key (fun kv => (kv.1, f kv.2))
  | Err _ => g
  end.

(** [collection_methods!(pairs)]. *)
Definition tags_len (t : Tags.Tags) : nat := FlatMapOps.len t.
Definition tags_is_empty (t : Tags.Tags) : bool := FlatMapOps.is_empty t.

(** ** [Source] and [SharedSource] *)

(** [None] would be undefined behaviour. *)
Definition len_nonzero (s : Source.Source) : option nat :=
  match Source.source_len s with 0 => None | n => Some n end.

Definition shown (c : BytesCell.Cell) : list byte := (BytesCell.fmt c).1.

Definition source_fmt (s : Ownership.Source) : list byte :=
  let nick := shown (Ownership.nick s) in
  match Ownership.userhost s with
  | Some address =>
      let host := shown (Ownership.host address) in
      match Ownership.user address with
      | Some user => nick ++ bs "!" ++ shown user ++ bs "@" ++ host
      | None => nick ++ bs "@" ++ host
      end
  | None => nick
  end.

Definition shared_fmt (s : Ownership.SharedSource) : list byte := source_fmt (Ownership.shared s).

(** [owning_merged], on the bytes of the source that is unwrapped or cloned. *)
Definition shared_owning_merged (self : Ownership.SharedSource) : option Source.Source :=
  match Ownership.try_unwrap self with
  | Ok src => Source.owning_merged (Ownership.erase_source src)
  | Err arc => Source.owning_merged (Ownership.erase_source (Ownership.source_clone arc))
  end.

(** ** [Args] and who owns the words *)

(** [to_mut] makes them owned. *)
Definition args_edit (a : Ownership.Args) : Ownership.Args :=
  Ownership.mkArgs (Ownership.words a) true (Ownership.long a).
Definition args_clear (a : Ownership.Args) : Ownership.Args := Ownership.mkArgs [] true None.

(** ** Theorems *)

(** What a user of a slice of [Arg]s can do. *)
Definition changes (f : list (list byte) -> list (list byte)) : Prop :=
  forall l, Forall (valid Arg) l -> length (f l) = length l /\ Forall (valid Arg) (f l).

(** Whatever is written into the slices of arguments the guard gives out, the
    arguments stay well formed and as many; the slices leave out exactly a long
    last argument, or whatever [split_last] splits off, which is not changed. *)
Theorem args_mut_correct a f :
  args_wf a -> changes f ->
  args_wf (words_mut a f) /\ Args.len (words_mut a f) = Args.len a /\ Args.long (words_mut a f) = Args.long a /\
  (all_mut a f = match Args.all a with Some _ => Some (words_mut a f) | None => None end) /\
  let '(l, a') := split_last_mut a f in
  l = (Args.split_last a).2 /\ args_wf a' /\ Args.len a' = Args.len a /\ Args.split_last a' = (f (Args.split_last a).1, l).
Proof.
  intros [Hw Hl] Hf. destruct (Hf _ Hw) as [F1 F2]. unfold words_mut, all_mut, Args.all.
  split; [done|]. split; [unfold Args.len; cbn; by rewrite F1|]. split; [done|].
  split; [by destruct (Args.long a)|].
  unfold split_last_mut, Args.split_last, Args.len. destruct (Args.long a) as [long|] eqn:Hlong.
  { cbn. by rewrite F1. }
  destruct (last (Args.words a)) as [l|] eqn:Hlast.
  - apply last_Some in Hlast as [ws E]. rewrite E in *. rewrite length_app. cbn [length].
    rewrite Nat.add_sub, take_app_length. apply Forall_app in Hw as [Hws Hlw]. destruct (Hf _ Hws) as [G1 G2].
    split; [done|]. split; [split; [by apply Forall_app|done]|].
    cbn. rewrite length_app, G1. cbn. split; [done|].
    by rewrite last_snoc, Nat.add_sub, <- G1, take_app_length.
  - apply last_None in Hlast. rewrite Hlast in *. destruct (Hf [] ltac:(constructor)) as [G1 G2].
    apply length_zero_iff_nil in G1. rewrite G1.
    split; [done|]. split; [split; [constructor|done]|].
    split; [done|]. cbn. by rewrite G1.
Qed.

Lemma args_mut_correct_witness :
  let f := fun l : list (list byte) => match l with _ :: l => bs "x" :: l | [] => [] end in
  split_last_mut (mkArgs [bs "a"; bs "b"] None) f = (Some (bs "b"), mkArgs [bs "x"; bs "b"] None) /\
  args_wf (split_last_mut (mkArgs [bs "a"; bs "b"] None) f).2.
Proof.
  intros f. split; [reflexivity|].
  assert (Hf : changes f).
  { intros [|w l] Hl; [by split|]. split; [done|]. apply Forall_cons in Hl as [_ Hl]. by constructor. }
  assert (Hw : args_wf (mkArgs [bs "a"; bs "b"] None)) by (split; [by repeat constructor|done]).
  destruct (args_mut_correct _ f Hw Hf) as (_ & _ & _ & _ & K). apply K.
Defined.

(** Changing the value of a tag through [get_mut], of the map or of a fresh
    guard, is what is got afterwards and keeps the tags well formed; an invalid
    or missing key changes nothing. *)
Theorem tags_mut_correct t key f :
  Tags.tags_wf t -> (forall v, valid NoNul v -> valid NoNul (f v)) ->
  Tags.tags_wf (get_mut t key f) /\ Tags.get (get_mut t key f) key = f <$> Tags.get t key /\
  (forall k, k <> key -> Tags.get (get_mut t key f) k = Tags.get t k) /\
  tags_len (get_mut t key f) = tags_len t /\
  Tags.edit_drop (guard_get_mut (Tags.edit t) key f) = get_mut t key f /\
  (Tags.get t key = None -> get_mut t key f = t).
Proof.
  intros [Hs Hv] Hf. unfold get_mut, guard_get_mut, Tags.get. destruct (from_bytes Key key) as [k|e] eqn:Hk.
  - assert (k = key) as -> by (unfold from_bytes in Hk; destruct (find_invalid Key key); congruence).
    destruct (FlatMapOps.get_mut_correct fst t key (fun kv => (kv.1, f kv.2)) Hs ltac:(done)) as (S1 & S2 & S3 & S4 & S5 & S6).
    split; [split; [done|]|split; [|split; [|split; [done|split; [done|]]]]].
    + unfold FlatMapOps.get_mut. destruct (FlatMap.get_impl fst t (length t) key) as [i|]; [|done].
      clear -Hv Hf. revert i. induction Hv as [|kv l [H1 H2] Hl IH]; intros [|i]; cbn; constructor; try done.
      split; [done|]. by apply Hf.
    + rewrite S2. by destruct (FlatMap.get fst t key).
    + intros k Hne. destruct (from_bytes Key k) as [k'|] eqn:Hk'; [|done].
      assert (k' = k) as -> by (unfold from_bytes in Hk'; destruct (find_invalid Key k); congruence). by rewrite S3.
    + destruct (FlatMap.get fst t key) as [kv|]; [done|]. intros _. by apply S6.
  - split; [done|]. split; [done|]. split; [done|]. split; [done|]. split; [|done].
    unfold Tags.edit_drop, Tags.edit. by apply FlatMap.guard_drop_sorted_id.
Qed.

Lemma tags_mut_correct_witness :
  Tags.get (get_mut [(bs "a", bs "1"); (bs "b", [])] (bs "a") (fun v => v ++ bs "0")) (bs "a") = Some (bs "10").
Proof.
  assert (Hw : Tags.tags_wf [(bs "a", bs "1"); (bs "b", [])]).
  { split; [|by repeat constructor]. by repeat constructor. }
  refine (eq_trans (proj1 (proj2 (tags_mut_correct [(bs "a", bs "1"); (bs "b", [])] (bs "a") (fun v => match v with [x] => [x; "0"%byte] | _ => v end) Hw _))) _).
  - intros [|x [|y v]] Hx; [done| |done]. unfold valid in *. cbn in *. by destruct x.
  - reflexivity.
Defined.

(** A source is never empty, so its length is a [NonZeroUsize]; however many
    handles it has, a shared one merges into the same source, and shows what
    [Source] shows when nothing in it is secret. *)
Theorem source_parts_correct s n :
  let e := Ownership.erase_source s in
  Source.source_wf e ->
  len_nonzero e = Some (Source.source_len e) /\
  shared_owning_merged (Ownership.mkShared s n) = Some e /\
  (Forall (fun c => BytesCell.secret_ c = false /\ BytesCell.cutf8 c = 0%Z) (Ownership.source_cells s) ->
   shared_fmt (Ownership.mkShared s n) = Source.fmt e).
Proof.
  intros e Hw. split; [|split].
  - assert (Hne : Source.nick e <> []).
    { destruct Hw as [Hn _]. intros E. rewrite E in Hn. done. }
    unfold len_nonzero, Source.source_len. destruct (Source.nick e); [done|]. cbn [length].
    by destruct (Source.userhost e).
  - unfold shared_owning_merged, Ownership.try_unwrap. cbn [Ownership.handles Ownership.shared].
    assert (Hc : Ownership.source_clone s = s) by (destruct s as [[? ? ? ?] [[[[]|] []]|]]; done).
    destruct (n =? 1); [|rewrite Hc]; by apply Source.owning_merged_id.
  - assert (Hshow : forall c, BytesCell.secret_ c = false /\ BytesCell.cutf8 c = 0%Z -> shown c = BytesCell.show (BytesCell.cvalue c)).
    { intros [v o u s'] [H1 H2]. cbn in H1, H2. subst. unfold shown, BytesCell.show, BytesCell.fmt, BytesCell.to_utf8. cbn. by destruct (Utf8.utf8_valid v). }
    unfold shared_fmt, source_fmt, e, Ownership.erase_source, Source.fmt. cbn [Ownership.shared].
    destruct s as [nk [[[u|] h]|]]; cbn; unfold Ownership.source_cells, Ownership.userhost_cells; cbn;
      rewrite ?Forall_cons; intros Hf; rewrite ?Hshow by tauto; done.
Qed.
