(* ===== verification/Auth.v ===== *)
(** * SASL authentication

    [src/client/auth.rs], [src/client/auth/]: the mechanisms, their queue and
    the handler that drives them.  A mechanism is anything with the operations
    of [SaslLogic]; secrets are their bytes. *)

From S2P Require Import Prelude Handlers Args Tags Numeric Source Strings Splitter Msg Sink.
From S2P Require Names Queue State Base64.

(** ** Mechanisms *)

(** [SaslLogic]; [reply] takes the challenge and the output buffer and returns
    what it made of the buffer and of itself. *)
Class SaslLogic (L : Type) := {
  sasl_name : L -> list byte;
  reply : L -> list byte -> list byte -> result () (list byte) * list byte * L;
}.

(** A mechanism keeps its name. *)
Class SaslLogicOk (L : Type) `{SaslLogic L} : Prop :=
  reply_name l input output : sasl_name (reply l input output).2 = sasl_name l.

(** [ExternalLogic] with the authorisation id, [PlainLogic] with its buffer. *)
Inductive Logic := ExternalLogic (authzid : list byte) | PlainLogic (buf : list byte).

(** [PlainLogic::new]; [push_cstr] ends what it appends with a nul. *)
Definition plain_new (authzid authcid passwd : list byte) : Logic :=
  PlainLogic (authzid ++ ["000"%byte] ++ authcid ++ ["000"%byte] ++ passwd).

Definition logic_name (l : Logic) : list byte :=
  match l with ExternalLogic _ => bs "EXTERNAL" | PlainLogic _ => bs "PLAIN" end.

Definition logic_reply (l : Logic) (input output : list byte) : result () (list byte) * list byte * Logic :=
  match l with
  | ExternalLogic authzid =>
      match input with
      | [] => (Ok (), output ++ authzid, l)
      | _ => (Err (bs "non-empty server message"), output, l)
      end
  | PlainLogic buf =>
      match input, buf with
      | _ :: _, _ => (Err (bs "non-empty server message"), output, l)
      | [], [] => (Err (bs "already sent auth"), output, l)
      | [], _ => (Ok (), buf, PlainLogic output)
      end
  end.

#[global] Instance Logic_SaslLogic : SaslLogic Logic := {| sasl_name := logic_name; reply := logic_reply |}.

#[global] Instance Logic_SaslLogicOk : SaslLogicOk Logic.
Proof. intros [authzid|[|b buf]] [|i input] output; done. Qed.

Inductive PasswordMechanism := PPlain.

#[global] Instance PasswordMechanism_eq_dec : EqDecision PasswordMechanism.
Proof. solve_decision. Defined.

Definition full_set : list PasswordMechanism := [PPlain].

Definition mechanism_logic (m : PasswordMechanism) (authzid authcid passwd : list byte) : Logic :=
  match m with PPlain => plain_new authzid authcid passwd end.

(** [Password]. *)
Record Password := mkPassword {
  deny_methods : list PasswordMechanism;
  pw_authzid : list byte;
  pw_authcid : list byte;
  pw_passwd : list byte;
}.
Definition password_new (username passwd : list byte) : Password := mkPassword [] [] username passwd.

Definition password_logic (p : Password) : list Logic :=
  List.map (fun m => mechanism_logic m (pw_authzid p) (pw_authcid p) (pw_passwd p))
    (filter (.∉ deny_methods p) full_set).

(** [Plain]. *)
Record Plain := mkPlain { authzid : list byte; authcid : list byte; passwd : list byte }.
Definition plain_cfg (username passwd : list byte) : Plain := mkPlain [] username passwd.

(** [AnySasl], and [Plain], which is not part of it. *)
Inductive AnySasl := External (authzid : list byte) | PasswordSasl (p : Password).

(** [From<External>] and [From<Password>]. *)
Definition any_from_external (value : list byte) : AnySasl := External value.
Definition any_from_password (value : Password) : AnySasl := PasswordSasl value.

(** [Sasl]. *)
Class Sasl (A L : Type) := logic : A -> list L.

Definition AnySasl_logic : Sasl AnySasl Logic := fun s =>
  match s with External authzid => [ExternalLogic authzid] | PasswordSasl p => password_logic p end.
#[global] Existing Instance AnySasl_logic.

Definition Plain_logic : Sasl Plain Logic := fun p => [plain_new (authzid p) (authcid p) (passwd p)].
#[global] Existing Instance Plain_logic.

(** ** [SaslQueue] *)

Section SaslQueue.
Context {L : Type} `{SaslLogic L}.

Definition SaslQueue : Type := list L.
Definition queue_new : SaslQueue := [].
Definition queue_is_empty (q : SaslQueue) : bool := match q with [] => true | _ => false end.
Definition queue_len (q : SaslQueue) : nat := length q.
Definition queue_push {A} `{Sasl A L} (q : SaslQueue) (sasl : A) : SaslQueue := q ++ logic sasl.
Definition queue_pop (q : SaslQueue) : option (L * SaslQueue) :=
  match q with [] => None | l :: q => Some (l, q) end.
Definition queue_retain (supported : list byte -> bool) (q : SaslQueue) : SaslQueue :=
  List.filter (fun l => supported (sasl_name l)) q.
Definition queue_clear (q : SaslQueue) : SaslQueue := [].
Definition queue_from_vec (value : list L) : SaslQueue := value.
Definition queue_from_iter {A} `{Sasl A L} (l : list A) : SaslQueue := foldl queue_push queue_new l.
End SaslQueue.
Arguments SaslQueue L : clear implicits.

(** ** The handler *)

Inductive HandlerError := Broken (arg : list byte) | Unsupported | Fail (reason : list byte).

(** [HandlerError]'s [Display]. *)
Definition handler_error_fmt (e : HandlerError) : list byte :=
  match e with
  | Fail reason => bs "login failed: " ++ reason
  | Unsupported => bs "no supported mechanisms"
  | Broken m => bs "server has broken " ++ m ++ bs " implementation"
  end.

(** [msg_abort]. *)
Definition msg_abort : ClientMsg :=
  let msg := client_new_cmd (bs "AUTHENTICATE") in
  mkClientMsg (ctags msg) (cmd msg) (add_word (cargs msg) Names.STAR).

Definition auth_chunk (chunk : list byte) : ClientMsg :=
  let msg := client_new_cmd (bs "AUTHENTICATE") in
  mkClientMsg (ctags msg) (cmd msg) (add_word (cargs msg) chunk).

Section Auth.
Context {L : Type} `{SaslLogic L} {E : Type} `{Base64.Engine E} {S : Type} `{ClientMsgSink S}.

Record Handler := mkHandler { hqueue : SaslQueue L; hlogic : L; decoder : Base64.ChunkDecoder }.

Definition CHUNK : nat := 400.

Definition new (logic : L) (queue : SaslQueue L) : Handler := mkHandler queue logic (Base64.decoder CHUNK).

Definition from_queue (queue : SaslQueue L) : option Handler :=
  match queue_pop queue with
  | Some (logic, queue) => Some (new logic queue)
  | None => None
  end.

Definition auth_msg (h : Handler) : ClientMsg := auth_chunk (sasl_name (hlogic h)).

(** [retain]: whether to start over, or that no mechanism is left. *)
Definition retain (supported : list byte -> bool) (h : Handler) : option bool * Handler :=
  let q := queue_retain supported (hqueue h) in
  if supported (sasl_name (hlogic h)) then (None, mkHandler q (hlogic h) (decoder h))
  else
    match queue_pop q with
    | Some (new_logic, q) => (Some true, mkHandler q new_logic (decoder h))
    | None => (Some false, mkHandler q (hlogic h) (decoder h))
    end.

(** The reply to a decoded challenge. *)
Definition answer (chal : list byte) (h : Handler) (sink : S) : option (result bool HandlerError * Handler * S) :=
  let '(r, buf, l) := reply (hlogic h) chal [] in
  match r with
  | Err _ =>
      let sink := sink_send sink msg_abort in
      let name := sasl_name l in
      let q := queue_retain (fun ln => negb (bool_decide (name = ln))) (hqueue h) in
      match queue_pop q with
      | Some (new_logic, q) => Some (Ok false, mkHandler q new_logic (decoder h), sink)
      | None => Some (Err (Broken name), mkHandler q l (decoder h), sink)
      end
  | Ok _ =>
      match Base64.chunks (Base64.new buf CHUNK true) with
      | Some chunks =>
          Some (Ok false, mkHandler (hqueue h) l (decoder h),
                send_all sink (List.map (fun c => auth_chunk (value c)) chunks))
      | None => None
      end
  end.

(** [Handler::handle]; [None] is a panic in the encoder. *)
Definition handle (msg : ServerMsg) (h : Handler) (sink : S) : option (result bool HandlerError * Handler * S) :=
  let k := as_arg (kind msg) in
  if bool_decide (k = bs "AUTHENTICATE") then
    let (res, d) :=
      match words (sargs msg) with
      | first :: _ => Base64.add first (decoder h)
      | [] => let (r, d) := Base64.decode_all (decoder h) in (Some r, d)
      end in
    let h := mkHandler (hqueue h) (hlogic h) d in
    match res with
    | None => Some (Ok false, h, sink)
    | Some (Err _) => Some (Err (Broken (bs "base64")), h, sink_send sink msg_abort)
    | Some (Ok chal) => answer chal h sink
    end
  else if bool_decide (k ∈ [bs "902"; bs "904"]) then
    match queue_pop (hqueue h) with
    | Some (next_logic, q) =>
        let h := mkHandler q next_logic (decoder h) in Some (Ok false, h, sink_send sink (auth_msg h))
    | None => Some (Err (Fail (default [] (split_last (sargs msg)).2)), h, sink)
    end
  else if bool_decide (k = bs "905") then Some (Err (Broken (bs "counting")), h, sink)
  else if bool_decide (k = bs "906") then Some (Ok false, h, sink_send sink (auth_msg h))
  else if bool_decide (k = bs "908") then
    let set := (split_last (sargs msg)).1 in
    let h := mkHandler (queue_retain (fun ln => bool_decide (ln ∈ set)) (hqueue h)) (hlogic h) (decoder h) in
    if queue_is_empty (hqueue h) && negb (bool_decide (sasl_name (hlogic h) ∈ set))
    then Some (Err Unsupported, h, sink)
    else Some (Ok false, h, sink)
  else if bool_decide (k ∈ [bs "900"; bs "903"; bs "907"]) then Some (Ok true, h, sink)
  else Some (Ok false, h, sink).
End Auth.
Arguments Handler L : clear implicits.

Section AuthHandler.
Context {L : Type} `{SaslLogic L} {E : Type} `{Base64.Engine E} {A : Type} `{Queue.Adjuster A} {B : Type}.
Abbreviation Guard := (Queue.QueueEditGuard A B).

(** [make_handler] for a [SaslQueue] and for a [Sasl]; [None] is [NoHandler]. *)
Definition make_handler (queue : Guard) (sasl_queue : SaslQueue L) : option (Handler L * Guard) :=
  match queue_pop sasl_queue with
  | Some (sasl, sasl_queue) =>
      let retval := new sasl sasl_queue in Some (retval, Queue.push queue (auth_msg retval))
  | None => None
  end.
Definition make_handler_sasl {C} `{Sasl C L} (queue : Guard) (sasl : C) : option (Handler L * Guard) :=
  make_handler queue (queue_from_vec (logic sasl)).

(** [client::Handler::handle]. *)
Definition client_handle {R} `{Sender R (result () HandlerError)} (msg : ServerMsg) (h : Handler L)
    (queue : Guard) (channel : SenderRef R) : option (ControlFlow () * Handler L * Guard * SenderRef R) :=
  match handle msg h queue with
  | Some (Ok false, h, queue) => Some (Continue, h, queue, channel)
  | Some (v, h, queue) =>
      let v := match v with Ok _ => Ok () | Err e => Err e end in
      Some (Break (), h, queue, (ref_send channel v).2)
  | None => None
  end.
End AuthHandler.

(** ** [Secret] *)

(** [LoadSecret]: what it appends to or makes of the buffer. *)
Class LoadSecret (S : Type) := load_secret : S -> list byte -> result (list byte) (list byte).

Definition unit_load_secret : LoadSecret () := fun _ _ => Err (bs "no secret loader").
#[global] Existing Instance unit_load_secret.

(** [Clear]; its buffer replaces the one it is given. *)
Record Clear := mkClear { clear : list byte }.
Definition Clear_load_secret : LoadSecret Clear := fun c _ => Ok (clear c).
#[global] Existing Instance Clear_load_secret.

(** [Secret::load] into a string type. *)
Definition secret_load {S} `{LoadSecret S} (U : BytesNewtype) (value : S)
    : result (list byte) (list byte + InvalidString) :=
  match load_secret value [] with
  | Ok buf => map_err inr (from_bytes U buf)
  | Err e => Err (inl e)
  end.

(** ** Theorems *)

Section AuthThms.
Context {L : Type} `{SaslLogic L} {E : Type} `{Base64.Engine E} {S : Type} `{ClientMsgSink S}.

(** Messages until the handler is done. *)
Fixpoint run (msgs : list ServerMsg) (h : Handler L) (sink : S) : option (result bool HandlerError * Handler L * S) :=
  match msgs with
  | [] => Some (Ok false, h, sink)
  | msg :: msgs =>
      match handle msg h sink with
      | Some (Ok false, h, sink) => run msgs h sink
      | r => r
      end
  end.

(** One chunk of a challenge. *)
Definition challenge (tags : Tags) (src : option Source) (chunk : list byte) : ServerMsg :=
  mkServerMsg tags src (KCmd (bs "AUTHENTICATE")) (mkArgs [chunk] None).

Lemma handle_challenge tags src chunk h sink :
  handle (challenge tags src chunk) h sink =
  match (Base64.add chunk (decoder h)) with
  | (None, d) => Some (Ok false, mkHandler (hqueue h) (hlogic h) d, sink)
  | (Some (Err _), d) => Some (Err (Broken (bs "base64")), mkHandler (hqueue h) (hlogic h) d, sink_send sink msg_abort)
  | (Some (Ok chal), d) => answer chal (mkHandler (hqueue h) (hlogic h) d) sink
  end.
Proof.
  unfold handle, challenge. cbn [as_arg kind sargs words]. rewrite bool_decide_true by done.
  by destruct (Base64.add chunk (decoder h)) as [[[chal|e]|] d].
Qed.

Lemma run_unanswered tags src l q lg d d' sink :
  Base64.add_all l d = ([], d') ->
  run (challenge tags src <$> l) (mkHandler q lg d) sink = Some (Ok false, mkHandler q lg d', sink).
Proof.
  revert d. induction l as [|c l IH]; intros d; cbn [Base64.add_all fmap list_fmap run]; [by intros [= ->]|].
  rewrite handle_challenge. cbn [decoder hqueue hlogic].
  destruct (Base64.add c d) as [[r|] d1], (Base64.add_all l d1) as [rs d2] eqn:Ha; intros [= -> ->]. by apply IH.
Qed.

Lemma run_answered tags src l q lg d d' chal sink lg' sink' :
  Base64.add_all l d = ([Ok chal], d') ->
  (forall d, answer chal (mkHandler q lg d) sink = Some (Ok false, mkHandler q lg' d, sink')) ->
  run (challenge tags src <$> l) (mkHandler q lg d) sink = Some (Ok false, mkHandler q lg' d', sink').
Proof.
  intros Ha Hans. revert d Ha. induction l as [|c l IH]; intros d; cbn [Base64.add_all fmap list_fmap run]; [done|].
  rewrite handle_challenge. cbn [decoder hqueue hlogic].
  destruct (Base64.add c d) as [[r|] d1], (Base64.add_all l d1) as [rs d2] eqn:Ha.
  - intros [= -> -> ->]. rewrite Hans. by apply run_unanswered.
  - intros [= -> ->]. by apply IH.
Qed.

Lemma answer_ok `{!Base64.EngineOk E} chal q lg sink buf lg' :
  reply lg chal [] = (Ok (), buf, lg') ->
  exists rs, (forall d, answer chal (mkHandler q lg d) sink =
      Some (Ok false, mkHandler q lg' d, send_all sink (auth_chunk <$> rs))) /\
    Forall (fun c => valid Arg c /\ length c <= CHUNK) rs /\
    Base64.add_all rs (Base64.decoder CHUNK) = ([Ok buf], Base64.decoder CHUNK).
Proof.
  intros Hr. destruct (Base64.chunks_spec buf CHUNK true ltac:(unfold CHUNK; lia) eq_refl) as (cs & K1 & _ & K2 & K3).
  exists (value <$> cs). split; [|split; [|done]].
  - intros d. unfold answer. cbn [hlogic hqueue decoder]. rewrite Hr, K1. by rewrite <- list_fmap_compose.
  - apply Forall_fmap. eapply Forall_impl; [exact K2|]. cbv beta. by intros c (_ & ? & ?).
Qed.

Context `{!Base64.EngineOk E}.

(** C22: A challenge sent in chunks is answered once, with chunks that fit the
    wire and that a server decodes to what the mechanism replied; the handler is
    then ready for the next challenge. *)
Theorem auth_exchange tags src q lg chal secret buf lg' sink :
  reply lg chal [] = (Ok (), buf, lg') ->
  exists cs rs, Base64.chunks (Base64.new chal CHUNK secret) = Some cs /\
    run (challenge tags src <$> (value <$> cs)) (new lg q) sink =
      Some (Ok false, new lg' q, send_all sink (auth_chunk <$> rs)) /\
    Forall (fun c => valid Arg c /\ length c <= CHUNK) rs /\
    Base64.add_all rs (Base64.decoder CHUNK) = ([Ok buf], Base64.decoder CHUNK).
Proof.
  intros Hr. destruct (Base64.chunks_spec chal CHUNK secret ltac:(unfold CHUNK; lia) eq_refl) as (cs & K1 & _ & _ & K2).
  destruct (answer_ok chal q lg sink buf lg' Hr) as (rs & K3 & K4 & K5).
  exists cs, rs. split; [done|]. split; [|done]. by eapply run_answered.
Qed.

(** A failure, and the mechanism that comes next. *)
Definition is_failure (m : ServerMsg) : Prop := as_arg (kind m) ∈ [bs "902"; bs "904"].

Lemma handle_failure m h sink :
  is_failure m ->
  handle m h sink =
  match hqueue h with
  | l :: q => Some (Ok false, mkHandler q l (decoder h), sink_send sink (auth_chunk (sasl_name l)))
  | [] => Some (Err (Fail (default [] (split_last (sargs m)).2)), h, sink)
  end.
Proof.
  unfold is_failure. intros Hf. unfold handle.
  rewrite bool_decide_false.
  - rewrite bool_decide_true by done. by destruct h as [[|l q] lg d].
  - intros Hk. rewrite Hk in Hf. rewrite !elem_of_cons, elem_of_nil in Hf. by destruct Hf as [?|[?|[]]].
Qed.

(** C23: Each failure moves on to the next mechanism in the order of the queue,
    naming it to the server, and only when there is none left does the handler
    fail, with the reason the server gave last. *)
Theorem auth_fallback ms h sink :
  Forall is_failure ms ->
  run ms h sink =
  match ms !! length (hqueue h) with
  | None => Some (Ok false, mkHandler (drop (length ms) (hqueue h))
                              (List.last (take (length ms) (hqueue h)) (hlogic h)) (decoder h),
                  send_all sink ((fun l => auth_chunk (sasl_name l)) <$> take (length ms) (hqueue h)))
  | Some m => Some (Err (Fail (default [] (split_last (sargs m)).2)),
                    mkHandler [] (List.last (hqueue h) (hlogic h)) (decoder h),
                    send_all sink ((fun l => auth_chunk (sasl_name l)) <$> hqueue h))
  end.
Proof.
  intros Hms. revert h sink. induction Hms as [|m ms Hm _ IH]; intros [q lg d] sink; cbn [run hqueue hlogic decoder].
  - rewrite lookup_nil. cbn [length]. rewrite take_0, drop_0. done.
  - rewrite handle_failure by done. cbn [hqueue decoder]. destruct q as [|l q]; [done|].
    rewrite IH. cbn [hqueue hlogic decoder length lookup list_lookup take drop].
    assert (Hlast : forall l' : list L, List.last l' l = List.last (l :: l') lg).
    { intros l'. revert l. induction l' as [|x l' IHl]; intros l; [done|]. cbn [List.last] in *. by destruct l'. }
    rewrite <- !Hlast. done.
Qed.

Definition names (h : Handler L) : list (list byte) := sasl_name <$> hlogic h :: hqueue h.

Lemma names_retain f q : sasl_name <$> queue_retain f q `sublist_of` sasl_name <$> q.
Proof.
  unfold queue_retain. induction q as [|l q IH]; cbn; [done|].
  destruct (f (sasl_name l)); [by apply sublist_skip|by apply sublist_cons].
Qed.

Lemma names_pop q l q' lg :
  queue_pop q = Some (l, q') -> sasl_name <$> l :: q' `sublist_of` sasl_name <$> lg :: q.
Proof. destruct q; [done|]. intros [= <- <-]. by apply sublist_cons. Qed.

Context `{!SaslLogicOk L}.

Lemma answer_names chal h sink r h' sink' :
  answer chal h sink = Some (r, h', sink') -> names h' `sublist_of` names h.
Proof.
  unfold answer. pose proof (reply_name (hlogic h) chal []) as Hn.
  destruct (reply (hlogic h) chal []) as [[[u|e] buf] l]; cbn [snd] in Hn; unfold names.
  - destruct (Base64.chunks _); [|done]. intros [= _ <- _]. cbn [hlogic hqueue fmap list_fmap]. by rewrite Hn.
  - set (q := queue_retain _ _). assert (Hq : sasl_name <$> q `sublist_of` sasl_name <$> hqueue h) by apply names_retain.
    destruct (queue_pop q) as [[l' q']|] eqn:Hp; intros [= _ <- _]; cbn [hlogic hqueue].
    + etrans; [by apply (names_pop q l' q' (hlogic h))|]. cbn [fmap list_fmap]. by apply sublist_skip.
    + cbn [fmap list_fmap]. rewrite Hn. by apply sublist_skip.
Qed.

Lemma handle_names msg h sink r h' sink' :
  handle msg h sink = Some (r, h', sink') -> names h' `sublist_of` names h.
Proof.
  unfold handle. case_bool_decide.
  { set (x := match words (sargs msg) with [] => _ | _ => _ end). destruct x as [[[chal|e]|] d].
    - intros Ha. by apply answer_names in Ha.
    - by intros [= _ <- _].
    - by intros [= _ <- _]. }
  repeat case_bool_decide; try (by intros [= _ <- _]).
  - destruct (queue_pop (hqueue h)) as [[l q]|] eqn:Hp; intros [= _ <- _]; [|done].
    by apply (names_pop _ _ _ (hlogic h)) in Hp.
  - destruct (_ && _); intros [= _ <- _]; apply sublist_skip, names_retain.
  - destruct (_ && _); intros [= _ <- _]; apply sublist_skip, names_retain.
Qed.

(** Whatever the server sends, mechanisms are only ever dropped: what is
    being tried and what is left to try is always part of what there was, in
    the same order, so no mechanism that was given up is tried again, and the
    names sent to the server come from the ones configured. *)
Theorem auth_narrows msgs h sink r h' sink' :
  run msgs h sink = Some (r, h', sink') ->
  names h' `sublist_of` names h /\ length (hqueue h') <= length (hqueue h).
Proof.
  intros Hr. assert (Hs : names h' `sublist_of` names h).
  { revert h sink Hr. induction msgs as [|m msgs IH]; intros h sink; cbn [run]; [by intros [= _ <- _]|].
    destruct (handle m h sink) as [[[[[]|e] h1] s1]|] eqn:Hm; try (intros [= _ <- _]; by eapply handle_names).
    intros Hr. etrans; [by eapply IH|by eapply handle_names]. }
  split; [done|]. apply sublist_length in Hs. cbn [names fmap list_fmap length] in Hs. rewrite !length_fmap in Hs. lia.
Qed.
End AuthThms.

(** ** Passwords *)

Section Plain.
Context {E : Type} `{Base64.Engine E} {S : Type} `{ClientMsgSink S} `{!Base64.EngineOk E}.

Lemma nonul_bytes l : valid NoNul l -> Forall (fun b => Byte.eqb b "000" = false) l.
Proof. intros [_ Hl]%valid_iff. eapply Forall_impl; [exact Hl|]. cbv beta. intros b. by destruct b. Qed.

(** Logging in with a password names the mechanism and then, once the server
    is ready, sends chunks that decode to the identity to act as, the identity
    the password is for and the password, which can be told apart because none
    holds a nul.  They are sent once: asked again, the client gives up. *)
Theorem plain_login (p : Password) tags src (sink sink' : S) :
  deny_methods p = [] -> valid NoNul (pw_authzid p) -> valid NoNul (pw_authcid p) -> valid NoNul (pw_passwd p) ->
  exists h0 h1 rs buf,
    from_queue (logic (PasswordSasl p)) = Some h0 /\ auth_msg h0 = auth_chunk (bs "PLAIN") /\
    handle (challenge tags src (bs "+")) h0 sink = Some (Ok false, h1, send_all sink (auth_chunk <$> rs)) /\
    Forall (fun c => valid Arg c /\ length c <= CHUNK) rs /\
    Base64.add_all rs (Base64.decoder CHUNK) = ([Ok buf], Base64.decoder CHUNK) /\
    split_on "000" buf = [pw_authzid p; pw_authcid p; pw_passwd p] /\
    handle (challenge tags src (bs "+")) h1 sink' = Some (Err (Broken (bs "PLAIN")), h1, sink_send sink' msg_abort).
Proof.
  intros Hd Hz Hc Hp. set (z := ["000"%byte]).
  set (buf := pw_authzid p ++ z ++ pw_authcid p ++ z ++ pw_passwd p).
  assert (Hne : exists b l, buf = b :: l).
  { unfold buf, z. destruct (pw_authzid p) as [|b l]; cbn [app]; by eexists _, _. }
  assert (Hr : reply (PlainLogic buf) [] [] = (Ok (), buf, PlainLogic [])) by by destruct Hne as (b & l & ->).
  destruct (answer_ok [] [] (PlainLogic buf) sink buf (PlainLogic []) Hr) as (rs & K1 & K2 & K3).
  assert (Hplus : Base64.add (bs "+") (Base64.decoder CHUNK) = (Some (Ok []), Base64.decoder CHUNK)).
  { unfold Base64.add. cbn [Base64.chunk_len Base64.decoder]. change (length (bs "+") <? CHUNK) with true.
    rewrite bool_decide_true by done. cbn [Base64.decode_all Base64.data].
    pose proof (Base64.decode_encode []) as Hn. rewrite Base64.encode_nil in Hn.
    by rewrite (Hn : Base64.decode (Base64.data (Base64.decoder CHUNK)) = Ok []). }
  exists (new (PlainLogic buf) []), (new (PlainLogic []) []), rs, buf.
  assert (Hl : logic (PasswordSasl p) = [PlainLogic buf]).
  { cbn. unfold password_logic. by rewrite Hd. }
  rewrite Hl. split; [done|]. split; [done|]. split.
  { rewrite handle_challenge. cbn [new decoder hqueue hlogic]. rewrite Hplus. apply K1. }
  split; [done|]. split; [done|]. split.
  { unfold buf, z. cbn [app]. rewrite !split_on_app by by apply nonul_bytes.
    by rewrite split_on_none by by apply nonul_bytes. }
  rewrite handle_challenge. cbn [new decoder hqueue hlogic]. by rewrite Hplus.
Qed.
End Plain.

(** ** Witnesses *)

#[local] Existing Instance Base64.pair_engine.
#[local] Existing Instance Base64.pair_engine_ok.

Definition sample_password : Password := password_new (bs "foobar") (bs "12345").

Lemma plain_login_witness :
  valid NoNul (bs "foobar") /\
  exists rs buf, Base64.add_all rs (Base64.decoder CHUNK) = ([Ok buf], Base64.decoder CHUNK) /\
    split_on "000" buf = [[]; bs "foobar"; bs "12345"].
Proof.
  assert (Hu : valid NoNul (bs "foobar")) by by vm_compute.
  split; [exact Hu|].
  destruct (plain_login sample_password [] None ([] : list ClientMsg) [] eq_refl ltac:(by vm_compute) Hu ltac:(by vm_compute))
    as (h0 & h1 & rs & buf & _ & _ & _ & _ & Ha & Hs & _).
  exists rs, buf. split; [exact Ha|exact Hs].
Defined.

Lemma auth_exchange_witness :
  reply (ExternalLogic (bs "me")) [] [] = (Ok (), bs "me", ExternalLogic (bs "me")) /\
  exists cs rs, Base64.chunks (Base64.new [] CHUNK false) = Some cs /\
    run (challenge [] None <$> (value <$> cs)) (new (ExternalLogic (bs "me")) []) ([] : list ClientMsg) =
      Some (Ok false, new (ExternalLogic (bs "me")) [], auth_chunk <$> rs).
Proof.
  assert (Hr : reply (ExternalLogic (bs "me")) [] [] = (Ok (), bs "me", ExternalLogic (bs "me"))) by reflexivity.
  split; [exact Hr|].
  destruct (auth_exchange [] None [] (ExternalLogic (bs "me")) [] false (bs "me") (ExternalLogic (bs "me"))
    ([] : list ClientMsg) Hr) as (cs & rs & H1 & H2 & _).
  exists cs, rs. split; [exact H1|]. rewrite H2. by rewrite closure_send_all.
Defined.

Definition fail904 : ServerMsg := mkServerMsg [] None (KCmd (bs "904")) (mkArgs [bs "me"; bs "no"] None).

(** PLAIN fails, EXTERNAL is tried and fails too. *)
Lemma auth_fallback_witness :
  Forall is_failure [fail904; fail904] /\
  run [fail904; fail904] (new (PlainLogic (bs "x")) [ExternalLogic []]) ([] : list ClientMsg) =
    Some (Err (Fail (bs "no")), new (ExternalLogic []) [], [auth_chunk (bs "EXTERNAL")]).
Proof.
  assert (Hf : Forall is_failure [fail904; fail904]) by (repeat constructor).
  split; [exact Hf|]. refine (eq_trans (auth_fallback _ _ _ Hf) _). reflexivity.
Defined.

Lemma auth_narrows_witness :
  exists r h' sink', run [fail904] (new (PlainLogic (bs "x")) [ExternalLogic []]) ([] : list ClientMsg) = Some (r, h', sink') /\
    names h' `sublist_of` [bs "PLAIN"; bs "EXTERNAL"].
Proof.
  eexists _, _, _. split; [reflexivity|].
  exact (proj1 (auth_narrows [fail904] (new (PlainLogic (bs "x")) [ExternalLogic []]) ([] : list ClientMsg) _ _ _ eq_refl)).
Defined.
