(* ===== verification/Register.v ===== *)
(** * Connection registration

    [src/client/register.rs], [src/client/register/handler.rs]: the handshake
    that gets a client from an open connection to the end of the MOTD.  The
    handler is a state machine over server messages; it runs in a monad that
    keeps the handler's state and what was sent when it fails. *)

From Stdlib Require Import Sorted.
From S2P Require Import Prelude Handlers Args Tags Numeric Source Strings Splitter Msg Names Sink.
From S2P Require FlatMap Queue State Replies Cap Auth Nick Base64 BytesCell.

(** ** [BTreeSet] *)

(** A set is the sorted list of its elements. *)
Abbreviation BTreeSet := (list (list byte)).

Definition set_of (l : list (list byte)) : BTreeSet := foldl (fun s x => btree_insert x s) [] l.
Definition difference (a b : BTreeSet) : BTreeSet := List.filter (fun x => negb (bool_decide (x ∈ b))) a.
Definition intersection (a b : BTreeSet) : BTreeSet := List.filter (fun x => bool_decide (x ∈ b)) a.
Definition union (a b : BTreeSet) : BTreeSet := foldl (fun s x => btree_insert x s) a b.
Definition remove (x : list byte) (a : BTreeSet) : BTreeSet := List.filter (fun y => negb (bool_decide (y = x))) a.

(** ** [Registration] *)

Record Registration := mkReg {
  rnick : list byte;
  ruserhost : option UserHost;
  raccount : option (list byte);
  rsource : option Source;
  rcaps : NameMap (list byte * list byte) bool;
  rversion : option (list byte);
  risupport : NameMap (list byte * list byte) ();
}.

Definition reg_new (nick : list byte) : Registration := mkReg nick None None None [] None [].
Definition reg_default : Registration := reg_new STAR.

Definition set_nick (n : list byte) (r : Registration) : Registration :=
  mkReg n (ruserhost r) (raccount r) (rsource r) (rcaps r) (rversion r) (risupport r).
Definition set_whoami (s : Source) (r : Registration) : Registration :=
  mkReg (nick s) (userhost s) (raccount r) (rsource r) (rcaps r) (rversion r) (risupport r).
Definition set_account (a : option (list byte)) (r : Registration) : Registration :=
  mkReg (rnick r) (ruserhost r) a (rsource r) (rcaps r) (rversion r) (risupport r).
Definition set_source (s : option Source) (r : Registration) : Registration :=
  mkReg (rnick r) (ruserhost r) (raccount r) s (rcaps r) (rversion r) (risupport r).
Definition set_caps (c : NameMap (list byte * list byte) bool) (r : Registration) : Registration :=
  mkReg (rnick r) (ruserhost r) (raccount r) (rsource r) c (rversion r) (risupport r).
Definition set_version (v : option (list byte)) (r : Registration) : Registration :=
  mkReg (rnick r) (ruserhost r) (raccount r) (rsource r) (rcaps r) v (risupport r).
Definition set_isupport (i : NameMap (list byte * list byte) ()) (r : Registration) : Registration :=
  mkReg (rnick r) (ruserhost r) (raccount r) (rsource r) (rcaps r) (rversion r) i.

(** [parse_myinfo]: the third argument is the version. *)
Definition parse_myinfo (args : list (list byte)) (r : Registration) : Registration :=
  match drop 2 args with [] => r | version :: _ => set_version (Some version) r end.

Section Save.
Context (type_id : State.ClientStateKey -> N).

(** [Registration::save]. *)
Definition save (r : Registration) (state : State.ClientState) : State.ClientState :=
  let source := mkSource (rnick r) (ruserhost r) in
  let state := (State.update_source_len_from type_id (Some source) true state).2 in
  let state := State.insert type_id State.ClientSource source state in
  let state := State.insert type_id State.Account (raccount r) state in
  let state := State.insert type_id State.Caps (rcaps r) state in
  let state := State.insert type_id State.ISupport (risupport r) state in
  let state := match rsource r with Some s => State.insert type_id State.ServerSource s state | None => state end in
  match rversion r with Some v => State.insert type_id State.ServerVersion v state | None => state end.
End Save.

(** ** Errors *)

(** What a [Broken] error is about. *)
Inductive Cause := CText (text : list byte) | CParse (e : ParseError).

Inductive HandlerError :=
| NoAccess (line : list byte)
| NoNicks
| NoLogin
| Redirect (server : list byte) (port : N) (info : list byte)
| ServerError (msg : ServerMsg)
| Broken (cause : Cause)
| MissingCaps (caps : BTreeSet).

(** [HandlerError]'s [Display]. *)
Definition error_fmt (e : HandlerError) : list byte :=
  match e with
  | NoAccess l => bs "access denied: " ++ BytesCell.show l
  | NoNicks => bs "no fallback nicks remaining"
  | NoLogin => bs "failed to log in"
  | ServerError m => bs "server error: " ++ server_fmt m
  | Broken (CText t) => bs "invalid message: " ++ t
  | Broken (CParse e) => bs "invalid message: " ++ parse_error_fmt e
  | Redirect s p i => bs "redirected to " ++ BytesCell.show s ++ bs ":" ++ dec p ++ bs ": " ++ BytesCell.show i
  | MissingCaps c =>
      bs "missing required capabilities: " ++
      match List.map BytesCell.show c with [] => [] | a :: l => foldl (fun a b => a ++ bs ", " ++ b) a l end
  end.

(** ** The handler *)

Section Register.
Context {L : Type} `{Auth.SaslLogic L} {E : Type} `{Base64.Engine E} {I : Type} `{Nick.NickIterator I}
  {Sink : Type} `{ClientMsgSink Sink}.

(** [Box<dyn CapFn>]. *)
Definition CapFn : Type := BTreeSet -> BTreeSet.

Inductive HandlerState :=
| SBroken
| SReq (caps : CapFn) (queue : Auth.SaslQueue L)
| SAck (caps : BTreeSet) (queue : Auth.SaslQueue L)
| SSasl (handler : Auth.Handler L)
| SCapEnd
| SAwaitWelcome
| SAwaitEnd.

Record Handler := mkHandler {
  nicks : option (Nick.NickGen I);
  hstate : HandlerState;
  needs_auth : bool;
  reg : Registration;
}.

Definition handler_new (nicks : list byte * option (Nick.NickGen I)) (caps : CapFn) (needs_auth : bool)
    (auths : Auth.SaslQueue L) : Handler :=
  mkHandler nicks.2 (SReq caps auths) needs_auth (reg_new nicks.1).

(** *** The monad *)

Definition M (A : Type) : Type := Handler * Sink -> option (result A HandlerError * (Handler * Sink)).

Definition ret {A} (a : A) : M A := fun s => Some (Ok a, s).
Definition throw {A} (e : HandlerError) : M A := fun s => Some (Err e, s).
Definition panic {A} : M A := fun _ => None.
Definition bind {A B} (m : M A) (k : A -> M B) : M B := fun s =>
  match m s with
  | Some (Ok a, s) => k a s
  | Some (Err e, s) => Some (Err e, s)
  | None => None
  end.
Definition get : M Handler := fun s => Some (Ok s.1, s).
Definition put_state (st : HandlerState) : M () := fun s =>
  Some (Ok (), (mkHandler (nicks s.1) st (needs_auth s.1) (reg s.1), s.2)).
Definition put_nicks (n : option (Nick.NickGen I)) : M () := fun s =>
  Some (Ok (), (mkHandler n (hstate s.1) (needs_auth s.1) (reg s.1), s.2)).
Definition modify_reg (f : Registration -> Registration) : M () := fun s =>
  Some (Ok (), (mkHandler (nicks s.1) (hstate s.1) (needs_auth s.1) (f (reg s.1)), s.2)).
Definition with_sink {A} (f : Sink -> A * Sink) : M A := fun s => let (a, sink) := f s.2 in Some (Ok a, (s.1, sink)).
Definition send (msg : ClientMsg) : M () := with_sink (fun sink => ((), sink_send sink msg)).
Definition unwrap {A} (o : option A) : M A := match o with Some a => ret a | None => panic end.

Notation "'let*' x ':=' m 'in' k" := (bind m (fun x => k)) (at level 10, x pattern, m at level 100, k at level 200).
Notation "m ;; k" := (bind m (fun _ => k)) (at level 100, k at level 200, right associativity).

(** [next_nick]. *)
Definition next_nick : M () :=
  let* h := get in
  match nicks h with
  | None => throw NoNicks
  | Some gen =>
      put_nicks None ;;
      let* (nick, gen) := unwrap (Nick.next_nick gen) in
      let msg := client_new_cmd (bs "NICK") in
      send (mkClientMsg (ctags msg) (cmd msg) (add_word (cargs msg) nick)) ;;
      modify_reg (set_nick nick) ;;
      put_nicks gen
  end.

(** [HandlerState::ack]. *)
Definition ack (acked : bool) (caps : Cap.BTreeMap) : M () :=
  let* h := get in
  match hstate h with
  | SAck ackd queue =>
      let caps := fst <$> caps in
      let missing := intersection ackd caps in
      let ackd := if acked then difference ackd caps else ackd in
      if negb acked && negb (bool_decide (missing = [])) then throw (MissingCaps missing)
      else
        match ackd with
        | [] =>
            match Auth.from_queue queue with
            | Some handler => send (Auth.auth_msg handler) ;; put_state (SSasl handler)
            | None => put_state SCapEnd
            end
        | _ => put_state (SAck ackd queue)
        end
  | _ => ret ()
  end.

(** [SASL], the capability. *)
Definition SASL : list byte := bs "sasl".
Definition STS : list byte := bs "sts".

(** The last line of a capability list; what it does in the state [Req]. *)
Definition ls_last : M () :=
  let* h := get in
  put_state SBroken ;;
  match hstate h with
  | SReq reqs auths =>
      let mechs := (fun e => sasl_mechs e.2) <$> get_union_raw (rcaps (reg h)) SASL in
      let* auths :=
        match mechs with
        | Some (Some mechs) => ret (Auth.queue_retain (fun mech => bool_decide (mech ∈ mechs)) auths)
        | Some None => panic
        | None => ret (Auth.queue_clear auths)
        end in
      let avail := set_of (keys (rcaps (reg h))) in
      let reqs := reqs avail in
      let* reqs :=
        if negb (Auth.queue_is_empty auths) then ret (btree_insert SASL reqs)
        else if needs_auth h then throw NoLogin
        else ret reqs in
      let diff := difference reqs avail in
      if negb (bool_decide (diff = [])) then throw (MissingCaps diff)
      else
        match remove STS reqs with
        | [] => put_state SCapEnd
        | reqs =>
            with_sink (fun sink => ((), Cap.req reqs (Some (rnick (reg h))) (rsource (reg h)) sink)) ;;
            put_state (SAck reqs auths)
        end
  | st => put_state st
  end.

Abbreviation CapGuard := (FlatMap.EditGuard (E := (list byte * list byte) * bool)).

(** An edit of the capabilities through one guard, dropped in the end. *)
Definition edit_caps (f : CapGuard -> option CapGuard) : M () :=
  let* h := get in
  let* g := unwrap (f (edit (rcaps (reg h)))) in
  modify_reg (set_caps (FlatMap.guard_drop extract_key g)).

Definition try_insert_all (caps : Cap.BTreeMap) : M () :=
  edit_caps (fun g => Some (foldl (fun g e => (try_insert g e false).2) g caps)).
Definition insert_all (caps : Cap.BTreeMap) : M () :=
  edit_caps (fun g => Some (foldl (fun g e => (insert_or_update g e true).2) g caps)).
Fixpoint remove_all (caps : list (list byte)) (g : CapGuard) : option CapGuard :=
  match caps with
  | [] => Some g
  | cap :: caps => match remove_raw g cap with Some (_, g) => remove_all caps g | None => None end
  end.

(** The branch for [CAP]. *)
Definition handle_cap (msg : ServerMsg) : M () :=
  let* parsed := unwrap (Cap.parse (sargs msg)) in
  match parsed with
  | Err e => throw (Broken (CParse e))
  | Ok cap_msg =>
      match Cap.subcmd cap_msg with
      | Cap.Ls => try_insert_all (Cap.caps cap_msg) ;; if Cap.is_last cap_msg then ls_last else ret ()
      | Cap.New => try_insert_all (Cap.caps cap_msg)
      | Cap.Ack => ack true (Cap.caps cap_msg) ;; insert_all (Cap.caps cap_msg)
      | Cap.Nak => ack false (Cap.caps cap_msg)
      | Cap.Del => edit_caps (remove_all (fst <$> Cap.caps cap_msg)) ;; ack false (Cap.caps cap_msg)
      | Cap.List => throw (Broken (CText (bs "unexpected CAP LIST")))
      end
  end.
(** What follows the last byte for which [f] holds: [rsplit(f).next()]. *)
Definition rsplit_first (f : byte -> bool) (l : list byte) : list byte :=
  rev (take_while (fun b => negb (f b)) (rev l)).

(** The [split] closure: server and port of an old redirect. *)
Definition bounce (last : list byte) : option (list byte * N) :=
  let server := rsplit_first (fun c => negb (is_ascii_graphic c)) (take_while (fun c => negb (Byte.eqb c ",")) last) in
  match drop_while (fun c => negb (Byte.eqb c ",")) last with
  | [] => None
  | _ :: rest =>
      let port := rsplit_first (fun c => negb (is_ascii_digit c)) rest in
      match from_bytes Word server, strparse (from_str_radix10 U16_MAX) port with
      | Ok server, Ok port => Some (server, port)
      | _, _ => None
      end
  end.

(** The loop over [ISUPPORT] tokens. *)
Fixpoint isupport_loop (l : list (list byte)) (ism : FlatMap.EditGuard (E := (list byte * list byte) * ())) :=
  match l with
  | [] => ism
  | isupport :: l =>
      let (key, splitter) := string Key false (Splitter.new (plain isupport)) in
      match key with
      | Err _ => isupport_loop l ism
      | Ok key =>
          let (b, splitter) := next_byte splitter in
          if match b with Some b => negb (Byte.eqb b "=") | None => false end then isupport_loop l ism
          else isupport_loop l (insert ism (value key, value (rest_or_default Word splitter).1) ()).2
      end
  end.

(** The source in an argument of 900 and 901. *)
Definition set_whoami_arg (whoami : list byte) : M () :=
  match Source.parse whoami with
  | Ok s => modify_reg (set_whoami s)
  | Err e => throw (Broken (CParse e))
  end.

Definition is_await_end (st : HandlerState) : bool := match st with SAwaitEnd => true | _ => false end.

(** What the match over the message kind does: return at once or go on with a
    value. *)
Inductive Flow := Return (r : option Registration) | Value (r : option Registration).

Definition handle_001 (msg : ServerMsg) : M Flow :=
  let* h := get in
  let nick :=
    match words (sargs msg) with
    | n :: _ => if bool_decide (n = STAR) then None else match from_super SNick n with Ok n => Some n | Err _ => None end
    | [] => None
    end in
  (match nick with Some nick => modify_reg (set_nick nick) | None => ret () end) ;;
  (match source msg with
   | Some source =>
       if bool_decide (rsource (reg h) = Some source) then ret ()
       else let* s := unwrap (owning_merged source) in modify_reg (set_source (Some s))
   | None => ret ()
   end) ;;
  put_state SAwaitEnd ;;
  ret (Value None).

Definition handle_900 (msg : ServerMsg) : M Flow :=
  let args := (split_last (sargs msg)).1 in
  (match list.last args with
   | Some account =>
       modify_reg (set_account (Some account)) ;;
       match list.last (take (length args - 1) args) with Some whoami => set_whoami_arg whoami | None => ret () end
   | None => ret ()
   end) ;;
  ret (Value None).

Definition handle_901 (msg : ServerMsg) : M Flow :=
  modify_reg (set_account None) ;;
  (match list.last (split_last (sargs msg)).1 with Some whoami => set_whoami_arg whoami | None => ret () end) ;;
  ret (Value None).

Definition handle_bounce (msg : ServerMsg) : M Flow :=
  match (split_last (sargs msg)).2 with
  | None => throw (Broken (CText (bs "empty 005 message")))
  | Some last =>
      match bounce last with
      | Some (server, port) => throw (Redirect server port last)
      | None => throw (ServerError msg)
      end
  end.

Definition handle_010 (msg : ServerMsg) : M Flow :=
  match split_last (sargs msg) with
  | ([_; client; port], Some info) =>
      match from_str_radix10 U16_MAX (BytesCell.show port) with
      | Ok port => throw (Redirect client port info)
      | Err e => throw (Broken (CText (bs "not a valid port `" ++ BytesCell.show port ++ bs "`: " ++ e)))
      end
  | _ => throw (ServerError msg)
  end.

Definition handle_432 : M Flow :=
  let* h := get in
  put_nicks None ;;
  let* nicks := match nicks h with Some ng => unwrap (Nick.handle_invalid ng (rnick (reg h))) | None => ret None end in
  put_nicks nicks ;;
  next_nick ;;
  ret (Value None).

Definition handle_kind (msg : ServerMsg) (ignore_sasl : bool) : M Flow :=
  let* h := get in
  let k := as_arg (kind msg) in
  let k_in l := bool_decide (k ∈ l) in
  let await_end := is_await_end (hstate h) in
  if k_in [bs "001"; bs "002"; bs "003"; bs "004"] && needs_auth h && negb (bool_decide (is_Some (raccount (reg h))))
  then throw NoLogin
  else if k_in [bs "001"] then handle_001 msg
  else if k_in [bs "004"] && await_end then modify_reg (parse_myinfo (words (sargs msg))) ;; ret (Value None)
  else if k_in [bs "005"] && await_end then
    match words (sargs msg) with
    | [] => ret (Return None)
    | _ :: isupports =>
        modify_reg (fun r => set_isupport (FlatMap.guard_drop extract_key (isupport_loop isupports (edit (risupport r)))) r) ;;
        ret (Value None)
    end
  else if k_in [bs "004"] then throw (Broken (CText (bs "004 sent before 001")))
  else if k_in [bs "005"] then handle_bounce msg
  else if k_in [bs "010"] then handle_010 msg
  else if k_in [bs "376"; bs "422"] && await_end then
    modify_reg (fun _ => reg_default) ;; ret (Value (Some (reg h)))
  else if k_in [bs "376"; bs "422"] then throw (Broken (CText (bs "unexpected MOTD message")))
  else if k_in [bs "432"] then handle_432
  else if k_in [bs "433"; bs "436"] then next_nick ;; ret (Value None)
  else if k_in [bs "464"; bs "465"] then throw (NoAccess (default [] (split_last (sargs msg)).2))
  else if k_in [bs "900"] then handle_900 msg
  else if k_in [bs "901"] then handle_901 msg
  else if k_in [bs "902"; bs "904"; bs "905"; bs "906"; bs "907"] && ignore_sasl then ret (Value None)
  else if k_in [bs "CAP"] then handle_cap msg ;; ret (Value None)
  else if bool_decide (is_error (kind msg) = Some true) then throw (ServerError msg)
  else ret (Value None).

(** What the current authenticator does; whether there was one. *)
Definition handle_sasl (msg : ServerMsg) : M bool :=
  let* h := get in
  match hstate h with
  | SSasl sasl => fun s =>
      match Auth.handle msg sasl s.2 with
      | Some (Ok false, sasl, sink) => Some (Ok true, (mkHandler (nicks s.1) (SSasl sasl) (needs_auth s.1) (reg s.1), sink))
      | Some (_, _, sink) => Some (Ok true, (mkHandler (nicks s.1) SCapEnd (needs_auth s.1) (reg s.1), sink))
      | None => None
      end
  | _ => ret false
  end.

Definition cap_end_msg : ClientMsg :=
  let msg := client_new_cmd (bs "CAP") in mkClientMsg (ctags msg) (cmd msg) (add (cargs msg) (bs "END")).2.

(** The end of [handle]: capability negotiation is over. *)
Definition finish (retval : option Registration) : M (option Registration) :=
  let* h := get in
  match hstate h with
  | SCapEnd =>
      if needs_auth h && negb (bool_decide (is_Some (raccount (reg h)))) then throw NoLogin
      else send cap_end_msg ;; put_state SAwaitWelcome ;; ret retval
  | _ => ret retval
  end.

(** [Handler::handle]. *)
Definition handle (msg : ServerMsg) : M (option Registration) :=
  let* h := get in
  (match rsource (reg h), source msg with
   | None, Some source => let* s := unwrap (owning_merged source) in modify_reg (set_source (Some s))
   | _, _ => ret ()
   end) ;;
  let* ponged := with_sink (Replies.pong msg) in
  if ponged then ret None
  else
    let* ignore_sasl := handle_sasl msg in
    let* flow := handle_kind msg ignore_sasl in
    match flow with
    | Return r => ret r
    | Value r => finish r
    end.

Definition wants_owning (h : Handler) : bool := match hstate h with SAwaitWelcome => true | _ => false end.

(** ** [Register]

    [None] from [nicks] is a panic. *)

Record Register (O : Type) := mkRegister {
  password : O -> option (list byte);
  username : O -> list byte;
  user_p1 : O -> list byte;
  user_p2 : O -> list byte;
  realname : O -> list byte;
  rnicks : O -> option (Nick.NickGen I);
  caps : O -> CapFn;
  auth : O -> Auth.SaslQueue L * bool;
}.

Section Msgs.
Context {O : Type}.

Definition pass_msg (pass : list byte) : ClientMsg :=
  let msg := client_new_cmd (bs "PASS") in mkClientMsg (ctags msg) (cmd msg) (add (cargs msg) pass).2.
Definition ls_msg : ClientMsg :=
  let msg := client_new_cmd (bs "CAP") in
  mkClientMsg (ctags msg) (cmd msg) (add (add (cargs msg) (bs "LS")).2 (bs "302")).2.
Definition user_msg (user p1 p2 real : list byte) : ClientMsg :=
  let msg := client_new_cmd (bs "USER") in
  mkClientMsg (ctags msg) (cmd msg) (add (add_word (add_word (add_word (cargs msg) user) p1) p2) real).2.
Definition nick_msg (nick : list byte) : ClientMsg :=
  let msg := client_new_cmd (bs "NICK") in mkClientMsg (ctags msg) (cmd msg) (add_word (cargs msg) nick).

(** [register_msgs]; [None] is a panic of the nick generator, or in making it. *)
Definition register_msgs (self : Register O) (opts : O) (sink : Sink)
    : option ((list byte * option (Nick.NickGen I)) * Sink) :=
  let sink := match password O self opts with Some pass => sink_send sink (pass_msg pass) | None => sink end in
  let sink := sink_send sink ls_msg in
  let sink := sink_send sink (user_msg (username O self opts) (user_p1 O self opts) (user_p2 O self opts) (realname O self opts)) in
  match rnicks O self opts ≫= Nick.next_nick with
  | Some (nick, nickgen) => Some ((nick, nickgen), sink_send sink (nick_msg nick))
  | None => None
  end.

(** [Register::handler]. *)
Definition handler (self : Register O) (opts : O) (sink : Sink) : option (Handler * Sink) :=
  match register_msgs self opts sink with
  | Some (nicks, sink) =>
      let caps := caps O self opts in
      let (auths, needs_auth) := auth O self opts in
      let needs_auth := needs_auth && Auth.queue_is_empty auths in
      Some (handler_new nicks caps needs_auth auths, sink)
  | None => None
  end.
End Msgs.
End Register.
Arguments Handler L I : clear implicits.
Arguments HandlerState L : clear implicits.
Arguments Register L I O : clear implicits.
Arguments mkRegister {L I O} password username user_p1 user_p2 realname rnicks caps auth.

Section RegisterHandler.
Context {L : Type} `{Auth.SaslLogic L} {E : Type} `{Base64.Engine E} {I : Type} `{Nick.NickIterator I}
  {A : Type} `{Queue.Adjuster A} {B : Type} (type_id : State.ClientStateKey -> N).
Abbreviation Guard := (Queue.QueueEditGuard A B).

(** [client::Handler::handle]; [None] is a panic. *)
Definition client_handle {R} `{Sender R (result () HandlerError)} (msg : ServerMsg) (h : Handler L I)
    (state : State.ClientState) (queue : Guard) (channel : SenderRef R)
    : option (ControlFlow () * Handler L I * State.ClientState * Guard * SenderRef R) :=
  match handle msg (h, queue) with
  | Some (Ok (Some v), (h, queue)) =>
      Some (Break (), h, save type_id v state, queue, (ref_send channel (Ok ())).2)
  | Some (Ok None, (h, queue)) => Some (Continue, h, state, queue, channel)
  | Some (Err e, (h, queue)) => Some (Break (), h, state, queue, (ref_send channel (Err e)).2)
  | None => None
  end.
End RegisterHandler.
