(* ===== verification/Failures.v ===== *)
(** * Errors as causes and as I/O errors

    [src/error.rs], [src/client/auth/handler.rs],
    [src/client/register/handler.rs]: the [source] of each error and its
    conversion into a [std::io::Error], which is a kind and what it was made of
    and shows itself as that. *)

From S2P Require Import Prelude Strings.
From S2P Require BytesCell Transforms Names Auth Register.

(** ** [std::io::Error] *)

(** The kinds that the conversions give. *)
Inductive ErrorKind := PermissionDenied | ConnectionRefused | InvalidData | Unsupported | Other.

#[global] Instance ErrorKind_eq_dec : EqDecision ErrorKind.
Proof. solve_decision. Defined.

(** What an error is made of: a text, or an error of one of the types. *)
Inductive Payload :=
| PText (text : list byte)
| PString (e : InvalidString)
| PParse (e : ParseError)
| PRegister (e : Register.HandlerError).

Record IoError := mkIoError { kind : ErrorKind; payload : Payload }.

(** [Display] of a [std::io::Error]. *)
Definition payload_fmt (p : Payload) : list byte :=
  match p with
  | PText t => t
  | PString e => Names.invalid_string_fmt e
  | PParse e => Names.parse_error_fmt e
  | PRegister e => Register.error_fmt e
  end.
Definition io_fmt (e : IoError) : list byte := payload_fmt (payload e).

(** ** [error.rs] *)

(** [ParseError::source]. *)
Definition parse_source (self : ParseError) : option Payload :=
  match self with
  | InvalidField _ e => Some (PText e)
  | InvalidLine e => Some (PString e)
  | InvalidNick e => Some (PString e)
  | InvalidUser e => Some (PString e)
  | InvalidHost e => Some (PString e)
  | InvalidKind e => Some (PString e)
  | _ => None
  end.

Definition from_infallible (value : Empty_set) : InvalidString := match value with end.
Definition io_from_invalid_string (value : InvalidString) : IoError := mkIoError InvalidData (PString value).

(** ** [auth/handler.rs] *)

Definition io_from_auth (value : Auth.HandlerError) : IoError :=
  match value with
  | Auth.Fail e => mkIoError PermissionDenied (PText (Transforms.cow_ref (BytesCell.to_utf8_lossy (BytesCell.from_bytes e)).1))
  | Auth.Broken _ => mkIoError InvalidData (PText (Auth.handler_error_fmt value))
  | Auth.Unsupported => mkIoError Unsupported (PText (Auth.handler_error_fmt value))
  end.

(** ** [register/handler.rs] *)

Definition cause_payload (c : Register.Cause) : Payload :=
  match c with Register.CText t => PText t | Register.CParse e => PParse e end.

Definition broken (e : Register.Cause) : Register.HandlerError := Register.Broken e.

(** [HandlerError::source]. *)
Definition register_source (self : Register.HandlerError) : option Payload :=
  match self with Register.Broken e => Some (cause_payload e) | _ => None end.

Definition io_from_register (value : Register.HandlerError) : IoError :=
  match value with
  | Register.NoAccess e => mkIoError ConnectionRefused (PRegister (Register.NoAccess e))
  | Register.Broken e => mkIoError InvalidData (cause_payload e)
  | v => mkIoError Other (PRegister v)
  end.

(** ** Theorems *)

(** An error ends with what its source shows, behind a text of its own. *)
Theorem sources_shown e h :
  (forall s, parse_source e = Some s -> exists prefix, prefix <> [] /\ Names.parse_error_fmt e = prefix ++ payload_fmt s) /\
  (parse_source e = None <-> e = TooLong \/ exists f, e = MissingField f) /\
  (forall s, register_source h = Some s -> Register.error_fmt h = bs "invalid message: " ++ payload_fmt s) /\
  (register_source h = None <-> kind (io_from_register h) <> InvalidData).
Proof.
  split_and!.
  - destruct e as [|f|f c|s|s|s|s|s]; intros p Hp; try discriminate Hp; injection Hp as <-.
    1: exists (bs "invalid field " ++ f ++ bs ": "); split; [done|]; cbn [Names.parse_error_fmt payload_fmt]; by rewrite <- !app_assoc.
    all: eexists; (split; [|reflexivity]); done.
  - destruct e; cbn; split; (intros [=] || intros [|[? ?]] || intros _); try done; [by left|right; eauto].
  - destruct h as [l| | |s p i|m|[t|c]|c]; cbn; try done; by intros s [= <-].
  - by destruct h.
Qed.

(** As an I/O error a failed login keeps apart what a refused password, an
    unsupported and a broken mechanism are, and a failed registration a refused
    connection and a broken server; everything is shown as before, except that a
    failed login shows only the reason and a broken server only the cause. *)
Theorem io_errors_tell a b h :
  (kind (io_from_auth a) = kind (io_from_auth b) <->
    match a, b with
    | Auth.Fail _, Auth.Fail _ | Auth.Broken _, Auth.Broken _ | Auth.Unsupported, Auth.Unsupported => True
    | _, _ => False
    end) /\
  (forall reason, a = Auth.Fail reason -> Utf8.utf8_valid reason = true ->
     Auth.handler_error_fmt a = bs "login failed: " ++ io_fmt (io_from_auth a)) /\
  ((forall reason, a <> Auth.Fail reason) -> io_fmt (io_from_auth a) = Auth.handler_error_fmt a) /\
  (kind (io_from_register h) = ConnectionRefused <-> exists l, h = Register.NoAccess l) /\
  (kind (io_from_register h) = InvalidData <-> exists c, h = Register.Broken c) /\
  io_fmt (io_from_register h) =
    match register_source h with Some s => payload_fmt s | None => Register.error_fmt h end.
Proof.
  split_and!.
  - by destruct a, b.
  - intros reason -> Hv. unfold io_from_auth, io_fmt, BytesCell.to_utf8_lossy, BytesCell.utf8_cow, BytesCell.from_bytes, BytesCell.is_utf8_lazy, BytesCell.lossy_cow.
    cbn [payload payload_fmt BytesCell.cvalue BytesCell.cutf8]. by rewrite Hv.
  - destruct a as [m| |r]; try done. intros Hn. by destruct (Hn r).
  - destruct h; cbn; split; try done; try (by intros [? [=]]); eauto.
  - destruct h; cbn; split; try done; try (by intros [? [=]]); eauto.
  - by destruct h as [l| | |s p i|m|[t|c]|c].
Qed.
