(* ===== verification/Logins.v ===== *)
(** * Logins

    Where the credentials of [src/client/auth/] are kept: [SecretBuf::default],
    [as_bytes], [into_bytes] and [clone], [PlainLogic] over a [SecretBuf], the
    buffer each reply is put into and the chunks it is sent in, and [Secret] with
    its loader.  The values are those of [Auth]; here they are in the heap of
    [Memory] and [OwnedBytes], and [logins_refine] says that they are the same,
    and what is left of them: of the buffers zeroes, of the chunks their text. *)

From stdpp Require Import list.
From S2P Require Import Prelude Memory SecretBuf.
From S2P Require OwnedBytes Encoder Auth Strings Splitter Base64.
Import OwnedBytes (World, heap, with_heap, bvalue).
Import (notations) Encoder.

Section Logins.
Context `{Alloc} {D : Type} `{Base64.Engine D}.

(** ** The rest of [SecretBuf] *)

Definition default (h : Heap) : option (SecretBuf * Heap) := with_capacity 0 h.

Definition as_bytes (s : SecretBuf) (w : World) : option (OwnedBytes.Bytes * World) :=
  OwnedBytes.secret (OwnedBytes.mkBytes (as_slice (sdata s) (slen s)) None false) w.

(** [forget] leaves [drop] out. *)
Definition into_bytes (s : SecretBuf) (w : World) : option (OwnedBytes.Bytes * World) :=
  OwnedBytes.from_secret (into_vec_with_len (sdata s) (slen s)) w.

Definition clone (s : SecretBuf) (h : Heap) : option (SecretBuf * Heap) :=
  l ← as_ref s h;
  '(v, h) ← to_vec l h;
  from_vec v h.

(** ** Mechanisms *)

Inductive Logic := ExternalLogic (authzid : list byte) | PlainLogic (buf : SecretBuf).

(** [PlainLogic::new]. *)
Definition plain_new (authzid authcid passwd : list byte) (h : Heap) : option (Logic * Heap) :=
  '(data, h) ← with_capacity (2 + length passwd + length authcid + length authzid) h;
  '(data, h) ← push_cstr authzid data h;
  '(data, h) ← push_cstr authcid data h;
  '(data, h) ← push_slice passwd data h;
  Some (PlainLogic data, h).

Definition external_size_hint (authzid : list byte) : nat := length authzid.
Definition default_size_hint : nat := 0.
Definition size_hint (l : Logic) : nat :=
  match l with ExternalLogic authzid => external_size_hint authzid | PlainLogic _ => default_size_hint end.

#[local] Abbreviation Reply := (option (result () (list byte) * SecretBuf * Logic * Heap)).

Definition external_reply (authzid input : list byte) (output : SecretBuf) (h : Heap) : Reply :=
  match input with
  | [] => '(output, h) ← push_slice authzid output h; Some (Ok (), output, ExternalLogic authzid, h)
  | _ => Some (Err (bs "non-empty server message"), output, ExternalLogic authzid, h)
  end.

(** [swap] exchanges the buffers. *)
Definition plain_reply (self : SecretBuf) (data : list byte) (output : SecretBuf) (h : Heap) : Reply :=
  match data with
  | _ :: _ => Some (Err (bs "non-empty server message"), output, PlainLogic self, h)
  | [] =>
      if is_empty self then Some (Err (bs "already sent auth"), output, PlainLogic self, h)
      else Some (Ok (), self, PlainLogic output, h)
  end.

Definition reply (l : Logic) (input : list byte) (output : SecretBuf) (h : Heap) : Reply :=
  match l with
  | ExternalLogic authzid => external_reply authzid input output h
  | PlainLogic self => plain_reply self input output h
  end.

(** What [Handler::handle] does with a mechanism when there is a challenge: the
    reply goes out in chunks, which are in the messages sent; of an error only the
    buffer is left, and it is dropped. *)
Definition turn (l : Logic) (chal : list byte) (w : World) : option (result (list OwnedBytes.Bytes) (list byte) * Logic * World) :=
  '(buf, h) ← with_capacity (size_hint l) (heap w);
  '(r, buf, l, h) ← reply l chal buf h;
  match r with
  | Err e => h ← drop_secret buf h; Some (Err e, l, with_heap w h)
  | Ok _ =>
      '(encoder, w) ← Encoder.new buf Auth.CHUNK true (with_heap w h);
      '(chunks, w) ← Encoder.chunks encoder w;
      Some (Ok chunks, l, w)
  end.

Definition drop_logic (l : Logic) (h : Heap) : option Heap :=
  match l with ExternalLogic _ => Some h | PlainLogic buf => drop_secret buf h end.

(** An error is the end of a mechanism: another takes its place or the handler
    fails. *)
Fixpoint turns (chals : list (list byte)) (l : Logic) (w : World) : option (list (list OwnedBytes.Bytes) * option (list byte) * Logic * World) :=
  match chals with
  | [] => Some ([], None, l, w)
  | chal :: chals =>
      '(r, l, w) ← turn l chal w;
      match r with
      | Err e => Some ([], Some e, l, w)
      | Ok chunks => '(rest, e, l, w) ← turns chals l w; Some (chunks :: rest, e, l, w)
      end
  end.

(** What is configured: [External] and [Plain]. *)
Inductive Login := LExternal (authzid : list byte) | LPlain (authzid authcid passwd : list byte).

Definition make_logic (g : Login) (h : Heap) : option (Logic * Heap) :=
  match g with LExternal authzid => Some (ExternalLogic authzid, h) | LPlain z c p => plain_new z c p h end.

(** The same on the values of [Auth]. *)
Definition value_logic (g : Login) : Auth.Logic :=
  match g with LExternal authzid => Auth.ExternalLogic authzid | LPlain z c p => Auth.plain_new z c p end.

(** The replies up to the first error, and it. *)
Fixpoint replies (chals : list (list byte)) (l : Auth.Logic) : list (list byte) * option (list byte) :=
  match chals with
  | [] => ([], None)
  | chal :: chals =>
      match Auth.logic_reply l chal [] with
      | (Ok _, bytes, l) => let (rest, e) := replies chals l in (bytes :: rest, e)
      | (Err e, _, _) => ([], Some e)
      end
  end.

(** ** [Secret] *)

Record Secret (T : Type) := mkSecretOf { inner : T }.
#[global] Arguments mkSecretOf {T} _.
#[global] Arguments inner {T} _.

Definition secret_new {T} (value : T) : Secret T := mkSecretOf value.
Definition into_inner {T} (this : Secret T) : T := inner this.
Definition deref {T} (s : Secret T) : T := inner s.
Definition deref_mut {T} (f : T -> T) (s : Secret T) : Secret T := mkSecretOf (f (inner s)).
Definition secret_clone {T} (clone : T -> T) (s : Secret T) : Secret T := secret_new (clone (inner s)).

(** [LoadSecret]; an error is its message. *)
Class LoadSecret (S : Type) := {
  load_hint : S -> nat;
  load_secret : S -> SecretBuf -> Heap -> option (result () (list byte) * SecretBuf * Heap);
}.

Definition default_load_hint : nat := 32.

Definition unit_load_secret : LoadSecret () := {|
  load_hint _ := 0;
  load_secret _ data h := Some (Err (bs "no secret loader"), data, h);
|}.
#[global] Existing Instance unit_load_secret.

(** [Clear]: what is replaced is dropped. *)
Record Clear := mkClear { clear : SecretBuf }.
Definition Clear_load_secret : LoadSecret Clear := {|
  load_hint _ := 0;
  load_secret self data h := h ← drop_secret data h; Some (Ok (), clear self, h);
|}.
#[global] Existing Instance Clear_load_secret.

(** [Secret::load]; [try_into] of a string type checks the bytes and drops them
    if they are refused. *)
Definition load {S} `{LoadSecret S} (U : Strings.BytesNewtype) (value : S) (w : World)
    : option (result (Secret OwnedBytes.Bytes) (list byte + Strings.InvalidString) * World) :=
  '(buf, h) ← with_capacity (load_hint value) (heap w);
  '(r, buf, h) ← load_secret value buf h;
  match r with
  | Err e => h ← drop_secret buf h; Some (Err (inl e), with_heap w h)
  | Ok _ =>
      '(b, w) ← into_bytes buf (with_heap w h);
      l ← slice_get (bvalue b) (heap w);
      match Strings.from_bytes U l with
      | Ok _ => Some (Ok (secret_new b), w)
      | Err e => w ← OwnedBytes.drop_bytes b w; Some (Err (inr e), w)
      end
  end.

(** What [load] relies on: a loader, ready, makes of an empty buffer what its
    value in [Auth] is. *)
Class Loads (S V : Type) `{LoadSecret S, Auth.LoadSecret V} := {
  ready : S -> V -> Heap -> Prop;
  load_ok s v h b buf : ready s v h -> data (sdata buf) = length h -> buf_holds buf (h ++ [b]) [] ->
    exists r buf' h', load_secret s buf (h ++ [b]) = Some (r, buf', h') /\
      match Auth.load_secret v [] with
      | Ok l => r = Ok () /\ buf_holds buf' h' l
      | Err e => r = Err e /\ exists l, buf_holds buf' h' l
      end;
}.

(** ** Mechanisms and their values *)

(** A mechanism beside strings: [PlainLogic] has a block of its own. *)
Definition rel (T : list byte -> Prop) (h0 : Heap) (w : World) (bs : list OwnedBytes.Bytes) (cs : list BytesCell.Cell)
    (l : Logic) (a : Auth.Logic) : Prop :=
  match l, a with
  | ExternalLogic z, Auth.ExternalLogic z' => z = z' /\ Encoder.state T h0 w bs cs []
  | PlainLogic buf, Auth.PlainLogic v =>
      buf_holds buf (heap w) v /\ length h0 <= data (sdata buf) /\ Encoder.state T h0 w bs cs [data (sdata buf)]
  | _, _ => False
  end.

(** ** Lemmas *)

Lemma buf_holds_ext s h h' v : buf_holds s h v -> h' !! data (sdata s) = h !! data (sdata s) -> buf_holds s h' v.
Proof. intros (c & Hh & Hc) Heq. exists c. split; [|done]. unfold holds in *. by rewrite Heq. Qed.

Lemma buf_holds_lt s h v : buf_holds s h v -> data (sdata s) < length h.
Proof. intros (c & Hh & _). by eapply lookup_lt_Some. Qed.

(** A new buffer that is filled. *)
Lemma filled T h0 w bs cs own n ops : Encoder.state T h0 w bs cs own -> Forall (fun p => length h0 <= p) own -> fits n [] ops = true ->
  exists s h1 s' h', with_capacity n (heap w) = Some (s, h1) /\ run_ops ops s h1 = Some (s', h') /\ buf_holds s' h' (foldl after [] ops) /\
    data (sdata s') = length (heap w) /\ Encoder.state T h0 (with_heap w h') bs cs (length (heap w) :: own) /\
    forall q, q < length (heap w) -> h' !! q = heap w !! q.
Proof.
  intros Hst Hge Hf. pose proof (with_capacity_spec n (heap w)) as Hw. destruct (with_capacity_holds _ _ _ _ Hw) as (Hb & Hd & _).
  destruct (run_ops_spec n ops _ _ [] Hb ltac:(cbn; apply cap_for_ok) Hf) as (s' & h' & Hr & Hb' & Hd' & Hlen & Ho).
  eexists _, _, s', h'. split; [exact Hw|]. split; [exact Hr|]. split; [done|]. rewrite Hd'. cbn [sdata data] in *. split; [done|].
  pose proof (Encoder.state_len _ _ _ _ _ _ Hst) as Hl. apply (Encoder.state_grow _ _ _ _ _ _ (zeroes (cap_for n) true)) in Hst. split.
  - eapply (Encoder.state_write _ _ (with_heap w (heap w ++ [zeroes (cap_for n) true]))); [exact Hst|by constructor|exact Hlen| |done|done].
    intros q [Hq _]%not_elem_of_cons. by apply Ho.
  - intros q Hq. rewrite Ho by lia. by rewrite lookup_app_l.
Qed.

Lemma plain_new_ops z c p h : plain_new z c p h =
  '(s, h) ← with_capacity (2 + length p + length c + length z) h;
  '(s, h) ← run_ops [OPushCstr z; OPushCstr c; OPushSlice p] s h;
  Some (PlainLogic s, h).
Proof.
  unfold plain_new. destruct (with_capacity _ h) as [[s h1]|]; [|done]. cbn [mbind option_bind run_ops run_op].
  destruct (push_cstr z s h1) as [[s2 h2]|]; [|done]. cbn [mbind option_bind]. destruct (push_cstr c s2 h2) as [[s3 h3]|]; [|done].
  cbn [mbind option_bind]. by destruct (push_slice p s3 h3) as [[s4 h4]|].
Qed.

Lemma make_logic_spec T g h : exists l h', make_logic g h = Some (l, h') /\ rel T h (OwnedBytes.mkWorld h' []) [] [] l (value_logic g).
Proof.
  pose proof (Encoder.state_start T h) as Hst.
  destruct g as [z|z c p]; [eexists _, _; split; [done|]; by split|].
  destruct (filled _ _ _ _ _ [] (2 + length p + length c + length z) [OPushCstr z; OPushCstr c; OPushSlice p] Hst ltac:(constructor))
    as (s & h1 & s' & h' & Hw & Hr & Hb & Hd & Hst' & _).
  { cbn [fits after]. rewrite !andb_true_iff, !Nat.leb_le, !length_app. simpl. lia. }
  exists (PlainLogic s'), h'. cbn [make_logic OwnedBytes.heap] in *. rewrite plain_new_ops, Hw. cbn [mbind option_bind]. rewrite Hr. split; [done|].
  cbn [rel value_logic Auth.plain_new]. rewrite Hd. split; [|by split]. cbn in Hb. by rewrite <- !app_assoc in Hb.
Qed.

(** A buffer is dropped, and its block need not be kept. *)
Lemma buffer_gone T h0 w bs cs s v own own' : Encoder.state T h0 w bs cs own -> Forall (fun p => length h0 <= p) own -> buf_holds s (heap w) v ->
  (forall q, q ∈ own <-> q = data (sdata s) \/ q ∈ own') ->
  exists h', drop_secret s (heap w) = Some h' /\ Encoder.state T h0 (with_heap w h') bs cs own' /\
    forall q, q <> data (sdata s) -> h' !! q = heap w !! q.
Proof.
  intros Hst Hge Hb Hown. rewrite (drop_secret_holds _ _ _ Hb). eexists. split; [done|]. split; [|intros q Hq; by rewrite list_lookup_insert_ne].
  eapply Encoder.state_write; [exact Hst|done|by rewrite length_insert| | |].
  - intros q Hq. rewrite list_lookup_insert_ne; [done|]. intros <-. apply Hq, Hown. by left.
  - intros q Hq. apply Hown. by right.
  - intros q b Hq Hn Hqb. apply Hown in Hq as [->|?]; [|done]. rewrite list_lookup_insert_eq in Hqb by (by eapply buf_holds_lt).
    injection Hqb as <-. by eexists.
Qed.

Lemma drop_logic_spec T h0 w bs cs l a : rel T h0 w bs cs l a ->
  exists h', drop_logic l (heap w) = Some h' /\ Encoder.state T h0 (with_heap w h') bs cs [].
Proof.
  destruct l as [z|s], a as [z'|v]; try done; cbn [rel drop_logic].
  - intros [_ Hst]. exists (heap w). by destruct w.
  - intros (Hb & Hge & Hst). destruct (buffer_gone _ _ _ _ _ s v _ [] Hst) as (h' & Hd & Hst' & _); [by repeat constructor|done| |by exists h'].
    intros q. rewrite list_elem_of_singleton, elem_of_nil. tauto.
Qed.

(** What was said is sent: in chunks, or an error instead. *)
Definition answers (T : list byte -> Prop) (h0 : Heap) (bs : list OwnedBytes.Bytes) (cs : list BytesCell.Cell)
    (v : result () (list byte) * list byte * Auth.Logic) (t : option (result (list OwnedBytes.Bytes) (list byte) * Logic * World)) : Prop :=
  match v with
  | (Ok _, bytes, a) => exists chs ks strs l w, t = Some (Ok chs, l, w) /\ rel T h0 w (bs ++ chs) (cs ++ ks) l a /\
      Base64.chunks (Base64.new bytes Auth.CHUNK true) = Some strs /\
      BytesCell.cvalue <$> ks = Splitter.value <$> strs /\ Forall (fun k => BytesCell.secret_ k = true) ks
  | (Err e, _, a) => exists l w, t = Some (Err e, l, w) /\ rel T h0 w bs cs l a
  end.

Context `{!Base64.EngineOk D}.

Lemma external_turn T h0 w bs cs z chal : Encoder.state T h0 w bs cs [] -> (chal = [] -> T (Base64.encode z)) ->
  answers T h0 bs cs (Auth.logic_reply (Auth.ExternalLogic z) chal []) (turn (ExternalLogic z) chal w).
Proof.
  intros Hst Ht. unfold turn, answers. cbn [size_hint reply Auth.logic_reply]. unfold external_size_hint.
  destruct chal as [|x chal]; cbn [external_reply].
  - destruct (filled _ _ _ _ _ [] (length z) [OPushSlice z] Hst ltac:(constructor)) as (s & h1 & s' & h2 & Hw & Hr & Hb & Hd & Hst' & _).
    { cbn [fits after]. rewrite andb_true_iff, Nat.leb_le, length_app. simpl. lia. }
    rewrite Hw. cbn [mbind option_bind run_ops run_op] in *. destruct (push_slice z s h1) as [[s3 h4]|]; [|done]. injection Hr as -> ->.
    cbn [mbind option_bind foldl after app] in *. rewrite <- Hd in Hst'.
    destruct (Encoder.chunks_in_memory _ _ _ _ _ [] s' z Auth.CHUNK ltac:(unfold Auth.CHUNK; lia) Hst' Hb (Ht eq_refl)) as (e & w1 & chs & w' & ks & strs & Hn & Hc & Hst2 & _ & Hs).
    { rewrite Hd. repeat constructor. by eapply Encoder.state_len. }
    { by intros ?%elem_of_nil. }
    rewrite Hn. cbn [mbind option_bind]. rewrite Hc. cbn [mbind option_bind]. exists chs, ks, strs, (ExternalLogic z), w'. split; [done|]. by split.
  - destruct (filled _ _ _ _ _ [] (length z) [] Hst ltac:(constructor) eq_refl) as (s & h1 & s' & h2 & Hw & [= <- <-] & Hb & Hd & Hst' & _).
    rewrite Hw. cbn [mbind option_bind]. destruct (buffer_gone _ _ _ _ _ s [] _ [] Hst') as (h' & Hd' & Hst2 & _).
    + repeat constructor. by eapply Encoder.state_len.
    + exact Hb.
    + intros q. rewrite Hd, list_elem_of_singleton, elem_of_nil. tauto.
    + cbn [with_heap heap] in Hd'. rewrite Hd'. by eexists _, _.
Qed.

Lemma plain_turn T h0 w bs cs s v chal : buf_holds s (heap w) v -> length h0 <= data (sdata s) ->
  Encoder.state T h0 w bs cs [data (sdata s)] -> (chal = [] -> v <> [] -> T (Base64.encode v)) ->
  answers T h0 bs cs (Auth.logic_reply (Auth.PlainLogic v) chal []) (turn (PlainLogic s) chal w).
Proof.
  intros Hb Hge Hst Ht. pose proof (buf_holds_lt _ _ _ Hb) as Hlt. pose proof (buf_len _ _ _ Hb) as Hlen.
  pose proof (Encoder.state_len _ _ _ _ _ _ Hst) as Hl.
  destruct (filled _ _ _ _ _ _ 0 [] Hst ltac:(by repeat constructor) eq_refl) as (o & h1 & o' & h2 & Hw & [= <- <-] & Ho & Hd & Hst' & Hold).
  assert (Hb' : buf_holds s h1 v) by (eapply buf_holds_ext; [exact Hb|by apply Hold]).
  destruct (buffer_gone _ _ _ _ _ o [] _ [data (sdata s)] Hst' ltac:(by repeat constructor) Ho) as (h' & Hd' & Hst2 & Hsame).
  { intros q. rewrite Hd, elem_of_cons. done. }
  assert (Hkeep : rel T h0 (with_heap w h') bs cs (PlainLogic s) (Auth.PlainLogic v)).
  { cbn [rel]. split; [|by split]. eapply buf_holds_ext; [exact Hb'|]. apply Hsame. rewrite Hd. lia. }
  cbn [with_heap heap] in Hd'.
  unfold turn, answers. cbn [size_hint reply Auth.logic_reply]. unfold default_size_hint. rewrite Hw. cbn [mbind option_bind].
  unfold plain_reply, is_empty. rewrite Hlen. destruct chal as [|x chal]; [destruct v as [|x v]; cbn [length Nat.eqb]|]; cbn [mbind option_bind];
    [rewrite Hd'; by eexists _, _| |rewrite Hd'; by eexists _, _].
  assert (Hst3 : Encoder.state T h0 (with_heap w h1) bs cs (data (sdata s) :: [data (sdata o)])).
  { eapply Encoder.state_same; [exact Hst'|]. intros q. rewrite Hd, !elem_of_cons, elem_of_nil. tauto. }
  destruct (Encoder.chunks_in_memory _ _ _ _ _ _ s _ Auth.CHUNK ltac:(unfold Auth.CHUNK; lia) Hst3 Hb' (Ht eq_refl ltac:(done))) as (e & w1 & chs & w' & ks & strs & Hn & Hc & Hst4 & Hk & Hs).
  { rewrite Hd. by repeat constructor. }
  { rewrite Hd, list_elem_of_singleton. lia. }
  rewrite Hn. cbn [mbind option_bind]. rewrite Hc. cbn [mbind option_bind]. exists chs, ks, strs, (PlainLogic o), w'. split; [done|]. split; [|done].
  cbn [rel]. split; [|split; [by rewrite Hd|exact Hst4]]. eapply buf_holds_ext; [exact Ho|]. by apply Hk, list_elem_of_singleton.
Qed.

Lemma turn_spec T h0 w bs cs l a chal : rel T h0 w bs cs l a ->
  (let '(r, bytes, _) := Auth.logic_reply a chal [] in r = Ok () -> T (Base64.encode bytes)) ->
  answers T h0 bs cs (Auth.logic_reply a chal []) (turn l chal w).
Proof.
  destruct l as [z|s], a as [z'|v]; try done; cbn [rel].
  - intros [<- Hst] Ht. apply external_turn; [done|]. intros ->. by apply Ht.
  - intros (Hb & Hge & Hst) Ht. apply plain_turn; [done..|]. intros ->. destruct v; [done|]. intros _. by apply Ht.
Qed.

Lemma rel_length T h0 w bs cs l a : rel T h0 w bs cs l a -> length bs = length cs.
Proof.
  destruct l as [z|s], a as [z'|v]; try done; cbn [rel].
  - intros [_ Hst]. by eapply Forall2_length, Encoder.state_rel.
  - intros (_ & _ & Hst). by eapply Forall2_length, Encoder.state_rel.
Qed.

(** What the chunks of a reply hold. *)
Definition reply_cells (bytes : list byte) (ks : list BytesCell.Cell) : Prop :=
  exists strs, Base64.chunks (Base64.new bytes Auth.CHUNK true) = Some strs /\
    BytesCell.cvalue <$> ks = Splitter.value <$> strs /\ Forall (fun k => BytesCell.secret_ k = true) ks.

(** The text of every reply is one of [T]. *)
Lemma turns_spec T h0 chals : forall w bs cs l a, rel T h0 w bs cs l a -> Forall (fun r => T (Base64.encode r)) (replies chals a).1 ->
  exists sent kss l' w' a', turns chals l w = Some (sent, (replies chals a).2, l', w') /\
    rel T h0 w' (bs ++ concat sent) (cs ++ concat kss) l' a' /\ Forall2 (fun chs ks => length chs = length ks) sent kss /\
    Forall2 reply_cells (replies chals a).1 kss.
Proof.
  induction chals as [|chal chals IH]; intros w bs cs l a Hr Ht; cbn [turns replies] in *.
  { exists [], [], l, w, a. rewrite !app_nil_r. split; [done|]. split; [done|]. by split. }
  pose proof (turn_spec T h0 w bs cs l a chal Hr) as Hs. destruct (Auth.logic_reply a chal []) as [[[u|e] bytes] a1].
  - destruct (replies chals a1) as [rest e] eqn:Hrest. cbn [fst snd] in *. apply Forall_cons in Ht as [Ht1 Ht].
    destruct (Hs (fun _ => Ht1)) as (chs & ks & strs & l1 & w1 & -> & Hr1 & Hc & Hv & Hsec). cbn [mbind option_bind].
    pose proof (IH w1 _ _ l1 a1 Hr1) as IH1. rewrite Hrest in IH1. destruct (IH1 Ht) as (sent & kss & l' & w' & a' & -> & Hr' & Hlen & Hk).
    cbn [mbind option_bind snd]. exists (chs :: sent), (ks :: kss), l', w', a'. split; [done|]. cbn [concat]. rewrite !app_assoc.
    split; [done|]. split; [constructor; [|done]|constructor; [by exists strs|done]].
    pose proof (rel_length _ _ _ _ _ _ _ Hr) as L0. pose proof (rel_length _ _ _ _ _ _ _ Hr1) as L1. rewrite !length_app in L1. lia.
  - destruct (Hs ltac:(done)) as (l1 & w1 & -> & Hr1). cbn [mbind option_bind fst snd]. exists [], [], l1, w1, a1.
    rewrite !app_nil_r. split; [done|]. split; [done|]. by split.
Qed.

(** ** Logging in *)

(** Chunks in memory that are those of a reply. *)
Definition sends (w : World) (bytes : list byte) (chs : list OwnedBytes.Bytes) : Prop :=
  exists strs, Base64.chunks (Base64.new bytes Auth.CHUNK true) = Some strs /\
    Forall2 (fun b s => slice_get (bvalue b) (heap w) = Some (Splitter.value s) /\ OwnedBytes.bsecret b = true) chs strs.

Lemma sends_cells w replied : forall sent kss, Forall2 (OwnedBytes.rel w) (concat sent) (concat kss) ->
  Forall2 (fun chs ks => length chs = length ks) sent kss -> Forall2 reply_cells replied kss -> Forall2 (sends w) replied sent.
Proof.
  induction replied as [|bytes replied IH]; intros sent kss Hr Hl Hk.
  - apply Forall2_nil_inv_l in Hk as ->. apply Forall2_nil_inv_r in Hl as ->. constructor.
  - apply Forall2_cons_inv_l in Hk as (ks & kss' & (strs & Hc & Hv & Hs) & Hk & ->). apply Forall2_cons_inv_r in Hl as (chs & sent' & Hlc & Hl & ->).
    cbn [concat] in Hr. apply Forall2_app_inv in Hr as [Hr1 Hr]; [|done]. constructor; [|by apply (IH _ kss')]. exists strs. split; [done|].
    clear -Hr1 Hv Hs. revert strs Hv. induction Hr1 as [|b k chs ks (Hg & _ & Hb & _) _ IH]; intros [|str strs]; try done. cbn [fmap list_fmap].
    intros [= Hv1 Hv]. apply Forall_cons in Hs as [Hs1 Hs]. constructor; [|by apply IH]. rewrite Hg, Hv1, Hb. by split.
Qed.

(** C24: Whatever the server asks, the mechanisms answer what those of [Auth] do,
    or fail as they do, without leaving the memory of their buffers; each answer
    goes out in the chunks that [Base64] says, which are secret.  Once the
    mechanism and the messages are dropped, these in whatever order, every block
    that was made is freed, and the others are as they were.  The buffers, of the
    mechanism and of each reply, are full of zeroes then; what is not is the
    Base64 text of replies, which nothing writes over. *)
Theorem logins_refine g chals (h : Heap) :
  exists l h1 sent l' w2, make_logic g h = Some (l, h1) /\
    turns chals l (OwnedBytes.mkWorld h1 []) = Some (sent, (replies chals (value_logic g)).2, l', w2) /\
    Forall2 (sends w2) (replies chals (value_logic g)).1 sent /\
    forall order, order ≡ₚ concat sent -> exists h3 w3,
      drop_logic l' (heap w2) = Some h3 /\ Encoder.drop_strings order (with_heap w2 h3) = Some w3 /\
      length h <= length (heap w3) /\ (forall q, q < length h -> heap w3 !! q = h !! q) /\
      forall q b, length h <= q -> heap w3 !! q = Some b -> live b = false /\
        ((exists n, b = zeroes n false) \/
         exists bytes n, bytes ∈ (replies chals (value_logic g)).1 /\ cells b = (Some <$> Base64.encode bytes) ++ replicate n None).
Proof.
  set (T t := exists bytes, bytes ∈ (replies chals (value_logic g)).1 /\ t = Base64.encode bytes).
  destruct (make_logic_spec T g h) as (l & h1 & Hm & Hr).
  destruct (turns_spec T h chals _ _ _ _ _ Hr) as (sent & kss & l' & w2 & a' & Ht & Hr' & Hl & Hk).
  { apply Forall_forall. intros bytes Hb. by exists bytes. }
  cbn [app] in Hr'. destruct (drop_logic_spec _ _ _ _ _ _ _ Hr') as (h3 & Hd & Hst).
  exists l, h1, sent, l', w2. split; [done|]. split; [done|]. split.
  - eapply sends_cells; [|exact Hl|exact Hk]. destruct l' as [z|s], a' as [z'|v]; try done; cbn [rel] in Hr'.
    + by eapply Encoder.state_rel, Hr'.
    + by eapply Encoder.state_rel, Hr'.
  - intros order Ho. destruct (Encoder.drop_strings_state _ _ _ order _ _ _ Hst Ho) as (w3 & Hds & Hst3).
    exists h3, w3. split; [done|]. split; [done|]. destruct (Encoder.state_freed _ _ _ Hst3) as (H2 & H3 & H4).
    split; [done|]. split; [done|]. intros q b Hq Hqb. destruct (H4 q b Hq Hqb) as [Hlive [Hz|(t & n & (bytes & Hin & ->) & Hc)]].
    + split; [done|]. by left.
    + split; [done|]. right. by exists bytes, n.
Qed.

(** ** Buffers and strings *)

(** The string a buffer is turned into is secret and holds its bytes; one that
    looks at them is secret as well. *)
Lemma into_bytes_spec s w l : buf_holds s (heap w) l ->
  exists b w', into_bytes s w = Some (b, w') /\ slice_get (bvalue b) (heap w') = Some l /\ OwnedBytes.bsecret b = true /\
    exists w2, OwnedBytes.drop_bytes b w' = Some w2.
Proof.
  intros Hb. pose proof (buf_len _ _ _ Hb) as Hlen. pose proof (buf_as_ref _ _ _ Hb) as Hr. destruct Hb as (c & Hh & _).
  unfold into_bytes, OwnedBytes.from_secret, OwnedBytes.bytes_of_vec, OwnedBytes.owned_from_vec, into_vec_with_len. cbn [vlen vptr]. rewrite Hlen.
  destruct l as [|x l]; cbn [length Nat.eqb].
  - rewrite (free_holds _ _ _ Hh). eexists _, _. by repeat (split; [done|]); eexists.
  - eexists _, _. split; [done|]. split; [|split; [done|]].
    + unfold as_ref in Hr. rewrite Hlen in Hr. exact Hr.
    + unfold OwnedBytes.drop_bytes, OwnedBytes.thin_drop, OwnedBytes.thin_ref, OwnedBytes.thin_new. cbn [OwnedBytes.bowner OwnedBytes.arcs].
      rewrite lookup_app_r, Nat.sub_diag by lia. cbn. unfold drop_owned. cbn [Memory.from_vec data]. rewrite (free_holds _ _ _ Hh). by eexists.
Qed.

Lemma as_bytes_spec s w l : buf_holds s (heap w) l ->
  exists b, as_bytes s w = Some (b, w) /\ slice_get (bvalue b) (heap w) = Some l /\ OwnedBytes.bsecret b = true.
Proof. intros Hb. eexists. split; [done|]. split; [|done]. exact (buf_as_ref _ _ _ Hb). Qed.

(** A buffer that is not empty cannot be cloned, nor a [Clear]: [From<Vec<u8>>]
    writes past the end of what it is given. *)
Theorem clone_overflows s (h : Heap) l : buf_holds s h l -> clone s h = None <-> l <> [].
Proof.
  intros Hb. unfold clone. rewrite (buf_as_ref _ _ _ Hb). cbn [mbind option_bind]. split.
  - intros E ->. unfold to_vec, vec_with in E. cbn [alloc length write_range mbind option_bind] in E.
    pose proof (alloc_holds (cap_for 0) h) as Ha. cbn [alloc fst snd] in Ha. apply fill_all in Ha. rewrite length_replicate in Ha.
    unfold from_vec, init_capacity in E. cbn [Memory.from_vec vptr vlen vcap data capacity] in E. by rewrite Ha in E.
  - apply from_vec_overflows.
Qed.

Definition Clear_loads : Loads Clear Auth.Clear.
Proof.
  refine {| ready c v h := buf_holds (clear c) h (Auth.clear v) |}.
  intros [s] [v] h b buf Hs Hd Hb. cbn [clear Auth.clear] in *. eexists _, _, _. cbn [load_secret Clear_load_secret].
  rewrite (drop_secret_holds _ _ _ Hb). split; [done|]. cbn. split; [done|]. pose proof (buf_holds_lt _ _ _ Hs).
  eapply buf_holds_ext; [exact Hs|]. rewrite list_lookup_insert_ne by lia. by rewrite lookup_app_l.
Defined.
#[global] Existing Instance Clear_loads.

Definition unit_loads : Loads () ().
Proof. refine {| ready _ _ _ := True |}. intros ? ? h b buf _ _ Hb. by eexists _, _, _; split; [done|]; split; [|exists []]. Defined.
#[global] Existing Instance unit_loads.

(** Loading a secret into memory gives what [Auth.secret_load] does: the bytes
    loaded, in a string that is secret, or the same error. *)
Theorem load_refines {S V} `{Loads S V} U (value : S) (v : V) (w : World) :
  ready value v (heap w) ->
  exists r w', load U value w = Some (r, w') /\
    match r, Auth.secret_load U v with
    | Ok s, Ok l => slice_get (bvalue (into_inner s)) (heap w') = Some l /\ OwnedBytes.bsecret (deref s) = true
    | Err e, Err e' => e = e'
    | _, _ => False
    end.
Proof.
  intros Hr. unfold load, Auth.secret_load. rewrite with_capacity_spec. cbn [mbind option_bind].
  destruct (with_capacity_holds _ _ _ _ (with_capacity_spec (load_hint value) (heap w))) as (Hb & Hd & _).
  destruct (load_ok value v (heap w) _ _ Hr (f_equal data Hd) Hb) as (r & buf & h & -> & Hl). cbn [mbind option_bind].
  destruct (Auth.load_secret v []) as [l|e]; destruct Hl as [-> Hl].
  - destruct (into_bytes_spec buf (with_heap w h) l Hl) as (b & w' & -> & Hg & Hs & w2 & Hd2). cbn [mbind option_bind]. rewrite Hg. cbn [mbind option_bind].
    destruct (Strings.from_bytes U l) as [l'|e] eqn:Hf.
    + apply Strings.from_bytes_Ok in Hf as [-> _]. eexists _, _. by split.
    + rewrite Hd2. by eexists _, _.
  - destruct Hl as [l Hl]. rewrite (drop_secret_holds _ _ _ Hl). by eexists _, _.
Qed.
End Logins.

(** ** Witnesses *)

#[local] Existing Instance Alloc_exact.

#[local] Existing Instance Base64.pair_engine.

(** A login with PLAIN that is asked twice, and what it leaves: of the two buffers
    nothing, and the credentials in two copies. *)
Definition asked_twice : option (option (list byte) * Heap) :=
  '(l, h) ← make_logic (LPlain [] (bs "me") (bs "pass")) [];
  '(sent, e, l, w) ← turns [[]; []] l (OwnedBytes.mkWorld h []);
  h ← drop_logic l (heap w);
  w ← Encoder.drop_strings (concat sent) (with_heap w h);
  Some (e, heap w).

Example plain_leaves_text : asked_twice =
  let text := mkBlock (Some <$> Base64.encode (x00 :: bs "me" ++ x00 :: bs "pass")) false in
  Some (Some (bs "already sent auth"), [zeroes 8 false; zeroes 0 false; text; text; zeroes 0 false]).
Proof. vm_compute. reflexivity. Qed.

Lemma logins_refine_witness : exists l h1 sent l' w2, make_logic (LPlain [] (bs "me") (bs "pass")) [] = Some (l, h1) /\
  turns [[]; []] l (OwnedBytes.mkWorld h1 []) = Some (sent, Some (bs "already sent auth"), l', w2) /\
  Forall2 (sends w2) [x00 :: bs "me" ++ x00 :: bs "pass"] sent.
Proof.
  destruct (@logins_refine Alloc_exact () Base64.pair_engine Base64.pair_engine_ok (LPlain [] (bs "me") (bs "pass")) [[]; []] [])
    as (l & h1 & sent & l' & w2 & H1 & H2 & H3 & _).
  exists l, h1, sent, l', w2. split; [exact H1|]. split; [exact H2|exact H3].
Defined.

Lemma clone_overflows_witness : exists s h, with_capacity 4 [] = Some (s, h) /\ clone s h <> None.
Proof.
  destruct (with_capacity 4 []) as [[s h]|] eqn:Hs; [|discriminate Hs]. exists s, h. split; [reflexivity|].
  destruct (with_capacity_holds _ _ _ _ Hs) as (Hb & _). intros E. exact (proj1 (clone_overflows s h [] Hb) E eq_refl).
Defined.

(** A [Clear] with two bytes. *)
Definition sample_clear : option (SecretBuf * Heap) := '(s, h) ← with_capacity 2 []; push_slice (bs "pw") s h.

Lemma load_refines_witness :
  exists s h r w', sample_clear = Some (s, h) /\ load Strings.Word (mkClear s) (OwnedBytes.mkWorld h []) = Some (Ok r, w') /\
    slice_get (bvalue (into_inner r)) (heap w') = Some (bs "pw").
Proof.
  destruct sample_clear as [[s h]|] eqn:Hs; [|discriminate Hs].
  assert (Hb : buf_holds s h (bs "pw")).
  { injection Hs as <- <-. exists (bs "pw"). split; [reflexivity|]. split; [reflexivity|]. split; [apply Nat.leb_le; reflexivity|reflexivity]. }
  destruct (@load_refines _ Clear Auth.Clear _ _ Clear_loads Strings.Word (mkClear s) (Auth.mkClear (bs "pw")) (OwnedBytes.mkWorld h []) Hb) as (r & w' & Hr & Hm).
  change (Auth.secret_load Strings.Word (Auth.mkClear (bs "pw"))) with (@Ok (list byte) (list byte + Strings.InvalidString) (bs "pw")) in Hm.
  destruct r as [r|e]; [|destruct Hm]. exists s, h, r, w'. split; [reflexivity|]. split; [exact Hr|]. exact (proj1 Hm).
Defined.
