(* ===== verification/RegisterThms.v ===== *)
(** * Theorems on connection registration

    What the handler of [Register.v] keeps, sends and returns over any sequence
    of messages, and that a cooperating server gets it to the end. *)

From Stdlib Require Import Sorted.
From S2P Require Import Prelude Handlers Args Tags Numeric Source Strings Splitter Msg Names Sink Register.
From S2P Require FlatMap Queue State Replies Cap Auth Nick Base64.

Section Thms.
Context {L : Type} `{Auth.SaslLogic L} {E : Type} `{Base64.Engine E} {I : Type} `{Nick.NickIterator I}.

(** What is sent is collected. *)
Abbreviation M := (M (L := L) (I := I) (Sink := list ClientMsg)).
Abbreviation St := (Handler L I * list ClientMsg)%type.

(** Messages until the handler is done. *)
Fixpoint run (ms : list ServerMsg) : M (option Registration) :=
  match ms with
  | [] => ret None
  | m :: ms => fun s => match handle m s with Some (Ok None, s) => run ms s | r => r end
  end.

(** ** Relations every step keeps *)

Definition keeps (R : St -> St -> Prop) {A} (m : M A) : Prop :=
  forall s r s', m s = Some (r, s') -> R s s'.

Section Keeps.
Context (R : St -> St -> Prop) `{!PreOrder R}.

Lemma keeps_ret {A} (a : A) : keeps R (ret a).
Proof. by intros s r s' [= <- <-]. Qed.

Lemma keeps_throw {A} e : keeps R (throw (A := A) e).
Proof. by intros s r s' [= <- <-]. Qed.

Lemma keeps_bind {A B} (m : M A) (k : A -> M B) : keeps R m -> (forall a, keeps R (k a)) -> keeps R (bind m k).
Proof.
  intros Hm Hk s r s'. unfold bind. destruct (m s) as [[[a|e] s1]|] eqn:E1; [|by intros [= _ <-]; eapply Hm|done].
  intros E2. etrans; [by eapply Hm|by eapply Hk].
Qed.

Lemma keeps_get : keeps R get.
Proof. by intros s r s' [= <- <-]. Qed.

Lemma keeps_unwrap {A} (o : option A) : keeps R (unwrap o).
Proof. destruct o; [apply keeps_ret|by intros s r s']. Qed.
End Keeps.

Create HintDb quiet.

(** The requirement of a login never changes, and no [CAP END] is sent. *)
Definition is_cap_end (m : ClientMsg) : bool :=
  bool_decide (cmd m = bs "CAP") && bool_decide (head (words (cargs m)) = Some (bs "END")).

(** Requests end no negotiation. *)
Lemma with_caps_not_end b : is_cap_end (Cap.with_caps b) = false.
Proof. unfold is_cap_end, Cap.with_caps, add, add_impl. cbn [cmd cargs]. by destruct (find_invalid Arg _). Qed.

Lemma req_loop_sends base caps b (s : list ClientMsg) :
  exists l, (Cap.req_loop base caps b s).2 = s ++ l /\ Forall (fun m => is_cap_end m = false) l.
Proof.
  revert b s. induction caps as [|c caps IH]; intros b s; cbn [Cap.req_loop].
  - exists []. by rewrite app_nil_r.
  - destruct (_ <? _); [apply IH|]. destruct (negb _); [|apply IH].
    destruct (IH (Builder.new (plain c)) (sink_send s (Cap.with_caps b))) as (l & -> & Hf).
    exists (Cap.with_caps b :: l). unfold sink_send, closure_sink. split; [by rewrite <- app_assoc|].
    constructor; [apply with_caps_not_end|done].
Qed.

Lemma req_sends reqs client server (sink : list ClientMsg) :
  exists l, Cap.req reqs client server sink = sink ++ l /\ Forall (fun m => is_cap_end m = false) l.
Proof.
  unfold Cap.req. destruct (req_loop_sends (Cap.base_len client server) reqs (Builder.new (plain [])) sink) as (l & He & Hf).
  destruct (Cap.req_loop _ _ _ sink) as [b s]. cbn [snd] in He. subst s.
  exists (l ++ [Cap.with_caps b]). unfold sink_send, closure_sink. split; [by rewrite app_assoc|].
  apply Forall_app. split; [done|]. constructor; [apply with_caps_not_end|done].
Qed.

Definition quiet (s s' : St) : Prop :=
  needs_auth s'.1 = needs_auth s.1 /\ exists l, s'.2 = s.2 ++ l /\ Forall (fun m => is_cap_end m = false) l.

#[local] Instance quiet_preorder : PreOrder quiet.
Proof.
  split.
  - intros s. split; [done|]. exists []. by rewrite app_nil_r.
  - intros s1 s2 s3 (K1 & l1 & K2 & K3) (K4 & l2 & K5 & K6). split; [congruence|].
    exists (l1 ++ l2). rewrite K5, K2, app_assoc. split; [done|]. by apply Forall_app.
Qed.

Lemma quiet_same h1 h2 sink : needs_auth h1 = needs_auth h2 -> quiet (h1, sink) (h2, sink).
Proof. intros Hn. split; [done|]. exists []. by rewrite app_nil_r. Qed.

Lemma quiet_put_state st : keeps quiet (put_state st).
Proof. intros [h sink] r s' [= <- <-]. by apply quiet_same. Qed.
#[local] Hint Resolve quiet_put_state : quiet.
Lemma quiet_put_nicks n : keeps quiet (put_nicks n).
Proof. intros [h sink] r s' [= <- <-]. by apply quiet_same. Qed.
#[local] Hint Resolve quiet_put_nicks : quiet.
Lemma quiet_modify_reg f : keeps quiet (modify_reg f).
Proof. intros [h sink] r s' [= <- <-]. by apply quiet_same. Qed.
#[local] Hint Resolve quiet_modify_reg : quiet.
Lemma quiet_send m : is_cap_end m = false -> keeps quiet (send m).
Proof.
  intros Hm [h sink] r s' [= <- <-]. split; [done|]. exists [m]. split; [done|]. by repeat constructor.
Qed.

Lemma quiet_append l : Forall (fun m => is_cap_end m = false) l ->
  forall h h' sink, needs_auth h' = needs_auth h -> quiet (h, sink) (h', sink ++ l).
Proof. intros Hl h h' sink Hn. split; [done|]. by exists l. Qed.

Lemma quiet_panic {A} : keeps quiet (panic (A := A)).
Proof. by intros s r s'. Qed.
#[local] Hint Resolve quiet_panic : quiet.

Ltac quiet_tac :=
  repeat first
    [ solve [auto 2 with quiet nocore]
    | match goal with
      | |- keeps _ (bind _ _) => apply keeps_bind; [exact _| |intros ?]
      | |- keeps _ (ret _) => apply keeps_ret; exact _
      | |- keeps _ (throw _) => apply keeps_throw; exact _
      | |- keeps _ get => apply keeps_get; exact _
      | |- keeps _ (unwrap _) => apply keeps_unwrap; exact _
      | |- keeps _ (send _) => apply quiet_send; reflexivity
      | |- keeps _ (match ?x with _ => _ end) => destruct x
      end
    | progress cbv zeta ].

Lemma quiet_next_nick : keeps quiet next_nick.
Proof. unfold next_nick. quiet_tac. Qed.
#[local] Hint Resolve quiet_next_nick : quiet.

Lemma quiet_ack b caps : keeps quiet (ack b caps).
Proof. unfold ack. quiet_tac. Qed.
#[local] Hint Resolve quiet_ack : quiet.

Lemma quiet_req reqs client server : keeps quiet (with_sink (fun sink => ((), Cap.req reqs client server sink))).
Proof.
  intros [h sink] r s' [= <- <-]. split; [done|]. cbn [snd]. apply req_sends.
Qed.
#[local] Hint Resolve quiet_req : quiet.

Lemma quiet_ls_last : keeps quiet ls_last.
Proof. unfold ls_last. quiet_tac. Qed.
#[local] Hint Resolve quiet_ls_last : quiet.

Lemma quiet_edit_caps f : keeps quiet (edit_caps f).
Proof. unfold edit_caps. quiet_tac. Qed.
#[local] Hint Resolve quiet_edit_caps : quiet.

Lemma quiet_handle_cap msg : keeps quiet (handle_cap msg).
Proof.
  unfold handle_cap, try_insert_all, insert_all. quiet_tac.
Qed.
#[local] Hint Resolve quiet_handle_cap : quiet.

Lemma quiet_whoami a : keeps quiet (set_whoami_arg a).
Proof. unfold set_whoami_arg. quiet_tac. Qed.
#[local] Hint Resolve quiet_whoami : quiet.

Lemma quiet_handle_kind msg b : keeps quiet (handle_kind msg b).
Proof.
  unfold handle_kind. apply keeps_bind; [exact _|apply keeps_get; exact _|]. intros h.
  cbv zeta. repeat match goal with |- keeps _ (if ?x then _ else _) => destruct x end;
    unfold handle_001, handle_900, handle_901, handle_bounce, handle_010, handle_432; quiet_tac.
Qed.
#[local] Hint Resolve quiet_handle_kind : quiet.

Lemma auth_sends msg sasl (sink : list ClientMsg) r sasl' sink' :
  Auth.handle msg sasl sink = Some (r, sasl', sink') ->
  exists l, sink' = sink ++ l /\ Forall (fun m => cmd m = bs "AUTHENTICATE") l.
Proof.
  assert (K1 : forall c, exists l, sink_send sink (Auth.auth_chunk c) = sink ++ l /\ Forall (fun m => cmd m = bs "AUTHENTICATE") l).
  { intros c. eexists. split; [reflexivity|]. by repeat constructor. }
  assert (K0 : exists l, sink = sink ++ l /\ Forall (fun m => cmd m = bs "AUTHENTICATE") l).
  { exists []. by rewrite app_nil_r. }
  unfold Auth.handle. case_bool_decide.
  { set (x := match words (sargs msg) with [] => _ | _ => _ end). destruct x as [[[chal|e]|] d].
    - unfold Auth.answer. destruct (Auth.reply _ _ _) as [[[u|e] buf] lg].
      + destruct (Base64.chunks _) as [cs|]; [|done]. intros [= _ _ <-]. rewrite closure_send_all. eexists. split; [done|].
        apply List.Forall_forall. intros m (c & <- & _)%List.in_map_iff. done.
      + destruct (Auth.queue_pop _) as [[? ?]|]; intros [= _ _ <-]; apply (K1 Names.STAR).
    - intros [= _ _ <-]. apply (K1 Names.STAR).
    - by intros [= _ _ <-]. }
  repeat case_bool_decide; try (by intros [= _ _ <-]); try (intros [= _ _ <-]; apply K1).
  all: try (destruct (_ && _); by intros [= _ _ <-]).
  destruct (Auth.queue_pop _) as [[? ?]|]; intros [= _ _ <-]; [apply K1|done].
Qed.

Lemma quiet_handle_sasl msg : keeps quiet (handle_sasl msg).
Proof.
  unfold handle_sasl. apply keeps_bind; [exact _|apply keeps_get; exact _|]. intros h.
  destruct (hstate h); try (apply keeps_ret; exact _). intros [h0 sink] r s'. cbn [fst snd].
  destruct (Auth.handle msg handler sink) as [[[r0 sasl'] sink']|] eqn:Ha; [|done].
  apply auth_sends in Ha as (l & -> & Hl). intros Hr.
  assert (Hq : Forall (fun m => is_cap_end m = false) l).
  { eapply Forall_impl; [exact Hl|]. cbv beta. intros m Hm. unfold is_cap_end. by rewrite Hm. }
  destruct r0 as [[]|e]; injection Hr as _ <-; by apply quiet_append.
Qed.
#[local] Hint Resolve quiet_handle_sasl : quiet.

Lemma quiet_pong msg : keeps quiet (with_sink (Replies.pong msg)).
Proof.
  intros [h sink] r s'. unfold with_sink, Replies.pong. cbn [snd fst].
  destruct (Replies.is_cmd msg (bs "PING")); intros [= _ <-]; [|by apply quiet_same].
  apply quiet_append; [|done]. constructor; [|constructor]. unfold is_cap_end.
  by destruct (split_last (sargs msg)).2.
Qed.
#[local] Hint Resolve quiet_pong : quiet.
(** ** Phases *)

Definition rank (st : HandlerState L) : nat :=
  match st with
  | SBroken => 0 | SReq _ _ => 1 | SAck _ _ => 2 | SSasl _ => 3 | SCapEnd => 4 | SAwaitWelcome => 5 | SAwaitEnd => 6
  end.

(** On success the phase moves forward, and not to waiting for the end. *)
Definition moves (s s' : St) : Prop :=
  rank (hstate s.1) <= rank (hstate s'.1) /\ (hstate s'.1 = SAwaitEnd -> hstate s.1 = SAwaitEnd).

Definition keeps_ok (R : St -> St -> Prop) {A} (m : M A) : Prop :=
  forall s a s', m s = Some (Ok a, s') -> R s s'.

Lemma bind_Ok {A B} (m : M A) (k : A -> M B) s b s' :
  bind m k s = Some (Ok b, s') -> exists a s1, m s = Some (Ok a, s1) /\ k a s1 = Some (Ok b, s').
Proof. unfold bind. destruct (m s) as [[[a|e] s1]|]; [|done..]. by exists a, s1. Qed.

Lemma keeps_ok_bind R `{!PreOrder R} {A B} (m : M A) (k : A -> M B) :
  keeps_ok R m -> (forall a, keeps_ok R (k a)) -> keeps_ok R (bind m k).
Proof. intros Hm Hk s b s' (a & s1 & K1 & K2)%bind_Ok. etrans; [by eapply Hm|by eapply Hk]. Qed.

Lemma keeps_ok_ret R `{!PreOrder R} {A} (a : A) : keeps_ok R (ret a).
Proof. by intros s r s' [= <- <-]. Qed.
Lemma keeps_ok_throw R {A} e : keeps_ok R (throw (A := A) e).
Proof. by intros s r s'. Qed.
Lemma keeps_ok_get R `{!PreOrder R} : keeps_ok R get.
Proof. by intros s r s' [= <- <-]. Qed.
Lemma keeps_ok_unwrap R `{!PreOrder R} {A} (o : option A) : keeps_ok R (unwrap o).
Proof. destruct o; [by apply keeps_ok_ret|by intros s r s']. Qed.

#[local] Instance moves_preorder : PreOrder moves.
Proof.
  split; [by intros s|]. intros s1 s2 s3 [K1 K2] [K3 K4]. split; [lia|auto].
Qed.

Create HintDb moves.

Lemma moves_same s s' : hstate s'.1 = hstate s.1 -> moves s s'.
Proof. intros Hs. split; [by rewrite Hs|congruence]. Qed.

Lemma moves_put_nicks n : keeps_ok moves (put_nicks n).
Proof. intros [h sink] r s' [= <- <-]. by apply moves_same. Qed.
Lemma moves_modify_reg f : keeps_ok moves (modify_reg f).
Proof. intros [h sink] r s' [= <- <-]. by apply moves_same. Qed.
Lemma moves_with_sink {A} (f : list ClientMsg -> A * list ClientMsg) : keeps_ok moves (with_sink f).
Proof. intros [h sink] r s'. unfold with_sink. cbn [snd]. destruct (f sink). intros [= <- <-]. by apply moves_same. Qed.
Lemma moves_panic {A} : keeps_ok moves (panic (A := A)).
Proof. by intros s r s'. Qed.
#[local] Hint Resolve moves_put_nicks moves_modify_reg moves_with_sink moves_panic : moves.

Ltac moves_tac :=
  repeat first
    [ solve [auto 2 with moves nocore]
    | match goal with
      | |- keeps_ok _ (bind _ _) => apply keeps_ok_bind; [exact _| |intros ?]
      | |- keeps_ok _ (ret _) => apply keeps_ok_ret; exact _
      | |- keeps_ok _ (throw _) => apply keeps_ok_throw
      | |- keeps_ok _ get => apply keeps_ok_get; exact _
      | |- keeps_ok _ (unwrap _) => apply keeps_ok_unwrap; exact _
      | |- keeps_ok _ (send _) => apply moves_with_sink
      | |- keeps_ok _ (match ?x with _ => _ end) => destruct x
      end
    | progress cbv zeta ].

Lemma moves_next_nick : keeps_ok moves next_nick.
Proof. unfold next_nick. moves_tac. Qed.

(** A forward step from a known state. *)
Lemma moves_put_state st s a s' :
  put_state st s = Some (Ok a, s') -> rank (hstate s.1) <= rank st -> (st = SAwaitEnd -> hstate s.1 = SAwaitEnd) -> moves s s'.
Proof. intros [= <- <-]. by split. Qed.

Lemma moves_ack b caps : keeps_ok moves (ack b caps).
Proof.
  intros [h sink] a s'. unfold ack, bind, get. cbn [fst]. destruct (hstate h) as [| |ackd queue| | | |] eqn:Hst;
    try (intros [= <- <-]; by apply moves_same).
  cbv zeta. destruct (_ && _); [done|]. destruct (if b then _ else _) as [|x l].
  - destruct (Auth.from_queue queue); unfold bind, send, with_sink, put_state, sink_send, closure_sink; intros [= <- <-];
      split; cbn [fst hstate]; rewrite Hst; cbn [rank]; (lia || done).
  - intros [= <- <-]. split; cbn [fst hstate]; rewrite Hst; cbn [rank]; (lia || done).
Qed.
#[local] Hint Resolve moves_next_nick moves_ack : moves.

Lemma moves_edit_caps f : keeps_ok moves (edit_caps f).
Proof. unfold edit_caps. moves_tac. Qed.

Lemma moves_ls_last : keeps_ok moves ls_last.
Proof.
  intros [h sink] a s'. unfold ls_last. intros (h' & s1 & [= <- <-] & K)%bind_Ok.
  apply bind_Ok in K as (u & s2 & [= <- <-] & K). cbn [fst snd] in K.
  destruct (hstate h) as [|reqs auths| | | | |] eqn:Hst; try (injection K as <- <-; split; cbn; rewrite ?Hst; done).
  apply bind_Ok in K as (auths' & s3 & K3 & K). apply bind_Ok in K as (reqs' & s4 & _ & K).
  destruct (negb _); [done|]. assert (Hg : 1 <= rank (hstate s'.1) /\ hstate s'.1 <> SAwaitEnd).
  { destruct (remove STS reqs'); [by injection K as _ <-; cbn; split; [lia|]|].
    apply bind_Ok in K as (u' & s5 & _ & K). injection K as _ <-. by cbn; split; [lia|]. }
  split; cbn [fst]; rewrite Hst; [cbn; lia|naive_solver].
Qed.
#[local] Hint Resolve moves_edit_caps moves_ls_last : moves.

Lemma moves_handle_cap msg : keeps_ok moves (handle_cap msg).
Proof. unfold handle_cap, try_insert_all, insert_all. moves_tac. Qed.
Lemma moves_whoami a : keeps_ok moves (set_whoami_arg a).
Proof. unfold set_whoami_arg. moves_tac. Qed.
#[local] Hint Resolve moves_handle_cap moves_whoami : moves.

Lemma moves_handle_sasl msg : keeps_ok moves (handle_sasl msg).
Proof.
  intros [h sink] a s' (h' & s1 & [= <- <-] & K)%bind_Ok. cbn [fst snd] in K.
  destruct (hstate h) eqn:Hst; try (injection K as <- <-; by apply moves_same). cbn [fst snd] in K.
  destruct (Auth.handle msg handler sink) as [[[[[]|e] sasl'] sink']|]; [..|done];
    injection K as _ <-; split; cbn; rewrite Hst; cbn; (lia || done).
Qed.
#[local] Hint Resolve moves_handle_sasl : moves.

Lemma moves_handle_kind msg b :
  as_arg (kind msg) <> bs "001" -> keeps_ok moves (handle_kind msg b).
Proof.
  intros Hk. unfold handle_kind. apply keeps_ok_bind; [exact _|apply keeps_ok_get; exact _|]. intros h. cbv zeta.
  rewrite (bool_decide_false (as_arg (kind msg) ∈ [bs "001"])) by by intros ?%list_elem_of_singleton.
  repeat match goal with |- keeps_ok _ (if ?x then _ else _) => destruct x end;
    unfold handle_900, handle_901, handle_bounce, handle_010, handle_432; moves_tac.
Qed.
#[local] Hint Resolve moves_handle_kind : moves.

(** What a computation gives back. *)
Definition gives {A} (P : A -> Prop) (m : M A) : Prop := forall s a s', m s = Some (Ok a, s') -> P a.

Lemma gives_bind {A B} P (m : M A) (k : A -> M B) : (forall a, gives P (k a)) -> gives P (bind m k).
Proof. intros Hk s b s' (a & s1 & _ & K)%bind_Ok. by eapply Hk. Qed.
Lemma gives_ret {A} (P : A -> Prop) a : P a -> gives P (ret a).
Proof. by intros Ha s a' s' [= <- _]. Qed.
Lemma gives_throw {A} P e : gives P (throw (A := A) e).
Proof. by intros s a s'. Qed.

(** No value, except at the end of the MOTD. *)
Definition no_value (f : Flow) : Prop := match f with Return r | Value r => r = None end.

Ltac gives_tac :=
  repeat match goal with
    | |- gives _ (bind _ _) => apply gives_bind; intros ?
    | |- gives _ (ret _) => apply gives_ret; reflexivity
    | |- gives _ (throw _) => apply gives_throw
    | |- gives _ (match ?x with _ => _ end) => destruct x
    end.

Definition motd_end (msg : ServerMsg) : Prop := as_arg (kind msg) ∈ [bs "376"; bs "422"].
Definition welcome (msg : ServerMsg) : Prop := as_arg (kind msg) = bs "001".

Lemma is_await_end_true st : is_await_end st = true <-> st = SAwaitEnd (L := L).
Proof. by destruct st. Qed.

Lemma handle_kind_value msg b s f s' :
  handle_kind msg b s = Some (Ok f, s') ->
  no_value f \/ (motd_end msg /\ hstate s.1 = SAwaitEnd /\ f = Value (Some (reg s.1))).
Proof.
  intros (h & s1 & [= <- <-] & K)%bind_Ok. revert K. cbv zeta.
  repeat match goal with
    | |- (if ?x then _ else _) _ = _ -> _ =>
        let E := fresh "E" in destruct x eqn:E
    end; intros K.
  8: { right. match goal with K : bool_decide (_ ∈ [bs "376"; _]) && _ = true |- _ => apply andb_true_iff in K as [K8 K9] end.
        apply bool_decide_eq_true in K8. apply is_await_end_true in K9. apply bind_Ok in K as (? & ? & _ & K). by injection K as <- _. }
  all: left; revert K; match goal with |- ?m _ = _ -> _ => cut (gives no_value m); [intros Hg K; by eapply Hg|] end.
  all: unfold handle_001, handle_900, handle_901, handle_bounce, handle_010, handle_432; gives_tac.
Qed.

Lemma handle_kind_phase msg b s f s' :
  handle_kind msg b s = Some (Ok f, s') ->
  rank (hstate s.1) <= rank (hstate s'.1) /\
  (hstate s'.1 = SAwaitEnd -> hstate s.1 = SAwaitEnd \/
    (welcome msg /\ (needs_auth s.1 = true -> is_Some (raccount (reg s.1))))).
Proof.
  intros K. destruct (decide (as_arg (kind msg) = bs "001")) as [Hw|Hw].
  - apply bind_Ok in K as (h & s1 & [= <- <-] & K). cbv zeta in K. rewrite Hw in K.
    rewrite (bool_decide_true (bs "001" ∈ [bs "001"; bs "002"; bs "003"; bs "004"])) in K by by left.
    rewrite (bool_decide_true (bs "001" ∈ [bs "001"])) in K by by left. cbn [andb] in K.
    destruct (needs_auth s.1 && _) eqn:Hn; [done|]. split.
    + unfold handle_001 in K. apply bind_Ok in K as (? & ? & _ & K). apply bind_Ok in K as (? & ? & _ & K).
      apply bind_Ok in K as (? & ? & _ & K). apply bind_Ok in K as (? & s2 & K2 & K). injection K2 as _ <-.
      injection K as _ <-. cbn [fst hstate rank]. by destruct (hstate s.1); cbn [rank]; lia.
    + intros _. right. split; [done|]. intros Hna. rewrite Hna in Hn. cbn [andb] in Hn.
      by apply negb_false_iff, bool_decide_eq_true in Hn.
  - destruct (moves_handle_kind msg b Hw s f s' K) as [K1 K2]. auto.
Qed.

(** Before and after the last step, which is the only one that sends
    [CAP END]. *)
Definition closes (s1 s' : St) : Prop :=
  hstate s1.1 = SCapEnd /\ (needs_auth s1.1 = true -> is_Some (raccount (reg s1.1))) /\
  s' = (mkHandler (nicks s1.1) SAwaitWelcome (needs_auth s1.1) (reg s1.1), s1.2 ++ [cap_end_msg]).

Lemma finish_step r s r' s' :
  finish r s = Some (r', s') ->
  (s' = s /\ match r' with Ok x => x = r /\ hstate s.1 <> SCapEnd | Err e => e = NoLogin /\ hstate s.1 = SCapEnd end) \/
  (closes s s' /\ r' = Ok r).
Proof.
  destruct s as [h sink]. unfold finish, bind, get. cbn [fst]. destruct (hstate h) eqn:Hst;
    try (unfold ret; intros [= <- <-]; left; split; [done|]; by split).
  destruct (needs_auth h && _) eqn:Hn; [by intros [= <- <-]; left; cbn|]. intros [= <- <-]. right. split; [|done].
  split; [done|]. split; [|done]. cbn [fst]. intros Hna. rewrite Hna in Hn. cbn [andb] in Hn.
  by apply negb_false_iff, bool_decide_eq_true in Hn.
Qed.

Lemma bind_inv {A B} (m : M A) (k : A -> M B) s r s' :
  bind m k s = Some (r, s') ->
  (exists e, m s = Some (Err e, s') /\ r = Err e) \/ (exists a s1, m s = Some (Ok a, s1) /\ k a s1 = Some (r, s')).
Proof.
  unfold bind. destruct (m s) as [[[a|e] s1]|]; [|intros [= <- <-]|done]; [right; by exists a, s1|left; by exists e].
Qed.

(** One message: the phase moves on, and waiting for the end of the MOTD begins
    with a welcome, which needs the account that is needed. *)
Definition phase (msg : ServerMsg) (s s' : St) : Prop :=
  rank (hstate s.1) <= rank (hstate s'.1) /\
  (hstate s'.1 = SAwaitEnd -> hstate s.1 = SAwaitEnd \/
    (welcome msg /\ (needs_auth s.1 = true -> is_Some (raccount (reg s.1))))).

Definition same_account (s s' : St) : Prop := raccount (reg s'.1) = raccount (reg s.1).

#[local] Instance same_account_preorder : PreOrder same_account.
Proof. split; [done|]. intros s1 s2 s3. unfold same_account. congruence. Qed.

(** Learning the server's name. *)
Definition learn_source (msg : ServerMsg) (h : Handler L I) : M () :=
  match rsource (reg h), source msg with
  | None, Some source => bind (unwrap (owning_merged source)) (fun s => modify_reg (set_source (Some s)))
  | _, _ => ret ()
  end.

Lemma learn_source_keeps msg h : keeps quiet (learn_source msg h) /\ keeps_ok moves (learn_source msg h) /\ keeps_ok same_account (learn_source msg h).
Proof.
  unfold learn_source. split; [|split]; [quiet_tac|moves_tac|].
  destruct (rsource _), (source msg); try (apply keeps_ok_ret; exact _).
  apply keeps_ok_bind; [exact _|apply keeps_ok_unwrap; exact _|]. intros v [h0 sink] a s' K. injection K as _ <-. done.
Qed.

Lemma handle_sasl_account msg : keeps_ok same_account (handle_sasl msg).
Proof.
  intros [h sink] a s' (h' & s1 & [= <- <-] & K)%bind_Ok. cbn [fst snd] in K.
  destruct (hstate h); try (injection K as <- <-; done). cbn [fst snd] in K.
  destruct (Auth.handle msg handler sink) as [[[[[]|e] sasl'] sink']|]; [..|done]; injection K as _ <-; done.
Qed.

(** The result of handling a message: after some quiet steps it fails, or it
    gives a value at the end of the MOTD, or it may close the negotiation. *)
Definition outcome (msg : ServerMsg) (s s1 : St) (r : result (option Registration) HandlerError) (s' : St) : Prop :=
  match r with
  | Err _ => s' = s1
  | Ok o => phase msg s s1 /\ (s' = s1 \/ closes s1 s') /\ (o = None \/ (motd_end msg /\ hstate s.1 = SAwaitEnd /\ s' = s1))
  end.

Lemma handle_step msg s r s' : handle msg s = Some (r, s') -> exists s1, quiet s s1 /\ outcome msg s s1 r s'.
Proof.
  intros [(e & [=] & _)|(h & s0 & [= <- <-] & K)]%bind_inv. fold (learn_source msg s.1) in K.
  destruct (learn_source_keeps msg s.1) as (L1 & L2 & L3).
  apply bind_inv in K as [(e & K & ->)|(u & s1 & K1 & K)]; [exists s'; split; [by eapply L1|done]|].
  assert (Q1 : quiet s s1) by by eapply L1. assert (P1 : moves s s1) by by eapply L2. assert (A1 : same_account s s1) by by eapply L3.
  apply bind_inv in K as [(e & K & ->)|(ponged & s2 & K2 & K)]; [exists s'; split; [etrans; [done|by eapply quiet_pong]|done]|].
  assert (Q2 : quiet s s2) by (etrans; [done|by eapply quiet_pong]).
  assert (P2 : moves s s2) by (etrans; [done|by eapply moves_with_sink]).
  assert (A2 : same_account s s2).
  { etrans; [done|]. unfold with_sink in K2. destruct (Replies.pong msg s1.2). by injection K2 as _ <-. }
  destruct ponged.
  { injection K as <- <-. exists s2. split; [done|]. split; [|by split; left]. destruct P2 as [P3 P4]. split; [done|]. auto. }
  apply bind_inv in K as [(e & K & ->)|(b & s3 & K3 & K)]; [exists s'; split; [etrans; [done|by eapply quiet_handle_sasl]|done]|].
  assert (Q3 : quiet s s3) by (etrans; [done|by eapply quiet_handle_sasl]).
  assert (P3 : moves s s3) by (etrans; [done|by eapply moves_handle_sasl]).
  assert (A3 : same_account s s3) by (etrans; [done|by eapply handle_sasl_account]).
  apply bind_inv in K as [(e & K & ->)|(f & s4 & K4 & K)]; [exists s'; split; [etrans; [done|by eapply quiet_handle_kind]|done]|].
  assert (Q4 : quiet s s4) by (etrans; [done|by eapply quiet_handle_kind]).
  assert (P4 : phase msg s s4).
  { apply handle_kind_phase in K4 as [K5 K6]. destruct P3 as [P3 P5], Q3 as [Q3 _]. split; [lia|].
    intros [K7|[K7 K8]]%K6; [left; auto|]. right. split; [done|]. by rewrite <- Q3, <- A3. }
  apply handle_kind_value in K4 as Hv. exists s4. split; [done|]. destruct f as [v|v].
  - injection K as <- <-. split; [done|]. split; [by left|]. destruct Hv as [->|(_ & _ & [=])]. by left.
  - apply finish_step in K as [[-> K]|[K ->]].
    + destruct r as [o|e]; [|done]. destruct K as [-> _]. split; [done|]. split; [by left|].
      destruct Hv as [->|(H5 & H6 & [= ->])]; [by left|right]. destruct P3 as [_ P3]. auto.
    + split; [done|]. split; [by right|]. destruct Hv as [->|(H5 & H6 & [= ->])]; [by left|].
      apply handle_kind_phase in K4 as [K5 _]. destruct K as (K & _). rewrite H6, K in K5. cbn in K5. lia.
Qed.

(** ** What any run does *)

Definition ends (l : list ClientMsg) : nat := length (List.filter is_cap_end l).
Definition open (st : HandlerState L) : nat := if decide (rank st <= 4) then 1 else 0.

Lemma quiet_ends s s' : quiet s s' -> ends s'.2 = ends s.2.
Proof.
  intros (_ & l & -> & Hl). unfold ends. rewrite List.filter_app, length_app.
  induction Hl as [|m l Hm _ IH]; cbn [List.filter]; [cbn; lia|]. by rewrite Hm.
Qed.

Lemma closes_ends s s' : closes s s' -> ends s'.2 = S (ends s.2) /\ open (hstate s.1) = 1 /\ open (hstate s'.1) = 0.
Proof.
  intros (-> & _ & ->). split; [|done]. unfold ends. cbn [snd]. rewrite List.filter_app, length_app.
  cbn [List.filter]. replace (is_cap_end cap_end_msg) with true by by vm_compute. cbn [length]. lia.
Qed.

Lemma open_le st : open st <= 1.
Proof. unfold open. case_decide; lia. Qed.

Lemma phase_open msg s s' : phase msg s s' -> open (hstate s'.1) <= open (hstate s.1).
Proof. intros [Hr _]. unfold open. repeat destruct (decide _); lia. Qed.

(** A run up to a state in which a message was handled. *)
Definition reached (ms : list ServerMsg) (s : St) (m : ServerMsg) (s1 : St) (r : result (option Registration) HandlerError) (s2 : St) : Prop :=
  exists ms1 ms2, ms = ms1 ++ m :: ms2 /\ run ms1 s = Some (Ok None, s1) /\ handle m s1 = Some (r, s2).

Lemma reached_here m ms s r s' : handle m s = Some (r, s') -> reached (m :: ms) s m s r s'.
Proof. intros Hh. by exists [], ms. Qed.
Lemma reached_later m ms s s0 m' s1 r s2 :
  handle m s = Some (Ok None, s0) -> reached ms s0 m' s1 r s2 -> reached (m :: ms) s m' s1 r s2.
Proof.
  intros Hh (ms1 & ms2 & -> & K1 & K2). exists (m :: ms1), ms2. split; [done|]. split; [|done]. cbn [run]. by rewrite Hh.
Qed.

Lemma run_ends ms s r s' :
  run ms s = Some (r, s') ->
  (ends s'.2 = ends s.2 \/
   (ends s'.2 = S (ends s.2) /\ open (hstate s.1) = 1 /\
    exists m s1 s2, reached ms s m s1 (Ok None) s2 /\ ends s2.2 = S (ends s1.2) /\
      (needs_auth s.1 = true -> is_Some (raccount (reg s2.1))))).
Proof.
  revert s. induction ms as [|m ms IH]; intros s; cbn [run]; [by intros [= <- <-]; left|].
  destruct (handle m s) as [[r0 s0]|] eqn:Hh; [|done]. apply handle_step in Hh as Hs. destruct Hs as (s1 & Hq & Ho).
  apply quiet_ends in Hq as Hends.
  assert (Hstop : s0 = s1 -> Some (r0, s0) = Some (r, s') -> ends s'.2 = ends s.2) by by intros -> [= _ <-].
  destruct r0 as [[v|]|e]; [|..].
  - destruct Ho as (_ & _ & [[=]|(_ & _ & ->)]). intros K. left. by apply Hstop.
  - intros K. destruct Ho as (Hp & [->|Hc] & _).
    + apply IH in K as [K|(K1 & K2 & m' & s2 & s3 & K3 & K4 & K5)]; [left; congruence|right]. split; [congruence|].
      apply phase_open in Hp. split; [pose proof (open_le (hstate s.1)); lia|].
      exists m', s2, s3. split; [by eapply reached_later|]. split; [done|]. destruct Hq as [Hq _]. by rewrite <- Hq.
    + apply closes_ends in Hc as Hce. destruct Hce as (Hce & Ho1 & Ho0). right.
      apply IH in K as [K|(_ & K & _)]; [|lia]. split; [congruence|].
      apply phase_open in Hp. split; [pose proof (open_le (hstate s.1)); lia|].
      exists m, s, s0. split; [by apply reached_here|]. split; [congruence|]. destruct Hc as (_ & Ha & ->).
      destruct Hq as [Hq _]. cbn [fst reg]. by rewrite <- Hq.
  - intros K. left. by apply Hstop.
Qed.

Lemma run_completes ms s v s' :
  run ms s = Some (Ok (Some v), s') ->
  exists mend s2, reached ms s mend s2 (Ok (Some v)) s' /\ motd_end mend /\
    (hstate s.1 = SAwaitEnd \/
     exists m s0 s1, reached ms s m s0 (Ok None) s1 /\ welcome m /\ (needs_auth s.1 = true -> is_Some (raccount (reg s0.1)))).
Proof.
  revert s. induction ms as [|m ms IH]; intros s; cbn [run]; [done|].
  destruct (handle m s) as [[[[v'|]|e] s0]|] eqn:Hh; [..|done|done].
  - intros [= -> ->]. apply handle_step in Hh as Hs. destruct Hs as (s1 & _ & _ & _ & [[=]|(Hm & Hs & _)]).
    exists m, s. split; [by apply reached_here|]. auto.
  - intros (mend & s2 & K1 & K2 & K3)%IH. exists mend, s2. split; [by eapply reached_later|]. split; [done|].
    apply handle_step in Hh as Hs. destruct Hs as (s1 & [Hq _] & [_ Hp] & Hc & _).
    assert (Hn : needs_auth s0.1 = needs_auth s.1) by by destruct Hc as [->|(_ & _ & ->)].
    destruct K3 as [K3|(m' & s3 & s4 & K3 & K4 & K5)].
    + destruct Hc as [->|(_ & _ & ->)]; [|done]. destruct (Hp K3) as [|[K6 K7]]; [by left|right].
      exists m, s, s1. split; [by apply reached_here|]. done.
    + right. exists m', s3, s4. split; [by eapply reached_later|]. split; [done|]. by rewrite <- Hn.
Qed.

(** ** A login that cannot be had *)

(** A login is required and there is nothing to log in with. *)
Definition locked (s : St) : Prop :=
  needs_auth s.1 = true /\ (hstate s.1 = SBroken \/ (exists reqs, hstate s.1 = SReq reqs []) \/ hstate s.1 = SAwaitEnd).
Definition stays_locked (s s' : St) : Prop := locked s -> locked s'.

#[local] Instance stays_locked_preorder : PreOrder stays_locked.
Proof. split; [by intros s ?|]. intros s1 s2 s3. unfold stays_locked. auto. Qed.

Create HintDb locked.

Lemma locked_put_nicks n : keeps stays_locked (put_nicks n).
Proof. by intros [h sink] r s' [= <- <-] ?. Qed.
Lemma locked_modify_reg f : keeps stays_locked (modify_reg f).
Proof. by intros [h sink] r s' [= <- <-] ?. Qed.
Lemma locked_with_sink {A} (f : list ClientMsg -> A * list ClientMsg) : keeps stays_locked (with_sink f).
Proof. intros [h sink] r s'. unfold with_sink. destruct (f _). by intros [= <- <-] ?. Qed.
Lemma locked_panic {A} : keeps stays_locked (panic (A := A)).
Proof. by intros s r s'. Qed.
Lemma locked_await_end : keeps stays_locked (put_state SAwaitEnd).
Proof. intros [h sink] r s' [= <- <-] [Hn _]. split; [done|]. by right; right. Qed.
#[local] Hint Resolve locked_put_nicks locked_modify_reg locked_with_sink locked_panic locked_await_end : locked.

Ltac locked_tac :=
  repeat first
    [ solve [auto 2 with locked nocore]
    | match goal with
      | |- keeps _ (bind _ _) => apply keeps_bind; [exact _| |intros ?]
      | |- keeps _ (ret _) => apply keeps_ret; exact _
      | |- keeps _ (throw _) => apply keeps_throw; exact _
      | |- keeps _ get => apply keeps_get; exact _
      | |- keeps _ (unwrap _) => apply keeps_unwrap; exact _
      | |- keeps _ (send _) => apply locked_with_sink
      | |- keeps _ (match ?x with _ => _ end) => destruct x
      end
    | progress cbv zeta ].

(** Nothing is acknowledged, nobody is logged in, and the list of capabilities
    ends the registration. *)
Lemma locked_ack b caps : keeps stays_locked (ack b caps).
Proof.
  intros [h sink] r s' K Hl. unfold ack, bind, get in K. cbn [fst] in K. pose proof Hl as [_ Hst]. cbn [fst] in Hst.
  destruct (hstate h); try (by injection K as _ <-). by destruct Hst as [|[[? ?]|]].
Qed.

Lemma locked_handle_sasl msg : keeps stays_locked (handle_sasl msg).
Proof.
  intros [h sink] r s' K Hl. unfold handle_sasl, bind, get in K. cbn [fst] in K. pose proof Hl as [_ Hst]. cbn [fst] in Hst.
  destruct (hstate h); try (by injection K as _ <-). by destruct Hst as [|[[? ?]|]].
Qed.

Lemma locked_ls_last : keeps stays_locked ls_last.
Proof.
  intros [h sink] r s' K Hl. unfold ls_last, bind, get, put_state in K. cbn [fst snd] in K. pose proof Hl as [Hn Hst]. cbn [fst] in Hn, Hst.
  destruct (hstate h) as [|reqs auths| | | | |] eqn:E1; try (injection K as _ <-; split; [done|]; cbn [fst hstate]; by destruct Hst as [?|[[? ?]|?]]; auto; eauto).
  assert (auths = []) as -> by (destruct Hst as [?|[[? [= _ ->]]|?]]; done).
  destruct ((fun e => sasl_mechs e.2) <$> get_union_raw (rcaps (reg h)) SASL) as [[mechs|]|]; cbn in K; [|done|];
    rewrite Hn in K; injection K as _ <-; (split; [done|by left]).
Qed.
#[local] Hint Resolve locked_ack locked_handle_sasl locked_ls_last : locked.

Lemma locked_next_nick : keeps stays_locked next_nick.
Proof. unfold next_nick. locked_tac. Qed.
Lemma locked_edit_caps f : keeps stays_locked (edit_caps f).
Proof. unfold edit_caps. locked_tac. Qed.
Lemma locked_whoami a : keeps stays_locked (set_whoami_arg a).
Proof. unfold set_whoami_arg. locked_tac. Qed.
#[local] Hint Resolve locked_next_nick locked_edit_caps locked_whoami : locked.
Lemma locked_handle_cap msg : keeps stays_locked (handle_cap msg).
Proof. unfold handle_cap, try_insert_all, insert_all. locked_tac. Qed.
#[local] Hint Resolve locked_handle_cap : locked.

Lemma locked_handle_kind msg b : keeps stays_locked (handle_kind msg b).
Proof.
  unfold handle_kind. apply keeps_bind; [exact _|apply keeps_get; exact _|]. intros h. cbv zeta.
  repeat match goal with |- keeps _ (if ?x then _ else _) => destruct x end;
    unfold handle_001, handle_900, handle_901, handle_bounce, handle_010, handle_432; locked_tac.
Qed.
#[local] Hint Resolve locked_handle_kind : locked.

Lemma locked_finish r : keeps stays_locked (finish r).
Proof.
  intros [h sink] r' s' K Hl. unfold finish, bind, get in K. cbn [fst] in K. pose proof Hl as [_ Hst]. cbn [fst] in Hst.
  destruct (hstate h); try (by injection K as _ <-). by destruct Hst as [|[[? ?]|]].
Qed.
#[local] Hint Resolve locked_finish : locked.

Lemma locked_handle msg : keeps stays_locked (handle msg).
Proof. unfold handle. locked_tac. Qed.

Lemma run_locked ms s r s' : locked s -> run ms s = Some (r, s') -> ends s'.2 = ends s.2.
Proof.
  revert s. induction ms as [|m ms IH]; intros s Hl; cbn [run]; [by intros [= <- <-]|].
  destruct (handle m s) as [[r0 s0]|] eqn:Hh; [|done]. pose proof (locked_handle m s r0 s0 Hh Hl) as Hl0.
  apply handle_step in Hh as (s1 & Hq & Ho). apply quiet_ends in Hq.
  assert (Hs : s0 = s1 \/ closes s1 s0) by (destruct r0; [by destruct Ho as (_ & ? & _)|by left]).
  assert (He : ends s0.2 = ends s.2).
  { destruct Hs as [->|(_ & _ & ->)]; [done|]. by destruct Hl0 as [_ [?|[[? ?]|?]]]. }
  destruct r0 as [[v|]|e]; [by intros [= _ <-]| |by intros [= _ <-]]. intros K. rewrite <- He. by apply IH.
Qed.

(** ** A registration *)

Section Made.
Context {O : Type}.

(** The handler of a registration insists on a login exactly if its options
    require one and name no authenticator. *)
Definition insists (self : Register L I O) (opts : O) : Prop := auth O self opts = ([], true).

Lemma handler_made (self : Register L I O) opts h0 (opening : list ClientMsg) :
  handler self opts [] = Some (h0, opening) ->
  hstate h0 = SReq (caps O self opts) (auth O self opts).1 /\ (needs_auth h0 = true <-> insists self opts) /\ ends opening = 0 /\
  rcaps (reg h0) = [].
Proof.
  unfold handler, register_msgs, insists. set (sink0 := match password O self opts with Some pass => _ | None => _ end).
  assert (He0 : ends sink0 = 0) by (unfold sink0; by destruct (password O self opts)).
  destruct (_ ≫= _) as [[nick gen]|]; [|done]. destruct (auth O self opts) as [q b]. intros [= <- <-].
  split; [done|]. split. { cbn. by destruct q, b. } split; [|done].
  unfold sink_send, closure_sink, ends in *. rewrite !List.filter_app, !length_app, He0. cbn [List.filter].
  assert (K1 : is_cap_end ls_msg = false) by by vm_compute. rewrite K1. cbn. unfold is_cap_end. cbn [cmd user_msg nick_msg client_new_cmd].
  by rewrite !(bool_decide_false (_ = bs "CAP")).
Qed.

(** C7: Whatever the server sends to a client that registers with [Register], the
    client sends [CAP END] at most once, as the end of handling one message; and
    never if its options require a login and name no authenticator to log in
    with.  (With an authenticator the handler drops the requirement, so that
    [CAP END] may be sent without a login.) *)
Theorem cap_end_once (self : Register L I O) opts h0 opening ms r s' :
  handler self opts [] = Some (h0, opening) -> run ms (h0, opening) = Some (r, s') ->
  (ends s'.2 = 0 \/
   (ends s'.2 = 1 /\ ~ insists self opts /\
    exists m s1 s2, reached ms (h0, opening) m s1 (Ok None) s2 /\ ends s1.2 = 0 /\ ends s2.2 = 1)).
Proof.
  intros (Hst & Hn & He & _)%handler_made Hr. destruct (run_ends _ _ _ _ Hr) as [K|(K1 & _ & m & s1 & s2 & K2 & K3 & _)]; [left; cbn [snd] in K; lia|right].
  cbn [snd] in K1. rewrite He in K1. split; [done|]. split.
  - intros Hi. pose proof (run_locked ms (h0, opening) r s') as Hl. cbn [snd] in Hl. rewrite He in Hl.
    assert (Hlock : locked (h0, opening)). { split; [by apply Hn|]. right. left. exists (caps O self opts). cbn [fst]. by rewrite Hst, Hi. }
    specialize (Hl Hlock Hr). lia.
  - exists m, s1, s2. split; [done|]. destruct K2 as (ms1 & ms2 & -> & K4 & K5).
    assert (Hle : ends s1.2 = 0); [|lia]. destruct (run_ends _ _ _ _ K4) as [K|(K6 & _ & _)]; cbn [snd] in *; [lia|].
    rewrite He in K6. assert (Hrun : run (ms1 ++ m :: ms2) (h0, opening) = run (m :: ms2) s1).
    { clear -K4. revert K4. generalize (h0, opening). induction ms1 as [|m1 ms1 IH]; intros s; cbn [run app]; [by intros [= ->]|].
      destruct (handle m1 s) as [[[[v|]|e] s0]|]; try done. apply IH. }
    rewrite Hrun in Hr. cbn [run] in Hr. rewrite K5 in Hr. destruct (run_ends _ _ _ _ Hr) as [K|(K & _)]; lia.
Qed.

(** C8: A client that registers with [Register] is registered only at the end of a
    MOTD that comes after a welcome, and if its options require a login and name
    no authenticator, only with an account at the time of the welcome.  (With an
    authenticator the handler drops the requirement, and a registration may be
    completed without an account.) *)
Theorem completes_after_welcome (self : Register L I O) opts h0 opening ms v s' :
  handler self opts [] = Some (h0, opening) -> run ms (h0, opening) = Some (Ok (Some v), s') ->
  exists m s0 s1 mend s2,
    reached ms (h0, opening) m s0 (Ok None) s1 /\ welcome m /\
    (insists self opts -> is_Some (raccount (reg s0.1))) /\
    reached ms (h0, opening) mend s2 (Ok (Some v)) s' /\ motd_end mend.
Proof.
  intros (Hst & Hn & _ & _)%handler_made (mend & s2 & K1 & K2 & [K3|(m & s0 & s1 & K3 & K4 & K5)])%run_completes; [cbn [fst] in K3; congruence|].
  exists m, s0, s1, mend, s2. split; [done|]. split; [done|]. split; [|done]. intros Hi. apply K5. by apply Hn.
Qed.
End Made.
End Thms.
