(* ===== verification/Negotiate.v ===== *)
(** * Theorems on capability negotiation and nicks during registration

    What [Register.v] asks for, when it takes capabilities as acknowledged, how
    it goes through its nicks, what it saves, and that a server that grants what
    is asked for gets it to the end of registration. *)

From Stdlib Require Import Sorted.
From S2P Require Import Prelude Handlers Args Tags Numeric Source Strings Splitter Msg Names Sink Register RegisterThms.
From S2P Require FlatMap Queue State Replies Cap Auth Nick Base64.

(** ** Sets *)

Lemma elem_of_set_of l x : x ∈ set_of l <-> x ∈ l.
Proof.
  unfold set_of. assert (K : forall s, x ∈ foldl (fun s x => btree_insert x s) s l <-> x ∈ s \/ x ∈ l).
  { induction l as [|y l IH]; intros s; cbn [foldl]; [set_solver|]. rewrite IH, elem_of_btree_insert, elem_of_cons. tauto. }
  rewrite K. set_solver.
Qed.

Lemma elem_of_difference a b x : x ∈ difference a b <-> x ∈ a /\ x ∉ b.
Proof.
  unfold difference. rewrite !list_elem_of_In, filter_In, negb_true_iff, bool_decide_eq_false, <- !list_elem_of_In. done.
Qed.

Lemma elem_of_intersection a b x : x ∈ intersection a b <-> x ∈ a /\ x ∈ b.
Proof. unfold intersection. rewrite !list_elem_of_In, filter_In, bool_decide_eq_true, <- !list_elem_of_In. done. Qed.

Lemma elem_of_remove a y x : x ∈ remove y a <-> x ∈ a /\ x <> y.
Proof. unfold remove. rewrite !list_elem_of_In, filter_In, negb_true_iff, bool_decide_eq_false, <- !list_elem_of_In. done. Qed.

Section Thms.
Context {L : Type} `{Auth.SaslLogic L} {E : Type} `{Base64.Engine E} {I : Type} `{Nick.NickIterator I}
  {Sink : Type} `{ClientMsgSink Sink}.
Abbreviation M := (M (L := L) (I := I) (Sink := Sink)).

(** ** Asking *)

(** The authenticators that are left once the server's mechanisms are known. *)
Definition usable (r : Registration) (auths : Auth.SaslQueue L) : Auth.SaslQueue L :=
  match get_union_raw (rcaps r) SASL with
  | Some e => match sasl_mechs e.2 with Some mechs => Auth.queue_retain (fun mech => bool_decide (mech ∈ mechs)) auths | None => auths end
  | None => Auth.queue_clear auths
  end.

(** What is wanted of the capabilities [avail]. *)
Definition wanted (reqs : CapFn) (avail : list (list byte)) (auths : Auth.SaslQueue L) (c : list byte) : Prop :=
  c ∈ reqs avail \/ (c = SASL /\ auths <> []).

Definition with_state (st : HandlerState L) (h : Handler L I) : Handler L I := mkHandler (nicks h) st (needs_auth h) (reg h).

Lemma ls_last_spec h sink reqs auths :
  hstate h = SReq reqs auths ->
  let avail := set_of (keys (rcaps (reg h))) in
  let auths' := usable (reg h) auths in
  exists r h' sink', ls_last (h, sink) = Some (r, (h', sink')) /\
  match r with
  | Ok _ =>
      (needs_auth h = true -> auths' <> []) /\ (forall c, wanted reqs avail auths' c -> c ∈ avail) /\
      exists asked, (forall c, c ∈ asked <-> wanted reqs avail auths' c /\ c <> STS) /\
        ((asked = [] /\ sink' = sink /\ h' = with_state SCapEnd h) \/
         (asked <> [] /\ sink' = Cap.req asked (Some (rnick (reg h))) (rsource (reg h)) sink /\
          h' = with_state (SAck asked auths') h))
  | Err NoLogin => needs_auth h = true /\ auths' = []
  | Err (MissingCaps d) =>
      (needs_auth h = true -> auths' <> []) /\ d <> [] /\ forall c, c ∈ d <-> wanted reqs avail auths' c /\ c ∉ avail
  | Err _ => False
  end.
Proof.
  intros Hst. cbv zeta. unfold ls_last, bind, get, put_state. cbn [fst snd]. rewrite Hst.
  assert (Hu : match (fun e => sasl_mechs e.2) <$> get_union_raw (rcaps (reg h)) SASL with
    | Some (Some mechs) => ret (Auth.queue_retain (fun mech => bool_decide (mech ∈ mechs)) auths)
    | Some None => panic
    | None => ret (Auth.queue_clear auths)
    end = ret (usable (reg h) auths) :> M _).
  { unfold usable. destruct (get_union_raw _ _) as [e|]; [|done]. cbn [fmap option_fmap option_map].
    by destruct (sasl_mechs_spec e.2) as (names & -> & _). }
  rewrite Hu. unfold ret at 1. set (auths' := usable (reg h) auths). set (avail := set_of (keys (rcaps (reg h)))).
  set (reqs' := if negb (Auth.queue_is_empty auths') then _ else _).
  assert (Hr : (auths' = [] /\ needs_auth h = true /\ reqs' = throw NoLogin) \/
    (needs_auth h = true -> auths' <> []) /\ exists w, reqs' = ret w /\ forall c, c ∈ w <-> wanted reqs avail auths' c).
  { unfold reqs', wanted. destruct auths' as [|a l]; cbn [Auth.queue_is_empty negb].
    - destruct (needs_auth h); [by left|right]. split; [done|]. eexists. split; [done|]. naive_solver.
    - right. split; [done|]. eexists. split; [done|]. intros c. rewrite elem_of_btree_insert. naive_solver. }
  destruct Hr as [(Ha & Hn & ->)|(Hlog & w & -> & Hw)].
  { do 3 eexists. split; [unfold throw; reflexivity|]. done. }
  unfold ret at 1. case_bool_decide as Hd; cbn [negb].
  - assert (Hall : forall c, wanted reqs avail auths' c -> c ∈ avail).
    { intros c Hc. destruct (decide (c ∈ avail)) as [|Hn]; [done|]. assert (Hin : c ∈ difference w avail).
      { apply elem_of_difference. by rewrite Hw. }
      rewrite Hd in Hin. by apply elem_of_nil in Hin. }
    assert (Hask : forall c, c ∈ remove STS w <-> wanted reqs avail auths' c /\ c <> STS) by by intros c; rewrite elem_of_remove, Hw.
    destruct (remove STS w) as [|a l] eqn:Hrem.
    + do 3 eexists. split; [reflexivity|]. do 2 (split; [done|]). exists []. split; [done|]. left. by destruct h.
    + do 3 eexists. split; [reflexivity|]. do 2 (split; [done|]). exists (a :: l). split; [done|]. right. by destruct h.
  - do 3 eexists. split; [unfold throw; reflexivity|]. do 2 (split; [done|]). intros c. by rewrite elem_of_difference, Hw.
Qed.

(** C21: When the last line of the capability list is there, registration fails
    for want of a login if and only if the handler requires one and no
    authenticator is left, and else, if some of what is wanted is not available,
    with exactly these capabilities; wanted is what the capability function
    requires, and [sasl] if an authenticator is left.  Otherwise what is asked
    for is what is wanted but for [sts], and with nothing to ask for negotiation
    is over. *)
Theorem negotiate h sink reqs auths :
  hstate h = SReq reqs auths ->
  let avail := set_of (keys (rcaps (reg h))) in
  let auths' := usable (reg h) auths in
  exists r h' sink', ls_last (h, sink) = Some (r, (h', sink')) /\
  match r with
  | Ok _ =>
      (needs_auth h = true -> auths' <> []) /\ (forall c, wanted reqs avail auths' c -> c ∈ avail) /\
      exists asked, (forall c, c ∈ asked <-> wanted reqs avail auths' c /\ c <> STS) /\
        ((asked = [] /\ sink' = sink /\ h' = with_state SCapEnd h) \/
         (asked <> [] /\ sink' = Cap.req asked (Some (rnick (reg h))) (rsource (reg h)) sink /\
          h' = with_state (SAck asked auths') h))
  | Err NoLogin => needs_auth h = true /\ auths' = []
  | Err (MissingCaps d) =>
      (needs_auth h = true -> auths' <> []) /\ d <> [] /\ forall c, c ∈ d <-> wanted reqs avail auths' c /\ c ∉ avail
  | Err _ => False
  end.
Proof. apply ls_last_spec. Qed.

(** ** Acknowledgements *)

(** What is still to be acknowledged. *)
Definition pending (asked : list (list byte)) (cs : list Cap.BTreeMap) : list (list byte) :=
  foldl (fun a c => difference a c.*1) asked cs.

Lemma elem_of_pending asked cs x : x ∈ pending asked cs <-> x ∈ asked /\ Forall (fun c : Cap.BTreeMap => x ∉ c.*1) cs.
Proof.
  unfold pending. revert asked. induction cs as [|c cs IH]; intros asked; cbn [foldl].
  - split; [by split|by intros []].
  - rewrite IH, elem_of_difference, Forall_cons. tauto.
Qed.

(** Where the handler goes when nothing is pending, and what it sends then. *)
Definition acked_state (queue : Auth.SaslQueue L) : HandlerState L :=
  match queue with [] => SCapEnd | l :: q => SSasl (Auth.new l q) end.
Definition acked_msgs (queue : Auth.SaslQueue L) : list ClientMsg :=
  match queue with [] => [] | l :: q => [Auth.auth_msg (Auth.new l q)] end.

Lemma ack_spec h sink ackd queue caps :
  hstate h = SAck ackd queue ->
  ack true caps (h, sink) = Some (Ok (),
    match difference ackd caps.*1 with
    | [] => (with_state (acked_state queue) h, send_all sink (acked_msgs queue))
    | rest => (with_state (SAck rest queue) h, sink)
    end).
Proof.
  intros Hst. unfold ack, bind, get. cbn [fst]. rewrite Hst. cbv zeta. cbn [negb andb].
  destruct (difference ackd caps.*1) as [|x l]; [|by destruct h]. by destruct queue as [|l q], h.
Qed.

Lemma nak_spec h sink ackd queue caps :
  hstate h = SAck ackd queue -> ackd <> [] ->
  ack false caps (h, sink) =
    match intersection ackd caps.*1 return option (result () HandlerError * (Handler L I * Sink)) with
    | [] => Some (Ok (), (h, sink))
    | missing => Some (Err (MissingCaps missing), (h, sink))
    end.
Proof.
  intros Hst Hne. unfold ack, bind, get. cbn [fst]. rewrite Hst. cbv zeta. cbn [negb andb].
  destruct (intersection ackd caps.*1) as [|x l]; [|done]. cbn [negb bool_decide].
  rewrite bool_decide_true by done. cbn [negb]. destruct ackd as [|y a]; [done|]. destruct h. cbn in Hst. by subst.
Qed.

Fixpoint ack_all (cs : list Cap.BTreeMap) : M () :=
  match cs with [] => ret () | c :: cs => bind (ack true c) (fun _ => ack_all cs) end.

Lemma ack_all_done cs (h : Handler L I) (sink : Sink) : (forall a q, hstate h <> SAck a q) -> ack_all cs (h, sink) = Some (Ok (), (h, sink)).
Proof.
  intros Hst. induction cs as [|c cs IH]; [done|]. cbn [ack_all]. unfold bind at 1.
  assert (Ha : ack true c (h, sink) = Some (Ok (), (h, sink))).
  { unfold ack, bind, get. cbn [fst]. destruct (hstate h) eqn:Hh; try done. by destruct (Hst caps queue). }
  by rewrite Ha.
Qed.

Lemma acked_state_no_ack queue a q : acked_state queue <> SAck a q.
Proof. by destruct queue. Qed.

Lemma ack_all_spec cs (h : Handler L I) (sink : Sink) asked queue :
  hstate h = SAck asked queue -> cs <> [] ->
  ack_all cs (h, sink) = Some (Ok (),
    match pending asked cs with
    | [] => (with_state (acked_state queue) h, send_all sink (acked_msgs queue))
    | rest => (with_state (SAck rest queue) h, sink)
    end).
Proof.
  revert h sink asked. induction cs as [|c cs IH]; intros h sink asked Hst Hne; [done|].
  cbn [ack_all]. unfold bind. rewrite (ack_spec h sink asked queue c Hst). cbn [pending foldl]. fold (pending (difference asked c.*1) cs).
  destruct (difference asked c.*1) as [|x l] eqn:Hd.
  - assert (Hp : pending [] cs = []) by (clear; induction cs; [done|]; cbn [pending foldl] in *; done).
    rewrite Hp, ack_all_done; [done|]. intros a q. apply acked_state_no_ack.
  - destruct cs as [|c' cs]; [done|]. by rewrite (IH (with_state (SAck (x :: l) queue) h) sink (x :: l) eq_refl).
Qed.

(** Whatever lines the server acknowledges capabilities in, the handler goes
    on exactly when every one it asked for was acknowledged: to the first
    authenticator, if one is left, or else to the end of the negotiation. *)
Theorem acks_complete cs (h : Handler L I) (sink : Sink) asked queue :
  hstate h = SAck asked queue -> cs <> [] ->
  exists h' sink', ack_all cs (h, sink) = Some (Ok (), (h', sink')) /\
    (((forall x, x ∈ asked -> exists c, c ∈ cs /\ x ∈ c.*1) /\
      hstate h' = acked_state queue /\ sink' = send_all sink (acked_msgs queue)) \/
     (exists rest, rest <> [] /\ (forall x, x ∈ rest <-> x ∈ asked /\ Forall (fun c : Cap.BTreeMap => x ∉ c.*1) cs) /\
      hstate h' = SAck rest queue /\ sink' = sink)).
Proof.
  intros Hst Hne. rewrite (ack_all_spec cs h sink asked queue Hst Hne).
  pose proof (fun x => elem_of_pending asked cs x) as Hp. destruct (pending asked cs) as [|y l]; do 2 eexists; (split; [done|]).
  - left. split; [|done]. intros x Hx. destruct (decide (Exists (fun c : Cap.BTreeMap => x ∈ c.*1) cs)) as [He|He].
    + by apply Exists_exists in He.
    + exfalso. apply (not_elem_of_nil x), Hp. split; [done|]. by apply not_Exists_Forall in He; [|apply _].
  - right. by exists (y :: l).
Qed.

(** A rejection, or the loss, of capabilities fails registration exactly if
    one that was asked for and is not acknowledged is among them; the error
    names these. *)
Theorem nak_missing (h : Handler L I) (sink : Sink) ackd queue caps :
  hstate h = SAck ackd queue -> ackd <> [] ->
  (ack false caps (h, sink) = Some (Ok (), (h, sink)) /\ (forall x, x ∈ ackd -> x ∉ caps.*1)) \/
  (exists missing, ack false caps (h, sink) = Some (Err (MissingCaps missing), (h, sink)) /\ missing <> [] /\
     forall x, x ∈ missing <-> x ∈ ackd /\ x ∈ caps.*1).
Proof.
  intros Hst Hne. rewrite (nak_spec h sink ackd queue caps Hst Hne).
  pose proof (fun x => elem_of_intersection ackd caps.*1 x) as Hi. destruct (intersection ackd caps.*1) as [|y l].
  - left. split; [done|]. intros x Hx Hc. by apply (not_elem_of_nil x), Hi.
  - right. by exists (y :: l).
Qed.
End Thms.

(** ** One message at a time *)

Section Steps.
Context {L : Type} `{Auth.SaslLogic L} {E : Type} `{Base64.Engine E} {I : Type} `{Nick.NickIterator I}.
Abbreviation St := (Handler L I * list ClientMsg)%type.

(** A message whose source is what a parser gives, if it has one, and that is
    not a ping. *)
Definition plain_msg (m : ServerMsg) : Prop :=
  (forall s, source m = Some s -> source_wf s) /\ kind m <> KCmd (bs "PING").

Definition learned (m : ServerMsg) (h : Handler L I) : Handler L I :=
  match rsource (reg h), source m with
  | None, Some s => mkHandler (nicks h) (hstate h) (needs_auth h) (set_source (Some s) (reg h))
  | _, _ => h
  end.

Lemma learned_spec m (h : Handler L I) :
  nicks (learned m h) = nicks h /\ hstate (learned m h) = hstate h /\ needs_auth (learned m h) = needs_auth h /\
  rnick (reg (learned m h)) = rnick (reg h) /\ rcaps (reg (learned m h)) = rcaps (reg h).
Proof. unfold learned. by destruct (rsource (reg h)), (source m). Qed.

Lemma handle_plain m (h : Handler L I) (sink : list ClientMsg) :
  plain_msg m ->
  handle m (h, sink) =
    bind (handle_sasl m) (fun ignore => bind (handle_kind m ignore)
      (fun f => match f with Return r => ret r | Value r => finish r end)) (learned m h, sink).
Proof.
  intros [Hs Hp]. unfold handle, learned. unfold bind at 1 2, get. cbn [fst].
  assert (Hpong : forall h', bind (with_sink (Replies.pong m)) (fun ponged => if ponged then ret None
      else bind (handle_sasl m) (fun ignore => bind (handle_kind m ignore)
        (fun f => match f with Return r => ret r | Value r => finish r end))) (h', sink) =
    bind (handle_sasl m) (fun ignore => bind (handle_kind m ignore)
        (fun f => match f with Return r => ret r | Value r => finish r end)) (h' : Handler L I, sink)).
  { intros h'. unfold bind at 1, with_sink, Replies.pong, Replies.is_cmd. cbn [snd fst].
    rewrite bool_decide_false by done. done. }
  destruct (rsource (reg h)); [apply Hpong|]. destruct (source m) as [s|]; [|apply Hpong].
  unfold bind at 1. rewrite owning_merged_id by by apply Hs. unfold unwrap, ret at 1, modify_reg at 1. cbn [fst snd]. apply Hpong.
Qed.

(** States in which no authenticator runs and none is done. *)
Definition waiting (st : HandlerState L) : Prop :=
  match st with SReq _ _ | SAck _ _ | SAwaitWelcome | SAwaitEnd => True | _ => False end.

Lemma handle_waiting m (h : Handler L I) (sink : list ClientMsg) :
  plain_msg m -> waiting (hstate h) ->
  handle m (h, sink) =
    bind (handle_kind m false) (fun f => match f with Return r => ret r | Value r => finish r end) (learned m h, sink).
Proof.
  intros Hm Hw. rewrite handle_plain by done. unfold bind at 1, handle_sasl, bind at 1, get. cbn [fst].
  destruct (learned_spec m h) as (_ & -> & _). by destruct (hstate h).
Qed.

Lemma finish_waiting r (h : Handler L I) (sink : list ClientMsg) : waiting (hstate h) -> finish r (h, sink) = Some (Ok r, (h, sink)).
Proof. intros Hw. unfold finish, bind, get. cbn [fst]. by destruct (hstate h). Qed.

(** ** Nicks *)

(** A message that the nick is in use, and one that it is refused for this or
    for being invalid. *)
Definition collision (m : ServerMsg) : Prop := plain_msg m /\ as_arg (kind m) ∈ [bs "433"; bs "436"].
Definition refusal (m : ServerMsg) : Prop := plain_msg m /\ as_arg (kind m) ∈ [bs "432"; bs "433"; bs "436"].
Definition invalid_nick (m : ServerMsg) : bool := bool_decide (as_arg (kind m) = bs "432").

(** What refusals make of a generator [g], the nick last offered being [cur]:
    the nicks offered in turn, and whether there was none left in the end;
    [None] is a panic of the generator.  After an invalid nick the generator is
    told which one that was, and what it leaves is gone on with. *)
Fixpoint offers (ms : list ServerMsg) (g : option (Nick.NickGen I)) (cur : list byte) : option (list (list byte) * bool) :=
  match ms with
  | [] => Some ([], false)
  | m :: ms =>
      match (if invalid_nick m then match g with Some g => Nick.handle_invalid g cur | None => Some None end else Some g) with
      | None => None
      | Some None => Some ([], true)
      | Some (Some g) =>
          match Nick.next_nick g with
          | None => None
          | Some (n, g) => match offers ms g n with Some (l, out) => Some (n :: l, out) | None => None end
          end
      end
  end.

(** Deciding which branch a known kind takes. *)
Ltac known_kind Hk :=
  unfold handle_kind; unfold bind at 1, get; cbv zeta; cbn [fst]; rewrite !Hk;
  repeat match goal with
    | |- context [bool_decide (?x ∈ ?l)] =>
        let b := eval vm_compute in (bool_decide (x ∈ l)) in
        replace (bool_decide (x ∈ l)) with b by (vm_compute; reflexivity)
    end;
  cbn [andb].

Lemma kind_collision m b (h : Handler L I) (sink : list ClientMsg) :
  as_arg (kind m) = bs "433" \/ as_arg (kind m) = bs "436" ->
  handle_kind m b (h, sink) = bind next_nick (fun _ => ret (Value None)) (h : Handler L I, sink).
Proof. by intros [Hk|Hk]; known_kind Hk. Qed.

Lemma kind_invalid m b (h : Handler L I) (sink : list ClientMsg) :
  as_arg (kind m) = bs "432" -> handle_kind m b (h, sink) = handle_432 (h : Handler L I, sink).
Proof. intros Hk. by known_kind Hk. Qed.

(** The generator a refusal goes on with. *)
Definition after_refusal (m : ServerMsg) (h : Handler L I) : option (option (Nick.NickGen I)) :=
  if invalid_nick m then match nicks h with Some g => Nick.handle_invalid g (rnick (reg h)) | None => Some None end else Some (nicks h).

Lemma handle_refusal m (h : Handler L I) (sink : list ClientMsg) :
  refusal m -> waiting (hstate h) ->
  match after_refusal m h with
  | None => handle m (h, sink) = None
  | Some None => exists h', handle m (h, sink) = Some (Err NoNicks, (h', sink))
  | Some (Some g) =>
      match Nick.next_nick g with
      | None => handle m (h, sink) = None
      | Some (n, g') =>
          exists h', handle m (h, sink) = Some (Ok None, (h', sink ++ [nick_msg n])) /\
            nicks h' = g' /\ hstate h' = hstate h /\ rnick (reg h') = n
      end
  end.
Proof.
  intros [Hm Hk] Hw. rewrite handle_waiting by done. destruct (learned_spec m h) as (Hn & Hst & _ & Hr & _).
  unfold after_refusal, invalid_nick. rewrite <- Hn, <- Hr. rewrite <- Hst in Hw |- *. set (h1 := learned m h) in *. clearbody h1.
  rewrite !elem_of_cons, elem_of_nil in Hk. unfold bind. case_bool_decide as Hi.
  - rewrite (kind_invalid m _ h1 sink Hi). unfold handle_432, bind, get, put_nicks, unwrap. cbn [fst snd].
    destruct (nicks h1) as [g|]; [destruct (Nick.handle_invalid g (rnick (reg h1))) as [[g1|]|]|]; try by eexists.
    unfold ret at 1, next_nick, bind, get. cbn. destruct (Nick.next_nick g1) as [[n g']|]; [|done]. cbn.
    exists (mkHandler g' (hstate h1) (needs_auth h1) (set_nick n (reg h1))). split; [by destruct (hstate h1)|done].
  - rewrite kind_collision by tauto. unfold bind, next_nick, get, bind. cbn [fst]. destruct (nicks h1) as [g|]; [|by eexists].
    cbn. destruct (Nick.next_nick g) as [[n g']|]; [|done]. cbn.
    exists (mkHandler g' (hstate h1) (needs_auth h1) (set_nick n (reg h1))). split; [by destruct (hstate h1)|done].
Qed.

(** The handler does with refusals what [offers] says. *)
Lemma run_offers ms (h : Handler L I) (sink : list ClientMsg) :
  Forall refusal ms -> waiting (hstate h) ->
  match offers ms (nicks h) (rnick (reg h)) with
  | None => run ms (h, sink) = None
  | Some (l, out) =>
      exists h', run ms (h, sink) = Some (if out then Err NoNicks else Ok None, (h' : Handler L I, sink ++ (nick_msg <$> l))) /\
        (out = false -> hstate h' = hstate h /\ rnick (reg h') = default (rnick (reg h)) (list.last l))
  end.
Proof.
  intros Hms. revert h sink. induction Hms as [|m ms Hm _ IH]; intros h sink Hw; cbn [offers run].
  { exists h. by rewrite fmap_nil, app_nil_r. }
  pose proof (handle_refusal m h sink Hm Hw) as Hh. unfold after_refusal in Hh. destruct (if invalid_nick m then _ else _) as [[g|]|].
  - destruct (Nick.next_nick g) as [[n g']|]; [|by rewrite Hh]. destruct Hh as (h1 & -> & <- & Hst & <-). rewrite <- Hst in Hw.
    specialize (IH h1 (sink ++ [nick_msg (rnick (reg h1))]) Hw). destruct (offers ms (nicks h1) (rnick (reg h1))) as [[l out]|]; [|done].
    destruct IH as (h2 & Hrun & Hend). exists h2. rewrite Hrun, <- app_assoc. split; [done|]. intros [K1 K2]%Hend.
    split; [congruence|]. rewrite K2, last_cons. by destruct (list.last l).
  - destruct Hh as (h1 & ->). exists h1. by rewrite fmap_nil, app_nil_r.
  - by rewrite Hh.
Qed.

(** While nicks are in use, what is offered is what the generator yields. *)
Lemma offers_yields g l ms cur :
  Nick.yields g l -> Forall collision ms -> offers ms (Some g) cur = Some (take (length ms) l, bool_decide (length l < length ms)).
Proof.
  assert (Hc : forall m, collision m -> invalid_nick m = false).
  { intros m [_ Hk]. unfold invalid_nick. apply bool_decide_eq_false. intros Hi. rewrite Hi, !elem_of_cons, elem_of_nil in Hk.
    destruct Hk as [Hk|[Hk|[]]]; vm_compute in Hk; discriminate Hk. }
  intros Hy. revert ms cur. induction Hy as [g n Hg|g n g' ns Hg Hy IH]; intros ms cur Hms; destruct Hms as [|m ms Hm Hms]; try done;
    cbn [offers length take]; rewrite (Hc m Hm), Hg.
  - destruct Hms as [|m' ms Hm' Hms]; [done|]. cbn [offers]. by rewrite (Hc m' Hm').
  - rewrite (IH ms n Hms). do 2 f_equal. apply bool_decide_ext. cbn. lia.
Qed.


(** ** A whole handshake *)

(** A [CAP] message and what it parses to. *)
Definition cap_line (sub : Cap.SubCmd) (last : bool) (m : ServerMsg) (caps : Cap.BTreeMap) : Prop :=
  plain_msg m /\ as_arg (kind m) = bs "CAP" /\
  exists n, Cap.parse (sargs m) = Some (Ok (Cap.mkCapArgs n sub last caps)).

(** The capabilities known after a list of them, and after several. *)
Definition offered (known : NameMap (list byte * list byte) bool) (caps : Cap.BTreeMap) : NameMap (list byte * list byte) bool :=
  FlatMap.guard_drop extract_key (foldl (fun g e => (try_insert g e false).2) (edit known) caps).
Definition listed (known : NameMap (list byte * list byte) bool) (lists : list Cap.BTreeMap) : NameMap (list byte * list byte) bool :=
  foldl offered known lists.

(** A message the handler does nothing about while it waits. *)
Definition idle_msg (m : ServerMsg) : Prop :=
  plain_msg m /\ is_error (kind m) <> Some true /\
  as_arg (kind m) ∉ [bs "001"; bs "004"; bs "005"; bs "010"; bs "376"; bs "422"; bs "432"; bs "433"; bs "436";
    bs "464"; bs "465"; bs "900"; bs "901"; bs "CAP"].

(** A message that may come after the welcome. *)
Definition greeting_msg (m : ServerMsg) : Prop :=
  idle_msg m \/ (plain_msg m /\ (as_arg (kind m) = bs "004" \/ as_arg (kind m) = bs "005")).

(** The messages [l], with idle ones before and between them. *)
Inductive among : list ServerMsg -> list ServerMsg -> Prop :=
| among_nil : among [] []
| among_msg m l ms : among l ms -> among (m :: l) (m :: ms)
| among_idle m l ms : idle_msg m -> among l ms -> among l (m :: ms).

Lemma among_refl l : among l l.
Proof. induction l; by constructor. Qed.

Lemma kind_cap m b (h : Handler L I) (sink : list ClientMsg) :
  as_arg (kind m) = bs "CAP" ->
  handle_kind m b (h, sink) = bind (handle_cap m) (fun _ => ret (Value None)) (h, sink).
Proof. intros Hk. known_kind Hk. done. Qed.

Lemma try_insert_all_spec caps (h : Handler L I) (sink : list ClientMsg) :
  try_insert_all caps (h, sink) =
    Some (Ok (), (mkHandler (nicks h) (hstate h) (needs_auth h) (set_caps (offered (rcaps (reg h)) caps) (reg h)), sink)).
Proof. done. Qed.

Lemma insert_all_spec caps (h : Handler L I) (sink : list ClientMsg) :
  exists r, insert_all caps (h, sink) = Some (Ok (), (mkHandler (nicks h) (hstate h) (needs_auth h) r, sink)) /\
    rnick r = rnick (reg h).
Proof. by eexists. Qed.

Lemma usable_nil r : usable (L := L) r [] = [].
Proof. unfold usable. destruct (get_union_raw _ _) as [e|]; [|done]. by destruct (sasl_mechs _). Qed.

Lemma ls_last_no_auth (h : Handler L I) (sink : list ClientMsg) reqs :
  hstate h = SReq reqs [] -> needs_auth h = false ->
  let avail := set_of (keys (rcaps (reg h))) in
  (forall c, c ∈ reqs avail -> c ∈ avail) ->
  exists h' sink' asked, ls_last (h, sink) = Some (Ok (), (h', sink')) /\
    (forall c, c ∈ asked <-> c ∈ reqs avail /\ c <> STS) /\
    ((asked = [] /\ sink' = sink /\ h' = with_state SCapEnd h) \/
     (asked <> [] /\ sink' = Cap.req asked (Some (rnick (reg h))) (rsource (reg h)) sink /\ h' = with_state (SAck asked []) h)).
Proof.
  intros Hst Hn avail Hr. destruct (ls_last_spec h sink reqs [] Hst) as (r & h' & sink' & Hl & Hcase). fold avail in Hcase.
  rewrite usable_nil in Hcase.
  assert (Hw : forall c, wanted (L := L) reqs avail [] c <-> c ∈ reqs avail) by (unfold wanted; naive_solver).
  destruct r as [[]|[]]; try done.
  - destruct Hcase as (_ & _ & asked & Ha & Hcase). exists h', sink', asked. split; [done|]. split; [|done].
    intros c. by rewrite Ha, Hw.
  - destruct Hcase as [Hc _]. congruence.
  - destruct Hcase as (_ & Hne & Hd). destruct caps as [|c l]; [done|].
    destruct (proj1 (Hd c) ltac:(by left)) as [Hc%Hw Hnc]. by destruct Hnc; apply Hr.
Qed.

(** The end of the negotiation. *)
Lemma finish_cap_end r (h : Handler L I) (sink : list ClientMsg) :
  hstate h = SCapEnd -> needs_auth h = false ->
  finish r (h, sink) = Some (Ok r, (with_state SAwaitWelcome h, sink ++ [cap_end_msg])).
Proof. intros Hst Hn. unfold finish, bind, get. cbn [fst]. rewrite Hst, Hn. by destruct h. Qed.

Lemma handle_ls m reqs caps (h : Handler L I) (sink : list ClientMsg) :
  cap_line Cap.Ls true m caps -> hstate h = SReq reqs [] -> needs_auth h = false ->
  let avail := set_of (keys (offered (rcaps (reg h)) caps)) in
  (forall c, c ∈ reqs avail -> c ∈ avail) ->
  exists h' sink' asked, handle m (h, sink) = Some (Ok None, (h', sink')) /\ needs_auth h' = false /\
    (forall c, c ∈ asked <-> c ∈ reqs avail /\ c <> STS) /\
    ((asked = [] /\ hstate h' = SAwaitWelcome /\ sink' = sink ++ [cap_end_msg]) \/
     (asked <> [] /\ hstate h' = SAck asked [] /\
      sink' = Cap.req asked (Some (rnick (reg h))) (rsource (reg (learned m h))) sink)).
Proof.
  intros (Hm & Hk & n & Hp) Hst Hn avail Hr. rewrite handle_waiting by (done || by rewrite Hst).
  destruct (learned_spec m h) as (_ & Hst1 & Hn1 & Hr1 & Hc1). rewrite Hst in Hst1. rewrite Hn in Hn1. rewrite <- Hr1. clear Hr1.
  subst avail. rewrite <- Hc1 in Hr |- *. clear Hc1. set (h1 := learned m h) in *. clearbody h1. unfold bind at 1. rewrite kind_cap by done.
  unfold bind at 1, handle_cap, bind at 1. rewrite Hp. unfold unwrap, ret at 1. cbn [Cap.subcmd Cap.caps Cap.is_last].
  unfold bind at 1. rewrite try_insert_all_spec.
  set (h2 := mkHandler (nicks h1) (hstate h1) (needs_auth h1) _).
  destruct (ls_last_no_auth h2 sink reqs Hst1 Hn1 Hr) as (h3 & sink' & asked & -> & Ha & Hc). unfold ret at 1.
  destruct Hc as [(Hasked & -> & ->)|(Hasked & -> & ->)].
  - rewrite finish_cap_end by done. do 3 eexists. split; [done|]. split; [done|]. split; [exact Ha|]. by left.
  - rewrite finish_waiting by done. do 3 eexists. split; [done|]. split; [done|]. split; [exact Ha|]. by right.
Qed.

(** A line of the list that is not the last one. *)
Lemma handle_ls_more m reqs queue caps (h : Handler L I) (sink : list ClientMsg) :
  cap_line Cap.Ls false m caps -> hstate h = SReq reqs queue -> needs_auth h = false ->
  exists h', handle m (h, sink) = Some (Ok None, (h', sink)) /\ hstate h' = SReq reqs queue /\ needs_auth h' = false /\
    rcaps (reg h') = offered (rcaps (reg h)) caps.
Proof.
  intros (Hm & Hk & n & Hp) Hst Hn. rewrite handle_waiting by (done || by rewrite Hst).
  destruct (learned_spec m h) as (_ & Hst1 & Hn1 & _ & Hc1). rewrite Hst in Hst1. rewrite Hn in Hn1. rewrite <- Hc1. clear Hc1.
  set (h1 := learned m h) in *. clearbody h1. unfold bind at 1. rewrite kind_cap by done.
  unfold bind at 1, handle_cap, bind at 1. rewrite Hp. unfold unwrap, ret at 1. cbn [Cap.subcmd Cap.caps Cap.is_last].
  unfold bind at 1. rewrite try_insert_all_spec. unfold ret at 1 2. rewrite finish_waiting by (cbn [hstate]; by rewrite Hst1).
  by eexists.
Qed.

(** What an idle message, and one after the welcome, leave as it was. *)
Lemma kind_idle m (h : Handler L I) (sink : list ClientMsg) :
  idle_msg m -> needs_auth h = false -> handle_kind m false (h, sink) = Some (Ok (Value None), (h, sink)).
Proof.
  intros (_ & He & Hk) Hn. rewrite !not_elem_of_cons in Hk. destruct_and! Hk.
  unfold handle_kind, bind at 1, get. cbv zeta. cbn [fst]. rewrite Hn, !andb_false_r, (bool_decide_false (_ = Some true)) by done.
  repeat rewrite (bool_decide_false (as_arg (kind m) ∈ _)) by (rewrite ?not_elem_of_cons; split_and?; (done || apply not_elem_of_nil)).
  cbn [andb]. done.
Qed.

Lemma handle_idle m (h : Handler L I) (sink : list ClientMsg) :
  idle_msg m -> waiting (hstate h) -> needs_auth h = false -> handle m (h, sink) = Some (Ok None, (learned m h, sink)).
Proof.
  intros Hi Hw Hn. destruct (learned_spec m h) as (_ & Hst1 & Hn1 & _). rewrite handle_waiting by (done || apply Hi).
  unfold bind. rewrite kind_idle by (done || congruence). apply finish_waiting. by rewrite Hst1.
Qed.

Lemma handle_greeting m (h : Handler L I) (sink : list ClientMsg) :
  greeting_msg m -> hstate h = SAwaitEnd -> needs_auth h = false ->
  exists h', handle m (h, sink) = Some (Ok None, (h', sink)) /\ hstate h' = SAwaitEnd /\ needs_auth h' = false.
Proof.
  intros Hm Hst Hn. destruct (learned_spec m h) as (_ & Hst1 & Hn1 & _). rewrite Hst in Hst1. rewrite Hn in Hn1.
  destruct Hm as [Hm|[Hm Hk]]; [exists (learned m h); rewrite handle_idle by (done || by rewrite Hst); by split|].
  rewrite handle_waiting by (done || by rewrite Hst). set (h1 := learned m h) in *. clearbody h1. unfold bind at 1.
  destruct Hk as [Hk|Hk]; known_kind Hk; rewrite ?Hn1, Hst1; cbn [andb is_await_end].
  - unfold bind, modify_reg, ret. cbn [fst snd]. rewrite finish_waiting by (cbn [hstate]; by rewrite Hst1). by eexists.
  - destruct (words (sargs m)); unfold bind, modify_reg, ret; cbn [fst snd]; [by exists h1|].
    rewrite finish_waiting by (cbn [hstate]; by rewrite Hst1). by eexists.
Qed.

(** Idle messages are skipped. *)
Lemma run_among m l ms rest (h : Handler L I) (sink : list ClientMsg) :
  among (m :: l) ms -> waiting (hstate h) -> needs_auth h = false ->
  exists h' ms', run (ms ++ rest) (h, sink) = run (m :: ms' ++ rest) (h', sink) /\ among l ms' /\
    hstate h' = hstate h /\ needs_auth h' = false /\ rcaps (reg h') = rcaps (reg h).
Proof.
  intros Ha. remember (m :: l) as l0 eqn:Hl. revert h Hl. induction Ha as [|m' l' ms' Ha _|m' l' ms' Hi _ IH]; intros h Hl Hw Hn; [done|..].
  - injection Hl as -> ->. by exists h, ms'.
  - destruct (learned_spec m' h) as (_ & Hst1 & Hn1 & _ & Hc1).
    destruct (IH (learned m' h) Hl) as (h' & ms & K1 & K2 & K3 & K4 & K5); [by rewrite Hst1|by rewrite Hn1|].
    exists h', ms. cbn [app run]. rewrite (handle_idle m' h sink Hi Hw Hn). split_and!; [exact K1|done|congruence|done|congruence].
Qed.

Lemma among_nil_idle ms : among [] ms -> Forall idle_msg ms.
Proof. intros Ha. remember [] as l eqn:Hl. induction Ha as [| |m l ms Hi _ IH]; [constructor|done|]. constructor; [done|]. by apply IH. Qed.

Lemma run_greetings ms rest (h : Handler L I) (sink : list ClientMsg) :
  Forall greeting_msg ms -> hstate h = SAwaitEnd -> needs_auth h = false ->
  exists h', run (ms ++ rest) (h, sink) = run rest (h', sink) /\ hstate h' = SAwaitEnd /\ needs_auth h' = false.
Proof.
  intros Hms. revert h. induction Hms as [|m ms Hm _ IH]; intros h Hst Hn; [by exists h|]. cbn [app run].
  destruct (handle_greeting m h sink Hm Hst Hn) as (h1 & -> & Hst1 & Hn1). by apply IH.
Qed.

Lemma handle_ack m b c asked (h : Handler L I) (sink : list ClientMsg) :
  cap_line Cap.Ack b m c -> hstate h = SAck asked [] -> needs_auth h = false ->
  exists h' sink', handle m (h, sink) = Some (Ok None, (h', sink')) /\ needs_auth h' = false /\
    match difference asked c.*1 with
    | [] => hstate h' = SAwaitWelcome /\ sink' = sink ++ [cap_end_msg]
    | rest => hstate h' = SAck rest [] /\ sink' = sink
    end.
Proof.
  intros (Hm & Hk & n & Hp) Hst Hn. rewrite handle_waiting by (done || by rewrite Hst).
  destruct (learned_spec m h) as (_ & Hst1 & Hn1 & _). rewrite Hst in Hst1. rewrite Hn in Hn1.
  set (h1 := learned m h) in *. clearbody h1. unfold bind at 1. rewrite kind_cap by done.
  unfold bind at 1, handle_cap, bind at 1. rewrite Hp. unfold unwrap, ret at 1. cbn [Cap.subcmd Cap.caps Cap.is_last].
  unfold bind at 1. rewrite (ack_spec h1 sink asked [] c Hst1).
  destruct (difference asked c.*1) as [|x l].
  - destruct (insert_all_spec c (with_state (acked_state []) h1) (send_all sink (acked_msgs []))) as (r & -> & _).
    unfold ret at 1. rewrite finish_cap_end by done. by do 2 eexists.
  - destruct (insert_all_spec c (with_state (SAck (x :: l) []) h1) sink) as (r & -> & _).
    unfold ret at 1. rewrite finish_waiting by done. by do 2 eexists.
Qed.

(** An acknowledgement that comes late is noted. *)
Lemma handle_late_ack m b c (h : Handler L I) (sink : list ClientMsg) :
  cap_line Cap.Ack b m c -> hstate h = SAwaitWelcome -> needs_auth h = false ->
  exists h', handle m (h, sink) = Some (Ok None, (h', sink)) /\ hstate h' = SAwaitWelcome /\ needs_auth h' = false.
Proof.
  intros (Hm & Hk & n & Hp) Hst Hn. rewrite handle_waiting by (done || by rewrite Hst).
  destruct (learned_spec m h) as (_ & Hst1 & Hn1 & _). rewrite Hst in Hst1. rewrite Hn in Hn1.
  set (h1 := learned m h) in *. clearbody h1. unfold bind at 1. rewrite kind_cap by done.
  unfold bind at 1, handle_cap, bind at 1. rewrite Hp. unfold unwrap, ret at 1. cbn [Cap.subcmd Cap.caps Cap.is_last].
  unfold bind at 1. assert (Ha : ack true c (h1, sink) = Some (Ok (), (h1, sink))).
  { unfold ack, bind, get. cbn [fst]. by rewrite Hst1. }
  rewrite Ha. destruct (insert_all_spec c h1 sink) as (r & -> & _). unfold ret at 1.
  rewrite finish_waiting by (by cbn [hstate]; rewrite Hst1). by eexists.
Qed.

Definition ack_lines : list ServerMsg -> list Cap.BTreeMap -> Prop := Forall2 (fun m c => exists b, cap_line Cap.Ack b m c).
Definition ls_lines : list ServerMsg -> list Cap.BTreeMap -> Prop := Forall2 (cap_line Cap.Ls false).

Lemma late_acks acks cs m ms rest (h : Handler L I) (sink : list ClientMsg) :
  ack_lines acks cs -> among (acks ++ [m]) ms -> hstate h = SAwaitWelcome -> needs_auth h = false ->
  exists h' ms', run (ms ++ rest) (h, sink) = run (m :: ms' ++ rest) (h', sink) /\ among [] ms' /\
    hstate h' = SAwaitWelcome /\ needs_auth h' = false.
Proof.
  intros Hf. revert h ms. induction Hf as [|a c acks cs (b & Hc) _ IH]; intros h ms Ham Hst Hn; cbn [app] in Ham;
    destruct (run_among _ _ ms rest h sink Ham) as (h1 & ms1 & K1 & K2 & K3 & K4 & _); try (done || by rewrite Hst).
  - exists h1, ms1. split_and!; [done..|congruence|done].
  - rewrite Hst in K3. rewrite K1. cbn [run]. destruct (handle_late_ack a b c h1 sink Hc K3 K4) as (h2 & -> & Hst2 & Hn2). by apply IH.
Qed.

Lemma run_acks acks cs asked m ms rest (h : Handler L I) (sink : list ClientMsg) :
  ack_lines acks cs -> among (acks ++ [m]) ms ->
  hstate h = SAck asked [] -> needs_auth h = false -> asked <> [] -> pending asked cs = [] ->
  exists h' ms', run (ms ++ rest) (h, sink) = run (m :: ms' ++ rest) (h', sink ++ [cap_end_msg]) /\ among [] ms' /\
    hstate h' = SAwaitWelcome /\ needs_auth h' = false.
Proof.
  intros Hf. revert asked h ms. induction Hf as [|a c acks cs (b & Hc) Hf IH]; intros asked h ms Ham Hst Hn Hne Hp; [done|].
  cbn [pending foldl] in Hp. fold (pending (difference asked c.*1) cs) in Hp. cbn [app] in Ham.
  destruct (run_among _ _ ms rest h sink Ham) as (h1 & ms1 & K1 & K2 & K3 & K4 & _); [by rewrite Hst|done|].
  rewrite Hst in K3. rewrite K1. cbn [run]. destruct (handle_ack a b c asked h1 sink Hc K3 K4) as (h2 & sink2 & -> & Hn2 & Hcase).
  destruct (difference asked c.*1) as [|x l]; destruct Hcase as [Hst2 ->].
  - by apply (late_acks acks cs).
  - by apply (IH (x :: l)).
Qed.

(** The lines of the list but for the last one. *)
Lemma run_lists lss ls l reqs queue ms rest (h : Handler L I) (sink : list ClientMsg) :
  ls_lines lss ls -> among (lss ++ l) ms -> hstate h = SReq reqs queue -> needs_auth h = false ->
  exists h' ms', run (ms ++ rest) (h, sink) = run (ms' ++ rest) (h', sink) /\ among l ms' /\
    hstate h' = SReq reqs queue /\ needs_auth h' = false /\ rcaps (reg h') = listed (rcaps (reg h)) ls.
Proof.
  intros Hf. revert h ms. induction Hf as [|m c lss ls Hc _ IH]; intros h ms Ham Hst Hn; [by exists h, ms|]. cbn [app] in Ham.
  destruct (run_among _ _ ms rest h sink Ham) as (h1 & ms1 & K1 & K2 & K3 & K4 & K5); [by rewrite Hst|done|].
  rewrite Hst in K3. rewrite K1. cbn [run]. destruct (handle_ls_more m reqs queue c h1 sink Hc K3 K4) as (h2 & -> & Hst2 & Hn2 & Hc2).
  destruct (IH h2 ms1 K2 Hst2 Hn2) as (h3 & ms3 & L1 & L2 & L3 & L4 & L5). exists h3, ms3. split_and!; [done..|].
  rewrite L5. unfold listed. cbn [foldl]. by rewrite Hc2, K5.
Qed.

(** The greeting and the end of the MOTD. *)
Lemma handle_welcome m (h : Handler L I) (sink : list ClientMsg) :
  plain_msg m -> welcome m -> hstate h = SAwaitWelcome -> needs_auth h = false ->
  exists h', handle m (h, sink) = Some (Ok None, (h', sink)) /\ hstate h' = SAwaitEnd /\ needs_auth h' = false.
Proof.
  intros Hm Hk Hst Hn. rewrite handle_waiting by (done || by rewrite Hst).
  destruct (learned_spec m h) as (_ & _ & Hn1 & _). rewrite Hn in Hn1. set (h1 := learned m h) in *. clearbody h1.
  unfold bind at 1. known_kind Hk. rewrite Hn1. cbn [andb]. unfold handle_001, bind at 1, get. cbn [fst].
  set (nick := match words (sargs m) with [] => None | _ => _ end).
  assert (Ha : exists h2, (match nick with Some n => modify_reg (set_nick n) | None => ret () end) (h1, sink) = Some (Ok (), (h2, sink)) /\
    needs_auth h2 = false).
  { destruct nick; eexists; split; done. }
  destruct Ha as (h2 & Ha & Hn2). unfold bind at 1. rewrite Ha.
  unfold bind at 1. match goal with |- context [match ?x (h2, sink) with _ => _ end] => set (src := x) end.
  assert (Hs : exists h3, src (h2, sink) = Some (Ok (), (h3, sink)) /\ needs_auth h3 = false).
  { unfold src. destruct (source m) as [s|] eqn:Hsrc; [|by eexists]. case_bool_decide; [by eexists|].
    rewrite owning_merged_id by (by apply Hm). by eexists. }
  destruct Hs as (h3 & -> & Hn3). unfold bind, put_state, ret. cbn [fst snd]. rewrite finish_waiting by done. by eexists.
Qed.

Lemma handle_motd_end m (h : Handler L I) (sink : list ClientMsg) :
  plain_msg m -> motd_end m -> hstate h = SAwaitEnd -> needs_auth h = false ->
  exists v h', handle m (h, sink) = Some (Ok (Some v), (h', sink)).
Proof.
  intros Hm Hk Hst Hn. rewrite handle_waiting by (done || by rewrite Hst).
  destruct (learned_spec m h) as (_ & Hst1 & Hn1 & _). rewrite Hst in Hst1. rewrite Hn in Hn1.
  set (h1 := learned m h) in *. clearbody h1. unfold bind at 1.
  assert (Hk' : as_arg (kind m) = bs "376" \/ as_arg (kind m) = bs "422") by (unfold motd_end in Hk; rewrite !elem_of_cons, elem_of_nil in Hk; tauto).
  destruct Hk' as [Hk'|Hk']; known_kind Hk'; rewrite Hst1; cbn [is_await_end]; unfold bind, modify_reg, ret; cbn [fst snd];
    rewrite finish_waiting by (by cbn [hstate]; rewrite Hst1); by do 2 eexists.
Qed.

Lemma run_app ms1 ms2 (s s1 : St) : run ms1 s = Some (Ok None, s1) -> run (ms1 ++ ms2) s = run ms2 s1.
Proof.
  revert s. induction ms1 as [|m ms1 IH]; intros s; cbn [run app]; [by intros [= ->]|].
  destruct (handle m s) as [[[[v|]|e] s0]|]; try done. apply IH.
Qed.

(** From the welcome to the end of the MOTD. *)
Lemma run_greeted m_001 m_end ms after rest (h : Handler L I) (sink : list ClientMsg) :
  plain_msg m_001 -> welcome m_001 -> plain_msg m_end -> motd_end m_end -> among [] ms -> Forall greeting_msg after ->
  hstate h = SAwaitWelcome -> needs_auth h = false ->
  exists v h', run (m_001 :: ms ++ after ++ m_end :: rest) (h, sink) = Some (Ok (Some v), (h', sink)).
Proof.
  intros Hm1 Hw Hm2 Hend Hms%among_nil_idle Hafter Hst Hn. cbn [run].
  destruct (handle_welcome m_001 h sink Hm1 Hw Hst Hn) as (h1 & -> & Hst1 & Hn1). rewrite app_assoc.
  destruct (run_greetings (ms ++ after) (m_end :: rest) h1 sink) as (h2 & -> & Hst2 & Hn2); [|done..|].
  { apply Forall_app. split; [|done]. by eapply Forall_impl; [exact Hms|left]. }
  cbn [run]. destruct (handle_motd_end m_end h2 sink Hm2 Hend Hst2 Hn2) as (v & h3 & ->). by exists v, h3.
Qed.

Lemma handshake_spec lss ls m_ls caps acks cs m_001 m_end before after rest reqs (h : Handler L I) (sink : list ClientMsg) :
  hstate h = SReq reqs [] -> needs_auth h = false ->
  let avail := set_of (keys (listed (rcaps (reg h)) (ls ++ [caps]))) in
  (forall c, c ∈ reqs avail -> c ∈ avail) ->
  ls_lines lss ls -> cap_line Cap.Ls true m_ls caps -> ack_lines acks cs ->
  (forall c, c ∈ reqs avail -> c = STS \/ exists a : Cap.BTreeMap, a ∈ cs /\ c ∈ a.*1) ->
  plain_msg m_001 -> welcome m_001 -> plain_msg m_end -> motd_end m_end ->
  among (lss ++ m_ls :: acks ++ [m_001]) before -> Forall greeting_msg after ->
  exists v h' requests,
    run (before ++ after ++ m_end :: rest) (h, sink) = Some (Ok (Some v), (h', sink ++ requests ++ [cap_end_msg])) /\
    ends requests = 0.
Proof.
  intros Hst Hn avail Hr Hlss Hls Hacks Hcov Hm1 Hw Hm2 Hend Ham Hafter.
  destruct (run_lists lss ls _ reqs [] before (after ++ m_end :: rest) h sink Hlss Ham Hst Hn) as (h1 & ms1 & -> & Ham1 & Hst1 & Hn1 & Hc1).
  destruct (run_among _ _ ms1 (after ++ m_end :: rest) h1 sink Ham1) as (h2 & ms2 & -> & Ham2 & Hst2 & Hn2 & Hc2); [by rewrite Hst1|done|].
  rewrite Hst1 in Hst2. assert (Hav : avail = set_of (keys (offered (rcaps (reg h2)) caps))).
  { unfold avail, listed. rewrite foldl_app. cbn [foldl]. fold (listed (rcaps (reg h)) ls). by rewrite Hc2, Hc1. }
  clearbody avail. subst avail. cbn [run].
  destruct (handle_ls m_ls reqs caps h2 sink Hls Hst2 Hn2 Hr) as (h3 & sink3 & asked & -> & Hn3 & Hasked & Hc).
  destruct Hc as [(-> & Hst3 & ->)|(Hne & Hst3 & ->)].
  - destruct (late_acks acks cs m_001 ms2 (after ++ m_end :: rest) h3 (sink ++ [cap_end_msg]) Hacks Ham2 Hst3 Hn3) as (h4 & ms4 & -> & Ham4 & Hst4 & Hn4).
    destruct (run_greeted m_001 m_end ms4 after rest h4 (sink ++ [cap_end_msg])) as (v & h5 & ->); [done..|]. by exists v, h5, [].
  - set (sink4 := Cap.req _ _ _ sink). assert (Hp : pending asked cs = []).
    { apply elem_of_nil_inv. intros x [Hx Hno]%elem_of_pending. apply Hasked in Hx as [Hx Hnsts].
      destruct (Hcov x Hx) as [|(a & Ha & Hin)]; [done|]. rewrite Forall_forall in Hno. by apply (Hno a). }
    destruct (run_acks acks cs asked m_001 ms2 (after ++ m_end :: rest) h3 sink4 Hacks Ham2 Hst3 Hn3 Hne Hp) as (h4 & ms4 & -> & Ham4 & Hst4 & Hn4).
    destruct (run_greeted m_001 m_end ms4 after rest h4 (sink4 ++ [cap_end_msg])) as (v & h5 & ->); [done..|].
    destruct (req_sends asked (Some (rnick (reg h2))) (rsource (reg (learned m_ls h2))) sink) as (l & Hl & Hq).
    exists v, h5, l. unfold sink4. rewrite Hl, <- app_assoc. split; [done|]. unfold ends.
    clear -Hq. induction Hq as [|m l Hm _ IH]; cbn [List.filter]; [done|]. by rewrite Hm.
Qed.

(** C6: A client that has no authenticators, need not log in and asks only for
    capabilities that are there gets registered, if the server lists its
    capabilities in any number of lines, acknowledges all that the client asked
    for in any number of lines and then sends the greeting and the end of the
    MOTD; before and between these may come messages that the handler ignores,
    and after the greeting also [004] and [005].  What the client sends are the
    requests and one [CAP END].  Pings, refused nicks and anything else are not
    among the messages of this theorem. *)
Theorem handshake_completes lss ls m_ls caps acks cs m_001 m_end before after rest reqs (h : Handler L I) (sink : list ClientMsg) :
  hstate h = SReq reqs [] -> needs_auth h = false ->
  let avail := set_of (keys (listed (rcaps (reg h)) (ls ++ [caps]))) in
  (forall c, c ∈ reqs avail -> c ∈ avail) ->
  ls_lines lss ls -> cap_line Cap.Ls true m_ls caps -> ack_lines acks cs ->
  (forall c, c ∈ reqs avail -> c = STS \/ exists a : Cap.BTreeMap, a ∈ cs /\ c ∈ a.*1) ->
  plain_msg m_001 -> welcome m_001 -> plain_msg m_end -> motd_end m_end ->
  among (lss ++ m_ls :: acks ++ [m_001]) before -> Forall greeting_msg after ->
  exists v h' requests,
    run (before ++ after ++ m_end :: rest) (h, sink) = Some (Ok (Some v), (h', sink ++ requests ++ [cap_end_msg])) /\
    ends requests = 0.
Proof. apply handshake_spec. Qed.
End Steps.

(** ** The registration saved *)

Section SaveThms.
Context (type_id : State.ClientStateKey -> N) (type_id_inj : forall a b, type_id a = type_id b -> a = b).
#[local] Abbreviation get k s := (State.get type_id k s).

(** A finished registration is in the shared state afterwards: the client's
    source, account, capabilities and tokens, and the server's source and
    version where the server told them, which stay as they were if it did not. *)
Theorem save_correct r s :
  State.state_wf type_id s ->
  let s' := save type_id r s in
  State.state_wf type_id s' /\
  get State.ClientSource s' = Some (mkSource (rnick r) (ruserhost r)) /\
  get State.Account s' = Some (raccount r) /\
  get State.Caps s' = Some (rcaps r) /\
  get State.ISupport s' = Some (risupport r) /\
  get State.ServerSource s' = match rsource r with Some v => Some v | None => get State.ServerSource s end /\
  get State.ServerVersion s' = match rversion r with Some v => Some v | None => get State.ServerVersion s end.
Proof.
  intros Hs. cbv zeta. unfold save. set (src := mkSource _ _).
  assert (Ins : forall k v s, State.state_wf type_id s -> State.state_wf type_id (State.insert type_id k v s) /\
    get k (State.insert type_id k v s) = Some v /\ forall k', k' <> k -> get k' (State.insert type_id k v s) = get k' s).
  { intros k v s0 Hs0. by destruct (State.insert_spec type_id type_id_inj k v s0 Hs0) as (K1 & K2 & K3 & _). }
  set (s1 := (State.update_source_len_from _ _ _ s).2).
  assert (Hs1 : State.state_wf type_id s1) by done.
  assert (Hg : forall k, get k s1 = get k s) by done. clearbody s1.
  destruct (Ins State.ClientSource src s1 Hs1) as (W1 & G1 & O1). set (s2 := State.insert type_id State.ClientSource src s1) in *. clearbody s2.
  destruct (Ins State.Account (raccount r) s2 W1) as (W2 & G2 & O2). set (s3 := State.insert type_id State.Account _ s2) in *. clearbody s3.
  destruct (Ins State.Caps (rcaps r) s3 W2) as (W3 & G3 & O3). set (s4 := State.insert type_id State.Caps _ s3) in *. clearbody s4.
  destruct (Ins State.ISupport (risupport r) s4 W3) as (W4 & G4 & O4). set (s5 := State.insert type_id State.ISupport _ s4) in *. clearbody s5.
  set (s6 := match rsource r with Some v => State.insert type_id State.ServerSource v s5 | None => s5 end).
  assert (K6 : State.state_wf type_id s6 /\
    get State.ServerSource s6 = match rsource r with Some v => Some v | None => get State.ServerSource s5 end /\
    forall k, k <> State.ServerSource -> get k s6 = get k s5).
  { unfold s6. destruct (rsource r) as [v|]; [|done]. by destruct (Ins State.ServerSource v s5 W4) as (? & ? & ?). }
  destruct K6 as (W6 & G6 & O6). clearbody s6.
  set (s7 := match rversion r with Some v => State.insert type_id State.ServerVersion v s6 | None => s6 end).
  assert (K7 : State.state_wf type_id s7 /\
    get State.ServerVersion s7 = match rversion r with Some v => Some v | None => get State.ServerVersion s6 end /\
    forall k, k <> State.ServerVersion -> get k s7 = get k s6).
  { unfold s7. destruct (rversion r) as [v|]; [|done]. by destruct (Ins State.ServerVersion v s6 W6) as (? & ? & ?). }
  destruct K7 as (W7 & G7 & O7). split; [done|].
  rewrite G7, !O7 by done. rewrite G6, !O6 by done. rewrite G4, !O4 by done. rewrite G3, !O3 by done. rewrite G2, !O2, G1 by done.
  rewrite !O1, !Hg by done. done.
Qed.
End SaveThms.

(** ** What [Register::handler] requires *)

Section Requirement.
Context {L : Type} `{Auth.SaslLogic L} {E : Type} `{Base64.Engine E} {I : Type} `{Nick.NickIterator I}
  {Sink : Type} `{ClientMsgSink Sink} {Opts : Type}.

(** A login is only ever required of a client that has nothing to log in with:
    one that must log in and has authenticators is registered without an
    account if the server lets it. *)
Theorem login_not_required (self : Register L I Opts) opts (sink : Sink) h sink' :
  handler self opts sink = Some (h, sink') -> auth Opts self opts <> ([], true) -> needs_auth h = false.
Proof.
  unfold handler. destruct (register_msgs self opts sink) as [[ns s]|]; [|done].
  destruct (auth Opts self opts) as [q []] eqn:Hq; intros [= <- _] Hne; cbn [handler_new needs_auth andb]; [|done].
  by destruct q.
Qed.
End Requirement.

(** ** Witnesses *)

#[local] Existing Instance Base64.pair_engine.

Definition sample_msg (k : list byte) (args : list (list byte)) : ServerMsg := mkServerMsg [] None (KCmd k) (mkArgs args None).
Definition sample_ls : ServerMsg :=
  mkServerMsg [] None (KCmd (bs "CAP")) (Cap.reply_args (bs "*") (bs "LS") true (bs "sasl=PLAIN sts=port=1 echo-message batch")).
Definition sample_ack (caps : list byte) : ServerMsg :=
  mkServerMsg [] None (KCmd (bs "CAP")) (Cap.reply_args (bs "me") (bs "ACK") true caps).
Definition sample_001 : ServerMsg := sample_msg (bs "001") [bs "me"; bs "Welcome"].
Definition sample_422 : ServerMsg := sample_msg (bs "422") [bs "me"; bs "none"].
Definition sample_432 : ServerMsg := sample_msg (bs "432") [bs "*"; bs "me"; bs "invalid"].
Definition sample_433 : ServerMsg := sample_msg (bs "433") [bs "*"; bs "me"; bs "taken"].

(** Everything known of three capabilities. *)
Definition sample_caps_fn : CapFn := intersection [bs "batch"; bs "draft/x"; bs "echo-message"; bs "sts"].
Definition sample_handler : Handler Auth.Logic (list (list byte)) :=
  handler_new (bs "me", Some (Nick.GFromIter (bs "me_") [bs "me__"])) sample_caps_fn false [].
Definition sample_more : ServerMsg :=
  mkServerMsg [] None (KCmd (bs "CAP")) (Cap.reply_args (bs "*") (bs "LS") false (bs "away-notify")).
Definition sample_notice : ServerMsg := sample_msg (bs "NOTICE") [bs "*"; bs "hello"].
Definition sample_005 : ServerMsg := sample_msg (bs "005") [bs "me"; bs "NETWORK=x"; bs "are supported"].

(** The list in two lines, two acknowledgements, and what comes in between. *)
Definition sample_before : list ServerMsg :=
  [sample_notice; sample_more; sample_ls; sample_ack (bs "echo-message"); sample_notice; sample_ack (bs "batch"); sample_001].
Definition sample_messages : list ServerMsg := sample_before ++ [sample_notice; sample_005] ++ sample_422 :: [].

(** A client with these nicks and capabilities and no authenticators; the second
    one must log in nevertheless. *)
Definition sample_register (must : bool) : Register Auth.Logic (list (list byte)) () :=
  mkRegister (fun _ => None) (fun _ => bs "u") (fun _ => bs "0") (fun _ => bs "*") (fun _ => bs "r")
    (fun _ => Some (Nick.GFromIter (bs "me") [bs "me_"; bs "me__"])) (fun _ => sample_caps_fn) (fun _ => ([], must)).

Lemma sample_plain m : source m = None -> kind m <> KCmd (bs "PING") -> plain_msg m.
Proof. intros Hs Hk. split; [|done]. intros s. by rewrite Hs. Qed.

Lemma sample_idle : idle_msg sample_notice.
Proof.
  split; [by apply sample_plain|]. split; [done|]. rewrite !not_elem_of_cons. split_and!; try (vm_compute; discriminate). apply not_elem_of_nil.
Qed.

Lemma handshake_completes_witness :
  exists v h' requests,
    run sample_messages (sample_handler, []) = Some (Ok (Some v), (h', [] ++ requests ++ [cap_end_msg])) /\ ends requests = 0.
Proof.
  refine (handshake_completes [sample_more] [[(bs "away-notify", [])]] sample_ls
    [(bs "batch", []); (bs "echo-message", []); (bs "sasl", bs "PLAIN"); (bs "sts", bs "port=1")]
    [sample_ack (bs "echo-message"); sample_ack (bs "batch")] [[(bs "echo-message", [])]; [(bs "batch", [])]]
    sample_001 sample_422 sample_before [sample_notice; sample_005] [] sample_caps_fn sample_handler [] eq_refl eq_refl _ _ _ _ _ _ _ _ _ _ _).
  - intros c Hc. apply elem_of_intersection in Hc as [_ Hc]. exact Hc.
  - apply List.Forall2_cons; [|apply List.Forall2_nil]. split; [by apply sample_plain|]. split; [reflexivity|]. exists (bs "*"). vm_compute. reflexivity.
  - split; [by apply sample_plain|]. split; [reflexivity|]. exists (bs "*"). vm_compute. reflexivity.
  - repeat constructor; exists true; (split; [by apply sample_plain|]); (split; [reflexivity|]); exists (bs "me"); vm_compute; reflexivity.
  - intros c Hc.
    match type of Hc with c ∈ ?l => assert (He : l = [bs "batch"; bs "echo-message"; bs "sts"]) by (vm_compute; reflexivity) end.
    rewrite He in Hc. rewrite !elem_of_cons in Hc. destruct Hc as [->|[->|[->|[]%elem_of_nil]]].
    + right. exists [(bs "batch", [])]. split; [right; by left|by left].
    + right. exists [(bs "echo-message", [])]. split; by left.
    + by left.
  - by apply sample_plain.
  - reflexivity.
  - by apply sample_plain.
  - right. by left.
  - apply among_idle; [exact sample_idle|]. do 3 apply among_msg. apply among_idle; [exact sample_idle|]. apply among_refl.
  - apply Forall_cons. split; [left; exact sample_idle|]. apply Forall_singleton. right. split; [by apply sample_plain|by right].
Defined.

Definition sample_made (must : bool) : Handler Auth.Logic (list (list byte)) * list ClientMsg :=
  match handler (sample_register must) () [] with Some x => x | None => (sample_handler, []) end.
Definition sample_ran (must : bool) : result (option Registration) HandlerError * (Handler Auth.Logic (list (list byte)) * list ClientMsg) :=
  match run sample_messages (sample_made must) with Some x => x | None => (Ok None, sample_made must) end.

Lemma sample_made_ok must : handler (sample_register must) () [] = Some ((sample_made must).1, (sample_made must).2).
Proof. by destruct must. Qed.
Lemma sample_ran_ok must :
  run sample_messages ((sample_made must).1, (sample_made must).2) = Some ((sample_ran must).1, (sample_ran must).2).
Proof. destruct must; vm_compute; reflexivity. Qed.

(** A client that must log in and has no authenticators sends no [CAP END]; one
    that need not sends one. *)
Lemma cap_end_once_witness : ends (sample_ran true).2.2 = 0 /\ ends (sample_ran false).2.2 = 1.
Proof.
  destruct (cap_end_once (sample_register true) () _ _ sample_messages _ _ (sample_made_ok true) (sample_ran_ok true)) as [K1|(_ & K1 & _)];
    [|exfalso; apply K1; reflexivity].
  destruct (cap_end_once (sample_register false) () _ _ sample_messages _ _ (sample_made_ok false) (sample_ran_ok false)) as [K2|(K2 & _)];
    [exfalso; vm_compute in K2; discriminate K2|].
  split; [exact K1|exact K2].
Defined.

Lemma completes_after_welcome_witness :
  exists v, (sample_ran false).1 = Ok (Some v) /\
    exists m s0 s1, reached sample_messages ((sample_made false).1, (sample_made false).2) m s0 (Ok None) s1 /\ welcome m.
Proof.
  assert (Hv : exists v, (sample_ran false).1 = Ok (Some v)) by (eexists; vm_compute; reflexivity).
  destruct Hv as [v Hv]. exists v. split; [exact Hv|]. pose proof (sample_ran_ok false) as Hr. rewrite Hv in Hr.
  destruct (completes_after_welcome (sample_register false) () _ _ sample_messages v _ (sample_made_ok false) Hr)
    as (m & s0 & s1 & mend & s2 & K & Hw & _).
  exists m, s0, s1. split; [exact K|exact Hw].
Defined.

(** Of three capabilities one is not there. *)
Lemma negotiate_witness :
  hstate (L := Auth.Logic) (I := list (list byte)) (handler_new (bs "me", None) (fun _ => [bs "batch"]) false []) = SReq (fun _ => [bs "batch"]) [] /\
  exists r h' sink', ls_last (handler_new (bs "me", None) (fun _ => [bs "batch"]) false [] : Handler Auth.Logic (list (list byte)),
    [] : list ClientMsg) = Some (r, (h', sink')) /\ r = Err (MissingCaps [bs "batch"]).
Proof.
  split; [reflexivity|].
  destruct (negotiate (handler_new (bs "me", None) (fun _ => [bs "batch"]) false [] : Handler Auth.Logic (list (list byte)))
    ([] : list ClientMsg) (fun _ => [bs "batch"]) [] eq_refl) as (r & h' & sink' & K & _).
  exists r, h', sink'. split; [exact K|]. vm_compute in K. by injection K.
Defined.

Definition sample_acking : Handler Auth.Logic (list (list byte)) :=
  mkHandler None (SAck [bs "batch"; bs "sasl"] [Auth.ExternalLogic []]) true (reg_new (bs "me")).

Lemma acks_complete_witness :
  exists h' sink', ack_all [[(bs "sasl", [])]; [(bs "batch", [])]] (sample_acking, [] : list ClientMsg) = Some (Ok (), (h', sink')) /\
    sink' = [Auth.auth_chunk (bs "EXTERNAL")].
Proof.
  destruct (acks_complete [[(bs "sasl", [])]; [(bs "batch", [])]] sample_acking ([] : list ClientMsg) [bs "batch"; bs "sasl"]
    [Auth.ExternalLogic []] eq_refl ltac:(discriminate)) as (h' & sink' & K & _).
  exists h', sink'. split; [exact K|]. vm_compute in K. injection K as _ <-. reflexivity.
Defined.

Lemma nak_missing_witness :
  exists missing, ack false [(bs "batch", []); (bs "x", [])] (sample_acking, [] : list ClientMsg) =
    Some (Err (MissingCaps missing), (sample_acking, [])) /\ bs "batch" ∈ missing.
Proof.
  destruct (nak_missing sample_acking ([] : list ClientMsg) [bs "batch"; bs "sasl"] [Auth.ExternalLogic []]
    [(bs "batch", []); (bs "x", [])] eq_refl ltac:(discriminate)) as [[_ K]|(missing & K1 & _ & K2)].
  - destruct (K (bs "batch")); by left.
  - exists missing. split; [exact K1|]. apply K2. split; by left.
Defined.


Lemma save_correct_witness :
  State.get State.sample_type_id State.Account
    (save State.sample_type_id (set_account (Some (bs "acct")) (reg_new (bs "me"))) State.new) = Some (Some (bs "acct")).
Proof.
  destruct (save_correct State.sample_type_id State.sample_type_id_inj (set_account (Some (bs "acct")) (reg_new (bs "me")))
    State.new (State.state_wf_new State.sample_type_id)) as (_ & _ & K & _). exact K.
Defined.

(** A server that takes back two capabilities in one line, in the order of their
    names, ends the client. *)
Lemma cap_del_two_panics :
  exists h, (run [sample_ls] (sample_handler, []) = Some (Ok None, h)) /\
    handle (mkServerMsg [] None (KCmd (bs "CAP")) (Cap.reply_args (bs "me") (bs "DEL") true (bs "sasl sts"))) h = None.
Proof. eexists. split; vm_compute; reflexivity. Qed.
