(* ===== verification/Defaults.v ===== *)
(** * Defaults for connection registration

    [src/client/register/defaults.rs]: the options most clients need and the
    functions of [Register] made of them.  The user name hashed from the
    system's, and the entropy of random nicks, are parameters. *)

From Stdlib Require Import Sorted.
From S2P Require Import Prelude Handlers Args Tags Numeric Source Strings Splitter Msg Names Sink Register Negotiate.
From S2P Require FlatMap Queue State Replies Cap Auth Nick Base64.

(** ** [Options] *)

(** [pass] is the inner value of the secret. *)
Record Options (A : Type) := mkOptions {
  pass : option (list byte);
  onicks : list (list byte);
  ousername : option (list byte);
  orealname : option (list byte);
  osasl : list A;
  allow_sasl_fail : bool;
  ocaps : BTreeSet;
}.
Arguments mkOptions {A} pass onicks ousername orealname osasl allow_sasl_fail ocaps.
Arguments pass {A} _.
Arguments onicks {A} _.
Arguments ousername {A} _.
Arguments orealname {A} _.
Arguments osasl {A} _.
Arguments allow_sasl_fail {A} _.
Arguments ocaps {A} _.

Definition options_new {A} : Options A := mkOptions None [] None None [] false [].

(** [set_pass]. *)
Definition set_pass {A} (p : list byte) (o : Options A) : result () InvalidString * Options A :=
  match from_bytes Line p with
  | Ok p => (Ok (), mkOptions (Some p) (onicks o) (ousername o) (orealname o) (osasl o) (allow_sasl_fail o) (ocaps o))
  | Err e => (Err e, o)
  end.

Definition add_sasl {A} (s : A) (o : Options A) : Options A :=
  mkOptions (pass o) (onicks o) (ousername o) (orealname o) (osasl o ++ [s]) (allow_sasl_fail o) (ocaps o).

Section Auths.
Context {L : Type} `{Auth.SaslLogic L} {A : Type} `{Auth.Sasl A L}.

(** [Options::auths]. *)
Definition auths (o : Options A) : Auth.SaslQueue L * bool :=
  let queue := Auth.queue_from_iter (osasl o) in
  (queue, negb (allow_sasl_fail o || Auth.queue_is_empty queue)).
End Auths.

(** ** Capabilities *)

Definition common_caps : BTreeSet :=
  set_of [bs "account-notify"; bs "account-tag"; bs "chghost"; bs "extended-join"; bs "extended-monitor";
          bs "invite-notify"; bs "labeled-response"; bs "message-tags"; bs "msgid"; bs "multi-prefix";
          bs "server-time"; bs "setname"; bs "standard-replies"; bs "userhost-in-names"].

Definition default_caps (caps : BTreeSet) (add_common require : bool) : CapFn := fun caps_avail =>
  match add_common, require with
  | false, false => intersection caps caps_avail
  | false, true => caps
  | true, false => intersection (union caps common_caps) caps_avail
  | true, true => union caps (intersection caps_avail common_caps)
  end.

(** ** Names *)

Definition default_user_p1 : list byte := bs "8".
Definition default_user_p2 : list byte := STAR.

Definition NT_FALLBACK : Nick.Suffix := Nick.mkSuffix Nick.Seq [Nick.Char (bs "`"); Nick.Base10; Nick.Base8].
Definition NT_GUEST : Nick.Suffix :=
  Nick.mkSuffix (Nick.Rng None) [Nick.Base10; Nick.Base8; Nick.Base10; Nick.Base8].
Definition NT_BOT : Nick.Suffix :=
  Nick.mkSuffix (Nick.Rng None)
    [Nick.Base10; Nick.Base16 false; Nick.Base16 false; Nick.Base16 false; Nick.Base16 false; Nick.Base16 false].

Section Nicks.
Context {I : Type} `{Nick.NickIterator I} (entropy : N).

Definition default_client_nicks (nicks : I) : option (Nick.NickGen I) :=
  match Nick.from_iter nicks with
  | Some nicks => Nick.chain_using entropy nicks NT_FALLBACK
  | None => Nick.chain_using entropy (Nick.GNick (bs "Guest")) NT_GUEST
  end.

Definition default_bot_nicks (nicks : I) : option (Nick.NickGen I) :=
  let vzbnicks := Nick.transform entropy NT_BOT (bs "VNZB") in
  match Nick.from_iter nicks with
  | Some usernicks => Some (Nick.chain usernicks vzbnicks)
  | None => Some vzbnicks
  end.
End Nicks.

(** The hash of the system's user and real name, where the library knows them. *)
Definition default_client_username (whoami : option N) (username : option (list byte)) : list byte :=
  match username, whoami with
  | Some uname, _ => uname
  | None, Some id => let id := N.lxor (N.shiftr id 16) (N.land id 65535) in from_id_short (id mod 2 ^ 16)
  | None, None => bs "user"
  end.
Definition default_client_realname (realname : option (list byte)) : list byte := default (bs "???") realname.
Definition default_bot_username (username : option (list byte)) : list byte := default (bs "vnzb_bot") username.
Definition default_bot_realname (realname : option (list byte)) : list byte := default (bs "Vinezombie Bot") realname.

(** ** [Register]s *)

Section Registers.
Context {L : Type} `{Auth.SaslLogic L} {I : Type} `{Nick.NickIterator I}.

Definition register_as_custom {O} (password : O -> option (list byte)) (username realname : O -> list byte)
    (nicks : O -> option (Nick.NickGen I)) (caps : O -> CapFn) (auth : O -> Auth.SaslQueue L * bool) : Register L I O :=
  mkRegister password username (fun _ => default_user_p1) (fun _ => default_user_p2) realname nicks caps auth.
End Registers.

Section Defaults.
Context {L : Type} `{Auth.SaslLogic L} {A : Type} `{Auth.Sasl A L} (whoami : option N) (entropy : N).
Abbreviation I := (list (list byte)).

Definition register_as_client : Register L I (Options A) :=
  register_as_custom pass (fun o => default_client_username whoami (ousername o))
    (fun o => default_client_realname (orealname o)) (fun o => default_client_nicks entropy (onicks o))
    (fun o => default_caps (ocaps o) true false) auths.

Definition register_as_bot : Register L I (Options A) :=
  register_as_custom pass (fun o => default_bot_username (ousername o))
    (fun o => default_bot_realname (orealname o)) (fun o => default_bot_nicks entropy (onicks o))
    (fun o => default_caps (ocaps o) false true) auths.
End Defaults.

(** ** Theorems *)

Lemma elem_of_union a b x : x ∈ union a b <-> x ∈ a \/ x ∈ b.
Proof.
  unfold union. revert a. induction b as [|y b IH]; intros a; cbn [foldl]; [set_solver|].
  rewrite IH, elem_of_btree_insert, elem_of_cons. tauto.
Qed.

(** Without [require] nothing is asked for that is not available; with it all
    of the given capabilities are, available or not, and of the common ones just
    those that are available, if they are to be added. *)
Theorem default_caps_correct caps add_common require avail x :
  x ∈ default_caps caps add_common require avail <->
  (x ∈ caps /\ (require = true \/ x ∈ avail)) \/ (add_common = true /\ x ∈ common_caps /\ x ∈ avail).
Proof.
  unfold default_caps. destruct add_common, require; rewrite ?elem_of_union, ?elem_of_intersection, ?elem_of_union; intuition congruence.
Qed.

Section Compose.
Context {L : Type} `{Auth.SaslLogic L} {E : Type} `{Base64.Engine E} {A : Type} `{Auth.Sasl A L}
  {Sink : Type} `{ClientMsgSink Sink} (whoami : option N) (entropy : N).
Abbreviation I := (list (list byte)).

Lemma usable_sasl (r : Registration) (q : Auth.SaslQueue L) :
  map_wf (rcaps r) -> usable r q <> [] -> SASL ∈ set_of (keys (rcaps r)).
Proof.
  intros Hwf. unfold usable, get_union_raw. destruct (FlatMap.get extract_key (rcaps r) SASL) as [e|] eqn:He; [|done]. intros _.
  apply FlatMap.get_sorted in He as [He Hk]; [|done]. apply elem_of_set_of. unfold keys. apply list_elem_of_fmap. by exists e.
Qed.

Lemma default_caps_client caps avail c : c ∈ default_caps caps true false avail -> c ∈ avail.
Proof. unfold default_caps. by intros [_ ?]%elem_of_intersection. Qed.

(** Whatever capabilities a server has, registration with the default options
    never fails for want of a login; a client never fails for want of a
    capability, a bot exactly if one of those in its options is not
    available. *)
Theorem default_negotiation (o : Options A) (h : Handler L I) (sink : Sink) (bot : bool) :
  hstate h = SReq (if bot then default_caps (ocaps o) false true else default_caps (ocaps o) true false) (auths o).1 ->
  needs_auth h = false -> map_wf (rcaps (reg h)) ->
  let avail := set_of (keys (rcaps (reg h))) in
  exists r h' sink', ls_last (h, sink) = Some (r, (h', sink')) /\
    (r = Ok () \/ exists d, r = Err (MissingCaps d)) /\
    (r = Ok () <-> (bot = true -> forall c, c ∈ ocaps o -> c ∈ avail)).
Proof.
  intros Hst Hn Hwf avail. destruct (ls_last_spec h sink _ _ Hst) as (r & h' & sink' & Hl & Hc). fold avail in Hc.
  pose proof (usable_sasl (reg h) (auths o).1 Hwf) as Hs. fold avail in Hs.
  set (auths' := usable (reg h) (auths o).1) in *. exists r, h', sink'. split; [done|].
  destruct r as [[]|[]]; try done.
  - split; [by left|]. split; [|done]. intros _ -> c Hin. apply Hc. by left.
  - destruct Hc. congruence.
  - split; [right; by eexists|]. split; [done|]. intros Hall. destruct Hc as (_ & Hne & Hd). destruct caps as [|c l]; [done|].
    destruct (proj1 (Hd c) ltac:(by left)) as [[Hw|[-> Ha]] Hno]; [|by destruct Hno; apply Hs].
    destruct Hno. destruct bot; [by apply Hall|by eapply default_caps_client].
Qed.

(** [allow_sasl_fail] changes nothing: with any options registration goes on
    without an account when all authenticators fail. *)
Theorem options_login_optional (o : Options A) (sink : Sink) (bot : bool) h sink' :
  handler (if bot then register_as_bot entropy else register_as_client whoami entropy) o sink = Some (h, sink') ->
  needs_auth (h : Handler L I) = false /\ hstate h = SReq (if bot then default_caps (ocaps o) false true else default_caps (ocaps o) true false) (auths o).1.
Proof.
  unfold handler. destruct (register_msgs _ o sink) as [[ns s]|]; [|by destruct bot].
  assert (Hc : auth (Options A) (if bot then register_as_bot entropy else register_as_client whoami entropy) o = auths o) by by destruct bot.
  rewrite Hc. unfold auths. intros [= <- _]. cbn [handler_new needs_auth hstate fst]. split; [|by destruct bot].
  destruct (allow_sasl_fail o), (Auth.queue_is_empty _); done.
Qed.
End Compose.

(** A client offers its nicks in order and then nineteen fallbacks, all
    distinct valid nicks that extend its first one; the fallbacks of a bot, or
    of a client without nicks, are random and begin with a fixed name. *)
Theorem client_nicks_order entropy n (l : list (list byte)) :
  valid Nick n ->
  exists g fallbacks, default_client_nicks entropy (n :: l) = Some g /\ Nick.yields g ((n :: l) ++ fallbacks) /\
    length fallbacks = 19 /\ NoDup fallbacks /\ Forall (fun f => valid Nick f /\ exists w, w <> [] /\ f = n ++ w) fallbacks.
Proof.
  intros Hn. destruct (Nick.seq_nicks_spec (I := list (list byte)) entropy [Nick.Char (bs "`"); Nick.Base10; Nick.Base8] n) as (ns & Hy & Hl & Hd & Hf);
    [done|by repeat constructor|done|].
  eexists _, ns. split; [reflexivity|]. split; [|split; [|done]].
  - apply Nick.yields_chain; [apply Nick.yields_vec|exact Hy].
  - apply Nat2N.inj. rewrite Hl. reflexivity.
Qed.

(** ** What is sent first *)

Definition arguments (a : Args) : list (list byte) := words a ++ match long a with Some s => [s] | None => [] end.

Lemma arguments_add a s : long a = None -> arguments (add a s).2 = arguments a ++ [s].
Proof.
  intros Hl. unfold add, add_impl, arguments. rewrite Hl. destruct (find_invalid Arg s); cbn [snd words long]; by rewrite ?app_nil_r.
Qed.
Lemma arguments_add_word a s : long a = None -> arguments (add_word a s) = arguments a ++ [s].
Proof. intros Hl. unfold add_word, arguments. cbn [words long]. rewrite Hl. by rewrite !app_nil_r. Qed.

(** Registration begins with the password, if there is one, the request for
    the capabilities, the user and the first nick, each with its arguments in
    order, and goes on with the rest of the nicks. *)
Theorem register_msgs_correct {L I O} `{Nick.NickIterator I} (self : Register L I O) (opts : O) g n rest (sink : list ClientMsg) :
  rnicks O self opts = Some g -> Nick.next_nick g = Some (n, rest) ->
  exists msgs, register_msgs self opts sink = Some ((n, rest), sink ++ msgs) /\
    (fun m => (cmd m, arguments (cargs m))) <$> msgs =
      match password O self opts with Some p => [(bs "PASS", [p])] | None => [] end ++
      [(bs "CAP", [bs "LS"; bs "302"]);
       (bs "USER", [username O self opts; user_p1 O self opts; user_p2 O self opts; realname O self opts]);
       (bs "NICK", [n])].
Proof.
  intros Hg Hn. unfold register_msgs. rewrite Hg. cbn [mbind option_bind]. rewrite Hn.
  set (u := user_msg _ _ _ _). assert (Hu : (cmd u, arguments (cargs u)) =
    (bs "USER", [username O self opts; user_p1 O self opts; user_p2 O self opts; realname O self opts])).
  { unfold u, user_msg. cbn [cmd cargs]. by rewrite arguments_add, !arguments_add_word by done. }
  unfold sink_send, closure_sink. destruct (password O self opts) as [p|].
  - exists [pass_msg p; ls_msg; u; nick_msg n]. split; [by rewrite <- !app_assoc|].
    cbn [fmap list_fmap app]. rewrite Hu. unfold pass_msg. cbn [cmd cargs]. by rewrite arguments_add by done.
  - exists [ls_msg; u; nick_msg n]. split; [by rewrite <- !app_assoc|]. cbn [fmap list_fmap app]. by rewrite Hu.
Qed.

(** ** Witnesses *)

#[local] Existing Instance Base64.pair_engine.

Definition sample_options : Options Auth.AnySasl :=
  mkOptions (Some (bs "pw")) [bs "a"; bs "b"] None (Some (bs "A B")) [Auth.External []] false [bs "batch"].

(** A bot that wants [batch] of a server that has no capabilities. *)
Lemma default_negotiation_witness :
  exists (h : Handler Auth.Logic (list (list byte))) r h' sink',
    hstate h = SReq (default_caps [bs "batch"] false true) (auths sample_options).1 /\
    ls_last (h, [] : list ClientMsg) = Some (r, (h', sink')) /\ exists d, r = Err (MissingCaps d).
Proof.
  set (h := handler_new (bs "a", None) (default_caps [bs "batch"] false true) false (auths sample_options).1
    : Handler Auth.Logic (list (list byte))).
  destruct (default_negotiation sample_options h ([] : list ClientMsg) true eq_refl eq_refl ltac:(constructor))
    as (r & h' & sink' & K1 & K2 & K3).
  exists h, r, h', sink'. split; [reflexivity|]. split; [exact K1|]. destruct K2 as [K2|K2]; [|exact K2].
  exfalso. pose proof (proj1 K3 K2 eq_refl (bs "batch") ltac:(by left)) as Hin. vm_compute in Hin. by apply elem_of_nil in Hin.
Defined.

Lemma options_login_optional_witness :
  exists h sink', handler (register_as_client (L := Auth.Logic) None 0) sample_options ([] : list ClientMsg) = Some (h, sink') /\
    needs_auth h = false.
Proof.
  eexists _, _. split; [reflexivity|].
  exact (proj1 (options_login_optional (L := Auth.Logic) None 0 sample_options ([] : list ClientMsg) false _ _ eq_refl)).
Defined.

Lemma client_nicks_order_witness :
  valid Nick (bs "me") /\ exists g fallbacks, default_client_nicks 0 [bs "me"; bs "you"] = Some g /\
    Nick.yields g ([bs "me"; bs "you"] ++ fallbacks) /\ length fallbacks = 19.
Proof.
  assert (Hv : valid Nick (bs "me")) by by vm_compute. split; [exact Hv|].
  destruct (client_nicks_order 0 (bs "me") [bs "you"] Hv) as (g & f & K1 & K2 & K3 & _). by exists g, f.
Defined.

Lemma register_msgs_correct_witness :
  exists ns sink', register_msgs (register_as_bot (L := Auth.Logic) 0) sample_options ([] : list ClientMsg) = Some (ns, sink') /\
    cmd <$> sink' = [bs "PASS"; bs "CAP"; bs "USER"; bs "NICK"].
Proof.
  set (g := Nick.chain (Nick.GFromIter (bs "a") [bs "b"]) (Nick.transform 0 NT_BOT (bs "VNZB"))).
  set (g' := Nick.chain (Nick.GFromIter (bs "b") ([] : list (list byte))) (Nick.transform 0 NT_BOT (bs "VNZB"))).
  assert (Hg : Nick.next_nick g = Some (bs "a", Some g')) by reflexivity.
  destruct (register_msgs_correct (register_as_bot (L := Auth.Logic) 0) sample_options g (bs "a") (Some g') [] eq_refl Hg) as (msgs & K1 & K2).
  eexists _, _. split; [exact K1|]. apply (f_equal (fmap fst)) in K2. rewrite <- list_fmap_compose in K2. exact K2.
Defined.
