(* ===== verification/Time.v ===== *)
(** * Connections and time limits

    [src/client/conn/time.rs], [src/client/conn/sync.rs]: what a connection can
    do, the time limits of a client, and the wrapper that gives all reads of one
    message a common deadline.  A connection is a state with the operations of
    [Connection]; the clock it is read by is part of that state. *)

From stdpp Require Import relations.
From S2P Require Import Prelude Strings Msg.
From S2P Require Codec Queue.

(** ** I/O *)

(** The kinds of I/O error the code tells apart. *)
Inductive ErrorKind :=
| TimedOut | WouldBlock | Interrupted | UnexpectedEof | InvalidData | InvalidInput | WriteZero | OtherKind.

#[global] Instance ErrorKind_eq_dec : EqDecision ErrorKind.
Proof. solve_decision. Defined.

(** An error is its kind, and the [ParseError] it was made from. *)
Record IoError := mkIoError { kind : ErrorKind; cause : option ParseError }.
Definition io_error (k : ErrorKind) : IoError := mkIoError k None.

(** [From<ParseError>]. *)
Definition io_from_parse (e : ParseError) : IoError := mkIoError InvalidData (Some e).

Class BufRead (C : Type) := {
  fill_buf : C -> result (list byte) IoError * C;
  consume : nat -> C -> C;
}.

Class Write (C : Type) := {
  write_all : list byte -> C -> result () IoError * C;
  flush : C -> result () IoError * C;
}.

(** Durations and instants are integers of nanoseconds. *)
Class ReadTimeout (C : Type) := set_read_timeout : option N -> C -> result () IoError * C.
Class WriteTimeout (C : Type) := set_write_timeout : option N -> C -> result () IoError * C.

(** [Instant::now] and [thread::sleep]; time may pass whenever the clock is
    read. *)
Class Clock (C : Type) := {
  now : C -> N * C;
  sleep : N -> C -> C;
}.

(** [NoTimeout] ignores what its type might do with a timeout. *)
Record NoTimeout (T : Type) := mkNoTimeout { no_timeout : T }.
Definition NoTimeout_ReadTimeout {T} : ReadTimeout (NoTimeout T) := fun _ c => (Ok (), c).
#[global] Existing Instance NoTimeout_ReadTimeout.
Definition NoTimeout_WriteTimeout {T} : WriteTimeout (NoTimeout T) := fun _ c => (Ok (), c).
#[global] Existing Instance NoTimeout_WriteTimeout.

(** [Bidir]: two unidirectional streams. *)
Record Bidir (R W : Type) := mkBidir { bread : R; bwrite : W }.
Arguments mkBidir {R W} bread bwrite.
Arguments bread {R W} _.
Arguments bwrite {R W} _.

Definition Bidir_ReadTimeout {R W} `{ReadTimeout R} : ReadTimeout (Bidir R W) := fun t c =>
  let (r, b) := set_read_timeout t (bread c) in (r, mkBidir b (bwrite c)).
#[global] Existing Instance Bidir_ReadTimeout.
Definition Bidir_WriteTimeout {R W} `{WriteTimeout W} : WriteTimeout (Bidir R W) := fun t c =>
  let (r, b) := set_write_timeout t (bwrite c) in (r, mkBidir (bread c) b).
#[global] Existing Instance Bidir_WriteTimeout.

(** The connection [Bidir] is. *)
Definition Bidir_BufRead {R W} `{BufRead R} : BufRead (Bidir R W) := {|
  fill_buf c := let (r, b) := fill_buf (bread c) in (r, mkBidir b (bwrite c));
  consume n c := mkBidir (consume n (bread c)) (bwrite c);
|}.
#[global] Existing Instance Bidir_BufRead.
Definition Bidir_Write {R W} `{Write W} : Write (Bidir R W) := {|
  write_all l c := let (r, b) := write_all l (bwrite c) in (r, mkBidir (bread c) b);
  flush c := let (r, b) := flush (bwrite c) in (r, mkBidir (bread c) b);
|}.
#[global] Existing Instance Bidir_Write.

(** ** Time limits *)

Definition timeout_fallback (new_timeout old_timeout : option N) : option N * bool :=
  match new_timeout with Some _ => (new_timeout, true) | None => (old_timeout, false) end.

Definition filter_time_error {T} (r : result T IoError) : result (option T) IoError :=
  match r with
  | Ok v => Ok (Some v)
  | Err e => match kind e with TimedOut | WouldBlock => Ok None | _ => Err e end
  end.

Record TimeLimits := mkLimits { read : option N; write : option N; update_write : bool }.
Definition limits_default : TimeLimits := mkLimits None None false.

Definition require_update (t : TimeLimits) : TimeLimits := mkLimits (read t) (write t) true.
Definition read_timeout (t : TimeLimits) : option N := read t.

(** Timeouts are at least a second. *)
Definition limits_set_read (timeout : option N) (t : TimeLimits) : TimeLimits :=
  mkLimits (N.max (Queue.from_secs 1) <$> timeout) (write t) (update_write t).
Definition limits_set_write (timeout : option N) (t : TimeLimits) : TimeLimits :=
  mkLimits (read t) (N.max (Queue.from_secs 1) <$> timeout) true.

(** ** [TimeLimitedSync] *)

Section Sync.
Context {C : Type} `{BufRead C} `{ReadTimeout C} `{WriteTimeout C} `{Clock C} (instant_max : N).

(** The connection and the deadline. *)
Record TimeLimitedSync := mkSync { conn : C; deadline : option N }.

(** [TimeLimitedSync::new]; whether the limit is [write_after]. *)
Definition sync_new (c : C) (timeouts : TimeLimits) (write_after : option N)
    : result (TimeLimitedSync * bool) IoError * C * TimeLimits :=
  let '(r, c, timeouts) :=
    if update_write timeouts then
      match set_write_timeout (write timeouts) c with
      | (Ok _, c) => (Ok (), c, mkLimits (read timeouts) (write timeouts) false)
      | (Err e, c) => (Err e, c, timeouts)
      end
    else (Ok (), c, timeouts) in
  match r with
  | Err e => (Err e, c, timeouts)
  | Ok _ =>
      let (read, constrained) := timeout_fallback write_after (read timeouts) in
      let (read, c) :=
        match read with
        | Some dur => let (t, c) := now c in (Queue.checked_add instant_max t dur, c)
        | None => (None, c)
        end in
      (Ok (mkSync c read, constrained), c, timeouts)
  end.

Definition update_timeout (s : TimeLimitedSync) : result () IoError * TimeLimitedSync :=
  match deadline s with
  | Some deadline =>
      let (t, c) := now (conn s) in
      let duration := Queue.saturating_duration_since deadline t in
      if negb (duration =? 0)%N then
        let (r, c) := set_read_timeout (Some duration) c in (r, mkSync c (Some deadline))
      else (Err (io_error TimedOut), mkSync c (Some deadline))
  | None => (Ok (), s)
  end.

Definition sync_fill_buf (s : TimeLimitedSync) : result (list byte) IoError * TimeLimitedSync :=
  match update_timeout s with
  | (Err e, s) => (Err e, s)
  | (Ok _, s) => let (r, c) := fill_buf (conn s) in (r, mkSync c (deadline s))
  end.

Definition sync_consume (amt : nat) (s : TimeLimitedSync) : TimeLimitedSync := mkSync (consume amt (conn s)) (deadline s).

Definition Sync_BufRead : BufRead TimeLimitedSync := {| fill_buf := sync_fill_buf; consume := sync_consume |}.
#[global] Existing Instance Sync_BufRead.
End Sync.
Arguments TimeLimitedSync C : clear implicits.
Arguments mkSync {C} conn deadline.

(** ** Reading a message *)

Section Recv.
Context {C : Type} `{BufRead C}.

(** [Take<&mut C>]: what is left of the limit. *)
Definition take_fill_buf (limit : nat) (c : C) : result (list byte) IoError * C :=
  if limit =? 0 then (Ok [], c)
  else let (r, c) := fill_buf c in
       (match r with Ok l => Ok (take limit l) | Err e => Err e end, c).
Definition take_consume (amt limit : nat) (c : C) : nat * C :=
  let amt := Nat.min amt limit in (limit - amt, consume amt c).

(** [BufRead::read_until(b'\n')] on [Take]; [None] is out of fuel. *)
Fixpoint read_until (fuel limit : nat) (c : C) (buf : list byte) (count : nat)
    : option (result nat IoError * C * list byte) :=
  match fuel with
  | 0 => None
  | S fuel =>
      match take_fill_buf limit c with
      | (Err e, c) =>
          if bool_decide (kind e = Interrupted) then read_until fuel limit c buf count else Some (Err e, c, buf)
      | (Ok available, c) =>
          let '(done, used) :=
            match position (fun b => Byte.eqb b "010") available with
            | Some i => (true, i + 1)
            | None => (false, length available)
            end in
          let buf := buf ++ take used available in
          let (limit, c) := take_consume used limit c in
          let count := count + used in
          if done || (used =? 0) then Some (Ok count, c, buf) else read_until fuel limit c buf count
      end
  end.
End Recv.

(** What reading a message needs: to read up to a newline or a limit into a
    buffer. *)
Class ReadUntil (C : Type) := until : nat -> nat -> C -> list byte -> option (result nat IoError * C * list byte).

Definition BufRead_ReadUntil {C} `{BufRead C} : ReadUntil C := fun fuel limit c buf => read_until fuel limit c buf 0.
#[global] Existing Instance BufRead_ReadUntil.

Section RecvMsg.
Context {C : Type} `{ReadUntil C}.

(** [ClientCodec::read_owning_from] and [read_borrowing_from]. *)
Fixpoint recv (owning : bool) (fuel : nat) (c : C) (buf : list byte)
    : option (result ServerMsg IoError * C * list byte) :=
  match fuel with
  | 0 => None
  | S fuel' =>
      let finish c buf :=
        match Codec.read_buf buf with
        | Codec.RbAgain => recv owning fuel' c []
        | Codec.RbError e buf => Some (Err (io_from_parse e), c, buf)
        | Codec.RbLine buf =>
            match server_parse buf with
            | None => None
            | Some r => Some (map_err io_from_parse r, c, if owning then [] else buf)
            end
        end in
      if length buf <? Codec.SERVER_MAX_LEN then
        match until fuel (Codec.SERVER_MAX_LEN - length buf) c buf with
        | Some (Err e, c, buf) => Some (Err e, c, buf)
        | Some (Ok 0, c, buf) => Some (Err (io_error UnexpectedEof), c, buf)
        | Some (Ok _, c, buf) => finish c buf
        | None => None
        end
      else finish c buf
  end.
End RecvMsg.

(** What buffered reads do one step at a time, from [c0] on, they do as a whole;
    [P] is what is known of the errors of a step. *)
Lemma read_until_steps {C} `{BufRead C} (R : C -> C -> Prop) `{!PreOrder R} (P : IoError -> C -> Prop) c0 fuel limit c buf count r c' buf' :
  (forall c r c', R c0 c -> fill_buf c = (r, c') -> R c c' /\ forall e, r = Err e -> kind e <> Interrupted -> P e c') -> (forall n c, R c (consume n c)) ->
  R c0 c -> read_until fuel limit c buf count = Some (r, c', buf') -> R c c' /\ forall e, r = Err e -> P e c'.
Proof.
  intros Hf Hc. revert limit c buf count. induction fuel as [|fuel IH]; intros limit c buf count H0; cbn [read_until]; [done|].
  destruct (take_fill_buf limit c) as [r1 c1] eqn:Ht. assert (H1 : R c c1 /\ forall e, r1 = Err e -> kind e <> Interrupted -> P e c1).
  { unfold take_fill_buf in Ht. destruct (limit =? 0); [by injection Ht as <- <-|].
    destruct (fill_buf c) as [r2 c2] eqn:H2. injection Ht as <- <-. destruct (Hf c r2 c2 H0 H2) as [K1 K2]. split; [done|].
    destruct r2; [done|]. intros e' [= <-]. by apply K2. }
  destruct H1 as [H1 HP]. destruct r1 as [l|e].
  - destruct (match position _ l with Some i => _ | None => _ end) as [done used]. unfold take_consume.
    assert (H2 : R c (consume (Nat.min used limit) c1)) by by etrans.
    destruct (done || (used =? 0)); [by intros [= <- <- _]|]. intros K. apply IH in K as [K1 K2]; [|by etrans]. split; [by etrans|done].
  - case_bool_decide.
    + intros K. apply IH in K as [K1 K2]; [|by etrans]. split; [by etrans|done].
    + intros [= <- <- _]. split; [done|]. intros e' [= <-]. by apply HP.
Qed.

Lemma recv_steps {C} `{ReadUntil C} (R : C -> C -> Prop) `{!PreOrder R} (P : IoError -> C -> Prop) c0 owning fuel c buf r c' buf' :
  (forall fuel limit c buf r c' buf', R c0 c -> until fuel limit c buf = Some (r, c', buf') -> R c c' /\ forall e, r = Err e -> P e c') ->
  R c0 c -> recv owning fuel c buf = Some (r, c', buf') ->
  R c c' /\ forall e, r = Err e -> P e c' \/ kind e = InvalidData \/ kind e = UnexpectedEof.
Proof.
  intros Hu. revert c buf. induction fuel as [|fuel IH]; intros c buf H0; cbn [recv]; [done|].
  assert (Hfin : forall c1 buf, R c c1 -> match Codec.read_buf buf with
    | Codec.RbAgain => recv owning fuel c1 []
    | Codec.RbError e buf => Some (Err (io_from_parse e), c1, buf)
    | Codec.RbLine buf => match server_parse buf with
        | None => None
        | Some r => Some (map_err io_from_parse r, c1, if owning then [] else buf)
        end
    end = Some (r, c', buf') -> R c c' /\ forall e, r = Err e -> P e c' \/ kind e = InvalidData \/ kind e = UnexpectedEof).
  { intros c1 buf1 H1. destruct (Codec.read_buf buf1) as [|e b|b].
    - intros K. apply IH in K as [K1 K2]; [|by etrans]. split; [by etrans|done].
    - intros [= <- <- _]. split; [done|]. intros e' [= <-]. right. by left.
    - destruct (server_parse b) as [[m|e]|]; [| |done]; intros [= <- <- _]; (split; [done|]); [done|]. intros e' [= <-]. right. by left. }
  destruct (length buf <? Codec.SERVER_MAX_LEN); [|by apply Hfin].
  destruct (until _ _ c buf) as [[[[[|n]|e] c1] buf1]|] eqn:H1; [| | |done]; (apply Hu in H1 as [K1 K2]; [|done]).
  - intros [= <- <- _]. split; [done|]. intros e' [= <-]. right. by right.
  - by apply Hfin.
  - intros [= <- <- _]. split; [done|]. intros e' [= <-]. left. by apply K2.
Qed.

(** What they leave alone. *)
Lemma read_until_keeps {C X} `{BufRead C} (f : C -> X) fuel limit c buf count r c' buf' :
  (forall c r c', fill_buf c = (r, c') -> f c' = f c) -> (forall n c, f (consume n c) = f c) ->
  read_until fuel limit c buf count = Some (r, c', buf') -> f c' = f c.
Proof.
  intros Hf Hc Hr. assert (PreOrder (fun a b : C => f b = f a)) by (split; [done|intros x y z; congruence]).
  destruct (read_until_steps (fun a b => f b = f a) (fun _ _ => True) c fuel limit c buf count r c' buf') as [K _]; try done.
  intros c1 r1 c2 _ H1. split; [by eapply Hf|done].
Qed.

Lemma recv_keeps {C X} `{ReadUntil C} (f : C -> X) owning fuel c buf r c' buf' :
  (forall fuel limit c buf r c' buf', until fuel limit c buf = Some (r, c', buf') -> f c' = f c) ->
  recv owning fuel c buf = Some (r, c', buf') -> f c' = f c.
Proof.
  intros Hu Hr. assert (PreOrder (fun a b : C => f b = f a)) by (split; [done|intros x y z; congruence]).
  destruct (recv_steps (fun a b => f b = f a) (fun _ _ => True) c owning fuel c buf r c' buf') as [K _]; try done.
  intros fu li c1 b1 r1 c2 b2 _ H1. split; [by eapply Hu|done].
Qed.

(** ** Laws *)

(** What the code relies on of a [BufRead]: it delivers the bytes of one stream,
    whatever is buffered comes next, nothing is only delivered at the end, and
    it is interrupted finitely often. *)
Class BufReadOk (C : Type) `{BufRead C} := {
  stream : C -> list byte;
  interrupts : C -> nat;
  fill_ok c l c' : fill_buf c = (Ok l, c') ->
    l `prefix_of` stream c /\ (l = [] -> stream c = []) /\ stream c' = stream c /\ interrupts c' <= interrupts c;
  fill_err c e c' : fill_buf c = (Err e, c') ->
    stream c' = stream c /\ interrupts c' <= interrupts c /\ (kind e = Interrupted -> interrupts c' < interrupts c);
  consume_ok c l c' n : fill_buf c = (Ok l, c') -> n <= length l ->
    stream (consume n c') = drop n (stream c') /\ interrupts (consume n c') <= interrupts c';
  consume_0 c : stream (consume 0 c) = stream c /\ interrupts (consume 0 c) <= interrupts c;
}.

(** Byte by byte, a chunk without a newline is all taken. *)
Lemma codec_read_chunk l limit rest buf count :
  Forall (fun b => Byte.eqb b "010" = false) l -> length l <= limit ->
  Codec.read_until limit ((Some <$> l) ++ rest) buf count =
  Codec.read_until (limit - length l) rest (buf ++ l) (count + length l).
Proof.
  intros Hl. revert limit buf count. induction Hl as [|b l Hb _ IH]; intros limit buf count Hlen; cbn [length fmap list_fmap app].
  - by rewrite Nat.sub_0_r, app_nil_r, Nat.add_0_r.
  - destruct limit as [|limit]; [cbn in Hlen; lia|]. cbn [Codec.read_until]. rewrite Hb. rewrite IH by (cbn in Hlen; lia).
    rewrite <- app_assoc. cbn [app Nat.sub]. by replace (count + 1 + length l) with (count + S (length l)) by lia.
Qed.

Section RecvThms.
Context {C : Type} `{BufReadOk C}.

(** One chunk: what it brings and what is left of the limit. *)
Lemma take_fill_spec limit c r c1 :
  take_fill_buf limit c = (r, c1) ->
  match r with
  | Ok l =>
      forall n, n <= length l ->
      exists l1 l2, l = l1 ++ l2 /\ length l1 = n /\ length l <= limit /\ stream c = l1 ++ stream (consume n c1) /\
        interrupts (consume n c1) <= interrupts c /\ (l = [] -> limit = 0 \/ stream c = [])
  | Err e => stream c1 = stream c /\ interrupts c1 <= interrupts c /\ (kind e = Interrupted -> interrupts c1 < interrupts c)
  end.
Proof.
  unfold take_fill_buf. destruct (Nat.eqb_spec limit 0) as [->|Hlim].
  - intros [= <- <-] n Hn. cbn in Hn. assert (n = 0) as -> by lia. exists [], []. destruct (consume_0 c) as [-> Hi].
    split_and!; try done. by left.
  - destruct (fill_buf c) as [[l|e] c'] eqn:Hf; intros [= <- <-]; [|by apply fill_err].
    intros n Hn. apply fill_ok in Hf as Hok. destruct Hok as (Hp & He & Hs & Hi).
    assert (Hnl : n <= length l) by (rewrite length_take in Hn; lia).
    destruct (consume_ok c l c' n Hf Hnl) as [Hc1 Hc2]. exists (take n (take limit l)), (drop n (take limit l)).
    rewrite take_drop, length_take, Nat.min_l by done. split; [done|]. split; [done|]. split; [rewrite length_take; lia|].
    split; [|split; [lia|]].
    + rewrite Hc1, Hs, take_take. replace (Nat.min n limit) with n by (rewrite length_take in Hn; lia).
      destruct Hp as [k ->]. by rewrite drop_app_le, app_assoc, take_drop by done.
    + intros Hnil. right. apply He. destruct l, limit; done.
Qed.

Lemma read_until_spec fuel limit c buf count r c' buf' :
  read_until fuel limit c buf count = Some (r, c', buf') ->
  exists consumed, stream c = consumed ++ stream c' /\
  match r with
  | Err e => forall rest, Codec.read_until limit ((Some <$> consumed) ++ None :: rest) buf count = (Err (), rest, buf')
  | Ok n =>
      (forall rest, Codec.read_until limit ((Some <$> consumed) ++ rest) buf count = (Ok n, rest, buf')) \/
      (stream c' = [] /\ Codec.read_until limit (Some <$> consumed) buf count = (Ok n, [], buf') /\
       Forall (fun b => Byte.eqb b "010" = false) consumed /\ buf' = buf ++ consumed /\ n = count + length consumed)
  end.
Proof.
  revert limit c buf count. induction fuel as [|fuel IH]; intros limit c buf count; cbn [read_until]; [done|].
  destruct (take_fill_buf limit c) as [[l|e] c1] eqn:Hf; pose proof (take_fill_spec limit c _ c1 Hf) as Hs; cbn [kind] in *.
  - destruct (position (fun b => Byte.eqb b "010") l) as [i|] eqn:Hp.
    + apply position_Some in Hp as (Hi & Hpre & x & Hx & Hx10). cbn [orb]. unfold take_consume.
      destruct (Hs (i + 1) ltac:(lia)) as (l1 & l2 & -> & Hl1 & Hlim & Hst & _). 
      rewrite Nat.min_l by (rewrite length_app in Hlim; lia). intros [= <- <- <-].
      exists l1. split; [done|]. left. intros rest. rewrite <- Hl1, take_app_length.
      assert (Hq : l1 = take i (l1 ++ l2) ++ ["010"%byte]).
      { destruct (byte_eqb_spec x "010"%byte) as [->|]; [|done]. rewrite <- (take_S_r _ _ _ Hx). rewrite <- Nat.add_1_r, <- Hl1. by rewrite take_app_length. }
      assert (Hlen : length (take i (l1 ++ l2)) = i) by (rewrite length_take; lia).
      rewrite Hq at 1. rewrite Codec.read_until_line; [|done|rewrite length_app in Hlim; lia].
      rewrite Hlen, <- Hq. do 3 f_equal. lia.
    + apply position_None in Hp. destruct (Hs (length l) ltac:(lia)) as (l1 & l2 & He & Hl1 & Hlim & Hst & _ & Hnil).
      assert (Hl2 : l2 = []) by (apply length_zero_iff_nil; apply (f_equal length) in He; rewrite length_app in He; lia).
      subst l2. rewrite app_nil_r in He. subst l1. cbn [orb]. unfold take_consume. rewrite Nat.min_l by done. rewrite firstn_all.
      destruct (Nat.eqb_spec (length l) 0) as [Hz|Hnz].
      * apply length_zero_iff_nil in Hz. subst l. cbn [length app] in *. intros [= <- <- <-]. exists []. split; [done|].
        rewrite app_nil_r, Nat.add_0_r. destruct (Hnil eq_refl) as [->|Hempty].
        -- left. intros rest. destruct rest; done.
        -- right. rewrite <- Hst, Hempty. split; [done|]. split; [by destruct limit|]. done.
      * intros K. apply IH in K as (consumed & Hc & K). exists (l ++ consumed). split; [by rewrite Hst, Hc, app_assoc|].
        destruct r as [n|e].
        -- destruct K as [K|(K1 & K2 & K3 & K4 & K5)]; [left; intros rest|right].
           ++ rewrite fmap_app, <- app_assoc, codec_read_chunk by done. apply K.
           ++ split; [done|]. rewrite fmap_app, codec_read_chunk by done. split; [done|]. split; [by apply Forall_app|].
              rewrite app_assoc. split; [done|]. rewrite length_app. lia.
        -- intros rest. rewrite fmap_app, <- app_assoc, codec_read_chunk by done. apply K.
  - destruct Hs as (Hs & _). case_bool_decide as Hk.
    + intros K. apply IH in K as (consumed & Hc & K). exists consumed. by rewrite <- Hs.
    + intros [= <- <- <-]. exists []. split; [done|]. intros rest. destruct limit as [|limit]; [|done].
      unfold take_fill_buf in Hf. done.
Qed.

Lemma read_until_total fuel limit c buf count :
  limit + interrupts c < fuel -> exists r, read_until fuel limit c buf count = Some r.
Proof.
  revert limit c buf count. induction fuel as [|fuel IH]; intros limit c buf count Hf; [lia|]. cbn [read_until].
  destruct (take_fill_buf limit c) as [[l|e] c1] eqn:Ht; pose proof (take_fill_spec limit c _ c1 Ht) as Hs; cbn in Hs.
  - destruct (position _ l) as [i|] eqn:Hp; cbn [orb]; [by eexists|]. unfold take_consume.
    destruct (Hs (length l) ltac:(lia)) as (l1 & l2 & _ & _ & Hlim & _ & Hi & _). rewrite Nat.min_l by done.
    destruct (Nat.eqb_spec (length l) 0); [by eexists|]. apply IH. lia.
  - destruct Hs as (_ & Hi & Hk). case_bool_decide as Hint; [|by eexists]. apply IH. apply Hk in Hint. lia.
Qed.

End RecvThms.

(** Reading up to a newline is doing so byte by byte, until the stream ends or an
    error comes in between; fuel for the limit and the delays is enough. *)
Class ReadUntilOk (C : Type) `{ReadUntil C} := {
  coming : C -> list byte;
  delays : C -> nat;
  until_ok fuel limit c buf r c' buf' : until fuel limit c buf = Some (r, c', buf') ->
    exists consumed, coming c = consumed ++ coming c' /\
    match r with
    | Err e => forall rest, Codec.read_until limit ((Some <$> consumed) ++ None :: rest) buf 0 = (Err (), rest, buf')
    | Ok n =>
        (forall rest, Codec.read_until limit ((Some <$> consumed) ++ rest) buf 0 = (Ok n, rest, buf')) \/
        (coming c' = [] /\ Codec.read_until limit (Some <$> consumed) buf 0 = (Ok n, [], buf') /\
         Forall (fun b => Byte.eqb b "010" = false) consumed /\ buf' = buf ++ consumed /\ n = 0 + length consumed)
    end;
  until_total fuel limit c buf : limit + delays c < fuel -> exists r, until fuel limit c buf = Some r;
}.

Definition BufRead_ReadUntilOk {C} `{BufReadOk C} : ReadUntilOk C := {|
  coming := stream;
  delays := interrupts;
  until_ok fuel limit c buf r c' buf' := read_until_spec fuel limit c buf 0 r c' buf';
  until_total fuel limit c buf := read_until_total fuel limit c buf 0;
|}.
#[global] Existing Instance BufRead_ReadUntilOk.

Section RecvMsgThms.
Context {C : Type} `{ReadUntilOk C}.

(** A result of the reader of bytes for one of the buffered reader. *)
Definition abstract {T} (r : result T IoError) : result T Codec.IoError :=
  match r with
  | Ok m => Ok m
  | Err e => match cause e with Some p => Err (Codec.ParseFailed p) | None => Err Codec.UnexpectedEof end
  end.

(** An error that is not the connection's. *)
Definition own_error {T} (r : result T IoError) : Prop :=
  match r with Ok _ => True | Err e => kind e = InvalidData \/ kind e = UnexpectedEof end.

(** A buffer that ends without a newline is no blank line. *)
Lemma read_buf_no_newline l b : Byte.eqb b "010" = false -> Codec.read_buf (l ++ [b]) <> Codec.RbAgain /\
  forall l', Codec.read_buf (l ++ [b]) <> Codec.RbLine l'.
Proof.
  intros Hb. unfold Codec.read_buf. rewrite rev_app_distr. cbn [rev app Codec.read_buf_loop]. rewrite Hb, andb_false_r.
  by destruct (_ || _).
Qed.

(** What is done with the buffer once a line is read, here and in the codec. *)
Definition recv_after (owning : bool) (fuel : nat) (c : C) (buf : list byte) :=
  match Codec.read_buf buf with
  | Codec.RbAgain => recv owning fuel c []
  | Codec.RbError e buf => Some (Err (io_from_parse e), c, buf)
  | Codec.RbLine buf => match server_parse buf with
      | None => None
      | Some r => Some (map_err io_from_parse r, c, if owning then [] else buf)
      end
  end.

Definition codec_after (owning : bool) (fuel : nat) (buf : list byte) (read : list (option byte)) :=
  match Codec.read_buf buf with
  | Codec.RbAgain => Codec.read_msg Codec.SERVER_MAX_LEN server_parse owning fuel read []
  | Codec.RbError e buf => Some (Err (Codec.ParseFailed e), read, buf)
  | Codec.RbLine buf => match server_parse buf with
      | None => None
      | Some r => Some (map_err Codec.ParseFailed r, read, if owning then [] else buf)
      end
  end.

(** The codec comes to the same result, or fails to read where the connection
    did; [P] is known of the errors of the connection. *)
Definition recv_as (P : IoError -> C -> Prop) codec (c : C) (r : result ServerMsg IoError) (c' : C) (buf' : list byte) : Prop :=
  exists consumed, coming c = consumed ++ coming c' /\
  ((codec (Some <$> coming c) = Some (abstract r, Some <$> coming c', buf') /\ own_error r) \/
   (exists e, r = Err e /\ P e c' /\
      codec ((Some <$> consumed) ++ None :: (Some <$> coming c')) = Some (Err Codec.ReadError, Some <$> coming c', buf'))).

Lemma recv_after_spec P owning fuel c0 buf0 r c' buf' :
  (forall buf, recv owning fuel c0 buf = Some (r, c', buf') ->
     recv_as P (fun read => Codec.read_msg Codec.SERVER_MAX_LEN server_parse owning fuel read buf) c0 r c' buf') ->
  recv_after owning fuel c0 buf0 = Some (r, c', buf') -> recv_as P (codec_after owning fuel buf0) c0 r c' buf'.
Proof.
  intros IH. unfold recv_after, recv_as, codec_after. destruct (Codec.read_buf buf0) as [|e b|b].
  - intros K. apply IH in K. exact K.
  - intros [= <- <- <-]. exists []. split; [done|]. left. split; [done|]. by left.
  - destruct (server_parse b) as [[m|e]|]; [| |done]; intros [= <- <- <-]; exists []; (split; [done|]); left; (split; [done|]);
      [done|by left].
Qed.

(** A line that was cut off is not read again. *)
Lemma codec_after_unfinished owning fuel buf cons read x y :
  cons <> [] -> Forall (fun b => Byte.eqb b "010" = false) cons -> codec_after owning fuel (buf ++ cons) read <> Some (Err Codec.ReadError, x, y).
Proof.
  intros Hne Hnl. destruct cons as [|b cons _] using rev_ind; [done|]. apply Forall_app in Hnl as [_ Hnl]. apply Forall_inv in Hnl.
  rewrite app_assoc. unfold codec_after. destruct (read_buf_no_newline (buf ++ cons) b Hnl) as [K1 K2].
  destruct (Codec.read_buf _) as [|e' b'|b']; [done|done|by destruct (K2 b')].
Qed.

(** What is known of the errors of a step of reading is known of the errors that
    end it; [R] relates what the connection goes through. *)
Lemma recv_spec_steps (R : C -> C -> Prop) `{!PreOrder R} (P : IoError -> C -> Prop) c0 owning fuel c buf r c' buf' :
  (forall fuel limit c buf r c' buf', R c0 c -> until fuel limit c buf = Some (r, c', buf') -> R c c' /\ forall e, r = Err e -> P e c') ->
  R c0 c -> recv owning fuel c buf = Some (r, c', buf') ->
  R c c' /\ recv_as P (fun read => Codec.client_codec_read owning fuel read buf) c r c' buf'.
Proof.
  intros Hu. unfold Codec.client_codec_read. revert c buf. induction fuel as [|fuel IH]; intros c buf Hc0; cbn [recv]; [done|].
  assert (Hfin : forall c1 buf1, R c c1 -> recv_after owning fuel c1 buf1 = Some (r, c', buf') ->
    R c c' /\ recv_as P (codec_after owning fuel buf1) c1 r c' buf').
  { intros c1 buf1 H1 K. split.
    - unfold recv_after in K. destruct (Codec.read_buf buf1) as [|e b|b]; [|by injection K as _ <- _|].
      + apply IH in K as [K _]; by etrans.
      + destruct (server_parse b) as [[m|e]|]; [| |done]; by injection K as _ <- _.
    - apply recv_after_spec; [|done]. intros buf2 K2. apply IH in K2 as [_ K2]; [done|]. by etrans. }
  unfold recv_as. cbn [Codec.read_msg]. destruct (length buf <? Codec.SERVER_MAX_LEN).
  2: { intros K. change (recv_after owning fuel c buf = Some (r, c', buf')) in K. apply Hfin in K as [K1 K2]; [|done]. split; [done|exact K2]. }
  destruct (until (S fuel) _ c buf) as [[[[n|e] c1] buf1]|] eqn:Hru; [| |done]; pose proof (Hu _ _ _ _ _ _ _ Hc0 Hru) as [Hc1 HP];
    apply until_ok in Hru as (cons & Hc & Hru).
  2: { intros [= <- <- <-]. split; [done|]. exists cons. split; [done|]. right. exists e. split; [done|]. split; [by apply HP|]. by rewrite Hru. }
  destruct Hru as [Hru|(Heof & Hru & Hnl & Hb & Hn)].
  - destruct n as [|n].
    + intros [= <- <- <-]. split; [done|]. exists cons. split; [done|]. left. rewrite Hc, fmap_app, Hru. split; [done|by right].
    + intros K. change (recv_after owning fuel c1 buf1 = Some (r, c', buf')) in K. apply Hfin in K as [K0 (cons2 & Hc2 & K)]; [|done].
      split; [done|]. exists (cons ++ cons2). split; [by rewrite Hc, Hc2, app_assoc|].
      destruct K as [[K Ho]|(e & -> & He & K)]; [left|right; exists e; split; [done|]; split; [done|]].
      * rewrite Hc, fmap_app, Hru. by split.
      * rewrite fmap_app, <- app_assoc, Hru. exact K.
  - rewrite Heof, app_nil_r in Hc. destruct n as [|n].
    + intros [= <- <- <-]. split; [done|]. exists cons. rewrite Heof, app_nil_r. split; [done|]. left. rewrite Hc, Hru. split; [done|by right].
    + intros K. change (recv_after owning fuel c1 buf1 = Some (r, c', buf')) in K. apply Hfin in K as [K0 (cons2 & Hc2 & K)]; [|done].
      split; [done|]. exists cons. rewrite Heof in Hc2. symmetry in Hc2.
      apply app_eq_nil in Hc2 as [-> Hc'0]. rewrite Hc'0, app_nil_r. split; [done|]. rewrite Heof, Hc'0 in K. left. rewrite Hc, Hru.
      destruct K as [K|(e & -> & _ & K)]; [exact K|exfalso]. rewrite Hb in K. revert K. apply codec_after_unfinished; [|done].
      intros ->. cbn in Hn. lia.
Qed.

Lemma recv_spec owning fuel c buf r c' buf' :
  recv owning fuel c buf = Some (r, c', buf') ->
  exists consumed, coming c = consumed ++ coming c' /\
  ((Codec.client_codec_read owning fuel (Some <$> coming c) buf = Some (abstract r, Some <$> coming c', buf') /\ own_error r) \/
   (exists e, r = Err e /\
    Codec.client_codec_read owning fuel ((Some <$> consumed) ++ None :: (Some <$> coming c')) buf =
      Some (Err Codec.ReadError, Some <$> coming c', buf'))).
Proof.
  intros K. assert (PreOrder (fun _ _ : C => True)) by done.
  destruct (recv_spec_steps (fun _ _ => True) (fun _ _ => True) c owning fuel c buf r c' buf') as [_ (cons & Hc & K2)]; try done.
  exists cons. split; [done|]. destruct K2 as [K2|(e & -> & _ & K2)]; [by left|right; by exists e].
Qed.

Lemma fmap_Some_inj (l k : list byte) : Some <$> l = Some <$> k -> l = k.
Proof. apply (inj (fmap Some)). Qed.

(** What is left of a line ends with its only newline. *)
Lemma line_rest p q l :
  p ++ q = l ++ Codec.CRLF -> q <> [] -> valid Line l ->
  exists q', q = q' ++ ["010"%byte] /\ Forall (fun b => Byte.eqb b "010" = false) q'.
Proof.
  intros Hpq Hq Hv. destruct q as [|x q' _] using rev_ind; [done|]. exists q'. rewrite app_assoc in Hpq.
  change Codec.CRLF with (["013"%byte] ++ ["010"%byte]) in Hpq. rewrite app_assoc in Hpq. apply app_inj_tail in Hpq as [Hpq ->].
  split; [done|]. assert (Hn : Forall (fun b => Byte.eqb b "010" = false) (p ++ q')).
  { rewrite Hpq. apply Forall_app. split; [by apply Codec.line_no_nl|by constructor]. }
  by apply Forall_app in Hn as [_ ?].
Qed.

(** Of two ways to cut a list, one is the shorter. *)
Lemma cut_twice {T} (a b x y : list T) :
  a ++ x = b ++ y -> (exists k, k <> [] /\ a = b ++ k) \/ exists k, b = a ++ k.
Proof.
  intros He. destruct (Nat.lt_ge_cases (length b) (length a)) as [Hlt|Hge].
  - left. exists (drop (length b) a). split; [intros Hd; apply (f_equal length) in Hd; rewrite length_drop in Hd; cbn in Hd; lia|].
    rewrite <- (take_drop (length b) a) at 1. f_equal. apply (f_equal (take (length b))) in He.
    rewrite take_app_le in He by lia. by rewrite take_app_length in He.
  - right. exists (drop (length a) b). rewrite <- (take_drop (length a) b) at 1. f_equal. apply (f_equal (take (length a))) in He.
    by rewrite take_app_length, take_app_le in He.
Qed.

(** A line that is on its way, once the first read on the way is over. *)
Lemma recv_line_spec owning fuel c p q l rest m r0 :
  coming c = q ++ rest -> p ++ q = l ++ Codec.CRLF -> q <> [] -> valid Line l -> l <> [] ->
  length l + 2 <= Codec.SERVER_MAX_LEN -> server_parse l = Some (Ok m) ->
  until (S fuel) (Codec.SERVER_MAX_LEN - length p) c p = Some r0 ->
  exists r c' buf', recv owning (S fuel) c p = Some (r, c', buf') /\
    ((r = Ok m /\ coming c' = rest /\ buf' = if owning then [] else l) \/
     (exists e q1 q2, r = Err e /\ q = q1 ++ q2 /\ q2 <> [] /\ coming c' = q2 ++ rest /\ buf' = p ++ q1)).
Proof.
  intros Hst Hpq Hq Hv Hl Hlen Hm Hru. cbn [recv].
  assert (Hlp : length p + length q = length l + 2) by (by rewrite <- length_app, Hpq, length_app).
  assert (Hlq : length q <> 0) by by destruct q.
  rewrite (proj2 (Nat.ltb_lt _ _)) by lia. set (limit := Codec.SERVER_MAX_LEN - length p) in *.
  rewrite Hru. destruct r0 as [[r c1] buf1].
  apply until_ok in Hru as (cons & Hc & Hru). rewrite Hst in Hc.
  destruct (line_rest p q l Hpq Hq Hv) as (q' & Hq' & Hnl).
  assert (Hlq' : length q' < limit) by (rewrite Hq', length_app in Hlp; cbn in Hlp; unfold limit; lia).
  assert (Hline : forall rest' n, Codec.read_until limit ((Some <$> q) ++ rest') p n = (Ok (n + length q' + 1), rest', p ++ q)).
  { intros rest' n. rewrite Hq'. by apply Codec.read_until_line. }
  destruct r as [n|e].
  - destruct Hru as [Hru|(Heof & Hru & Hno & _)].
    + specialize (Hru (Some <$> coming c1)). rewrite <- fmap_app, <- Hc, fmap_app, Hline in Hru.
      injection Hru as <- Hs Hb. apply fmap_Some_inj in Hs. rewrite Nat.add_1_r. subst buf1. rewrite Hpq, Codec.read_buf_line by done.
      rewrite Hm. do 3 eexists. split; [done|]. left. by rewrite <- Hs.
    + exfalso. rewrite Heof, app_nil_r in Hc. rewrite <- Hc, Hq', !Forall_app in Hno. destruct Hno as [[_ Hno] _]. by apply Forall_inv in Hno.
  - do 3 eexists. split; [done|]. right.
    destruct (cut_twice q cons rest (coming c1) Hc) as [(q2 & Hne & Hk)|(k & ->)].
    2: { specialize (Hru []). by rewrite fmap_app, <- app_assoc, Hline in Hru. }
    destruct q2 as [|x q2 _] using rev_ind; [done|]. pose proof Hk as Hk2. rewrite Hq', app_assoc in Hk2.
    apply app_inj_tail in Hk2 as [-> _]. apply Forall_app in Hnl as [Hnl _]. rewrite length_app in Hlq'.
    specialize (Hru []). rewrite Codec.read_until_interrupt in Hru by (done || lia). injection Hru as Hb.
    exists e, cons, (q2 ++ [x]). split; [done|]. split; [done|]. split; [done|]. split; [|done].
    rewrite Hk, <- app_assoc in Hc. by apply app_inv_head in Hc.
Qed.

Lemma recv_message_spec owning fuel c p q l rest m :
  coming c = q ++ rest -> p ++ q = l ++ Codec.CRLF -> q <> [] -> valid Line l -> l <> [] ->
  length l + 2 <= Codec.SERVER_MAX_LEN -> server_parse l = Some (Ok m) -> Codec.SERVER_MAX_LEN + delays c < fuel ->
  exists r c' buf', recv owning fuel c p = Some (r, c', buf') /\
    ((r = Ok m /\ coming c' = rest /\ buf' = if owning then [] else l) \/
     (exists e q1 q2, r = Err e /\ q = q1 ++ q2 /\ q2 <> [] /\ coming c' = q2 ++ rest /\ buf' = p ++ q1)).
Proof.
  intros Hst Hpq Hq Hv Hl Hlen Hm Hfuel. destruct fuel as [|fuel]; [lia|].
  destruct (until_total (S fuel) (Codec.SERVER_MAX_LEN - length p) c p ltac:(lia)) as [r0 Hru].
  by eapply recv_line_spec.
Qed.

(** The same for whatever fuel the read ended with. *)
Lemma recv_message_partial owning fuel c p q l rest m r c' buf' :
  coming c = q ++ rest -> p ++ q = l ++ Codec.CRLF -> q <> [] -> valid Line l -> l <> [] ->
  length l + 2 <= Codec.SERVER_MAX_LEN -> server_parse l = Some (Ok m) ->
  recv owning fuel c p = Some (r, c', buf') ->
  (r = Ok m /\ coming c' = rest) \/
  (exists e q1 q2, r = Err e /\ q = q1 ++ q2 /\ q2 <> [] /\ coming c' = q2 ++ rest /\ buf' = p ++ q1).
Proof.
  intros Hst Hpq Hq Hv Hl Hlen Hm Hr. destruct fuel as [|fuel]; [done|].
  destruct (until (S fuel) (Codec.SERVER_MAX_LEN - length p) c p) as [r0|] eqn:Hru.
  - destruct (recv_line_spec owning fuel c p q l rest m r0 Hst Hpq Hq Hv Hl Hlen Hm Hru) as (r1 & c1 & b1 & Hr1 & Hc).
    rewrite Hr1 in Hr. injection Hr as -> -> ->. tauto.
  - exfalso. cbn [recv] in Hr. assert (Hlp : length p + length q = length l + 2) by (by rewrite <- length_app, Hpq, length_app).
    assert (Hlq : length q <> 0) by by destruct q. rewrite (proj2 (Nat.ltb_lt _ _)) in Hr by lia. by rewrite Hru in Hr.
Qed.
End RecvMsgThms.

Section Buffered.
Context {C : Type} `{BufReadOk C}.

(** What reading does to the connection: it fills the buffer and consumes. *)
Definition read_step (c c' : C) : Prop := (exists r, fill_buf c = (r, c')) \/ exists n, c' = consume n c.

(** An error that the connection reported while it was read from [c]; it is
    not just an interruption. *)
Definition reported (c : C) (e : IoError) (c' : C) : Prop :=
  kind e <> Interrupted /\ exists c1, rtc read_step c c1 /\ fill_buf c1 = (Err e, c').

Lemma recv_reported owning fuel c buf r c' buf' :
  recv owning fuel c buf = Some (r, c', buf') ->
  recv_as (reported c) (fun read => Codec.client_codec_read owning fuel read buf) c r c' buf'.
Proof.
  intros K. eapply (recv_spec_steps (rtc read_step) (reported c) c); [|done|exact K]. clear.
  intros fuel limit c1 buf r c' buf' H1. apply (read_until_steps (rtc read_step) (reported c) c); [| |done].
  - intros c2 r2 c3 H2 Hf. split; [apply rtc_once; left; by eexists|]. intros e -> Hk. split; [done|]. by exists c2.
  - intros n c2. apply rtc_once. right. by exists n.
Qed.

Lemma read_until_interrupts fuel limit c buf count r c' buf' :
  read_until fuel limit c buf count = Some (r, c', buf') -> interrupts c' <= interrupts c.
Proof.
  revert limit c buf count. induction fuel as [|fuel IH]; intros limit c buf count; cbn [read_until]; [done|].
  destruct (take_fill_buf limit c) as [[l|e] c1] eqn:Ht; pose proof (take_fill_spec limit c _ c1 Ht) as Hs; cbn in Hs.
  - assert (Hgo : forall n limit' buf count, n <= length l ->
      read_until fuel limit' (consume (Nat.min n limit) c1) buf count = Some (r, c', buf') -> interrupts c' <= interrupts c).
    { intros n limit' buf1 count1 Hn K. apply IH in K. destruct (Hs n Hn) as (l1 & l2 & _ & _ & Hlim & _ & Hi & _).
      rewrite Nat.min_l in K by lia. lia. }
    destruct (position _ l) as [i|] eqn:Hp; cbn [orb]; unfold take_consume.
    + apply position_Some in Hp as (Hi & _). destruct (Hs (i + 1) ltac:(lia)) as (l1 & l2 & _ & _ & Hlim & _ & Hint & _).
      rewrite Nat.min_l by lia. intros [= _ <- _]. done.
    + destruct (length l =? 0).
      * destruct (Hs (length l) ltac:(lia)) as (l1 & l2 & _ & _ & Hlim & _ & Hint & _). rewrite Nat.min_l by lia. by intros [= _ <- _].
      * by apply Hgo.
  - destruct Hs as (_ & Hi & _). case_bool_decide; [|by intros [= _ <- _]]. intros K%IH. lia.
Qed.

(** A read up to a newline appends what it consumes, as many bytes as it counts. *)
Lemma until_appends fuel limit c buf n c' buf' :
  until fuel limit c buf = Some (Ok n, c', buf') -> exists consumed, stream c = consumed ++ stream c' /\ length consumed = n /\ buf' = buf ++ consumed.
Proof.
  intros Hu. apply until_ok in Hu as (cons & Hc & Hu). exists cons. split; [exact Hc|].
  assert (K : forall limit (read : list (option byte)) buf count m rest buf', Codec.read_until limit read buf count = (Ok m, rest, buf') ->
    exists k, read = (Some <$> k) ++ rest /\ m = count + length k /\ buf' = buf ++ k).
  { clear. induction limit as [|limit IH]; intros read buf count m rest buf'; cbn [Codec.read_until].
    { intros [= <- <- <-]. exists []. split; [done|]. cbn. split; [lia|by rewrite app_nil_r]. }
    destruct read as [|[b|] read]; [|destruct (Byte.eqb b "010")|done].
    - intros [= <- <- <-]. exists []. split; [done|]. cbn. split; [lia|by rewrite app_nil_r].
    - intros [= <- <- <-]. exists [b]. split; [done|]. cbn. split; [lia|done].
    - intros (k & -> & -> & ->)%IH. exists (b :: k). split; [done|]. cbn. split; [lia|by rewrite <- app_assoc]. }
  destruct Hu as [Hu|(_ & Hu & _)].
  - specialize (Hu []). apply K in Hu as (k & Hk & -> & ->). rewrite !app_nil_r in Hk. apply fmap_Some_inj in Hk as ->. done.
  - apply K in Hu as (k & Hk & -> & ->). rewrite app_nil_r in Hk. apply fmap_Some_inj in Hk as ->. done.
Qed.

Lemma read_buf_prefix buf l : Codec.read_buf buf = Codec.RbLine l -> l `prefix_of` buf.
Proof.
  unfold Codec.read_buf. rewrite <- (rev_involutive buf) at 2. generalize (rev buf) as r, false as f. clear.
  induction r as [|b r IH]; intros f; cbn [Codec.read_buf_loop]; [done|].
  assert (Hgo : forall f, Codec.read_buf_loop r f = Codec.RbLine l -> l `prefix_of` rev (b :: r)).
  { intros f' K%IH. cbn [rev]. by apply prefix_app_r. }
  destruct (Byte.eqb b "010"); [apply Hgo|]. destruct (Byte.eqb b "013" && f); [apply Hgo|]. destruct (_ || _); [done|].
  destruct f; [|done]. by intros [= <-].
Qed.

(** A stretch of what is read that the parser does not get to the end of. *)
Definition never_parsed (s : list byte) : Prop := exists x l y, s = x ++ l ++ y /\ server_parse l = None.

Lemma recv_ends owning fuel c buf :
  (if length buf <? Codec.SERVER_MAX_LEN then 0 else 1) + length (stream c) + Codec.SERVER_MAX_LEN + interrupts c < fuel ->
  (exists r, recv owning fuel c buf = Some r) \/ never_parsed (buf ++ stream c).
Proof.
  revert c buf. induction fuel as [|fuel IH]; intros c buf Hf; [lia|]. cbn [recv].
  assert (Hzero : (length (A := byte) [] <? Codec.SERVER_MAX_LEN) = true) by (by vm_compute).
  assert (Hfin : forall c1 buf1, length (stream c1) + Codec.SERVER_MAX_LEN + interrupts c1 < fuel ->
    (exists x, buf ++ stream c = x ++ buf1 ++ stream c1) ->
    (exists r, recv_after owning fuel c1 buf1 = Some r) \/ never_parsed (buf ++ stream c)).
  { intros c1 buf1 Hf1 [x Hx]. unfold recv_after. destruct (Codec.read_buf buf1) as [|e b|b] eqn:Hb.
    - destruct (IH c1 []) as [K|(x' & l & y & K1 & K2)]; [rewrite Hzero; lia|by left|right]. cbn in K1.
      exists (x ++ buf1 ++ x'), l, y. split; [|done]. by rewrite Hx, K1, <- !app_assoc.
    - left. by eexists.
    - apply read_buf_prefix in Hb as [y ->]. destruct (server_parse b) as [r|] eqn:Hp; [left; by eexists|right].
      exists x, b, (y ++ stream c1). split; [|done]. by rewrite Hx, <- app_assoc. }
  destruct (length buf <? Codec.SERVER_MAX_LEN) eqn:Hlen.
  - apply Nat.ltb_lt in Hlen. destruct (until_total (S fuel) (Codec.SERVER_MAX_LEN - length buf) c buf) as [[[r c1] buf1] Hu].
    { cbn [delays BufRead_ReadUntilOk]. lia. }
    rewrite Hu. destruct r as [[|n]|e]; [left; by eexists| |left; by eexists].
    apply (Hfin c1 buf1).
    + pose proof (read_until_interrupts _ _ _ _ _ _ _ _ Hu) as Hi. apply until_appends in Hu as (k & Hk & Hn & _).
      apply (f_equal length) in Hk. rewrite length_app in Hk. lia.
    + apply until_appends in Hu as (k & Hk & _ & ->). exists []. by rewrite Hk, <- app_assoc.
  - apply (Hfin c buf); [lia|]. by exists [].
Qed.

(** C18: Reading a message through buffers that deliver the stream in any chunks is
    reading it byte by byte.  With fuel for the bytes, the length of a line and
    the interruptions it ends, unless the parser never gets to the end of a
    stretch of the stream; and the result, the bytes used up and the buffer are
    those of the reader of the whole stream or, if the connection reports an
    error that is not an interruption, this error, with the buffer of the reader
    of a stream that fails there.  An interruption is tried again. *)
Theorem recv_refines owning fuel c buf :
  (length (stream c) + Codec.SERVER_MAX_LEN + interrupts c + 1 < fuel -> recv owning fuel c buf = None -> never_parsed (buf ++ stream c)) /\
  forall r c' buf', recv owning fuel c buf = Some (r, c', buf') ->
  exists consumed, stream c = consumed ++ stream c' /\
  ((Codec.client_codec_read owning fuel (Some <$> stream c) buf = Some (abstract r, Some <$> stream c', buf') /\ own_error r) \/
   (exists e, r = Err e /\ reported c e c' /\
    Codec.client_codec_read owning fuel ((Some <$> consumed) ++ None :: (Some <$> stream c')) buf =
      Some (Err Codec.ReadError, Some <$> stream c', buf'))).
Proof.
  split; [|intros r c' buf'; exact (recv_reported owning fuel c buf r c' buf')]. intros Hf Hn.
  destruct (recv_ends owning fuel c buf) as [[r Hr]|K]; [destruct (_ <? _); lia|congruence|done].
Qed.

(** A line that is on its way, in part read before, arrives: with fuel for
    the bytes of a line and the interruptions the read ends, with the message
    the line parses to and the stream just behind it, or with an error of the
    connection somewhere in the line, all before it being in the buffer for the
    next read. *)
Theorem recv_message owning fuel c p q l rest m :
  stream c = q ++ rest -> p ++ q = l ++ Codec.CRLF -> q <> [] -> valid Line l -> l <> [] ->
  length l + 2 <= Codec.SERVER_MAX_LEN -> server_parse l = Some (Ok m) -> Codec.SERVER_MAX_LEN + interrupts c < fuel ->
  exists r c' buf', recv owning fuel c p = Some (r, c', buf') /\
    ((r = Ok m /\ stream c' = rest /\ buf' = if owning then [] else l) \/
     (exists e q1 q2, r = Err e /\ q = q1 ++ q2 /\ q2 <> [] /\ stream c' = q2 ++ rest /\ buf' = p ++ q1)).
Proof. exact (recv_message_spec owning fuel c p q l rest m). Qed.
End Buffered.
