(* ===== verification/Client.v ===== *)
(** * The client

    [src/client.rs], [src/client/logic.rs], [src/client/conn.rs] and the [run]
    loop of [src/client/conn/sync.rs].  Handlers and the timeout function are
    parameters, as the calls of [Handlers.v]; what the connection does, and the
    time it takes, is the connection's state.  [run] may go on as long as the
    connection gives it something to do and has fuel. *)

From S2P Require Import Prelude Args Tags Numeric Source Strings Splitter Msg Time.
From S2P Require Handlers State Queue Codec Builder Utf8 Names.

(** ** [ServerAddr] *)

Record ServerAddr := mkAddr { address : list byte; tls : bool; port : option N }.

Definition from_host (a : list byte) : result ServerAddr InvalidString :=
  match from_bytes Word a with Ok a => Ok (mkAddr a true None) | Err e => Err e end.

Definition port_num (s : ServerAddr) : N :=
  match port s with Some no => no | None => if tls s then 6697 else 6667 end%N.

(** [PartialEq]. *)
Definition addr_eq (a b : ServerAddr) : bool :=
  Bool.eqb (tls a) (tls b) && N.eqb (port_num a) (port_num b) && bool_decide (address a = address b).

Definition to_word (s : ServerAddr) : list byte :=
  let builder := Builder.append (plain (address s)) (Builder.new (plain [])) in
  let builder := if tls s then Builder.append (plain Names.PLUS) builder else builder in
  value (Builder.build (Builder.append_unchecked (dec (port_num s)) true builder)).

(** ** [MsgIo] *)

Record MsgIo (C : Type) := mkIo { io : C; buf_i : list byte; buf_o : list byte }.
Arguments mkIo {C} io buf_i buf_o.
Arguments io {C} _.
Arguments buf_i {C} _.
Arguments buf_o {C} _.

Definition io_new {C} (conn : C) : MsgIo C := mkIo conn [] [].
Definition io_reset {C} (m : MsgIo C) : MsgIo C := mkIo (io m) [] [].

(** ** [ClientLogic] *)

Section Logic.
Context {A : Type} `{Queue.Adjuster A} {Lb : Type} {B W : Type} (type_id : State.ClientStateKey -> N).
Abbreviation Queue := (Queue.Queue A Lb).
Context (call : B -> ServerMsg -> State.ClientState * W -> Queue -> option (Handlers.HandlerStatus * B * (State.ClientState * W) * Queue)).

(** [heap] is the memory that handlers share with the rest of the program: what
    the senders they own have in common with their receivers. *)
Record ClientLogic := mkLogic {
  timeout : TimeLimits;
  lqueue : Queue;
  lstate : State.ClientState;
  lhandlers : Handlers.Handlers B;
  heap : W;
}.

(** [now] is when the queue is made. *)
Definition logic_new (now : N) (w : W) : ClientLogic := mkLogic limits_default (Queue.new now) State.new Handlers.new w.
Definition with_queue (q : Queue) (l : ClientLogic) : ClientLogic := mkLogic (timeout l) q (lstate l) (lhandlers l) (heap l).
Definition with_state (s : State.ClientState) (l : ClientLogic) : ClientLogic := mkLogic (timeout l) (lqueue l) s (lhandlers l) (heap l).
Definition with_timeout (t : TimeLimits) (l : ClientLogic) : ClientLogic := mkLogic t (lqueue l) (lstate l) (lhandlers l) (heap l).
Definition with_handlers (h : Handlers.Handlers B) (l : ClientLogic) : ClientLogic := mkLogic (timeout l) (lqueue l) (lstate l) h (heap l).
Definition with_heap (w : W) (l : ClientLogic) : ClientLogic := mkLogic (timeout l) (lqueue l) (lstate l) (lhandlers l) w.
Definition logic_set_read_timeout (t : option N) (l : ClientLogic) : ClientLogic := with_timeout (limits_set_read t (timeout l)) l.
Definition logic_set_write_timeout (t : option N) (l : ClientLogic) : ClientLogic := with_timeout (limits_set_write t (timeout l)) l.
Definition with_read_timeout (t : N) (l : ClientLogic) : ClientLogic := logic_set_read_timeout (Some t) l.
Definition with_write_timeout (t : N) (l : ClientLogic) : ClientLogic := logic_set_write_timeout (Some t) l.

(** Dropping a boxed handler drops its sender, which its receiver gets to see. *)
Context (drop_box : B -> W -> W).

Definition drop_handlers (hs : Handlers.Handlers B) (w : W) : W :=
  foldl (fun w h => drop_box h.1 w) w (Handlers.handlers hs).

Definition logic_reset (now : N) (l : ClientLogic) : ClientLogic :=
  mkLogic (timeout l) (Queue.reset now (lqueue l)) (State.clear (lstate l)) (Handlers.cancel (lhandlers l))
    (drop_handlers (lhandlers l) (heap l)).

Definition logic_needs_run (l : ClientLogic) : bool :=
  negb (Handlers.is_empty (lhandlers l)) || negb (Queue.is_empty (lqueue l)).

(** [run_once]; [None] is a panic of a handler. *)
Definition run_once (msg : ServerMsg) (l : ClientLogic) : option (nat * ClientLogic) :=
  let q := Queue.adjust (lqueue l) msg in
  match Handlers.handle call (lhandlers l) msg (lstate l, heap l) q with
  | Some (finished_at, (hs, (st, w), q)) => Some (finished_at, mkLogic (timeout l) q st hs w)
  | None => None
  end.
End Logic.
Arguments ClientLogic A Lb B W : clear implicits.
Arguments mkLogic {A Lb B W} timeout lqueue lstate lhandlers heap.

(** ** [Client] *)

(** How a call ends: with a value, in a panic, or not within the fuel. *)
Inductive Outcome (T : Type) := Done (v : T) | Panic | OutOfFuel.
Arguments Done {T} v.
Arguments Panic {T}.
Arguments OutOfFuel {T}.

Section Client.
Context {A : Type} `{Queue.Adjuster A} {Lb : Type} {B W : Type} {F : Type} {C : Type} {Sp : Type}.
Abbreviation Logic := (ClientLogic A Lb B W).

(** [F] is the closure for read timeouts. *)
Record Client := mkClient { cconn : MsgIo C; spec : Sp; logic : Logic; on_timeout : option F }.

Definition new_with_logic (conn : C) (spec : Sp) (logic : Logic) : Client := mkClient (io_new conn) spec logic None.
Definition client_new (now : N) (w : W) (conn : C) (spec : Sp) : Client := new_with_logic conn spec (logic_new now w).
Definition take_conn (c : Client) : C := io (cconn c).
Definition client_with_logic (l : Logic) (c : Client) : Client := mkClient (cconn c) (spec c) l (on_timeout c).
Definition set_timeout_fn (f : option F) (c : Client) : Client := mkClient (cconn c) (spec c) (logic c) f.
Definition set_read_timeout (t : option N) (c : Client) : Client := client_with_logic (logic_set_read_timeout t (logic c)) c.
Definition set_write_timeout (t : option N) (c : Client) : Client := client_with_logic (logic_set_write_timeout t (logic c)) c.

Context (drop_box : B -> W -> W).

Definition reset (now : N) (c : Client) : Client :=
  mkClient (io_reset (cconn c)) (spec c) (logic_reset drop_box now (logic c)) (on_timeout c).
Definition reset_with_conn (now : N) (conn : C) (c : Client) : C * Client :=
  let l := with_timeout (require_update (timeout (logic c))) (logic c) in
  (io (cconn c), reset now (mkClient (mkIo conn (buf_i (cconn c)) (buf_o (cconn c))) (spec c) l (on_timeout c))).
Definition needs_run (c : Client) : bool := logic_needs_run (logic c).
End Client.
Arguments Client A Lb B W F C Sp : clear implicits.
Arguments mkClient {A Lb B W F C Sp} cconn spec logic on_timeout.

(** [with_conn] and [with_spec] change types. *)
Definition with_conn {A Lb B W F C Sp C2} (conn : C2) (c : Client A Lb B W F C Sp) : Client A Lb B W F C2 Sp :=
  mkClient (mkIo conn (buf_i (cconn c)) (buf_o (cconn c))) (spec c)
    (with_timeout (require_update (timeout (logic c))) (logic c)) (on_timeout c).
Definition with_spec {A Lb B W F C Sp S2} (s : S2) (c : Client A Lb B W F C Sp) : Client A Lb B W F C S2 :=
  mkClient (cconn c) s (logic c) (on_timeout c).

(** ** [run] *)

Section Run.
Context {A : Type} `{Queue.Adjuster A} {Lb : Type} {B W : Type} {F : Type} {C : Type} {Sp : Type}
  `{BufRead C} `{Write C} `{ReadTimeout C} `{WriteTimeout C} `{Clock C} (instant_max : N).
Abbreviation Queue := (Queue.Queue A Lb).
Abbreviation Logic := (ClientLogic A Lb B W).
Abbreviation Client := (Client A Lb B W F C Sp).
Context (call : B -> ServerMsg -> State.ClientState * W -> Queue -> option (Handlers.HandlerStatus * B * (State.ClientState * W) * Queue)).
Context (timeout_fn : F -> Logic -> Handlers.ControlFlow () * F * Logic).

(** [Queue::pop] with the clock of the connection, which is read once to see
    whether a message is due and again when it is. *)
Definition pop_now (q : Queue) (c : C) : option (Queue.Popped * Queue) * C :=
  match Queue.queue q with
  | [] => (Queue.pop instant_max 0 0 q, c)
  | _ =>
      let (now1, c) := now c in
      if (Queue.saturating_sub (Queue.saturating_duration_since (Queue.timepoint q) now1) (Queue.sub q) =? 0)%N then
        let (now2, c) := now c in (Queue.pop instant_max now1 now2 q, c)
      else (Queue.pop instant_max now1 now1 q, c)
  end.

(** The loop of [flush_partial]; every message popped shortens the queue. *)
Fixpoint pop_loop (fuel : nat) (q : Queue) (c : C) (buf_o : list byte) : Outcome (option N * Queue * C * list byte) :=
  match fuel with
  | 0 => OutOfFuel
  | S fuel =>
      match pop_now q c with
      | (Some (Queue.Popped_msg popped, q), c) => pop_loop fuel q c (buf_o ++ client_write_to popped ++ Codec.CRLF)
      | (Some (Queue.Timeout timeout, q), c) => Done (timeout, q, c, buf_o)
      | (None, _) => Panic
      end
  end.

Definition flush_partial (cl : Client) : Outcome (result (option N) IoError * Client) :=
  let q := lqueue (logic cl) in
  if Queue.is_empty q then Done (Ok None, cl)
  else
    match pop_loop (S (Queue.len q)) q (io (cconn cl)) (buf_o (cconn cl)) with
    | Done (timeout, q, c, buf_o) =>
        let (r, c) := write_all buf_o c in
        let cl c := mkClient (mkIo c (buf_i (cconn cl)) []) (spec cl) (with_queue q (logic cl)) (on_timeout cl) in
        match r with
        | Err e => Done (Err e, cl c)
        | Ok _ =>
            match flush c with
            | (Err e, c) => Done (Err e, cl c)
            | (Ok _, c) => Done (Ok timeout, cl c)
            end
        end
    | Panic => Panic
    | OutOfFuel => OutOfFuel
    end.

Definition with_io (m : MsgIo C) (cl : Client) : Client := mkClient m (spec cl) (logic cl) (on_timeout cl).

#[local] Abbreviation Ran := (Outcome (result (option (list nat * list nat)) IoError * Client)).

(** The read timed out: [again] if that was for the queue, or the timeout
    function wants to. *)
Definition read_timed_out (again : Client -> Ran) (rto_from_queue : bool) (cl : Client) : Ran :=
  if rto_from_queue then again cl
  else
    match on_timeout cl with
    | Some f =>
        let '(cf, f, l) := timeout_fn f (logic cl) in
        let cl := mkClient (cconn cl) (spec cl) l (Some f) in
        match cf with
        | Handlers.Continue => again cl
        | Handlers.Break _ => Done (Err (io_error TimedOut), cl)
        end
    | None => Done (Ok None, cl)
    end.

(** A message was read: [again] unless a handler has results. *)
Definition received (again : Client -> Ran) (flush_partial : Client -> Outcome (result (option N) IoError * Client))
    (msg : ServerMsg) (cl : Client) : Ran :=
  match run_once call msg (logic cl) with
  | None => Panic
  | Some (finished_at, l) =>
      let m := cconn cl in
      let cl := mkClient (mkIo (io m) [] (buf_o m)) (spec cl) l (on_timeout cl) in
      if Handlers.has_results (lhandlers l) finished_at then
        match flush_partial cl with
        | Panic => Panic
        | OutOfFuel => OutOfFuel
        | Done (Err e, cl) => Done (Err e, cl)
        | Done (Ok _, cl) =>
            match Handlers.last_run_results (lhandlers (logic cl)) finished_at with
            | Some r => Done (Ok (Some r), cl)
            | None => Panic
            end
        end
      else again cl
  end.

(** [Client::run]; [rfuel] is the fuel of each read. *)
Fixpoint run (rfuel fuel : nat) (cl : Client) : Outcome (result (option (list nat * list nat)) IoError * Client) :=
  match fuel with
  | 0 => OutOfFuel
  | S fuel =>
      match flush_partial cl with
      | Panic => Panic
      | OutOfFuel => OutOfFuel
      | Done (Err e, cl) => Done (Err e, cl)
      | Done (Ok wait_for, cl) =>
          let m := cconn cl in
          if Handlers.is_empty (lhandlers (logic cl)) then
            match wait_for with
            | Some wait_for => run rfuel fuel (with_io (mkIo (sleep wait_for (io m)) (buf_i m) (buf_o m)) cl)
            | None => Done (Ok (Some ([], [])), cl)
            end
          else
            match sync_new instant_max (io m) (timeout (logic cl)) wait_for with
            | (Err e, c, limits) =>
                Done (Err e, with_io (mkIo c (buf_i m) (buf_o m)) (client_with_logic (with_timeout limits (logic cl)) cl))
            | (Ok (conn, rto_from_queue), _, limits) =>
                let cl := client_with_logic (with_timeout limits (logic cl)) cl in
                match recv (Handlers.wants_owning (lhandlers (logic cl))) rfuel conn (buf_i m) with
                | None => OutOfFuel
                | Some (msg, conn, bufi) =>
                    let cl := with_io (mkIo (Time.conn conn) bufi (buf_o m)) cl in
                    match filter_time_error msg with
                    | Err e => Done (Err e, cl)
                    | Ok None => read_timed_out (run rfuel fuel) rto_from_queue cl
                    | Ok (Some msg) => received (run rfuel fuel) flush_partial msg cl
                    end
                end
            end
      end
  end.
End Run.
