(* ===== verification/Link.v ===== *)
(** * What sending relies on, and the abstract client

    Shared by the theorems on the synchronous loop and on the one over [tokio]:
    what I/O promises about sending and the passing of time, what a flush then
    does, and the abstract client the loops refine. *)

From stdpp Require Import relations.
From S2P Require Import Prelude Args Tags Numeric Source Strings Splitter Msg Time Client.
From S2P Require Handlers State Queue Codec Builder Names.

(** The time a clock shows never goes back and sleeping takes as long as asked,
    what is written is sent, neither uses up what is still to be read, and nothing
    is sent by reading. *)
Class LinkOk (C : Type) `{ReadUntilOk C} `{Write C} `{Clock C} := {
  time : C -> N;
  sent : C -> list byte;
  now_ok c t c' : now c = (t, c') ->
    (time c <= t <= time c')%N /\ sent c' = sent c /\ coming c' = coming c /\ delays c' <= delays c;
  sleep_ok d c : (time c + d <= time (sleep d c))%N /\ sent (sleep d c) = sent c /\ coming (sleep d c) = coming c;
  write_ok l c c' : write_all l c = (Ok (), c') -> (time c <= time c')%N /\ sent c' = sent c ++ l /\ coming c' = coming c;
  flush_ok c c' : flush c = (Ok (), c') -> (time c <= time c')%N /\ sent c' = sent c /\ coming c' = coming c;
  until_sent fuel limit c buf r c' buf' : until fuel limit c buf = Some (r, c', buf') -> sent c' = sent c;
}.

(** ** Sending *)

Section Run.
Context {A : Type} `{Queue.Adjuster A} {Lb : Type} {B W : Type} {F : Type} {C : Type} {Sp : Type}
  `{LinkOk C} (instant_max : N).
Abbreviation Queue := (Queue.Queue A Lb).
Abbreviation Logic := (ClientLogic A Lb B W).
Abbreviation Client := (Client A Lb B W F C Sp).

Definition wire (l : list ClientMsg) : list byte := concat ((fun m => client_write_to m ++ Codec.CRLF) <$> l).

(** Settings that sending leaves alone. *)
Definition same_settings (q q' : Queue) : Prop :=
  Queue.delay q' = Queue.delay q /\ Queue.sub q' = Queue.sub q /\ Queue.labeler q' = Queue.labeler q /\ Queue.adjuster q' = Queue.adjuster q.

(** The clock gets so near the end of its range that it cannot be told when the
    next message may be sent. *)
Definition clock_ends (q : Queue) : Prop :=
  exists (c c' : C) t, now c = (t, c') /\ (instant_max < t + Queue.sub q + Queue.delay q)%N.

(** The next message is not further away than the rate limit makes it. *)
Definition on_time (q : Queue) (c : C) : Prop := (Queue.timepoint q <= time c + Queue.sub q + Queue.delay q)%N.

(** A message may be sent now. *)
Definition due (q : Queue) (c : C) : Prop := (Queue.timepoint q <= time c + Queue.sub q)%N.

Lemma pop_now_spec (q : Queue) (c c' : C) o :
  pop_now instant_max q c = (o, c') ->
  (time c <= time c')%N /\ sent c' = sent c /\ coming c' = coming c /\
  match o with
  | Some (Queue.Popped_msg m, q') => Queue.queue q = m :: Queue.queue q' /\ same_settings q q' /\ on_time q' c'
  | Some (Queue.Timeout (Some d), q') => q' = q /\ Queue.queue q <> [] /\ (Queue.timepoint q <= time c' + d + Queue.sub q)%N /\ ~ due q c /\
      (on_time q c -> (d <= Queue.delay q)%N)
  | Some (Queue.Timeout None, q') => q' = q /\ Queue.queue q = []
  | None => clock_ends q
  end.
Proof.
  unfold pop_now. destruct (Queue.queue q) as [|m l] eqn:Hq.
  { intros [= <- <-]. split; [lia|]. unfold Queue.pop. rewrite Hq. done. }
  destruct (now c) as [t1 c1] eqn:Hn1. apply now_ok in Hn1 as (Ht1 & Hs1 & Hst1 & _).
  unfold Queue.saturating_sub, Queue.saturating_duration_since. destruct (N.eqb_spec (Queue.timepoint q - t1 - Queue.sub q) 0) as [Hz|Hz].
  - destruct (now c1) as [t2 c2] eqn:Hn2. pose proof Hn2 as (Ht2 & Hs2 & Hst2 & _)%now_ok. intros [= <- <-].
    split; [lia|]. split; [congruence|]. split; [congruence|]. unfold Queue.pop, Queue.saturating_sub, Queue.saturating_duration_since.
    rewrite Hq, Hz. cbn [N.eqb]. unfold Queue.checked_add. destruct (N.leb_spec (N.max (Queue.timepoint q) t2 + Queue.delay q) instant_max).
    + split; [done|]. split; [done|]. unfold on_time. cbn [Queue.timepoint Queue.sub Queue.delay Queue.with_timepoint Queue.with_msgs]. lia.
    + exists c1, c2, t2. split; [done|]. lia.
  - intros [= <- <-]. split; [lia|]. split; [done|]. split; [done|]. unfold Queue.pop, Queue.saturating_sub, Queue.saturating_duration_since.
    rewrite Hq. rewrite (proj2 (N.eqb_neq _ _) Hz). split; [done|]. split; [done|]. split; [lia|]. unfold due, on_time. split; lia.
Qed.

Lemma pop_loop_spec fuel (q : Queue) (c : C) bo :
  length (Queue.queue q) < fuel ->
  match pop_loop instant_max fuel q c bo with
  | OutOfFuel => False
  | Panic => clock_ends q
  | Done (t, q', c', bo') =>
      (time c <= time c')%N /\ sent c' = sent c /\ coming c' = coming c /\ same_settings q q' /\
      exists popped, Queue.queue q = popped ++ Queue.queue q' /\ bo' = bo ++ wire popped /\
        (Queue.queue q' = [] <-> t = None) /\
        (forall d, t = Some d -> (Queue.timepoint q' <= time c' + d + Queue.sub q')%N) /\
        (due q c -> Queue.queue q <> [] -> popped <> []) /\
        (on_time q c -> on_time q' c' /\ forall d, t = Some d -> (d <= Queue.delay q)%N)
  end.
Proof.
  revert q c bo. induction fuel as [|fuel IH]; intros q c bo Hf; [lia|]. cbn [pop_loop].
  destruct (pop_now instant_max q c) as [o c1] eqn:Hp. apply pop_now_spec in Hp as (Ht & Hs & Hst & Ho).
  destruct o as [[[m|[d|]] q1]|].
  - destruct Ho as (Hq & Hset & Hot). rewrite Hq in Hf. cbn [length] in Hf.
    specialize (IH q1 c1 (bo ++ client_write_to m ++ Codec.CRLF) ltac:(lia)).
    destruct (pop_loop instant_max fuel q1 c1 _) as [[[[t q2] c2] bo2]| |]; [| |done].
    + destruct IH as (Ht2 & Hs2 & Hst2 & Hset2 & popped & Hq2 & Hb & Hn & Hd & _ & Hot2). specialize (Hot2 Hot). pose proof Hset as (Hdl & _).
      split; [lia|]. split; [congruence|]. split; [congruence|].
      split; [unfold same_settings in *; destruct Hset as (? & ? & ? & ?), Hset2 as (? & ? & ? & ?); split_and!; congruence|].
      exists (m :: popped). split; [by rewrite Hq, Hq2|]. split; [by rewrite Hb, <- app_assoc|]. split; [done|]. split; [done|].
      split; [done|]. intros _. by rewrite <- Hdl.
    + destruct Hset as (Hdl & Hsb & _). unfold clock_ends in *. by rewrite <- Hdl, <- Hsb.
  - destruct Ho as (-> & Hne & Hd & Hdue & Hot). split; [done|]. split; [done|]. split; [done|]. split; [done|]. exists [].
    cbn [wire app]. unfold wire. cbn. rewrite app_nil_r. split; [done|]. split; [done|]. split; [done|]. split; [by intros d' [= <-]|]. split; [done|].
    intros Hq. split; [unfold on_time in *; lia|]. intros d' [= <-]. by apply Hot.
  - destruct Ho as (-> & Hq). split; [done|]. split; [done|]. split; [done|]. split; [done|]. exists [].
    unfold wire. cbn. rewrite app_nil_r. do 3 (split; [done|]).
    split; [done|]. split; [done|]. intros Hq'. split; [unfold on_time in *; lia|done].
  - done.
Qed.

Lemma flush_partial_spec (cl : Client) :
  buf_o (cconn cl) = [] ->
  let q := lqueue (logic cl) in
  match flush_partial instant_max cl with
  | OutOfFuel => False
  | Panic => clock_ends q
  | Done (r, cl') =>
      let q' := lqueue (logic cl') in
      buf_o (cconn cl') = [] /\ buf_i (cconn cl') = buf_i (cconn cl) /\ spec cl' = spec cl /\ on_timeout cl' = on_timeout cl /\
      logic cl' = with_queue q' (logic cl) /\ same_settings q q' /\
      exists popped, Queue.queue q = popped ++ Queue.queue q' /\
      match r with
      | Err _ => True
      | Ok t =>
          (time (io (cconn cl)) <= time (io (cconn cl')))%N /\ sent (io (cconn cl')) = sent (io (cconn cl)) ++ wire popped /\
          coming (io (cconn cl')) = coming (io (cconn cl)) /\ (Queue.queue q' = [] <-> t = None) /\
          (forall d, t = Some d -> (Queue.timepoint q' <= time (io (cconn cl')) + d + Queue.sub q')%N) /\
          (due q (io (cconn cl)) -> Queue.queue q <> [] -> popped <> []) /\
          (on_time q (io (cconn cl)) -> on_time q' (io (cconn cl')) /\ forall d, t = Some d -> (d <= Queue.delay q)%N)
      end
  end.
Proof.
  intros Hb. cbv zeta. unfold flush_partial. destruct (Queue.is_empty (lqueue (logic cl))) eqn:He.
  - assert (Hq : Queue.queue (lqueue (logic cl)) = []) by by unfold Queue.is_empty in He; destruct (Queue.queue _).
    split_and!; try done; [by destruct (logic cl)|]. exists []. split; [done|]. rewrite Hq. unfold wire. cbn. rewrite app_nil_r.
    split; [lia|]. do 5 (split; [done|]). done.
  - rewrite Hb. pose proof (pop_loop_spec (S (Queue.len (lqueue (logic cl)))) (lqueue (logic cl)) (io (cconn cl)) [] ltac:(unfold Queue.len; lia)) as Hl.
    destruct (pop_loop _ _ _ _ _) as [[[[t q'] c1] bo]| |]; [|done..].
    destruct Hl as (Ht & Hs & Hst & Hset & popped & Hq & -> & Hn & Hd & Hdue & Hot). cbn [app].
    destruct (write_all (wire popped) c1) as [[[]|e] c2] eqn:Hw.
    + apply write_ok in Hw as (Ht2 & Hs2 & Hst2). destruct (flush c2) as [[[]|e] c3] eqn:Hf.
      * apply flush_ok in Hf as (Ht3 & Hs3 & Hst3). cbn [logic lqueue with_queue cconn buf_o buf_i io Client.spec on_timeout].
        split_and!; try done. exists popped. split; [done|]. split; [lia|]. split; [congruence|]. split; [congruence|]. split; [done|].
        split; [intros d Hd'; specialize (Hd d Hd'); lia|]. split; [done|]. intros Hq'. destruct (Hot Hq') as [Hq2 Hwait].
        split; [unfold on_time in *; cbn [io]; lia|done].
      * cbn [logic lqueue with_queue cconn buf_o buf_i io Client.spec on_timeout]. split_and!; try done. by exists popped.
    + cbn [logic lqueue with_queue cconn buf_o buf_i io Client.spec on_timeout]. split_and!; try done. by exists popped.
Qed.

End Run.

(** ** When messages leave a queue *)

Section Pops.
Context {A : Type} `{Queue.Adjuster A} {Lb : Type} (instant_max : N).
Abbreviation Queue := (Queue.Queue A Lb).

(** From the instant [t] on messages are taken out of the front of a queue, each
    with the instant it was found to be due; the last is out at [t']. *)
Inductive pops : Queue -> N -> list (N * ClientMsg) -> Queue -> N -> Prop :=
| pops_none q t : pops q t [] q t
| pops_one q t m ms t1 t2 l q' t' :
    Queue.queue q = m :: ms -> (t <= t1 <= t2)%N -> (Queue.timepoint q <= t1 + Queue.sub q)%N ->
    (N.max (Queue.timepoint q) t2 + Queue.delay q <= instant_max)%N ->
    pops (Queue.with_timepoint (Queue.with_msgs q ms) (N.max (Queue.timepoint q) t2 + Queue.delay q)%N) t2 l q' t' ->
    pops q t ((t1, m) :: l) q' t'.

(** What keeps the queue waiting at [t]: nothing is left, or the next message is
    due after [d]. *)
Definition waiting (w : option N) (q : Queue) (t : N) : Prop :=
  match w with
  | None => Queue.queue q = []
  | Some d => Queue.queue q <> [] /\ (0 < d)%N /\ Queue.timepoint q = (t + d + Queue.sub q)%N
  end.

Lemma pops_spec (q : Queue) t l q' t' :
  pops q t l q' t' ->
  (t <= t')%N /\ Queue.queue q = l.*2 ++ Queue.queue q' /\ same_settings q q' /\
  (Queue.timepoint q + N.of_nat (length l) * Queue.delay q <= Queue.timepoint q')%N /\
  Forall (fun p => (t <= p.1 <= t')%N) l.
Proof.
  induction 1 as [q t|q t m ms t1 t2 l q' t' Hq Ht Hd Hm _ (K1 & K2 & K3 & K4 & K5)].
  - split; [lia|]. split; [done|]. split; [done|]. split; [cbn; lia|constructor].
  - cbn [Queue.queue Queue.with_msgs Queue.with_timepoint Queue.timepoint Queue.delay] in *. split; [lia|].
    split; [cbn; by rewrite Hq, K2|]. split; [by unfold same_settings in *|]. split; [cbn [length]; lia|].
    constructor; [cbn; lia|]. eapply Forall_impl; [exact K5|]. cbn. intros p. lia.
Qed.

Lemma pops_app (q : Queue) t l1 q1 t1 l2 q2 t2 t0 :
  pops q t l1 q1 t1 -> (t1 <= t0)%N -> pops q1 t0 l2 q2 t2 -> exists t3, pops q t (l1 ++ l2) q2 t3 /\ (t3 <= t2)%N.
Proof.
  intros Hp. revert t0. induction Hp as [q t|q t m ms t1' t2' l q' t' Hq Ht Hd Hm _ IH]; intros t0 H0 H2.
  - destruct H2 as [q t0|q t0 m ms t1 t2' l q' t' Hq Ht Hd Hm Hp2]; [exists t; split; [constructor|done]|].
    exists t'. split; [|done]. apply (pops_one q t m ms t1 t2'); done || lia.
  - destruct (IH t0 H0 H2) as (t3 & Hp3 & H3). exists t3. split; [|done]. by apply (pops_one q t m ms t1' t2').
Qed.

(** The [j]-th message is not taken out before it is due, a delay after the one
    before it. *)
Lemma pops_due (q : Queue) t l q' t' j y :
  pops q t l q' t' -> l !! j = Some y ->
  (t <= y.1 <= t')%N /\ (Queue.timepoint q + N.of_nat j * Queue.delay q <= y.1 + Queue.sub q)%N.
Proof.
  intros Hp Hj. pose proof (proj1 (Forall_lookup _ _) (proj2 (proj2 (proj2 (proj2 (pops_spec _ _ _ _ _ Hp))))) j y Hj). split; [done|].
  clear H0. revert j y Hj. induction Hp as [q t|q t m ms t1 t2 l q' t' Hq Ht Hd Hm _ IH]; intros j y Hj; [done|]. destruct j as [|j].
  - injection Hj as <-. cbn. lia.
  - cbn in Hj. specialize (IH j y Hj). cbn [Queue.timepoint Queue.with_timepoint Queue.delay Queue.sub Queue.with_msgs] in IH.
    replace (N.of_nat (S j)) with (N.of_nat j + 1)%N by lia. lia.
Qed.

(** However they were taken out: between any two of them lies a delay for each
    message in the meantime, but for the burst. *)
Lemma pops_limit (q : Queue) t l q' t' i j x y :
  pops q t l q' t' -> l !! i = Some x -> l !! j = Some y -> i < j ->
  (x.1 + N.of_nat (j - i) * Queue.delay q <= y.1 + Queue.sub q)%N.
Proof.
  intros Hp. revert i j. induction Hp as [q t|q t m ms t1 t2 l q' t' Hq Ht Hd Hm Hp IH]; intros i j Hi Hj Hij; [done|].
  destruct j as [|j]; [lia|]. cbn in Hj. destruct i as [|i].
  - injection Hi as <-. destruct (pops_due _ _ _ _ _ j y Hp Hj) as [K1 K2].
    cbn [fst Queue.timepoint Queue.with_timepoint Queue.delay Queue.sub Queue.with_msgs] in *.
    replace (N.of_nat (S j - 0)) with (N.of_nat j + 1)%N by lia. lia.
  - cbn in Hi. pose proof (IH i j Hi Hj ltac:(lia)) as K.
    cbn [Queue.delay Queue.sub Queue.with_timepoint Queue.with_msgs] in K. by replace (S j - S i) with (j - i) by lia.
Qed.

Section Loop.
Context {C : Type} `{LinkOk C}.

(** The clock gets so near the end of its range that it cannot be told when the
    message after the next may be sent. *)
Definition overflows (shows : N -> Prop) (q : Queue) (t : N) : Prop :=
  exists l q1 t0 t2, pops q t l q1 t0 /\ (t0 <= t2)%N /\ shows t2 /\ Queue.queue q1 <> [] /\
    (instant_max < N.max (Queue.timepoint q1) t2 + Queue.delay q1)%N.
Definition clock_shows (t : N) : Prop := exists c c' : C, now c = (t, c').

Lemma pop_loop_pops fuel (q : Queue) (c : C) bo :
  match pop_loop instant_max fuel q c bo with
  | OutOfFuel => True
  | Panic => overflows clock_shows q (time c)
  | Done (w, q', c', bo') => exists l t0 t1, pops q (time c) l q' t0 /\ (t0 <= t1 <= time c')%N /\ waiting w q' t1 /\ bo' = bo ++ wire l.*2
  end.
Proof.
  revert q c bo. induction fuel as [|fuel IH]; intros q c bo; cbn [pop_loop]; [done|].
  unfold pop_now, Queue.pop, Queue.saturating_sub, Queue.saturating_duration_since, Queue.checked_add.
  destruct (Queue.queue q) as [|m ms] eqn:Hq.
  { exists [], (time c), (time c). split; [constructor|]. split; [lia|]. split; [done|]. unfold wire. cbn. by rewrite app_nil_r. }
  destruct (now c) as [t1 c1] eqn:Hn1. pose proof (now_ok _ _ _ Hn1) as (Ht1 & _).
  destruct (N.eqb_spec (Queue.timepoint q - t1 - Queue.sub q) 0) as [Hz|Hz].
  2: { exists [], (time c), t1. split; [constructor|]. split; [lia|]. split; [|unfold wire; cbn; by rewrite app_nil_r].
       unfold waiting. rewrite Hq. split; [done|]. split; lia. }
  destruct (now c1) as [t2 c2] eqn:Hn2. pose proof (now_ok _ _ _ Hn2) as (Ht2 & _).
  destruct (N.leb_spec (N.max (Queue.timepoint q) t2 + Queue.delay q) instant_max) as [Hm|Hm].
  - set (q1 := Queue.with_timepoint _ _). specialize (IH q1 c2 (bo ++ client_write_to m ++ Codec.CRLF)).
    assert (Hone : forall l q' t', pops q1 (time c2) l q' t' -> exists t'', pops q (time c) ((t1, m) :: l) q' t'' /\ (t'' <= t')%N).
    { intros l q' t' Hp. assert (Hp2 : pops q1 t2 l q' t' \/ (l = [] /\ q' = q1 /\ t' = time c2)).
      { inversion Hp; subst; [by right|left]. eapply pops_one; try done. lia. }
      destruct Hp2 as [Hp2|(-> & -> & ->)]; [exists t'|exists t2]; (split; [|lia]); apply (pops_one q (time c) m ms t1 t2); done || lia || constructor. }
    destruct (pop_loop instant_max fuel q1 c2 _) as [[[[w q'] c'] bo']| |]; [| |done].
    + destruct IH as (l & t0 & t3 & Hp & Ht & Hw & ->). apply Hone in Hp as (t' & Hp & Ht'). exists ((t1, m) :: l), t', t3.
      split; [done|]. split; [lia|]. split; [done|]. unfold wire. cbn. by rewrite <- app_assoc.
    + destruct IH as (l & q2 & t0 & t3 & Hp & Ht & K). apply Hone in Hp as (t' & Hp & Ht'). exists ((t1, m) :: l), q2, t', t3.
      split; [done|]. split; [lia|done].
  - exists [], q, (time c), t2. split; [constructor|]. split; [lia|]. split; [by exists c1, c2|]. split; [by rewrite Hq|done].
Qed.
End Loop.
End Pops.

(** The instants of a flush. *)
Lemma flush_pops {A} `{Queue.Adjuster A} {Lb B W F C Sp : Type} `{LinkOk C} instant_max (cl cl' : Client A Lb B W F C Sp) w :
  buf_o (cconn cl) = [] -> flush_partial instant_max cl = Done (Ok w, cl') ->
  exists l t0 t1, pops instant_max (lqueue (logic cl)) (time (io (cconn cl))) l (lqueue (logic cl')) t0 /\
    (t0 <= t1 <= time (io (cconn cl')))%N /\ waiting w (lqueue (logic cl')) t1 /\
    sent (io (cconn cl')) = sent (io (cconn cl)) ++ wire l.*2.
Proof.
  intros Hb. unfold flush_partial. destruct (Queue.is_empty (lqueue (logic cl))) eqn:He.
  { intros [= <- <-]. exists [], (time (io (cconn cl))), (time (io (cconn cl))). split; [constructor|]. split; [lia|].
    split; [unfold Queue.is_empty in He; cbn; by destruct (Queue.queue _)|]. unfold wire. cbn. by rewrite app_nil_r. }
  pose proof (pop_loop_pops instant_max (S (Queue.len (lqueue (logic cl)))) (lqueue (logic cl)) (io (cconn cl)) (buf_o (cconn cl))) as Hp.
  pose proof (pop_loop_spec instant_max (S (Queue.len (lqueue (logic cl)))) (lqueue (logic cl)) (io (cconn cl)) (buf_o (cconn cl)) ltac:(unfold Queue.len; lia)) as Hsp.
  destruct (pop_loop _ _ _ _ _) as [[[[t q'] c1] bo]| |]; [|done..]. destruct Hsp as (_ & Hs1 & _).
  destruct Hp as (l & t0 & t1 & Hp & Ht & Hwait & ->). rewrite Hb. cbn [app].
  destruct (write_all (wire l.*2) c1) as [[[]|e] c2] eqn:Hwr; [|done]. destruct (flush c2) as [[[]|e] c3] eqn:Hfl; [|done].
  intros [= <- <-]. apply write_ok in Hwr as (Ht2 & Hs2 & _). apply flush_ok in Hfl as (Ht3 & Hs3 & _).
  exists l, t0, t1. cbn [logic lqueue with_queue cconn io]. split; [done|]. split; [lia|]. split; [done|]. congruence.
Qed.

(** ** The abstract client *)

(** The read timeout that is set on a connection, which only setting it changes. *)
Class TimedLink (C : Type) `{LinkOk C} := {
  armed : C -> option N;
  now_armed c t c' : now c = (t, c') -> armed c' = armed c;
  sleep_armed d c : armed (sleep d c) = armed c;
  write_armed l c c' : write_all l c = (Ok (), c') -> armed c' = armed c;
  flush_armed c c' : flush c = (Ok (), c') -> armed c' = armed c;
}.

Definition time_error (e : IoError) : Prop := kind e = TimedOut \/ kind e = WouldBlock.

Lemma filter_err {T} e :
  (time_error e /\ filter_time_error (Err e : result T IoError) = Ok None) \/ (~ time_error e /\ filter_time_error (Err e : result T IoError) = Err e).
Proof. unfold time_error. cbn. destruct (kind e); (left; split; [by auto|done]) || (right; split; [by intros [?|?]|done]). Qed.

Section Abstract.
Context {A : Type} `{Queue.Adjuster A} {Lb : Type} {B W : Type} {F : Type} (instant_max : N).
Abbreviation Queue := (Queue.Queue A Lb).
Abbreviation Logic := (ClientLogic A Lb B W).
Context (call : B -> ServerMsg -> State.ClientState * W -> Queue -> option (Handlers.HandlerStatus * B * (State.ClientState * W) * Queue)).
Context (timeout_fn : F -> Logic -> Handlers.ControlFlow () * F * Logic).
(** The errors the connection reports and the times its clock shows. *)
Context (reports : IoError -> Prop) (shows : N -> Prop).

(** The stream still to come, what was sent, the part of a line that was read, the
    logic, the timeout function, the time, and the read timeout last set on the
    connection. *)
Record Abs := mkAbs {
  ahead : list byte;
  written : list byte;
  partial : list byte;
  alogic : Logic;
  afn : option F;
  clock : N;
  arm : option N;
}.

(** A flush sends what is due, and ends with nothing left or a time to wait. *)
Definition flushed (w : option N) (a a' : Abs) : Prop :=
  exists l q' t0 t1, pops instant_max (lqueue (alogic a)) (clock a) l q' t0 /\ (t0 <= t1 <= clock a')%N /\ waiting w q' t1 /\
    a' = mkAbs (ahead a) (written a ++ wire l.*2) (partial a) (with_queue q' (alogic a)) (afn a) (clock a') (arm a).

(** Sending, or setting up the connection, fails with an error of the connection;
    what was taken out of the queue is lost. *)
Definition broken (e : IoError) (a a' : Abs) : Prop :=
  reports e /\ partial a' = partial a /\ afn a' = afn a /\
  exists popped q', Queue.queue (lqueue (alogic a)) = popped ++ Queue.queue q' /\ alogic a' = with_queue q' (alogic a).

(** The limit of a read, and whether it is for the queue's sake. *)
Definition limit_of (w : option N) (a : Abs) : option N * bool := timeout_fallback w (Time.read (timeout (alogic a))).

(** The limit has passed: the one that was asked for or, if there is none or the
    clock cannot tell when it is over, one set before. *)
Definition limit_passed (w : option N) (a a' : Abs) : Prop :=
  exists d, (clock a + d <= clock a')%N /\
    ((limit_of w a).1 = Some d \/
     (arm a = Some d /\ forall d0, (limit_of w a).1 = Some d0 -> (instant_max < clock a' + d0)%N)).

(** The write timeout is set once. *)
Definition settled (l l' : Logic) : Prop :=
  l' = l \/ l' = with_timeout (mkLimits (Time.read (timeout l)) (Time.write (timeout l)) false) l.

(** Reading comes to a message, to a timeout, or to an error: of the stream that
    is read byte by byte, up to where the connection failed. *)
Definition reads (w : option N) (a : Abs) (r : result (option ServerMsg) IoError) (a' : Abs) : Prop :=
  written a' = written a /\ afn a' = afn a /\ (clock a <= clock a')%N /\ settled (alogic a) (alogic a') /\
  ((limit_of w a).1 = None -> arm a' = arm a) /\
  exists consumed fuel, ahead a = consumed ++ ahead a' /\
  let read s := Codec.client_codec_read (Handlers.wants_owning (lhandlers (alogic a))) fuel s (partial a) in
  let cut := (Some <$> consumed) ++ None :: (Some <$> ahead a') in
  match r with
  | Ok (Some m) => read (Some <$> ahead a) = Some (Ok m, Some <$> ahead a', partial a')
  | Ok None => limit_passed w a a' /\ read cut = Some (Err Codec.ReadError, Some <$> ahead a', partial a')
  | Err e => ~ time_error e /\
      ((own_error (Err e : result ServerMsg IoError) /\ read (Some <$> ahead a) = Some (abstract (Err e), Some <$> ahead a', partial a')) \/
       (reports e /\ read cut = Some (Err Codec.ReadError, Some <$> ahead a', partial a')))
  end.

Definition with_alogic (l : Logic) (a : Abs) : Abs := mkAbs (ahead a) (written a) (partial a) l (afn a) (clock a) (arm a).
Definition handled (l : Logic) (a : Abs) : Abs := mkAbs (ahead a) (written a) [] l (afn a) (clock a) (arm a).
Definition with_afn (f : option F) (a : Abs) : Abs := mkAbs (ahead a) (written a) (partial a) (alogic a) f (clock a) (arm a).
Definition idle (a : Abs) : Prop := Handlers.is_empty (lhandlers (alogic a)) = true.
Definition busy (a : Abs) : Prop := Handlers.is_empty (lhandlers (alogic a)) = false.
Definition overrun (a : Abs) : Prop := overflows instant_max shows (lqueue (alogic a)) (clock a).

#[local] Abbreviation Ran := (Outcome (result (option (list nat * list nat)) IoError * Abs)).

(** What a call of [run] comes to, from the top of its loop. *)
Inductive runs (a : Abs) : Ran -> Prop :=
| runs_nothing a1 : flushed None a a1 -> idle a1 -> runs a (Done (Ok (Some ([], [])), a1))
| runs_sleep d a1 t r : flushed (Some d) a a1 -> idle a1 -> (clock a1 + d <= t)%N ->
    runs (mkAbs (ahead a1) (written a1) (partial a1) (alogic a1) (afn a1) t (arm a1)) r -> runs a r
| runs_message w a1 a2 m n l r : flushed w a a1 -> busy a1 -> reads w a1 (Ok (Some m)) a2 ->
    run_once call m (alogic a2) = Some (n, l) -> Handlers.has_results (lhandlers l) n = false ->
    runs (handled l a2) r -> runs a r
| runs_results w a1 a2 m n l w' a3 res : flushed w a a1 -> busy a1 -> reads w a1 (Ok (Some m)) a2 ->
    run_once call m (alogic a2) = Some (n, l) -> Handlers.has_results (lhandlers l) n = true ->
    flushed w' (handled l a2) a3 -> Handlers.last_run_results (lhandlers (alogic a3)) n = Some res ->
    runs a (Done (Ok (Some res), a3))
| runs_queue_limit d a1 a2 r : flushed (Some d) a a1 -> busy a1 -> reads (Some d) a1 (Ok None) a2 -> runs a2 r -> runs a r
| runs_timeout a1 a2 : flushed None a a1 -> busy a1 -> reads None a1 (Ok None) a2 -> afn a2 = None ->
    runs a (Done (Ok None, a2))
| runs_timeout_fn a1 a2 f f' l r : flushed None a a1 -> busy a1 -> reads None a1 (Ok None) a2 -> afn a2 = Some f ->
    timeout_fn f (alogic a2) = (Handlers.Continue, f', l) -> runs (with_afn (Some f') (with_alogic l a2)) r -> runs a r
| runs_timeout_break a1 a2 f f' l u : flushed None a a1 -> busy a1 -> reads None a1 (Ok None) a2 -> afn a2 = Some f ->
    timeout_fn f (alogic a2) = (Handlers.Break u, f', l) ->
    runs a (Done (Err (io_error TimedOut), with_afn (Some f') (with_alogic l a2)))
| runs_read_error w a1 e a2 : flushed w a a1 -> busy a1 -> reads w a1 (Err e) a2 -> runs a (Done (Err e, a2))
| runs_send_error e a1 : broken e a a1 -> runs a (Done (Err e, a1))
| runs_limit_error w a1 e a2 : flushed w a a1 -> busy a1 -> broken e a1 a2 -> runs a (Done (Err e, a2))
| runs_results_error w a1 a2 m n l e a3 : flushed w a a1 -> busy a1 -> reads w a1 (Ok (Some m)) a2 ->
    run_once call m (alogic a2) = Some (n, l) -> Handlers.has_results (lhandlers l) n = true ->
    broken e (handled l a2) a3 -> runs a (Done (Err e, a3))
| runs_overrun : overrun a -> runs a Panic
| runs_handler_panic w a1 a2 m : flushed w a a1 -> busy a1 -> reads w a1 (Ok (Some m)) a2 ->
    run_once call m (alogic a2) = None -> runs a Panic
| runs_results_overrun w a1 a2 m n l : flushed w a a1 -> busy a1 -> reads w a1 (Ok (Some m)) a2 ->
    run_once call m (alogic a2) = Some (n, l) -> Handlers.has_results (lhandlers l) n = true -> overrun (handled l a2) ->
    runs a Panic.
End Abstract.
Arguments Abs A Lb B W F : clear implicits.
Arguments mkAbs {A Lb B W F}.

(** ** Turns of a loop *)

Section Turns.
Context {A : Type} `{Queue.Adjuster A} {Lb : Type} {B W : Type} {F : Type} {C : Type} {Sp : Type}
  `{TimedLink C} (instant_max : N).
Abbreviation Queue := (Queue.Queue A Lb).
Abbreviation Logic := (ClientLogic A Lb B W).
Abbreviation Client := (Client A Lb B W F C Sp).
Abbreviation Abs := (Abs A Lb B W F).
Context (call : B -> ServerMsg -> State.ClientState * W -> Queue -> option (Handlers.HandlerStatus * B * (State.ClientState * W) * Queue)).
Context (timeout_fn : F -> Logic -> Handlers.ControlFlow () * F * Logic).
Context (reports : IoError -> Prop).
#[local] Abbreviation shows := (clock_shows (C := C)).
#[local] Abbreviation runs := (runs instant_max call timeout_fn reports shows).
#[local] Abbreviation flushed := (flushed instant_max).

Definition abs (cl : Client) : Abs :=
  mkAbs (coming (io (cconn cl))) (sent (io (cconn cl))) (buf_i (cconn cl)) (logic cl) (on_timeout cl)
    (time (io (cconn cl))) (armed (io (cconn cl))).

(** What a call that ended comes to for the abstract client; a client is left
    with nothing half sent. *)
Definition came_to (a : Abs) (o : Outcome (result (option (list nat * list nat)) IoError * Client)) : Prop :=
  match o with
  | Done (r, cl') => runs a (Done (r, abs cl')) /\ buf_o (cconn cl') = []
  | Panic => runs a Panic
  | OutOfFuel => True
  end.

(** What is used of a flush. *)
Definition flushes (fl : Client -> Outcome (result (option N) IoError * Client)) : Prop := forall cl,
  buf_o (cconn cl) = [] ->
  match fl cl with
  | Done (r, cl') => buf_o (cconn cl') = [] /\ match r with Ok w => flushed w (abs cl) (abs cl') | Err e => broken reports e (abs cl) (abs cl') end
  | Panic => overrun instant_max shows (abs cl)
  | OutOfFuel => False
  end.

Lemma pop_loop_armed fuel (q : Queue) (c : C) bo w q' c' bo' :
  pop_loop instant_max fuel q c bo = Done (w, q', c', bo') -> armed c' = armed c.
Proof.
  revert q c bo. induction fuel as [|fuel IH]; intros q c bo; cbn [pop_loop]; [done|]. unfold pop_now.
  assert (Hn : forall r c1, match r with
      | Some (Queue.Popped_msg popped, q) => pop_loop instant_max fuel q c1 (bo ++ client_write_to popped ++ Codec.CRLF)
      | Some (Queue.Timeout timeout, q) => Done (timeout, q, c1, bo)
      | None => Panic
      end = Done (w, q', c', bo') -> armed c' = armed c1).
  { intros [[[m|d] q1]|] c1; [apply IH|by intros [= _ _ <- _]|done]. }
  destruct (Queue.queue q); [apply Hn|]. destruct (now c) as [t1 c1] eqn:H1'. apply now_armed in H1' as <-.
  destruct (_ =? 0)%N; [|apply Hn]. destruct (now c1) as [t2 c2] eqn:H2'. apply now_armed in H2' as <-. apply Hn.
Qed.

Lemma flush_flushes :
  (forall l c e c', write_all l c = (Err e, c') -> reports e) -> (forall c e c', flush c = (Err e, c') -> reports e) ->
  flushes (Client.flush_partial instant_max).
Proof.
  intros Hw Hf cl Hb. unfold flush_partial. destruct (Queue.is_empty (lqueue (logic cl))) eqn:He.
  { split; [done|]. exists [], (lqueue (logic cl)), (time (io (cconn cl))), (time (io (cconn cl))). split; [constructor|].
    split; [cbn; lia|]. split; [unfold Queue.is_empty in He; cbn; by destruct (Queue.queue _)|].
    unfold abs, wire. cbn. rewrite app_nil_r. by destruct (logic cl). }
  pose proof (pop_loop_pops instant_max (S (Queue.len (lqueue (logic cl)))) (lqueue (logic cl)) (io (cconn cl)) (buf_o (cconn cl))) as Hp.
  pose proof (pop_loop_spec instant_max (S (Queue.len (lqueue (logic cl)))) (lqueue (logic cl)) (io (cconn cl)) (buf_o (cconn cl)) ltac:(unfold Queue.len; lia)) as Hsp.
  destruct (pop_loop _ _ _ _ _) as [[[[w q'] c1] bo]| |] eqn:Hpl; [|done..].
  pose proof (pop_loop_armed _ _ _ _ _ _ _ _ Hpl) as Ha1. destruct Hsp as (_ & Hs1 & Hst1 & _).
  destruct Hp as (l & t0 & t1 & Hp & Ht & Hwait & ->). rewrite Hb in *. cbn [app] in *.
  assert (Hbr : forall e c, reports e -> broken reports e (abs cl) (abs (mkClient (mkIo c (buf_i (cconn cl)) []) (Client.spec cl) (with_queue q' (logic cl)) (on_timeout cl)))).
  { intros e c Hr. split; [done|]. split; [done|]. split; [done|]. exists l.*2, q'. split; [|done].
    by destruct (pops_spec instant_max _ _ _ _ _ Hp) as (_ & Hq & _). }
  destruct (write_all (wire l.*2) c1) as [[[]|e] c2] eqn:Hwr.
  2: { split; [done|]. apply Hbr. by eapply Hw. }
  destruct (flush c2) as [[[]|e] c3] eqn:Hfl.
  2: { split; [done|]. apply Hbr. by eapply Hf. }
  split; [done|]. pose proof (write_armed _ _ _ Hwr) as Ha2. pose proof (flush_armed _ _ Hfl) as Ha3.
  apply write_ok in Hwr as (Ht2 & Hs2 & Hst2). apply flush_ok in Hfl as (Ht3 & Hs3 & Hst3).
  exists l, q', t0, t1. split; [done|]. split; [cbn [abs clock cconn io]; lia|]. split; [done|].
  unfold abs. cbn [cconn io buf_i logic on_timeout ahead written partial alogic afn clock arm]. f_equal; congruence.
Qed.

(** After a message: the loop goes on, or flushes and returns the results. *)
Lemma received_runs again fl a a1 w m (cl : Client) :
  flushes fl -> (forall cl2, buf_o (cconn cl2) = [] -> came_to (abs cl2) (again cl2)) -> buf_o (cconn cl) = [] ->
  flushed w a a1 -> busy a1 -> reads instant_max reports w a1 (Ok (Some m)) (abs cl) ->
  came_to a (received call again fl m cl).
Proof.
  intros Hfl Hnext Hb Hf Hbusy Hread. unfold received. change (logic cl) with (alogic (abs cl)) at 1.
  destruct (run_once call m (alogic (abs cl))) as [[n l]|] eqn:Hrun; [|by eapply runs_handler_panic].
  set (cl1 := mkClient _ _ l _). assert (E : handled l (abs cl) = abs cl1) by done.
  destruct (Handlers.has_results (lhandlers l) n) eqn:Hres.
  2: { specialize (Hnext cl1 Hb). destruct (again cl1) as [[r cl']| |]; cbn [came_to] in *; [destruct Hnext as [Hnext ?]; split; [|done]| |done];
       by eapply runs_message; try done; rewrite E. }
  specialize (Hfl cl1 Hb). destruct (fl cl1) as [[[w'|e] cl2]| |] eqn:Hfl1; cbn [came_to]; [|destruct Hfl as [? Hfl]; split; [|done]; by eapply runs_results_error; try done; rewrite E|by eapply runs_results_overrun; try done; rewrite E|done].
  destruct Hfl as [Hb2 Hfl].
  assert (Hhs : lhandlers (logic cl2) = lhandlers l) by by destruct Hfl as (? & ? & ? & ? & _ & _ & _ & [= _ _ _ -> _ _]).
  destruct (Handlers.last_run_results (lhandlers (logic cl2)) n) as [res|] eqn:Hl.
  - split; [|done]. by eapply runs_results; try done; rewrite E.
  - exfalso. rewrite Hhs in Hl. unfold run_once in Hrun. destruct (Handlers.handle _ _ _ _ _) as [[n1 [[hs [st w1]] q]]|] eqn:Hh; [|done].
    injection Hrun as <- <-. apply Handlers.handle_results in Hh as [res Hr]. cbn in Hl. congruence.
Qed.

(** After a timeout: the loop goes on, or returns without results. *)
Lemma timed_out_runs again a a1 w con (cl : Client) :
  (forall cl2, buf_o (cconn cl2) = [] -> came_to (abs cl2) (again cl2)) -> buf_o (cconn cl) = [] ->
  flushed w a a1 -> busy a1 -> reads instant_max reports w a1 (Ok None) (abs cl) -> (limit_of w a1).2 = con ->
  came_to a (read_timed_out timeout_fn again con cl).
Proof.
  intros Hnext Hb Hf Hbusy Hread Hcon. unfold read_timed_out. unfold limit_of, timeout_fallback in Hcon.
  assert (Hgo : forall cl2 o, came_to (abs cl2) o -> (forall r, runs (abs cl2) r -> runs a r) -> came_to a o).
  { intros cl2 o Ho Hr. destruct o as [[r cl']| |]; cbn [came_to] in *; [destruct Ho; split|..]; auto. }
  destruct w as [d|]; cbn in Hcon; subst con.
  - apply (Hgo cl); [by apply Hnext|]. intros r Hr. by eapply runs_queue_limit.
  - destruct (on_timeout cl) as [f|] eqn:Ho; [|split; [by eapply runs_timeout|done]].
    destruct (timeout_fn f (logic cl)) as [[cf f'] l] eqn:Ht. set (cl1 := mkClient (cconn cl) _ l _).
    destruct cf.
    + apply (Hgo cl1); [by apply Hnext|]. intros r Hr. by eapply runs_timeout_fn.
    + split; [|done]. by eapply (runs_timeout_break _ _ _ _ _ a a1 (abs cl)).
Qed.
End Turns.
