(* ===== verification/ClientThms.v ===== *)
(** * Theorems on the client's run loop

    What [run] of [Client.v] does on a connection that keeps what I/O promises:
    messages are sent in order and all of them in the end, reads keep their
    deadline, and whatever the connection does the loop only ever makes the
    steps of an abstract client that reads its stream byte by byte. *)

From stdpp Require Import relations.
From S2P Require Import Prelude Args Tags Numeric Source Strings Splitter Msg Time Client Link.
From S2P Require Handlers State Queue Codec Builder Names.

(** ** Connections *)

(** What is relied on of a connection: besides, only [consume] uses up the
    stream, and only writing sends. *)
Class ConnectionOk (C : Type) `{BufReadOk C} `{Write C} `{ReadTimeout C} `{WriteTimeout C} `{Clock C} := {
  #[global] connection_link :: LinkOk C;
  read_timeout_ok t c r c' : Time.set_read_timeout t c = (r, c') ->
    stream c' = stream c /\ interrupts c' <= interrupts c /\ (forall e, r = Err e -> kind e <> Interrupted) /\
    sent c' = sent c;
  write_timeout_ok t c r c' : Time.set_write_timeout t c = (r, c') -> stream c' = stream c /\ sent c' = sent c;
  fill_sent c r c' : fill_buf c = (r, c') -> sent c' = sent c;
  consume_sent n c : sent (consume n c) = sent c;
}.

(** What is relied on of time: it does not go back, a read times out only when a
    timeout is set and has passed, and setting a timeout does not time out. *)
Class PatientOk (C : Type) `{ConnectionOk C} := {
  #[global] patient_link :: TimedLink C;
  fill_time c r c' : fill_buf c = (r, c') -> (time c <= time c')%N /\ armed c' = armed c;
  fill_patient c e c' : fill_buf c = (Err e, c') -> time_error e -> exists d, armed c = Some d /\ (time c + d <= time c')%N;
  consume_time n c : (time c <= time (consume n c))%N /\ armed (consume n c) = armed c;
  read_timeout_time t c r c' : Time.set_read_timeout t c = (r, c') ->
    (time c <= time c')%N /\ match r with Ok _ => armed c' = t | Err e => armed c' = armed c /\ ~ time_error e end;
  write_timeout_time t c r c' : Time.set_write_timeout t c = (r, c') -> (time c <= time c')%N /\ armed c' = armed c;
}.

Section Sync.
Context {C : Type} `{ConnectionOk C}.

(** Here what is coming is the stream. *)
Lemma conn_now_ok (c : C) t c' : now c = (t, c') ->
  (time c <= t <= time c')%N /\ sent c' = sent c /\ stream c' = stream c /\ interrupts c' <= interrupts c.
Proof. exact (now_ok c t c'). Qed.

Lemma update_timeout_ok s r s' :
  update_timeout s = (r, s') ->
  stream (conn s') = stream (conn s) /\ interrupts (conn s') <= interrupts (conn s) /\ deadline s' = deadline s /\
  (forall e, r = Err e -> kind e <> Interrupted) /\ sent (conn s') = sent (conn s).
Proof.
  unfold update_timeout. destruct s as [c [d|]]; cbn [deadline conn]; [|by intros [= <- <-]].
  destruct (now c) as [t c1] eqn:Hn. apply conn_now_ok in Hn as (_ & Ho & Hs & Hi).
  destruct (negb _).
  - destruct (Time.set_read_timeout _ c1) as [r1 c2] eqn:Hr. apply read_timeout_ok in Hr as (Hs2 & Hi2 & Hk & Ho2).
    intros [= <- <-]. cbn [conn deadline]. split; [congruence|]. split; [lia|]. split; [done|]. split; [done|congruence].
  - intros [= <- <-]. cbn [conn deadline]. split; [done|]. split; [done|]. split; [done|]. split; [|done]. by intros e [= <-].
Qed.

(** Reading a message sends nothing. *)
Lemma sync_recv_sent owning fuel (s : TimeLimitedSync C) buf r s' buf' :
  recv owning fuel s buf = Some (r, s', buf') -> sent (conn s') = sent (conn s).
Proof.
  apply (recv_keeps (fun s => sent (conn s))). clear. intros fuel limit s buf r s' buf'.
  apply (read_until_keeps (fun s => sent (conn s))).
  - clear. intros s r s'. unfold fill_buf, Sync_BufRead, sync_fill_buf.
    destruct (update_timeout s) as [[u|e] s1] eqn:Hu; apply update_timeout_ok in Hu as (_ & _ & _ & _ & Ho).
    + destruct (Time.fill_buf (conn s1)) as [r1 c] eqn:Hc. intros [= _ <-]. apply fill_sent in Hc. cbn [conn]. congruence.
    + by intros [= _ <-].
  - intros n c. apply consume_sent.
Qed.

(** The deadline changes nothing about the stream. *)
#[export] Program Instance Sync_BufReadOk : BufReadOk (TimeLimitedSync C) := {|
  stream s := stream (conn s);
  interrupts s := interrupts (conn s);
|}.
Next Obligation.
  intros s l s' Hf. unfold fill_buf, Sync_BufRead, sync_fill_buf in Hf. destruct (update_timeout s) as [[u|e] s1] eqn:Hu; [|done].
  apply update_timeout_ok in Hu as (Hs & Hi & _). destruct (Time.fill_buf (conn s1)) as [r c] eqn:Hc. injection Hf as -> <-.
  apply fill_ok in Hc as (H1' & H2' & H3' & H4'). cbn [conn]. rewrite <- Hs. split_and!; [done|done|done|lia].
Qed.
Next Obligation.
  intros s e s' Hf. unfold fill_buf, Sync_BufRead, sync_fill_buf in Hf. destruct (update_timeout s) as [[u|e'] s1] eqn:Hu;
    apply update_timeout_ok in Hu as (Hs & Hi & _ & Hk & _).
  - destruct (Time.fill_buf (conn s1)) as [r c] eqn:Hc. injection Hf as -> <-. apply fill_err in Hc as (H1' & H2' & H3'). cbn [conn].
    split; [congruence|]. split; [lia|]. intros Hint%H3'. lia.
  - injection Hf as <- <-. split; [done|]. split; [done|]. intros Hint. by destruct (Hk e' eq_refl).
Qed.
Next Obligation.
  intros s l s' n Hf Hn. unfold fill_buf, Sync_BufRead, sync_fill_buf in Hf. destruct (update_timeout s) as [[u|e] s1]; [|done].
  destruct (Time.fill_buf (conn s1)) as [r c] eqn:Hc. injection Hf as -> <-. cbn [conn]. by eapply consume_ok.
Qed.
Next Obligation. intros s. apply consume_0. Qed.

(** A limited read asks the connection for data only before its deadline, and
    only after setting its timeout to the time that is left, which is never
    zero; at the deadline it times out without touching the connection. *)
Theorem deadline_kept s r s' d t c :
  deadline s = Some d -> now (conn s) = (t, c) ->
  fill_buf s = (r, s') ->
  if (t <? d)%N then
    (0 < d - t)%N /\
    match Time.set_read_timeout (Some (d - t)%N) c with
    | (Ok _, c1) => r = (Time.fill_buf c1).1 /\ s' = mkSync (Time.fill_buf c1).2 (Some d)
    | (Err e, c1) => r = Err e /\ s' = mkSync c1 (Some d)
    end
  else r = Err (io_error TimedOut) /\ s' = mkSync c (Some d).
Proof.
  intros Hd Hn. change (fill_buf s) with (sync_fill_buf s). unfold sync_fill_buf, update_timeout. rewrite Hd, Hn.
  unfold Queue.saturating_duration_since. destruct (N.ltb_spec t d) as [Hlt|Hge].
  - rewrite (proj2 (N.eqb_neq _ _)) by lia. cbn [negb]. intros K. split; [lia|].
    destruct (Time.set_read_timeout _ c) as [[u|e] c1]; cbn [conn deadline] in K.
    + destruct (Time.fill_buf c1) as [r1 c2]. by injection K as <- <-.
    + by injection K as <- <-.
  - replace (d - t)%N with 0%N by lia. cbn [N.eqb negb]. by intros [= <- <-].
Qed.
End Sync.

(** ** The run loop *)

Section Run.
Context {A : Type} `{Queue.Adjuster A} {Lb : Type} {B W : Type} {F : Type} {C : Type} {Sp : Type}
  `{ConnectionOk C} (instant_max : N).
Abbreviation Queue := (Queue.Queue A Lb).
Abbreviation Logic := (ClientLogic A Lb B W).
Abbreviation Client := (Client A Lb B W F C Sp).

(** A flush sends the messages at the front of the queue in their order, each
    as one line, and takes exactly these out; unless the queue is empty then it
    says how long until the next one may be sent.  It ends, and changes nothing
    else of the client. *)
Theorem flush_correct (cl : Client) :
  buf_o (cconn cl) = [] ->
  flush_partial instant_max cl <> OutOfFuel /\
  forall t cl', flush_partial instant_max cl = Done (Ok t, cl') ->
    exists popped, Queue.queue (lqueue (logic cl)) = popped ++ Queue.queue (lqueue (logic cl')) /\
      sent (io (cconn cl')) = sent (io (cconn cl)) ++ wire popped /\ buf_o (cconn cl') = [] /\
      (t = None <-> Queue.queue (lqueue (logic cl')) = []) /\
      buf_i (cconn cl') = buf_i (cconn cl) /\ logic cl' = with_queue (lqueue (logic cl')) (logic cl) /\
      (due (lqueue (logic cl)) (io (cconn cl)) -> Queue.queue (lqueue (logic cl)) <> [] -> popped <> []).
Proof.
  intros Hb. pose proof (flush_partial_spec instant_max cl Hb) as Hs. cbv zeta in Hs.
  destruct (flush_partial instant_max cl) as [[r cl1]| |]; [|done..]. split; [done|]. intros t cl' [= -> ->].
  destruct Hs as (H1' & H2' & _ & _ & H5' & _ & popped & Hq & _ & Hs & _ & Hn & _ & Hdue & _). exists popped. split_and!; done || by symmetry.
Qed.

Context (call : B -> ServerMsg -> State.ClientState * W -> Queue -> option (Handlers.HandlerStatus * B * (State.ClientState * W) * Queue)).
Context (timeout_fn : F -> Logic -> Handlers.ControlFlow () * F * Logic).
#[local] Abbreviation run := (run instant_max call timeout_fn).

(** A connection that never fails to write. *)
Definition writes : Prop :=
  (forall l (c : C), exists c', write_all l c = (Ok (), c')) /\ (forall c : C, exists c', flush c = (Ok (), c')).

Lemma flush_never_fails (cl : Client) : writes -> forall e cl', flush_partial instant_max cl <> Done (Err e, cl').
Proof.
  intros [Hw Hf] e cl'. unfold flush_partial. destruct (Queue.is_empty _); [done|].
  destruct (pop_loop _ _ _ _ _) as [[[[t q'] c1] bo]| |]; [|done..].
  destruct (Hw bo c1) as [c2 ->]. by destruct (Hf c2) as [c3 ->].
Qed.

(** What is left to send takes a turn a message once one is due. *)
Lemma run_flushes_due rfuel n fuel (cl : Client) :
  writes -> Handlers.is_empty (lhandlers (logic cl)) = true -> buf_o (cconn cl) = [] ->
  length (Queue.queue (lqueue (logic cl))) <= n -> n < fuel ->
  due (lqueue (logic cl)) (io (cconn cl)) ->
  match run rfuel fuel cl with
  | OutOfFuel => False
  | Panic => clock_ends (C := C) instant_max (lqueue (logic cl))
  | Done (r, cl') => r = Ok (Some ([], [])) /\ Queue.queue (lqueue (logic cl')) = [] /\
      exists l t, pops instant_max (lqueue (logic cl)) (time (io (cconn cl))) l (lqueue (logic cl')) t /\ (t <= time (io (cconn cl')))%N /\
        sent (io (cconn cl')) = sent (io (cconn cl)) ++ wire l.*2
  end.
Proof.
  intros Hw. revert fuel cl. induction n as [|n IH]; intros fuel cl He Hb Hlen Hfuel Hdue; (destruct fuel as [|fuel]; [lia|]); cbn [Client.run];
    pose proof (flush_partial_spec instant_max cl Hb) as Hs; pose proof (flush_never_fails cl Hw) as Hne; cbv zeta in Hs;
    pose proof (flush_pops instant_max cl) as Hfp;
    destruct (flush_partial instant_max cl) as [[[t|e] cl1]| |]; try done; try (by destruct (Hne e cl1));
    destruct (Hfp cl1 t Hb eq_refl) as (l1 & t0 & t1 & Hp1 & Ht1 & _ & Hsent);
    destruct Hs as (Hb1 & _ & _ & _ & Hl1 & Hset & popped & Hq & _ & _ & _ & Hn & Hd & Hpop & _);
    assert (He1 : Handlers.is_empty (lhandlers (logic cl1)) = true) by (by rewrite Hl1); rewrite He1.
  - assert (Hz : Queue.queue (lqueue (logic cl)) = []) by (apply length_zero_iff_nil; lia). rewrite Hz in Hq.
    symmetry in Hq. apply app_eq_nil in Hq as [-> Hq]. rewrite (proj1 Hn Hq). split; [done|]. split; [done|]. exists l1, t0. split; [done|]. split; [lia|done].
  - destruct t as [d|].
    + set (cl2 := with_io _ cl1).
      assert (Hne1 : Queue.queue (lqueue (logic cl1)) <> []) by (intros Hq1; by apply Hn in Hq1).
      assert (Hpne : popped <> []).
      { apply Hpop; [done|]. intros Hq0. rewrite Hq0 in Hq. symmetry in Hq. by apply app_eq_nil in Hq as [_ ?]. }
      destruct (sleep_ok d (io (cconn cl1))) as (Ht2 & Hs2 & _).
      specialize (IH fuel cl2 He1 Hb1). cbn [cl2 with_io cconn io logic] in IH.
      rewrite Hq, length_app in Hlen. destruct popped as [|m popped]; [done|]. cbn [length] in Hlen.
      specialize (IH ltac:(lia) ltac:(lia)).
      assert (Hdue2 : due (lqueue (logic cl1)) (sleep d (io (cconn cl1)))).
      { unfold due. specialize (Hd d eq_refl). lia. }
      specialize (IH Hdue2). destruct (run rfuel fuel cl2) as [[r cl3]| |]; [| |done].
      * destruct IH as (-> & Hq3 & l2 & t2 & Hp2 & Hl2 & Hs3). split; [done|]. split; [done|].
        destruct (pops_app instant_max _ _ _ _ _ _ _ _ (time (sleep d (io (cconn cl1)))) Hp1 ltac:(lia) Hp2) as (t3 & Hp3 & Ht3). exists (l1 ++ l2), t3.
        split; [done|]. split; [lia|]. rewrite Hs3, Hs2, Hsent. unfold wire. by rewrite !fmap_app, concat_app, app_assoc.
      * destruct Hset as (Hdl & Hsb & _). unfold clock_ends in *. by rewrite <- Hdl, <- Hsb.
    + split; [done|]. pose proof (proj2 Hn eq_refl) as Hq1. split; [done|]. exists l1, t0. split; [done|]. split; [lia|done].
Qed.

Lemma run_flushes_spec rfuel (cl : Client) :
  writes -> Handlers.is_empty (lhandlers (logic cl)) = true -> buf_o (cconn cl) = [] ->
  match run rfuel (S (S (Queue.len (lqueue (logic cl))))) cl with
  | OutOfFuel => False
  | Panic => clock_ends (C := C) instant_max (lqueue (logic cl))
  | Done (r, cl') => r = Ok (Some ([], [])) /\ Queue.queue (lqueue (logic cl')) = [] /\
      exists l t, pops instant_max (lqueue (logic cl)) (time (io (cconn cl))) l (lqueue (logic cl')) t /\ (t <= time (io (cconn cl')))%N /\
        sent (io (cconn cl')) = sent (io (cconn cl)) ++ wire l.*2
  end.
Proof.
  intros Hw He Hb. remember (S (Queue.len (lqueue (logic cl)))) as fuel eqn:Hfuel. cbn [Client.run].
  pose proof (flush_partial_spec instant_max cl Hb) as Hs. pose proof (flush_never_fails cl Hw) as Hne. cbv zeta in Hs.
  pose proof (flush_pops instant_max cl) as Hfp.
  destruct (flush_partial instant_max cl) as [[[t|e] cl1]| |]; [|by destruct (Hne e cl1)|done|done].
  destruct (Hfp cl1 t Hb eq_refl) as (l1 & t0 & t1 & Hp1 & Ht1 & _ & Hsent).
  destruct Hs as (Hb1 & _ & _ & _ & Hl1 & Hset & popped & Hq & _ & _ & _ & Hn & Hd & _).
  assert (He1 : Handlers.is_empty (lhandlers (logic cl1)) = true) by (by rewrite Hl1). rewrite He1.
  destruct t as [d|]; [|split; [done|]; pose proof (proj2 Hn eq_refl) as Hq1; split; [done|]; exists l1, t0; split; [done|]; split; [lia|done]].
  set (cl2 := with_io _ cl1). destruct (sleep_ok d (io (cconn cl1))) as (Ht2 & Hs2 & _).
  assert (Hlen : length (Queue.queue (lqueue (logic cl1))) <= Queue.len (lqueue (logic cl))).
  { unfold Queue.len. rewrite Hq, length_app. lia. }
  assert (Hdue : due (lqueue (logic cl2)) (io (cconn cl2))).
  { unfold due. cbn [cl2 with_io cconn io logic]. specialize (Hd d eq_refl). lia. }
  pose proof (run_flushes_due rfuel _ fuel cl2 Hw He1 Hb1 Hlen ltac:(lia) Hdue) as Hr. cbn [cl2 with_io cconn io logic] in Hr.
  destruct (run rfuel fuel cl2) as [[r cl3]| |]; [| |done].
  - destruct Hr as (-> & Hq3 & l2 & t2 & Hp2 & Hl2 & Hs3). split; [done|]. split; [done|].
    destruct (pops_app instant_max _ _ _ _ _ _ _ _ (time (sleep d (io (cconn cl1)))) Hp1 ltac:(lia) Hp2) as (t3 & Hp3 & Ht3). exists (l1 ++ l2), t3.
    split; [done|]. split; [lia|]. rewrite Hs3, Hs2, Hsent. unfold wire. by rewrite !fmap_app, concat_app, app_assoc.
  - destruct Hset as (Hdl & Hsb & _). unfold clock_ends in *. cbn [cl2 with_io logic] in Hr. by rewrite <- Hdl, <- Hsb.
Qed.


(** Limiting a read leaves the stream alone. *)
Lemma sync_new_stream (c0 : C) limits0 wait sync con c limits :
  sync_new instant_max c0 limits0 wait = (Ok (sync, con), c, limits) ->
  stream (conn sync) = stream c0 /\ sent (conn sync) = sent c0 /\ con = (timeout_fallback wait (Time.read limits0)).2 /\
  limits = (if update_write limits0 then mkLimits (Time.read limits0) (Time.write limits0) false else limits0).
Proof.
  intros Hs. unfold sync_new in Hs.
  assert (Hcont : forall c1 (tl : TimeLimits), stream c1 = stream c0 -> sent c1 = sent c0 ->
    (let (read, constrained) := timeout_fallback wait (Time.read tl) in
     let (read, c) := match read with
       | Some dur => let (t, c) := now c1 in (Queue.checked_add instant_max t dur, c)
       | None => (None, c1)
       end in (Ok (mkSync c read, constrained) : result _ IoError, c, tl)) = (Ok (sync, con), c, limits) ->
    stream (conn sync) = stream c0 /\ sent (conn sync) = sent c0 /\ con = (timeout_fallback wait (Time.read tl)).2 /\ limits = tl).
  { intros c1 tl Hc1 Ho1. destruct (timeout_fallback _ _) as [[dur|] cons0].
    - destruct (now c1) as [t c2] eqn:Hnow. apply conn_now_ok in Hnow as (_ & Ho & Hst & _). intros [= <- -> _ <-]. cbn [conn snd]. split_and!; congruence.
    - intros [= <- -> _ <-]. by cbn [conn snd]. }
  destruct (update_write limits0).
  - destruct (Time.set_write_timeout _ _) as [[u|e] c1] eqn:Hw; [|done]. apply write_timeout_ok in Hw as [Hw Ho]. by apply Hcont in Hs.
  - by apply Hcont in Hs.
Qed.
End Run.

(** ** Limited reads *)

Section Patient.
Context {C : Type} `{PatientOk C} (instant_max : N).

(** The errors the connection reports. *)
Definition reports (e : IoError) : Prop := exists c c' : C,
  (exists l, write_all l c = (Err e, c')) \/ flush c = (Err e, c') \/ fill_buf c = (Err e, c') \/
  (exists t, Time.set_read_timeout t c = (Err e, c')) \/ (exists t, Time.set_write_timeout t c = (Err e, c')).

(** Later, with the same deadline; what is armed changes only for that. *)
Definition sooner (s s' : TimeLimitedSync C) : Prop :=
  deadline s' = deadline s /\ (time (conn s) <= time (conn s'))%N /\ (deadline s = None -> armed (conn s') = armed (conn s)).

#[export] Instance sooner_preorder : PreOrder sooner.
Proof. split; [intros x; by split_and!|]. intros x y z (K1 & K2 & K3) (K4 & K5 & K6). split_and!; [congruence|lia|]. intros Hd. rewrite K6, K3; congruence. Qed.

(** What is known of an error of a read from [s0] on: it is the connection's, or
    the time is over. *)
Definition explained (s0 : TimeLimitedSync C) (e : IoError) (s : TimeLimitedSync C) : Prop :=
  (time_error e -> match deadline s0 with
    | Some d => (d <= time (conn s))%N
    | None => exists d, armed (conn s0) = Some d /\ (time (conn s0) + d <= time (conn s))%N
    end) /\
  (~ time_error e -> reports e).

Lemma sync_fill_explained s0 s r s' :
  sooner s0 s -> fill_buf s = (r, s') -> sooner s s' /\ forall e, r = Err e -> explained s0 e s'.
Proof.
  intros (Hd0 & Ht0 & Ha0) Hf. unfold explained. rewrite <- Hd0 in *. revert Hf.
  unfold fill_buf, Sync_BufRead, sync_fill_buf, update_timeout. destruct s as [c [d|]]; cbn [deadline conn] in *.
  - destruct (now c) as [t c1] eqn:Hn. apply conn_now_ok in Hn as (Ht & _).
    unfold Queue.saturating_duration_since. destruct (N.eqb_spec (d - t) 0) as [Hz|Hz]; cbn [negb].
    + intros [= <- <-]. split; [split_and!; [done|cbn [conn]; lia|done]|]. intros e [= <-]. cbn [conn]. split; [lia|]. intros K. destruct K. by left.
    + destruct (Time.set_read_timeout _ c1) as [[u|e] c2] eqn:Hr; pose proof (read_timeout_time _ _ _ _ Hr) as [Ht2 Ha2].
      * destruct (Time.fill_buf _) as [r1 c3] eqn:Hf. cbn [conn] in Hf. intros [= <- <-]. cbn [conn deadline].
        pose proof (fill_time _ _ _ Hf) as [Ht3 _]. split; [split_and!; [done|cbn [conn]; lia|done]|]. intros e ->. split.
        -- intros Hk. destruct (fill_patient _ _ _ Hf Hk) as (x & Hx & Hlate). rewrite Ha2 in Hx. injection Hx as <-. lia.
        -- intros _. exists c2, c3. tauto.
      * intros [= <- <-]. split; [split_and!; [done|cbn [conn]; lia|done]|]. intros e' [= <-]. split; [tauto|]. intros _. exists c1, c2. eauto 10.
  - destruct (Time.fill_buf c) as [r1 c1] eqn:Hf. intros [= <- <-]. pose proof (fill_time _ _ _ Hf) as [Ht1 Ha1]. cbn [conn].
    split; [split_and!; [done|cbn [conn]; lia|done]|]. intros e ->. split.
    + intros Hk. destruct (fill_patient _ _ _ Hf Hk) as (x & Hx & Hlate). exists x. split; [rewrite <- Ha0; done|lia].
    + intros _. exists c, c1. tauto.
Qed.

Lemma sync_recv_explained owning fuel (s : TimeLimitedSync C) buf r s' buf' :
  recv owning fuel s buf = Some (r, s', buf') ->
  sooner s s' /\ recv_as (explained s) (fun read => Codec.client_codec_read owning fuel read buf) s r s' buf'.
Proof.
  apply (recv_spec_steps sooner (explained s) s); [|done]. intros fuel1 limit s1 buf1 r1 s2 buf2 Hs.
  apply (read_until_steps sooner (explained s) s); [| |done].
  - intros s3 r3 s4 Hs3 Hf. destruct (sync_fill_explained s s3 r3 s4 Hs3 Hf) as [K1 K2]. split; [done|]. intros e He _. by apply K2.
  - intros n s3. destruct (consume_time n (conn s3)) as [K1 K2]. split; [done|]. by split.
Qed.

Lemma sync_new_time (c0 : C) limits0 wait sync con c limits :
  sync_new instant_max c0 limits0 wait = (Ok (sync, con), c, limits) ->
  (time c0 <= time (conn sync))%N /\ armed (conn sync) = armed c0 /\
  match (timeout_fallback wait (Time.read limits0)).1 with
  | None => deadline sync = None
  | Some d => exists t, (time c0 <= t <= time (conn sync))%N /\ deadline sync = Queue.checked_add instant_max t d
  end.
Proof.
  intros Hs. unfold sync_new in Hs.
  assert (Hcont : forall c1 (tl : TimeLimits), (time c0 <= time c1)%N -> armed c1 = armed c0 ->
    (let (read, constrained) := timeout_fallback wait (Time.read tl) in
     let (read, c) := match read with
       | Some dur => let (t, c) := now c1 in (Queue.checked_add instant_max t dur, c)
       | None => (None, c1)
       end in (Ok (mkSync c read, constrained) : result _ IoError, c, tl)) = (Ok (sync, con), c, limits) ->
    (time c0 <= time (conn sync))%N /\ armed (conn sync) = armed c0 /\
    match (timeout_fallback wait (Time.read tl)).1 with
    | None => deadline sync = None
    | Some d => exists t, (time c0 <= t <= time (conn sync))%N /\ deadline sync = Queue.checked_add instant_max t d
    end).
  { intros c1 tl Hc1 Ha1. destruct (timeout_fallback _ _) as [[dur|] cons0].
    - destruct (now c1) as [t c2] eqn:Hnow. pose proof (now_armed _ _ _ Hnow) as Ha2. apply conn_now_ok in Hnow as (Ht & _). intros [= <- _ _ _].
      cbn [conn deadline fst]. split; [lia|]. split; [congruence|]. exists t. split; [lia|done].
    - intros [= <- _ _ _]. by cbn [conn]. }
  destruct (update_write limits0).
  - destruct (Time.set_write_timeout _ _) as [[u|e] c1] eqn:Hw; [|done]. apply write_timeout_time in Hw as [Hw Ho]. by apply Hcont in Hs.
  - by apply Hcont in Hs.
Qed.
End Patient.

Section PatientRun.
Context {A : Type} `{Queue.Adjuster A} {Lb : Type} {B W : Type} {F : Type} {C : Type} {Sp : Type}
  `{PatientOk C} (instant_max : N).
Abbreviation Queue := (Queue.Queue A Lb).
Abbreviation Logic := (ClientLogic A Lb B W).
Abbreviation Client := (Client A Lb B W F C Sp).
Context (call : B -> ServerMsg -> State.ClientState * W -> Queue -> option (Handlers.HandlerStatus * B * (State.ClientState * W) * Queue)).
Context (timeout_fn : F -> Logic -> Handlers.ControlFlow () * F * Logic).
#[local] Abbreviation run := (run instant_max call timeout_fn).
#[local] Abbreviation reads := (reads instant_max (reports (C := C))).

(** One limited read of the loop is one of the abstract client. *)
Lemma sync_reads (cl : Client) w sync con c limits rfuel msg sync' bufi :
  sync_new instant_max (io (cconn cl)) (timeout (logic cl)) w = (Ok (sync, con), c, limits) ->
  recv (Handlers.wants_owning (lhandlers (logic cl))) rfuel sync (buf_i (cconn cl)) = Some (msg, sync', bufi) ->
  let cl2 := with_io (mkIo (conn sync') bufi (buf_o (cconn cl))) (client_with_logic (with_timeout limits (logic cl)) cl) in
  reads w (abs cl) (filter_time_error msg) (abs cl2) /\ con = (limit_of w (abs cl)).2.
Proof.
  intros Hs Hr cl2. destruct (sync_new_stream instant_max _ _ _ _ _ _ _ Hs) as (Hst & Hse & Hcon & Hlim).
  destruct (sync_new_time instant_max _ _ _ _ _ _ _ Hs) as (Ht & Ha & Hdl).
  pose proof (sync_recv_sent _ _ _ _ _ _ _ Hr) as Hso. apply sync_recv_explained in Hr as [(_ & Ht2 & Ha2) (consumed & Hc & Hr)].
  change (coming sync) with (stream (conn sync)) in *. change (coming sync') with (stream (conn sync')) in *. rewrite Hst in *.
  split; [|exact Hcon]. split; [cbn; congruence|]. split; [done|]. split; [cbn; lia|].
  split; [unfold settled; cbn; rewrite Hlim; destruct (update_write _); [by right|left; by destruct (logic cl) as [[] ]]|].
  split. { unfold limit_of. cbn. intros Hn. rewrite Hn in Hdl. rewrite Ha2; done. }
  exists consumed, rfuel. split; [exact Hc|]. cbv zeta. destruct msg as [m|e].
  { destruct Hr as [[Hr _]|(e & [=] & _)]. exact Hr. }
  assert (Htime : time_error e -> limit_passed instant_max w (abs cl) (abs cl2) /\
    Codec.client_codec_read (Handlers.wants_owning (lhandlers (logic cl))) rfuel
      ((Some <$> consumed) ++ None :: (Some <$> stream (conn sync'))) (buf_i (cconn cl)) = Some (Err Codec.ReadError, Some <$> stream (conn sync'), bufi)).
  { intros Hk. destruct Hr as [[_ [Hk2|Hk2]]|(e' & [= <-] & [Hp _] & Hr)]; [destruct Hk; congruence..|]. split; [|exact Hr]. specialize (Hp Hk).
    unfold limit_passed, limit_of. cbn [abs alogic clock arm cl2 with_io cconn io]. destruct (timeout_fallback w _) as [[d|] con'] eqn:Hf; cbn [fst] in *.
    - destruct Hdl as (t & Ht3 & Hdl). rewrite Hdl in Hp. unfold Queue.checked_add in Hp. destruct (N.leb_spec (t + d) instant_max).
      + exists d. split; [lia|by left].
      + destruct Hp as (d' & Hd' & Hlate). exists d'. split; [lia|]. right. split; [congruence|]. intros d0 [= <-]. lia.
    - rewrite Hdl in Hp. destruct Hp as (d' & Hd' & Hlate). exists d'. split; [lia|]. right. split; [congruence|done]. }
  assert (Hother : ~ time_error e -> ~ time_error e /\
    ((own_error (Err e : result ServerMsg IoError) /\ Codec.client_codec_read (Handlers.wants_owning (lhandlers (logic cl))) rfuel
        (Some <$> stream (io (cconn cl))) (buf_i (cconn cl)) = Some (abstract (Err e), Some <$> stream (conn sync'), bufi)) \/
     (reports (C := C) e /\ Codec.client_codec_read (Handlers.wants_owning (lhandlers (logic cl))) rfuel
        ((Some <$> consumed) ++ None :: (Some <$> stream (conn sync'))) (buf_i (cconn cl)) = Some (Err Codec.ReadError, Some <$> stream (conn sync'), bufi)))).
  { intros Hk. split; [done|]. destruct Hr as [[Hr Ho]|(e' & [= <-] & [_ Hp] & Hr)]; [left; by split|right]. split; [by apply Hp|exact Hr]. }
  destruct (filter_err (T := ServerMsg) e) as [[Hk Hm]|[Hk Hm]]; rewrite Hm; [by apply Htime|by apply Hother].
Qed.

End PatientRun.

(** ** Resetting *)

Section Reset.
Context {A : Type} `{Queue.Adjuster A} {Lb : Type} {B W : Type} {F : Type} {C : Type} {Sp : Type}.

(** With a new connection in place of the old one a client is a new client on
    it, but for its configuration: the rate limits, the time limits, the
    adjuster after its own reset, and the timeout function; every handler was
    dropped.  It also keeps the source length it assumed on the old
    connection. *)
Theorem reset_fresh (cl : Client A Lb B W F C Sp) (drop_box : B -> W -> W) now conn :
  let (old, cl') := reset_with_conn drop_box now conn cl in
  let q := lqueue (logic cl) in
  old = io (cconn cl) /\
  cl' = mkClient (io_new conn) (spec cl)
    (mkLogic (mkLimits (Time.read (timeout (logic cl))) (Time.write (timeout (logic cl))) true)
      (Queue.mkQueue [] (Queue.delay q) (Queue.sub q) now None (Queue.adjuster_reset <$> Queue.adjuster q))
      (State.set_source_len (State.source_len (lstate (logic cl))) State.new)
      Handlers.new (drop_handlers drop_box (lhandlers (logic cl)) (heap (logic cl)))) (on_timeout cl) /\
  needs_run cl' = false.
Proof.
  assert (Hq : Queue.reset now (lqueue (logic cl)) =
    let q := lqueue (logic cl) in Queue.mkQueue [] (Queue.delay q) (Queue.sub q) now None (Queue.adjuster_reset <$> Queue.adjuster q)).
  { unfold Queue.reset. cbn. destruct (Queue.adjuster (lqueue (logic cl))) eqn:Ha; [done|].
    unfold Queue.with_timepoint. cbn. by rewrite Ha. }
  cbn. split; [done|]. unfold reset, logic_reset. cbn [logic with_timeout lqueue]. rewrite Hq. done.
Qed.
End Reset.

(** ** A simulated connection *)

(** Chunks that arrive at given times, what was sent, and the read timeout. *)
Record Sim := mkSim { clk : N; rto : option N; incoming : list (N * byte * list byte); outgoing : list byte }.

Definition sim_fill (c : Sim) : result (list byte) IoError * Sim :=
  let at_time t := mkSim t (rto c) (incoming c) (outgoing c) in
  match incoming c with
  | [] => (Ok [], c)
  | (t, b, l) :: _ =>
      if (t <=? clk c)%N then (Ok (b :: l), c)
      else match rto c with
           | None => (Ok (b :: l), at_time t)
           | Some d => if (t <=? clk c + d)%N then (Ok (b :: l), at_time t) else (Err (io_error WouldBlock), at_time (clk c + d)%N)
           end
  end.

Definition sim_consume (n : nat) (c : Sim) : Sim :=
  match incoming c with
  | [] => c
  | (t, b, l) :: rest =>
      mkSim (clk c) (rto c) (match drop n (b :: l) with [] => rest | b :: l => (t, b, l) :: rest end) (outgoing c)
  end.

#[export] Instance Sim_BufRead : BufRead Sim := {| fill_buf := sim_fill; consume := sim_consume |}.
#[export] Instance Sim_Write : Write Sim := {|
  write_all l c := (Ok (), mkSim (clk c) (rto c) (incoming c) (outgoing c ++ l));
  flush c := (Ok (), c);
|}.
#[export] Instance Sim_ReadTimeout : ReadTimeout Sim := fun t c => (Ok (), mkSim (clk c) t (incoming c) (outgoing c)).
#[export] Instance Sim_WriteTimeout : WriteTimeout Sim := fun _ c => (Ok (), c).
#[export] Instance Sim_Clock : Clock Sim := {|
  now c := (clk c, c);
  sleep d c := mkSim (clk c + d) (rto c) (incoming c) (outgoing c);
|}.

Definition sim_stream (c : Sim) : list byte := concat ((fun p => p.1.2 :: p.2) <$> incoming c).

Lemma sim_fill_stream c r c' : sim_fill c = (r, c') -> incoming c' = incoming c /\ outgoing c' = outgoing c /\
  match r with
  | Ok l => l `prefix_of` sim_stream c /\ (l = [] -> sim_stream c = []) /\ (l = [] <-> incoming c = []) /\
      forall n, n <= length l -> sim_stream (sim_consume n c') = drop n (sim_stream c')
  | Err e => kind e = WouldBlock
  end.
Proof.
  unfold sim_fill, sim_stream. destruct (incoming c) as [|[[t b] l] rest] eqn:Hi.
  { intros [= <- <-]. rewrite Hi. split_and!; try done. intros n Hn. cbn in Hn. assert (n = 0) as -> by lia.
    unfold sim_consume. by rewrite Hi, Hi. }
  assert (K : forall c', incoming c' = (t, b, l) :: rest -> forall n, n <= length (b :: l) ->
    concat ((fun p => p.1.2 :: p.2) <$> incoming (sim_consume n c')) = drop n (concat ((fun p => p.1.2 :: p.2) <$> (t, b, l) :: rest))).
  { intros c1 Hc1 n Hn. unfold sim_consume. rewrite Hc1. cbn [incoming fmap list_fmap concat fst snd].
    rewrite drop_app_le by done. by destruct (drop n (b :: l)). }
  assert (P : (b :: l) `prefix_of` concat ((fun p => p.1.2 :: p.2) <$> (t, b, l) :: rest)) by (cbn [fmap list_fmap concat fst snd]; by apply prefix_app_r).
  destruct (t <=? clk c)%N; [|destruct (rto c) as [d|]; [destruct (t <=? clk c + d)%N|]]; intros [= <- <-]; cbn [incoming outgoing]; rewrite ?Hi;
    (split; [done|]); (split; [done|]); try done; (split; [exact P|]); (split; [done|]); (split; [done|]); by apply K.
Qed.

#[export] Program Instance Sim_BufReadOk : BufReadOk Sim := {| stream := sim_stream; interrupts _ := 0 |}.
Next Obligation. intros c l c' (Hi & _ & Hp & He & _)%sim_fill_stream. unfold sim_stream in *. rewrite Hi. by split_and!. Qed.
Next Obligation. intros c e c' (Hi & _ & Hk)%sim_fill_stream. unfold sim_stream. rewrite Hi. split_and!; [done|done|congruence]. Qed.
Next Obligation. intros c l c' n (_ & _ & _ & _ & _ & Hc)%sim_fill_stream Hn. split; [by apply Hc|done]. Qed.
Next Obligation. intros c. split; [|done]. unfold consume, Sim_BufRead, sim_stream, sim_consume. destruct (incoming c) as [|[[t b] l] rest] eqn:Hi; [by rewrite Hi|done]. Qed.

Lemma sim_consume_sent n c : outgoing (sim_consume n c) = outgoing c.
Proof. unfold sim_consume. by destruct (incoming c) as [|[[t b] l] rest]. Qed.

#[export] Program Instance Sim_Link : LinkOk Sim := {| time := clk; sent := outgoing |}.
Next Obligation. intros c t c' [= <- <-]. split_and!; done || lia. Qed.
Next Obligation. intros d c. split_and!; done || (cbn; lia). Qed.
Next Obligation. intros l c c' [= <-]. split_and!; done || (cbn; lia). Qed.
Next Obligation. intros c c' [= <-]. split_and!; done || lia. Qed.
Next Obligation.
  intros fuel limit c buf r c' buf'. apply (read_until_keeps outgoing); [|apply sim_consume_sent].
  by intros c1 r1 c2 (_ & Ho & _)%sim_fill_stream.
Qed.

#[export] Program Instance Sim_Ok : ConnectionOk Sim := {| connection_link := Sim_Link |}.
Next Obligation. intros t c r c' [= <- <-]. by split_and!. Qed.
Next Obligation. intros t c r c' [= <- <-]. done. Qed.
Next Obligation. by intros c r c' (_ & Ho & _)%sim_fill_stream. Qed.
Next Obligation. apply sim_consume_sent. Qed.

#[export] Program Instance Sim_Timed : TimedLink Sim := {| armed := rto |}.
Next Obligation. by intros c t c' [= _ <-]. Qed.
Next Obligation. done. Qed.
Next Obligation. by intros l c c' [= <-]. Qed.
Next Obligation. by intros c c' [= <-]. Qed.

#[export] Program Instance Sim_Patient : PatientOk Sim := {| patient_link := Sim_Timed |}.
Next Obligation.
  intros c r c'. unfold fill_buf, Sim_BufRead, sim_fill. destruct (incoming c) as [|[[t b] l] rest]; [by intros [= <- <-]|].
  destruct (N.leb_spec t (clk c)); [by intros [= <- <-]|]. destruct (rto c) as [d|] eqn:Hr; [destruct (N.leb_spec t (clk c + d))|];
    intros [= <- <-]; cbn; (split; [lia|done]).
Qed.
Next Obligation.
  intros c e c'. unfold fill_buf, Sim_BufRead, sim_fill. destruct (incoming c) as [|[[t b] l] rest]; [done|].
  destruct (N.leb_spec t (clk c)); [done|]. destruct (rto c) as [d|] eqn:Hr; [|done]. destruct (N.leb_spec t (clk c + d)); [done|].
  intros [= <- <-] _. by exists d.
Qed.
Next Obligation. intros n c. unfold consume, Sim_BufRead, sim_consume. by destruct (incoming c) as [|[[t b] l] rest]. Qed.
Next Obligation. by intros t c r c' [= <- <-]. Qed.
Next Obligation. by intros t c r c' [= <- <-]. Qed.

Lemma sim_writes : writes (C := Sim).
Proof. split; [intros l c|intros c]; by eexists. Qed.

(** ** Witnesses *)

#[local] Instance no_adjuster : Queue.Adjuster () := {|
  Queue.should_adjust a _ := (false, a);
  Queue.update a m := (true, m, a);
  Queue.adjuster_reset a := a;
|}.

(** A handler that counts messages, and yields at a [PONG]. *)
Definition count_call (b : nat) (m : ServerMsg) (st : State.ClientState * ()) (q : Queue.Queue () N)
    : option (Handlers.HandlerStatus * nat * (State.ClientState * ()) * Queue.Queue () N) :=
  Some (Handlers.Keep (bool_decide (as_arg (Msg.kind m) = bs "PONG")) false, S b, st, q).
Definition never_called (f : ()) (l : ClientLogic () N nat ()) : Handlers.ControlFlow () * () * ClientLogic () N nat () := (Handlers.Continue, f, l).

Definition sample_max : N := Queue.from_secs 1000000.
Definition sample_queue (n : nat) : Queue.Queue () N := Queue.from_queue 0 (replicate n (client_new_cmd (bs "PING"))).
Definition sample_client (n : nat) (hs : Handlers.Handlers nat) (c : Sim) : Client () N nat () () Sim () :=
  new_with_logic c () (with_handlers hs (with_queue (sample_queue n) (logic_new 0 ()))).
Abbreviation sample_run := (Client.run sample_max count_call never_called).


Lemma flush_correct_witness :
  exists t cl', flush_partial sample_max (sample_client 7 Handlers.new (mkSim 0 None [] [])) = Done (Ok (Some t), cl') /\
    exists popped, sent (io (cconn cl')) = [] ++ wire popped.
Proof.
  destruct (flush_correct sample_max (sample_client 7 Handlers.new (mkSim 0 None [] [])) eq_refl) as [_ Hf].
  destruct (flush_partial sample_max (sample_client 7 Handlers.new (mkSim 0 None [] []))) as [[[[t|]|e] cl']| |] eqn:He;
    try (exfalso; vm_compute in He; discriminate He).
  exists t, cl'. split; [reflexivity|]. destruct (Hf (Some t) cl' eq_refl) as (popped & _ & K & _). exists popped. exact K.
Defined.

(** A line in three chunks. *)
Definition sample_chunks : Sim :=
  mkSim 0 None [(0%N, "P"%byte, bs "ON"); (5%N, "G"%byte, bs " x"); (9%N, "013"%byte, ["010"%byte])] [].

Lemma recv_message_witness :
  server_parse (bs "PONG x") = Some (Ok (mkServerMsg [] None (KCmd (bs "PONG")) (mkArgs [bs "x"] None))) /\
  exists r c' buf', recv false 8800 sample_chunks [] = Some (r, c', buf').
Proof.
  assert (Hp : server_parse (bs "PONG x") = Some (Ok (mkServerMsg [] None (KCmd (bs "PONG")) (mkArgs [bs "x"] None)))) by reflexivity.
  split; [exact Hp|].
  assert (Hs : stream sample_chunks = (bs "PONG x" ++ Codec.CRLF) ++ []) by (vm_compute; reflexivity).
  assert (Hl : length (bs "PONG x") + 2 <= Codec.SERVER_MAX_LEN) by (apply Nat.leb_le; vm_compute; reflexivity).
  assert (Hf : Codec.SERVER_MAX_LEN + interrupts sample_chunks < 8800) by (apply Nat.ltb_lt; vm_compute; reflexivity).
  destruct (recv_message false 8800 sample_chunks [] (bs "PONG x" ++ Codec.CRLF) (bs "PONG x") [] _ Hs eq_refl ltac:(discriminate)
    ltac:(by vm_compute) ltac:(discriminate) Hl Hp Hf) as (r & c' & buf' & K & _).
  exists r, c', buf'. exact K.
Defined.

Lemma recv_refines_witness :
  exists r c' buf', recv true 40 sample_chunks [] = Some (r, c', buf') /\ exists consumed, stream sample_chunks = consumed ++ stream c'.
Proof.
  destruct (recv true 40 sample_chunks []) as [[[r c'] buf']|] eqn:He; [|vm_compute in He; discriminate He].
  exists r, c', buf'. split; [reflexivity|].
  destruct (proj2 (recv_refines true 40 sample_chunks []) r c' buf' He) as (consumed & K & _). exists consumed. exact K.
Defined.

Lemma deadline_kept_witness :
  fill_buf (mkSync sample_chunks (Some 0%N)) = (Err (io_error TimedOut), mkSync sample_chunks (Some 0%N)).
Proof.
  assert (Hf : exists r s', fill_buf (mkSync sample_chunks (Some 0%N)) = (r, s')) by (do 2 eexists; reflexivity).
  destruct Hf as (r & s' & Hf). rewrite Hf.
  assert (Hn : now (conn (mkSync sample_chunks (Some 0%N))) = (0%N, sample_chunks)) by reflexivity.
  destruct (deadline_kept (mkSync sample_chunks (Some 0%N)) r s' 0 0 sample_chunks eq_refl Hn Hf) as [-> ->]. reflexivity.
Defined.

Definition one_handler : Handlers.Handlers nat := Handlers.mkHandlers [(0, 0)] [] [] false.


(** ** A timeout that stays *)

(** The rate limit makes the loop set a read timeout of two seconds; when the
    queue is empty and no read timeout is configured it is not taken back, and
    [run] reports a timeout although it should wait for as long as it takes. *)
Lemma stale_read_timeout :
  let cl := sample_client 6 one_handler (mkSim 0 None [(Queue.from_secs 9, "P"%byte, bs "ONG x" ++ Codec.CRLF)] []) in
  Time.read (timeout (logic cl)) = None /\
  exists cl', sample_run 40 9 cl = Done (Ok None, cl') /\ clk (io (cconn cl')) = Queue.from_secs 4.
Proof.
  intros cl. split; [reflexivity|].
  destruct (sample_run 40 9 cl) as [[[o|e] cl']| |] eqn:He; try (exfalso; vm_compute in He; discriminate He).
  exists cl'. vm_compute in He. injection He as <- <-. by split.
Qed.
