(* ===== verification/Tokio.v ===== *)
(** * The asynchronous client

    [src/client/conn/tokio.rs] and the second half of [src/client/conn/time.rs]:
    streams and the write limit as their [poll] functions, and the [run_tokio]
    loop with every [await] as one step.  What [tokio] does is a parameter with
    the behaviour it documents: reading up to a newline keeps what it read when
    it is cancelled, an await under a time limit ends by then, a sleep is not
    over before its time. *)

From stdpp Require Import relations.
From S2P Require Import Prelude Args Tags Numeric Source Strings Splitter Msg Utf8 Time Client Link ClientThms.
From S2P Require Handlers State Queue Codec.

(** ** Polling *)

Inductive Poll (T : Type) := Ready (v : T) | Pending.
Arguments Ready {T} v.
Arguments Pending {T}.

Definition poll_map {T U} (f : T -> U) (p : Poll T) : Poll U := match p with Ready v => Ready (f v) | Pending => Pending end.

(** [AsyncRead] into a buffer of a given size and [AsyncWrite]. *)
Class AsyncSocket (S : Type) := {
  sock_poll_read : nat -> S -> Poll (result (list byte) IoError) * S;
  sock_poll_write : list byte -> S -> Poll (result nat IoError) * S;
  sock_poll_flush : S -> Poll (result () IoError) * S;
  sock_poll_shutdown : S -> Poll (result () IoError) * S;
}.

(** ** [StreamTokio] *)

Inductive StreamInner (Tcp Tls : Type) := Closed | OnTcp (tcp : Tcp) | OnTls (tls : Tls).
Arguments Closed {Tcp Tls}.
Arguments OnTcp {Tcp Tls} tcp.
Arguments OnTls {Tcp Tls} tls.

Section Stream.
Context {Tcp Tls : Type} `{AsyncSocket Tcp} `{AsyncSocket Tls}.
#[local] Abbreviation StreamTokio := (StreamInner Tcp Tls).

Definition poll_read (n : nat) (s : StreamTokio) : Poll (result (list byte) IoError) * StreamTokio :=
  match s with
  | Closed => (Ready (Ok []), Closed)
  | OnTcp tcp => let (p, tcp) := sock_poll_read n tcp in (p, OnTcp tcp)
  | OnTls tls => let (p, tls) := sock_poll_read n tls in (p, OnTls tls)
  end.

Definition poll_write (buf : list byte) (s : StreamTokio) : Poll (result nat IoError) * StreamTokio :=
  match s with
  | Closed => (Ready (Ok 0), Closed)
  | OnTcp tcp => let (p, tcp) := sock_poll_write buf tcp in (p, OnTcp tcp)
  | OnTls tls => let (p, tls) := sock_poll_write buf tls in (p, OnTls tls)
  end.

Definition poll_flush (s : StreamTokio) : Poll (result () IoError) * StreamTokio :=
  match s with
  | Closed => (Ready (Ok ()), Closed)
  | OnTcp tcp => let (p, tcp) := sock_poll_flush tcp in (p, OnTcp tcp)
  | OnTls tls => let (p, tls) := sock_poll_flush tls in (p, OnTls tls)
  end.

Definition poll_shutdown (s : StreamTokio) : Poll (result () IoError) * StreamTokio :=
  match s with
  | Closed => (Ready (Ok ()), Closed)
  | OnTcp tcp => let (p, tcp) := sock_poll_shutdown tcp in (p, OnTcp tcp)
  | OnTls tls => let (p, tls) := sock_poll_shutdown tls in (p, OnTls tls)
  end.

Definition StreamTokio_Socket : AsyncSocket StreamTokio := {|
  sock_poll_read := poll_read;
  sock_poll_write := poll_write;
  sock_poll_flush := poll_flush;
  sock_poll_shutdown := poll_shutdown;
|}.
#[export] Existing Instance StreamTokio_Socket.
End Stream.

(** ** Connecting *)

(** [tokio]'s [TcpStream::connect], [ServerName::try_from] and
    [TlsConnector::connect], in a world [W].  The [BufReader] put around the
    stream is [tokio]'s too. *)
Section Connect.
Context {W Tcp Tls Name Cfg : Type} (tcp_connect : list byte -> N -> W -> result Tcp IoError * W)
  (server_name : list byte -> option Name) (tls_connect : Cfg -> Name -> Tcp -> W -> result Tls IoError * W).

Definition connect_tokio_no_tls (a : ServerAddr) (w : W) : result (StreamInner Tcp Tls) IoError * W :=
  if utf8_valid (address a) then
    match tcp_connect (address a) (port_num a) w with
    | (Err e, w) => (Err e, w)
    | (Ok sock, w) => (Ok (OnTcp sock), w)
    end
  else (Err (io_error InvalidInput), w).

Definition connect_tokio (a : ServerAddr) (tls_fn : W -> result Cfg IoError * W) (w : W)
    : result (StreamInner Tcp Tls) IoError * W :=
  if utf8_valid (address a) then
    if tls a then
      match server_name (address a) with
      | None => (Err (io_error InvalidInput), w)
      | Some name =>
          match tls_fn w with
          | (Err e, w) => (Err e, w)
          | (Ok config, w) =>
              match tcp_connect (address a) (port_num a) w with
              | (Err e, w) => (Err e, w)
              | (Ok sock, w) =>
                  match tls_connect config name sock w with
                  | (Err e, w) => (Err e, w)
                  | (Ok tls, w) => (Ok (OnTls tls), w)
                  end
              end
          end
      end
    else
      match tcp_connect (address a) (port_num a) w with
      | (Err e, w) => (Err e, w)
      | (Ok sock, w) => (Ok (OnTcp sock), w)
      end
  else (Err (io_error InvalidInput), w).
End Connect.

(** ** [TimeLimitedTokio] *)

(** [tokio::time::sleep], given by when it is over, and polling one. *)
Class Timer (C : Type) := {
  new_sleep : N -> C -> N * C;
  poll_sleep : N -> C -> bool * C;
}.

(** A buffered connection: [poll_fill_buf] and [consume] besides. *)
Class AsyncBuf (C : Type) := {
  buf_poll_fill : C -> Poll (result (list byte) IoError) * C;
  buf_consume : nat -> C -> C;
}.

Record TimeLimitedTokio (C : Type) := mkTokio { tconn : C; twrite : option N }.
Arguments mkTokio {C} tconn twrite.
Arguments tconn {C} _.
Arguments twrite {C} _.

Section Limited.
Context {C : Type} `{AsyncSocket C} `{AsyncBuf C} `{Timer C}.
#[local] Abbreviation Limited := (TimeLimitedTokio C).

Definition tokio_new (conn : C) (timeouts : TimeLimits) : Limited := mkTokio conn (Time.write timeouts).

(** The sleep is made anew at each call and dropped at its end. *)
Definition poll_write_timeout (s : Limited) : Poll IoError * Limited :=
  match twrite s with
  | Some timeout =>
      let (sleeper, c) := new_sleep timeout (tconn s) in
      let (is_ready, c) := poll_sleep sleeper c in
      (if is_ready then Ready (io_error TimedOut) else Pending, mkTokio c (twrite s))
  | None => (Pending, s)
  end.

Definition limited_poll_read (n : nat) (s : Limited) : Poll (result (list byte) IoError) * Limited :=
  let (p, c) := sock_poll_read n (tconn s) in (p, mkTokio c (twrite s)).
Definition limited_poll_fill_buf (s : Limited) : Poll (result (list byte) IoError) * Limited :=
  let (p, c) := buf_poll_fill (tconn s) in (p, mkTokio c (twrite s)).
Definition limited_consume (amt : nat) (s : Limited) : Limited := mkTokio (buf_consume amt (tconn s)) (twrite s).

Definition limited_poll_write (buf : list byte) (s : Limited) : Poll (result nat IoError) * Limited :=
  match sock_poll_write buf (tconn s) with
  | (Ready v, c) => (Ready v, mkTokio c (twrite s))
  | (Pending, c) => let (p, s) := poll_write_timeout (mkTokio c (twrite s)) in (poll_map Err p, s)
  end.

Definition limited_poll_flush (s : Limited) : Poll (result () IoError) * Limited :=
  match sock_poll_flush (tconn s) with
  | (Ready v, c) => (Ready v, mkTokio c (twrite s))
  | (Pending, c) => let (p, s) := poll_write_timeout (mkTokio c (twrite s)) in (poll_map Err p, s)
  end.

Definition limited_poll_shutdown (s : Limited) : Poll (result () IoError) * Limited :=
  let (p, c) := sock_poll_shutdown (tconn s) in (p, mkTokio c (twrite s)).
End Limited.

(** ** The write limit *)

(** A sleep is over only once its time has passed. *)
Class TimerOk (C : Type) `{Timer C} := {
  ctime : C -> N;
  new_sleep_ok d c t c' : new_sleep d c = (t, c') -> (ctime c + d <= t)%N /\ (ctime c <= ctime c')%N;
  poll_sleep_ok t c r c' : poll_sleep t c = (r, c') -> (ctime c <= ctime c')%N /\ (r = true -> (t <= ctime c')%N);
}.

Section WriteLimit.
Context {C : Type} `{AsyncSocket C} `{AsyncBuf C} `{TimerOk C}.
#[local] Abbreviation Limited := (TimeLimitedTokio C).

Lemma poll_write_timeout_spec (s s' : Limited) p :
  poll_write_timeout s = (p, s') ->
  twrite s' = twrite s /\
  (p = Pending \/ (p = Ready (io_error TimedOut) /\ exists d, twrite s = Some d /\ (ctime (tconn s) + d <= ctime (tconn s'))%N)).
Proof.
  unfold poll_write_timeout. destruct (twrite s) as [d|] eqn:Hd; [|intros [= <- <-]; split; [done|by left]].
  destruct (new_sleep d (tconn s)) as [t c] eqn:Hn. apply new_sleep_ok in Hn as [Ht Hc].
  destruct (poll_sleep t c) as [r c'] eqn:Hp. apply poll_sleep_ok in Hp as [Hc' Hr]. intros [= <- <-]. split; [done|].
  destruct r; [right|by left]. split; [done|]. exists d. split; [done|]. cbn. specialize (Hr eq_refl). lia.
Qed.

(** Polling a limited connection for a write gives what the connection gives,
    and is pending when that is; it times out only if a limit is set and the
    one call itself took that long, because every call waits anew. *)
Theorem limited_poll_write_correct buf (s s' : Limited) p :
  limited_poll_write buf s = (p, s') ->
  twrite s' = twrite s /\
  match sock_poll_write buf (tconn s) with
  | (Ready v, c) => p = Ready v /\ tconn s' = c
  | (Pending, c) => p = Pending \/
      (p = Ready (Err (io_error TimedOut)) /\ exists d, twrite s = Some d /\ (ctime c + d <= ctime (tconn s'))%N)
  end.
Proof.
  unfold limited_poll_write. destruct (sock_poll_write buf (tconn s)) as [[v|] c]; [by intros [= <- <-]|].
  destruct (poll_write_timeout (mkTokio c (twrite s))) as [q s1] eqn:Hq. apply poll_write_timeout_spec in Hq as [Ht Hq]. cbn in *.
  intros [= <- <-]. split; [done|]. destruct Hq as [->|[-> Hq]]; [by left|by right].
Qed.

(** An await polls, and parks its task until it is woken. *)
Context (park : C -> C).
Fixpoint await_write (fuel : nat) (buf : list byte) (s : Limited) : option (result nat IoError * Limited) :=
  match fuel with
  | 0 => None
  | S fuel =>
      match limited_poll_write buf s with
      | (Ready v, s) => Some (v, s)
      | (Pending, s) => await_write fuel buf (mkTokio (park (tconn s)) (twrite s))
      end
  end.

(** However long a peer that takes no data is waited for, the limit ends the
    wait only if a single call is slower than it. *)
Lemma write_limit_never_ends fuel buf (s : Limited) d :
  twrite s = Some d ->
  (forall c, exists c', sock_poll_write buf c = (Pending, c')) ->
  (forall c t c1 r c2, new_sleep d c = (t, c1) -> poll_sleep t c1 = (r, c2) -> (ctime c2 < ctime c + d)%N) ->
  await_write fuel buf s = None.
Proof.
  intros Hd Hstuck Hquick. revert s Hd. induction fuel as [|fuel IH]; intros s Hd; cbn; [done|].
  unfold limited_poll_write. destruct (Hstuck (tconn s)) as [c ->]. unfold poll_write_timeout. cbn [twrite tconn]. rewrite Hd.
  destruct (new_sleep d c) as [t c1] eqn:Hn. destruct (poll_sleep t c1) as [r c2] eqn:Hp.
  pose proof (Hquick _ _ _ _ _ Hn Hp) as Hq. apply new_sleep_ok in Hn as [Ht _]. apply poll_sleep_ok in Hp as [_ Hr].
  destruct r; [specialize (Hr eq_refl); lia|]. cbn. by apply IH.
Qed.
End WriteLimit.

(** ** Awaiting *)

(** [read_until(b'\n')] of a limited reader, awaited up to a deadline, with what
    is in the buffer then; [write_all] and [flush] under a write limit; and the
    deadline [tokio::time::timeout] sets, if the clock has one. *)
Class TokioIo (C : Type) := {
  read_until_by : option N -> nat -> C -> list byte -> result nat IoError * C * list byte;
  write_all_by : option N -> list byte -> C -> result () IoError * C;
  flush_by : option N -> C -> result () IoError * C;
  deadline_in : N -> C -> option N * C;
}.

Definition by_deadline {C} `{TokioIo C} (deadline : option N) : ReadUntil C := fun _ limit c buf =>
  Some (read_until_by deadline limit c buf).

Section TimedIo.
Context {C : Type} `{TokioIo C} {T : Type}.

(** The future is given by what it comes to by a deadline; [None] is out of
    fuel. *)
Definition timed_io (fut : option N -> C -> option (result T IoError * C * list byte)) (new_timeout old_timeout : option N)
    (c : C) : option (result (result T bool) IoError * C * list byte) :=
  let (timeout, allow_time_error) := timeout_fallback new_timeout old_timeout in
  let (deadline, c) := match timeout with Some dur => deadline_in dur c | None => (None, c) end in
  match fut deadline c with
  | None => None
  | Some (msg, c, buf) =>
      Some (match filter_time_error msg with
            | Ok (Some v) => Ok (Ok v)
            | Ok None => Ok (Err allow_time_error)
            | Err e => Err e
            end, c, buf)
  end.
End TimedIo.

(** ** [run_tokio] *)

Section Run.
Context {A : Type} `{Queue.Adjuster A} {Lb : Type} {B W : Type} {F : Type} {C : Type} {Sp : Type}
  `{TokioIo C} `{Clock C} (instant_max : N).
Abbreviation Queue := (Queue.Queue A Lb).
Abbreviation Logic := (ClientLogic A Lb B W).
Abbreviation Client := (Client A Lb B W F C Sp).
Context (call : B -> ServerMsg -> State.ClientState * W -> Queue -> option (Handlers.HandlerStatus * B * (State.ClientState * W) * Queue)).
Context (timeout_fn : F -> Logic -> Handlers.ControlFlow () * F * Logic).

Definition flush_partial_tokio (cl : Client) : Outcome (result (option N) IoError * Client) :=
  let q := lqueue (logic cl) in
  if Queue.is_empty q then Done (Ok None, cl)
  else
    match pop_loop instant_max (S (Queue.len q)) q (io (cconn cl)) (buf_o (cconn cl)) with
    | Done (timeout, q, c, buf_o) =>
        let limit := Time.write (Client.timeout (logic cl)) in
        let (r, c) := write_all_by limit buf_o c in
        let cl c := mkClient (mkIo c (buf_i (cconn cl)) []) (spec cl) (with_queue q (logic cl)) (on_timeout cl) in
        match r with
        | Err e => Done (Err e, cl c)
        | Ok _ =>
            match flush_by limit c with
            | (Err e, c) => Done (Err e, cl c)
            | (Ok _, c) => Done (Ok timeout, cl c)
            end
        end
    | Panic => Panic
    | OutOfFuel => OutOfFuel
    end.

(** [Client::run_tokio]; [rfuel] is the fuel of each read. *)
Fixpoint run_tokio (rfuel fuel : nat) (cl : Client) : Outcome (result (option (list nat * list nat)) IoError * Client) :=
  match fuel with
  | 0 => OutOfFuel
  | S fuel =>
      match flush_partial_tokio cl with
      | Panic => Panic
      | OutOfFuel => OutOfFuel
      | Done (Err e, cl) => Done (Err e, cl)
      | Done (Ok wait_for, cl) =>
          let m := cconn cl in
          if Handlers.is_empty (lhandlers (logic cl)) then
            match wait_for with
            | Some wait_for => run_tokio rfuel fuel (with_io (mkIo (sleep wait_for (io m)) (buf_i m) (buf_o m)) cl)
            | None => Done (Ok (Some ([], [])), cl)
            end
          else
            let fut deadline c := @recv C (by_deadline deadline) (Handlers.wants_owning (lhandlers (logic cl))) rfuel c (buf_i m) in
            match timed_io fut wait_for (read_timeout (Client.timeout (logic cl))) (io m) with
            | None => OutOfFuel
            | Some (msg_result, c, bufi) =>
                let cl := with_io (mkIo c bufi (buf_o m)) cl in
                match msg_result with
                | Err e => Done (Err e, cl)
                | Ok (Err again) => read_timed_out timeout_fn (run_tokio rfuel fuel) again cl
                | Ok (Ok msg) => received call (run_tokio rfuel fuel) flush_partial_tokio msg cl
                end
            end
      end
  end.
End Run.

(** ** What is relied on of [tokio] *)

(** Reading up to a newline is doing so byte by byte up to the end or an error,
    such as the deadline, with what was read before in the buffer; it times out
    only at a deadline, which is not before the time it was asked for; what is written and flushed without an error
    is sent; and neither reading nor waiting sends anything. *)
Class TokioOk (C : Type) `{TokioIo C} `{Clock C} := {
  tcoming : C -> list byte;
  ttime : C -> N;
  tsent : C -> list byte;
  read_until_by_ok deadline limit c buf r c' buf' : read_until_by deadline limit c buf = (r, c', buf') ->
    exists consumed, tcoming c = consumed ++ tcoming c' /\
    match r with
    | Err e => forall rest, Codec.read_until limit ((Some <$> consumed) ++ None :: rest) buf 0 = (Err (), rest, buf')
    | Ok n =>
        (forall rest, Codec.read_until limit ((Some <$> consumed) ++ rest) buf 0 = (Ok n, rest, buf')) \/
        (tcoming c' = [] /\ Codec.read_until limit (Some <$> consumed) buf 0 = (Ok n, [], buf') /\
         Forall (fun b => Byte.eqb b "010" = false) consumed /\ buf' = buf ++ consumed /\ n = 0 + length consumed)
    end;
  read_until_by_sent deadline limit c buf r c' buf' : read_until_by deadline limit c buf = (r, c', buf') -> tsent c' = tsent c;
  read_until_by_time deadline limit c buf r c' buf' : read_until_by deadline limit c buf = (r, c', buf') ->
    (ttime c <= ttime c')%N /\
    forall e, r = Err e -> time_error e -> exists t, deadline = Some t /\ (t <= ttime c')%N;
  deadline_in_ok d c t c' : deadline_in d c = (t, c') -> tcoming c' = tcoming c /\ tsent c' = tsent c /\ (ttime c <= ttime c')%N /\
    forall t', t = Some t' -> (ttime c + d <= t')%N;
  tnow_ok c t c' : now c = (t, c') -> (ttime c <= t <= ttime c')%N /\ tsent c' = tsent c /\ tcoming c' = tcoming c;
  tsleep_ok d c : (ttime c + d <= ttime (sleep d c))%N /\ tsent (sleep d c) = tsent c /\ tcoming (sleep d c) = tcoming c;
  write_all_by_ok limit l c c' : write_all_by limit l c = (Ok (), c') ->
    (ttime c <= ttime c')%N /\ tsent c' = tsent c ++ l /\ tcoming c' = tcoming c;
  flush_by_ok limit c c' : flush_by limit c = (Ok (), c') ->
    (ttime c <= ttime c')%N /\ tsent c' = tsent c /\ tcoming c' = tcoming c;
}.

Section Interfaces.
Context {C : Type} `{TokioOk C}.

(** Under any deadline a message is read byte by byte, and under any write limit
    sending keeps what the flush relies on. *)
#[export] Program Instance tokio_until_ok deadline : @ReadUntilOk C (by_deadline deadline) := {|
  coming := tcoming;
  delays _ := 0;
|}.
Next Obligation. intros deadline fuel limit c buf r c' buf' [= Hr]. by eapply read_until_by_ok. Qed.
Next Obligation. intros deadline fuel limit c buf _. by eexists. Qed.

Definition tokio_write (limit : option N) : Write C := {| write_all := write_all_by limit; flush := flush_by limit |}.

#[export] Program Instance tokio_link deadline limit : @LinkOk C (by_deadline deadline) _ (tokio_write limit) _ := {|
  time := ttime;
  sent := tsent;
|}.
Next Obligation. intros deadline limit c t c' Hn. apply tnow_ok in Hn as ([? ?] & Hs & Hc). split_and!; done || lia. Qed.
Next Obligation. intros deadline limit d c. apply tsleep_ok. Qed.
Next Obligation. intros deadline limit l c c'. apply write_all_by_ok. Qed.
Next Obligation. intros deadline limit c c'. apply flush_by_ok. Qed.
Next Obligation. intros deadline limit fuel n c buf r c' buf' [= Hr]. by eapply read_until_by_sent. Qed.

#[export] Program Instance tokio_timed deadline limit : @TimedLink C (by_deadline deadline) _ (tokio_write limit) _ (tokio_link deadline limit) := {|
  armed _ := None;
|}.
Solve All Obligations with done.
End Interfaces.

(** ** The loop *)

Section Theorems.
Context {A : Type} `{Queue.Adjuster A} {Lb : Type} {B W : Type} {F : Type} {C : Type} {Sp : Type}
  `{TokioOk C} (instant_max : N).
Abbreviation Queue := (Queue.Queue A Lb).
Abbreviation Logic := (ClientLogic A Lb B W).
Abbreviation Client := (Client A Lb B W F C Sp).
Context (call : B -> ServerMsg -> State.ClientState * W -> Queue -> option (Handlers.HandlerStatus * B * (State.ClientState * W) * Queue)).
Context (timeout_fn : F -> Logic -> Handlers.ControlFlow () * F * Logic).
#[local] Abbreviation run_tokio := (run_tokio instant_max call timeout_fn).
#[local] Instance until : ReadUntil C := by_deadline None.
#[local] Instance until_ok : ReadUntilOk C := tokio_until_ok None.
#[local] Instance write_unlimited : Write C := tokio_write None.
#[local] Instance link : LinkOk C := tokio_link None None.
#[local] Instance timed : TimedLink C := tokio_timed None None.

(** Flushing is that of the synchronous client with the write limit in place. *)
Lemma flush_tokio_same (cl : Client) :
  flush_partial_tokio instant_max cl =
    flush_partial (H1 := tokio_write (Time.write (Client.timeout (logic cl)))) instant_max cl.
Proof. done. Qed.

(** The errors the connection reports. *)
Definition treports (e : IoError) : Prop := exists c c' : C,
  (exists limit l, write_all_by limit l c = (Err e, c')) \/ (exists limit, flush_by limit c = (Err e, c')) \/
  (exists deadline limit buf buf', read_until_by deadline limit c buf = (Err e, c', buf')).

Lemma flush_tokio_flushes :
  flushes (A := A) (Lb := Lb) (B := B) (W := W) (F := F) (C := C) (Sp := Sp) instant_max treports (flush_partial_tokio instant_max).
Proof.
  intros cl Hb. rewrite flush_tokio_same. set (limit := Time.write _).
  apply (flush_flushes (H5 := tokio_timed None limit) instant_max treports); [| |exact Hb].
  - intros l c e c' K. exists c, c'. left. by exists limit, l.
  - intros c e c' K. exists c, c'. right. left. by exists limit.
Qed.

(** What is known of a read with a deadline. *)
Definition by_then (deadline : option N) (e : IoError) (c : C) : Prop :=
  (time_error e -> exists t, deadline = Some t /\ (t <= ttime c)%N) /\ treports e.
Definition no_sooner (c c' : C) : Prop := (ttime c <= ttime c')%N /\ tsent c' = tsent c.

#[local] Instance no_sooner_preorder : PreOrder no_sooner.
Proof. split; [by split|]. intros x y z [K1 K2] [K3 K4]. split; [lia|congruence]. Qed.

Lemma recv_by owning rfuel deadline (c c' : C) buf r bufi :
  @recv C (by_deadline deadline) owning rfuel c buf = Some (r, c', bufi) ->
  no_sooner c c' /\ recv_as (H0 := tokio_until_ok deadline) (by_then deadline) (fun read => Codec.client_codec_read owning rfuel read buf) c r c' bufi.
Proof.
  apply (recv_spec_steps (H0 := tokio_until_ok deadline) no_sooner (by_then deadline) c); [|done].
  intros fuel limit c1 buf1 r1 c2 buf2 _ [= K]. destruct (read_until_by_time _ _ _ _ _ _ _ K) as [K1 K2].
  split; [split; [done|by eapply read_until_by_sent]|]. intros e ->. split; [by apply K2|]. exists c1, c2. eauto 10.
Qed.

(** One limited read of the loop is one of the abstract client. *)
Lemma timed_io_reads (cl : Client) rfuel w r (c : C) bufi :
  timed_io (fun deadline c => @recv C (by_deadline deadline) (Handlers.wants_owning (lhandlers (logic cl))) rfuel c (buf_i (cconn cl)))
    w (read_timeout (Client.timeout (logic cl))) (io (cconn cl)) = Some (r, c, bufi) ->
  let cl2 := with_io (mkIo c bufi (buf_o (cconn cl))) cl in
  reads instant_max treports w (abs cl) (match r with Ok (Ok m) => Ok (Some m) | Ok (Err _) => Ok None | Err e => Err e end) (abs cl2) /\
  forall again, r = Ok (Err again) -> again = (limit_of w (abs cl)).2.
Proof.
  intros Hio cl2. unfold timed_io in Hio. destruct (timeout_fallback w _) as [lim con] eqn:Hlim.
  assert (Hd : forall d c1, (match lim with Some dur => deadline_in dur (io (cconn cl)) | None => (None, io (cconn cl)) end) = (d, c1) ->
    tcoming c1 = tcoming (io (cconn cl)) /\ tsent c1 = tsent (io (cconn cl)) /\ (ttime (io (cconn cl)) <= ttime c1)%N /\
    forall t, d = Some t -> exists dur, lim = Some dur /\ (ttime (io (cconn cl)) + dur <= t)%N).
  { intros d c1. destruct lim as [dur|]; [intros (K1 & K2 & K3 & K4)%deadline_in_ok|intros [= <- <-]]; [|by split_and!; try lia].
    split_and!; [done..|]. intros t Ht. exists dur. split; [done|by apply K4]. }
  destruct (match lim with Some _ => _ | None => _ end) as [d c1]. specialize (Hd d c1 eq_refl) as (Hc1 & Ho1 & Ht1 & Hd).
  destruct (@recv C (by_deadline d) _ rfuel c1 _) as [[[msg c2] b]|] eqn:Hr; [|done]. injection Hio as <- -> ->.
  apply recv_by in Hr as [[Ht2 Ho2] (consumed & Hc & Hr)]. cbn [coming tokio_until_ok] in Hc, Hr. rewrite Hc1 in Hc, Hr.
  assert (Hl : limit_of w (abs cl) = (lim, con)) by done. rewrite Hl.
  split. 2: { intros again. destruct (filter_time_error msg) as [[m|]|e]; by intros [=]. }
  split; [unfold abs; cbn [written cl2 with_io cconn io]; change (sent ?x) with (tsent x); congruence|]. split; [done|].
  split; [unfold abs; cbn [clock cl2 with_io cconn io]; change (time ?x) with (ttime x); lia|].
  split; [by left|]. split; [done|]. exists consumed, rfuel. split; [exact Hc|]. cbv zeta. destruct msg as [m|e].
  { cbn [filter_time_error]. destruct Hr as [[Hr _]|(e & [=] & _)]. exact Hr. }
  destruct (filter_err (T := ServerMsg) e) as [[Hk ->]|[Hk ->]].
  - destruct Hr as [[_ [Hk2|Hk2]]|(e' & [= <-] & [Hp _] & Hr)]; [destruct Hk; congruence..|]. split; [|exact Hr].
    destruct (Hp Hk) as (t & -> & Hlate). destruct (Hd t eq_refl) as (dur & -> & Hdur). exists dur. rewrite Hl. split; [|by left].
    unfold abs. cbn [clock cl2 with_io cconn io]. change (time ?x) with (ttime x). lia.
  - split; [done|]. destruct Hr as [[Hr Ho]|(e' & [= <-] & [_ Hp] & Hr)]; [left; by split|right; by split].
Qed.

(** C2: The asynchronous loop comes to what the same abstract client comes to:
    [run_tokio] sends, reads, handles, times out and fails as the synchronous
    loop does, and a read that is cancelled at its deadline loses nothing.  It
    reports a timeout only when nothing is left to send, there is no timeout
    function, and the read timeout has passed while it waited. *)
Theorem run_tokio_refines rfuel fuel (cl : Client) :
  buf_o (cconn cl) = [] -> came_to instant_max call timeout_fn treports (abs cl) (run_tokio rfuel fuel cl).
Proof.
  revert cl. induction fuel as [|fuel IH]; intros cl Hb; cbn [Tokio.run_tokio]; [done|].
  pose proof (flush_tokio_flushes cl Hb) as Hf. destruct (flush_partial_tokio instant_max cl) as [[[w|e] cl1]| |]; [| |by apply runs_overrun|done].
  2: { destruct Hf as [Hb1 Hf]. split; [by apply runs_send_error|done]. }
  destruct Hf as [Hb1 Hf]. destruct (Handlers.is_empty (lhandlers (logic cl1))) eqn:Hempty.
  { destruct w as [d|]; [|split; [by apply runs_nothing|done]]. destruct (tsleep_ok d (io (cconn cl1))) as (Hts & Hso & Hst).
    set (cl2 := with_io _ cl1). pose proof (IH cl2 Hb1) as K.
    assert (E : abs cl2 = mkAbs (ahead (abs cl1)) (written (abs cl1)) (partial (abs cl1)) (alogic (abs cl1)) (afn (abs cl1)) (time (io (cconn cl2))) (arm (abs cl1))).
    { unfold abs. cbn [cl2 with_io cconn io buf_i logic on_timeout ahead written partial alogic afn arm].
      change (coming ?c) with (tcoming c). change (sent ?c) with (tsent c). by rewrite Hst, Hso. }
    destruct (run_tokio rfuel fuel cl2) as [[r cl']| |]; cbn [came_to] in *; [destruct K as [K ?]; split; [|done]| |done]; rewrite E in K; by eapply runs_sleep. }
  cbv zeta. destruct (timed_io _ _ _ _) as [[[mr c] bufi]|] eqn:Ht; [|done].
  destruct (timed_io_reads cl1 rfuel w mr c bufi Ht) as [Hread Hcon]. set (cl2 := with_io _ _) in *.
  destruct mr as [[m|again]|e].
  - by eapply received_runs; [apply flush_tokio_flushes|..].
  - by eapply timed_out_runs; [..|rewrite (Hcon again eq_refl)].
  - split; [|done]. by eapply runs_read_error.
Qed.

Lemma flush_tokio_settings (cl cl' : Client) r :
  flush_partial_tokio instant_max cl = Done (r, cl') ->
  Client.timeout (logic cl') = Client.timeout (logic cl) /\ on_timeout cl' = on_timeout cl.
Proof.
  unfold flush_partial_tokio. destruct (Queue.is_empty _); [by intros [= <- <-]|].
  destruct (pop_loop _ _ _ _ _) as [[[[t q'] c1] bo]| |]; [|done..]. destruct (write_all_by _ bo c1) as [[u|e] c2]; [|by intros [= <- <-]].
  by destruct (flush_by _ c2) as [[u'|e] c3]; intros [= <- <-].
Qed.

(** Without a read limit [run_tokio] never reports a timeout and never runs
    the timeout function: waiting for the queue is not mistaken for it. *)
Theorem run_tokio_no_timeout rfuel fuel (cl : Client) r cl' :
  Time.read (Client.timeout (logic cl)) = None ->
  run_tokio rfuel fuel cl = Done (r, cl') ->
  r <> Ok None /\ on_timeout cl' = on_timeout cl /\ Time.read (Client.timeout (logic cl')) = None.
Proof.
  revert cl. induction fuel as [|fuel IH]; intros cl Hr; cbn [Tokio.run_tokio]; [done|].
  destruct (flush_partial_tokio instant_max cl) as [[[w|e] cl1]| |] eqn:Hf; [| |done..];
    apply flush_tokio_settings in Hf as [Ht Ho]; rewrite <- Ht in Hr; rewrite <- Ho; [|by intros [= <- <-]].
  destruct (Handlers.is_empty (lhandlers (logic cl1))).
  { destruct w as [d|]; [|by intros [= <- <-]]. by intros K%IH. }
  cbv zeta. destruct (timed_io _ _ _ _) as [[[mr c] bufi]|] eqn:Hio; [|done]. apply timed_io_reads in Hio as [Hio Hcon].
  destruct mr as [[m|again]|e]; [| |by intros [= <- <-]].
  - unfold received. destruct (run_once call m _) as [[n l']|] eqn:Hl; [|done].
    assert (Hl' : Client.timeout l' = Client.timeout (logic cl1)).
    { unfold run_once in Hl. destruct (Handlers.handle _ _ _ _ _) as [[n1 [[hs [st w1]] q]]|]; [|done]. by injection Hl as _ <-. }
    cbv zeta. destruct (Handlers.has_results (lhandlers l') n).
    + destruct (flush_partial_tokio instant_max _) as [[[w'|e] cl2]| |] eqn:Hf; [| |done..];
        apply flush_tokio_settings in Hf as [Ht2 Ho2]; cbn [logic on_timeout with_io] in Ht2, Ho2.
      * destruct (Handlers.last_run_results _ n); [|done]. intros [= <- <-]. by rewrite Ht2, Hl', Ho2.
      * intros [= <- <-]. by rewrite Ht2, Hl', Ho2.
    + intros K%IH; cbn [logic on_timeout with_io] in *; [exact K|by rewrite Hl'].
  - destruct again; [cbn [read_timed_out]; by intros K%IH|exfalso]. specialize (Hcon false eq_refl). unfold limit_of in *.
    cbn [alogic abs] in *. destruct Hio as (_ & _ & _ & _ & _ & consumed & fu & _ & (d & _ & Hlim) & _). unfold limit_of in Hlim.
    cbn [alogic abs] in Hlim. destruct w as [d'|]; [done|]. rewrite Hr in Hlim. by destruct Hlim as [|[? _]].
Qed.
End Theorems.

(** ** A simulated connection *)

(** Bytes that arrive at given times, and what was sent. *)
Record TokioSim := mkTokioSim { tclk : N; tin : list (N * byte); tout : list byte }.

Fixpoint sim_read (deadline : option N) (limit : nat) (clk : N) (l : list (N * byte)) (buf : list byte) (count : nat)
    : result nat IoError * N * list (N * byte) * list byte :=
  match limit, l with
  | 0, _ => (Ok count, clk, l, buf)
  | S _, [] => (Ok count, clk, l, buf)
  | S limit, (t, b) :: l' =>
      if match deadline with Some d => (d <? t)%N | None => false end then (Err (io_error TimedOut), N.max clk (default 0 deadline)%N, l, buf)
      else if Byte.eqb b "010" then (Ok (count + 1), N.max clk t, l', buf ++ [b])
      else sim_read deadline limit (N.max clk t) l' (buf ++ [b]) (count + 1)
  end.

#[export] Instance TokioSim_Io : TokioIo TokioSim := {|
  read_until_by deadline limit c buf :=
    let '(r, clk, l, buf) := sim_read deadline limit (tclk c) (tin c) buf 0 in (r, mkTokioSim clk l (tout c), buf);
  write_all_by _ l c := (Ok (), mkTokioSim (tclk c) (tin c) (tout c ++ l));
  flush_by _ c := (Ok (), c);
  deadline_in d c := (Some (tclk c + d)%N, c);
|}.
#[export] Instance TokioSim_Clock : Clock TokioSim := {|
  now c := (tclk c, c);
  sleep d c := mkTokioSim (tclk c + d) (tin c) (tout c);
|}.

Lemma sim_read_spec deadline limit clk l buf count r clk' l' buf' :
  sim_read deadline limit clk l buf count = (r, clk', l', buf') ->
  ((clk <= clk')%N /\ forall e, r = Err e -> exists d, deadline = Some d /\ (d <= clk')%N) /\
  exists consumed, l.*2 = consumed ++ l'.*2 /\
  match r with
  | Err e => forall rest, Codec.read_until limit ((Some <$> consumed) ++ None :: rest) buf count = (Err (), rest, buf')
  | Ok n =>
      (forall rest, Codec.read_until limit ((Some <$> consumed) ++ rest) buf count = (Ok n, rest, buf')) \/
      (l'.*2 = [] /\ Codec.read_until limit (Some <$> consumed) buf count = (Ok n, [], buf') /\
       Forall (fun b => Byte.eqb b "010" = false) consumed /\ buf' = buf ++ consumed /\ n = count + length consumed)
  end.
Proof.
  revert clk l buf count. induction limit as [|limit IH]; intros clk l buf count; cbn [sim_read].
  { intros [= <- <- <- <-]. split; [done|]. exists []. split; [done|]. by left. }
  destruct l as [|[t b] l]; [intros [= <- <- <- <-]; split; [done|]; exists []; (split; [done|]); right; rewrite app_nil_r, Nat.add_0_r; by split_and!|].
  destruct (match deadline with Some d => (d <? t)%N | None => false end) eqn:Hd.
  { intros [= <- <- <- <-]. split; [|exists []; by split]. destruct deadline as [d|]; [|done]. cbn [default]. split; [lia|]. intros e _. exists d. split; [done|]. cbn. lia. }
  destruct (Byte.eqb b "010") eqn:Hb.
  { intros [= <- <- <- <-]. split; [split; [lia|done]|]. exists [b]. split; [done|]. left. intros rest. cbn. by rewrite Hb. }
  intros K. apply IH in K as ([Hclk He] & consumed & Hl & K). split; [split; [lia|done]|]. exists (b :: consumed). split; [cbn; by rewrite Hl|].
  destruct r as [n|e]; [destruct K as [K|(K1 & K2 & K3 & K4 & K5)]; [left|right]|].
  - intros rest. cbn. rewrite Hb. apply K.
  - cbn. rewrite Hb. split; [done|]. split; [done|]. split; [by constructor|]. split; [by rewrite K4, <- app_assoc|]. rewrite K5. lia.
  - intros rest. cbn. rewrite Hb. apply K.
Qed.

#[export] Program Instance TokioSim_Ok : TokioOk TokioSim := {| tcoming c := (tin c).*2; ttime := tclk; tsent := tout |}.
Next Obligation.
  intros deadline limit c buf r c' buf'. cbn. destruct (sim_read _ _ _ _ _ _) as [[[r1 clk] l] b] eqn:Hr. intros [= <- <- <-].
  by apply sim_read_spec in Hr as [_ K].
Qed.
Next Obligation.
  intros deadline limit c buf r c' buf'. cbn. destruct (sim_read _ _ _ _ _ _) as [[[r1 clk] l] b] eqn:Hr. by intros [= <- <- <-].
Qed.
Next Obligation.
  intros deadline limit c buf r c' buf'. cbn. destruct (sim_read _ _ _ _ _ _) as [[[r1 clk] l] b] eqn:Hr. intros [= -> <- <-].
  apply sim_read_spec in Hr as [[K1 K2] _]. split; [done|]. intros e He _. by apply (K2 e).
Qed.
Next Obligation. intros d c t c' [= <- <-]. split_and!; [done..|]. intros t' [= <-]. done. Qed.
Next Obligation. intros c t c' [= <- <-]. split_and!; done || lia. Qed.
Next Obligation. intros d c. cbn. split_and!; done || lia. Qed.
Next Obligation. intros limit l c c' [= <-]. cbn. split_and!; done || lia. Qed.
Next Obligation. intros limit c c' [= <-]. split_and!; done || lia. Qed.

#[local] Existing Instance ClientThms.no_adjuster.

(** Six messages to send, four of them at once, and a line that comes after nine
    seconds. *)
Definition tokio_sample : Client () N nat () () TokioSim () :=
  new_with_logic (mkTokioSim 0 ((fun b => (Queue.from_secs 9, b)) <$> (bs "PONG x" ++ Codec.CRLF)) []) ()
    (with_handlers one_handler (with_queue (sample_queue 6) (logic_new 0 ()))).
Abbreviation tokio_run := (Tokio.run_tokio sample_max count_call never_called).

Lemma run_tokio_refines_witness :
  exists cl', tokio_run 40 9 tokio_sample = Done (Ok (Some ([0], [])), cl') /\ buf_o (cconn cl') = [].
Proof.
  pose proof (run_tokio_refines sample_max count_call never_called 40 9 tokio_sample eq_refl) as Hr.
  destruct (tokio_run 40 9 tokio_sample) as [[[[[fins ys]|]|e] cl']| |] eqn:He; try (exfalso; vm_compute in He; discriminate He).
  assert (K : (fins, ys) = ([0], [])) by (vm_compute in He; injection He as <- <- _; reflexivity).
  injection K as -> ->. exists cl'. split; [reflexivity|]. exact (proj2 Hr).
Defined.

Lemma run_tokio_no_timeout_witness :
  exists r cl', tokio_run 40 9 tokio_sample = Done (r, cl') /\ r <> Ok None.
Proof.
  destruct (tokio_run 40 9 tokio_sample) as [[r cl']| |] eqn:He; try (exfalso; vm_compute in He; discriminate He).
  exists r, cl'. split; [reflexivity|].
  exact (proj1 (run_tokio_no_timeout sample_max count_call never_called 40 9 tokio_sample r cl' eq_refl He)).
Defined.

(** ** A peer that takes nothing *)

(** The clock is all there is; every call takes a millisecond, and ten seconds
    pass while the task is parked. *)
Definition stuck_socket : AsyncSocket N := {|
  sock_poll_read _ c := (Pending, c);
  sock_poll_write _ c := (Pending, c);
  sock_poll_flush c := (Pending, c);
  sock_poll_shutdown c := (Pending, c);
|}.
Definition stuck_buf : AsyncBuf N := {| buf_poll_fill c := (Pending, c); buf_consume _ c := c |}.
Definition stuck_timer : Timer N := {|
  new_sleep d c := ((c + d)%N, c);
  poll_sleep t c := let c := (c + 1000000)%N in ((t <=? c)%N, c);
|}.
#[local] Existing Instances stuck_socket stuck_buf stuck_timer.
#[local] Program Instance stuck_timer_ok : TimerOk N := {| ctime c := c |}.
Next Obligation. intros d c t c' [= <- <-]. split; lia. Qed.
Next Obligation. intros t c r c' [= <- <-]. split; [lia|]. by intros Ht%N.leb_le. Qed.

Lemma limited_poll_write_correct_witness :
  exists p s', limited_poll_write [] (mkTokio 0%N (Some (Queue.from_secs 1))) = (p, s') /\ p = Pending.
Proof.
  destruct (limited_poll_write [] (mkTokio 0%N (Some (Queue.from_secs 1)))) as [p s'] eqn:Hp. exists p, s'. split; [reflexivity|].
  destruct (proj2 (limited_poll_write_correct [] (mkTokio 0%N (Some (Queue.from_secs 1))) s' p Hp)) as [K|(_ & d & Hd & K)]; [exact K|exfalso].
  vm_compute in Hp. injection Hp as <- <-. injection Hd as <-. vm_compute in K. by apply K.
Defined.

(** A thousand times ten seconds do not end a write limited to one second. *)
Lemma write_limit_never_elapses :
  await_write (fun c => c + Queue.from_secs 10)%N 1000 (bs "PING") (mkTokio 0%N (Some (Queue.from_secs 1))) = None.
Proof.
  apply (write_limit_never_ends _ _ _ _ (Queue.from_secs 1)); [done|intros c; by eexists|].
  intros c t c1 r c2 [= <- <-] [= <- <-]. change (c + 1000000 < c + 1000000000)%N. lia.
Qed.
