(* ===== verification/Stream.v ===== *)
(** * Streams over sockets

    [src/client/conn/sync.rs]: the stream a client connects with, which is
    closed, a socket or TLS over a socket, the [BufReader] it is read through,
    and how it is connected.  Sockets and TLS are the system's and [rustls]'s: a
    handle and a world, with their operations and what those promise as
    classes.  What is shown is that a buffered stream is a connection the run
    loop can rely on. *)

From S2P Require Import Prelude Strings Utf8 Time Client Link ClientThms.

(** ** What a socket can do *)

(** [Read] into buffers of given sizes and [Write], which takes some of what it
    is given. *)
Class Socket (W S : Type) := {
  sread : nat -> S -> W -> result (list byte) IoError * S * W;
  sread_vectored : list nat -> S -> W -> result (list byte) IoError * S * W;
  swrite : list byte -> S -> W -> result nat IoError * S * W;
  sflush : S -> W -> result () IoError * S * W;
}.

(** [ReadTimeout] and [WriteTimeout] of a handle. *)
Class SocketTimeouts (W S : Type) := {
  set_rto : option N -> S -> W -> result () IoError * W;
  set_wto : option N -> S -> W -> result () IoError * W;
}.

Inductive Shutdown := ShutRead | ShutWrite | ShutBoth.

(** What only a [TcpStream] can do. *)
Class TcpOps (W S : Type) := {
  tcp_shutdown : Shutdown -> S -> W -> result () IoError * W;
  tcp_read_timeout : S -> W -> result (option N) IoError * W;
  tcp_write_timeout : S -> W -> result (option N) IoError * W;
}.

(** [rustls::StreamOwned]. *)
Record StreamOwned (Conn Tcp : Type) := mkStreamOwned { tls_conn : Conn; sock : Tcp }.
Arguments mkStreamOwned {Conn Tcp} tls_conn sock.
Arguments tls_conn {Conn Tcp} _.
Arguments sock {Conn Tcp} _.

Definition StreamOwned_Timeouts {W Conn Tcp} `{SocketTimeouts W Tcp} : SocketTimeouts W (StreamOwned Conn Tcp) := {|
  set_rto t s := set_rto t (sock s);
  set_wto t s := set_wto t (sock s);
|}.
#[export] Existing Instance StreamOwned_Timeouts.

(** ** [Stream] *)

Inductive StreamInner (Tcp Tls : Type) := Closed | OnTcp (s : Tcp) | OnTls (s : Tls).
Arguments Closed {Tcp Tls}.
Arguments OnTcp {Tcp Tls} s.
Arguments OnTls {Tcp Tls} s.

Section Stream.
Context {W Tcp Conn : Type} `{Socket W Tcp} `{SocketTimeouts W Tcp} `{TcpOps W Tcp} `{Socket W (StreamOwned Conn Tcp)}.
#[local] Abbreviation Stream := (StreamInner Tcp (StreamOwned Conn Tcp)).

Definition shutdown (how : Shutdown) (s : Stream) (w : W) : result () IoError * W :=
  match s with
  | Closed => (Ok (), w)
  | OnTcp s => tcp_shutdown how s w
  | OnTls s => tcp_shutdown how (sock s) w
  end.

Definition stream_set_read_timeout (timeout : option N) (s : Stream) (w : W) : result () IoError * W :=
  match s with
  | Closed => (Ok (), w)
  | OnTcp s => set_rto timeout s w
  | OnTls s => set_rto timeout (sock s) w
  end.

Definition stream_set_write_timeout (timeout : option N) (s : Stream) (w : W) : result () IoError * W :=
  match s with
  | Closed => (Ok (), w)
  | OnTcp s => set_wto timeout s w
  | OnTls s => set_wto timeout (sock s) w
  end.

Definition stream_read_timeout (s : Stream) (w : W) : result (option N) IoError * W :=
  match s with
  | Closed => (Ok None, w)
  | OnTcp s => tcp_read_timeout s w
  | OnTls s => tcp_read_timeout (sock s) w
  end.

Definition stream_write_timeout (s : Stream) (w : W) : result (option N) IoError * W :=
  match s with
  | Closed => (Ok None, w)
  | OnTcp s => tcp_write_timeout s w
  | OnTls s => tcp_write_timeout (sock s) w
  end.

Definition stream_read (n : nat) (s : Stream) (w : W) : result (list byte) IoError * Stream * W :=
  match s with
  | Closed => (Ok [], Closed, w)
  | OnTcp s => let '(r, s, w) := sread n s w in (r, OnTcp s, w)
  | OnTls s => let '(r, s, w) := sread n s w in (r, OnTls s, w)
  end.

Definition stream_read_vectored (bufs : list nat) (s : Stream) (w : W) : result (list byte) IoError * Stream * W :=
  match s with
  | Closed => (Ok [], Closed, w)
  | OnTcp s => let '(r, s, w) := sread_vectored bufs s w in (r, OnTcp s, w)
  | OnTls s => let '(r, s, w) := sread_vectored bufs s w in (r, OnTls s, w)
  end.

Definition stream_write (buf : list byte) (s : Stream) (w : W) : result nat IoError * Stream * W :=
  match s with
  | Closed => (Ok 0, Closed, w)
  | OnTcp s => let '(r, s, w) := swrite buf s w in (r, OnTcp s, w)
  | OnTls s => let '(r, s, w) := swrite buf s w in (r, OnTls s, w)
  end.

Definition stream_flush (s : Stream) (w : W) : result () IoError * Stream * W :=
  match s with
  | Closed => (Ok (), Closed, w)
  | OnTcp s => let '(r, s, w) := sflush s w in (r, OnTcp s, w)
  | OnTls s => let '(r, s, w) := sflush s w in (r, OnTls s, w)
  end.

Definition Stream_Socket : Socket W Stream := {|
  sread := stream_read;
  sread_vectored := stream_read_vectored;
  swrite := stream_write;
  sflush := stream_flush;
|}.
#[export] Existing Instance Stream_Socket.

Definition Stream_Timeouts : SocketTimeouts W Stream := {|
  set_rto := stream_set_read_timeout;
  set_wto := stream_set_write_timeout;
|}.
#[export] Existing Instance Stream_Timeouts.
End Stream.

(** ** [BufReader] *)

(** The capacity, for a byte at least, what is buffered and not consumed, and
    the inner reader. *)
Record BufReader (S : Type) := mkBufReader { capacity : positive; buffered : list byte; inner : S }.
Arguments mkBufReader {S} capacity buffered inner.
Arguments capacity {S} _.
Arguments buffered {S} _.
Arguments inner {S} _.

(** A handle and the world it is used in. *)
Record On (W S : Type) := mkOn { obj : S; world : W }.
Arguments mkOn {W S} obj world.
Arguments obj {W S} _.
Arguments world {W S} _.

(** How often writing can still be interrupted: only a bound for fuel. *)
Class Patience (W : Type) := write_interrupts : W -> nat.

Section BufReader.
Context {W S : Type} `{Socket W S} `{SocketTimeouts W S} `{Clock W} `{Patience W}.
#[local] Abbreviation Conn := (On W (BufReader S)).

(** Only an empty buffer is filled, and an error leaves it empty. *)
Definition buf_fill (c : Conn) : result (list byte) IoError * Conn :=
  let b := obj c in
  match buffered b with
  | [] =>
      match sread (Pos.to_nat (capacity b)) (inner b) (world c) with
      | (Ok l, s, w) => (Ok l, mkOn (mkBufReader (capacity b) l s) w)
      | (Err e, s, w) => (Err e, mkOn (mkBufReader (capacity b) [] s) w)
      end
  | l => (Ok l, c)
  end.

Definition buf_consume (amt : nat) (c : Conn) : Conn :=
  let b := obj c in mkOn (mkBufReader (capacity b) (drop amt (buffered b)) (inner b)) (world c).

Definition BufReader_BufRead : BufRead Conn := {| fill_buf := buf_fill; consume := buf_consume |}.
#[export] Existing Instance BufReader_BufRead.

(** [Write::write_all]; [None] is out of fuel. *)
Fixpoint write_all_loop (fuel : nat) (buf : list byte) (s : S) (w : W) : option (result () IoError * S * W) :=
  match buf with
  | [] => Some (Ok (), s, w)
  | _ =>
      match fuel with
      | 0 => None
      | Datatypes.S fuel =>
          match swrite buf s w with
          | (Ok 0, s, w) => Some (Err (io_error WriteZero), s, w)
          | (Ok n, s, w) => write_all_loop fuel (drop n buf) s w
          | (Err e, s, w) =>
              if bool_decide (kind e = Interrupted) then write_all_loop fuel buf s w else Some (Err e, s, w)
          end
      end
  end.

(** Every turn of the loop takes a byte or an interruption. *)
Definition write_all_to (buf : list byte) (s : S) (w : W) : result () IoError * S * W :=
  match write_all_loop (length buf + write_interrupts w) buf s w with
  | Some r => r
  | None => (Err (io_error OtherKind), s, w)
  end.

(** [as_write] is the inner stream. *)
Definition BufReader_Write : Write Conn := {|
  write_all l c :=
    let b := obj c in
    let '(r, s, w) := write_all_to l (inner b) (world c) in (r, mkOn (mkBufReader (capacity b) (buffered b) s) w);
  flush c :=
    let b := obj c in
    let '(r, s, w) := sflush (inner b) (world c) in (r, mkOn (mkBufReader (capacity b) (buffered b) s) w);
|}.
#[export] Existing Instance BufReader_Write.

Definition BufReader_ReadTimeout : ReadTimeout Conn := fun t c =>
  let (r, w) := set_rto t (inner (obj c)) (world c) in (r, mkOn (obj c) w).
#[export] Existing Instance BufReader_ReadTimeout.
Definition BufReader_WriteTimeout : WriteTimeout Conn := fun t c =>
  let (r, w) := set_wto t (inner (obj c)) (world c) in (r, mkOn (obj c) w).
#[export] Existing Instance BufReader_WriteTimeout.

(** The clock is the world's. *)
Definition On_Clock : Clock Conn := {|
  now c := let (t, w) := now (world c) in (t, mkOn (obj c) w);
  sleep d c := mkOn (obj c) (sleep d (world c));
|}.
#[export] Existing Instance On_Clock.
End BufReader.

(** ** Connecting *)

Definition BUFSIZE : positive := 16384.

Definition utf8_address (a : ServerAddr) : result (list byte) IoError :=
  if utf8_valid (address a) then Ok (address a) else Err (io_error InvalidInput).

(** [TcpStream::connect], [ServerName::try_from] and [ClientConnection::new]. *)
Section Connect.
Context {W Tcp Conn Name Cfg : Type} `{Socket W (StreamOwned Conn Tcp)}.
Context (tcp_connect : list byte -> N -> W -> result Tcp IoError * W).
Context (server_name : list byte -> option Name) (client_new : Cfg -> Name -> option Conn).
#[local] Abbreviation Stream := (StreamInner Tcp (StreamOwned Conn Tcp)).

Definition over (s : Stream) : BufReader Stream := mkBufReader BUFSIZE [] s.

Definition connect_no_tls (a : ServerAddr) (w : W) : result (BufReader Stream) IoError * W :=
  match utf8_address a with
  | Err e => (Err e, w)
  | Ok string =>
      match tcp_connect string (port_num a) w with
      | (Err e, w) => (Err e, w)
      | (Ok sock, w) => (Ok (over (OnTcp sock)), w)
      end
  end.

Definition connect (a : ServerAddr) (tls_fn : W -> result Cfg IoError * W) (w : W)
    : result (BufReader Stream) IoError * W :=
  match utf8_address a with
  | Err e => (Err e, w)
  | Ok string =>
      if tls a then
        match server_name string with
        | None => (Err (io_error InvalidInput), w)
        | Some name =>
            match tls_fn w with
            | (Err e, w) => (Err e, w)
            | (Ok config, w) =>
                match client_new config name with
                | None => (Err (io_error OtherKind), w)
                | Some conn =>
                    match tcp_connect string (port_num a) w with
                    | (Err e, w) => (Err e, w)
                    | (Ok sock, w) =>
                        match sflush (mkStreamOwned conn sock) w with
                        | (Err e, _, w) => (Err e, w)
                        | (Ok _, t, w) => (Ok (over (OnTls t)), w)
                        end
                    end
                end
            end
        end
      else
        match tcp_connect string (port_num a) w with
        | (Err e, w) => (Err e, w)
        | (Ok sock, w) => (Ok (over (OnTcp sock)), w)
        end
  end.

(** A connection is never closed from the start, is encrypted exactly if the
    address asks for it, and has read nothing yet. *)
Lemma connect_matches (a : ServerAddr) tls_fn (w w' : W) b :
  connect a tls_fn w = (Ok b, w') ->
  utf8_valid (address a) = true /\ buffered b = [] /\ capacity b = BUFSIZE /\
  match inner b with Closed => False | OnTcp _ => tls a = false | OnTls _ => tls a = true end.
Proof.
  unfold connect, utf8_address. destruct (utf8_valid (address a)); [|done]. destruct (tls a).
  - destruct (server_name _); [|done]. destruct (tls_fn w) as [[cfg|] w1]; [|done]. destruct (client_new cfg n); [|done].
    destruct (tcp_connect _ _ w1) as [[s|] w2]; [|done]. destruct (sflush _ w2) as [[[[]|] t] w3]; [|done]. by intros [= <- <-].
  - destruct (tcp_connect _ _ w) as [[s|] w1]; [|done]. by intros [= <- <-].
Qed.

(** Without a usable name, configuration or session no socket is opened. *)
Lemma connect_checks_first (a : ServerAddr) tls_fn (w : W) :
  tls a = true ->
  match utf8_address a with Ok s => server_name s | Err _ => None end = None \/
  (exists n, server_name (address a) = Some n /\ utf8_valid (address a) = true /\
    match (tls_fn w).1 with Ok cfg => client_new cfg n = None | Err _ => True end) ->
  exists e, connect a tls_fn w = (Err e, w) \/ connect a tls_fn w = (Err e, (tls_fn w).2).
Proof.
  intros Ht. unfold connect, utf8_address. rewrite Ht. destruct (utf8_valid (address a)).
  - intros [->|(n & -> & _ & Hc)]; [eexists; by left|]. destruct (tls_fn w) as [[cfg|e] w1]; cbn [fst snd] in *.
    + rewrite Hc. eexists. by right.
    + eexists. by right.
  - intros _. eexists. by left.
Qed.
End Connect.

(** ** Laws *)

(** What is relied on of a clock. *)
Class WorldOk (W : Type) `{Clock W} `{Patience W} := {
  wtime : W -> N;
  wnow_ok w t w' : now w = (t, w') -> (wtime w <= t <= wtime w')%N;
  wsleep_ok d w : (wtime w + d <= wtime (sleep d w))%N;
}.

(** What is relied on of a socket: reading brings the bytes still to come in
    order, and none only at the end; writing delivers the part of the buffer it
    says and nothing on an error; either is interrupted finitely often, and
    settings and the passing of time leave the bytes alone. *)
Class SocketOk (W S : Type) `{Socket W S} `{SocketTimeouts W S} `{WorldOk W} := {
  remaining : S -> W -> list byte;
  delivered : S -> W -> list byte;
  read_interrupts : S -> W -> nat;
  sread_ok n s w r s' w' : 0 < n -> sread n s w = (r, s', w') ->
    read_interrupts s' w' <= read_interrupts s w /\ delivered s' w' = delivered s w /\
    match r with
    | Ok l => length l <= n /\ (l = [] -> remaining s w = []) /\ remaining s w = l ++ remaining s' w'
    | Err e => remaining s' w' = remaining s w /\ (kind e = Interrupted -> read_interrupts s' w' < read_interrupts s w)
    end;
  swrite_ok l s w r s' w' : swrite l s w = (r, s', w') ->
    remaining s' w' = remaining s w /\ (wtime w <= wtime w')%N /\ write_interrupts w' <= write_interrupts w /\
    match r with
    | Ok n => n <= length l /\ delivered s' w' = delivered s w ++ take n l
    | Err e => delivered s' w' = delivered s w /\ (kind e = Interrupted -> write_interrupts w' < write_interrupts w)
    end;
  sflush_ok s w u s' w' : sflush s w = (Ok u, s', w') ->
    remaining s' w' = remaining s w /\ delivered s' w' = delivered s w /\ (wtime w <= wtime w')%N;
  set_rto_ok t s w r w' : set_rto t s w = (r, w') ->
    remaining s w' = remaining s w /\ read_interrupts s w' <= read_interrupts s w /\
    (forall e, r = Err e -> kind e <> Interrupted) /\ delivered s w' = delivered s w;
  set_wto_ok t s w r w' : set_wto t s w = (r, w') -> remaining s w' = remaining s w /\ delivered s w' = delivered s w;
  snow_ok s w t w' : now w = (t, w') ->
    remaining s w' = remaining s w /\ delivered s w' = delivered s w /\ read_interrupts s w' <= read_interrupts s w;
  ssleep_ok d s w : remaining s (sleep d w) = remaining s w /\ delivered s (sleep d w) = delivered s w;
}.

(** Closed streams are at their end and take nothing. *)
Section StreamOk.
Context {W Tcp Conn : Type} `{SocketOk W Tcp} `{!Socket W (StreamOwned Conn Tcp)} `{!SocketOk W (StreamOwned Conn Tcp)}.

#[export] Program Instance Stream_SocketOk : SocketOk W (StreamInner Tcp (StreamOwned Conn Tcp)) := {|
  remaining s w := match s with Closed => [] | OnTcp s => remaining s w | OnTls s => remaining s w end;
  delivered s w := match s with Closed => [] | OnTcp s => delivered s w | OnTls s => delivered s w end;
  read_interrupts s w := match s with Closed => 0 | OnTcp s => read_interrupts s w | OnTls s => read_interrupts s w end;
|}.
Next Obligation.
  intros n [|s|s] w r s' w' Hn; cbn.
  - intros [= <- <- <-]. split; [lia|]. split; [done|]. split; [cbn; lia|]. done.
  - destruct (sread n s w) as [[r1 s1] w1] eqn:Hr. intros [= <- <- <-]. by apply sread_ok in Hr.
  - destruct (sread n s w) as [[r1 s1] w1] eqn:Hr. intros [= <- <- <-]. by apply sread_ok in Hr.
Qed.
Next Obligation.
  intros l [|s|s] w r s' w'; cbn.
  - intros [= <- <- <-]. split; [done|]. split; [done|]. split; [done|]. split; [lia|]. done.
  - destruct (swrite l s w) as [[r1 s1] w1] eqn:Hr. intros [= <- <- <-]. by apply swrite_ok in Hr.
  - destruct (swrite l s w) as [[r1 s1] w1] eqn:Hr. intros [= <- <- <-]. by apply swrite_ok in Hr.
Qed.
Next Obligation.
  intros [|s|s] w u s' w'; cbn.
  - by intros [= _ <- <-].
  - destruct (sflush s w) as [[r1 s1] w1] eqn:Hr. intros [= -> <- <-]. by apply sflush_ok in Hr.
  - destruct (sflush s w) as [[r1 s1] w1] eqn:Hr. intros [= -> <- <-]. by apply sflush_ok in Hr.
Qed.
Next Obligation.
  intros t [|s|s] w r w'; cbn; [by intros [= <- <-]|apply set_rto_ok|].
  change (set_rto t (sock s) w) with (set_rto t s w). apply set_rto_ok.
Qed.
Next Obligation.
  intros t [|s|s] w r w'; cbn; [by intros [= <- <-]|apply set_wto_ok|].
  change (set_wto t (sock s) w) with (set_wto t s w). apply set_wto_ok.
Qed.
Next Obligation. intros [|s|s] w t w' Hn; [done|by eapply snow_ok..]. Qed.
Next Obligation. intros d [|s|s] w; [done|apply ssleep_ok..]. Qed.
End StreamOk.

(** ** Buffered streams *)

Section BufReaderOk.
Context {W S : Type} `{SocketOk W S}.
#[local] Abbreviation Conn := (On W (BufReader S)).

Lemma write_all_loop_spec fuel buf (s : S) (w : W) :
  length buf + write_interrupts w <= fuel ->
  exists r s' w', write_all_loop fuel buf s w = Some (r, s', w') /\
    remaining s' w' = remaining s w /\ (wtime w <= wtime w')%N /\
    exists k rest, buf = k ++ rest /\ delivered s' w' = delivered s w ++ k /\ (r = Ok () <-> rest = []).
Proof.
  revert buf s w. induction fuel as [|fuel IH]; intros [|x buf] s w Hf; cbn [write_all_loop];
    try (cbn in Hf; lia); try (do 3 eexists; (split; [done|]); (split; [done|]); (split; [done|]); exists [], []; (split; [done|]); by rewrite app_nil_r).
  destruct (swrite (x :: buf) s w) as [[[n|e] s1] w1] eqn:Hw; apply swrite_ok in Hw as (Hr & Ht & Hi & Hd).
  - destruct Hd as [Hn Hd]. destruct n as [|n].
    + do 3 eexists. split; [done|]. split; [done|]. split; [done|]. exists [], (x :: buf). split; [done|]. by rewrite Hd.
    + cbn [drop]. destruct (IH (drop n buf) s1 w1) as (r & s2 & w2 & -> & Hr2 & Ht2 & k & rest & Hk & Hd2 & Hok).
      { rewrite length_drop. cbn [length] in *. lia. }
      do 3 eexists. split; [done|]. split; [congruence|]. split; [lia|]. exists (x :: take n buf ++ k), rest.
      split; [cbn [app]; by rewrite <- app_assoc, <- Hk, take_drop|]. split; [|done].
      rewrite Hd2, Hd, <- app_assoc. done.
  - destruct Hd as [Hd Hk]. case_bool_decide as He.
    + destruct (IH (x :: buf) s1 w1) as (r & s2 & w2 & -> & Hr2 & Ht2 & k & rest & Hb & Hd2 & Hok).
      { specialize (Hk He). lia. }
      do 3 eexists. split; [done|]. split; [congruence|]. split; [lia|]. exists k, rest. split; [done|]. split; [|done].
      by rewrite Hd2, Hd.
    + do 3 eexists. split; [done|]. split; [done|]. split; [done|]. exists [], (x :: buf). rewrite app_nil_r. by split.
Qed.

(** Writing all of a buffer delivers it and succeeds, or delivers less of it and
    fails; the fuel is enough. *)
Lemma write_all_to_spec buf (s : S) (w : W) r s' w' :
  write_all_to buf s w = (r, s', w') ->
  remaining s' w' = remaining s w /\ (wtime w <= wtime w')%N /\
  exists k rest, buf = k ++ rest /\ delivered s' w' = delivered s w ++ k /\ (r = Ok () <-> rest = []).
Proof.
  unfold write_all_to. destruct (write_all_loop_spec _ buf s w (le_n _)) as (r1 & s1 & w1 & -> & K). by intros [= <- <- <-].
Qed.

#[export] Program Instance BufReader_BufReadOk : BufReadOk Conn := {|
  stream c := buffered (obj c) ++ remaining (inner (obj c)) (world c);
  interrupts c := read_interrupts (inner (obj c)) (world c);
|}.
Next Obligation.
  intros [[cap [|x b] s] w] l c'; cbn; unfold buf_fill; cbn.
  - destruct (sread _ s w) as [[[l1|e] s1] w1] eqn:Hr; [|done]. intros [= <- <-]. cbn.
    apply sread_ok in Hr as (Hi & _ & _ & He & Hs); [|lia]. rewrite Hs. split_and!; [by apply prefix_app_r| |done|done].
    intros ->. cbn in *. by rewrite <- Hs, He.
  - intros [= <- <-]. cbn. split_and!; [by exists (remaining s w)|done|done|done].
Qed.
Next Obligation.
  intros [[cap [|x b] s] w] e c'; cbn; unfold buf_fill; cbn; [|done].
  destruct (sread _ s w) as [[[l1|e1] s1] w1] eqn:Hr; [done|]. intros [= <- <-]. cbn.
  apply sread_ok in Hr as (Hi & _ & Hs & Hk); [|lia]. done.
Qed.
Next Obligation.
  intros c l c' n Hf Hn. assert (Hb : buffered (obj c') = l).
  { destruct c as [[cap [|x b] s] w]; cbn in Hf; unfold buf_fill in Hf; cbn in Hf.
    - destruct (sread _ s w) as [[[l1|e1] s1] w1]; [|done]. by injection Hf as <- <-.
    - by injection Hf as <- <-. }
  subst l. cbn. by rewrite drop_app_le.
Qed.
Next Obligation. by intros c. Qed.

Lemma fill_delivered (c : Conn) r c' :
  fill_buf c = (r, c') -> delivered (inner (obj c')) (world c') = delivered (inner (obj c)) (world c).
Proof.
  destruct c as [[cap [|x b] s] w]; cbn; unfold buf_fill; cbn; [|by intros [= _ <-]].
  destruct (sread _ s w) as [[[l1|e] s1] w1] eqn:Hr; intros [= _ <-]; cbn; apply sread_ok in Hr as (_ & Hd & _); done || lia.
Qed.

#[export] Program Instance BufReader_LinkOk : LinkOk Conn := {|
  time c := wtime (world c);
  sent c := delivered (inner (obj c)) (world c);
|}.
Next Obligation.
  intros [b w] t c'. cbn. destruct (Time.now w) as [t1 w1] eqn:Hn. intros [= <- <-]. cbn.
  pose proof (wnow_ok _ _ _ Hn). apply (snow_ok (inner b)) in Hn as (-> & -> & Hi). by split_and!; lia || done.
Qed.
Next Obligation.
  intros d [b w]. cbn. destruct (ssleep_ok d (inner b) w) as [-> ->]. split; [apply wsleep_ok|done].
Qed.
Next Obligation.
  intros l [[cap b s] w] c'. cbn. destruct (write_all_to l s w) as [[r s1] w1] eqn:Hw. intros [= -> <-]. cbn.
  apply write_all_to_spec in Hw as (Hr & Ht & k & rest & -> & Hd & Hok). rewrite (proj1 Hok eq_refl), app_nil_r, Hr. done.
Qed.
Next Obligation.
  intros [[cap b s] w] c'. cbn. destruct (sflush s w) as [[r s1] w1] eqn:Hw. intros [= -> <-]. cbn.
  apply sflush_ok in Hw as (-> & -> & Ht). done.
Qed.
Next Obligation.
  intros fuel limit c buf r c' buf'. apply (read_until_keeps (fun c : Conn => delivered (inner (obj c)) (world c))); [|done].
  apply fill_delivered.
Qed.

#[export] Program Instance BufReader_ConnectionOk : ConnectionOk Conn := {| connection_link := BufReader_LinkOk |}.
Next Obligation.
  intros t [[cap b s] w] r c' Hs. unfold Time.set_read_timeout, BufReader_ReadTimeout in Hs. cbn in *.
  destruct (set_rto t s w) as [r1 w1] eqn:Hw. injection Hs as <- <-. cbn. by apply set_rto_ok in Hw as (-> & Hi & Hk & Hd).
Qed.
Next Obligation.
  intros t [[cap b s] w] r c' Hs. unfold Time.set_write_timeout, BufReader_WriteTimeout in Hs. cbn in *.
  destruct (set_wto t s w) as [r1 w1] eqn:Hw. injection Hs as <- <-. cbn. by apply set_wto_ok in Hw as [-> Hd].
Qed.
Next Obligation. apply fill_delivered. Qed.
Next Obligation. done. Qed.
End BufReaderOk.

Section Theorems.
Context {W Tcp Conn : Type} `{SocketOk W Tcp} `{!Socket W (StreamOwned Conn Tcp)} `{!SocketOk W (StreamOwned Conn Tcp)}.
#[local] Abbreviation Stream := (StreamInner Tcp (StreamOwned Conn Tcp)).

(** C38: A buffered stream, over a socket or over TLS, is a connection the run loop
    can rely on, whose bytes are those buffered and then those of the socket.
    Writing to it sends all of the bytes or fails having sent fewer, in however
    many parts the socket takes them and however often it is interrupted; a
    closed stream has no more bytes and refuses to be written to. *)
Theorem buffered_stream_ok :
  exists ok : ConnectionOk (On W (BufReader Stream)),
    (forall c : On W (BufReader Stream), stream c = buffered (obj c) ++ remaining (inner (obj c)) (world c)) /\
    (forall c : On W (BufReader Stream), sent c = delivered (inner (obj c)) (world c)) /\
    (forall l (c : On W (BufReader Stream)) r c', write_all l c = (r, c') ->
      buffered (obj c') = buffered (obj c) /\ stream c' = stream c /\
      exists k rest, l = k ++ rest /\ sent c' = sent c ++ k /\ (r = Ok () <-> rest = [])) /\
    (forall (c : On W (BufReader Stream)), inner (obj c) = Closed ->
      fill_buf c = (Ok (buffered (obj c)), c) /\ stream c = buffered (obj c) /\
      forall l, l <> [] -> write_all l c = (Err (io_error WriteZero), c)).
Proof.
  exists BufReader_ConnectionOk. split; [done|]. split; [done|]. split.
  - intros l [[cap b s] w] r c'. cbn. destruct (write_all_to l s w) as [[r1 s1] w1] eqn:Hw. intros [= <- <-]. cbn.
    apply write_all_to_spec in Hw as (Hr & _ & K). cbn in Hr. split; [done|]. by rewrite Hr.
  - intros [[cap b s] w]. cbn. intros ->. unfold buf_fill. cbn. rewrite app_nil_r. split; [by destruct b|]. split; [done|].
    by intros [|x l] Hl.
Qed.
End Theorems.

(** ** A sample world *)

(** Bytes to read, three at a time; bytes written, two at a time, after some
    interruptions; and a clock. *)
Record Wire := mkWire { wclock : N; win : list byte; wout : list byte; wint : nat }.

Definition wire_clock : Clock Wire := {|
  now w := (wclock w, w);
  sleep d w := mkWire (wclock w + d) (win w) (wout w) (wint w);
|}.
#[local] Existing Instance wire_clock.
Definition wire_patience : Patience Wire := wint.
#[local] Existing Instance wire_patience.

#[local] Program Instance wire_world : WorldOk Wire := {| wtime := wclock |}.
Next Obligation. intros w t w' [= <- <-]. lia. Qed.
Next Obligation. intros d w. cbn. lia. Qed.

Definition wire_read {S} (n : nat) (s : S) (w : Wire) : result (list byte) IoError * S * Wire :=
  let n := Nat.min n 3 in (Ok (take n (win w)), s, mkWire (wclock w) (drop n (win w)) (wout w) (wint w)).
Definition wire_write {S} (l : list byte) (s : S) (w : Wire) : result nat IoError * S * Wire :=
  match wint w with
  | 0 => let l := take 2 l in (Ok (length l), s, mkWire (wclock w) (win w) (wout w ++ l) 0)
  | Datatypes.S i => (Err (io_error Interrupted), s, mkWire (wclock w) (win w) (wout w) i)
  end.
Definition wire_socket {S} : Socket Wire S := {|
  sread := wire_read;
  sread_vectored ns := wire_read (sum_list ns);
  swrite := wire_write;
  sflush s w := (Ok (), s, w);
|}.
Definition wire_timeouts : SocketTimeouts Wire () := {| set_rto _ _ w := (Ok (), w); set_wto _ _ w := (Ok (), w) |}.
Definition tcp_socket : Socket Wire () := wire_socket.
Definition tls_socket : Socket Wire (StreamOwned () ()) := wire_socket.
#[local] Existing Instances wire_timeouts tcp_socket tls_socket.

Lemma wire_read_ok {S} n (s : S) w r s' w' : 0 < n -> wire_read n s w = (r, s', w') ->
  exists l, r = Ok l /\ wout w' = wout w /\ length l <= n /\ (l = [] -> win w = []) /\ win w = l ++ win w'.
Proof.
  intros Hn [= <- _ <-]. exists (take (Nat.min n 3) (win w)). cbn. split; [done|]. split; [done|]. split; [rewrite length_take; lia|].
  split; [|by rewrite take_drop]. destruct (win w); [done|]. destruct n as [|n]; [lia|]. done.
Qed.
Lemma wire_write_ok {S} l (s : S) w r s' w' : wire_write l s w = (r, s', w') ->
  win w' = win w /\ (wclock w <= wclock w')%N /\ wint w' <= wint w /\
  match r with
  | Ok n => n <= length l /\ wout w' = wout w ++ take n l
  | Err e => wout w' = wout w /\ (kind e = Interrupted -> wint w' < wint w)
  end.
Proof.
  unfold wire_write. destruct (wint w) eqn:Hi; intros [= <- _ <-]; cbn; split_and!; try done; try lia.
  - rewrite length_take. lia.
  - by destruct l as [|a [|b l]].
Qed.

#[local] Program Instance tcp_ok : SocketOk Wire () := {|
  remaining _ := win; delivered _ := wout; read_interrupts _ _ := 0;
|}.
Next Obligation. intros n s w r s' w' Hn (l & -> & K)%wire_read_ok; [done|lia]. Qed.
Next Obligation. intros l s w r s' w' K%wire_write_ok. exact K. Qed.
Next Obligation. by intros s w u s' w' [= _ _ <-]. Qed.
Next Obligation. by intros t s w r w' [= <- <-]. Qed.
Next Obligation. by intros t s w r w' [= <- <-]. Qed.
Next Obligation. by intros s w t w' [= _ <-]. Qed.
Next Obligation. done. Qed.

#[local] Program Instance tls_ok : SocketOk Wire (StreamOwned () ()) := {|
  remaining _ := win; delivered _ := wout; read_interrupts _ _ := 0;
|}.
Next Obligation. intros n s w r s' w' Hn (l & -> & K)%wire_read_ok; [done|lia]. Qed.
Next Obligation. intros l s w r s' w' K%wire_write_ok. exact K. Qed.
Next Obligation. by intros s w u s' w' [= _ _ <-]. Qed.
Next Obligation. by intros t s w r w' [= <- <-]. Qed.
Next Obligation. by intros t s w r w' [= <- <-]. Qed.
Next Obligation. by intros s w t w' [= _ <-]. Qed.
Next Obligation. done. Qed.

(** A buffered TLS stream with two bytes buffered. *)
Definition sample_stream : On Wire (BufReader (StreamInner () (StreamOwned () ()))) :=
  mkOn (mkBufReader BUFSIZE (bs "PI") (OnTls (mkStreamOwned () ()))) (mkWire 0 (bs "NG x") [] 3).

Lemma buffered_stream_ok_witness :
  (write_all (bs "PONG x") sample_stream).1 = Ok () /\
  exists ok : ConnectionOk (On Wire (BufReader (StreamInner () (StreamOwned () ())))), stream sample_stream = bs "PING x".
Proof.
  split; [vm_compute; reflexivity|].
  destruct (buffered_stream_ok (W := Wire) (Tcp := ()) (Conn := ())) as (ok & K & _). exists ok. exact (K sample_stream).
Defined.
