(* ===== verification/Conns.v ===== *)
(** * Connections of other kinds

    [src/client/conn.rs], [src/client/conn/time.rs],
    [src/client/conn/sync.rs], [src/client/conn/tokio.rs]: equality and hash of
    server addresses, types of the standard library and of [rustls] as
    connections with timeouts, the halves of what a tokio client runs on, and
    plain reading and writing through a connection with a time limit. *)

From stdpp Require Import list.
From S2P Require Import Prelude Strings Time.
From S2P Require Queue Client Stream.
Import Client (ServerAddr, mkAddr, address, tls, port, port_num, addr_eq).
#[local] Open Scope N_scope.

(** ** [ServerAddr] *)

(** What [Hash] writes: bytes, and integers of a byte and of two, the least
    significant first. *)
Definition u16_bytes (n : N) : list byte := [byte_of n; byte_of (N.shiftr n 8)].
Definition addr_hash (self : ServerAddr) : list byte :=
  address self ++ [byte_of (if tls self then 1 else 0)] ++ u16_bytes (port_num self).

(** [from_host_str]; [None] is the panic. *)
Definition from_host_str (a : list byte) : option ServerAddr :=
  match from_str Word a with Some a => Some (mkAddr a true None) | None => None end.

(** ** Timeouts of types that never wait *)

Section Never.
Context {C : Type}.
Definition ignore_timeout (timeout : option N) (c : C) : result () IoError * C := (Ok (), c).

Definition Empty_ReadTimeout : ReadTimeout C := ignore_timeout.
Definition Cursor_ReadTimeout : ReadTimeout C := ignore_timeout.
Definition VecDeque_ReadTimeout : ReadTimeout C := ignore_timeout.
Definition Empty_WriteTimeout : WriteTimeout C := ignore_timeout.
Definition Sink_WriteTimeout : WriteTimeout C := ignore_timeout.
Definition Vec_WriteTimeout : WriteTimeout C := ignore_timeout.
Definition VecDeque_WriteTimeout : WriteTimeout C := ignore_timeout.
End Never.

(** [rustls::Stream], of a TLS session and what it runs on: the timeouts are the
    socket's. *)
Definition TlsStream_ReadTimeout {Conn T} `{ReadTimeout T} : ReadTimeout (Stream.StreamOwned Conn T) := fun timeout c =>
  let (r, s) := set_read_timeout timeout (Stream.sock c) in (r, Stream.mkStreamOwned (Stream.tls_conn c) s).
Definition TlsStream_WriteTimeout {Conn T} `{WriteTimeout T} : WriteTimeout (Stream.StreamOwned Conn T) := fun timeout c =>
  let (r, s) := set_write_timeout timeout (Stream.sock c) in (r, Stream.mkStreamOwned (Stream.tls_conn c) s).

(** ** [ConnectionTokio] *)

(** A mutable reference to a part: the part, and the whole with it replaced. *)
Record Part (C P : Type) := mkPart { part : P; put : P -> C }.
Arguments mkPart {C P} part put.
Arguments part {C P} _.
Arguments put {C P} _ _.

Class ConnectionTokio (C R W : Type) := {
  as_bufread : C -> Part C R;
  as_write : C -> Part C W;
}.

Definition Bidir_ConnectionTokio {R W} : ConnectionTokio (Bidir R W) R W := {|
  as_bufread c := mkPart (bread c) (fun r => mkBidir r (bwrite c));
  as_write c := mkPart (bwrite c) (fun w => mkBidir (bread c) w);
|}.

(** [get_mut] goes past the buffer. *)
Definition BufReader_ConnectionTokio {T} : ConnectionTokio (Stream.BufReader T) (Stream.BufReader T) T := {|
  as_bufread c := mkPart c id;
  as_write c := mkPart (Stream.inner c) (fun t => Stream.mkBufReader (Stream.capacity c) (Stream.buffered c) t);
|}.

(** ** [TimeLimitedSync] as reader and writer *)

(** The rest of [Read] and [Write]; [write_fmt] is given the text. *)
Class ReadWrite (C : Type) := {
  read_some : nat -> C -> result (list byte) IoError * C;
  write_some : list byte -> C -> result nat IoError * C;
  write_fmt : list byte -> C -> result () IoError * C;
}.

Section Limited.
Context {C : Type} `{BufRead C} `{Write C} `{ReadWrite C} `{ReadTimeout C} `{WriteTimeout C} `{Clock C}.
#[local] Abbreviation Limited := (TimeLimitedSync C).

(** What the connection does, under the limit. *)
Definition on_conn {T} (f : C -> result T IoError * C) (s : Limited) : result T IoError * Limited :=
  let (r, c) := f (conn s) in (r, mkSync c (deadline s)).

Definition limited_write (buf : list byte) (s : Limited) : result nat IoError * Limited := on_conn (write_some buf) s.
Definition limited_flush (s : Limited) : result () IoError * Limited := on_conn flush s.
Definition limited_write_all (buf : list byte) (s : Limited) : result () IoError * Limited := on_conn (write_all buf) s.
Definition limited_write_fmt (text : list byte) (s : Limited) : result () IoError * Limited := on_conn (write_fmt text) s.

Definition limited_read (n : nat) (s : Limited) : result (list byte) IoError * Limited :=
  match update_timeout s with
  | (Err e, s) => (Err e, s)
  | (Ok _, s) => on_conn (read_some n) s
  end.

(** Uses of a limited connection; the states in which the connection is asked for
    bytes it does not have. *)
Inductive Use := URead (n : nat) | UFill | UConsume (n : nat) | UWrite (buf : list byte) | UWriteAll (buf : list byte) | UWriteFmt (text : list byte) | UFlush.

Definition asked (u : Use) (s : Limited) : list C :=
  match u with
  | URead _ | UFill => match update_timeout s with (Ok _, s) => [conn s] | (Err _, _) => [] end
  | _ => []
  end.

Definition use (u : Use) (s : Limited) : Limited :=
  match u with
  | URead n => (limited_read n s).2
  | UFill => (sync_fill_buf s).2
  | UConsume n => sync_consume n s
  | UWrite buf => (limited_write buf s).2
  | UWriteAll buf => (limited_write_all buf s).2
  | UWriteFmt text => (limited_write_fmt text s).2
  | UFlush => (limited_flush s).2
  end.

Fixpoint all_asked (l : list Use) (s : Limited) : list C :=
  match l with
  | [] => []
  | u :: l => asked u s ++ all_asked l (use u s)
  end.
End Limited.

(** ** Theorems *)

Lemma byte_of_inj a b : a < 256 -> b < 256 -> byte_of a = byte_of b -> a = b.
Proof.
  intros Ha Hb E. assert (Hc : forall n, n < 256 -> code (byte_of n) = n).
  { intros n Hn. unfold byte_of, code. rewrite N.mod_small by done. destruct (Byte.of_N n) as [x|] eqn:Hx; [by apply Byte.to_of_N|].
    apply Byte.of_N_None_iff in Hx. lia. }
  by rewrite <- (Hc a), <- (Hc b), E.
Qed.

(** Addresses are equal exactly when their hashes are of the same bytes, so
    maps find them: the port is the one used, given or not. *)
Theorem addr_hash_eq a b :
  port_num a < 2 ^ 16 -> port_num b < 2 ^ 16 -> addr_eq a b = true <-> addr_hash a = addr_hash b.
Proof.
  intros Ha Hb. unfold addr_eq. rewrite !andb_true_iff, Bool.eqb_true_iff, N.eqb_eq, bool_decide_eq_true. split.
  - intros [[Ht Hp] Hd]. unfold addr_hash. by rewrite Ht, Hp, Hd.
  - unfold addr_hash. intros E. apply app_inj_2 in E as [Ed E]; [|done].
    assert (Hsplit : forall n, n < 2 ^ 16 -> N.shiftr n 8 < 256 /\ n = N.shiftr n 8 * 256 + n mod 256).
    { intros n Hn. rewrite N.shiftr_div_pow2. change (2 ^ 8) with 256. split; [by apply N.Div0.div_lt_upper_bound|].
      pose proof (N.div_mod n 256). lia. }
    unfold u16_bytes in E. injection E as E3 E2 E1. destruct (Hsplit _ Ha) as [Ga Ka], (Hsplit _ Hb) as [Gb Kb].
    apply (byte_of_inj _ _ Ga Gb) in E1.
    assert (Em : port_num a mod 256 = port_num b mod 256).
    { apply byte_of_inj; [by apply N.mod_lt..|]. unfold byte_of in *. by rewrite !N.Div0.mod_mod. }
    split; [split|]; [by destruct (tls a), (tls b)|congruence|done].
Qed.

Lemma addr_hash_eq_witness :
  addr_hash (mkAddr (bs "irc.example") true None) = addr_hash (mkAddr (bs "irc.example") true (Some 6697)).
Proof. apply (addr_hash_eq (mkAddr (bs "irc.example") true None) (mkAddr (bs "irc.example") true (Some 6697))); reflexivity. Defined.

(** The two halves of a connection: what is put is what is there, putting back
    changes nothing, and writing leaves what is to be read alone, a buffer
    included. *)
Theorem halves_apart {R W T} (b : Bidir R W) (r : R) (w : W) (br : Stream.BufReader T) (t : T) :
  let R1 := @as_bufread _ _ _ (@Bidir_ConnectionTokio R W) in let W1 := @as_write _ _ _ (@Bidir_ConnectionTokio R W) in
  let R2 := @as_bufread _ _ _ (@BufReader_ConnectionTokio T) in let W2 := @as_write _ _ _ (@BufReader_ConnectionTokio T) in
  put (W1 b) (part (W1 b)) = b /\ part (W1 (put (W1 b) w)) = w /\ part (R1 (put (W1 b) w)) = part (R1 b) /\
  put (R1 b) (part (R1 b)) = b /\ part (R1 (put (R1 b) r)) = r /\ part (W1 (put (R1 b) r)) = part (W1 b) /\
  put (W2 br) (part (W2 br)) = br /\ part (W2 (put (W2 br) t)) = t /\
  Stream.buffered (part (R2 (put (W2 br) t))) = Stream.buffered br.
Proof. by destruct b, br. Qed.

Section Deadline.
Context {C : Type} `{BufRead C} `{Write C} `{ReadWrite C} `{ReadTimeout C} `{WriteTimeout C} `{Clock C}.

(** [armed d c]: a read of [c] does not go on past [d]. *)
Context (armed : N -> C -> Prop).
Hypothesis arms : forall t x c c' c'', now c = (t, c') -> 0 < x -> set_read_timeout (Some x) c' = (Ok (), c'') -> armed (t + x) c''.

Lemma use_deadline u (s : TimeLimitedSync C) : deadline (use u s) = deadline s.
Proof.
  assert (Hon : forall T (f : C -> result T IoError * C) (s : TimeLimitedSync C), deadline (on_conn f s).2 = deadline s).
  { intros T f x. unfold on_conn. by destruct (f (conn x)). }
  assert (Hup : deadline (update_timeout s).2 = deadline s).
  { unfold update_timeout. destruct (deadline s) as [d|] eqn:Hd; [|done]. destruct (now (conn s)) as [t c].
    destruct (negb _); [|done]. by destruct (set_read_timeout _ c). }
  destruct u; cbn [use]; unfold limited_write, limited_flush, limited_write_all, limited_write_fmt; rewrite ?Hon; try done.
  - unfold limited_read. destruct (update_timeout s) as [[r|e] s']; cbn in Hup; [by rewrite Hon|done].
  - unfold sync_fill_buf. destruct (update_timeout s) as [[r|e] s']; cbn in Hup; [|done]. by destruct (fill_buf (conn s')).
Qed.

(** However a limited connection is used, by either reader interface and with
    any writes in between, it is only read while a timeout that ends by the
    deadline is set. *)
Theorem deadline_armed d l : forall s : TimeLimitedSync C,
  deadline s = Some d -> Forall (armed d) (all_asked l s).
Proof.
  induction l as [|u l IH]; intros s Hd; cbn [all_asked]; [constructor|]. apply Forall_app. split.
  - assert (Ha : match update_timeout s with (Ok _, s') => armed d (conn s') | (Err _, _) => True end).
    { unfold update_timeout. rewrite Hd. destruct (now (conn s)) as [t c] eqn:Hn.
      destruct (N.eqb_spec (Queue.saturating_duration_since d t) 0) as [|Hne]; [done|]. cbn [negb].
      destruct (set_read_timeout (Some (Queue.saturating_duration_since d t)) c) as [[[]|e] c'] eqn:Hs; [|done].
      unfold Queue.saturating_duration_since in *. cbn [conn].
      replace d with (t + (d - t)) by lia. eapply arms; [exact Hn| |exact Hs]. lia. }
    destruct u; cbn [asked]; try constructor; destruct (update_timeout s) as [[r|e] s']; by repeat constructor.
  - apply IH. by rewrite use_deadline.
Qed.
End Deadline.

(** ** Witness *)

(** A connection that keeps the time and when its timeout ends; reading takes a
    second, or until then. *)
Definition Timed : Type := (N * N)%type.
#[local] Instance timed_clock : Clock Timed := {| now c := (c.1, c); sleep d c := (c.1 + d, c.2) |}.
#[local] Instance timed_read_timeout : ReadTimeout Timed :=
  fun timeout c => (Ok (), (c.1, match timeout with Some x => c.1 + x | None => c.2 end)).
#[local] Instance timed_write_timeout : WriteTimeout Timed := fun _ c => (Ok (), c).
#[local] Instance timed_bufread : BufRead Timed := {| fill_buf c := (Ok [], (N.min (c.1 + 1) c.2, c.2)); consume _ c := c |}.
#[local] Instance timed_write : Write Timed := {| write_all _ c := (Ok (), (c.1 + 1, c.2)); flush c := (Ok (), c) |}.
#[local] Instance timed_rest : ReadWrite Timed := {|
  read_some _ c := (Ok [], (N.min (c.1 + 1) c.2, c.2));
  write_some l c := (Ok (length l), (c.1 + 1, c.2));
  write_fmt _ c := (Ok (), (c.1 + 1, c.2));
|}.

(** Three reads with a write in between; the last comes too late. *)
Lemma deadline_armed_witness :
  let uses := [URead 1; UWriteAll [x00]; UFill; UFill] in
  let s := mkSync ((5, 0) : Timed) (Some 8) in
  all_asked uses s = [(5, 8); (7, 8)] /\ Forall (fun c : Timed => c.2 <= 8) (all_asked uses s).
Proof.
  cbv zeta. split; [reflexivity|].
  refine (deadline_armed (fun d c => c.2 <= d) _ 8 [URead 1; UWriteAll [x00]; UFill; UFill] (mkSync ((5, 0) : Timed) (Some 8)) eq_refl).
  intros t x c c' c'' Hn _ Hs. injection Hn as <- <-. injection Hs as <-. apply N.le_refl.
Defined.
