(* ===== verification/Setup.v ===== *)
(** * Setting up queues and clients

    [src/client/queue.rs], [src/client.rs], [src/client/logic.rs]: queues made
    of messages, clients made with a queue, and access to the parts of a client.
    A mutable reference is what is done to the part. *)

From S2P Require Import Prelude Msg.
From S2P Require Queue Client State Handlers ClientThms.
#[local] Open Scope N_scope.

(** ** [Queue] *)

Section Queue.
Context {A : Type} `{Queue.Adjuster A} {L : Type}.
#[local] Abbreviation Queue := (Queue.Queue A L).

(** [now] is when the queue is made. *)
Definition default (now : N) : Queue := Queue.new now.
Definition from_iter (now : N) (iter : list ClientMsg) : Queue := Queue.from_queue now iter.
Definition from_vec (now : N) (value : list ClientMsg) : Queue := Queue.from_queue now value.
Definition from_deque (now : N) (value : list ClientMsg) : Queue := Queue.from_queue now value.

Definition multi_is_empty (adjusters : list (A * bool)) : bool := match adjusters with [] => true | _ => false end.

(** When a client that asks as often as it can gets the messages of a queue made
    at [now]: five at once, then one in two seconds. *)
Definition due (now : N) (i : nat) : N := now + N.of_nat (i - 4) * Queue.from_secs 2.

Context (instant_max : N).

(** Pops at the given times. *)
Fixpoint pops (times : list N) (q : Queue) : option (list Queue.Popped * Queue) :=
  match times with
  | [] => Some ([], q)
  | t :: times =>
      match Queue.pop instant_max t t q with
      | Some (p, q) => match pops times q with Some (ps, q) => Some (p :: ps, q) | None => None end
      | None => None
      end
  end.

(** A queue made of messages gives them in order, each exactly when it is due:
    asked earlier it says how long to wait.  The rate limit of a new queue is thus
    five messages at once and then one in two seconds. *)
Theorem default_schedule now l k :
  (k <= length l)%nat -> due now k + Queue.from_secs 10 <= instant_max ->
  exists q, pops (due now <$> seq 0 k) (from_vec now l) = Some (Queue.Popped_msg <$> take k l, q) /\
    Queue.queue q = drop k l /\
    (k = length l -> forall t, Queue.pop instant_max t t q = Some (Queue.Timeout None, q)) /\
    (forall t, (k < length l)%nat -> now <= t -> t < due now k ->
       Queue.pop instant_max t t q = Some (Queue.Timeout (Some (due now k - t)), q)).
Proof.
  intros Hk Hmax.
  assert (Hd : forall i, (i <= k)%nat -> due now i <= due now k) by (intros i Hi; unfold due; nia).
  assert (Hgen : forall m l0 q0, (m <= k)%nat -> Queue.queue q0 = drop (k - m) l0 -> (k <= length l0)%nat ->
      Queue.delay q0 = Queue.from_secs 2 -> Queue.sub q0 = Queue.from_secs 8 -> Queue.timepoint q0 = now + N.of_nat (k - m) * Queue.from_secs 2 ->
      exists q, pops (due now <$> seq (k - m) m) q0 = Some (Queue.Popped_msg <$> take m (drop (k - m) l0), q) /\
        Queue.queue q = drop k l0 /\ Queue.delay q = Queue.from_secs 2 /\ Queue.sub q = Queue.from_secs 8 /\
        Queue.timepoint q = now + N.of_nat k * Queue.from_secs 2).
  { induction m as [|m IH]; intros l0 q0 Hm Hq Hl H1 H2 H3.
    - rewrite Nat.sub_0_r in *. exists q0. split; [by rewrite firstn_O|done].
    - assert (Hlt : (k - S m < length l0)%nat) by lia.
      destruct (lookup_lt_is_Some_2 l0 (k - S m) Hlt) as [x Hx].
      rewrite (drop_S l0 x _ Hx) in Hq |- *. replace (S (k - S m)) with (k - m)%nat in * by lia.
      cbn [seq fmap list_fmap pops take]. unfold Queue.pop at 1. rewrite Hq.
      unfold Queue.saturating_duration_since, Queue.saturating_sub. rewrite H1, H2, H3.
      replace (_ =? 0) with true; [|symmetry; apply N.eqb_eq; unfold due, Queue.from_secs, Queue.NANOS in *; lia].
      unfold Queue.checked_add. rewrite (proj2 (N.leb_le _ _)).
      + destruct (IH l0 (Queue.with_timepoint (Queue.with_msgs q0 (drop (k - m) l0))
          (N.max (now + N.of_nat (k - S m) * Queue.from_secs 2) (due now (k - S m)) + Queue.from_secs 2))) as (q & P1 & P2);
          [lia|done|done|done|done| |].
        { cbn. unfold due, Queue.from_secs, Queue.NANOS. lia. }
        exists q. replace (S (k - S m)) with (k - m)%nat by lia. rewrite P1. done.
      + pose proof (Hd (k - S m)%nat ltac:(lia)) as Hdk. unfold due, Queue.from_secs, Queue.NANOS in *. lia. }
  destruct (Hgen k l (from_vec now l)) as (q & P1 & P2 & P3 & P4 & P5);
    rewrite ?Nat.sub_diag; [done|by rewrite drop_0|done|done|done|cbn; lia|].
  rewrite Nat.sub_diag, drop_0 in P1. exists q. split; [done|]. split; [done|]. split.
  - intros -> t. unfold Queue.pop. by rewrite P2, drop_all.
  - intros t Hlt Hn Ht. destruct (lookup_lt_is_Some_2 l k Hlt) as [x Hx]. unfold Queue.pop.
    rewrite P2, (drop_S l x k Hx). unfold Queue.saturating_duration_since, Queue.saturating_sub. rewrite P4, P5.
    assert (E : now + N.of_nat k * Queue.from_secs 2 - t - Queue.from_secs 8 = due now k - t).
    { unfold due, Queue.from_secs, Queue.NANOS in *. lia. }
    rewrite E, (proj2 (N.eqb_neq _ _)); [done|lia].
Qed.
End Queue.

(** ** [ClientLogic] and [Client] *)

Section Client.
Context {A : Type} `{Queue.Adjuster A} {Lb B W F C Sp : Type}.
#[local] Abbreviation Queue := (Queue.Queue A Lb).
#[local] Abbreviation Logic := (Client.ClientLogic A Lb B W).
#[local] Abbreviation Client := (Client.Client A Lb B W F C Sp).

Definition logic_queue (l : Logic) : Queue := Client.lqueue l.
Definition logic_queue_mut (f : Queue -> Queue) (l : Logic) : Logic := Client.with_queue (f (Client.lqueue l)) l.
Definition logic_state (l : Logic) : State.ClientState := Client.lstate l.
Definition logic_state_mut (f : State.ClientState -> State.ClientState) (l : Logic) : Logic := Client.with_state (f (Client.lstate l)) l.

(** [now] is when the queue of the new logic is made, which is dropped. *)
Definition new_with_queue (now : N) (w : W) (conn : C) (spec : Sp) (q : Queue) : Client :=
  Client.new_with_logic conn spec (Client.with_queue q (Client.logic_new now w)).

Definition client_queue (c : Client) : Queue := logic_queue (Client.logic c).
Definition client_queue_mut (f : Queue -> Queue) (c : Client) : Client :=
  Client.client_with_logic (logic_queue_mut f (Client.logic c)) c.
Definition client_state (c : Client) : State.ClientState := logic_state (Client.logic c).
Definition client_state_mut (f : State.ClientState -> State.ClientState) (c : Client) : Client :=
  Client.client_with_logic (logic_state_mut f (Client.logic c)) c.

(** What is done through a mutable reference to a part of a client is what the
    part is afterwards, and the other part, the connection and the handlers stay;
    a client made with a queue has that queue, and needs to run exactly when there
    is something in it. *)
Theorem client_parts (c : Client) f g now w conn spec q :
  client_queue (client_queue_mut f c) = f (client_queue c) /\
  client_state (client_state_mut g c) = g (client_state c) /\
  client_state (client_queue_mut f c) = client_state c /\ client_queue (client_state_mut g c) = client_queue c /\
  client_queue_mut f (client_state_mut g c) = client_state_mut g (client_queue_mut f c) /\
  client_queue_mut id c = c /\ client_state_mut id c = c /\
  Client.cconn (client_queue_mut f c) = Client.cconn c /\
  Client.lhandlers (Client.logic (client_queue_mut f c)) = Client.lhandlers (Client.logic c) /\
  (let n := new_with_queue now w conn spec q in
   client_queue n = q /\ Client.take_conn n = conn /\
   (Client.needs_run n = true <-> Queue.queue q <> [])).
Proof.
  destruct c as [io sp [t lq st hs h] ot]. split_and!; try done.
  unfold new_with_queue, Client.needs_run, Client.logic_needs_run, Queue.is_empty. cbn.
  by destruct (Queue.queue q).
Qed.
End Client.

(** ** Witness *)

Lemma default_schedule_witness :
  let msgs := (fun n => client_new_cmd [n]) <$> bs "ABCDEF" in
  exists q, pops (A := ()) (L := ()) (Queue.from_secs 1000) (due 0 <$> seq 0 5) (from_vec 0 msgs) = Some (Queue.Popped_msg <$> take 5 msgs, q) /\
    Queue.pop (Queue.from_secs 1000) 1 1 q = Some (Queue.Timeout (Some (Queue.from_secs 2 - 1)), q).
Proof.
  cbv zeta. set (msgs := (fun n => client_new_cmd [n]) <$> bs "ABCDEF").
  assert (Hk : (5 <= length msgs)%nat) by (apply Nat.leb_le; reflexivity).
  assert (Hm : due 0 5 + Queue.from_secs 10 <= Queue.from_secs 1000) by (apply N.leb_le; reflexivity).
  destruct (default_schedule (A := ()) (L := ()) (Queue.from_secs 1000) 0 msgs 5 Hk Hm) as (q & H1 & _ & _ & H2).
  exists q. split; [exact H1|]. apply (H2 1); [apply Nat.ltb_lt; reflexivity|apply N.leb_le; reflexivity|apply N.ltb_lt; reflexivity].
Defined.
