(* ===== verification/Tls.v ===== *)
(** * TLS configuration

    [src/client/tls.rs]: from options to a configuration of [rustls]: which
    certificates are trusted and which one the client shows.  Files, what is in
    them, the system's certificates and what [rustls] makes of them are
    parameters; a configuration is what is handed to its builder. *)

From S2P Require Import Prelude Time Client.

Inductive Trust (Path : Type) := Only (l : list Path) | Default | Also (l : list Path) | NoVerify.
Arguments Only {Path} l.
Arguments Default {Path}.
Arguments Also {Path} l.
Arguments NoVerify {Path}.

Record TlsConfigOptions (Path : Type) := mkOptions { trust : Trust Path; cert : option Path }.
Arguments mkOptions {Path} trust cert.
Arguments trust {Path} _.
Arguments cert {Path} _.

(** The items of a PEM file. *)
Inductive Item (Certificate PrivateKey : Type) := X509Certificate (c : Certificate) | Pkcs8Key (k : PrivateKey) | OtherItem.
Arguments X509Certificate {Certificate PrivateKey} c.
Arguments Pkcs8Key {Certificate PrivateKey} k.
Arguments OtherItem {Certificate PrivateKey}.

(** ** [NoVerifier] *)

Record NoVerifier (Provider : Type) := mkNoVerifier { provider : Provider }.
Arguments mkNoVerifier {Provider} provider.
Arguments provider {Provider} _.

Section NoVerifier.
Context {Provider Certificate Signature Scheme E : Type} (supported_schemes : Provider -> list Scheme)
  (verify_tls12 verify_tls13 : list byte -> Certificate -> Signature -> Provider -> result () E).

(** Panics without a default provider. *)
Definition no_verifier (get_default : option Provider) : option (NoVerifier Provider) := mkNoVerifier <$> get_default.

Definition verify_server_cert (v : NoVerifier Provider) (end_entity : Certificate) (intermediates : list Certificate)
    (name ocsp : list byte) (time : N) : result () E := Ok ().

Definition verify_tls12_signature (v : NoVerifier Provider) (message : list byte) (c : Certificate) (dss : Signature) : result () E :=
  verify_tls12 message c dss (provider v).

(** Calls the function for TLS 1.2. *)
Definition verify_tls13_signature (v : NoVerifier Provider) (message : list byte) (c : Certificate) (dss : Signature) : result () E :=
  verify_tls12 message c dss (provider v).

Definition supported_verify_schemes (v : NoVerifier Provider) : list Scheme := supported_schemes (provider v).

(** A signature that is only good for TLS 1.2 passes in TLS 1.3. *)
Lemma tls13_like_tls12 v m c s :
  verify_tls12 m c s (provider v) = Ok () -> verify_tls13 m c s (provider v) <> Ok () ->
  verify_tls13_signature v m c s = Ok ().
Proof. done. Qed.
End NoVerifier.

(** ** [TlsConfigOptions] *)

Section Build.
Context {Path File Certificate PrivateKey Anchor Provider : Type}.

(** Files; the certificates of one and its items, where each may fail; the trust
    anchor of a certificate; the system's certificates, of which those that can
    be parsed are added; and whether a chain and a key fit each other. *)
Context (open : Path -> result File IoError) (certs_of : File -> list (result Certificate IoError))
  (items_of : File -> list (result (Item Certificate PrivateKey) IoError))
  (anchor : Certificate -> option Anchor) (native_certs : result (list Certificate) IoError)
  (add_parsable : list Anchor -> list Certificate -> list Anchor)
  (fits : list Certificate -> PrivateKey -> bool) (get_default : option Provider).

(** What the builder is given. *)
Inductive Verification := Unverified (v : NoVerifier Provider) | Roots (l : list Anchor).
Record TlsConfig := mkConfig { verification : Verification; client_auth : option (list Certificate * PrivateKey) }.

Fixpoint add_certs (l : list (result Certificate IoError)) (store : list Anchor) : result () IoError * list Anchor :=
  match l with
  | [] => (Ok (), store)
  | Err e :: _ => (Err e, store)
  | Ok c :: l =>
      match anchor c with
      | None => (Err (io_error InvalidData), store)
      | Some a => add_certs l (store ++ [a])
      end
  end.

Definition load_pem (path : Path) (store : list Anchor) : result () IoError * list Anchor :=
  match open path with Err e => (Err e, store) | Ok file => add_certs (certs_of file) store end.

Fixpoint read_items (l : list (result (Item Certificate PrivateKey) IoError)) (certs : list Certificate) (key : option PrivateKey)
    : result (list Certificate * option PrivateKey) IoError :=
  match l with
  | [] => Ok (certs, key)
  | Err e :: _ => Err e
  | Ok (X509Certificate c) :: l => read_items l (certs ++ [c]) key
  | Ok (Pkcs8Key k) :: l => read_items l certs (Some k)
  | Ok OtherItem :: l => read_items l certs key
  end.

Definition load_client_cert (path : Path) : result (list Certificate * PrivateKey) IoError :=
  let? file := open path in
  let? found := read_items (items_of file) [] None in
  match found.2 with Some k => Ok (found.1, k) | None => Err (io_error InvalidData) end.

Fixpoint load_pems (paths : list Path) (store : list Anchor) : result () IoError * list Anchor :=
  match paths with
  | [] => (Ok (), store)
  | path :: paths =>
      match load_pem path store with
      | (Ok _, store) => load_pems paths store
      | (Err e, store) => (Err e, store)
      end
  end.

(** [with_client_auth_cert] or [with_no_client_auth]. *)
Definition with_auth (v : Verification) (cli_auth : option (list Certificate * PrivateKey)) : result TlsConfig IoError :=
  match cli_auth with
  | Some (certs, key) => if fits certs key then Ok (mkConfig v cli_auth) else Err (io_error InvalidData)
  | None => Ok (mkConfig v None)
  end.

Definition build (o : TlsConfigOptions Path) : Outcome (result TlsConfig IoError) :=
  match match cert o with
        | Some path => match load_client_cert path with Ok a => Ok (Some a) | Err e => Err e end
        | None => Ok None
        end with
  | Err e => Done (Err e)
  | Ok cli_auth =>
      match trust o with
      | NoVerify =>
          match no_verifier get_default with
          | Some v => Done (with_auth (Unverified v) cli_auth)
          | None => Panic
          end
      | _ =>
          match match trust o with
                | Default | Also _ =>
                    match native_certs with Ok natives => Ok (add_parsable [] natives) | Err e => Err e end
                | _ => Ok []
                end with
          | Err e => Done (Err e)
          | Ok certs =>
              match match trust o with
                    | Only paths | Also paths => load_pems paths certs
                    | _ => (Ok (), certs)
                    end with
              | (Err e, _) => Done (Err e)
              | (Ok _, certs) => Done (with_auth (Roots certs) cli_auth)
              end
          end
      end
  end.

(** ** What is trusted *)

(** The anchors of a file, if all of it is good. *)
Definition anchors_of (path : Path) : result (list Anchor) IoError :=
  let? file := open path in
  (fix go l := match l with
   | [] => Ok []
   | Err e :: _ => Err e
   | Ok c :: l => match anchor c with
       | None => Err (io_error InvalidData)
       | Some a => let? r := go l in Ok (a :: r)
       end
   end) (certs_of file).

Fixpoint all_anchors (paths : list Path) : result (list Anchor) IoError :=
  match paths with
  | [] => Ok []
  | p :: paths => let? a := anchors_of p in let? r := all_anchors paths in Ok (a ++ r)
  end.

(** The trust anchors of the options. *)
Definition trusted (t : Trust Path) : result (list Anchor) IoError :=
  match t with
  | Only paths => all_anchors paths
  | Default => let? natives := native_certs in Ok (add_parsable [] natives)
  | Also paths => let? natives := native_certs in let? r := all_anchors paths in Ok (add_parsable [] natives ++ r)
  | NoVerify => Ok []
  end.

Lemma load_pem_spec path store :
  match anchors_of path with
  | Ok a => load_pem path store = (Ok (), store ++ a)
  | Err e => (load_pem path store).1 = Err e
  end.
Proof.
  unfold anchors_of, load_pem. destruct (open path) as [file|e]; [|done]. generalize (certs_of file) as l. intros l.
  revert store. induction l as [|[c|e] l IH]; intros store; cbn; [by rewrite app_nil_r| |done].
  destruct (anchor c) as [a|]; [|done]. specialize (IH (store ++ [a])).
  destruct (_ l) as [r|e]; [|done]. by rewrite IH, <- app_assoc.
Qed.

Lemma load_pems_spec paths store :
  match all_anchors paths with
  | Ok a => load_pems paths store = (Ok (), store ++ a)
  | Err e => (load_pems paths store).1 = Err e
  end.
Proof.
  revert store. induction paths as [|p paths IH]; intros store; cbn; [by rewrite app_nil_r|].
  pose proof (load_pem_spec p store) as Hp. destruct (anchors_of p) as [a|e].
  - rewrite Hp. specialize (IH (store ++ a)). destruct (all_anchors paths) as [r|e]; [|done]. by rewrite IH, <- app_assoc.
  - destruct (load_pem p store) as [r s]. cbn in Hp. by subst r.
Qed.

(** The certificates of a client file, and its keys. *)
Definition certs_in (l : list (Item Certificate PrivateKey)) : list Certificate :=
  omap (fun i => match i with X509Certificate c => Some c | _ => None end) l.
Definition keys_in (l : list (Item Certificate PrivateKey)) : list PrivateKey :=
  omap (fun i => match i with Pkcs8Key k => Some k | _ => None end) l.

Lemma read_items_spec items certs key :
  read_items (Ok <$> items) certs key =
    Ok (certs ++ certs_in items, match last (keys_in items) with Some k => Some k | None => key end).
Proof.
  revert certs key. induction items as [|[c|k|] items IH]; intros certs key; cbn [fmap list_fmap read_items]; [|rewrite IH..].
  - by rewrite app_nil_r.
  - by rewrite <- app_assoc.
  - change (keys_in (Pkcs8Key k :: items)) with (k :: keys_in items). rewrite last_cons. by destruct (last (keys_in items)).
  - done.
Qed.

(** What the client shows, or why there is no configuration. *)
Definition shows (o : TlsConfigOptions Path) (c : TlsConfig) : Prop :=
  match client_auth c with
  | Some (certs, key) => fits certs key = true /\ exists path, cert o = Some path /\ load_client_cert path = Ok (certs, key)
  | None => cert o = None
  end.
Definition misfit (o : TlsConfigOptions Path) (e : IoError) : Prop :=
  e = io_error InvalidData /\ exists path certs key, cert o = Some path /\ load_client_cert path = Ok (certs, key) /\ fits certs key = false.

Lemma with_auth_spec (o : TlsConfigOptions Path) v a :
  match a with
  | Some (certs, key) => exists path, cert o = Some path /\ load_client_cert path = Ok (certs, key)
  | None => cert o = None
  end ->
  match with_auth v a with
  | Ok c => verification c = v /\ shows o c
  | Err e => misfit o e
  end.
Proof.
  unfold with_auth, shows, misfit. destruct a as [[certs key]|]; [|done]. intros (path & Hc & Hl).
  destruct (fits certs key) eqn:Hf; cbn; [|by eauto 8]. split; [done|]. split; [done|]. by exists path.
Qed.

(** A configuration trusts exactly what the options say: nothing is verified
    only if the options ask for it, else the anchors are those of the named
    files, of the system, or of both in this order, and a single bad file or
    certificate makes for an error.  The client shows the certificates of its
    file in order with the last key there, or nothing. *)
Theorem build_correct (o : TlsConfigOptions Path) :
  match build o with
  | Panic => trust o = NoVerify /\ get_default = None
  | OutOfFuel => False
  | Done (Ok c) =>
      match verification c with
      | Unverified _ => trust o = NoVerify
      | Roots l => trust o <> NoVerify /\ trusted (trust o) = Ok l
      end /\ shows o c
  | Done (Err e) =>
      (exists path, cert o = Some path /\ load_client_cert path = Err e) \/ trusted (trust o) = Err e \/ misfit o e
  end.
Proof.
  unfold build. set (auth := match cert o with Some _ => _ | None => _ end).
  assert (Ha : match auth with
    | Ok (Some (certs, key)) => exists path, cert o = Some path /\ load_client_cert path = Ok (certs, key)
    | Ok None => cert o = None
    | Err e => exists path, cert o = Some path /\ load_client_cert path = Err e
    end).
  { unfold auth. destruct (cert o) as [path|]; [|done]. destruct (load_client_cert path) as [[certs key]|e] eqn:Hl; by exists path. }
  destruct auth as [a|e]; [|by left]. pose proof (fun v => with_auth_spec o v a Ha) as Hw.
  assert (Hroots : trust o <> NoVerify -> forall l, trusted (trust o) = Ok l -> match with_auth (Roots l) a with
    | Ok c => match verification c with Unverified _ => trust o = NoVerify | Roots l => trust o <> NoVerify /\ trusted (trust o) = Ok l end /\ shows o c
    | Err e => misfit o e
    end).
  { intros Hn l Hl. specialize (Hw (Roots l)). destruct (with_auth _ a) as [c|e]; [|done]. destruct Hw as [-> Hc]. done. }
  destruct (trust o) as [paths| |paths|] eqn:Ht; cbn [trusted] in *.
  - pose proof (load_pems_spec paths []) as Hp. destruct (all_anchors paths) as [l|e]; [rewrite Hp|].
    + specialize (Hroots ltac:(done) l eq_refl). cbn [app]. destruct (with_auth (Roots l) a); [done|]. by right; right.
    + destruct (load_pems paths []) as [r s]. cbn in Hp. subst r. by right; left.
  - destruct native_certs as [natives|e]; [|by right; left]. specialize (Hroots ltac:(done) _ eq_refl).
    destruct (with_auth _ a); [done|]. by right; right.
  - destruct native_certs as [natives|e]; [|by right; left]. pose proof (load_pems_spec paths (add_parsable [] natives)) as Hp.
    destruct (all_anchors paths) as [l|e]; [rewrite Hp|].
    + specialize (Hroots ltac:(done) _ eq_refl). destruct (with_auth _ a); [done|]. by right; right.
    + destruct (load_pems paths _) as [r s]. cbn in Hp. subst r. by right; left.
  - unfold no_verifier. destruct get_default as [p|]; cbn; [|done]. specialize (Hw (Unverified (mkNoVerifier p))).
    destruct (with_auth _ a) as [c|e]; [destruct Hw as [-> Hc]; done|]. by right; right.
Qed.
End Build.
