(* ===== verification/Boxed.v ===== *)
(** * Boxed handlers

    The rest of [src/client/handler.rs] and the ways to add a handler of
    [src/client/logic.rs] and [src/client.rs]: the trait of handlers, the
    closures [box_handler] makes of a handler and its sender, the traits that
    make handlers, and the handlers of the library with their implementations.
    Senders share a heap with their receivers, as in [Channels.v]. *)

From S2P Require Import Prelude Handlers Channels Args Tags Numeric Source Ctcp Strings Splitter Msg Names Sink Client.
From S2P Require FlatMap Queue State Replies Register Auth Nick Base64 ClientThms Time.

(** ** Traits *)

Section Traits.
Context {A Lb W : Type}.
Abbreviation Guard := (Queue.QueueEditGuard A Lb).
Abbreviation Queue := (Queue.Queue A Lb).

(** [SenderRef] to a boxed sender. *)
Abbreviation Ref T := (SenderRef (DynSender W T * W)).

(** [client::Handler]; [None] is a panic. *)
Class Handler (H T : Type) := {
  hhandle : H -> ServerMsg -> State.ClientState -> Guard -> Ref T ->
    option (ControlFlow () * (H * State.ClientState * Guard * Ref T));
  hwants_owning : H -> bool;
}.

(** The closure [box_handler] makes, called by the table, which drops it at once
    when it is done; its environment is the handler and its sender. *)
Definition call_closure {H T} {trait : Handler H T} (b : H * DynSender W T) (msg : ServerMsg) (st : State.ClientState * W) (queue : Queue)
    : option (HandlerStatus * (H * DynSender W T) * (State.ClientState * W) * Queue) :=
  match Handlers.box_handler hhandle hwants_owning (b.1, (b.2, st.2)) msg st.1 (Queue.edit queue) with
  | Some (status, (h, (s, w)), state, g) =>
      let w := match status with Keep _ _ => w | Handlers.Done _ => dyn_drop s w end in
      Some (status, (h, s), (state, w), Queue.gqueue g)
  | None => None
  end.

(** Which channel [make_channel] asks the spec for, if any. *)
Inductive ChannelKind := KOneshot | KQueue | KClosed.

(** [MakeHandler]: a handler of type [H] from a value of type [V]; [None] is a
    panic. *)
Class MakeHandler (M V H E : Type) := {
  make_handler : M -> State.ClientState -> Guard -> V -> option (result H E * Guard);
  channel_kind : ChannelKind;
}.

(** [SelfMadeHandler]. *)
Class SelfMadeHandler (H : Type) := {
  queue_msgs : H -> State.ClientState -> Guard -> Guard;
  self_kind : ChannelKind;
}.

(** [MakeHandler] for [()]. *)
Definition self_made {H} `{SelfMadeHandler H} : MakeHandler () H H Empty_set := {|
  make_handler _ state queue handler := Some (Ok handler, queue_msgs handler state queue);
  channel_kind := self_kind;
|}.
#[export] Existing Instance self_made.
End Traits.
Arguments Handler A Lb W H T : clear implicits.
Arguments MakeHandler A Lb M V H E : clear implicits.
Arguments SelfMadeHandler A Lb H : clear implicits.

(** [NoHandler]. *)
Inductive NoHandler := no_handler.
Definition no_handler_fmt (_ : NoHandler) : list byte := bs "handler intentionally not created".

(** ** The handlers of the library *)

Inductive YieldAll := yield_all_messages.
Inductive AutoPong := auto_pong.
Inductive TrackClientSource := track_client_source.

(** [Ping]: when it was made, and what [Instant::now] will return to it, call by
    call. *)
Record Ping := mkPing { pinged : N; reads : nat; readings : nat -> N }.

(** [AUTHENTICATE], the name of the command. *)
Inductive AUTHENTICATE := authenticate.

Section Library.
Context {A : Type} `{Queue.Adjuster A} {Lb W : Type} (mangle : N -> N) (type_id : State.ClientStateKey -> N).
Abbreviation Ref T := (SenderRef (DynSender W T * W)).

Definition yield_all_handler : Handler A Lb W YieldAll ServerMsg := {|
  hhandle h msg st g sr := let (cf, sr) := Replies.yield_all msg sr in Some (cf, (h, st, g, sr));
  hwants_owning _ := true;
|}.
#[export] Existing Instance yield_all_handler.
Definition yield_all_made : SelfMadeHandler A Lb YieldAll := {| queue_msgs _ _ g := g; self_kind := KQueue |}.
#[export] Existing Instance yield_all_made.

Definition yield_parsed_handler {T} : Handler A Lb W (Replies.YieldParsed (S := DynSender W T * W)) T := {|
  hhandle h msg st g sr := let (cf, sr) := Replies.yield_parsed h msg sr in Some (cf, (h, st, g, sr));
  hwants_owning _ := true;
|}.
#[export] Existing Instance yield_parsed_handler.
Definition yield_parsed_made {T} : SelfMadeHandler A Lb (Replies.YieldParsed (S := DynSender W T * W)) :=
  {| queue_msgs _ _ g := g; self_kind := KQueue |}.

Definition auto_pong_handler : Handler A Lb W AutoPong () := {|
  hhandle h msg st g sr := let (cf, g) := Replies.auto_pong msg g in Some (cf, (h, st, g, sr));
  hwants_owning _ := false;
|}.
#[export] Existing Instance auto_pong_handler.
Definition auto_pong_made : SelfMadeHandler A Lb AutoPong := {| queue_msgs _ _ g := g; self_kind := KClosed |}.
#[export] Existing Instance auto_pong_made.

Definition ctcp_version_handler : Handler A Lb W Replies.CtcpVersion () := {|
  hhandle h msg st g sr := let (cf, g) := Replies.ctcp_handle h msg g in Some (cf, (h, st, g, sr));
  hwants_owning _ := false;
|}.
#[export] Existing Instance ctcp_version_handler.
Definition ctcp_version_made : SelfMadeHandler A Lb Replies.CtcpVersion := {| queue_msgs _ _ g := g; self_kind := KClosed |}.
#[export] Existing Instance ctcp_version_made.

Definition ping_handler : Handler A Lb W Ping (option Source * N) := {|
  hhandle h msg st g sr :=
    match Replies.ping_handle mangle (pinged h) (readings h (reads h)) msg sr with
    | Some (cf, sr) => Some (cf, (mkPing (pinged h) (S (reads h)) (readings h), st, g, sr))
    | None => None
    end;
  hwants_owning _ := false;
|}.
Definition ping_made : SelfMadeHandler A Lb Ping := {|
  queue_msgs h _ g := Replies.ping_queue_msgs mangle (pinged h) g;
  self_kind := KOneshot;
|}.

Definition track_handler : Handler A Lb W TrackClientSource () := {|
  hhandle h msg st g sr := let (cf, st) := Replies.track_handle type_id msg st in Some (cf, (h, st, g, sr));
  hwants_owning _ := false;
|}.
Definition track_made : SelfMadeHandler A Lb TrackClientSource := {|
  queue_msgs _ st g := Replies.track_queue_msgs type_id st g;
  self_kind := KClosed;
|}.

Context {L : Type} `{Auth.SaslLogic L} {E : Type} `{Base64.Engine E} {I : Type} `{Nick.NickIterator I}.

(** [Register]'s, with a [Register<O>] and its options. *)
Definition register_handler : Handler A Lb W (Register.Handler L I) (result () Register.HandlerError) := {|
  hhandle h msg st g sr :=
    match Register.client_handle type_id msg h st g sr with
    | Some (cf, h, st, g, sr) => Some (cf, (h, st, g, sr))
    | None => None
    end;
  hwants_owning := Register.wants_owning;
|}.
Definition register_made {O} : MakeHandler A Lb (Register.Register L I O) O (Register.Handler L I) Empty_set := {|
  make_handler self _ queue opts :=
    match Register.handler self opts queue with
    | Some (h, queue) => Some (Ok h, queue)
    | None => None
    end;
  channel_kind := KOneshot;
|}.
#[export] Existing Instance register_made.

(** The authenticators', with a queue of them or with one. *)
Definition auth_handler : Handler A Lb W (Auth.Handler L) (result () Auth.HandlerError) := {|
  hhandle h msg st g sr :=
    match Auth.client_handle msg h g sr with
    | Some (cf, h, g, sr) => Some (cf, (h, st, g, sr))
    | None => None
    end;
  hwants_owning _ := false;
|}.
#[export] Existing Instance auth_handler.
Definition auth_made : MakeHandler A Lb AUTHENTICATE (Auth.SaslQueue L) (Auth.Handler L) NoHandler := {|
  make_handler _ _ queue sasl_queue :=
    match Auth.make_handler queue sasl_queue with
    | Some (h, queue) => Some (Ok h, queue)
    | None => Some (Err no_handler, queue)
    end;
  channel_kind := KOneshot;
|}.
#[export] Existing Instance auth_made.
Definition auth_sasl_made {C} `{Auth.Sasl C L} : MakeHandler A Lb AUTHENTICATE C (Auth.Handler L) NoHandler := {|
  make_handler _ _ queue sasl :=
    match Auth.make_handler_sasl queue sasl with
    | Some (h, queue) => Some (Ok h, queue)
    | None => Some (Err no_handler, queue)
    end;
  channel_kind := KOneshot;
|}.
End Library.

(** ** Boxes *)

Section Boxed.
Context {A : Type} `{Queue.Adjuster A} {Lb W : Type} (mangle : N -> N) (type_id : State.ClientStateKey -> N).
Context {L : Type} `{Auth.SaslLogic L} {E : Type} `{Base64.Engine E} {I : Type} `{Nick.NickIterator I}.
Abbreviation Queue := (Queue.Queue A Lb).

(** Handlers of the program's own, which yield values of type [T]. *)
Context {U T : Type} `{Handler A Lb W U T}.

(** [BoxHandler]: the environments of the closures there are. *)
Inductive BoxHandler :=
| BRegister (b : Register.Handler L I * DynSender W (result () Register.HandlerError))
| BAuth (b : Auth.Handler L * DynSender W (result () Auth.HandlerError))
| BYieldAll (b : YieldAll * DynSender W ServerMsg)
| BPing (b : Ping * DynSender W (option Source * N))
| BAutoPong (b : AutoPong * DynSender W ())
| BCtcpVersion (b : Replies.CtcpVersion * DynSender W ())
| BTrack (b : TrackClientSource * DynSender W ())
| BUser (b : U * DynSender W T).

Definition rebox {X} (box : X -> BoxHandler) (r : option (HandlerStatus * X * (State.ClientState * W) * Queue))
    : option (HandlerStatus * BoxHandler * (State.ClientState * W) * Queue) :=
  match r with
  | Some (status, b, st, queue) => Some (status, box b, st, queue)
  | None => None
  end.

Definition call (b : BoxHandler) (msg : ServerMsg) (st : State.ClientState * W) (queue : Queue)
    : option (HandlerStatus * BoxHandler * (State.ClientState * W) * Queue) :=
  match b with
  | BRegister b => rebox BRegister (call_closure (trait := register_handler type_id) b msg st queue)
  | BAuth b => rebox BAuth (call_closure b msg st queue)
  | BYieldAll b => rebox BYieldAll (call_closure b msg st queue)
  | BPing b => rebox BPing (call_closure (trait := ping_handler mangle) b msg st queue)
  | BAutoPong b => rebox BAutoPong (call_closure b msg st queue)
  | BCtcpVersion b => rebox BCtcpVersion (call_closure b msg st queue)
  | BTrack b => rebox BTrack (call_closure (trait := track_handler type_id) b msg st queue)
  | BUser b => rebox BUser (call_closure b msg st queue)
  end.

(** Dropping a box drops the sender in it. *)
Definition drop_box (b : BoxHandler) (w : W) : W :=
  match b with
  | BRegister b => dyn_drop b.2 w
  | BAuth b => dyn_drop b.2 w
  | BYieldAll b => dyn_drop b.2 w
  | BPing b => dyn_drop b.2 w
  | BAutoPong b => dyn_drop b.2 w
  | BCtcpVersion b => dyn_drop b.2 w
  | BTrack b => dyn_drop b.2 w
  | BUser b => dyn_drop b.2 w
  end.

(** What can be put in a box. *)
Class Boxes (H T : Type) := {
  boxes_handler : Handler A Lb W H T;
  box : H * DynSender W T -> BoxHandler;
  box_call b msg st queue : call (box b) msg st queue = rebox box (call_closure (trait := boxes_handler) b msg st queue);
  box_drop b w : drop_box (box b) w = dyn_drop b.2 w;
}.

#[export] Program Instance boxes_register : Boxes (Register.Handler L I) (result () Register.HandlerError) :=
  {| boxes_handler := register_handler type_id; box := BRegister |}.
Solve Obligations with done.
#[export] Program Instance boxes_auth : Boxes (Auth.Handler L) (result () Auth.HandlerError) := {| box := BAuth |}.
Solve Obligations with done.
#[export] Program Instance boxes_yield_all : Boxes YieldAll ServerMsg := {| box := BYieldAll |}.
Solve Obligations with done.
#[export] Program Instance boxes_ping : Boxes Ping (option Source * N) := {| boxes_handler := ping_handler mangle; box := BPing |}.
Solve Obligations with done.
#[export] Program Instance boxes_auto_pong : Boxes AutoPong () := {| box := BAutoPong |}.
Solve Obligations with done.
#[export] Program Instance boxes_ctcp_version : Boxes Replies.CtcpVersion () := {| box := BCtcpVersion |}.
Solve Obligations with done.
#[export] Program Instance boxes_track : Boxes TrackClientSource () := {| boxes_handler := track_handler type_id; box := BTrack |}.
Solve Obligations with done.
#[export] Program Instance boxes_user : Boxes U T := {| box := BUser |}.
Solve Obligations with done.

(** Anything but a [PING] passes [AutoPong]. *)
Lemma auto_pong_passes msg (snd : DynSender W ()) : Replies.is_cmd msg (bs "PING") = false -> Handlers.passes call msg (BAutoPong (auto_pong, snd)).
Proof.
  intros Hm [st w] q. exists false. cbn [call]. unfold call_closure, Handlers.box_handler. cbn [hhandle auto_pong_handler].
  unfold Replies.auto_pong, Replies.pong. rewrite Hm. by destruct q.
Qed.

(** ** Adding handlers *)

Section Add.
Context {V R M X Hd : Type} `{Boxes Hd R} `{MakeHandler A Lb M V Hd X}.
Abbreviation Logic := (ClientLogic A Lb BoxHandler W).

(** [ClientLogic::add_with_sender]; with an error the sender is dropped. *)
Definition add_with_sender (sender : DynSender W R) (mk : M) (value : V) (l : Logic) : option (result nat X * Logic) :=
  match make_handler mk (lstate l) (Queue.edit (lqueue l)) value with
  | None => None
  | Some (r, g) =>
      let l := with_queue (Queue.gqueue g) l in
      match r with
      | Ok handler =>
          let (id, hs) := Handlers.add (lhandlers l) (box (handler, sender)) (hwants_owning (H := Hd) (Handler := boxes_handler) handler) in
          Some (Ok id, with_handlers hs l)
      | Err e => Some (Err e, with_heap (dyn_drop sender (heap l)) l)
      end
  end.

(** [Client::add_with_sender]. *)
Definition client_add_with_sender {F C Sp} (sender : DynSender W R) (mk : M) (value : V) (c : Client A Lb BoxHandler W F C Sp)
    : option (result nat X * Client A Lb BoxHandler W F C Sp) :=
  match add_with_sender sender mk value (logic c) with
  | Some (r, l) => Some (r, client_with_logic l c)
  | None => None
  end.
End Add.
End Boxed.
Arguments BoxHandler W L I U T : clear implicits.

(** ** With channels *)

Section AddSpec.
Context {A : Type} `{Queue.Adjuster A} {Lb X O Q : Type} `{Tokio X O Q}.
Abbreviation Heap := (list (Cell X O Q)).
Context (mangle : N -> N) (type_id : State.ClientStateKey -> N).
Context {L : Type} `{Auth.SaslLogic L} {E : Type} `{Base64.Engine E} {I : Type} `{Nick.NickIterator I}.
Context {U T : Type} `{Handler A Lb Heap U T}.
Abbreviation Box := (BoxHandler Heap L I U T).
Abbreviation Logic := (ClientLogic A Lb Box Heap).

(** [make_channel]: a closed sender has no receiver. *)
Definition make_channel {S R} `{ChannelSpec X O Q S} `{Value X R} (spec : S) (k : ChannelKind) (w : Heap)
    : DynSender Heap R * option nat * Heap :=
  match k with
  | KOneshot => let '(s, a, w) := new_oneshot spec w in (s, Some a, w)
  | KQueue => let '(s, a, w) := new_queue spec w in (s, Some a, w)
  | KClosed => (dyn_closed, None, w)
  end.

Context {V R M Y Hd : Type} `{!Boxes (A := A) (Lb := Lb) (W := Heap) (L := L) (I := I) (U := U) (T := T) mangle type_id Hd R}
  `{MakeHandler A Lb M V Hd Y} `{Value X R}.

(** [ClientLogic::add_with_spec]. *)
Definition logic_add {S} `{ChannelSpec X O Q S} (spec : S) (mk : M) (value : V) (l : Logic)
    : option (result (nat * option nat) Y * Logic) :=
  let '(sender, recv, w) := make_channel spec (channel_kind (MakeHandler := _ : MakeHandler A Lb M V Hd Y)) (heap l) in
  match add_with_sender mangle type_id sender mk value (with_heap w l) with
  | Some (Ok id, l) => Some (Ok (id, recv), l)
  | Some (Err e, l) => Some (Err e, l)
  | None => None
  end.

Context {F C Sp : Type} `{ChannelSpec X O Q Sp}.
Abbreviation Client := (Client A Lb Box Heap F C Sp).

(** [Client::add_with_spec], and [Client::add], which uses the client's own. *)
Definition add_with_spec {S} `{ChannelSpec X O Q S} (spec : S) (mk : M) (value : V) (c : Client)
    : option (result (nat * option nat) Y * Client) :=
  match logic_add spec mk value (logic c) with
  | Some (r, l) => Some (r, client_with_logic l c)
  | None => None
  end.
Definition add (mk : M) (value : V) (c : Client) : option (result (nat * option nat) Y * Client) :=
  add_with_spec (spec c) mk value c.

(** The channel of a kind, if it has one. *)
Definition kind_cell {S} `{ChannelSpec X O Q S} (spec : S) (k : ChannelKind) : option (Cell X O Q) :=
  match k with
  | KOneshot => Some (new_oneshot_cell spec)
  | KQueue => Some (new_queue_cell spec)
  | KClosed => None
  end.
Definition kind_sender (k : ChannelKind) (w : Heap) : DynSender Heap R :=
  match k with KClosed => dyn_closed | _ => sender_at (length w) end.
Definition kind_recv (k : ChannelKind) (w : Heap) : option nat :=
  match k with KClosed => None | _ => Some (length w) end.

Lemma make_channel_spec {S} `{ChannelSpec X O Q S} (spec : S) k w :
  make_channel spec k w = (kind_sender k w, kind_recv k w, w ++ option_list (kind_cell spec k)).
Proof. destruct k; cbn; by rewrite ?app_nil_r. Qed.

Lemma logic_add_spec {S} `{ChannelSpec X O Q S} (spec : S) (mk : M) (value : V) (l : Logic) :
  Handlers.ids_wf (lhandlers l) ->
  let k := channel_kind (MakeHandler := _ : MakeHandler A Lb M V Hd Y) in
  let new := option_list (kind_cell spec k) in
  match make_handler mk (lstate l) (Queue.edit (lqueue l)) value with
  | None => logic_add spec mk value l = None
  | Some (Ok h, g) =>
      exists id hs, logic_add spec mk value l =
        Some (Ok (id, kind_recv k (heap l)), mkLogic (timeout l) (Queue.gqueue g) (lstate l) hs (heap l ++ new)) /\
        Handlers.handlers hs = Handlers.handlers (lhandlers l) ++ [(box mangle type_id (h, kind_sender k (heap l)), id)] /\
        (id ∉ (Handlers.handlers (lhandlers l)).*2) /\ Handlers.ids_wf hs /\
        Handlers.wants_owning hs = Handlers.wants_owning (lhandlers l) || hwants_owning (Handler := boxes_handler mangle type_id) h
  | Some (Err e, g) =>
      logic_add spec mk value l =
        Some (Err e, mkLogic (timeout l) (Queue.gqueue g) (lstate l) (lhandlers l) (heap l ++ (cell_drop <$> new)))
  end.
Proof.
  intros Hids k new. unfold logic_add. fold k. rewrite make_channel_spec. fold new. unfold add_with_sender. cbn [lstate lqueue with_heap].
  destruct (make_handler _ _ _ _) as [[[h|e] g]|]; [| |done].
  - cbn [with_queue lhandlers with_heap]. pose proof (Handlers.add_spec (lhandlers l)
      (box mangle type_id (h, kind_sender k (heap l))) (hwants_owning (Handler := boxes_handler mangle type_id) h) Hids) as Ha.
    assert (Hw : Handlers.wants_owning (Handlers.add (lhandlers l) (box mangle type_id (h, kind_sender k (heap l)))
      (hwants_owning (Handler := boxes_handler mangle type_id) h)).2 =
      Handlers.wants_owning (lhandlers l) || hwants_owning (Handler := boxes_handler mangle type_id) h).
    { unfold Handlers.add. by destruct (last (Handlers.finished (lhandlers l))). }
    destruct (Handlers.add _ _ _) as [id hs]. destruct Ha as (K1 & K2 & K3). exists id, hs. done.
  - do 2 f_equal. unfold with_heap, with_queue. cbn [heap timeout lstate lhandlers lqueue]. f_equal.
    unfold new. destruct k; [apply drop_last..|]. cbn. by rewrite !app_nil_r.
Qed.

(** C15: A handler is added behind those there are, under an id none of them has,
    with the sender of a channel of its own, whose receiver is what the caller
    gets; the messages it starts with are queued, and nothing else changes.  If
    it cannot be made, the table stays as it is and the channel is closed. *)
Theorem add_correct {S} `{ChannelSpec X O Q S} (spec : S) (mk : M) (value : V) (l : Logic) :
  Handlers.ids_wf (lhandlers l) ->
  let k := channel_kind (MakeHandler := _ : MakeHandler A Lb M V Hd Y) in
  let new := option_list (kind_cell spec k) in
  match make_handler mk (lstate l) (Queue.edit (lqueue l)) value with
  | None => logic_add spec mk value l = None
  | Some (Ok h, g) =>
      exists id hs, logic_add spec mk value l =
        Some (Ok (id, kind_recv k (heap l)), mkLogic (timeout l) (Queue.gqueue g) (lstate l) hs (heap l ++ new)) /\
        Handlers.handlers hs = Handlers.handlers (lhandlers l) ++ [(box mangle type_id (h, kind_sender k (heap l)), id)] /\
        (id ∉ (Handlers.handlers (lhandlers l)).*2) /\ Handlers.ids_wf hs /\
        Handlers.wants_owning hs = Handlers.wants_owning (lhandlers l) || hwants_owning (Handler := boxes_handler mangle type_id) h
  | Some (Err e, g) =>
      logic_add spec mk value l =
        Some (Err e, mkLogic (timeout l) (Queue.gqueue g) (lstate l) (lhandlers l) (heap l ++ (cell_drop <$> new)))
  end.
Proof. apply logic_add_spec. Qed.
End AddSpec.

(** ** Witnesses *)

#[local] Existing Instances Base64.pair_engine ClientThms.no_adjuster Nick.vec_iter.

(** Channels of [tokio] that keep everything. *)
#[local] Instance sample_tokio : Tokio ServerMsg (list ServerMsg) (list ServerMsg) := {|
  oneshot_channel := [];
  oneshot_send v c := (true, c ++ [v]);
  oneshot_drop c := c;
  unbounded_channel := [];
  unbounded_send v c := (true, c ++ [v]);
  unbounded_drop c := c;
  upgrade _ := true;
|}.
#[local] Program Instance sample_value : Value ServerMsg ServerMsg := {| into v := v; from := Some |}.
Next Obligation. done. Qed.
#[local] Instance no_user_handler : Handler () N (list (Cell ServerMsg (list ServerMsg) (list ServerMsg))) Empty_set () := {|
  hhandle (h : Empty_set) := match h with end;
  hwants_owning (h : Empty_set) := match h with end;
|}.

(** A [YieldAll] is added to an empty client. *)
Lemma add_correct_witness :
  exists hs l, logic_add (A := ()) (Lb := N) (U := Empty_set) (T := ()) (L := Auth.Logic) (I := list (list byte)) (R := ServerMsg) (Hd := YieldAll)
      (fun n => n) State.sample_type_id sync_channels () yield_all_messages (logic_new 0 []) = Some (Ok (0, Some 0), l) /\
    l = mkLogic Time.limits_default (lqueue (logic_new (Lb := N) 0 [] : ClientLogic () N nat (list nat))) State.new hs [SyncQueue (mkMpsc true []) true] /\
    Handlers.wants_owning hs = true.
Proof.
  destruct (add_correct (A := ()) (Lb := N) (U := Empty_set) (T := ()) (L := Auth.Logic) (I := list (list byte)) (R := ServerMsg) (Hd := YieldAll)
    (fun n => n) State.sample_type_id sync_channels () yield_all_messages (logic_new 0 []) (Permutation_refl _)) as (id & hs & K1 & K2 & K3 & _ & K5).
  exists hs. eexists. assert (id = 0) as -> by (vm_compute in K1; injection K1 as <-; reflexivity).
  split; [exact K1|]. split; [reflexivity|exact K5].
Defined.
