(* ===== verification/Script.v ===== *)
(** * A server that keeps to a script

    How to reason about [run] as a whole: what the server sends is given line by
    line, a predicate says what the client is like after each of them, and
    [run], whatever the connection does in between, gets from line to line. *)

From S2P Require Import Prelude Args Tags Numeric Source Strings Splitter Msg Time Client Link ClientThms.
From S2P Require Handlers State Queue Codec.

(** A line and the message it is. *)
Definition script_line (lm : list byte * ServerMsg) : Prop :=
  valid Line lm.1 /\ lm.1 <> [] /\ length lm.1 + 2 <= Codec.SERVER_MAX_LEN /\ server_parse lm.1 = Some (Ok lm.2).

(** What the lines are on the wire. *)
Definition script_wire (s : list (list byte * ServerMsg)) : list byte := concat ((fun lm => lm.1 ++ Codec.CRLF) <$> s).

Section Script.
Context {A : Type} `{Queue.Adjuster A} {Lb : Type} {B W : Type} {F : Type} {C : Type} {Sp : Type}
  `{ConnectionOk C} (instant_max : N).
Abbreviation Queue := (Queue.Queue A Lb).
Abbreviation Logic := (ClientLogic A Lb B W).
Abbreviation Client := (Client A Lb B W F C Sp).
Context (call : B -> ServerMsg -> State.ClientState * W -> Queue -> option (Handlers.HandlerStatus * B * (State.ClientState * W) * Queue)).
Context (timeout_fn : F -> Logic -> Handlers.ControlFlow () * F * Logic).
#[local] Abbreviation run := (run instant_max call timeout_fn).

Context (script : list (list byte * ServerMsg)) (tail : list byte).

(** The rate limit: what handlers leave alone of a queue. *)
Definition rate (q : Queue) : N * N * N := (Queue.delay q, Queue.sub q, Queue.timepoint q).

(** What holds between the lines, with the number of those handled, the client's
    logic and what it has sent; and what holds when a handler has results.  Both
    are to survive sending, and a message is to lead from one to the next. *)
Record Protocol := mkProtocol {
  between : nat -> Logic -> list byte -> Prop;
  finally : nat -> Logic -> list byte -> list nat * list nat -> Prop;
  between_send k l o q' popped : between k l o ->
    Queue.queue (lqueue l) = popped ++ Queue.queue q' -> same_settings (lqueue l) q' ->
    between k (with_queue q' l) (o ++ wire popped);
  between_limits k l o t : between k l o -> between k (with_timeout t l) o;
  between_busy k l o : between k l o -> Handlers.is_empty (lhandlers l) = false;
  between_end l o : ~ between (length script) l o;
  between_step k l o lm : between k l o -> script !! k = Some lm ->
    exists n l', run_once call lm.2 l = Some (n, l') /\ rate (lqueue l') = rate (lqueue l) /\
      if Handlers.has_results (lhandlers l') n
      then exists res, Handlers.last_run_results (lhandlers l') n = Some res /\ finally (S k) l' o res
      else between (S k) l' o;
  finally_send k l o q' popped res : finally k l o res ->
    Queue.queue (lqueue l) = popped ++ Queue.queue q' -> same_settings (lqueue l) q' ->
    finally k (with_queue q' l) (o ++ wire popped) res;
}.
Context (p : Protocol).

(** What is still to come of the script: the rest of a line, of which some may be
    in the buffer, and the lines after it. *)
Definition coming_from (k : nat) (buf : list byte) (s : list byte) : Prop :=
  exists lm q, script !! k = Some lm /\ s = q ++ script_wire (drop (S k) script) ++ tail /\
    buf ++ q = lm.1 ++ Codec.CRLF /\ q <> [].

Definition in_script (cl : Client) : Prop :=
  buf_o (cconn cl) = [] /\ on_timeout cl = None /\
  exists k, between p k (logic cl) (sent (io (cconn cl))) /\ coming_from k (buf_i (cconn cl)) (stream (io (cconn cl))).

Lemma coming_from_start k lm :
  script !! k = Some lm -> coming_from k [] (script_wire (drop k script) ++ tail).
Proof.
  intros Hk. exists lm, (lm.1 ++ Codec.CRLF). split; [done|]. split.
  - rewrite (drop_S _ _ _ Hk). unfold script_wire. cbn [fmap list_fmap concat]. by rewrite <- !app_assoc.
  - split; [done|]. by destruct lm.1.
Qed.

(** How [run] may return from the middle of a script. *)
Definition script_result (r : result (option (list nat * list nat)) IoError) (cl' : Client) : Prop :=
  match r with
  | Ok (Some res) =>
      buf_o (cconn cl') = [] /\ buf_i (cconn cl') = [] /\ on_timeout cl' = None /\
      exists k, k <= length script /\ finally p k (logic cl') (sent (io (cconn cl'))) res /\
        stream (io (cconn cl')) = script_wire (drop k script) ++ tail
  | Ok None => in_script cl'
  | Err _ => True
  end.

Lemma flush_between k (cl : Client) r cl1 :
  buf_o (cconn cl) = [] -> between p k (logic cl) (sent (io (cconn cl))) ->
  flush_partial instant_max cl = Done (Ok r, cl1) ->
  buf_o (cconn cl1) = [] /\ buf_i (cconn cl1) = buf_i (cconn cl) /\ on_timeout cl1 = on_timeout cl /\
  between p k (logic cl1) (sent (io (cconn cl1))) /\ stream (io (cconn cl1)) = stream (io (cconn cl)).
Proof.
  intros Hb HP Hf. pose proof (flush_partial_spec instant_max cl Hb) as Hs. cbv zeta in Hs. rewrite Hf in Hs.
  destruct Hs as (Hb1 & Hi & _ & Ho & Hl & Hset & popped & Hq & _ & Hse & Hst & _).
  split; [done|]. split; [done|]. split; [done|]. split; [|done]. rewrite Hl, Hse. by eapply between_send.
Qed.

(** A message of the script: [run] goes on behind it or returns its results. *)
Lemma received_script again k (cl cl' : Client) lm r :
  (forall cl2, in_script cl2 -> again cl2 = Done (r, cl') -> script_result r cl') ->
  buf_o (cconn cl) = [] -> on_timeout cl = None -> between p k (logic cl) (sent (io (cconn cl))) ->
  script !! k = Some lm -> stream (io (cconn cl)) = script_wire (drop (S k) script) ++ tail ->
  received call again (flush_partial instant_max) lm.2 cl = Done (r, cl') -> script_result r cl'.
Proof.
  intros Hnext Hb Ho HP Hk Hst. unfold received. destruct (between_step p k _ _ lm HP Hk) as (n & l' & -> & _ & Hstep).
  set (cl1 := mkClient _ _ l' _). pose proof (lookup_lt_Some _ _ _ Hk) as Hlt.
  destruct (Handlers.has_results (lhandlers l') n).
  - destruct Hstep as (res & Hres & HR). destruct (flush_partial instant_max cl1) as [[[w|e] cl2]| |] eqn:Hf; [| |done..].
    2: { by intros [= <- <-]. }
    pose proof (flush_partial_spec instant_max cl1 Hb) as Hs. cbv zeta in Hs. rewrite Hf in Hs.
    destruct Hs as (Hb1 & Hi & _ & Ho1 & Hl & Hset & popped & Hq & _ & Hse & Hst1 & _).
    rewrite Hl. cbn [with_queue lhandlers logic cl1]. rewrite Hres. intros [= <- <-].
    split; [done|]. split; [done|]. split; [by rewrite Ho1|]. exists (S k). split; [lia|]. split; [|by etrans].
    rewrite Hl, Hse. by eapply finally_send.
  - intros K. apply (Hnext cl1); [|done]. split; [done|]. split; [done|]. exists (S k). split; [done|].
    destruct (script !! S k) as [lm'|] eqn:Hk'.
    + cbn [cl1 buf_i cconn io]. rewrite Hst. by eapply coming_from_start.
    + exfalso. apply lookup_ge_None in Hk'. assert (S k = length script) as Hn by lia. rewrite Hn in Hstep. by eapply between_end.
Qed.

(** [run] on a client in a script stays in it until a handler has results or it
    times out, and then it can be called again; otherwise the connection failed
    or the clock ran over. *)
Lemma run_script_spec rfuel fuel (cl : Client) r cl' :
  Forall script_line script -> in_script cl -> run rfuel fuel cl = Done (r, cl') -> script_result r cl'.
Proof.
  intros Hlines. revert cl. induction fuel as [|fuel IH]; intros cl (Hb & Ho & k & HP & Hcome); cbn [Client.run]; [done|].
  destruct (flush_partial instant_max cl) as [[[w|e] cl1]| |] eqn:Hf; [| |done..]; [|by intros [= <- <-]].
  destruct (flush_between k cl w cl1 Hb HP Hf) as (Hb1 & Hi1 & Ho1 & HP1 & Hst1). rewrite Ho in Ho1. rewrite <- Hi1, <- Hst1 in Hcome.
  rewrite (between_busy p _ _ _ HP1). destruct (sync_new _ _ _ _) as [[[[sync con]|e] c] limits] eqn:Hs; [|by intros [= <- <-]].
  destruct (sync_new_stream instant_max _ _ w sync con c limits Hs) as (Hst & Hse & _).
  destruct (recv _ rfuel sync (buf_i (cconn cl1))) as [[[msg sync'] bufi]|] eqn:Hr; [|done].
  pose proof (sync_recv_sent _ _ _ _ _ _ _ Hr) as Hse'. rewrite Hse in Hse'.
  destruct Hcome as (lm & q & Hk & Hcoming & Hpq & Hq). rewrite <- Hst in Hcoming.
  destruct (proj1 (Forall_lookup _ _) Hlines k lm Hk) as (Hv & Hne & Hlen & Hparse).
  pose proof (recv_message_partial _ _ sync _ q _ _ _ _ _ _ Hcoming Hpq Hq Hv Hne Hlen Hparse Hr) as Hm.
  destruct Hm as [[-> Hrest]|(e & q1 & q2 & -> & -> & Hq2 & Hrest & ->)]; cbn [filter_time_error].
  - set (cl2 := with_io _ _). intros K. refine (received_script _ k cl2 cl' lm r _ Hb1 Ho1 _ Hk Hrest K); [intros cl3; apply IH|].
    cbn [cl2 with_io cconn io logic client_with_logic]. rewrite Hse'. by apply between_limits.
  - assert (Hin : in_script (with_io (mkIo (conn sync') (buf_i (cconn cl1) ++ q1) (buf_o (cconn cl1)))
      (client_with_logic (with_timeout limits (logic cl1)) cl1))).
    { split; [done|]. split; [done|]. exists k. split; [cbn [with_io cconn io logic client_with_logic]; rewrite Hse'; by apply between_limits|].
      exists lm, q2. split; [done|]. split; [done|]. split; [|done].
      cbn [with_io cconn buf_i]. by rewrite <- app_assoc. }
    destruct (kind e); try (by intros [= <- <-]); unfold read_timed_out; cbn [with_io client_with_logic on_timeout]; rewrite Ho1;
      (destruct con; [by apply IH|by intros [= <- <-]]).
Qed.
End Script.
Arguments between {A H Lb B W call script} p : rename.
Arguments finally {A H Lb B W call script} p : rename.
Arguments between_step {A H Lb B W call script} p : rename.
Arguments between_busy {A H Lb B W call script} p : rename.
Arguments between_limits {A H Lb B W call script} p : rename.
Arguments between_end {A H Lb B W call script} p : rename.
