(* ===== verification/Parametric.v ===== *)
(** * Handlers and their sinks

    The handlers of [register/handler.rs] and [auth/handler.rs] only ever send:
    what they do with one sink they do with any other, so what is proved of them
    with a list of messages holds with the queue of a client. *)

From S2P Require Import Prelude Args Tags Numeric Source Strings Splitter Msg Names Sink Register.
From S2P Require FlatMap Queue State Replies Cap Auth Nick Base64 Builder.

Section Parametric.
Context {L : Type} `{Auth.SaslLogic L} {E : Type} `{Base64.Engine E} {I : Type} `{Nick.NickIterator I}
  {S1 S2 : Type} `{ClientMsgSink S1} `{ClientMsgSink S2}.

(** A map between sinks that takes sending to sending. *)
Context (f : S1 -> S2) (f_send : forall s m, f (sink_send s m) = sink_send (f s) m).

Lemma f_send_all s l : f (send_all s l) = send_all (f s) l.
Proof. revert s. induction l as [|m l IH]; intros s; [done|]. rewrite <- !send_all_cons, IH. by rewrite f_send. Qed.

(** Two sinks with the same computation: the second does what the first does. *)
Definition same {A} (m1 : M (Sink := S1) A) (m2 : M (L := L) (I := I) (Sink := S2) A) : Prop :=
  forall h s, m2 (h, f s) = (fun r => (r.1, (r.2.1, f r.2.2))) <$> m1 (h, s).

Lemma same_ret {A} (a : A) : same (ret a) (ret a).
Proof. done. Qed.
Lemma same_throw {A} e : same (throw (A := A) e) (throw e).
Proof. done. Qed.
Lemma same_panic {A} : same (panic (A := A)) panic.
Proof. done. Qed.
Lemma same_get : same get get.
Proof. done. Qed.
Lemma same_put_state st : same (put_state st) (put_state st).
Proof. done. Qed.
Lemma same_put_nicks n : same (put_nicks n) (put_nicks n).
Proof. done. Qed.
Lemma same_modify_reg g : same (modify_reg g) (modify_reg g).
Proof. done. Qed.
Lemma same_unwrap {A} (o : option A) : same (unwrap o) (unwrap o).
Proof. by destruct o. Qed.
Lemma same_with_sink {A} (f1 : S1 -> A * S1) (f2 : S2 -> A * S2) :
  (forall s, f2 (f s) = ((f1 s).1, f (f1 s).2)) -> same (with_sink f1) (with_sink f2).
Proof. intros Hf h s. unfold with_sink. cbn [fst snd]. rewrite Hf. by destruct (f1 s). Qed.
Lemma same_send m : same (send m) (send m).
Proof. apply same_with_sink. intros s. cbn [fst snd]. by rewrite f_send. Qed.
Lemma same_bind {A B} (m1 : M A) m2 (k1 : A -> M B) k2 :
  same m1 m2 -> (forall a, same (k1 a) (k2 a)) -> same (bind m1 k1) (bind m2 k2).
Proof.
  intros Hm Hk h s. unfold bind. rewrite Hm. destruct (m1 (h, s)) as [[[a|e] [h1 s1]]|]; cbn; [apply Hk|done..].
Qed.

Create HintDb same.
#[local] Hint Resolve same_ret same_throw same_panic same_get same_put_state same_put_nicks same_modify_reg same_unwrap same_send : same.

Ltac same_tac :=
  repeat first
    [ solve [auto 1 with same nocore]
    | match goal with
      | |- same (bind _ _) _ => apply same_bind; [|intros ?]
      | |- same (match ?x with _ => _ end) _ => destruct x
      end
    | progress cbv zeta ].

Lemma same_req caps client server :
  same (with_sink (fun sink => ((), Cap.req caps client server sink))) (with_sink (fun sink => ((), Cap.req caps client server sink))).
Proof.
  apply same_with_sink. intros s. cbn [fst snd]. f_equal. unfold Cap.req.
  assert (Hl : forall base b s, Cap.req_loop base caps b (f s) = ((Cap.req_loop base caps b s).1, f (Cap.req_loop base caps b s).2)).
  { intros base. induction caps as [|cap cs IH]; intros b s0; cbn [Cap.req_loop]; [done|].
    destruct (_ <? _); [apply IH|]. destruct (negb _); [rewrite <- f_send; apply IH|apply IH]. }
  rewrite Hl. by destruct (Cap.req_loop _ _ _ s) as [b s']; cbn [fst snd]; rewrite f_send.
Qed.
#[local] Hint Resolve same_req : same.

(** The authenticators' handler. *)
Lemma auth_answer_same chal h s :
  Auth.answer chal h (f s) = (fun r => (r.1, f r.2)) <$> Auth.answer (S := S1) chal h s.
Proof.
  unfold Auth.answer. destruct (Auth.reply _ _ _) as [[[u|e] buf] lg].
  - destruct (Base64.chunks _); [|done]. cbn. by rewrite f_send_all.
  - by destruct (Auth.queue_pop _) as [[? ?]|]; cbn; rewrite f_send.
Qed.

Lemma auth_handle_same msg h s :
  Auth.handle msg h (f s) = (fun r => (r.1, f r.2)) <$> Auth.handle (S := S1) msg h s.
Proof.
  unfold Auth.handle. case_bool_decide.
  { destruct (match words _ with [] => _ | _ => _ end) as [[[chal|e]|] d]; [apply auth_answer_same|cbn; by rewrite f_send|done]. }
  repeat case_bool_decide; try done.
  - destruct (Auth.queue_pop _) as [[? ?]|]; [cbn; by rewrite f_send|done].
  - cbn. by rewrite f_send.
  - by destruct (_ && _).
  - by destruct (_ && _).
Qed.

Lemma same_handle_sasl msg : same (handle_sasl msg) (handle_sasl msg).
Proof.
  unfold handle_sasl. apply same_bind; [apply same_get|]. intros h. destruct (hstate h); try apply same_ret.
  intros h0 s. cbn [fst snd]. rewrite auth_handle_same. by destruct (Auth.handle msg handler s) as [[[[[]|e] sasl] s']|].
Qed.
#[local] Hint Resolve same_handle_sasl : same.

Lemma same_next_nick : same next_nick next_nick.
Proof. unfold next_nick. same_tac. Qed.
#[local] Hint Resolve same_next_nick : same.

Lemma same_ack b caps : same (ack b caps) (ack b caps).
Proof. unfold ack. same_tac. Qed.
#[local] Hint Resolve same_ack : same.

Lemma same_ls_last : same ls_last ls_last.
Proof. unfold ls_last. same_tac. Qed.
#[local] Hint Resolve same_ls_last : same.

Lemma same_edit_caps g : same (edit_caps g) (edit_caps g).
Proof. unfold edit_caps. same_tac. Qed.
#[local] Hint Resolve same_edit_caps : same.

Lemma same_handle_cap msg : same (handle_cap msg) (handle_cap msg).
Proof. unfold handle_cap, try_insert_all, insert_all. same_tac. Qed.
#[local] Hint Resolve same_handle_cap : same.

Lemma same_whoami a : same (set_whoami_arg a) (set_whoami_arg a).
Proof. unfold set_whoami_arg. same_tac. Qed.
#[local] Hint Resolve same_whoami : same.

Lemma same_handle_kind msg b : same (handle_kind msg b) (handle_kind msg b).
Proof.
  unfold handle_kind. apply same_bind; [apply same_get|]. intros h. cbv zeta.
  repeat match goal with |- same (if ?x then _ else _) _ => destruct x end;
    unfold handle_001, handle_900, handle_901, handle_bounce, handle_010, handle_432; same_tac.
Qed.
#[local] Hint Resolve same_handle_kind : same.

Lemma same_pong msg : same (with_sink (Replies.pong msg)) (with_sink (Replies.pong msg)).
Proof.
  apply same_with_sink. intros s. unfold Replies.pong. destruct (Replies.is_cmd msg (bs "PING")); [|done]. cbn [fst snd].
  by rewrite f_send.
Qed.
#[local] Hint Resolve same_pong : same.

Lemma same_finish r : same (finish r) (finish r).
Proof. unfold finish. same_tac. Qed.
#[local] Hint Resolve same_finish : same.

Lemma handle_same msg : same (handle msg) (handle msg).
Proof. unfold handle. same_tac. Qed.

(** The registration handler does the same whatever it sends to: its answer, its
    state and whether it panics do not depend on the sink, and the messages go
    to each in the same order. *)
Theorem handle_any_sink msg h s :
  handle msg (h, f s) = (fun r => (r.1, (r.2.1, f r.2.2))) <$> handle (L := L) (I := I) (Sink := S1) msg (h, s).
Proof. apply handle_same. Qed.

(** So are the messages registration starts with. *)
Lemma handler_same {O} (self : Register L I O) opts s :
  handler self opts (f s) = (fun r => (r.1, f r.2)) <$> handler self opts s.
Proof.
  unfold handler, register_msgs. destruct (rnicks O self opts ≫= Nick.next_nick) as [[n g]|]; [|by destruct (password O self opts)].
  destruct (password O self opts), (auth O self opts) as [q b]; cbn; by rewrite !f_send.
Qed.
End Parametric.
