(* ===== verification/Returns.v ===== *)
(** * That [run] returns

    On a connection whose timeouts last as long as they are set to, and with a
    clock that does not run over, [run] comes to an end on a script: every turn
    of the loop gets a message, or sends one, or waits until one may be sent. *)

From S2P Require Import Prelude Args Tags Numeric Source Strings Splitter Msg Time Client Link ClientThms Script.
From S2P Require Handlers State Queue Codec.

(** Connections whose clock stays further than [bound] from the end of its range,
    and for which the fuel of a read is enough for a line and the interruptions in
    it: whatever is done with one, but sleeping, it remains so. *)
Record Lasting {C : Type} `{PatientOk C} (instant_max bound : N) (rfuel : nat) (lasts : C -> Prop) : Prop := {
  lasts_clock c t c' : lasts c -> now c = (t, c') -> (t + bound <= instant_max)%N;
  lasts_fuel c : lasts c -> Codec.SERVER_MAX_LEN + interrupts c < rfuel;
  lasts_now c t c' : lasts c -> now c = (t, c') -> lasts c';
  lasts_fill c r c' : lasts c -> fill_buf c = (r, c') -> lasts c';
  lasts_consume n c : lasts c -> lasts (consume n c);
  lasts_read_timeout t c r c' : lasts c -> Time.set_read_timeout t c = (r, c') -> lasts c';
  lasts_write_timeout t c r c' : lasts c -> Time.set_write_timeout t c = (r, c') -> lasts c';
  lasts_write l c r c' : lasts c -> write_all l c = (r, c') -> lasts c';
  lasts_flush c r c' : lasts c -> flush c = (r, c') -> lasts c';
}.
Arguments lasts_clock {C _ _ _ _ _ _ _ _ instant_max bound rfuel lasts}.
Arguments lasts_fuel {C _ _ _ _ _ _ _ _ instant_max bound rfuel lasts}.
Arguments lasts_now {C _ _ _ _ _ _ _ _ instant_max bound rfuel lasts}.
Arguments lasts_fill {C _ _ _ _ _ _ _ _ instant_max bound rfuel lasts}.
Arguments lasts_consume {C _ _ _ _ _ _ _ _ instant_max bound rfuel lasts}.
Arguments lasts_read_timeout {C _ _ _ _ _ _ _ _ instant_max bound rfuel lasts}.
Arguments lasts_write_timeout {C _ _ _ _ _ _ _ _ instant_max bound rfuel lasts}.
Arguments lasts_write {C _ _ _ _ _ _ _ _ instant_max bound rfuel lasts}.
Arguments lasts_flush {C _ _ _ _ _ _ _ _ instant_max bound rfuel lasts}.

Section Sync.
Context {C : Type} `{PatientOk C} (instant_max bound : N) (rfuel : nat) (lasts : C -> Prop) (E : Lasting instant_max bound rfuel lasts).

(** Later, with the same deadline. *)
Definition later (s s' : TimeLimitedSync C) : Prop :=
  deadline s' = deadline s /\ (time (conn s) <= time (conn s'))%N /\ (lasts (conn s) -> lasts (conn s')).

#[export] Instance later_preorder : PreOrder later.
Proof. split; [intros x; by split_and!|]. intros x y z (? & ? & ?) (? & ? & ?). split_and!; [congruence|lia|tauto]. Qed.

(** What is known of an error with a deadline. *)
Definition overdue (d : option N) (e : IoError) (s : TimeLimitedSync C) : Prop :=
  forall t, d = Some t -> kind e = TimedOut \/ kind e = WouldBlock -> (t <= time (conn s))%N.

Lemma sync_fill_later (s : TimeLimitedSync C) r s' :
  fill_buf s = (r, s') -> later s s' /\ forall e, r = Err e -> overdue (deadline s) e s'.
Proof.
  unfold fill_buf, Sync_BufRead, sync_fill_buf, update_timeout. destruct s as [c [d|]]; cbn [deadline conn].
  - destruct (now c) as [t c1] eqn:Hn. pose proof (fun K => lasts_now E c t c1 K Hn) as L1. apply conn_now_ok in Hn as (Ht & _).
    unfold Queue.saturating_duration_since. destruct (N.eqb_spec (d - t) 0) as [Hz|Hz]; cbn [negb].
    + intros [= <- <-]. split; [split_and!; [done|cbn [conn]; lia|done]|]. intros e _ t' [= <-] _. cbn [conn]. lia.
    + destruct (Time.set_read_timeout _ c1) as [[u|e] c2] eqn:Hr; pose proof (read_timeout_time _ _ _ _ Hr) as [Ht2 Ha2];
        pose proof (fun K => lasts_read_timeout E _ _ _ _ K Hr) as L2.
      * destruct (Time.fill_buf _) as [r1 c3] eqn:Hf. cbn [conn] in Hf. intros [= <- <-]. cbn [conn deadline].
        pose proof (fill_time _ _ _ Hf) as [Ht3 _]. pose proof (fun K => lasts_fill E _ _ _ K Hf) as L3.
        split; [split_and!; [done|cbn [conn]; lia|cbn [conn]; tauto]|]. intros e -> t' [= <-] Hk. cbn [conn].
        destruct (fill_patient _ _ _ Hf Hk) as (x & Hx & Hlate). rewrite Ha2 in Hx. injection Hx as <-. lia.
      * intros [= <- <-]. split; [split_and!; [done|cbn [conn]; lia|cbn [conn]; tauto]|]. intros e' [= <-] t' _ Hk. by destruct (proj2 Ha2).
  - destruct (Time.fill_buf c) as [r1 c1] eqn:Hf. intros [= <- <-]. pose proof (fill_time _ _ _ Hf) as [Ht3 _].
    pose proof (fun K => lasts_fill E _ _ _ K Hf) as L3. split; [split_and!; [done|cbn [conn]; lia|done]|]. by intros e _ t'.
Qed.

Lemma sync_recv_later owning fuel (s : TimeLimitedSync C) buf r s' buf' :
  recv owning fuel s buf = Some (r, s', buf') ->
  later s s' /\ forall e, r = Err e -> overdue (deadline s) e s' \/ kind e = InvalidData \/ kind e = UnexpectedEof.
Proof.
  apply (recv_steps later (overdue (deadline s)) s); [|done]. intros fuel1 limit s1 buf1 r1 s2 buf2 Hlater.
  apply (read_until_steps later (overdue (deadline s)) s); [| |done].
  - intros s3 r3 s4 [Hd _] Hf. rewrite <- Hd. destruct (sync_fill_later s3 r3 s4 Hf) as [K1 K2]. split; [done|]. intros e He _. by apply K2.
  - intros n s3. split; [done|]. split; [exact (proj1 (consume_time n (conn s3)))|]. apply (lasts_consume E).
Qed.
End Sync.

Section Returns.
Context {A : Type} `{Queue.Adjuster A} {Lb : Type} {B W : Type} {F : Type} {C : Type} {Sp : Type}
  `{PatientOk C} (instant_max bound : N) (rfuel : nat) (lasts : C -> Prop) (E : Lasting instant_max bound rfuel lasts).
Abbreviation Queue := (Queue.Queue A Lb).
Abbreviation Logic := (ClientLogic A Lb B W).
Abbreviation Client := (Client A Lb B W F C Sp).
Context (call : B -> ServerMsg -> State.ClientState * W -> Queue -> option (Handlers.HandlerStatus * B * (State.ClientState * W) * Queue)).
Context (timeout_fn : F -> Logic -> Handlers.ControlFlow () * F * Logic).
#[local] Abbreviation run := (run instant_max call timeout_fn).
Context (script : list (list byte * ServerMsg)) (tail : list byte) (p : Protocol (W := W) call script).
Context (Hrate : forall k l o, between p k l o -> (Queue.sub (lqueue l) + Queue.delay (lqueue l) <= bound)%N).

(** A client before line [k], on time. *)
Definition at_line (k : nat) (cl : Client) : Prop :=
  buf_o (cconn cl) = [] /\ on_timeout cl = None /\ between p k (logic cl) (sent (io (cconn cl))) /\
  coming_from script tail k (buf_i (cconn cl)) (stream (io (cconn cl))) /\ on_time (lqueue (logic cl)) (io (cconn cl)) /\ lasts (io (cconn cl)).

(** What a turn of the loop that does not return leads to: the next line, or the
    same one with a message due, and with fewer to send if one was due before. *)
Definition onward (k : nat) (cl cl2 : Client) : Prop :=
  at_line (S k) cl2 \/
  (at_line k cl2 /\ let q := Queue.queue (lqueue (logic cl)) in let q2 := Queue.queue (lqueue (logic cl2)) in
    due (lqueue (logic cl2)) (io (cconn cl2)) /\ length q2 <= length q /\
    (due (lqueue (logic cl)) (io (cconn cl)) -> length q2 < length q)).

(** The clock does not run over while a message is popped. *)
Lemma pop_now_lasts (q : Queue) (c c' : C) o :
  lasts c -> (Queue.sub q + Queue.delay q <= bound)%N -> pop_now instant_max q c = (o, c') ->
  lasts c' /\ exists r q', o = Some (r, q') /\ (Queue.sub q' + Queue.delay q' <= bound)%N.
Proof.
  intros Hc Hq. unfold pop_now, Queue.pop, Queue.saturating_sub, Queue.saturating_duration_since, Queue.checked_add.
  destruct (Queue.queue q) as [|m l]; [intros [= <- <-]; by split; [|do 2 eexists]|].
  destruct (now c) as [t1 c1] eqn:Hn1. pose proof (lasts_now E _ _ _ Hc Hn1) as Hc1.
  destruct (N.eqb_spec (Queue.timepoint q - t1 - Queue.sub q) 0) as [Hz|Hz]; [|intros [= <- <-]; by split; [|do 2 eexists]].
  destruct (now c1) as [t2 c2] eqn:Hn2. pose proof (lasts_clock E _ _ _ Hc1 Hn2). pose proof (lasts_now E _ _ _ Hc1 Hn2).
  apply conn_now_ok in Hn1 as (Ht1 & _), Hn2 as (Ht2 & _).
  rewrite (proj2 (N.leb_le (N.max (Queue.timepoint q) t2 + Queue.delay q) instant_max)) by lia.
  intros [= <- <-]. split; [done|]. by do 2 eexists.
Qed.

Lemma pop_loop_lasts fuel (q : Queue) (c : C) bo :
  lasts c -> (Queue.sub q + Queue.delay q <= bound)%N ->
  match pop_loop instant_max fuel q c bo with Panic => False | OutOfFuel => True | Done (_, _, c', _) => lasts c' end.
Proof.
  revert q c bo. induction fuel as [|fuel IH]; intros q c bo Hc Hq; cbn [pop_loop]; [done|].
  destruct (pop_now instant_max q c) as [o c1] eqn:Hp.
  destruct (pop_now_lasts q c c1 o Hc Hq Hp) as (Hc1 & r & q' & -> & Hq'). destruct r; [|done]. by apply IH.
Qed.

Lemma flush_lasts (cl : Client) :
  lasts (io (cconn cl)) -> (Queue.sub (lqueue (logic cl)) + Queue.delay (lqueue (logic cl)) <= bound)%N ->
  match flush_partial instant_max cl with Panic => False | OutOfFuel => True | Done (_, cl') => lasts (io (cconn cl')) end.
Proof.
  intros Hc Hq. unfold flush_partial. destruct (Queue.is_empty _); [done|].
  pose proof (pop_loop_lasts (S (Queue.len (lqueue (logic cl)))) _ _ (buf_o (cconn cl)) Hc Hq) as Hl.
  destruct (pop_loop _ _ _ _ _) as [[[[t q'] c1] bo]| |]; [|done..].
  destruct (write_all bo c1) as [[[]|e] c2] eqn:Hw; pose proof (lasts_write E _ _ _ _ Hl Hw) as HL; [|done].
  by destruct (flush c2) as [[[]|e] c3] eqn:Hf; pose proof (lasts_flush E _ _ _ HL Hf).
Qed.

(** A flush: it fails with the connection, or the client is at the same line with
    what was popped gone. *)
Lemma flush_turn k (cl : Client) :
  at_line k cl ->
  exists r cl1, flush_partial instant_max cl = Done (r, cl1) /\
  match r with
  | Err _ => True
  | Ok w =>
      at_line k cl1 /\ lhandlers (logic cl1) = lhandlers (logic cl) /\ timeout (logic cl1) = timeout (logic cl) /\
      let q := lqueue (logic cl) in let q1 := lqueue (logic cl1) in
      length (Queue.queue q1) <= length (Queue.queue q) /\ (Queue.queue q1 = [] <-> w = None) /\
      (forall d, w = Some d -> (d <= bound)%N /\ (Queue.timepoint q1 <= time (io (cconn cl1)) + d + Queue.sub q1)%N) /\
      (due q (io (cconn cl)) -> Queue.queue q <> [] -> length (Queue.queue q1) < length (Queue.queue q))
  end.
Proof.
  intros (Hb & Ho & HP & Hc & Ht & HL). pose proof (flush_partial_spec instant_max cl Hb) as Hs. cbv zeta in Hs.
  pose proof (flush_lasts cl HL (Hrate _ _ _ HP)) as HL1. destruct (flush_partial instant_max cl) as [[r cl1]| |] eqn:Hf; [|done..].
  exists r, cl1. split; [done|]. destruct r as [w|e]; [|done].
  destruct (flush_between instant_max call script p k cl w cl1 Hb HP Hf) as (K1 & K2 & K3 & K4 & K5).
  destruct Hs as (_ & _ & _ & _ & Hl & Hset & popped & Hq & _ & _ & _ & Hn & Hd & Hdue & Hot). specialize (Hot Ht) as [Hot Hw].
  assert (Hlen : length (Queue.queue (lqueue (logic cl))) = length popped + length (Queue.queue (lqueue (logic cl1))))
    by (by rewrite Hq, length_app).
  split; [split_and!; [done|congruence|done|by rewrite K2, K5|done|done]|]. split; [by rewrite Hl|]. split; [by rewrite Hl|].
  cbv zeta. split; [lia|]. split; [done|]. split.
  - intros d Hd'. split; [|by apply Hd]. specialize (Hw d Hd'). specialize (Hrate _ _ _ HP). lia.
  - intros Hdq Hne. specialize (Hdue Hdq Hne). destruct popped; [done|]. cbn [length] in Hlen. lia.
Qed.

(** Limiting a read: the deadline for the queue is when the next message may be
    sent. *)
Lemma sync_new_turn (c0 : C) limits0 w sync con c limits :
  lasts c0 -> (forall d, w = Some d -> (d <= bound)%N) ->
  sync_new instant_max c0 limits0 w = (Ok (sync, con), c, limits) ->
  lasts (conn sync) /\ (time c0 <= time (conn sync))%N /\ (con = true -> exists d t, w = Some d /\ deadline sync = Some t /\ (time c0 + d <= t)%N).
Proof.
  intros HL Hw. unfold sync_new.
  assert (Hcont : forall c1 (tl : TimeLimits), lasts c1 -> (time c0 <= time c1)%N ->
    (let (read, constrained) := timeout_fallback w (Time.read tl) in
     let (read, c) := match read with
       | Some dur => let (t, c) := now c1 in (Queue.checked_add instant_max t dur, c)
       | None => (None, c1)
       end in (Ok (mkSync c read, constrained) : result _ IoError, c, tl)) = (Ok (sync, con), c, limits) ->
    lasts (conn sync) /\ (time c0 <= time (conn sync))%N /\
    (con = true -> exists d t, w = Some d /\ deadline sync = Some t /\ (time c0 + d <= t)%N)).
  { intros c1 tl HL1 Hc1.
    destruct (now c1) as [t c2] eqn:Hnow. pose proof (lasts_clock E _ _ _ HL1 Hnow) as Hmax. pose proof (lasts_now E _ _ _ HL1 Hnow) as HL2.
    apply conn_now_ok in Hnow as (Ht & _). destruct w as [d|]; cbn [timeout_fallback].
    - specialize (Hw d eq_refl). intros [= <- <- _ _]. cbn [conn deadline]. split; [done|]. split; [lia|]. intros _.
      unfold Queue.checked_add. rewrite (proj2 (N.leb_le _ _)) by lia. exists d, (t + d)%N. split; [done|]. split; [done|]. lia.
    - destruct (Time.read tl) as [d|]; intros [= <- <- _ _]; cbn [conn]; (split; [done|]); (split; [lia|done]). }
  destruct (update_write limits0).
  - destruct (Time.set_write_timeout _ c0) as [[u|e] c1] eqn:Hwt; [|done]. apply Hcont; [by eapply (lasts_write_timeout E)|by eapply (write_timeout_time _ _ _ _ Hwt)].
  - apply Hcont; [done|lia].
Qed.

(** How a turn ends. *)
Definition turns (k : nat) (cl : Client) : Prop :=
  (exists r cl', (forall fuel, run rfuel (S fuel) cl = Done (r, cl')) /\ (r = Ok None -> at_line k cl')) \/
  (exists cl2, (forall fuel, run rfuel (S fuel) cl = run rfuel fuel cl2) /\ onward k cl cl2).

(** A line is read: a handler has results, or the loop goes on with the next. *)
Lemma received_turn k (cl : Client) lm :
  buf_o (cconn cl) = [] -> on_timeout cl = None -> between p k (logic cl) (sent (io (cconn cl))) ->
  on_time (lqueue (logic cl)) (io (cconn cl)) -> lasts (io (cconn cl)) ->
  script !! k = Some lm -> stream (io (cconn cl)) = script_wire (drop (S k) script) ++ tail ->
  (exists r cl', r <> Ok None /\ forall again, received call again (flush_partial instant_max) lm.2 cl = Done (r, cl')) \/
  (exists cl2, (forall again, received call again (flush_partial instant_max) lm.2 cl = again cl2) /\ at_line (S k) cl2).
Proof.
  intros Hb Ho HP Ht HL Hk Hst. destruct (between_step p k _ _ lm HP Hk) as (n & l' & Hrun & Hr & Hstep). injection Hr as Hdl Hsb Htp.
  set (cl1 := mkClient (mkIo (io (cconn cl)) [] (buf_o (cconn cl))) (spec cl) l' (on_timeout cl)).
  assert (Hrec : forall again, received call again (flush_partial instant_max) lm.2 cl =
    if Handlers.has_results (lhandlers l') n then
      match flush_partial instant_max cl1 with
      | Panic => Panic
      | OutOfFuel => OutOfFuel
      | Done (Err e, cl) => Done (Err e, cl)
      | Done (Ok _, cl) =>
          match Handlers.last_run_results (lhandlers (logic cl)) n with Some r => Done (Ok (Some r), cl) | None => Panic end
      end
    else again cl1) by (intros again; unfold received; by rewrite Hrun).
  assert (Hot1 : on_time (lqueue l') (io (cconn cl))) by (unfold on_time in *; by rewrite Hdl, Hsb, Htp).
  destruct (Handlers.has_results (lhandlers l') n).
  - left. destruct Hstep as (res & Hres & HR). pose proof (flush_partial_spec instant_max cl1 Hb) as Hs. cbv zeta in Hs.
    assert (Hnp : flush_partial instant_max cl1 <> Panic).
    { pose proof (flush_lasts cl1 HL) as Hp. cbn [cl1 logic] in Hp. rewrite Hdl, Hsb in Hp. specialize (Hp (Hrate _ _ _ HP)). intros K. by rewrite K in Hp. }
    destruct (flush_partial instant_max cl1) as [[[w|e] cl2]| |] eqn:Hf; [| |done..].
    + destruct Hs as (_ & _ & _ & _ & Hl & _). assert (Hh : lhandlers (logic cl2) = lhandlers l') by by rewrite Hl.
      exists (Ok (Some res)), cl2. split; [done|]. intros again. by rewrite Hrec, Hh, Hres.
    + exists (Err e), cl2. split; [done|]. intros again. by rewrite Hrec.
  - right. exists cl1. split; [done|]. do 3 (split; [done|]). split; [|done].
    destruct (script !! S k) as [lm'|] eqn:Hk'.
    + cbn [cl1 buf_i cconn io]. rewrite Hst. by eapply coming_from_start.
    + exfalso. apply lookup_ge_None in Hk'. apply lookup_lt_Some in Hk. assert (S k = length script) as Hn by lia.
      rewrite Hn in Hstep. by eapply (between_end p).
Qed.

(** Nothing came in time: [run] goes on if it only waited for the queue, and says
    so otherwise. *)
Lemma timed_out_turn k (cl cl2 : Client) con :
  (forall fuel, run rfuel (S fuel) cl = read_timed_out timeout_fn (run rfuel fuel) con cl2) ->
  at_line k cl2 -> on_timeout cl2 = None -> (con = true -> onward k cl cl2) -> turns k cl.
Proof.
  intros Hgo Hat Ho Hon. destruct con; [right; exists cl2; split; [exact Hgo|by apply Hon]|].
  left. exists (Ok None), cl2. split; [|done]. intros fuel. rewrite Hgo. unfold read_timed_out. by rewrite Ho.
Qed.

Lemma run_turn k (cl : Client) : Forall script_line script -> at_line k cl -> turns k cl.
Proof.
  intros Hlines Hat. destruct (flush_turn k cl Hat) as (r & cl1 & Hf & Hr). destruct r as [w|e].
  2: { left. exists (Err e), cl1. split; [|done]. intros fuel. cbn [Client.run]. by rewrite Hf. }
  destruct Hr as ((Hb & Ho & HP & Hc & Ht & HL) & _ & _ & Hlen & Hnil & Hw & Hdue).
  assert (Hbusy : Handlers.is_empty (lhandlers (logic cl1)) = false) by by eapply (between_busy p).
  destruct (sync_new instant_max (io (cconn cl1)) (timeout (logic cl1)) w) as [[[[sync con]|e] c] limits] eqn:Hs.
  2: { left. exists (Err e), (with_io (mkIo c (buf_i (cconn cl1)) (buf_o (cconn cl1))) (client_with_logic (with_timeout limits (logic cl1)) cl1)).
       split; [|done]. intros fuel. cbn [Client.run]. by rewrite Hf, Hbusy, Hs. }
  destruct (sync_new_stream instant_max _ _ w sync con c limits Hs) as (Hst & Hse & _).
  destruct (sync_new_turn _ _ w sync con c limits HL (fun d Hd => proj1 (Hw d Hd)) Hs) as (HL1 & Htime & Hcon).
  destruct Hc as (lm & q & Hk & Hcoming & Hpq & Hq). rewrite <- Hst in Hcoming.
  destruct (proj1 (Forall_lookup _ _) Hlines k lm Hk) as (Hv & Hne & Hl & Hparse).
  set (lg := with_timeout limits (logic cl1)). set (owning := Handlers.wants_owning (lhandlers (logic (client_with_logic lg cl1)))).
  change (coming sync = q ++ script_wire (drop (S k) script) ++ tail) in Hcoming.
  destruct (recv_message_spec owning rfuel sync (buf_i (cconn cl1)) q lm.1 _ lm.2 Hcoming Hpq Hq Hv Hne Hl Hparse
    (lasts_fuel E (conn sync) HL1)) as (msg & sync' & bufi & Hrecv & Hm).
  pose proof (sync_recv_sent _ _ _ _ _ _ _ Hrecv) as Hse'. rewrite Hse in Hse'.
  destruct (sync_recv_later instant_max bound rfuel lasts E _ _ _ _ _ _ _ Hrecv) as [(_ & Hlater & HL2) Hover]. specialize (HL2 HL1).
  set (cl2 := with_io (mkIo (conn sync') bufi (buf_o (cconn cl1))) (client_with_logic lg cl1)).
  assert (Hgo : forall fuel, run rfuel (S fuel) cl = match filter_time_error msg with
    | Err e => Done (Err e, cl2)
    | Ok None => read_timed_out timeout_fn (run rfuel fuel) con cl2
    | Ok (Some msg) => received call (run rfuel fuel) (flush_partial instant_max) msg cl2
    end) by (intros fuel; cbn [Client.run]; rewrite Hf, Hbusy, Hs; cbv zeta; fold lg; fold owning; by rewrite Hrecv).
  assert (HP2 : between p k (logic cl2) (sent (io (cconn cl2)))) by (cbn [cl2 with_io client_with_logic logic cconn io]; rewrite Hse'; by apply between_limits).
  assert (Ht2 : on_time (lqueue (logic cl2)) (io (cconn cl2))).
  { unfold on_time in *. cbn [cl2 with_io client_with_logic logic cconn io lg with_timeout lqueue]. lia. }
  destruct Hm as [(-> & Hrest & _)|(e & q1 & q2 & -> & -> & Hq2 & Hrest & Hbuf)]; cbn [filter_time_error] in Hgo.
  - destruct (received_turn k cl2 lm Hb Ho HP2 Ht2 HL2 Hk Hrest) as [(r & cl' & Hrn & Hr)|(cl3 & Hr & Hat3)].
    + left. exists r, cl'. split; [|done]. intros fuel. by rewrite Hgo, Hr.
    + right. exists cl3. split; [intros fuel; by rewrite Hgo, Hr|by left].
  - assert (Hat2 : at_line k cl2).
    { split; [done|]. split; [done|]. split; [done|]. split; [|done]. exists lm, q2. split; [done|]. split; [done|].
      split; [|done]. cbn [cl2 with_io cconn buf_i]. by rewrite Hbuf, <- app_assoc. }
    assert (Hyes : kind e = TimedOut \/ kind e = WouldBlock -> turns k cl).
    { intros Hkd. apply (timed_out_turn k cl cl2 con); [intros fuel; rewrite Hgo; by destruct Hkd as [-> | ->]|done|done|].
      intros ->. destruct (Hcon eq_refl) as (d & t & Hd & Hdl & Htd). destruct (Hw d Hd) as [_ Htp].
      destruct (Hover e eq_refl) as [Hov|[Hov|Hov]]; [|destruct Hkd; congruence..]. specialize (Hov t Hdl Hkd).
      right. split; [done|]. cbv zeta. split; [|split; [exact Hlen|]].
      - unfold due. cbn [cl2 with_io client_with_logic logic cconn io lg with_timeout lqueue]. lia.
      - intros Hdq. apply Hdue; [done|]. intros Hq0. rewrite Hq0 in Hlen. cbn [length] in Hlen.
        assert (Hq1 : Queue.queue (lqueue (logic cl1)) = []) by (apply length_zero_iff_nil; lia). apply Hnil in Hq1. congruence. }
    destruct (kind e) eqn:Hkd; try (apply Hyes; tauto); left; exists (Err e), cl2; (split; [|done]); intros fuel; rewrite Hgo; try rewrite Hkd; reflexivity.
Qed.

(** When [run] times out the client is still in the script. *)
Lemma run_script_again k fuel (cl cl' : Client) :
  Forall script_line script -> at_line k cl -> run rfuel fuel cl = Done (Ok None, cl') -> exists k', at_line k' cl'.
Proof.
  intros Hlines. revert k cl. induction fuel as [|fuel IH]; intros k cl Hat; [done|].
  destruct (run_turn k cl Hlines Hat) as [(r & cl1 & Hr & Hnone)|(cl2 & Hr & Hon)]; rewrite Hr.
  - intros [= -> ->]. exists k. by apply Hnone.
  - destruct Hon as [Hat2|(Hat2 & _)]; by eapply IH.
Qed.

(** With enough fuel [run] returns. *)
Lemma run_script_returns k (cl : Client) :
  Forall script_line script -> at_line k cl -> exists fuel r cl', run rfuel fuel cl = Done (r, cl').
Proof.
  intros Hlines. remember (length script - k) as left eqn:Hleft. revert k cl Hleft.
  induction left as [left IHk] using lt_wf_ind. intros k cl Hleft Hat.
  assert (Hline : forall cl2 : Client, at_line k cl2 -> forall cl3, (forall fuel, run rfuel (S fuel) cl2 = run rfuel fuel cl3) ->
    at_line (S k) cl3 -> exists fuel r cl', run rfuel fuel cl2 = Done (r, cl')).
  { intros cl2 (_ & _ & _ & (lm & q & Hk%lookup_lt_Some & _) & _) cl3 Hr Hat3.
    destruct (IHk (length script - S k) ltac:(lia) (S k) cl3 eq_refl Hat3) as (fuel & r & cl' & Hr2). exists (S fuel), r, cl'. by rewrite Hr. }
  assert (Hdue : forall n (cl : Client), length (Queue.queue (lqueue (logic cl))) < n -> at_line k cl -> due (lqueue (logic cl)) (io (cconn cl)) ->
    exists fuel r cl', run rfuel fuel cl = Done (r, cl')).
  { induction n as [|n IHn]; intros cl1 Hn Hat1 Hd; [lia|].
    destruct (run_turn k cl1 Hlines Hat1) as [(r & cl' & Hr & _)|(cl2 & Hr & [Hat2|(Hat2 & Hd2 & _ & Hlt)])].
    - exists 1, r, cl'. apply Hr.
    - by eapply Hline.
    - destruct (IHn cl2 ltac:(specialize (Hlt Hd); lia) Hat2 Hd2) as (fuel & r & cl' & Hr2). exists (S fuel), r, cl'. by rewrite Hr. }
  destruct (run_turn k cl Hlines Hat) as [(r & cl' & Hr & _)|(cl2 & Hr & [Hat2|(Hat2 & Hd2 & _ & _)])].
  - exists 1, r, cl'. apply Hr.
  - by eapply Hline.
  - destruct (Hdue _ cl2 (Nat.lt_succ_diag_r _) Hat2 Hd2) as (fuel & r & cl' & Hr2). exists (S fuel), r, cl'. by rewrite Hr.
Qed.
End Returns.

(** ** The simulated connection *)

(** Waiting for a chunk the clock does not go beyond the time it comes in. *)
Definition sim_by (last : N) (c : Sim) : Prop := (clk c <= last)%N /\ Forall (fun p => (p.1.1 <= last)%N) (incoming c).

Lemma sim_lasting instant_max bound rfuel last :
  (last + bound <= instant_max)%N -> Codec.SERVER_MAX_LEN < rfuel -> Lasting (C := Sim) instant_max bound rfuel (sim_by last).
Proof.
  intros Hl Hf. split; unfold sim_by.
  - intros c t c' [Hc _] [= <- _]. lia.
  - intros c _. cbn [interrupts Sim_BufReadOk]. lia.
  - by intros c t c' Hc [= _ <-].
  - intros c r c' [Hc Hi]. unfold fill_buf, Sim_BufRead, sim_fill. destruct (incoming c) as [|[[t b] l] rest] eqn:E; [by intros [= _ <-]; rewrite E|].
    pose proof (Forall_inv Hi) as Ht. cbn [fst] in Ht. destruct (N.leb_spec t (clk c)); [intros [= _ <-]; by rewrite E|].
    destruct (rto c) as [d|]; [destruct (N.leb_spec t (clk c + d))|]; intros [= _ <-]; cbn [clk incoming]; (split; [lia|done]).
  - intros n c [Hc Hi]. unfold consume, Sim_BufRead, sim_consume. destruct (incoming c) as [|[[t b] l] rest] eqn:E; [by rewrite E|].
    apply Forall_cons in Hi as [Ht Hi]. cbn [clk incoming]. split; [done|]. by destruct (drop n (b :: l)); [|constructor].
  - by intros t c r c' Hc [= _ <-].
  - by intros t c r c' Hc [= _ <-].
  - by intros l c r c' Hc [= _ <-].
  - by intros c r c' Hc [= _ <-].
Qed.
