(* ===== verification/System.v ===== *)
(** * Registration, from end to end

    The registration handler in its box, in the table of a client's handlers, in
    [run], on a connection on which a server sends its lines: what the handler
    does with the messages is what the client comes to, whatever the connection
    does in between. *)

From Stdlib Require Import Sorting.Permutation.
From stdpp Require Import relations.
From S2P Require Import Prelude Handlers Channels Args Tags Numeric Source Strings Splitter Msg Names Sink.
From S2P Require Import Time Client Link ClientThms Boxed Script Returns.
From S2P Require FlatMap Queue State Replies Register RegisterThms Negotiate Cap Auth Nick Base64 Codec Parametric.

(** ** The queue as a sink *)

Section QueueSink.
Context {A Lb : Type}.

Lemma guard_send_all (g : Queue.QueueEditGuard A Lb) l :
  send_all g l = Queue.mkGuard (Queue.with_msgs (Queue.gqueue g) (Queue.queue (Queue.gqueue g) ++ l)) (Queue.orig_len g).
Proof.
  revert g. induction l as [|m l IH]; intros g; unfold send_all; cbn [foldl].
  - rewrite app_nil_r. by destruct g as [[]].
  - change (foldl sink_send (sink_send g m) l) with (send_all (sink_send g m) l). rewrite IH. cbn. by rewrite <- app_assoc.
Qed.

(** Sending what a list collected is sending it one by one. *)
Lemma send_all_sends {S} `{ClientMsgSink S} (g : S) (l : list ClientMsg) m : send_all g (sink_send l m) = sink_send (send_all g l) m.
Proof. unfold send_all, sink_send at 2, closure_sink. by rewrite foldl_app. Qed.
End QueueSink.

(** ** One message *)

Section Box.
Context {A : Type} `{Queue.Adjuster A} {Lb W : Type} (mangle : N -> N) (type_id : State.ClientStateKey -> N).
Context {L : Type} `{Auth.SaslLogic L} {E : Type} `{Base64.Engine E} {I : Type} `{Nick.NickIterator I}.
Context {U T : Type} `{Handler A Lb W U T}.
Abbreviation Box := (BoxHandler W L I U T).
Abbreviation call := (Boxed.call (A := A) (Lb := Lb) (W := W) (L := L) (I := I) (U := U) (T := T) mangle type_id).
Abbreviation Answer := (result (option Register.Registration) Register.HandlerError).

(** What the handler tells its caller, what it leaves in the shared state, and
    what becomes of the heap and of the sender. *)
Definition verdict (r : Answer) : result () Register.HandlerError := match r with Ok _ => Ok () | Err e => Err e end.
Definition saved (r : Answer) (st : State.ClientState) : State.ClientState :=
  match r with Ok (Some v) => Register.save type_id v st | _ => st end.
Definition told (snd : DynSender W (result () Register.HandlerError)) (r : Answer) (w : W) : W :=
  dyn_drop snd (dyn_send snd (verdict r) w).2.
Definition heard (snd : DynSender W (result () Register.HandlerError)) (r : Answer) (w : W) : bool :=
  match (dyn_send snd (verdict r) w).1 with Break Closed => false | _ => true end.

Lemma call_register snd m (h h' : Register.Handler L I) r out st w (q : Queue.Queue A Lb) :
  Register.handle m (h, [] : list ClientMsg) = Some (r, (h', out)) ->
  call (BRegister (h, snd)) m (st, w) q = Some
    (let q' := Queue.with_msgs q (Queue.queue q ++ out) in
     match r with
     | Ok None => (Keep false (Register.wants_owning h'), BRegister (h', snd), (st, w), q')
     | _ => (Handlers.Done (heard snd r w), BRegister (h', snd), (saved r st, told snd r w), q')
     end).
Proof.
  intros Hh. cbn [Boxed.call]. unfold call_closure, Handlers.box_handler. cbn [hhandle register_handler fst Datatypes.snd].
  unfold Register.client_handle.
  assert (Hg : Register.handle m (h, Queue.edit q) = Some (r, (h', send_all (Queue.edit q) out))).
  { change (Queue.edit q) with (send_all (Queue.edit q) ([] : list ClientMsg)) at 1.
    rewrite (Parametric.handle_same _ (send_all_sends (Queue.edit q))), Hh. done. }
  rewrite Hg. unfold heard, told. destruct r as [[v|]|e]; cbn [rebox verdict saved sender flag];
    rewrite guard_send_all; unfold ref_send; cbn;
    try (destruct (dyn_send snd _ w) as [cf w']; done); done.
Qed.
End Box.

(** ** The run *)

Section Registers.
Context {A : Type} `{Queue.Adjuster A} {Lb W : Type} (mangle : N -> N) (type_id : State.ClientStateKey -> N).
Context {L : Type} `{Auth.SaslLogic L} {E : Type} `{Base64.Engine E} {I : Type} `{Nick.NickIterator I}.
Context {U T : Type} `{Handler A Lb W U T}.
Context {F C Sp : Type} `{ConnectionOk C} (instant_max : N).
Abbreviation Box := (BoxHandler W L I U T).
Abbreviation Logic := (ClientLogic A Lb Box W).
Abbreviation Client := (Client A Lb Box W F C Sp).
Abbreviation call := (Boxed.call (A := A) (Lb := Lb) (W := W) (L := L) (I := I) (U := U) (T := T) mangle type_id).
Context (timeout_fn : F -> Logic -> Handlers.ControlFlow () * F * Logic).

(** The script, what comes after it, and the client before it: the handler, its
    sender and its id, the other handlers, the queue, the shared state, the heap
    and what was sent. *)
Context (script : list (list byte * ServerMsg)) (tail : list byte).
Context (h0 : Register.Handler L I) (snd : DynSender W (result () Register.HandlerError)) (id : nat) (others : list (Box * nat)).
Context (pace : N * N) (q0 : list ClientMsg) (st0 : State.ClientState) (w0 : W) (o0 : list byte).

(** What the handler answers to the script. *)
Context (r : result (option Register.Registration) Register.HandlerError) (h1 : Register.Handler L I) (out1 : list ClientMsg).
Context (Hrun : RegisterThms.run script.*2 (h0, []) = Some (r, (h1, out1))) (Hr : r <> Ok None).

(** The other handlers let the messages of the script pass. *)
Context (Hothers : forall m, m ∈ script.*2 -> Forall (fun b => Handlers.passes call m b.1) others).

(** The rate limit is as it was, and what was sent and what is queued is
    everything that was asked to be sent, in order. *)
Definition outputs (l : Logic) (o : list byte) (out : list ClientMsg) : Prop :=
  Queue.adjuster (lqueue l) = None /\ (Queue.delay (lqueue l), Queue.sub (lqueue l)) = pace /\ o ++ wire (Queue.queue (lqueue l)) = o0 ++ wire (q0 ++ out).

Definition running (k : nat) (l : Logic) (o : list byte) : Prop :=
  exists h out, RegisterThms.run (take k script.*2) (h0, []) = Some (Ok None, (h, out)) /\ k <= length script /\
    Handlers.handlers (lhandlers l) ≡ₚ (BRegister (h, snd), id) :: others /\
    lstate l = st0 /\ heap l = w0 /\ outputs l o out.

Definition registered (k : nat) (l : Logic) (o : list byte) (res : list nat * list nat) : Prop :=
  res = (if heard snd r w0 then [id] else [], [id]) /\
  Handlers.handlers (lhandlers l) ≡ₚ others /\
  lstate l = saved type_id r st0 /\ heap l = told snd r w0 /\ outputs l o out1.

Lemma wire_app a b : wire (a ++ b) = wire a ++ wire b.
Proof. unfold wire. by rewrite fmap_app, concat_app. Qed.

Lemma outputs_send l o out q' popped :
  outputs l o out -> Queue.queue (lqueue l) = popped ++ Queue.queue q' -> same_settings (lqueue l) q' ->
  outputs (with_queue q' l) (o ++ wire popped) out.
Proof.
  intros (Ha & Hp & Ho) Hq (? & ? & ? & Had). split; [cbn; congruence|]. split; [cbn; congruence|]. cbn [lqueue with_queue].
  by rewrite <- Ho, Hq, wire_app, <- app_assoc.
Qed.

Lemma run_take_S k m (s s' : Register.Handler L I * list ClientMsg) x :
  script.*2 !! k = Some m -> RegisterThms.run (take k script.*2) s = Some (Ok None, s') ->
  Register.handle m s' = Some x ->
  RegisterThms.run (take (S k) script.*2) s = Some x /\ (x.1 <> Ok None -> RegisterThms.run script.*2 s = Some x).
Proof.
  intros Hk Hs Hm. rewrite (take_S_r _ _ _ Hk).
  assert (Happ : forall l, RegisterThms.run (take k script.*2 ++ m :: l) s = RegisterThms.run (m :: l) s')
    by (intros l; by apply Negotiate.run_app).
  rewrite Happ. cbn [RegisterThms.run]. rewrite Hm. split.
  - by destruct x as [[[v|]|e] s1].
  - intros Hx. rewrite <- (take_drop_middle _ _ _ Hk), Happ. cbn [RegisterThms.run]. rewrite Hm. by destruct x as [[[v|]|e] s1].
Qed.

(** The messages sent so far do not matter to the handler. *)
Lemma handle_from_nil m (h : Register.Handler L I) (out : list ClientMsg) :
  Register.handle m (h, out) = (fun x => (x.1, (x.2.1, out ++ x.2.2))) <$> Register.handle m (h, []).
Proof.
  pose proof (Parametric.handle_same (app out) (fun l m => app_assoc out l [m]) m h []) as Hs. by rewrite app_nil_r in Hs.
Qed.

Lemma handle_not_panic k m h out :
  script.*2 !! k = Some m -> RegisterThms.run (take k script.*2) (h0, []) = Some (Ok None, (h, out)) ->
  exists r' h' o', Register.handle m (h, []) = Some (r', (h', o')) /\ Register.handle m (h, out) = Some (r', (h', out ++ o')).
Proof.
  intros Hk Hs. pose proof (handle_from_nil m h out) as Hn.
  destruct (Register.handle m (h, [])) as [[r' [h' o']]|] eqn:Hm; [by exists r', h', o'|exfalso].
  rewrite <- (take_drop_middle _ _ _ Hk), (Negotiate.run_app _ _ _ _ Hs) in Hrun. cbn [RegisterThms.run] in Hrun.
  by rewrite Hn in Hrun.
Qed.

Lemma running_step k l o lm :
  running k l o -> script !! k = Some lm ->
  exists n l', run_once call lm.2 l = Some (n, l') /\ rate (lqueue l') = rate (lqueue l) /\
    if Handlers.has_results (lhandlers l') n
    then exists res, Handlers.last_run_results (lhandlers l') n = Some res /\ registered (S k) l' o res
    else running (S k) l' o.
Proof.
  intros (h & out & Hs & Hle & Hhs & Hst & Hw & Ha & Hpc & Ho) Hk. pose proof (lookup_lt_Some _ _ _ Hk) as Hlt.
  assert (Hm : script.*2 !! k = Some lm.2) by by rewrite list_lookup_fmap, Hk.
  destruct (handle_not_panic k lm.2 h out Hm Hs) as (r' & h' & o' & Hh & Hh').
  destruct (run_take_S k lm.2 _ _ _ Hm Hs Hh') as [Hnext Hend]. cbn [fst] in Hend.
  pose proof (call_register mangle type_id snd lm.2 h h' r' o' st0 w0 (lqueue l) Hh) as Hc. cbv zeta in Hc.
  set (q' := Queue.with_msgs (lqueue l) (Queue.queue (lqueue l) ++ o')) in Hc.
  assert (Hout : forall l', lqueue l' = q' -> outputs l' o (out ++ o')).
  { intros l' Hl'. unfold outputs. rewrite Hl'. split; [done|]. split; [done|]. cbn [Queue.queue Queue.with_msgs q'].
    by rewrite wire_app, app_assoc, Ho, (app_assoc q0), (wire_app (q0 ++ out)), <- app_assoc. }
  assert (Hadj : Queue.adjust (lqueue l) lm.2 = lqueue l) by (unfold Queue.adjust; by rewrite Ha).
  assert (Hp : Forall (fun b => Handlers.passes call lm.2 b.1) others) by (apply Hothers; by eapply list_elem_of_lookup_2).
  unfold run_once. rewrite Hadj, Hst, Hw.
  destruct r' as [[v|]|e];
    (edestruct (Handlers.handle_one call (lhandlers l) lm.2 (st0, w0) (lqueue l) _ id others _ _ _ _ Hhs Hp Hc) as (hs' & -> & Hhs' & Hy & Hf));
    eexists _, _; (split; [reflexivity|]); (split; [reflexivity|]); cbv zeta in *; cbn [lhandlers];
    unfold Handlers.has_results, Handlers.last_run_results; rewrite Hy, Hf; cbn [Handlers.call_yielded Handlers.call_done Handlers.call_kept Datatypes.fst Datatypes.snd] in *.
  2: { rewrite app_nil_r, Nat.ltb_irrefl. cbn [orb]. exists h', (out ++ o'). split; [exact Hnext|]. split; [lia|].
       split; [exact Hhs'|]. do 2 (split; [done|]). by apply Hout. }
  all: rewrite length_app, (proj2 (Nat.ltb_lt _ _)), orb_true_r by (cbn; lia); rewrite (proj2 (Nat.leb_le _ _)) by lia;
    rewrite drop_app_length; specialize (Hend ltac:(done)); rewrite Hrun in Hend; injection Hend as Er _ Eo;
    eexists; (split; [reflexivity|]); unfold registered; rewrite Er, Eo; (split; [reflexivity|]); (split; [exact Hhs'|]); do 2 (split; [done|]); by apply Hout.
Qed.

Lemma running_end l o : ~ running (length script) l o.
Proof.
  intros (h & out & Hs & _). rewrite firstn_all2 in Hs by by rewrite length_fmap. rewrite Hrun in Hs. by injection Hs as ->.
Qed.

Definition registration : Protocol (W := W) call script.
Proof.
  refine (mkProtocol _ _ running registered _ _ _ _ _ _).
  - intros k l o q' popped (h & out & K1 & K2 & K3 & K4 & K5 & K6) Hq Hset. exists h, out. do 5 (split; [done|]).
    by apply (outputs_send l o out q' popped K6 Hq Hset).
  - intros k l o t (h & out & K1 & K2 & K3 & K4 & K5 & K6). by exists h, out.
  - intros k l o (h & out & _ & _ & K & _). unfold Handlers.is_empty. destruct (Handlers.handlers (lhandlers l)); [|done].
    by apply Permutation_nil_cons in K.
  - apply running_end.
  - apply running_step.
  - intros k l o q' popped res (K1 & K2 & K3 & K4 & K5) Hq Hset. do 4 (split; [done|]).
    by apply (outputs_send l o out1 q' popped K5 Hq Hset).
Defined.
End Registers.

(** ** Theorems *)

Section Theorems.
Context {A : Type} `{Queue.Adjuster A} {Lb W : Type} (mangle : N -> N) (type_id : State.ClientStateKey -> N).
Context {L : Type} `{Auth.SaslLogic L} {E : Type} `{Base64.Engine E} {I : Type} `{Nick.NickIterator I}.
Context {U T : Type} `{Handler A Lb W U T}.
Context {F C Sp : Type} `{ConnectionOk C} (instant_max : N).
Abbreviation Box := (BoxHandler W L I U T).
Abbreviation Logic := (ClientLogic A Lb Box W).
Abbreviation Client := (Client A Lb Box W F C Sp).
Abbreviation call := (Boxed.call (A := A) (Lb := Lb) (W := W) (L := L) (I := I) (U := U) (T := T) mangle type_id).
Context (timeout_fn : F -> Logic -> Handlers.ControlFlow () * F * Logic).
Abbreviation run := (Client.run instant_max call timeout_fn).

(** [run] called again and again, as long as it times out; and until it has
    results. *)
Definition waits (rfuel : nat) : Client -> Client -> Prop := rtc (fun cl cl1 => exists fuel, run rfuel fuel cl = Client.Done (Ok None, cl1)).
Definition driven (rfuel : nat) (cl : Client) (res : list nat * list nat) (cl' : Client) : Prop :=
  exists cl1 fuel, waits rfuel cl cl1 /\ run rfuel fuel cl1 = Client.Done (Ok (Some res), cl').

Section Script.
Context (script : list (list byte * ServerMsg)) (tail : list byte).

Lemma waits_script (p : Protocol (W := W) call script) rfuel cl cl1 :
  Forall script_line script -> in_script call script tail p cl -> waits rfuel cl cl1 -> in_script call script tail p cl1.
Proof.
  intros Hs Hin Hw. induction Hw as [|cl cl1 cl2 (fuel & Hr) _ IH]; [done|]. apply IH.
  by apply (run_script_spec instant_max call timeout_fn script tail p rfuel fuel cl) in Hr.
Qed.

(** A client in which a registration is under way, before the first line of what
    the server sends: the handler [h0] with its sender, among [others] that have
    nothing to do with these messages, and nothing that interferes. *)
Record Registering (h0 : Register.Handler L I) snd id (others : list (Box * nat)) (cl : Client) : Prop := {
  registering_lines : Forall script_line script;
  registering_others m : m ∈ script.*2 -> Forall (fun b => Handlers.passes call m b.1) others;
  registering_handlers : Handlers.handlers (lhandlers (logic cl)) ≡ₚ (BRegister (h0, snd), id) :: others;
  registering_adjuster : Queue.adjuster (lqueue (logic cl)) = None;
  registering_buf_i : buf_i (cconn cl) = [];
  registering_buf_o : buf_o (cconn cl) = [];
  registering_timeout : on_timeout cl = None;
  registering_stream : stream (io (cconn cl)) = script_wire script ++ tail;
}.

Context (h0 : Register.Handler L I) (snd : DynSender W (result () Register.HandlerError)) (id : nat) (others : list (Box * nat)).
Context (r : result (option Register.Registration) Register.HandlerError) (h1 : Register.Handler L I) (out : list ClientMsg).
Context (Hrun : RegisterThms.run script.*2 (h0, []) = Some (r, (h1, out))) (Hr : r <> Ok None).
Context (cl : Client) (Hcl : Registering h0 snd id others cl).

(** What a registration under way is like. *)
Definition under_way : Protocol (W := W) call script :=
  registration mangle type_id script h0 snd id others (Queue.delay (lqueue (logic cl)), Queue.sub (lqueue (logic cl)))
    (Queue.queue (lqueue (logic cl))) (lstate (logic cl)) (heap (logic cl)) (sent (io (cconn cl))) r h1 out Hrun Hr (registering_others _ _ _ _ _ Hcl).

Lemma registering_first : exists lm, script !! 0 = Some lm.
Proof. clear -Hrun Hr. destruct script; [by injection Hrun as <-|by eexists]. Qed.

Lemma registering_between : between under_way 0 (logic cl) (sent (io (cconn cl))).
Proof.
  exists h0, []. destruct Hcl as [_ _ Hhs Ha _ _ _ _]. split; [done|]. split; [lia|]. do 4 (split; [done|]). split; [done|]. by rewrite app_nil_r.
Qed.

Lemma registering_coming : coming_from script tail 0 (buf_i (cconn cl)) (stream (io (cconn cl))).
Proof.
  destruct registering_first as [lm Hlm]. rewrite (registering_buf_i _ _ _ _ _ Hcl), (registering_stream _ _ _ _ _ Hcl).
  by apply (coming_from_start script tail 0 lm).
Qed.

Lemma registering_in_script : in_script call script tail under_way cl.
Proof.
  split; [apply (registering_buf_o _ _ _ _ _ Hcl)|]. split; [apply (registering_timeout _ _ _ _ _ Hcl)|]. exists 0.
  split; [apply registering_between|apply registering_coming].
Qed.

Lemma registers_spec rfuel res cl' :
  driven rfuel cl res cl' ->
  let w := heap (logic cl) in
  res = (if heard snd r w then [id] else [], [id]) /\
  Handlers.handlers (lhandlers (logic cl')) ≡ₚ others /\
  lstate (logic cl') = saved type_id r (lstate (logic cl)) /\ heap (logic cl') = told snd r w /\
  sent (io (cconn cl')) ++ wire (Queue.queue (lqueue (logic cl'))) =
    sent (io (cconn cl)) ++ wire (Queue.queue (lqueue (logic cl)) ++ out) /\
  exists k, k <= length script /\ stream (io (cconn cl')) = script_wire (drop k script) ++ tail.
Proof.
  intros (cl1 & fuel & Hw & Hd) w. pose proof (registering_lines _ _ _ _ _ Hcl) as Hs.
  pose proof (waits_script under_way rfuel cl cl1 Hs registering_in_script Hw) as Hin.
  apply (run_script_spec instant_max call timeout_fn script tail under_way rfuel fuel cl1) in Hd as (_ & _ & _ & k & Hk & (K1 & K2 & K3 & K4 & _ & _ & K5) & K6); [|done..].
  split_and!; [done..|]. by exists k.
Qed.
End Script.

(** Registration from end to end.  On a connection on which the server's lines
    come in, in any chunks and with any delays, and however often [run] times
    out and is called again, the client comes to what its registration handler
    makes of the messages: when [run] has results they are the handler's, the
    handler is gone and has told its channel, once, how it ended, a registration
    that was completed is in the shared state, the other handlers are as they
    were, and what was sent, and is queued yet, is what was asked to be sent, in
    that order. *)
Theorem client_registers script tail h0 snd id others r h1 out (cl : Client) rfuel res cl' :
  RegisterThms.run script.*2 (h0, []) = Some (r, (h1, out)) -> r <> Ok None ->
  Registering script tail h0 snd id others cl -> driven rfuel cl res cl' ->
  let w := heap (logic cl) in
  res = (if heard snd r w then [id] else [], [id]) /\
  Handlers.handlers (lhandlers (logic cl')) ≡ₚ others /\
  lstate (logic cl') = saved type_id r (lstate (logic cl)) /\ heap (logic cl') = told snd r w /\
  sent (io (cconn cl')) ++ wire (Queue.queue (lqueue (logic cl'))) =
    sent (io (cconn cl)) ++ wire (Queue.queue (lqueue (logic cl)) ++ out) /\
  exists k, k <= length script /\ stream (io (cconn cl')) = script_wire (drop k script) ++ tail.
Proof. intros Hrun Hr Hcl. by apply registers_spec with (h1 := h1) (Hcl := Hcl). Qed.
End Theorems.

(** ** That it returns *)

Section Returns.
Context {A : Type} `{Queue.Adjuster A} {Lb W : Type} (mangle : N -> N) (type_id : State.ClientStateKey -> N).
Context {L : Type} `{Auth.SaslLogic L} {E : Type} `{Base64.Engine E} {I : Type} `{Nick.NickIterator I}.
Context {U T : Type} `{Handler A Lb W U T}.
Context {F C Sp : Type} `{PatientOk C} (instant_max bound : N) (rfuel : nat) (lasts : C -> Prop).
Abbreviation Box := (BoxHandler W L I U T).
Abbreviation Logic := (ClientLogic A Lb Box W).
Abbreviation Client := (Client A Lb Box W F C Sp).
Abbreviation call := (Boxed.call (A := A) (Lb := Lb) (W := W) (L := L) (I := I) (U := U) (T := T) mangle type_id).
Context (timeout_fn : F -> Logic -> Handlers.ControlFlow () * F * Logic).

End Returns.

(** ** With a channel *)

Section Completes.
Context {A : Type} `{Queue.Adjuster A} {Lb X O Q : Type} `{Tokio X O Q} (mangle : N -> N) (type_id : State.ClientStateKey -> N).
Abbreviation Heap := (list (Cell X O Q)).
Context {L : Type} `{Auth.SaslLogic L} {E : Type} `{Base64.Engine E} {I : Type} `{Nick.NickIterator I}.
Context {U T : Type} `{Handler A Lb Heap U T} `{Value X (result () Register.HandlerError)}.
Context {F C : Type} `{ConnectionOk C} (instant_max : N).
Abbreviation Box := (BoxHandler Heap L I U T).
Abbreviation Client := (Client A Lb Box Heap F C SyncChannels).
Abbreviation call := (Boxed.call (A := A) (Lb := Lb) (W := Heap) (L := L) (I := I) (U := U) (T := T) mangle type_id).
Context (timeout_fn : F -> ClientLogic A Lb Box Heap -> Handlers.ControlFlow () * F * ClientLogic A Lb Box Heap).

(** [Client::add] with a [Register<O>] and its options. *)
Definition add_register {Op} (self : Register.Register L I Op) (opts : Op) (cl : Client) :=
  Boxed.add mangle type_id (R := result () Register.HandlerError) (Hd := Register.Handler L I) self opts cl.

(** What is told over a new oneshot channel is what its receiver gets. *)
Lemma told_sync (w : Heap) r :
  let w1 := w ++ [SyncOnce Channels.sync_new] in
  let s := sender_at (length w) in
  heard s r w1 = true /\ recv_at (told s r w1) (length w) = Some (Some (into (verdict r))) /\
  exists c, told s r w1 = w ++ [c].
Proof.
  cbv zeta. set (v := into (verdict r)). destruct (sync_sent v) as (c1 & Hs & Hr).
  unfold heard, told. set (w1 := w ++ [SyncOnce Channels.sync_new]).
  assert (Hl : forall c : Cell X O Q, (w ++ [c]) !! length w = Some c) by (intros c; by apply list_lookup_middle).
  assert (Hsend : dyn_send (sender_at (length w)) (verdict r) w1 = (Break SentOk, w ++ [SyncOnce c1])).
  { cbn [dyn_send sender_at]. unfold w1. rewrite Hl. fold v. cbn [cell_send]. rewrite Hs.
    by rewrite insert_app_r_alt, Nat.sub_diag by lia. }
  rewrite Hsend. cbn [fst snd]. rewrite drop_last. split; [done|]. split; [|by eexists].
  unfold recv_at. rewrite Hl. cbn [cell_drop]. by rewrite Hr.
Qed.

(** Adding the handler of a [Register<O>]. *)
Lemma add_register_spec {Op} (self : Register.Register L I Op) opts (cl0 cl : Client) id a :
  Handlers.ids_wf (lhandlers (logic cl0)) -> add_register self opts cl0 = Some (Ok (id, a), cl) ->
  exists h0 opening, Register.handler self opts ([] : list ClientMsg) = Some (h0, opening) /\
    a = Some (length (heap (logic cl0))) /\
    Handlers.handlers (lhandlers (logic cl)) = Handlers.handlers (lhandlers (logic cl0)) ++
      [(BRegister (h0, sender_at (length (heap (logic cl0)))), id)] /\
    lqueue (logic cl) = Queue.with_msgs (lqueue (logic cl0)) (Queue.queue (lqueue (logic cl0)) ++ opening) /\
    lstate (logic cl) = lstate (logic cl0) /\ heap (logic cl) = heap (logic cl0) ++ [SyncOnce Channels.sync_new] /\
    cconn cl = cconn cl0 /\ on_timeout cl = on_timeout cl0.
Proof.
  intros Hids. unfold add_register, Boxed.add, add_with_spec.
  pose proof (logic_add_spec mangle type_id (R := result () Register.HandlerError) (Hd := Register.Handler L I)
    (spec cl0) self opts (logic cl0) Hids) as Ha. cbv zeta in Ha.
  set (g := Queue.edit (lqueue (logic cl0))) in *.
  assert (Hm : make_handler (MakeHandler := register_made (A := A) (Lb := Lb) (L := L) (I := I)) self (lstate (logic cl0)) g opts =
    match Register.handler self opts ([] : list ClientMsg) with
    | Some (h, out) => Some (Ok h, send_all g out)
    | None => None
    end).
  { cbn [make_handler register_made]. change g with (send_all g ([] : list ClientMsg)) at 1.
    rewrite (Parametric.handler_same _ (send_all_sends g)). by destruct (Register.handler self opts []) as [[h out]|]. }
  rewrite Hm in Ha. destruct (Register.handler self opts []) as [[h0 out]|]; [|by rewrite Ha].
  destruct Ha as (id' & hs & -> & K1 & K2 & _). intros [= <- <- <-]. exists h0, out. split; [done|].
  cbn [logic client_with_logic lhandlers lqueue lstate heap cconn on_timeout]. rewrite K1, guard_send_all. by split_and!.
Qed.
(** The server lists the capabilities, among them all that are asked for by
    [reqs], grants these and greets the client; with messages in between that a
    registration has nothing to do with. *)
Definition grants (reqs : Register.CapFn) (ms : list ServerMsg) : Prop :=
  exists lss ls m_ls caps acks cs m_001 m_end before after rest,
    ms = before ++ after ++ m_end :: rest /\
    let avail := Register.set_of (keys (Negotiate.listed [] (ls ++ [caps]))) in
    (forall c, c ∈ reqs avail -> c ∈ avail) /\
    Negotiate.ls_lines lss ls /\ Negotiate.cap_line Cap.Ls true m_ls caps /\ Negotiate.ack_lines acks cs /\
    (forall c, c ∈ reqs avail -> c = Register.STS \/ exists a : Cap.BTreeMap, a ∈ cs /\ c ∈ a.*1) /\
    Negotiate.plain_msg m_001 /\ RegisterThms.welcome m_001 /\ Negotiate.plain_msg m_end /\ RegisterThms.motd_end m_end /\
    Negotiate.among (lss ++ m_ls :: acks ++ [m_001]) before /\ Forall Negotiate.greeting_msg after.

Lemma grants_run {Op} (self : Register.Register L I Op) opts h0 opening ms :
  Register.handler self opts ([] : list ClientMsg) = Some (h0, opening) ->
  Register.auth Op self opts = ([], false) -> grants (Register.caps Op self opts) ms ->
  exists v h1 requests,
    RegisterThms.run ms (h0, []) = Some (Ok (Some v), (h1, requests ++ [Register.cap_end_msg])) /\ RegisterThms.ends requests = 0.
Proof.
  intros (Hst & Hn & _ & Hc)%RegisterThms.handler_made Ha
    (lss & ls & m_ls & caps & acks & cs & m_001 & m_end & before & after & rest & -> & Hr & K1 & K2 & K3 & K4 & K5 & K6 & K7 & K8 & K9 & K10).
  unfold RegisterThms.insists in Hn. rewrite Ha in Hst, Hn. rewrite <- Hc in Hr, K4.
  assert (Hn0 : Register.needs_auth h0 = false) by (destruct (Register.needs_auth h0); [discriminate (proj1 Hn eq_refl)|done]).
  destruct (Negotiate.handshake_spec lss ls m_ls caps acks cs m_001 m_end before after rest _ h0 [] Hst Hn0 Hr K1 K2 K3 K4 K5 K6 K7 K8 K9 K10)
    as (v & h1 & requests & Hrun & He). by exists v, h1, requests.
Qed.

(** C3: A [Register] that names no authenticators and requires no login is added
    to a client without buffered data, rate adjuster or timeout function, the
    other handlers of which pass the messages of the registration by.  The
    server's lines come on the stream, in any pieces and with any delays: they
    list the capabilities, all that are asked for among them, grant these, and
    greet the client, with ignored messages in between.  If [run], called again
    as long as it only times out, has results (C4 is about its returning), they
    are the registration's: the receiver that [add] gave has an [Ok], the
    registration is in the shared state, and the client asked to send the
    opening messages, the requests and one [CAP END], all of which is sent or
    still in the queue. *)
Theorem registration_completes {Op} (self : Register.Register L I Op) opts (cl0 cl cl' : Client) id a script tail rfuel res :
  Register.auth Op self opts = ([], false) ->
  Handlers.ids_wf (lhandlers (logic cl0)) -> Queue.adjuster (lqueue (logic cl0)) = None ->
  buf_i (cconn cl0) = [] -> buf_o (cconn cl0) = [] -> on_timeout cl0 = None ->
  (forall m, m ∈ script.*2 -> Forall (fun b => Handlers.passes call m b.1) (Handlers.handlers (lhandlers (logic cl0)))) ->
  add_register self opts cl0 = Some (Ok (id, Some a), cl) ->
  Forall script_line script -> stream (io (cconn cl0)) = script_wire script ++ tail ->
  grants (Register.caps Op self opts) script.*2 ->
  driven mangle type_id instant_max timeout_fn rfuel cl res cl' ->
  res = ([id], [id]) /\ recv_at (heap (logic cl')) a = Some (Some (into (Ok () : result () Register.HandlerError))) /\
  Handlers.handlers (lhandlers (logic cl')) ≡ₚ Handlers.handlers (lhandlers (logic cl0)) /\
  exists v opening requests,
    lstate (logic cl') = Register.save type_id v (lstate (logic cl0)) /\
    option_map snd (Register.handler self opts ([] : list ClientMsg)) = Some opening /\ RegisterThms.ends requests = 0 /\
    sent (io (cconn cl')) ++ wire (Queue.queue (lqueue (logic cl'))) =
      sent (io (cconn cl0)) ++ wire (Queue.queue (lqueue (logic cl0)) ++ opening ++ requests ++ [Register.cap_end_msg]).
Proof.
  intros Hauth Hids Ha Hi Hb Hf Hp Hadd Hlines Hst Hg Hd.
  destruct (add_register_spec self opts cl0 cl id (Some a) Hids Hadd) as (h0 & opening & Hh & [= ->] & Hhs & Hq & Hls & Hw & Hc & Ho).
  destruct (grants_run self opts h0 opening script.*2 Hh Hauth Hg) as (v & h1 & requests & Hrun & He).
  assert (Hhs' : Handlers.handlers (lhandlers (logic cl)) ≡ₚ
    (BRegister (h0, sender_at (length (heap (logic cl0)))), id) :: Handlers.handlers (lhandlers (logic cl0))).
  { rewrite Hhs. symmetry. apply Permutation_cons_append. }
  assert (Hcl : Registering mangle type_id script tail h0 (sender_at (length (heap (logic cl0)))) id
    (Handlers.handlers (lhandlers (logic cl0))) cl) by (split; [done|done|done|by rewrite ?Hq, ?Hc, ?Ho..]).
  destruct (registers_spec mangle type_id instant_max timeout_fn script tail h0 _ id _ _ h1 _ Hrun ltac:(done) cl Hcl rfuel res cl' Hd)
    as (-> & K2 & K3 & K4 & K5 & _).
  destruct (told_sync (heap (logic cl0)) (Ok (Some v))) as (Hheard & Hrecv & _). rewrite Hw in *. rewrite Hheard, K4.
  split; [done|]. split; [exact Hrecv|]. split; [done|]. exists v, opening, requests. rewrite K3, Hls, Hh. split; [done|].
  split; [done|]. split; [done|]. rewrite K5, Hc, Hq. cbn [Queue.queue Queue.with_msgs]. by rewrite <- app_assoc.
Qed.
End Completes.

(** ** Witnesses *)

#[local] Existing Instances Base64.pair_engine ClientThms.no_adjuster.

Abbreviation Answered := (result () Register.HandlerError).

(** The values that go through channels here are the handler's, and the channels
    of [tokio] hold on to what is sent. *)
#[local] Program Instance sample_value : Value Answered Answered := {| into v := v; from := Some |}.
Next Obligation. done. Qed.
#[local] Instance sample_tokio : Tokio Answered (list Answered) (list Answered) := {|
  oneshot_channel := [];
  oneshot_send v c := (true, c ++ [v]);
  oneshot_drop c := c;
  unbounded_channel := [];
  unbounded_send v c := (true, c ++ [v]);
  unbounded_drop c := c;
  upgrade _ := true;
|}.
Abbreviation SampleHeap := (list (Cell Answered (list Answered) (list Answered))).

(** No handlers of the program's own. *)
#[local] Instance no_user_handler : Handler () N SampleHeap Empty_set () := {|
  hhandle (h : Empty_set) := match h with end;
  hwants_owning (h : Empty_set) := match h with end;
|}.
Abbreviation SampleBox := (BoxHandler SampleHeap Auth.Logic (list (list byte)) Empty_set ()).
Abbreviation SampleClient := (Client () N SampleBox SampleHeap () Sim SyncChannels).

Definition sample_never (f : ()) (l : ClientLogic () N SampleBox SampleHeap) : Handlers.ControlFlow () * () * ClientLogic () N SampleBox SampleHeap :=
  (Handlers.Continue, f, l).

(** What a server sends to a client that asks for two capabilities. *)
Definition sample_lines : list (list byte) :=
  [bs "CAP * LS :sasl=PLAIN sts=port=1 echo-message batch"; bs "CAP me ACK :echo-message"; bs "CAP me ACK :batch";
   bs "001 me Welcome"; bs "002 me :Your host"; bs "005 me NETWORK=x :are supported"; bs "422 me none"].
Definition sample_script : list (list byte * ServerMsg) :=
  (fun l => (l, match server_parse l with Some (Ok m) => m | _ => Negotiate.sample_ls end)) <$> sample_lines.
Definition sample_tail : list byte := bs "PING :x" ++ Codec.CRLF.

(** The first of it comes in pieces, something else ten seconds later. *)
Definition sample_conn : Sim :=
  mkSim 0 None
    [(0%N, "C"%byte, bs "AP * LS :sasl=PLAIN sts="); (3%N, "p"%byte, drop 26 (script_wire sample_script));
     (Queue.from_secs 10, "P"%byte, drop 1 sample_tail)] [].

(** A client that answers pings, and the registration added to it. *)
Definition sample_before : SampleClient :=
  new_with_logic sample_conn sync_channels
    (with_handlers (mkHandlers [(BAutoPong (auto_pong, dyn_closed), 0)] [] [] false) (logic_new 0 [])).
Definition sample_register : Register.Register Auth.Logic (list (list byte)) () :=
  Register.mkRegister (fun _ => None) (fun _ => bs "u") (fun _ => bs "0") (fun _ => bs "*") (fun _ => bs "r")
    (fun _ => Some (Nick.GFromIter (bs "me") [bs "me_"; bs "me__"])) (fun _ => Negotiate.sample_caps_fn) (fun _ => ([], false)).

Definition sample_max : N := Queue.from_secs 1000000.
Abbreviation sample_call := (Boxed.call (A := ()) (Lb := N) (W := SampleHeap) (L := Auth.Logic) (I := list (list byte)) (U := Empty_set) (T := ())
  (fun n => n) State.sample_type_id).
Abbreviation sample_run := (Client.run sample_max sample_call sample_never 8800).

Definition sample_client : SampleClient :=
  match add_register (fun n => n) State.sample_type_id sample_register () sample_before with
  | Some (_, cl) => cl
  | None => sample_before
  end.
Definition sample_after : SampleClient :=
  match sample_run 9 sample_client with Client.Done (_, cl) => cl | _ => sample_client end.

Lemma sample_added : add_register (fun n => n) State.sample_type_id sample_register () sample_before = Some (Ok (1, Some 0), sample_client).
Proof. vm_compute. reflexivity. Qed.

Lemma sample_driven : driven (fun n => n) State.sample_type_id sample_max sample_never 8800 sample_client ([1], [1]) sample_after.
Proof. exists sample_client, 9. split; [done|]. vm_compute. reflexivity. Qed.

Lemma sample_all (f : ServerMsg -> bool) : forallb f sample_script.*2 = true -> forall m, m ∈ sample_script.*2 -> f m = true.
Proof. intros K m Hm. apply (proj1 (forallb_forall f _) K). by apply list_elem_of_In. Qed.

Lemma sample_script_lines : Forall script_line sample_script.
Proof.
  assert (K : forallb (fun l => bool_decide (valid Line l) && negb (bool_decide (l = [])) && (length l + 2 <=? Codec.SERVER_MAX_LEN) &&
    match server_parse l with Some (Ok _) => true | _ => false end) sample_lines = true) by (vm_compute; reflexivity).
  apply Forall_fmap, Forall_forall. intros l Hl. rewrite forallb_forall in K. specialize (K l (proj1 (list_elem_of_In _ _) Hl)).
  apply andb_true_iff in K as [K Hp]. apply andb_true_iff in K as [K Hlen%Nat.leb_le]. apply andb_true_iff in K as [Hv%bool_decide_eq_true Hne].
  unfold script_line. cbn [fst snd compose]. split; [exact Hv|]. split; [intros ->; by vm_compute in Hne|]. split; [exact Hlen|].
  by destruct (server_parse l) as [[m|e]|].
Qed.

(** None of it is a ping. *)
Lemma sample_passes m : m ∈ sample_script.*2 -> Forall (fun b => Handlers.passes sample_call m b.1) [(BAutoPong (auto_pong, dyn_closed), 0)].
Proof.
  intros Hm. apply Forall_singleton, auto_pong_passes. apply negb_true_iff.
  exact (sample_all (fun m => negb (Replies.is_cmd m (bs "PING"))) ltac:(vm_compute; reflexivity) m Hm).
Qed.

Lemma sample_not_ping : forall m, m ∈ sample_script.*2 -> Negotiate.plain_msg m.
Proof.
  intros m Hm. apply Negotiate.sample_plain.
  - pose proof (sample_all (fun m => match source m with None => true | _ => false end) ltac:(vm_compute; reflexivity) m Hm) as K.
    cbv beta in K. by destruct (source m).
  - pose proof (sample_all (fun m => negb (Replies.is_cmd m (bs "PING"))) ltac:(vm_compute; reflexivity) m Hm) as K. intros Hk.
    unfold Replies.is_cmd in K. rewrite Hk in K. by vm_compute in K.
Qed.

Lemma sample_grants : grants Negotiate.sample_caps_fn sample_script.*2.
Proof.
  set (ms := sample_script.*2). set (m := fun i => nth i ms Negotiate.sample_ls).
  assert (Hp : forall i, i < 7 -> Negotiate.plain_msg (m i)).
  { intros i Hi. apply sample_not_ping, list_elem_of_In, nth_In. exact Hi. }
  exists [], [], (m 0), [(bs "batch", []); (bs "echo-message", []); (bs "sasl", bs "PLAIN"); (bs "sts", bs "port=1")], [m 1; m 2],
    [[(bs "echo-message", [])]; [(bs "batch", [])]], (m 3), (m 6), [m 0; m 1; m 2; m 3], [m 4; m 5], [].
  split; [reflexivity|]. split; [intros c Hc; apply Negotiate.elem_of_intersection in Hc as [_ Hc]; exact Hc|].
  split; [constructor|]. split; [split; [apply Hp; lia|]; split; [reflexivity|]; exists (bs "*"); vm_compute; reflexivity|]. split.
  { constructor; [|constructor; [|constructor]]; exists true; (split; [apply Hp; lia|]); (split; [reflexivity|]); exists (bs "me"); vm_compute; reflexivity. }
  split.
  { intros c Hc.
    match type of Hc with c ∈ ?l => assert (He : l = [bs "batch"; bs "echo-message"; bs "sts"]) by (vm_compute; reflexivity) end.
    rewrite He in Hc. rewrite !elem_of_cons in Hc. destruct Hc as [->|[->|[->|[]%elem_of_nil]]]; [right|right|by left].
    - exists [(bs "batch", [])]. split; [right; by left|by left].
    - exists [(bs "echo-message", [])]. split; by left. }
  split; [apply Hp; lia|]. split; [reflexivity|]. split; [apply Hp; lia|]. split; [right; by left|]. split; [apply Negotiate.among_refl|].
  apply Forall_cons. split; [|apply Forall_singleton; right; split; [apply Hp; lia|by right]].
  left. split; [apply Hp; lia|]. split; [vm_compute; discriminate|].
  rewrite !not_elem_of_cons. split_and!; try (vm_compute; discriminate). apply not_elem_of_nil.
Qed.

Lemma sample_stream : stream (io (cconn sample_before)) = script_wire sample_script ++ sample_tail.
Proof. vm_compute. reflexivity. Qed.

Lemma registration_completes_witness :
  driven (fun n => n) State.sample_type_id sample_max sample_never 8800 sample_client ([1], [1]) sample_after /\
  recv_at (heap (logic sample_after)) 0 = Some (Some (Ok ())) /\
  exists opening requests, RegisterThms.ends requests = 0 /\
    sent (io (cconn sample_after)) ++ [] = wire (opening ++ requests ++ [Register.cap_end_msg]).
Proof.
  split; [exact sample_driven|].
  destruct (registration_completes (fun n => n) State.sample_type_id sample_max sample_never sample_register () sample_before sample_client sample_after
    1 0 sample_script sample_tail 8800 ([1], [1]) eq_refl (Permutation_refl _) eq_refl eq_refl eq_refl eq_refl sample_passes sample_added sample_script_lines
    sample_stream sample_grants sample_driven) as (_ & K & _ & v & opening & requests & _ & _ & Ke & Ks).
  split; [exact K|]. exists opening, requests. split; [exact Ke|].
  assert (Hq : wire (Queue.queue (lqueue (logic sample_after))) = []) by (vm_compute; reflexivity). rewrite Hq in Ks. exact Ks.
Defined.

Definition sample_handler : Register.Handler Auth.Logic (list (list byte)) :=
  match Register.handler sample_register () ([] : list ClientMsg) with Some (h, _) => h | None => Negotiate.sample_handler end.

(** The run of the handler by itself. *)
Lemma sample_answer : exists v h1 out, RegisterThms.run sample_script.*2 (sample_handler, [] : list ClientMsg) = Some (Ok (Some v), (h1, out)).
Proof. do 3 eexists. vm_compute. reflexivity. Qed.

Lemma sample_registering :
  Registering (fun n => n) State.sample_type_id sample_script sample_tail sample_handler (sender_at (V := Answered) 0) 1
    [(BAutoPong (auto_pong, dyn_closed), 0)] sample_client.
Proof.
  split; [exact sample_script_lines|exact sample_passes| |reflexivity..|exact sample_stream].
  apply Permutation_swap.
Qed.

Lemma client_registers_witness :
  exists v, heap (logic sample_after) = told (sender_at (V := Answered) 0) (Ok (Some v)) (heap (logic sample_client)).
Proof.
  destruct sample_answer as (v & h1 & out & Hr). exists v.
  destruct (client_registers (fun n => n) State.sample_type_id sample_max sample_never sample_script sample_tail sample_handler _ 1 _
    (Ok (Some v)) h1 out sample_client 8800 ([1], [1]) sample_after Hr ltac:(discriminate) sample_registering sample_driven) as (_ & _ & _ & K & _).
  exact K.
Defined.

