(* ===== verification/Serde.v ===== *)
(** * Serialization

    [src/string/serde.rs] and the [serde] implementations of the other files:
    what values of a self-describing format strings, argument lists, tags and
    numerics become, and what is read back from any such value.  What a format
    makes of bytes, and what it hands to a visitor when it is asked for a string,
    are parameters.  The error of a format, whose text is up to the format, is
    [()]. *)

From S2P Require Import Prelude Utf8 Strings FlatMap.
From S2P Require Args Tags Numeric Auth.
From Stdlib Require Import Sorting.Sorted.

(** The values of a format; [VStr] is text. *)
Inductive Value :=
| VBool (b : bool)
| VUnit
| VUint (n : N)
| VStr (s : list byte)
| VBytes (s : list byte)
| VSeq (l : list Value)
| VMap (l : list (Value * Value)).

Abbreviation De T := (result T ()).

(** What a visitor is called with; [VisitOther] is a call it does not have, or an
    error of the format. *)
Inductive Visit := VisitBool (b : bool) | VisitUnit | VisitStr (s : list byte) | VisitBytes (s : list byte) | VisitOther.

(** A format: the value that [serialize_bytes] makes, which may be a sequence, and
    the call that [deserialize_string] answers a value with. *)
Class Format := {
  bytes_value : list byte -> Value;
  string_request : Value -> Visit;
}.

(** Text that is asked for as a string is handed over as such. *)
Class FormatOk `{Format} : Prop := {
  string_request_str s : string_request (VStr s) = VisitStr s;
}.

(** A format that gives bytes back to who asks for a string. *)
Definition keeps_bytes `{Format} : Prop := forall s, string_request (bytes_value s) = VisitBytes s.

(** The values themselves, as they are kept for the variants of an untagged
    enumeration. *)
Definition content_format : Format := {|
  bytes_value := VBytes;
  string_request v :=
    match v with
    | VBool b => VisitBool b
    | VUnit => VisitUnit
    | VStr s => VisitStr s
    | VBytes s => VisitBytes s
    | _ => VisitOther
    end;
|}.

(** A format without bytes, like JSON: they are written as a sequence of
    numbers. *)
Definition json_format : Format := {|
  bytes_value s := VSeq ((fun b => VUint (code b)) <$> s);
  string_request v := match v with VStr s => VisitStr s | _ => VisitOther end;
|}.

Section Serde.
Context `{Format}.

(** ** Strings *)

Definition bytes_serialize (s : list byte) : Value := if utf8_valid s then VStr s else bytes_value s.

(** The [Visitor]; what it does not define is an error. *)
Definition visitor (v : Visit) : De (list byte) :=
  match v with
  | VisitBool false | VisitUnit => Ok []
  | VisitStr s | VisitBytes s => Ok s
  | VisitBool true | VisitOther => Err ()
  end.

Definition bytes_deserialize (v : Value) : De (list byte) := visitor (string_request v).

(** Newtypes serialize as their bytes. *)
Definition newtype_deserialize (U : BytesNewtype) (v : Value) : De (list byte) :=
  let? bytes := bytes_deserialize v in map_err (fun _ => ()) (from_bytes U bytes).

(** ** [Secret] and [Clear] *)

(** [decode] is the Base64 engine's. *)
Definition clear_deserialize (decode : list byte -> option (list byte)) (v : Value) : De Auth.Clear :=
  match v with
  | VStr s => match decode s with Some data => Ok (Auth.mkClear data) | None => Err () end
  | _ => Err ()
  end.

Definition secret_deserialize {S} `{Auth.LoadSecret S} (U : BytesNewtype) (loader : Value -> De S) (v : Value) : De (list byte) :=
  let? loaded := loader v in
  match Auth.load_secret loaded [] with
  | Ok buf => map_err (fun _ => ()) (from_bytes U buf)
  | Err _ => Err ()
  end.

(** ** Arguments *)

Definition args_serialize (a : Args.Args) : Value :=
  VSeq ((bytes_serialize <$> Args.words a) ++ match Args.long a with Some long => [bytes_serialize long] | None => [] end).

(** [Vec::deserialize]. *)
Fixpoint seq_deserialize {T} (f : Value -> De T) (l : list Value) : De (list T) :=
  match l with
  | [] => Ok []
  | v :: l => let? x := f v in let? r := seq_deserialize f l in Ok (x :: r)
  end.

Fixpoint check_words (args : list (list byte)) : De (list (list byte)) :=
  match args with
  | [] => Ok []
  | arg :: args =>
      match find_invalid Arg arg with
      | Some _ => Err ()
      | None => let? words := check_words args in Ok (arg :: words)
      end
  end.

Definition args_deserialize (v : Value) : De Args.Args :=
  match v with
  | VSeq l =>
      let? args := seq_deserialize bytes_deserialize l in
      match last args with
      | None => Ok Args.empty
      | Some last_arg =>
          let? words := check_words (take (length args - 1) args) in
          match from_bytes Line last_arg with
          | Ok last_arg => Ok (Args.add_impl (Args.mkArgs words None) last_arg).2
          | Err _ => Err ()
          end
      end
  | _ => Err ()
  end.

(** ** Tags *)

Definition tags_serialize (t : list (list byte * list byte)) : Value :=
  VMap ((fun kv => (bytes_serialize kv.1, bytes_serialize kv.2)) <$> t).

(** [BTreeMap::insert]. *)
Fixpoint btree_map_insert (k v : list byte) (m : list (list byte * list byte)) : list (list byte * list byte) :=
  match m with
  | [] => [(k, v)]
  | (k', v') :: m' =>
      match kcmp k k' with
      | Lt => (k, v) :: m
      | Eq => (k', v) :: m'
      | Gt => (k', v') :: btree_map_insert k v m'
      end
  end.

Fixpoint btree_map_deserialize (l : list (Value * Value)) (m : list (list byte * list byte))
    : De (list (list byte * list byte)) :=
  match l with
  | [] => Ok m
  | (k, v) :: l =>
      let? k := newtype_deserialize Key k in
      let? v := newtype_deserialize NoNul v in
      btree_map_deserialize l (btree_map_insert k v m)
  end.

Definition tags_deserialize (v : Value) : De (list (list byte * list byte)) :=
  match v with
  | VMap l => let? tags := btree_map_deserialize l [] in Ok (from_vec fst tags)
  | _ => Err ()
  end.

(** ** Numerics *)

(** [into = "u16"]. *)
Definition numeric_serialize (n : Numeric.Numeric) : Value := VUint (Numeric.into_int n).

Definition nonzero_u8_deserialize (v : Value) : De byte :=
  match v with VUint n => if ((0 <? n) && (n <? 256))%N then Ok (byte_of n) else Err () | _ => Err () end.

(** Derived: the inner array, and no conversion from [u16]. *)
Definition numeric_deserialize (v : Value) : De Numeric.Numeric :=
  match v with
  | VSeq [a; b; c] =>
      let? a := nonzero_u8_deserialize a in
      let? b := nonzero_u8_deserialize b in
      let? c := nonzero_u8_deserialize c in
      Ok (Numeric.mkNumeric a b c)
  | _ => Err ()
  end.

(** [untagged]: the first variant that fits. *)
Definition kind_serialize (k : Numeric.ServerMsgKindRaw) : Value :=
  match k with Numeric.KNumeric n => numeric_serialize n | Numeric.KCmd c => bytes_serialize c end.

End Serde.

(** Each variant is tried on what was read. *)
Definition kind_deserialize (v : Value) : De Numeric.ServerMsgKindRaw :=
  match numeric_deserialize v with
  | Ok n => Ok (Numeric.KNumeric n)
  | Err _ =>
      match newtype_deserialize (H := content_format) Cmd v with
      | Ok c => Ok (Numeric.KCmd c)
      | Err _ => Err ()
      end
  end.

(** ** Lemmas *)

Section Thms.
Context `{FormatOk}.

(** A string that comes through the format. *)
Definition carried (s : list byte) : Prop := utf8_valid s = true \/ keeps_bytes.

Lemma bytes_rt s : carried s -> bytes_deserialize (bytes_serialize s) = Ok s.
Proof.
  unfold bytes_serialize, bytes_deserialize. intros Hc. destruct (utf8_valid s) eqn:Hu; [by rewrite string_request_str|].
  destruct Hc as [Hc|Hc]; [congruence|by rewrite Hc].
Qed.

Lemma newtype_rt U s : valid U s -> carried s -> newtype_deserialize U (bytes_serialize s) = Ok s.
Proof. intros Hv Hc. unfold newtype_deserialize. rewrite bytes_rt by done. cbn. by rewrite (proj2 (from_bytes_Ok U s s)). Qed.

Lemma newtype_valid U v s : newtype_deserialize U v = Ok s -> valid U s.
Proof.
  unfold newtype_deserialize. destruct (bytes_deserialize v) as [b|]; [|done]. cbn.
  destruct (from_bytes U b) as [b'|] eqn:Hb; [|done]. apply from_bytes_Ok in Hb as [-> Hv]. by intros [= <-].
Qed.

Lemma seq_rt (l : list (list byte)) : Forall carried l -> seq_deserialize bytes_deserialize (bytes_serialize <$> l) = Ok l.
Proof. induction 1 as [|s l Hs _ IH]; [done|]. cbn. by rewrite bytes_rt, IH. Qed.

Lemma check_words_Ok l ws : check_words l = Ok ws <-> ws = l /\ Forall (valid Arg) l.
Proof.
  revert ws. induction l as [|s l IH]; intros ws; cbn.
  - split; [by intros [= <-]|by intros [-> _]].
  - unfold valid. destruct (find_invalid Arg s) eqn:Hs.
    + split; [done|]. intros [_ Hf]. by apply Forall_cons in Hf as [Hf _]; rewrite Hs in Hf.
    + destruct (check_words l) as [ws'|] eqn:Hl.
      * destruct (proj1 (IH ws') eq_refl) as [-> Hf]. split; [intros [= <-]; split; [done|by constructor]|by intros [-> _]].
      * split; [done|]. intros [_ Hf]. apply Forall_cons in Hf as [_ Hf]. pose proof (proj2 (IH l) (conj eq_refl Hf)) as K. discriminate K.
Qed.

(** Adding the last argument to words makes a well-formed list. *)
Lemma add_last_wf ws l : Forall (valid Arg) ws -> valid Line l -> Args.args_wf (Args.add_impl (Args.mkArgs ws None) l).2.
Proof.
  intros Hw Hl. unfold Args.add_impl. destruct (find_invalid Arg l) eqn:Ha; cbn; split; cbn; try done.
  - intros l' [= <-]. by rewrite Ha.
  - by apply Forall_app; split; [|constructor].
Qed.

Lemma elem_of_btree_map_insert k v m e : e ∈ btree_map_insert k v m -> e = (k, v) \/ e ∈ m.
Proof.
  induction m as [|[k' v'] m IH]; cbn [btree_map_insert]; [by intros ->%list_elem_of_singleton; left|].
  destruct (kcmp k k') eqn:Hk.
  - apply kcmp_eq in Hk as ->. rewrite !elem_of_cons. tauto.
  - rewrite !elem_of_cons. tauto.
  - rewrite !elem_of_cons. tauto.
Qed.

Lemma btree_map_insert_sorted k v m : sorted fst m -> sorted fst (btree_map_insert k v m).
Proof.
  induction 1 as [|[k' v'] m Hs IH Hf]; cbn [btree_map_insert]; [by repeat constructor|].
  destruct (kcmp k k') eqn:Hk.
  - by constructor.
  - constructor; [by constructor|]. constructor; [done|]. eapply Forall_impl; [exact Hf|]. intros e He. unfold klt in *. cbn [fst] in *. by eapply kcmp_trans.
  - constructor; [done|]. apply Forall_forall. intros e He%elem_of_btree_map_insert.
    destruct He as [->|He]; [by apply kcmp_gt|by eapply Forall_forall in Hf].
Qed.

(** A key beyond the others is added at the end. *)
Lemma btree_map_insert_last k v m : Forall (fun kv => kcmp kv.1 k = Lt) m -> btree_map_insert k v m = m ++ [(k, v)].
Proof.
  induction 1 as [|[k' v'] m Hk _ IH]; [done|]. cbn [btree_map_insert app fst] in *. apply kcmp_gt in Hk as ->. by rewrite IH.
Qed.

Definition pair_ok (kv : list byte * list byte) : Prop := valid Key kv.1 /\ valid NoNul kv.2.

Lemma btree_map_deserialize_wf l m t :
  sorted fst m -> Forall pair_ok m -> btree_map_deserialize l m = Ok t -> sorted fst t /\ Forall pair_ok t.
Proof.
  revert m. induction l as [|[k v] l IH]; intros m Hs Hf; cbn; [by intros [= <-]|].
  destruct (newtype_deserialize Key k) as [k'|] eqn:Hk; [|done]. destruct (newtype_deserialize NoNul v) as [v'|] eqn:Hv; [|done].
  apply IH; [by apply btree_map_insert_sorted|]. apply Forall_forall. intros e [->|He]%elem_of_btree_map_insert.
  - split; by eapply newtype_valid.
  - by eapply Forall_forall in Hf.
Qed.

Lemma btree_map_rt t m :
  sorted fst (m ++ t) -> Forall pair_ok t -> Forall (fun kv => carried kv.1 /\ carried kv.2) t ->
  btree_map_deserialize ((fun kv => (bytes_serialize kv.1, bytes_serialize kv.2)) <$> t) m = Ok (m ++ t).
Proof.
  revert m. induction t as [|[k v] t IH]; intros m Hs Hf Hc; cbn; [by rewrite app_nil_r|].
  apply Forall_cons in Hf as [[Hk Hv] Hf]. apply Forall_cons in Hc as [[Hck Hcv] Hc]. cbn in Hk, Hv, Hck, Hcv. rewrite !newtype_rt by done.
  rewrite btree_map_insert_last.
  - rewrite IH; [by rewrite <- app_assoc|by rewrite <- app_assoc|done..].
  - clear -Hs. induction m as [|e m IH]; [constructor|]. apply StronglySorted_inv in Hs as [Hs He].
    constructor; [|by apply IH]. apply Forall_app in He as [_ He]. by apply Forall_inv in He.
Qed.

(** ** Theorems *)

(** C36: Whatever a format holds, what is read from it is well-formed: a string of
    a type satisfies the type's rule, only the last argument may be more than a
    word, and tags are sorted with each key once. *)
Theorem deserialize_wf v :
  (forall U s, newtype_deserialize U v = Ok s -> valid U s) /\
  (forall a, args_deserialize v = Ok a -> Args.args_wf a) /\
  (forall t, tags_deserialize v = Ok t -> Tags.tags_wf t).
Proof.
  split; [by intros U s; apply newtype_valid|]. split.
  - intros a. destruct v as [| | | | |l|]; try done. cbn. destruct (seq_deserialize _ l) as [args|]; [|done].
    destruct (last args) as [l'|]; [|by intros [= <-]; split]. destruct (check_words _) as [ws|] eqn:Hw; [|done].
    apply check_words_Ok in Hw as [-> Hw]. destruct (from_bytes Line l') as [l''|] eqn:Hl; [|done].
    apply from_bytes_Ok in Hl as [-> Hl]. intros [= <-]. by apply add_last_wf.
  - intros t. destruct v as [| | | | | |l]; try done. cbn. destruct (btree_map_deserialize l []) as [t'|] eqn:Ht; [|done].
    apply btree_map_deserialize_wf in Ht as [Hs Hf]; [|constructor..]. intros [= <-]. rewrite from_vec_sorted by done. by split.
Qed.

(** C35: In every format that gives text back as text, strings, arguments and tags
    that are UTF-8 are read back as they were written, and so are commands; those
    that are not UTF-8 are as well in a format that gives bytes back to who asks
    for a string. *)
Theorem serde_roundtrip :
  (forall s, carried s -> bytes_deserialize (bytes_serialize s) = Ok s) /\
  (forall U s, valid U s -> carried s -> newtype_deserialize U (bytes_serialize s) = Ok s) /\
  (forall a, Args.args_wf a -> Forall carried (Args.words a) -> (forall l, Args.long a = Some l -> carried l) ->
     args_deserialize (args_serialize a) = Ok a) /\
  (forall t, Tags.tags_wf t -> Forall (fun kv => carried kv.1 /\ carried kv.2) t -> tags_deserialize (tags_serialize t) = Ok t) /\
  (forall c, valid Cmd c -> kind_deserialize (kind_serialize (Numeric.KCmd c)) = Ok (Numeric.KCmd c)).
Proof.
  split; [apply bytes_rt|]. split; [apply newtype_rt|]. split; [|split].
  - intros [ws long] [Hw Hl] Hcw Hcl. cbn in Hw, Hl, Hcw, Hcl. unfold args_serialize, args_deserialize. cbn [Args.words Args.long].
    destruct long as [l|].
    + destruct (Hl l eq_refl) as [Hv Hi]. change [bytes_serialize l] with (bytes_serialize <$> [l]). rewrite <- fmap_app, seq_rt.
      2: { apply Forall_app. split; [done|]. apply Forall_singleton. by apply Hcl. }
      rewrite last_snoc, length_app, Nat.add_sub, take_app_length. rewrite (proj2 (check_words_Ok ws ws)) by done.
      rewrite (proj2 (from_bytes_Ok Line l l)) by done. unfold Args.add_impl. by destruct (find_invalid Arg l).
    + rewrite app_nil_r, seq_rt by done. destruct ws as [|w ws _] using rev_ind; [done|].
      rewrite last_snoc, length_app, Nat.add_sub, take_app_length. apply Forall_app in Hw as [Hw Hv%Forall_inv].
      rewrite (proj2 (check_words_Ok ws ws)) by done. rewrite (proj2 (from_bytes_Ok Line w w)) by eauto with vz.
      unfold Args.add_impl. by rewrite Hv.
  - intros t [Hs Hf] Hc. unfold tags_serialize, tags_deserialize. rewrite btree_map_rt by done. cbn [app]. by rewrite from_vec_sorted.
  - intros c Hc. unfold kind_deserialize, kind_serialize, bytes_serialize.
    assert (Hu : utf8_valid c = true).
    { apply utf8_all_ascii, Forall_forallb. apply valid_iff in Hc as [_ Hc]. eapply List.Forall_impl; [|exact Hc]. intros b. byte_cases b. }
    rewrite Hu. cbn. unfold newtype_deserialize, bytes_deserialize. cbn. by rewrite (proj2 (from_bytes_Ok Cmd c c)).
Qed.
End Thms.

#[local] Instance content_ok : FormatOk (H := content_format).
Proof. by split. Qed.
#[local] Instance json_ok : FormatOk (H := json_format).
Proof. by split. Qed.

(** In JSON a string that is not UTF-8 is written and not read back: the visitor
    takes no sequence. *)
Theorem json_loses_bytes s : utf8_valid s = false -> bytes_deserialize (H := json_format) (bytes_serialize (H := json_format) s) = Err ().
Proof. unfold bytes_serialize, bytes_deserialize. intros ->. done. Qed.

Lemma json_loses_bytes_witness : bytes_deserialize (H := json_format) (bytes_serialize (H := json_format) [xff]) = Err ().
Proof. apply (json_loses_bytes [xff]). reflexivity. Defined.

(** From here on, the values themselves. *)
#[local] Existing Instance content_format.

Lemma deserialize_wf_witness :
  args_deserialize (VSeq [VStr (bs "#a"); VStr (bs "b c")]) = Ok (Args.mkArgs [bs "#a"] (Some (bs "b c"))) /\
  Args.args_wf (Args.mkArgs [bs "#a"] (Some (bs "b c"))).
Proof.
  assert (Hd : args_deserialize (VSeq [VStr (bs "#a"); VStr (bs "b c")]) = Ok (Args.mkArgs [bs "#a"] (Some (bs "b c")))) by reflexivity.
  split; [exact Hd|]. exact (proj1 (proj2 (deserialize_wf (VSeq [VStr (bs "#a"); VStr (bs "b c")]))) _ Hd).
Defined.

(** Tags that are text in JSON, and a word that is not in a format with bytes. *)
Lemma serde_roundtrip_witness :
  tags_deserialize (H := json_format) (tags_serialize (H := json_format) [(bs "+a", []); (bs "id", bs "9")])
    = Ok [(bs "+a", []); (bs "id", bs "9")] /\
  newtype_deserialize Arg (bytes_serialize [xff]) = Ok [xff].
Proof.
  assert (Hw : Tags.tags_wf [(bs "+a", []); (bs "id", bs "9")]) by (split; repeat constructor).
  split.
  - apply (proj1 (proj2 (proj2 (proj2 (serde_roundtrip (H := json_format) (H0 := json_ok))))) _ Hw).
    repeat (apply List.Forall_cons; [split; left; reflexivity|]). apply List.Forall_nil.
  - apply (proj1 (proj2 (serde_roundtrip (H := content_format) (H0 := content_ok))) Arg [xff]); [reflexivity|right; intros s; reflexivity].
Defined.

(** ** Numerics *)

(** A numeric goes out as an integer but is only read from three bytes: no reply
    that is written can be read back. *)
Lemma numeric_not_read_back `{Format} n : kind_deserialize (kind_serialize (Numeric.KNumeric n)) = Err ().
Proof. done. Qed.

(** And those bytes need not be digits, nor text, which what uses a numeric
    relies on without checking. *)
Lemma numeric_any_bytes : exists v n,
  kind_deserialize v = Ok (Numeric.KNumeric n) /\ ~ Numeric.numeric_wf n /\ utf8_valid (Numeric.as_bytes n) = false.
Proof.
  exists (VSeq [VUint 255; VUint 255; VUint 255]), (Numeric.mkNumeric xff xff xff). split; [done|]. split; [|done]. by intros [? _].
Qed.
