(* ===== verification/UnitTests.v ===== *)
(** * The unit tests of the repository

    Each test of the [tests.rs] files that does not depend on threads or chance,
    run on the definitions here: the model gives the very values that the tests
    expect of the program. *)

From S2P Require Import Prelude Strings Splitter Transforms FlatMap Tags Args Source Numeric Msg.
From S2P Require BytesCell Builder Codec Ctcp Mode Base64 Rfc4648 Auth Cap State Nick ThinArc.

(** ** Strings: [src/string/subtypes/tests.rs] *)

Definition is_ok {A B} (r : result A B) : bool := match r with Ok _ => true | Err _ => false end.
Definition accepts (U : BytesNewtype) (l : list byte) : bool := is_ok (Strings.from_bytes U l).

Example test_line :
  accepts Line <$> [bs "foo bar"; []; bs "foobar" ++ ["010"%byte]; bs "foo" ++ "010"%byte :: bs "bar"; bs "foobar" ++ Codec.CRLF;
    bs "foobar" ++ ["013"%byte]; bs "foo" ++ "013"%byte :: bs "bar"] = [true; true; false; false; false; false; false].
Proof. vm_compute. reflexivity. Qed.

Example test_word :
  accepts Word <$> [bs "foobar"; []; bs "foo" ++ "010"%byte :: bs "bar"; bs "foo bar"; bs "foobar "; bs " foobar"] =
    [true; true; false; false; false; false].
Proof. vm_compute. reflexivity. Qed.

Example test_arg : accepts Arg <$> [bs "foobar"; bs "foo:bar"; []; bs ":foo"] = [true; true; false; false].
Proof. vm_compute. reflexivity. Qed.

(** ** Strings: [src/string/tests.rs] *)

Example test_kind_from_word :
  from_word (bs "someWord") = Ok (bs "SOMEWORD") /\ is_ok (from_word (bs "123")) = false /\ is_ok (from_word (bs "two-words")) = false.
Proof. vm_compute. split_and!; reflexivity. Qed.

Example test_secrecy :
  let o := BytesCell.from_string (bs "hunter2") in
  let c := BytesCell.clone o in
  let s := BytesCell.secret o in
  BytesCell.is_secret <$> [o; c; s; BytesCell.clone s] = [false; false; true; true].
Proof. vm_compute. reflexivity. Qed.

Example test_secrecy_empty :
  let s := BytesCell.secret BytesCell.empty in BytesCell.is_secret <$> [BytesCell.empty; s; BytesCell.clone s] = [false; true; true].
Proof. vm_compute. reflexivity. Qed.

Example test_builder :
  let b := Builder.new (mkStr (bs "foo") true false) in
  let (r1, b) := Builder.try_push Line " "%byte b in
  let b := Builder.append (mkStr (bs "bar") true false) b in
  let (r2, b) := Builder.try_push_char Line (bs " ") b in
  let (r3, b) := Builder.try_append Line (bs "baz") b in
  is_ok r1 && is_ok r2 && is_ok r3 = true /\ Builder.build b = mkStr (bs "foo bar baz") true false.
Proof. vm_compute. split; reflexivity. Qed.

Example test_splitter_basic :
  let s := Splitter.new (plain (bs "foo  bar baz")) in
  let (w, s) := string Word false s in
  let (e, s) := string Word false s in
  let s := consume_whitespace s in
  (w, e, (rest Line s).1) = (Ok (plain (bs "foo")), Ok (plain []), Ok (plain (bs "bar baz"))).
Proof. vm_compute. reflexivity. Qed.

Example test_splitter_until :
  let (w, s) := save_end (fun s => string_or_default Word true (until_byte_eq "."%byte s)) (Splitter.new (plain (bs "foo.bar"))) in
  value w = bs "foo" /\ (next_byte s).1 = Some "."%byte.
Proof. vm_compute. split; reflexivity. Qed.

Example test_map_bytes :
  (fun l => cow_ref (transformed (map_bytes l PPreserveStrict (fun b => if Byte.eqb b "-" then "+"%byte else b)))) <$>
    [bs "+++"; bs "+-+"; bs "++-"; bs "--+"; bs "---"; []; bs "-"] = [bs "+++"; bs "+++"; bs "+++"; bs "+++"; bs "+++"; []; bs "+"].
Proof. vm_compute. reflexivity. Qed.

(** ** Messages: [src/ircmsg/tests.rs] *)

Definition irc_msg (l : list byte) : option ServerMsg :=
  if accepts Line l then match server_parse l with Some (Ok m) => Some m | _ => None end else None.

Example test_parse_cmd :
  (fmap (as_arg ∘ kind) ∘ irc_msg) <$> [bs "privMSG"; bs "  NOTICE"] = [Some (bs "PRIVMSG"); Some (bs "NOTICE")].
Proof. vm_compute. reflexivity. Qed.

Definition source_of (l : list byte) : option (list byte * Source * list byte) :=
  m ← irc_msg l; s ← source m; Some (as_arg (kind m), s, Source.fmt s).

Example test_parse_source_nickonly : source_of (bs ":server PING") = Some (bs "PING", mkSource (bs "server") None, bs "server").
Proof. vm_compute. reflexivity. Qed.

Example test_parse_source_full :
  source_of (bs ":nick!user@host QUIT") =
    Some (bs "QUIT", mkSource (bs "nick") (Some (mkUserHost (Some (bs "user")) (bs "host"))), bs "nick!user@host").
Proof. vm_compute. reflexivity. Qed.

Example test_parse_arg : (split_last ∘ sargs) <$> irc_msg (bs "PONG 123") = Some ([], Some (bs "123")).
Proof. vm_compute. reflexivity. Qed.
Example test_parse_args : (words ∘ sargs) <$> irc_msg (bs "NOTICE #foo :beep") = Some [bs "#foo"; bs "beep"].
Proof. vm_compute. reflexivity. Qed.
Example test_parse_args_long :
  (split_last ∘ sargs) <$> irc_msg (bs "PRIVMSG #foo #bar :Hello world") = Some ([bs "#foo"; bs "#bar"], Some (bs "Hello world")).
Proof. vm_compute. reflexivity. Qed.

Example test_parse_tag_any :
  (fun m => (source m, as_arg (kind m))) <$> irc_msg (bs "@tag TAGMSG") = Some (None, bs "TAGMSG").
Proof. vm_compute. reflexivity. Qed.

Definition tag_values (keys : list (list byte)) (l : list byte) : option (list (option (list byte)) * nat) :=
  (fun m => (Tags.get (stags m) <$> keys, length (stags m))) <$> irc_msg l.

Example test_parse_tag_keys :
  tag_values [bs "foo"] (bs "@foo TAGMSG") = Some ([Some []], 1) /\
  tag_values [bs "foo"; bs "bar"] <$> [bs "@foo;bar TAGMSG"; bs "@foo;bar; TAGMSG"; bs "@foo;;bar TAGMSG"] =
    replicate 3 (Some ([Some []; Some []], 2)).
Proof. vm_compute. split; reflexivity. Qed.

Example test_parse_tag_keyvalues :
  tag_values [bs "foo"; bs "bar"] <$>
    [bs "@foo=foov TAGMSG"; bs "@foo=foov;bar=barv TAGMSG"; bs "@foo= TAGMSG"; bs "@foo=; TAGMSG"; bs "@foo=bar;foo=baz TAGMSG"] =
  [Some ([Some (bs "foov"); None], 1); Some ([Some (bs "foov"); Some (bs "barv")], 2); Some ([Some []; None], 1);
   Some ([Some []; None], 1); Some ([Some (bs "baz"); None], 1)].
Proof. vm_compute. reflexivity. Qed.

Definition to_string_cases : list (list byte) :=
  [bs "CMD"; bs "CMD word :some words"; bs ":src CMD word"; bs ":numeric 001"; bs ":nick!user@host CMD"; bs ":nick@host CMD"].

Example test_to_string : (fmap server_fmt ∘ irc_msg) <$> to_string_cases = Some <$> to_string_cases.
Proof. vm_compute. reflexivity. Qed.

(** [CMD :uniçödé] in UTF-8. *)
Definition unicode_case : list byte :=
  bs "CMD :uni" ++ [xc3; xa7; xc3; xb6]%byte ++ bs "d" ++ [xc3; xa9]%byte.
Definition bytes_left_cases : list (list byte) :=
  [bs "CMD"; bs "CMD :word"; bs "CMD word1 :word2"; bs "CMD word :some words"; bs ":src CMD :word"; unicode_case; bs "001"].

Example test_bytes_left :
  (fun l => (fun m => 510 - server_bytes_left m)%Z <$> irc_msg l) <$> bytes_left_cases = (fun l => Some (Z.of_nat (length l))) <$> bytes_left_cases.
Proof. vm_compute. reflexivity. Qed.

Example test_ctcp :
  (fun l => Ctcp.ccmd (Ctcp.parse l)) <$>
    [x01 :: bs "ACTION tap-dances" ++ [x01]; x01 :: bs "ACTION beeps."; bs "ACTION beeps." ++ [x01]; x01 :: bs "FOO" ++ x01 :: bs "BAR baz"]%byte =
  [bs "ACTION"; bs "ACTION"; []; bs "FOO"].
Proof. vm_compute. reflexivity. Qed.

Definition split_line (l : list byte) : option (list byte) :=
  let (idx, buf) := Codec.scroll_buf l 16 in (fun n => take n buf) <$> idx.

Example test_split :
  split_line <$> [bs "foo bar" ++ Codec.CRLF; bs "foo bar"; bs "   foo bar" ++ Codec.CRLF; replicate 4 "010"%byte ++ bs "foo bar" ++ Codec.CRLF;
    bs "foo bar" ++ ["013"%byte]; bs "     "] =
  let line := Some (bs "foo bar" ++ Codec.CRLF) in [line; None; line; line; None; None].
Proof. vm_compute. reflexivity. Qed.

(** ** Base64 and authentication: [src/string/tests.rs] and [src/client/auth/tests.rs] *)

#[local] Existing Instance Rfc4648.rfc4648_engine.

Definition string_enc : list byte := bs "amlsbGVzAGppbGxlcwBzZXNhbWU=".
Definition string_enc_1 : list byte := bs "amlsbGVzAGppbGxlcwBz".
Definition string_enc_2 : list byte := bs "ZXNhbWU=".
Definition string_dec : list byte := bs "jilles" ++ x00 :: bs "jilles" ++ x00 :: bs "sesame".

Example test_chunk_decoder :
  (fun t => (Base64.add_all t.1 (Base64.decoder t.2)).1) <$>
    [([string_enc], 400); ([string_enc_1; string_enc_2], 20); ([string_enc; bs "+"], 28)] = replicate 3 [Ok string_dec].
Proof. vm_compute. reflexivity. Qed.

Definition chunks_of (l : list byte) (max : nat) : option (list (list byte)) := option_map (List.map value) (Base64.chunks (Base64.new l max false)).
Definition lens_of (l : list byte) (max : nat) : nat := Base64.len (Base64.new l max false).

Example test_chunk_encoder :
  chunks_of string_dec <$> [400; 20; 28] = [Some [string_enc]; Some [string_enc_1; string_enc_2]; Some [string_enc; bs "+"]] /\
  lens_of string_dec <$> [400; 20; 28] = [1; 2; 2].
Proof. vm_compute. split; reflexivity. Qed.

Example test_chunk_encoder_empty : chunks_of [] 2 = Some [bs "+"] /\ lens_of [] 2 = 1.
Proof. vm_compute. split; reflexivity. Qed.

Example test_sasl_plain :
  (fun l => Auth.logic_reply l [] []) <$> Auth.Plain_logic (Auth.plain_cfg (bs "foobar") (bs "12345")) =
    [(Ok (), x00 :: bs "foobar" ++ x00 :: bs "12345", Auth.PlainLogic [])].
Proof. vm_compute. reflexivity. Qed.

(** ** Capabilities: the tests in [src/client/cap.rs] *)

Example test_ls_reply :
  let parse l := match irc_msg l with Some m => match Cap.parse (sargs m) with Some (Ok a) => Some a | _ => None end | None => None end in
  match parse (bs "CAP * LS * :foo=bar"), parse (bs "CAP * LS :bar baz") with
  | Some args1, Some args2 =>
      Cap.is_last args1 = false /\ Cap.map_get (Cap.caps args1) (bs "foo") = Some (bs "bar") /\
      Cap.map_get (Cap.caps args1) (bs "bar") = None /\ Cap.is_last args2 = true /\
      Cap.map_get (Cap.caps args2) <$> [bs "bar"; bs "baz"] = [Some []; Some []] /\
      (Cap.combine args1 args2).1 = None /\ length (Cap.caps (Cap.combine args1 args2).2) = 3
  | _, _ => False
  end.
Proof. vm_compute. split_and!; reflexivity. Qed.

(** ** Modes: [src/state/tests.rs] *)

Example test_mode_basic :
  Mode.cmp "r" "R" = Lt /\ Mode.cmp "r" "s" = Lt /\ Mode.cmp "R" "s" = Lt.
Proof. vm_compute. split_and!; reflexivity. Qed.

Example test_modeset_basic :
  let s0 := Mode.empty in
  let (b1, s1) := Mode.set s0 "r" in
  let (b2, s2) := Mode.set s1 "R" in
  let (b3, s3) := Mode.set s2 "R" in
  let (b4, s4) := Mode.unset s3 "r" in
  [b1; b2; b3; b4] = [true; true; false; true] /\ Mode.len <$> [s0; s1; s2; s3; s4] = [0; 1; 2; 2; 1] /\
  Mode.contains s1 "r" = true /\ Mode.contains s4 "r" = false /\ Mode.contains s4 "R" = true.
Proof. vm_compute. split_and!; reflexivity. Qed.

Definition two_modes : Mode.ModeSet := Mode.with_ (Mode.with_ Mode.empty "r") "R".

Example test_modeset_iter :
  (a ← Mode.next two_modes; b ← Mode.next a.2; Some ([a.1; b.1], Mode.next b.2)) = Some (["r"; "R"]%byte, None).
Proof. vm_compute. reflexivity. Qed.

Example test_modeset_iter_rev :
  (a ← Mode.next_back two_modes; b ← Mode.next_back a.2; Some ([a.1; b.1], Mode.next_back b.2)) = Some (["R"; "r"]%byte, None).
Proof. vm_compute. reflexivity. Qed.

Example test_modetypes_basic :
  Mode.types_get (Mode.types_parse (bs "r,R,,Ss,v")).1.1 <$> bs "vrRsS" =
    [None; Some Mode.TypeA; Some Mode.TypeB; Some Mode.TypeD; Some Mode.TypeD].
Proof. vm_compute. reflexivity. Qed.

Example test_statusmodes_basic :
  match Mode.status_parse (bs "(ov)@+") with
  | Ok s => Mode.get_prefix s <$> bs "vo" = [Some "+"; Some "@"]%byte /\ Mode.get_mode s <$> bs "+@" = [Some "v"; Some "o"]%byte
  | Err _ => False
  end.
Proof. vm_compute. split; reflexivity. Qed.

(** ** Maps: [src/util/tests.rs] *)

Example test_thinarc_basic :
  ThinArc.handles <$> ThinArc.run_acts ThinArc.new [ThinArc.AClone 0; ThinArc.ATryUnwrap 0; ThinArc.ADrop 0; ThinArc.ATryUnwrap 1; ThinArc.AFinish 1] =
    Some [ThinArc.HGone; ThinArc.HGone].
Proof. vm_compute. reflexivity. Qed.

Example test_flatmap_dedup :
  do_dedup (K := N) fst <$>
    [[]; [(1, 0)]; [(1, 0); (2, 0)]; [(1, 0); (2, 0); (3, 0)]; [(1, 0); (2, 0); (2, 0)]; [(1, 0); (1, 0); (2, 0)];
     [(1, 0); (2, 0); (2, 0); (3, 0)]; [(1, 0); (2, 0); (2, 1); (2, 2); (3, 0)]]%N =
    [[]; [(1, 0)]; [(1, 0); (2, 0)]; [(1, 0); (2, 0); (3, 0)]; [(1, 0); (2, 0)]; [(1, 0); (2, 0)];
     [(1, 0); (2, 0); (3, 0)]; [(1, 0); (2, 2); (3, 0)]]%N.
Proof. vm_compute. reflexivity. Qed.

Definition letters_from (a n : nat) : list (N * N) := (fun i => (N.of_nat i, N.of_nat (97 + i))) <$> seq a n.

Example test_flatmap_guard_insert :
  let g := foldl (fun g e => (FlatMap.insert fst g e).2) (FlatMap.edit (from_vec fst (letters_from 0 3))) (letters_from 3 23) in
  let m := guard_drop fst g in
  length m = 26 /\ (fun i => FlatMap.get fst m (N.of_nat i)) <$> seq 0 26 = Some <$> letters_from 0 26.
Proof. vm_compute. split; reflexivity. Qed.

(** A guard that is forgotten leaves what it had sorted. *)
Example test_flatmap_guard_forget :
  let (_, g) := FlatMap.insert fst (FlatMap.edit (from_vec fst (letters_from 1 3))) (4, 100)%N in
  option_map (fun r => length (take (sorted_until r.2) (src r.2))) (FlatMap.remove fst g 3%N) = Some 2.
Proof. vm_compute. reflexivity. Qed.

(** ** Nicks: [src/client/nick/tests.rs] *)

Fixpoint nicks_of (n : nat) (g : Nick.NickGen (list (list byte))) : list (list byte) :=
  match n with
  | 0 => []
  | S n =>
      match Nick.next_nick g with
      | Some (nick, Some g) => nick :: nicks_of n g
      | Some (nick, None) => [nick]
      | None => []
      end
  end.

Fixpoint no_repeat (l : list (list byte)) : bool :=
  match l with x :: (y :: _) as l' => negb (bool_decide (x = y)) && no_repeat l' | _ => true end.

Example test_suffix_rng :
  let nicks := nicks_of 17 (Nick.transform 0 (Nick.mkSuffix (Nick.Rng (Some 1337%N)) (replicate 9 Nick.Base8)) (bs "Foo")) in
  length <$> nicks = replicate 17 12 /\ no_repeat nicks = true.
Proof. vm_compute. split; reflexivity. Qed.

Example test_suffix_seq :
  let suffixes := [Nick.Char (bs "_"); Nick.Char (bs "_"); Nick.NonZeroBase8; Nick.Base8] in
  let nicks := nicks_of 11 (Nick.transform 0 (Nick.mkSuffix Nick.Seq suffixes) (bs "Foo")) in
  take 3 nicks = [bs "Foo_"; bs "Foo__"; bs "Foo__1"] /\ drop 8 nicks = [bs "Foo__7"; bs "Foo__10"; bs "Foo__20"].
Proof. vm_compute. split; reflexivity. Qed.
