(* ===== verification/RegisterTests.v ===== *)
(** * The unit tests of registration and of the channels

    [src/client/register/tests.rs]: a client with a bot's registration handler is
    run on what a server sends, from the bytes on the connection to the state it
    comes to.  [src/client/handler/channel/tests.rs], as far as it does not depend
    on the order in which threads run. *)

From S2P Require Import Prelude Handlers Channels Client ClientThms Boxed.
From S2P Require Numeric Strings Splitter Msg Codec Names Queue State Time Register Negotiate Cap Auth Nick Base64 Rfc4648 Defaults.

#[local] Existing Instances Rfc4648.rfc4648_engine ClientThms.no_adjuster.

Abbreviation Answered := (result () Register.HandlerError).

#[local] Program Instance answer_value : Value Answered Answered := {| into v := v; from := Some |}.
Next Obligation. done. Qed.

(** There are no channels of [tokio] here and no handlers of the program's own. *)
#[local] Instance no_tokio : Tokio Answered () () := {|
  oneshot_channel := ();
  oneshot_send _ c := (false, c);
  oneshot_drop c := c;
  unbounded_channel := ();
  unbounded_send _ c := (false, c);
  unbounded_drop c := c;
  upgrade _ := false;
|}.
Abbreviation TestHeap := (list (Cell Answered () ())).
#[local] Instance no_handler_of_its_own : Handler () N TestHeap Empty_set () := {|
  hhandle (h : Empty_set) := match h with end;
  hwants_owning (h : Empty_set) := match h with end;
|}.
Abbreviation TestBox := (BoxHandler TestHeap Auth.Logic (list (list byte)) Empty_set ()).
Abbreviation TestClient := (Client () N TestBox TestHeap () Sim SyncChannels).

(** [Cursor] over the message. *)
Definition cursor (msg : list byte) : Sim := mkSim 0 None (match msg with b :: l => [(0%N, b, l)] | [] => [] end) [].

Definition test_options : Defaults.Options Auth.AnySasl :=
  Defaults.mkOptions None [bs "Me"] None None [] false [].

Definition never (f : ()) (l : ClientLogic () N TestBox TestHeap) : Handlers.ControlFlow () * () * ClientLogic () N TestBox TestHeap :=
  (Handlers.Continue, f, l).

(** [static_register]; the outer [None] is where the test would panic. *)
Definition static_register (msg : list byte) : option (result State.ClientState Register.HandlerError) :=
  let cl : TestClient := new_with_logic (cursor msg) sync_channels (logic_new 0 []) in
  let q := Queue.set_rate_limit (Queue.from_secs 1000000) 0 (lqueue (logic cl)) 0 1 in
  let cl := client_with_logic (with_queue q (logic cl)) cl in
  match Boxed.add (R := Answered) (Hd := Register.Handler Auth.Logic (list (list byte))) (fun n => n) State.sample_type_id
          (Defaults.register_as_bot 0) test_options cl with
  | Some (Ok (_, Some a), cl) =>
      match Client.run (Queue.from_secs 1000000) (Boxed.call (fun n => n) State.sample_type_id) never 8800 99 cl with
      | Client.Done (Ok _, cl) =>
          match recv_at (heap (logic cl)) a with
          | Some (Some (Ok _)) => Some (Ok (lstate (logic cl)))
          | Some (Some (Err e)) => Some (Err e)
          | _ => None
          end
      | _ => None
      end
  | _ => None
  end.

Definition lines (l : list (list byte)) : list byte := concat ((fun x => x ++ Codec.CRLF) <$> l).

Definition registers (l : list (list byte)) : bool := match static_register (lines l) with Some (Ok _) => true | _ => false end.

Example test_ircv2_reg :
  registers
    [bs ":example.com NOTICE Me :senpai!"; bs ":foo!bar@baz 001 Me :Hi, we're glad to have you.";
     bs ":foo!bar@baz 002 Me :I'm your host. You can get foo at the bar."; bs ":foo!bar@baz 003 Me :Someone wrote me in 2024.";
     bs ":foo!bar@baz 004 Me ircv2_reg.fn the-latest-one iw bnt"; bs ":foo!bar@baz 422 Me :Nobody reads MOTDs anyway these days."] = true.
Proof. vm_compute. reflexivity. Qed.

Definition ircv3_lines : list (list byte) :=
  [bs ":example.com CAP * LS :quickbrownfox/lazydogjumping labeled-response"; bs ":example.com CAP * ACK :labeled-response";
   bs ":example.com 001 Me :Hi, we're glad to have you."; bs ":example.com 002 Me :I'm your host. You can get foo at the bar.";
   bs ":example.com 003 Me :Someone wrote me in 2024."; bs ":example.com 004 Me ircv2_reg.fn the-latest-one iw bnt";
   bs ":example.com 005 Me NETWORK=example.com FOXSAID=WHAT :are allegedly supported."; bs ":example.com NOTICE Me :senpai!";
   bs ":example.com 422 Me :Nobody reads MOTDs anyway these days."].

Example test_ircv3_reg_simple :
  match static_register (lines ircv3_lines) with
  | Some (Ok st) =>
      match State.get State.sample_type_id State.Caps st, State.get State.sample_type_id State.ISupport st with
      | Some caps, Some isupport =>
          Names.get_extra_raw caps <$> [bs "labeled-response"; bs "quickbrownfox/lazydogjumping"] = [Some true; Some false] /\
          Names.get_parsed isupport Names.NETWORK = Some (Ok (bs "example.com"))
      | _, _ => False
      end
  | _ => False
  end.
Proof. vm_compute. split; reflexivity. Qed.

Definition bounces (l : list byte) : option (list byte * N) :=
  match static_register (lines [l]) with Some (Err (Register.Redirect server port _)) => Some (server, port) | _ => None end.

Example test_bounce :
  bounces <$> [bs ":foo!bar@baz 005 :Try server example.com, port 6667"; bs ":foo!bar@baz 005 * :Try server example.com, port 6667";
    bs ":foo!bar@baz 005 Me :Try server example.com, port 6667";
    bs ":foo!bar@baz 010 Me example.com 6667 :We now live in a yellow submarine"] = replicate 4 (Some (bs "example.com", 6667%N)).
Proof. vm_compute. reflexivity. Qed.

(** [oneshot_slow_recv]: the value was sent before [recv]. *)
Example test_oneshot_slow_recv :
  option_map fst (sync_recv (sync_drop (sync_send (bs "foobar") sync_new).2)) = Some (Some (bs "foobar")).
Proof. vm_compute. reflexivity. Qed.
